(* ===== verification/_CoqProject ===== *)
-Q . S2P
Prelude.v
Text.v
Effects.v
Http.v
Headers.v
Calendar.v
AwsSpec.v
Canonical.v
SigV4.v
SigV4Correct.v
Base64.v
Chunked.v
ChunkedWire.v
Framing.v
XmlWrite.v
Types.v
Route.v
Response.v
Exchange.v
Metrics.v
Connection.v
Reactor.v
XmlParse.v
Checksums.v
Database.v
Metadata.v
ListXml.v
PgDatabase.v
Dispatch.v
Session.v
Upload.v
Hash.v
Host.v
Launcher.v
Worker.v
Config.v
Guarded.v
Stack.v
Probes.v
