(* ===== verification/Prelude.v ===== *)
(** A verification of pgs3, an S3 server that runs inside PostgreSQL as
    background workers (the Rust crate under [src/]).

    * The program

    A launcher process keeps a pool of HTTP workers and one garbage collector.
    Each HTTP worker multiplexes connections in one thread.  A connection reads
    a request head and a body, and drives an exchange with the S3 service; the
    service verifies the AWS signature, classifies the request, streams the
    body into the database while its digests are computed, and answers from
    database calls.  Stored objects are content-addressed blobs that SQL
    functions hash again through the extension.

    * The files, from the bottom up, and the sources they model

    - [Prelude], [Text]: results, lists, machine integers, hints and tactics;
      the parts of Rust's standard library the code calls on text.
    - [Effects]: programs that ask their surroundings, their runs and monitors
      over the events of a run.
    - [Http] ([protocol/http.rs]): the incremental request-head parser, header
      map, query parameters and path-style targets.
    - [Headers] ([protocol/headers.rs]): ranges, entity tags, preconditions.
    - [Calendar]: the civil-calendar functions of [protocol/sigv4.rs] and
      [s3/xml.rs].
    - [Canonical], [SigV4] ([protocol/sigv4.rs]): canonical requests, header and
      presigned verification.  [AwsSpec] is Signature Version 4 as AWS documents
      it, written without the code's own functions, and [SigV4Correct] proves
      that verification accepts exactly what it admits.
    - [Chunked] ([protocol/chunked.rs]): the aws-chunked decoder, with chunk
      signatures and trailers.  [ChunkedWire] is the grammar of a verified body
      on the wire and proves that the decoder finishes only on one.  [Base64] is
      a concrete codec for their witnesses.
    - [XmlWrite], [XmlParse] ([protocol/xml.rs]): XML responses and requests.
    - [Framing], [Response], [Exchange], [Connection], [Reactor]
      ([workers/http.rs]): body framing, responses on the wire, the exchange
      with a handler, the connection over its socket, and the worker's set of
      connections.
    - [Metrics] ([workers/mod.rs], [workers/http.rs]): metric deltas and the
      packed argument of a child.
    - [Host] ([workers/mod.rs]): what the workers ask of PostgreSQL and of the
      operating system, as effects, and the writes of a worker's state.
    - [Launcher] ([workers/launcher.rs], [workers/gc.rs]): the launcher and its
      pool, the control functions, the garbage collector, and the statements on
      the state table.
    - [Probes] ([workers/mod.rs], [workers/launcher.rs]): the statements behind
      the questions to [Host]; they only read where they must, and fail closed.
    - [Worker] ([workers/http.rs]): the main function of an HTTP worker, with its
      listening socket, reload and shutdown.
    - [Config] ([config.rs], [lib.rs], [api.rs]): the settings with their
      registered ranges, the functions that read them, the entry points.
    - [Guarded]: what a handler promises to the worker that drives it, and that
      exchange, connection, reactor and worker keep it.  [Stack]: the whole of
      an HTTP worker, from its sockets to the statements of [PgDatabase].
    - [Types], [Route] ([s3/types.rs], [s3/route.rs]): responses, errors and the
      router [classify].
    - [ListXml] ([s3/xml.rs]): the list documents.
    - [Database] ([s3/db.rs], [s3/service.rs]): the records and the methods of
      the [Database] trait as effects, and the mapping of its errors.
    - [PgDatabase] ([s3/db.rs]): every method of the trait as the transaction it
      runs, its statements on SPI and the decoding of their rows.
    - [Checksums], [Metadata], [Dispatch], [Session] ([s3/service.rs]): body
      checksums, object metadata, the operations, and requests with their body
      sessions; [Upload] holds the theorems on what a session stores and
      publishes.
    - [Hash] ([hash.rs]): reading and hashing of inline, chunked and composite
      blobs.

    Definitions keep the names of the source.  A Rust error is the [Err] of a
    [result]; a panic, where the code could reach one, is a value of its own.
    Bytes are [byte], integers are [Z] with the wrapping, saturating or checked
    operation of the source written out.

    * How the parts meet

    [Exchange] is written against the class [S3Handler], the trait of the
    source; [Session] gives the instance [PgS3Service].  [Connection] drives
    exchanges, [Reactor] drives connections, and both are proved for every
    handler.  [Session] calls [SigV4], [Route], [Chunked], [Checksums] and
    [Dispatch].  The service is a program over the effects of [Database]; its
    theorems quantify over every [World], that is over every database and
    clock.  [PgDatabase] implements the trait as programs over the effects of
    SPI, one per method; [Stack] puts it under the service, as the
    world in which a call is the statements of its method.  The launcher, the garbage collector and the main function of an HTTP
    worker are programs over [Host] in the same way; the last of them runs the
    steps of [Reactor] between its effects.

    * What the theorems show

    - The whole worker: in every run, each statement belongs to a transaction
      under the role of its call, and a call for a tenant follows a request
      whose signature verifies with the secret read for that tenant.
    - Who may act: header and presigned verification accept exactly what
      [AwsSpec] admits; requests with one signature agree on all it covers
      or exhibit a collision; nothing is done for a role before the signature
      was verified; an operation stays on the role, bucket and key it was
      given.
    - Bodies: framing and aws-chunked decoding round-trip, do not depend on
      fragmentation, and the decoder completes only on a body whose chunk and
      trailer signatures form the chain that starts at the request's; a session
      receives the body whole, stages it in numbered chunks of the chunk size,
      publishes only a complete and verified body, and closes after a failure.
    - Requests and responses: accepted heads have one framing; classified
      operations are in range, complete and of the right method; XML requests
      are accepted exactly as specified; a client reads one response where one
      was written; documents, metadata and listings read back what was written;
      a read answers for the record the database returned, whose tag and date
      satisfy the preconditions.
    - State machines: the lifecycle of an exchange, the bytes on the wire, the
      in-flight gauge and the connection limit, for every interleaving of
      reads, writes, timeouts and failures.
    - Database: every request sets its role and context before its statement and
      ends its transaction once, with the timer armed for the configured
      timeout; rows decode to records or to an error; a listing is truncated
      exactly when there is more.
    - Storage: ranges of blobs are streamed exactly; the hashes returned are
      those of contents with the recorded ids.
    - Workers: the launcher ends every child it started, writes only on a
      writable server and keeps one worker per slot; its state row has one
      owner; the garbage collector keeps its interval; both leave when asked.
      An HTTP worker listens on one configured socket, leaks none, and takes
      back every in-flight count before it ends.  What PostgreSQL admits as
      configuration reaches the workers within their limits.

    * What does not hold

    Four behaviours are stated as they are, not as a reader may expect them: a
    copy ignores [x-amz-copy-source-if-modified-since]
    ([Dispatch.copy_modified_since_ignored]); metadata spelt with surrogate
    escapes is dropped whole ([Metadata.surrogate_escape_drops]); a listing of
    parts with [max-parts] 0 never advances (in [ListXml.part_listing]); an
    empty name of a database falls back to the default
    ([Config.names_fall_back]).

    * Bounds and fuel

    Loops whose recursion is not structural take fuel, given by their caller
    from the input: the length of the input for parsers and decoders
    ([Chunked.run], [Framing.push_loop], [Headers.parse_tags],
    [Metadata.metadata_loop]), the number of workers in the pool for
    [Launcher.remove_stopped_http] and [Launcher.stop_surplus], one round per
    byte for [Session.stage_loop] ([Upload.staging_terminates] shows that more
    changes nothing), [MAX_BLOB_DEPTH] for [Hash.stream_blob_range], which is the
    source's own limit.  Theorems that a result is produced are proved with this
    fuel.  The main loops of the launcher and of the garbage collector run until
    the latch says stop: their theorems hold for any fuel, and
    [Launcher.workers_leave] gives the fuel that is enough.

    * Parameters

    Code outside the repository is a parameter with its documented laws: SHA-256,
    HMAC, MD5, CRC and the base64 codec, the quick-xml reader, the httpdate
    crate, sockets and clocks, the database with the rows SPI returns, and the answers of the PostgreSQL
    server to its background workers.

    * Not modelled

    - The SQL schema and its PL/pgSQL functions, which are not Rust; the
      constraints [Hash] relies on are its hypothesis [schema], and
      [_worker_set_state] is part of [Launcher.execute].  The paging of
      [pgs3.list] is the hypothesis [PgDatabase.listing].  The CHECK constraints
      of the state table are no guard of [Launcher.execute]; they are
      [Launcher.row_checks], which [Launcher.execute_checks] shows preserved.
    - The GUC machinery of PostgreSQL, whose ranges are the hypothesis
      [Config.admitted], and the macros of pgrx around the entry points.
    - Log messages; the timestamps of the state table. *)
From Stdlib Require Export ZArith Lia Strings.Byte.
From Stdlib Require String.
From stdpp Require Export base numbers list.
Export String.StringSyntax.

#[global] Open Scope Z_scope.

(** * Bytes

    A Rust [u8] is Stdlib's [byte]; [&[u8]], [Vec<u8>], [&str] and [String]
    are lists of bytes (a [String] holds its UTF-8 encoding). *)

Abbreviation bytes := (list byte).

#[global] Instance byte_eq_decision : EqDecision byte.
Proof.
  intros a b. destruct (Byte.eqb a b) eqn:E.
  - left. by apply Byte.byte_dec_bl.
  - right. intros ->. by rewrite Byte.byte_dec_lb in E.
Defined.

Definition bval (b : byte) : Z := Z.of_N (Byte.to_N b).

(** [as u8]: reduction modulo 256. *)
Definition mkb (z : Z) : byte :=
  match Byte.of_N (Z.to_N (z mod 256)) with Some b => b | None => x00 end.

Definition bs (s : String.string) : bytes := String.list_byte_of_string s.
Arguments bs s%_string_scope.

Definition all_bytes : bytes := map (fun n => mkb (Z.of_nat n)) (seq 0 256).

(** * Results: Rust's [Result<A, E>] with the [?] operator as [let*] *)

Inductive result (E A : Type) : Type :=
| Ok (a : A)
| Err (e : E).
Arguments Ok {E A} a.
Arguments Err {E A} e.

Declare Scope pgs3_scope.
Delimit Scope pgs3_scope with pgs3.
#[global] Open Scope pgs3_scope.

Notation "'let*' p ':=' c1 'in' c2" :=
  (match c1 with Ok p => c2 | Err e => Err e end)
  (at level 10, p pattern, c1 at level 200, c2 at level 200) : pgs3_scope.

(** Boolean equality on any type with decidable equality. *)
Notation "a ==b c" := (bool_decide (a = c)) (at level 70, no associativity) : pgs3_scope.

Section Result.
Context {E A B : Type}.

(** [Option::ok_or] *)
Definition ok_or (o : option A) (e : E) : result E A :=
  match o with Some a => Ok a | None => Err e end.

(** [Result::map_err] *)
Definition map_err {E'} (f : E -> E') (r : result E A) : result E' A :=
  match r with Ok a => Ok a | Err e => Err (f e) end.

(** [Option::map(f).transpose()] for a fallible [f]. *)
Definition transpose_map (f : A -> result E B) (o : option A) : result E (option B) :=
  match o with
  | None => Ok None
  | Some a => match f a with Ok b => Ok (Some b) | Err e => Err e end
  end.

Definition is_ok (r : result E A) : bool :=
  match r with Ok _ => true | Err _ => false end.

(** A [for] loop over a list whose body is fallible and pushes one element. *)
Fixpoint traverse (f : A -> result E B) (l : list A) : result E (list B) :=
  match l with
  | [] => Ok []
  | x :: l' =>
      match f x with
      | Err e => Err e
      | Ok y => match traverse f l' with Ok ys => Ok (y :: ys) | Err e => Err e end
      end
  end.
End Result.

(** A [for] loop over a list with a fallible body and an accumulator. *)
Fixpoint fold_result {E A S} (f : S -> A -> result E S) (s : S) (l : list A) : result E S :=
  match l with
  | [] => Ok s
  | x :: l' => match f s x with Ok s' => fold_result f s' l' | Err e => Err e end
  end.

(** * Machine integers: the range checks the code performs on [Z] *)

Definition u16_max : Z := 65535.
Definition u32_max : Z := 4294967295.
Definition u64_max : Z := 18446744073709551615.
(** The supported targets are 64-bit: [usize] has the width of [u64]. *)
Definition usize_max : Z := u64_max.
Definition i32_max : Z := 2147483647.
Definition i32_min : Z := -2147483648.
Definition i64_max : Z := 9223372036854775807.
Definition i64_min : Z := -9223372036854775808.

Definition in_range (lo hi z : Z) : bool := (lo <=? z) && (z <=? hi).

Definition checked (lo hi z : Z) : option Z :=
  if in_range lo hi z then Some z else None.

Definition checked_add_u64 (a b : Z) : option Z := checked 0 u64_max (a + b).
Definition checked_mul_u64 (a b : Z) : option Z := checked 0 u64_max (a * b).
Definition checked_add_i64 (a b : Z) : option Z := checked i64_min i64_max (a + b).
Definition checked_mul_i64 (a b : Z) : option Z := checked i64_min i64_max (a * b).
Definition clamp_i64 (z : Z) : Z := Z.max i64_min (Z.min i64_max z).
Definition saturating_add_i64 (a b : Z) : Z := clamp_i64 (a + b).
Definition saturating_sub_i64 (a b : Z) : Z := clamp_i64 (a - b).
Definition saturating_sub_u64 (a b : Z) : Z := Z.max 0 (a - b).

(** * Slices *)

Definition len {A} (l : list A) : Z := Z.of_nat (length l).

Definition is_empty {A} (l : list A) : bool :=
  match l with [] => true | _ => false end.

(** [iter().position(p)] *)
Fixpoint position {A} (p : A -> bool) (l : list A) : option nat :=
  match l with
  | [] => None
  | x :: l' => if p x then Some 0%nat else option_map S (position p l')
  end.

(** [iter().any(p)] and [iter().all(p)] are [existsb] and [forallb]. *)

(** [slice.split(p)]: the separators are dropped and an empty slice gives
    one empty piece. *)
Fixpoint split_on {A} (p : A -> bool) (l : list A) : list (list A) :=
  match l with
  | [] => [[]]
  | x :: l' =>
      if p x then [] :: split_on p l'
      else match split_on p l' with
           | [] => [[x]]
           | h :: t => (x :: h) :: t
           end
  end.

(** [join(sep)] *)
Fixpoint join {A} (sep : list A) (ls : list (list A)) : list A :=
  match ls with
  | [] => []
  | [l] => l
  | l :: ls' => l ++ sep ++ join sep ls'
  end.

(** [split_once(delimiter)] at a one-byte delimiter. *)
Fixpoint split_once (d : byte) (l : bytes) : option (bytes * bytes) :=
  match l with
  | [] => None
  | x :: l' =>
      if x ==b d then Some ([], l')
      else match split_once d l' with
           | Some (a, b) => Some (x :: a, b)
           | None => None
           end
  end.

Fixpoint drop_while {A} (p : A -> bool) (l : list A) : list A :=
  match l with
  | [] => []
  | x :: l' => if p x then drop_while p l' else l
  end.

Fixpoint take_while {A} (p : A -> bool) (l : list A) : list A :=
  match l with
  | [] => []
  | x :: l' => if p x then x :: take_while p l' else []
  end.

(** [while p(last) { pop }] *)
Definition drop_end_while {A} (p : A -> bool) (l : list A) : list A :=
  reverse (drop_while p (reverse l)).

Definition trim_by {A} (p : A -> bool) (l : list A) : list A :=
  drop_end_while p (drop_while p l).

(** [strip_prefix] *)
Fixpoint strip_prefix (p l : bytes) : option bytes :=
  match p, l with
  | [], _ => Some l
  | a :: p', b :: l' => if a ==b b then strip_prefix p' l' else None
  | _ :: _, [] => None
  end.

Definition starts_with (l p : bytes) : bool :=
  match strip_prefix p l with Some _ => true | None => false end.

(** [windows(needle.len()).position(|w| w == needle)] *)
Fixpoint find_sub (needle l : bytes) : option nat :=
  if starts_with l needle then Some 0%nat
  else match l with
       | [] => None
       | _ :: l' => option_map S (find_sub needle l')
       end.

Definition contains (b : byte) (l : bytes) : bool := existsb (fun x => x ==b b) l.

(** * Tactics and hint databases *)

Create HintDb pgs3.
Create Rewrite HintDb pgs3.

(** Case analysis on the scrutinee of a match in a hypothesis or the goal. *)
Ltac destr_match_in H :=
  match type of H with
  | context [match ?x with _ => _ end] =>
      lazymatch x with
      | context [match _ with _ => _ end] => fail
      | _ => let E := fresh "E" in destruct x eqn:E
      end
  end.

Ltac destr_match :=
  match goal with
  | |- context [match ?x with _ => _ end] =>
      lazymatch x with
      | context [match _ with _ => _ end] => fail
      | _ => let E := fresh "E" in destruct x eqn:E
      end
  end.

(** Turn boolean facts into propositions. *)
Ltac bool_hyps :=
  repeat match goal with
  | H : (_ && _)%bool = true |- _ => apply andb_prop in H; destruct H
  | H : (_ || _)%bool = false |- _ => apply orb_false_elim in H; destruct H
  | H : negb _ = true |- _ => apply negb_true_iff in H
  | H : negb _ = false |- _ => apply negb_false_iff in H
  | H : bool_decide _ = true |- _ => apply bool_decide_eq_true in H
  | H : bool_decide _ = false |- _ => apply bool_decide_eq_false in H
  | H : (_ <=? _) = true |- _ => apply Z.leb_le in H
  | H : (_ <=? _) = false |- _ => apply Z.leb_gt in H
  | H : (_ <? _) = true |- _ => apply Z.ltb_lt in H
  | H : (_ <? _) = false |- _ => apply Z.ltb_ge in H
  | H : (_ =? _) = true |- _ => apply Z.eqb_eq in H
  | H : (_ =? _) = false |- _ => apply Z.eqb_neq in H
  | H : in_range _ _ _ = true |- _ => unfold in_range in H
  | H : in_range _ _ _ = false |- _ => unfold in_range in H
  end.

(** Follow the successful path of a sequence of [let*] and [if] guards. *)
Ltac ok_path H :=
  repeat (destr_match_in H; simplify_eq H || (try discriminate H));
  try (injection H as <-) || idtac.

(** * Lemmas on bytes *)

Lemma bval_range b : 0 <= bval b < 256.
Proof. unfold bval. pose proof (Byte.to_N_bounded b). lia. Qed.

Lemma mkb_bval b : mkb (bval b) = b.
Proof.
  pose proof (bval_range b). unfold mkb, bval in *. rewrite Z.mod_small by done.
  by rewrite N2Z.id, Byte.of_to_N.
Qed.

(** A check that passes on all 256 bytes holds of every byte. *)
Lemma byte_forall (f : byte -> bool) : forallb f all_bytes = true -> forall b, f b = true.
Proof.
  intros H b. rewrite forallb_forall in H. apply H. unfold all_bytes.
  pose proof (bval_range b). apply in_map_iff. exists (Z.to_nat (bval b)).
  rewrite Z2Nat.id by lia. split; [apply mkb_bval|]. apply in_seq. lia.
Qed.

Lemma bval_mkb z : 0 <= z < 256 -> bval (mkb z) = z.
Proof.
  intros H. unfold bval, mkb. rewrite Z.mod_small by lia.
  destruct (Byte.of_N (Z.to_N z)) as [b|] eqn:E.
  - apply Byte.to_of_N in E. rewrite E. lia.
  - apply Byte.of_N_None_iff in E. lia.
Qed.

Lemma bval_inj a b : bval a = bval b -> a = b.
Proof. intros H. rewrite <- (mkb_bval a), <- (mkb_bval b). by rewrite H. Qed.

#[export] Hint Resolve bval_range : pgs3.
#[export] Hint Rewrite mkb_bval : pgs3.

(** * Lemmas on slices *)

(** Induction on the length of a list, for loops that skip several elements. *)
Lemma length_ind {A} (P : list A -> Prop) :
  (forall l, (forall m, (length m < length l)%nat -> P m) -> P l) -> forall l, P l.
Proof.
  intros H l. remember (length l) as n eqn:E. revert l E.
  induction (lt_wf n) as [n _ IH]. intros l ->. apply H. intros m Hm. by eapply IH.
Qed.

Section Slices.
Context {A : Type}.
Implicit Types l : list A.

Lemma len_nonneg l : 0 <= len l.
Proof. unfold len. lia. Qed.

Lemma len_nil : len (@nil A) = 0.
Proof. done. Qed.

Lemma len_cons x l : len (x :: l) = len l + 1.
Proof. unfold len. simpl. lia. Qed.

Lemma len_app l m : len (l ++ m) = len l + len m.
Proof. unfold len. rewrite length_app. lia. Qed.

Lemma len_zero l : len l = 0 -> l = [].
Proof. destruct l; [done|]. rewrite len_cons. pose proof (len_nonneg l). lia. Qed.

Lemma is_empty_true l : is_empty l = true <-> l = [].
Proof. by destruct l. Qed.

Lemma is_empty_false l : is_empty l = false <-> l <> [].
Proof. by destruct l. Qed.

Lemma position_Some (p : A -> bool) l i :
  position p l = Some i ->
  exists a x b, l = a ++ x :: b /\ length a = i /\ p x = true /\ Forall (fun y => p y = false) a.
Proof.
  revert i. induction l as [|y l IH]; intros i H; [done|]. simpl in H.
  destruct (p y) eqn:Ey.
  - simplify_eq. exists [], y, l. auto.
  - destruct (position p l) as [j|]; simplify_eq/=.
    destruct (IH j eq_refl) as (a & x & b & -> & <- & Hx & Ha).
    exists (y :: a), x, b. auto.
Qed.

Lemma position_None (p : A -> bool) l :
  position p l = None -> Forall (fun y => p y = false) l.
Proof.
  induction l as [|y l IH]; simpl; [done|].
  destruct (p y) eqn:Ey; [done|]. destruct (position p l); [done|]. auto.
Qed.

Lemma position_app (p : A -> bool) a x b :
  Forall (fun y => p y = false) a -> p x = true ->
  position p (a ++ x :: b) = Some (length a).
Proof.
  intros Ha Hx. induction Ha as [|y a Hy _ IH]; simpl; [by rewrite Hx|].
  by rewrite Hy, IH.
Qed.

Lemma position_not_found (p : A -> bool) l :
  Forall (fun y => p y = false) l -> position p l = None.
Proof. induction 1 as [|y l Hy _ IH]; simpl; [done|]. by rewrite Hy, IH. Qed.

Lemma split_on_cons (p : A -> bool) l : exists h t, split_on p l = h :: t.
Proof.
  induction l as [|x l IH]; simpl; [eauto|].
  destruct (p x); [eauto|]. destruct IH as (h & t & ->). eauto.
Qed.

Lemma split_on_no_sep (p : A -> bool) l :
  Forall (fun y => p y = false) l -> split_on p l = [l].
Proof. induction 1 as [|y l Hy _ IH]; simpl; [done|]. by rewrite Hy, IH. Qed.

Lemma split_on_app (p : A -> bool) a x b :
  Forall (fun y => p y = false) a -> p x = true ->
  split_on p (a ++ x :: b) = a :: split_on p b.
Proof.
  intros Ha Hx. induction Ha as [|y a Hy _ IH]; simpl; [by rewrite Hx|].
  by rewrite Hy, IH.
Qed.

Lemma split_on_pieces (p : A -> bool) l :
  Forall (Forall (fun y => p y = false)) (split_on p l).
Proof.
  induction l as [|x l IH]; simpl; [auto|]. destruct (p x) eqn:Ex; [auto|].
  destruct (split_on p l) as [|h t]; [auto|]. inversion IH; subst. auto.
Qed.

Lemma split_on_join (p : A -> bool) (sep : A) (ls : list (list A)) :
  p sep = true -> ls <> [] -> Forall (Forall (fun y => p y = false)) ls ->
  split_on p (join [sep] ls) = ls.
Proof.
  intros Hs Hne Hls. induction Hls as [|l ls Hl Hls IH]; [done|].
  destruct ls as [|l' ls]; simpl join.
  - by apply split_on_no_sep.
  - rewrite split_on_app by done. f_equal. by apply IH.
Qed.

Lemma elem_of_split_on (p : A -> bool) l piece y :
  piece ∈ split_on p l -> y ∈ piece -> y ∈ l.
Proof.
  revert piece. induction l as [|x l IH]; intros piece; simpl.
  - intros Hp Hy. apply list_elem_of_singleton in Hp as ->. done.
  - destruct (p x).
    + intros [->|Hp]%elem_of_cons Hy; [by apply elem_of_nil in Hy|]. right. eauto.
    + destruct (split_on p l) as [|h t] eqn:E.
      * intros ->%list_elem_of_singleton Hy. apply list_elem_of_singleton in Hy as ->. left.
      * intros [->|Hp]%elem_of_cons Hy.
        -- apply elem_of_cons in Hy as [->|Hy]; [left|right]. eapply IH; [|exact Hy]. left.
        -- right. eapply IH; [|exact Hy]. by right.
Qed.

Lemma drop_while_spec (p : A -> bool) l :
  exists a, l = a ++ drop_while p l /\ Forall (fun y => p y = true) a.
Proof.
  induction l as [|x l (a & IH & Ha)]; simpl; [by exists []|].
  destruct (p x) eqn:Ex; [|by exists []].
  exists (x :: a). split; [by rewrite IH at 1|auto].
Qed.

Lemma drop_while_head (p : A -> bool) l x r : drop_while p l = x :: r -> p x = false.
Proof.
  induction l as [|y l IH]; simpl; [done|]. destruct (p y) eqn:Ey; [done|].
  intros; by simplify_eq.
Qed.

Lemma drop_while_id (p : A -> bool) l :
  (forall x r, l = x :: r -> p x = false) -> drop_while p l = l.
Proof. destruct l as [|x l]; simpl; [done|]. intros H. by rewrite (H x l). Qed.

Lemma trim_by_id (p : A -> bool) l :
  (forall x, head l = Some x -> p x = false) -> (forall x, last l = Some x -> p x = false) ->
  trim_by p l = l.
Proof.
  intros Hh Hl. unfold trim_by, drop_end_while.
  rewrite (drop_while_id p l) by (intros x r ->; by apply Hh).
  rewrite (drop_while_id p (reverse l)); [by rewrite reverse_involutive|].
  intros x r E. apply Hl. rewrite <- head_reverse. by rewrite E.
Qed.

Lemma trim_by_sublist (p : A -> bool) l :
  exists a b, l = a ++ trim_by p l ++ b /\
    Forall (fun y => p y = true) a /\ Forall (fun y => p y = true) b.
Proof.
  unfold trim_by, drop_end_while.
  destruct (drop_while_spec p l) as (a & Ha & Fa). set (m := drop_while p l) in *.
  destruct (drop_while_spec p (reverse m)) as (b & Hb & Fb).
  exists a, (reverse b). repeat split; [|done|by apply Forall_reverse].
  rewrite Ha. f_equal. rewrite <- reverse_app, <- Hb. by rewrite reverse_involutive.
Qed.

Lemma trim_by_elem (p : A -> bool) l x : x ∈ trim_by p l -> x ∈ l.
Proof.
  intros H. destruct (trim_by_sublist p l) as (a & b & E & _).
  rewrite E, !elem_of_app. auto.
Qed.

Lemma trim_by_ends (p : A -> bool) l x :
  head (trim_by p l) = Some x \/ last (trim_by p l) = Some x -> p x = false.
Proof.
  unfold trim_by, drop_end_while. set (m := drop_while p l).
  intros [H|H].
  - destruct (drop_while_spec p (reverse m)) as (b & Hb & _).
    assert (Hm : m = reverse (drop_while p (reverse m)) ++ reverse b).
    { rewrite <- reverse_app, <- Hb. by rewrite reverse_involutive. }
    destruct (reverse (drop_while p (reverse m))) as [|y r]; simplify_eq/=.
    by eapply drop_while_head.
  - rewrite last_reverse in H. destruct (drop_while p (reverse m)) eqn:E; simplify_eq/=.
    by eapply drop_while_head.
Qed.

Lemma take_while_app (p : A -> bool) a b :
  Forall (fun y => p y = true) a -> (forall x, head b = Some x -> p x = false) ->
  take_while p (a ++ b) = a.
Proof.
  intros Ha Hb. induction Ha as [|y a Hy _ IH]; simpl.
  - destruct b as [|x b]; simpl; [done|]. by rewrite (Hb x).
  - by rewrite Hy, IH.
Qed.
End Slices.

#[export] Hint Rewrite @len_cons @len_app @len_nil : pgs3.

Lemma split_once_Some d l a b :
  split_once d l = Some (a, b) <-> l = a ++ d :: b /\ d ∉ a.
Proof.
  split.
  - revert a b. induction l as [|x l IH]; intros a b H; [done|]. simpl in H.
    case_bool_decide; [simplify_eq; split; [done|apply not_elem_of_nil]|].
    destruct (split_once d l) as [[a' b']|]; simplify_eq.
    destruct (IH a' b eq_refl) as [-> Hd]. split; [done|]. rewrite not_elem_of_cons. auto.
  - intros [-> Hd]. induction a as [|x a IH]; simpl; [by rewrite bool_decide_true|].
    apply not_elem_of_cons in Hd as [Hx Hd]. rewrite bool_decide_false by done.
    by rewrite IH.
Qed.

Lemma split_once_None d l : split_once d l = None <-> d ∉ l.
Proof.
  induction l as [|x l IH]; simpl; [split; [intros _; apply not_elem_of_nil|done]|].
  rewrite not_elem_of_cons. case_bool_decide; [naive_solver|].
  destruct (split_once d l) as [[a b]|]; naive_solver.
Qed.

Lemma contains_true b l : contains b l = true <-> b ∈ l.
Proof.
  unfold contains. rewrite existsb_exists. setoid_rewrite bool_decide_eq_true.
  rewrite list_elem_of_In. naive_solver.
Qed.

Lemma contains_false b l : contains b l = false <-> b ∉ l.
Proof. rewrite <- contains_true. by destruct (contains b l). Qed.

(** [iter().any(|x| x == a)] *)
Lemma contains_true' {A} `{EqDecision A} (a : A) l : existsb (fun x => x ==b a) l = true <-> a ∈ l.
Proof.
  rewrite existsb_exists. setoid_rewrite bool_decide_eq_true. rewrite list_elem_of_In. naive_solver.
Qed.

Lemma strip_prefix_Some p l r : strip_prefix p l = Some r <-> l = p ++ r.
Proof.
  revert l. induction p as [|a p IH]; intros [|b l]; simpl; [naive_solver..|].
  case_bool_decide; [|naive_solver]. subst. rewrite IH. naive_solver.
Qed.

Lemma starts_with_true l p : starts_with l p = true <-> exists r, l = p ++ r.
Proof.
  unfold starts_with. destruct (strip_prefix p l) as [r|] eqn:E.
  - apply strip_prefix_Some in E. naive_solver.
  - split; [done|]. intros [r Hr]. apply strip_prefix_Some in Hr. congruence.
Qed.

Lemma starts_with_app_r l m p :
  (length p <= length l)%nat -> starts_with (l ++ m) p = starts_with l p.
Proof.
  intros H. apply eq_bool_prop_intro. rewrite !Is_true_true, !starts_with_true. split.
  - intros [r Hr]. exists (drop (length p) l).
    assert (E : take (length p) (l ++ m) = p) by (by rewrite Hr, take_app_length).
    rewrite take_app_le in E by lia. rewrite <- E at 1. by rewrite take_drop.
  - intros [r ->]. exists (r ++ m). by rewrite app_assoc.
Qed.

Lemma starts_with_length l p : starts_with l p = true -> (length p <= length l)%nat.
Proof. intros [r ->]%starts_with_true. rewrite length_app. lia. Qed.

(** The first occurrence of [needle]: everything before it, and nothing earlier. *)
Lemma find_sub_Some needle l i :
  find_sub needle l = Some i ->
  l = take i l ++ needle ++ drop (i + length needle) l /\ (i + length needle <= length l)%nat.
Proof.
  revert i. induction l as [|x l IH]; intros i H; cbn [find_sub] in H.
  - destruct (starts_with [] needle) eqn:E; [|done]. simplify_eq.
    apply starts_with_true in E as [r Hr]. destruct needle; [|done]. done.
  - destruct (starts_with (x :: l) needle) eqn:E.
    + simplify_eq. apply starts_with_true in E as [r Hr]. simpl take.
      rewrite Hr. rewrite Nat.add_0_l, drop_app_length, length_app. split; [done|lia].
    + destruct (find_sub needle l) as [j|]; simplify_eq/=.
      destruct (IH j eq_refl) as [Hl Hb]. split; [by f_equal|lia].
Qed.

Lemma find_sub_app needle l m i :
  find_sub needle l = Some i -> find_sub needle (l ++ m) = Some i.
Proof.
  revert i. induction l as [|x l IH]; intros i H; pose proof (find_sub_Some _ _ _ H) as [_ Hb].
  - cbn [find_sub] in H. destruct needle; [|simpl in Hb; lia].
    destruct m; simpl in *; by simplify_eq.
  - cbn [find_sub app] in *. change (x :: l ++ m) with ((x :: l) ++ m).
    rewrite starts_with_app_r by lia.
    destruct (starts_with (x :: l) needle); [done|].
    destruct (find_sub needle l) as [j|]; simplify_eq/=. by rewrite (IH j).
Qed.

Lemma find_sub_late needle l m i :
  find_sub needle l = None -> find_sub needle (l ++ m) = Some i ->
  (length l < i + length needle)%nat.
Proof.
  intros Hn Hs. destruct (decide (i + length needle <= length l)%nat) as [Hle|]; [|lia].
  exfalso. revert i Hs Hle. induction l as [|x l IH]; intros i Hs Hle.
  - destruct needle; [|simpl in Hle; lia]. done.
  - cbn [find_sub app] in *. change (x :: l ++ m) with ((x :: l) ++ m) in Hs.
    rewrite starts_with_app_r in Hs by lia.
    destruct (starts_with (x :: l) needle); [done|].
    destruct (find_sub needle l) as [j|] eqn:E; [done|].
    destruct (find_sub needle (l ++ m)) as [k|]; simplify_eq/=.
    eapply (IH eq_refl k eq_refl). lia.
Qed.

(** * Lemmas on results *)

Lemma ok_or_Ok {E A} (o : option A) (e : E) a : ok_or o e = Ok a <-> o = Some a.
Proof. destruct o; simpl; naive_solver. Qed.

Lemma Ok_bind {E A B} (r : result E A) (f : A -> result E B) b :
  (let* x := r in f x) = Ok b <-> exists a, r = Ok a /\ f a = Ok b.
Proof. destruct r; naive_solver. Qed.

Lemma map_err_Ok {E E' A} (f : E -> E') (r : result E A) a : map_err f r = Ok a <-> r = Ok a.
Proof. destruct r; simpl; naive_solver. Qed.

Lemma traverse_Ok {E A B} (f : A -> result E B) l k :
  traverse f l = Ok k <-> Forall2 (fun x y => f x = Ok y) l k.
Proof.
  revert k. induction l as [|x l IH]; intros k; simpl.
  - split; [by intros [= <-]|]. by inversion 1.
  - split.
    + destruct (f x) eqn:Ex; [|done]. destruct (traverse f l) eqn:El; [|done].
      intros [= <-]. constructor; [done|]. by apply IH.
    + inversion 1 as [|? y ? k' Hy Hk]; subst. rewrite Hy. apply IH in Hk. by rewrite Hk.
Qed.

Lemma fold_result_app {E A S} (f : S -> A -> result E S) s l m :
  fold_result f s (l ++ m) =
  match fold_result f s l with Ok s' => fold_result f s' m | Err e => Err e end.
Proof. revert s. induction l as [|x l IH]; intros s; simpl; [done|]. by destruct (f s x). Qed.

(** * Lemmas on integers *)

Lemma checked_Some lo hi z w : checked lo hi z = Some w <-> w = z /\ lo <= z <= hi.
Proof.
  unfold checked, in_range. destruct (Z.leb_spec lo z), (Z.leb_spec z hi); simpl; naive_solver lia.
Qed.

Lemma checked_in lo hi z : lo <= z <= hi -> checked lo hi z = Some z.
Proof. intros. by apply checked_Some. Qed.

Lemma checked_None lo hi z : checked lo hi z = None <-> z < lo \/ hi < z.
Proof.
  unfold checked, in_range. destruct (Z.leb_spec lo z), (Z.leb_spec z hi); simpl; naive_solver lia.
Qed.

(** [bool_hyps] extended with the slice predicates. *)
Ltac guards :=
  repeat (progress bool_hyps
          || match goal with
             | H : is_empty _ = false |- _ => apply is_empty_false in H
             | H : is_empty _ = true |- _ => apply is_empty_true in H
             | H : contains _ _ = false |- _ => apply contains_false in H
             | H : contains _ _ = true |- _ => apply contains_true in H
             end).

(** [Vec::swap_remove] *)
Definition swap_remove {A} (index : nat) (l : list A) : list A :=
  match last l with
  | Some x => if Nat.eqb (S index) (length l) then removelast l else <[index := x]> (removelast l)
  | None => l
  end.

Lemma swap_remove_perm {A} (l : list A) i x : l !! i = Some x -> Permutation (x :: swap_remove i l) l.
Proof.
  intros Hi. unfold swap_remove. destruct l as [|z l' _] using rev_ind; [done|].
  rewrite last_snoc, length_app. cbn [length]. rewrite removelast_last. apply lookup_lt_Some in Hi as Hlt.
  rewrite length_app in Hlt. cbn [length] in Hlt.
  destruct (Nat.eqb_spec (S i) (length l' + 1)) as [E|E].
  - rewrite lookup_app_r in Hi by lia. replace (i - length l')%nat with O in Hi by lia. injection Hi as <-.
    apply Permutation_cons_append.
  - rewrite lookup_app_l in Hi by lia. rewrite <- (take_drop_middle l' i x Hi) at 2.
    rewrite insert_take_drop by lia. rewrite <- !app_assoc. cbn [app].
    etransitivity; [apply Permutation_middle|]. apply Permutation_app_head, perm_skip, Permutation_cons_append.
Qed.

Lemma swap_remove_take {A} (l : list A) i x : l !! i = Some x -> take i (swap_remove i l) = take i l.
Proof.
  intros Hi. apply lookup_lt_Some in Hi. unfold swap_remove. destruct l as [|z l' _] using rev_ind; [done|].
  rewrite last_snoc, length_app, removelast_last. rewrite length_app in Hi. cbn [length] in *.
  destruct (Nat.eqb_spec (S i) (length l' + 1)); [|rewrite take_insert_ge by lia]; by rewrite take_app_le by lia.
Qed.
