(* ===== verification/Text.v ===== *)
(** Text primitives of the Rust standard library that the protocol code calls
    on bytes and strings: ASCII classes and case mapping, UTF-8 validation
    ([str::from_utf8]), [str::trim], integer parsing ([str::parse]) and
    decimal printing ([to_string]). *)
From S2P Require Import Prelude.

(** * ASCII classes *)

Definition is_ascii_digit (b : byte) : bool := in_range 48 57 (bval b).
Definition is_ascii_lowercase (b : byte) : bool := in_range 97 122 (bval b).
Definition is_ascii_uppercase (b : byte) : bool := in_range 65 90 (bval b).
Definition is_ascii_alphanumeric (b : byte) : bool :=
  is_ascii_digit b || is_ascii_lowercase b || is_ascii_uppercase b.
Definition is_ascii_hexdigit (b : byte) : bool :=
  is_ascii_digit b || in_range 97 102 (bval b) || in_range 65 70 (bval b).
Definition is_ascii_control (b : byte) : bool := (bval b <? 32) || (bval b =? 127).
Definition is_ascii_graphic (b : byte) : bool := in_range 33 126 (bval b).
(** Space, tab, line feed, form feed and carriage return. *)
Definition is_ascii_whitespace (b : byte) : bool :=
  (bval b =? 32) || (bval b =? 9) || (bval b =? 10) || (bval b =? 12) || (bval b =? 13).

Definition to_ascii_lowercase (b : byte) : byte :=
  if is_ascii_uppercase b then mkb (bval b + 32) else b.
Definition to_ascii_uppercase (b : byte) : byte :=
  if is_ascii_lowercase b then mkb (bval b - 32) else b.
Definition lowercase (l : bytes) : bytes := map to_ascii_lowercase l.
Definition uppercase (l : bytes) : bytes := map to_ascii_uppercase l.
Definition eq_ignore_ascii_case (a b : bytes) : bool := lowercase a ==b lowercase b.

(** The digit tests spelled [b'0'..=b'9' | b'a'..=b'f' | b'A'..=b'F']. *)
Definition hex_digit (b : byte) : option Z :=
  let v := bval b in
  if in_range 48 57 v then Some (v - 48)
  else if in_range 97 102 v then Some (v - 97 + 10)
  else if in_range 65 70 v then Some (v - 65 + 10)
  else None.

(** RFC 9110 [tchar], as spelled by [matches!] in the sources. *)
Definition tchar_symbols : bytes := bs "!#$%&'*+-.^_`|~".

(** * UTF-8 *)

Definition is_continuation (b : byte) : bool := in_range 128 191 (bval b).

(** [std::str::from_utf8] accepts exactly the well-formed byte sequences of
    Unicode table 3-7. *)
Fixpoint utf8_valid (l : bytes) : bool :=
  match l with
  | [] => true
  | b0 :: r0 =>
      let v := bval b0 in
      if v <? 128 then utf8_valid r0
      else if in_range 194 223 v then
        match r0 with
        | b1 :: r1 => is_continuation b1 && utf8_valid r1
        | _ => false
        end
      else if in_range 224 239 v then
        match r0 with
        | b1 :: b2 :: r2 =>
            (if v =? 224 then in_range 160 191 (bval b1)
             else if v =? 237 then in_range 128 159 (bval b1)
             else is_continuation b1)
            && is_continuation b2 && utf8_valid r2
        | _ => false
        end
      else if in_range 240 244 v then
        match r0 with
        | b1 :: b2 :: b3 :: r3 =>
            (if v =? 240 then in_range 144 191 (bval b1)
             else if v =? 244 then in_range 128 143 (bval b1)
             else is_continuation b1)
            && is_continuation b2 && is_continuation b3 && utf8_valid r3
        | _ => false
        end
      else false
  end.

Definition from_utf8 (l : bytes) : option bytes :=
  if utf8_valid l then Some l else None.

(** * [str::trim]: the encodings of the Unicode [White_Space] characters *)

Definition white_space : list bytes :=
  map (fun l => map mkb l)
    [[9]; [10]; [11]; [12]; [13]; [32]; [194; 133]; [194; 160]; [225; 154; 128];
     [226; 128; 128]; [226; 128; 129]; [226; 128; 130]; [226; 128; 131]; [226; 128; 132];
     [226; 128; 133]; [226; 128; 134]; [226; 128; 135]; [226; 128; 136]; [226; 128; 137];
     [226; 128; 138]; [226; 128; 168]; [226; 128; 169]; [226; 128; 175]; [226; 129; 159];
     [227; 128; 128]].

Fixpoint strip_any (ps : list bytes) (l : bytes) : option bytes :=
  match ps with
  | [] => None
  | p :: ps' => match strip_prefix p l with Some r => Some r | None => strip_any ps' l end
  end.

Fixpoint strip_repeat (fuel : nat) (ps : list bytes) (l : bytes) : bytes :=
  match fuel with
  | O => l
  | S fuel' => match strip_any ps l with Some r => strip_repeat fuel' ps r | None => l end
  end.

(** Every encoding is at least one byte long, so [length l] rounds suffice. *)
Definition str_trim_start (l : bytes) : bytes := strip_repeat (length l) white_space l.
Definition str_trim_end (l : bytes) : bytes :=
  reverse (strip_repeat (length l) (map reverse white_space) (reverse l)).
Definition str_trim (l : bytes) : bytes := str_trim_end (str_trim_start l).

(** * Integers as text *)

Definition digit_value (b : byte) : Z := bval b - 48.

Definition dec_value (l : bytes) : Z := foldl (fun acc b => acc * 10 + digit_value b) 0 l.

(** The digits of [str::parse] on an integer type, after its optional sign. *)
Definition parse_digits (l : bytes) : option Z :=
  if is_empty l || negb (forallb is_ascii_digit l) then None else Some (dec_value l).

(** [str::parse::<T>()] for an unsigned [T] with maximum [hi]: a leading [+]
    is accepted. *)
Definition parse_unsigned (hi : Z) (l : bytes) : option Z :=
  let digits := match strip_prefix (bs "+") l with Some r => r | None => l end in
  match parse_digits digits with
  | Some v => checked 0 hi v
  | None => None
  end.

(** [str::parse::<T>()] for a signed [T]. *)
Definition parse_signed (lo hi : Z) (l : bytes) : option Z :=
  match strip_prefix (bs "-") l with
  | Some r => match parse_digits r with Some v => checked lo hi (- v) | None => None end
  | None =>
      let digits := match strip_prefix (bs "+") l with Some r => r | None => l end in
      match parse_digits digits with Some v => checked lo hi v | None => None end
  end.

Definition parse_u64 (l : bytes) : option Z := parse_unsigned u64_max l.
Definition parse_u16 (l : bytes) : option Z := parse_unsigned u16_max l.
Definition parse_usize (l : bytes) : option Z := parse_unsigned usize_max l.
Definition parse_i64 (l : bytes) : option Z := parse_signed i64_min i64_max l.
Definition parse_i32 (l : bytes) : option Z := parse_signed i32_min i32_max l.

(** One digit of the loop [value.checked_mul(10).and_then(|v|
    v.checked_add(digit)).ok_or(error)?] over a [u64]. *)
Definition decimal_step {E} (error : E) (acc : Z) (digit : byte) : result E Z :=
  ok_or (match checked_mul_u64 acc 10 with
         | Some value => checked_add_u64 value (bval digit - 48)
         | None => None
         end) error.

Definition decimal_loop {E} (error : E) (value : bytes) : result E Z :=
  if is_empty value || negb (forallb is_ascii_digit value) then Err error
  else fold_result (decimal_step error) 0 value.

Definition digit_byte (d : Z) : byte := mkb (48 + d).

Fixpoint show_digits (fuel : nat) (n : Z) : bytes :=
  match fuel with
  | O => []
  | S fuel' => if n <? 10 then [digit_byte n]
               else show_digits fuel' (n / 10) ++ [digit_byte (n mod 10)]
  end.

(** [to_string] on an integer. *)
Definition show_Z (n : Z) : bytes :=
  if n <? 0 then x2d :: show_digits (S (Z.to_nat (Z.log2 (- n)))) (- n)
  else show_digits (S (Z.to_nat (Z.log2 n))) n.

(** * Lemmas *)

Lemma ascii_utf8_valid l : Forall (fun b => bval b < 128) l -> utf8_valid l = true.
Proof.
  induction 1 as [|b l Hb _ IH]; [done|]. cbn [utf8_valid].
  destruct (Z.ltb_spec (bval b) 128); [done|lia].
Qed.

Lemma utf8_valid_ascii_app a b :
  Forall (fun b => bval b < 128) a -> utf8_valid (a ++ b) = utf8_valid b.
Proof.
  induction 1 as [|x a Hx _ IH]; [done|]. cbn [utf8_valid app].
  destruct (Z.ltb_spec (bval x) 128); [done|lia].
Qed.

(** Well-formed text may be cut after any of its characters. *)
Lemma utf8_valid_app a b : utf8_valid a = true -> utf8_valid (a ++ b) = utf8_valid b.
Proof.
  revert a. refine (length_ind _ _). intros a IH Ha. destruct a as [|b0 r0]; [done|]. revert Ha.
  cbn [utf8_valid app]. destruct (bval b0 <? 128); [intros; apply IH; [simpl; lia|done]|].
  destruct (in_range 194 223 (bval b0)).
  { destruct r0 as [|b1 r1]; [done|]. rewrite andb_true_iff. intros [H1 Hr].
    cbn [app]. rewrite H1. simpl. apply IH; [simpl; lia|done]. }
  destruct (in_range 224 239 (bval b0)).
  { destruct r0 as [|b1 [|b2 r2]]; [done|done|]. rewrite !andb_true_iff. intros [[H1 H2] Hr].
    cbn [app]. rewrite H1, H2. simpl. apply IH; [simpl; lia|done]. }
  destruct (in_range 240 244 (bval b0)); [|done].
  destruct r0 as [|b1 [|b2 [|b3 r3]]]; [done|done|done|]. rewrite !andb_true_iff. intros [[[H1 H2] H3] Hr].
  cbn [app]. rewrite H1, H2, H3. simpl. apply IH; [simpl; lia|done].
Qed.

(** Well-formed text may be cut before any byte that starts a character. *)
Lemma utf8_valid_cut a b r : utf8_valid (a ++ b :: r) = true -> is_continuation b = false ->
  utf8_valid a = true /\ utf8_valid (b :: r) = true.
Proof.
  intros Hv Hb. assert (Ha : utf8_valid a = true); [|by rewrite utf8_valid_app in Hv by done].
  revert a Hv. refine (length_ind _ _). intros a IH Hv. destruct a as [|b0 r0]; [done|]. revert Hv.
  cbn [utf8_valid app]. destruct (bval b0 <? 128); [intros; apply IH; [simpl; lia|done]|].
  assert (Hnot : forall lo hi, 128 <= lo -> hi <= 191 -> in_range lo hi (bval b) = false).
  { intros lo hi Hlo Hhi. revert Hb. unfold is_continuation, in_range.
    rewrite !andb_false_iff, !Z.leb_gt. lia. }
  destruct (in_range 194 223 (bval b0)).
  { destruct r0 as [|b1 r1]; cbn [app]; rewrite andb_true_iff; [rewrite Hb; by intros [? ?]|].
    intros [H1 Hr]. rewrite H1. simpl. apply IH; [simpl; lia|done]. }
  destruct (in_range 224 239 (bval b0)).
  { destruct r0 as [|b1 [|b2 r2]]; cbn [app]; [destruct r; [done|]| |]; rewrite !andb_true_iff.
    - rewrite Hb, !Hnot by lia. by repeat case_match; intros [[? ?] ?].
    - rewrite Hb. by intros [[? ?] ?].
    - intros [[H1 H2] Hr]. split; [by split|]. apply IH; [simpl; lia|done]. }
  destruct (in_range 240 244 (bval b0)); [|done].
  destruct r0 as [|b1 [|b2 [|b3 r3]]]; cbn [app];
    [destruct r as [|? [|? ?]]; [done|done|]|destruct r; [done|]| |]; rewrite !andb_true_iff.
  - rewrite Hb, !Hnot by lia. by repeat case_match; intros [[[? ?] ?] ?].
  - rewrite Hb. by intros [[[? ?] ?] ?].
  - rewrite Hb. by intros [[[? ?] ?] ?].
  - intros [[[H1 H2] H3] Hr]. repeat (split; [|]); try done. apply IH; [simpl; lia|done].
Qed.

Lemma white_space_char w : w ∈ white_space ->
  utf8_valid w = true /\ exists b r, w = b :: r /\ is_continuation b = false.
Proof.
  assert (Hall : forallb (fun w => utf8_valid w && match w with b :: _ => negb (is_continuation b) | [] => false end)
                   white_space = true) by (by vm_compute).
  rewrite list_elem_of_In. rewrite forallb_forall in Hall. intros Hw. specialize (Hall w Hw).
  apply andb_true_iff in Hall as [Hv Hb]. split; [done|]. destruct w as [|b r]; [done|].
  exists b, r. split; [done|]. by apply negb_true_iff in Hb.
Qed.

Lemma strip_any_Some ps l r : strip_any ps l = Some r -> exists p, p ∈ ps /\ l = p ++ r.
Proof.
  induction ps as [|p ps IH]; [done|]. cbn [strip_any]. destruct (strip_prefix p l) as [x|] eqn:E.
  - intros [= ->]. apply strip_prefix_Some in E. exists p. split; [by left|done].
  - intros (q & Hq & ->)%IH. exists q. split; [by right|done].
Qed.

Lemma strip_repeat_inv (P : bytes -> Prop) ps fuel : (forall p r, p ∈ ps -> P (p ++ r) -> P r) ->
  forall l, P l -> P (strip_repeat fuel ps l).
Proof.
  intros Hp. induction fuel as [|fuel IH]; [done|]. intros l Hl. cbn [strip_repeat].
  destruct (strip_any ps l) as [r|] eqn:E; [|done]. apply strip_any_Some in E as (p & Hin & ->).
  apply IH. by eapply Hp.
Qed.

Lemma str_trim_utf8 l : utf8_valid l = true -> utf8_valid (str_trim l) = true.
Proof.
  intros Hl. unfold str_trim, str_trim_end, str_trim_start.
  apply (strip_repeat_inv (fun l => utf8_valid (reverse l) = true)).
  - intros p r Hp. apply list_elem_of_fmap in Hp as (w & -> & (_ & b & r' & -> & Hb)%white_space_char).
    rewrite reverse_app, reverse_involutive. intros Hv. by apply utf8_valid_cut in Hv as [Hv _].
  - rewrite reverse_involutive. apply (strip_repeat_inv (fun l => utf8_valid l = true)); [|done].
    intros p r [Hp _]%white_space_char Hv. by rewrite utf8_valid_app in Hv.
Qed.

(** The pieces of a text between ASCII separators are texts. *)
Lemma split_on_utf8 d l : bval d < 128 -> utf8_valid l = true ->
  Forall (fun p => utf8_valid p = true) (split_on (fun b => b ==b d) l).
Proof.
  intros Hd. revert l. refine (length_ind _ _). intros l IH Hl.
  destruct (split_once d l) as [[a b]|] eqn:E.
  - apply split_once_Some in E as [-> Ha]. rewrite split_on_app.
    + apply utf8_valid_cut in Hl as [Hva Hvb].
      * constructor; [done|]. apply IH; [rewrite length_app; simpl; lia|].
        cbn [utf8_valid] in Hvb. by destruct (Z.ltb_spec (bval d) 128); [|lia].
      * unfold is_continuation, in_range. apply andb_false_iff. left. apply Z.leb_gt. lia.
    + apply Forall_forall. intros x Hx. apply bool_decide_eq_false. by intros ->.
    + by apply bool_decide_eq_true.
  - apply split_once_None in E. rewrite split_on_no_sep; [by repeat constructor|].
    apply Forall_forall. intros x Hx. apply bool_decide_eq_false. by intros ->.
Qed.

Lemma join_utf8 sep ls : utf8_valid sep = true -> Forall (fun p => utf8_valid p = true) ls ->
  utf8_valid (join sep ls) = true.
Proof.
  intros Hs. induction 1 as [|p ls Hp Hls IH]; [done|]. destruct ls as [|q ls]; [done|].
  change (join sep (p :: q :: ls)) with (p ++ sep ++ join sep (q :: ls)).
  by rewrite !utf8_valid_app.
Qed.

Lemma from_utf8_Some l m : from_utf8 l = Some m <-> utf8_valid l = true /\ m = l.
Proof. unfold from_utf8. destruct (utf8_valid l); naive_solver. Qed.

Lemma digit_byte_value d : 0 <= d < 10 -> digit_value (digit_byte d) = d.
Proof. intros. unfold digit_value, digit_byte. rewrite bval_mkb; lia. Qed.

Lemma digit_byte_digit d : 0 <= d < 10 -> is_ascii_digit (digit_byte d) = true.
Proof.
  intros. unfold is_ascii_digit, digit_byte, in_range. rewrite bval_mkb by lia.
  rewrite andb_true_iff, !Z.leb_le. lia.
Qed.

Lemma is_ascii_digit_value b : is_ascii_digit b = true -> 0 <= digit_value b < 10.
Proof. unfold is_ascii_digit, digit_value. intros. bool_hyps. lia. Qed.

Lemma dec_value_snoc l b : dec_value (l ++ [b]) = dec_value l * 10 + digit_value b.
Proof. unfold dec_value. by rewrite foldl_app. Qed.

Lemma dec_value_nonneg l : forallb is_ascii_digit l = true -> 0 <= dec_value l.
Proof.
  induction l as [|b l IH] using rev_ind; [done|].
  rewrite forallb_app, andb_true_iff. intros [Hl Hb]. simpl in Hb.
  rewrite dec_value_snoc. rewrite andb_true_r in Hb.
  pose proof (is_ascii_digit_value b Hb). pose proof (IH Hl). lia.
Qed.

Lemma show_digits_spec fuel n :
  0 <= n < 10 ^ Z.of_nat fuel -> (0 < fuel)%nat ->
  forallb is_ascii_digit (show_digits fuel n) = true /\
  dec_value (show_digits fuel n) = n /\ show_digits fuel n <> [].
Proof.
  revert n. induction fuel as [|fuel IH]; intros n Hn Hf; [lia|]. cbn [show_digits].
  destruct (Z.ltb_spec n 10).
  - simpl forallb. rewrite digit_byte_digit by lia. repeat split; [|done].
    unfold dec_value. cbn [foldl]. rewrite digit_byte_value; lia.
  - rewrite Nat2Z.inj_succ, Z.pow_succ_r in Hn by lia.
    assert (0 < fuel)%nat by (destruct fuel; simpl in Hn; lia).
    pose proof (Z.div_mod n 10 ltac:(lia)). pose proof (Z.mod_pos_bound n 10 ltac:(lia)).
    destruct (IH (n / 10)) as (Hd & Hv & Hne); [|done|].
    { split; [apply Z.div_pos; lia|]. apply Z.div_lt_upper_bound; lia. }
    rewrite forallb_app, Hd. simpl forallb. rewrite digit_byte_digit by lia.
    rewrite dec_value_snoc, Hv, digit_byte_value by lia.
    repeat split; [lia|]. by destruct (show_digits fuel (n / 10)).
Qed.

Lemma log2_fuel n : 0 <= n -> 0 <= n < 10 ^ Z.of_nat (S (Z.to_nat (Z.log2 n))).
Proof.
  intros Hn. split; [done|]. pose proof (Z.log2_nonneg n).
  rewrite Nat2Z.inj_succ, Z2Nat.id by done.
  destruct (Z.eq_dec n 0) as [->|]; [done|].
  pose proof (Z.log2_spec n ltac:(lia)) as [_ Hlt].
  eapply Z.lt_le_trans; [exact Hlt|]. apply Z.pow_le_mono_l. lia.
Qed.

Lemma show_Z_digits n : 0 <= n ->
  forallb is_ascii_digit (show_Z n) = true /\ dec_value (show_Z n) = n /\ show_Z n <> [].
Proof.
  intros Hn. unfold show_Z. destruct (Z.ltb_spec n 0); [lia|].
  apply show_digits_spec; [by apply log2_fuel|lia].
Qed.

Lemma parse_digits_show n : 0 <= n -> parse_digits (show_Z n) = Some n.
Proof.
  intros Hn. destruct (show_Z_digits n Hn) as (Hd & Hv & Hne).
  unfold parse_digits. rewrite Hd, Hv. by destruct (show_Z n).
Qed.

(** A numeral starts with a digit, so no sign is stripped from it. *)
Lemma strip_sign_digits c l :
  is_ascii_digit c = false -> forallb is_ascii_digit l = true -> strip_prefix [c] l = None \/ l = [].
Proof.
  intros Hc Hl. destruct l as [|b l]; [by right|left]. simpl in *. case_bool_decide; [|done].
  subst. by rewrite Hc in Hl.
Qed.

(** Printing then parsing an unsigned integer gives it back, if it fits. *)
Lemma parse_unsigned_show hi n : 0 <= n -> parse_unsigned hi (show_Z n) = checked 0 hi n.
Proof.
  intros Hn. destruct (show_Z_digits n Hn) as (Hd & Hv & Hne).
  pose proof (parse_digits_show n Hn) as Hp. unfold parse_unsigned.
  destruct (strip_sign_digits x2b (show_Z n)) as [E|]; [done..| |done].
  change (bs "+") with [x2b]. rewrite E. by rewrite Hp.
Qed.

Lemma parse_signed_show lo hi n : 0 <= n -> parse_signed lo hi (show_Z n) = checked lo hi n.
Proof.
  intros Hn. destruct (show_Z_digits n Hn) as (Hd & Hv & Hne).
  pose proof (parse_digits_show n Hn) as Hp. unfold parse_signed.
  destruct (strip_sign_digits x2d (show_Z n)) as [E|]; [done..| |done].
  destruct (strip_sign_digits x2b (show_Z n)) as [E'|]; [done..| |done].
  change (bs "-") with [x2d]. change (bs "+") with [x2b]. rewrite E, E'. by rewrite Hp.
Qed.

Lemma parse_unsigned_range hi l v : parse_unsigned hi l = Some v -> 0 <= v <= hi.
Proof.
  unfold parse_unsigned. destruct (parse_digits _); [|done]. by intros [-> ?]%checked_Some.
Qed.

Lemma parse_signed_range lo hi l v : parse_signed lo hi l = Some v -> lo <= v <= hi.
Proof.
  unfold parse_signed. destruct (strip_prefix (bs "-") l);
    (destruct (parse_digits _); [|done]); by intros [-> ?]%checked_Some.
Qed.

Lemma lowercase_involutive l : lowercase (lowercase l) = lowercase l.
Proof.
  unfold lowercase. rewrite map_map. apply map_ext. intros b.
  pose proof (byte_forall (fun b => to_ascii_lowercase (to_ascii_lowercase b)
                                    ==b to_ascii_lowercase b) eq_refl b) as H.
  cbv beta in H. by bool_hyps.
Qed.

(** The checked accumulation succeeds exactly when the value fits a [u64]. *)
Lemma decimal_fold {E} (error : E) l acc n :
  forallb is_ascii_digit l = true -> 0 <= acc ->
  fold_result (decimal_step error) acc l = Ok n <->
  (l = [] /\ n = acc) \/
  (l <> [] /\ n = foldl (fun a b => a * 10 + digit_value b) acc l /\ n <= u64_max).
Proof.
  revert acc. induction l as [|b l IH]; intros acc Hd Ha; simpl; [naive_solver|].
  simpl in Hd. apply andb_prop in Hd as [Hb Hl]. apply is_ascii_digit_value in Hb as Hv.
  assert (Hmono : forall l x, forallb is_ascii_digit l = true -> 0 <= x ->
                  x <= foldl (fun a b => a * 10 + digit_value b) x l).
  { clear. induction l as [|b l IH]; intros x Hl Hx; simpl; [lia|].
    simpl in Hl. apply andb_prop in Hl as [Hb Hl]. apply is_ascii_digit_value in Hb.
    specialize (IH (x * 10 + digit_value b) Hl ltac:(lia)). lia. }
  specialize (Hmono l (acc * 10 + digit_value b) Hl ltac:(lia)).
  unfold decimal_step at 1, checked_mul_u64, checked_add_u64. fold (digit_value b).
  destruct (checked 0 u64_max (acc * 10)) as [v|] eqn:Em.
  - apply checked_Some in Em as [-> Em]. destruct (checked 0 u64_max _) as [w|] eqn:Ew; simpl.
    + apply checked_Some in Ew as [-> Ew]. rewrite IH by (done || lia).
      destruct l; simpl in *; naive_solver lia.
    + apply checked_None in Ew. naive_solver lia.
  - apply checked_None in Em. simpl. naive_solver lia.
Qed.

Lemma decimal_loop_spec {E} (error : E) v n :
  decimal_loop error v = Ok n <->
  v <> [] /\ forallb is_ascii_digit v = true /\ dec_value v = n /\ n <= u64_max.
Proof.
  unfold decimal_loop, dec_value. destruct v as [|b v]; [simpl; naive_solver|].
  cbn [is_empty orb]. destruct (forallb is_ascii_digit (b :: v)) eqn:Ed; cbn [negb]; [|naive_solver].
  rewrite decimal_fold by done. naive_solver.
Qed.

Lemma decimal_loop_err {E} (error e : E) v : decimal_loop error v = Err e -> e = error.
Proof.
  unfold decimal_loop. destruct (is_empty v || _); [congruence|]. generalize 0.
  induction v as [|b v IH]; intros acc; simpl; [done|]. unfold decimal_step at 1.
  destruct (match checked_mul_u64 acc 10 with Some _ => _ | None => _ end); simpl; [apply IH|congruence].
Qed.

(** * Hexadecimal numerals *)

(** [b] is the hexadecimal digit of value [v], in either case. *)
Definition hex_of (b : byte) (v : Z) : Prop :=
  0 <= v /\ (bs "0123456789abcdef" !! Z.to_nat v = Some b \/ bs "0123456789ABCDEF" !! Z.to_nat v = Some b).

(** [text] is the number [n] in 1 to 16 hexadecimal digits. *)
Definition hex_number (text : bytes) (n : Z) : Prop :=
  (1 <= length text <= 16)%nat /\
  exists values, Forall2 hex_of text values /\ n = foldl (fun acc v => 16 * acc + v) 0 values.

Lemma hex_of_digit b v : hex_of b v <-> hex_digit b = Some v.
Proof.
  split.
  - intros [Hv Hl]. assert (Hr : v < 16) by (destruct Hl as [Hl|Hl]; apply lookup_lt_Some in Hl; simpl in Hl; lia).
    assert (Hc : exists n : nat, v = Z.of_nat n /\ (n < 16)%nat) by (exists (Z.to_nat v); lia).
    destruct Hc as (n & -> & Hn). rewrite Nat2Z.id in Hl.
    do 16 (destruct n as [|n]; [destruct Hl as [[= <-]|[= <-]]; reflexivity|]). lia.
  - intros E. pose proof (byte_forall (fun b => match hex_digit b with
      | Some v => (0 <=? v) && (bool_decide (bs "0123456789abcdef" !! Z.to_nat v = Some b)
                                || bool_decide (bs "0123456789ABCDEF" !! Z.to_nat v = Some b))
      | None => true end) eq_refl b) as H. cbv beta in H.
    rewrite E in H. apply andb_true_iff in H as [H0 H1]. apply orb_true_iff in H1.
    rewrite !bool_decide_eq_true in H1. apply Z.leb_le in H0. by split.
Qed.

Lemma hexdigit_value b : is_ascii_hexdigit b = true -> exists v, hex_digit b = Some v.
Proof.
  intros Hb. pose proof (byte_forall (fun b => implb (is_ascii_hexdigit b) (bool_decide (is_Some (hex_digit b))))
    eq_refl b) as H. cbv beta in H. rewrite Hb in H. cbn [implb] in H. by apply bool_decide_eq_true in H.
Qed.

Lemma hex_digits_values text : forallb is_ascii_hexdigit text = true ->
  exists values, Forall2 hex_of text values /\
    foldl (fun acc b => acc * 16 + default 0 (hex_digit b)) 0 text = foldl (fun acc v => 16 * acc + v) 0 values.
Proof.
  generalize 0 at 2 3. induction text as [|b text IH]; intros acc Hx; [by exists []|].
  apply andb_true_iff in Hx as [Hb Hx]. destruct (hexdigit_value b Hb) as [v Hv].
  cbn [foldl]. rewrite Hv. cbn [default from_option id].
  destruct (IH (acc * 16 + v) Hx) as (vs & F & E). exists (v :: vs). split; [constructor; [by apply hex_of_digit|done]|].
  rewrite E. cbn [foldl]. f_equal. lia.
Qed.
