(* ===== verification/Effects.v ===== *)
(** Programs with effects: a computation asks its surroundings, which answer
    by what happened before.  A theorem over every [Answers] is a theorem over
    every behaviour of the surroundings. *)
From S2P Require Import Prelude.

(** An effect and its answer. *)
Inductive Interaction (E : Type -> Type) :=
| Happens (A : Type) (effect : E A) (answer : A).
Arguments Happens {E A} effect answer.

(** The latest event is last. *)
Class Answers (E : Type -> Type) := answers : forall A, list (Interaction E) -> E A -> A.

(** A computation extends the history and returns a value. *)
Definition Eff (E : Type -> Type) (A : Type) : Type := list (Interaction E) -> list (Interaction E) * A.

Definition ret {E A} (a : A) : Eff E A := fun h => (h, a).

Definition bind {E A B} (c : Eff E A) (k : A -> Eff E B) : Eff E B :=
  fun h => let (h', a) := c h in k a h'.

Notation "'let!' p ':=' c 'in' k" :=
  (bind c (fun r => match r with p => k end))
  (at level 10, p pattern, c at level 200, k at level 200) : pgs3_scope.

(** [?] on an effectful computation. *)
Notation "'let?' p ':=' c 'in' k" :=
  (bind c (fun r => match r with Ok p => k | Err e => ret (Err e) end))
  (at level 10, p pattern, c at level 200, k at level 200) : pgs3_scope.

Definition ask `{Answers E} {A} (effect : E A) : Eff E A :=
  fun h => let a := answers A h effect in (h ++ [Happens effect a], a).

(** A computation with [?] succeeds when its steps do. *)
Lemma try_Ok {E X A B} (c : Eff E (result X A)) (k : A -> Eff E (result X B)) h h' b :
  bind c (fun r => match r with Ok a => k a | Err e => ret (Err e) end) h = (h', Ok b) ->
  exists h1 a, c h = (h1, Ok a) /\ k a h1 = (h', Ok b).
Proof. unfold bind, ret. destruct (c h) as [h1 [a|e]]; [eauto|done]. Qed.

Lemma ret_inv {E A} (a a' : A) (h h' : list (Interaction E)) : ret a h = (h', a') -> h' = h /\ a' = a.
Proof. by intros [= <- <-]. Qed.

(** * Runs and their histories *)

(** [runs c P]: from every history, [c] only appends, and what it appends
    together with its value satisfies [P]. *)
Definition runs {E A} (c : Eff E A) (P : list (Interaction E) -> list (Interaction E) -> A -> Prop) : Prop :=
  forall h, exists t, (c h).1 = h ++ t /\ P h t (c h).2.

Section Runs.
Context `{Answers F}.
#[local] Abbreviation history := (list (Interaction F)).
Implicit Types (h t : history).

Lemma runs_ret {A} (a : A) (P : history -> history -> A -> Prop) :
  (forall h, P h [] a) -> runs (ret a) P.
Proof. intros HP h. exists []. by rewrite app_nil_r. Qed.

Lemma runs_bind {A B} (c : Eff F A) (k : A -> Eff F B) (P : history -> history -> A -> Prop)
    (Q : history -> history -> B -> Prop) :
  runs c P ->
  (forall a, runs (k a) (fun h2 t2 b => forall h t, h2 = h ++ t -> P h t a -> Q h (t ++ t2) b)) ->
  runs (bind c k) Q.
Proof.
  intros Hc Hk h. destruct (Hc h) as (t & E & HP). unfold bind.
  destruct (c h) as [h' a]. simpl in *. subst h'.
  destruct (Hk a (h ++ t)) as (t2 & E2 & HQ). exists (t ++ t2). rewrite E2, app_assoc. split; [done|].
  by apply (HQ h t).
Qed.

Lemma runs_weaken {A} (c : Eff F A) (P Q : history -> history -> A -> Prop) :
  runs c P -> (forall h t a, P h t a -> Q h t a) -> runs c Q.
Proof. intros Hc HPQ h. destruct (Hc h) as (t & E & HP). exists t. split; [done|]. by apply HPQ. Qed.

Lemma runs_ask {A} (effect : F A) (P : history -> history -> A -> Prop) :
  (forall h a, P h [Happens effect a] a) -> runs (ask effect) P.
Proof. intros HP h. exists [Happens effect (answers A h effect)]. by split; [|apply HP]. Qed.
End Runs.

(** * Values *)

(** What a computation returns, from every history. *)
Definition returns {E A} (c : Eff E A) (a : A) : Prop := forall h, (c h).2 = a.

Lemma returns_ret {E A} (a : A) : returns (E := E) (ret a) a.
Proof. done. Qed.

Lemma returns_bind {E A B} (c : Eff E A) (k : A -> Eff E B) a b : returns c a -> returns (k a) b -> returns (bind c k) b.
Proof. intros Hc Hk h. unfold bind. specialize (Hc h). destruct (c h) as [h' a']. simpl in Hc. subst a'. apply Hk. Qed.

Lemma returns_ask `{Answers E} {A} (effect : E A) a : (forall h, answers A h effect = a) -> returns (ask effect) a.
Proof. intros Ha h. apply Ha. Qed.

(** An effect with a known answer can be taken out of a computation. *)
Lemma returns_after `{Answers E} {A B} (effect : E A) a (k : A -> Eff E B) b :
  (forall h, answers A h effect = a) -> returns (k a) b -> returns (bind (ask effect) k) b.
Proof. intros Ha. by apply returns_bind, returns_ask. Qed.

(** What a computation ensures of its value, from every history. *)
Definition ensures {E A} (c : Eff E A) (Q : A -> Prop) : Prop := forall h, Q (c h).2.

Lemma ensures_ret {E A} (a : A) (Q : A -> Prop) : Q a -> ensures (E := E) (ret a) Q.
Proof. by intros Ha h. Qed.

Lemma ensures_bind {E A B} (c : Eff E A) (k : A -> Eff E B) (P : A -> Prop) (Q : B -> Prop) :
  ensures c P -> (forall a, P a -> ensures (k a) Q) -> ensures (bind c k) Q.
Proof. intros Hc Hk h. unfold bind. specialize (Hc h). destruct (c h) as [h' a]. by apply Hk. Qed.

(** Whatever the value of [c]. *)
Lemma ensures_any {E A B} (c : Eff E A) (k : A -> Eff E B) (Q : B -> Prop) :
  (forall a, ensures (k a) Q) -> ensures (bind c k) Q.
Proof. intros Hk. by apply (ensures_bind c k (fun _ => True)); [intros h|intros a _]. Qed.

(** * Runs from a given history *)

(** From [h], [c] appends a [t] and returns a value, related by [Q]. *)
Definition yields {F A} (h : list (Interaction F)) (c : Eff F A) (Q : list (Interaction F) -> A -> Prop) : Prop :=
  exists t, (c h).1 = h ++ t /\ Q t (c h).2.

Section Yields.
Context `{Answers F}.
#[local] Abbreviation history := (list (Interaction F)).
Implicit Types (h t : history).

Lemma yields_ret {A} h (a : A) (Q : history -> A -> Prop) : Q [] a -> yields h (ret a) Q.
Proof. intros Hq. exists []. by rewrite app_nil_r. Qed.

Lemma yields_bind {A B} h (c : Eff F A) (k : A -> Eff F B) (P : history -> A -> Prop) (Q : history -> B -> Prop) :
  yields h c P -> (forall t a, P t a -> yields (h ++ t) (k a) (fun u b => Q (t ++ u) b)) -> yields h (bind c k) Q.
Proof.
  intros (t & E & Hp) Hk. unfold yields, bind. destruct (c h) as [h1 a]. simpl in *. subst h1.
  destruct (Hk t a Hp) as (u & Eu & Hu). exists (t ++ u). by rewrite Eu, app_assoc.
Qed.

Lemma yields_weaken {A} h (c : Eff F A) (P Q : history -> A -> Prop) :
  yields h c P -> (forall t a, P t a -> Q t a) -> yields h c Q.
Proof. intros (t & E & Hp) Hq. exists t. split; [done|by apply Hq]. Qed.

Lemma yields_ask {A} h (effect : F A) (Q : history -> A -> Prop) :
  (forall a, Q [Happens effect a] a) -> yields h (ask effect) Q.
Proof. intros Hq. eexists. by split; [|apply Hq]. Qed.

(** [?] on the way: an error ends the run. *)
Lemma yields_try {E A B} h (c : Eff F (result E A)) (k : A -> Eff F (result E B)) (P : history -> result E A -> Prop)
    (Q : history -> result E B -> Prop) :
  yields h c P -> (forall t a, P t (Ok a) -> yields (h ++ t) (k a) (fun u b => Q (t ++ u) b)) ->
  (forall t e, P t (Err e) -> Q t (Err e)) ->
  yields h (bind c (fun r => match r with Ok a => k a | Err e => ret (Err e) end)) Q.
Proof.
  intros Hc Hk He. eapply yields_bind; [exact Hc|]. intros t [a|e] Hp; [by apply Hk|].
  apply yields_ret. rewrite app_nil_r. by apply He.
Qed.
End Yields.

(** * Monitors *)

(** A monitor reads the events of a run and rejects one with [None]. *)
Section Monitors.
Context `{Answers F} {S : Type} (step : S -> Interaction F -> option S).

Fixpoint observe (s : S) (t : list (Interaction F)) : option S :=
  match t with
  | [] => Some s
  | e :: t => match step s e with Some s' => observe s' t | None => None end
  end.

Lemma observe_app s t u : observe s (t ++ u) = match observe s t with Some s' => observe s' u | None => None end.
Proof. revert s. induction t as [|e t IH]; intros s; [done|]. simpl. by destruct (step s e). Qed.

(** From [s], the monitor accepts every run of [c], and its last state and the
    value satisfy [Q]. *)
Definition obeys {A} (s : S) (c : Eff F A) (Q : S -> A -> Prop) : Prop :=
  forall h, yields h c (fun t a => exists s', observe s t = Some s' /\ Q s' a).

Lemma obeys_ret {A} s (a : A) (Q : S -> A -> Prop) : Q s a -> obeys s (ret a) Q.
Proof. intros Hq h. apply yields_ret. by exists s. Qed.

Lemma obeys_bind {A B} s (c : Eff F A) (k : A -> Eff F B) (P : S -> A -> Prop) (Q : S -> B -> Prop) :
  obeys s c P -> (forall s' a, P s' a -> obeys s' (k a) Q) -> obeys s (bind c k) Q.
Proof.
  intros Hc Hk h. eapply yields_bind; [apply Hc|]. intros t a (s' & E & Hp).
  eapply yields_weaken; [apply (Hk s' a Hp)|]. intros u b (s2 & E2 & Hq). exists s2. by rewrite observe_app, E.
Qed.

Lemma obeys_weaken {A} s (c : Eff F A) (P Q : S -> A -> Prop) :
  obeys s c P -> (forall s' a, P s' a -> Q s' a) -> obeys s c Q.
Proof. intros Hc Hq h. eapply yields_weaken; [apply Hc|]. intros t a (s' & E & Hp). exists s'. auto. Qed.

Lemma obeys_ask {A} s (effect : F A) (Q : S -> A -> Prop) :
  (forall h, exists s', step s (Happens effect (answers A h effect)) = Some s' /\ Q s' (answers A h effect)) ->
  obeys s (ask effect) Q.
Proof.
  intros Hq h. exists [Happens effect (answers A h effect)]. split; [done|].
  destruct (Hq h) as (s' & E & Hp). exists s'. simpl. by rewrite E.
Qed.

(** An event the monitor does not care about. *)
Lemma obeys_steady {A} s (effect : F A) :
  (forall a, step s (Happens effect a) = Some s) -> obeys s (ask effect) (fun s' _ => s' = s).
Proof. intros Hp. apply obeys_ask. eauto. Qed.

Lemma obeys_try {X A B} s (c : Eff F (result X A)) (k : A -> Eff F (result X B)) (P : S -> result X A -> Prop)
    (Q : S -> result X B -> Prop) :
  obeys s c P -> (forall s' a, P s' (Ok a) -> obeys s' (k a) Q) -> (forall s' e, P s' (Err e) -> Q s' (Err e)) ->
  obeys s (bind c (fun r => match r with Ok a => k a | Err e => ret (Err e) end)) Q.
Proof.
  intros Hc Hk He. eapply obeys_bind; [exact Hc|]. intros s' [a|e] Hp; [by apply Hk|]. apply obeys_ret. by apply He.
Qed.
End Monitors.
