(* ===== verification/Http.v ===== *)
(** The bounded HTTP/1.1 request-head parser and the path-style S3 target of
    [src/src/protocol/http.rs]: header and query containers, percent decoding,
    the incremental head collector [RequestHeadParser] and the complete-head
    parser.  Theorems: the collector does not depend on how the bytes are
    fragmented, accepted heads are unambiguously framed and free of line
    breaks, rendered heads parse back, and path-style targets round-trip. *)
From S2P Require Import Prelude Text.

(** * Data *)

Record HeadLimits := {
  max_head_bytes : Z;
  max_request_line_bytes : Z;
  max_header_line_bytes : Z;
  max_headers : Z
}.

Definition default_head_limits : HeadLimits := {|
  max_head_bytes := 64 * 1024;
  max_request_line_bytes := 8 * 1024;
  max_header_line_bytes := 16 * 1024;
  max_headers := 100
|}.

Inductive HttpParseError :=
| HeadTooLarge
| RequestLineTooLarge
| HeaderLineTooLarge
| TooManyHeaders
| InvalidRequestLine
| UnsupportedHttpVersion
| InvalidRequestTarget
| InvalidHeaderName
| InvalidHeaderValue
| DuplicateHost
| MissingHost
| InvalidContentLength
| AmbiguousBodyFraming
| UnsupportedTransferEncoding
| ParserAlreadyCompleted
| InvalidPercentEncoding
| InvalidUtf8Path
| InvalidBucket
| NulInPath.

#[global] Instance HttpParseError_eq_dec : EqDecision HttpParseError.
Proof. solve_decision. Defined.

(** [impl Display for HttpParseError] *)
Definition HttpParseError_display (e : HttpParseError) : bytes :=
  match e with
  | HeadTooLarge => bs "HTTP request head exceeds its size limit"
  | RequestLineTooLarge => bs "HTTP request line exceeds its size limit"
  | HeaderLineTooLarge => bs "HTTP header line exceeds its size limit"
  | TooManyHeaders => bs "HTTP request has too many headers"
  | InvalidRequestLine => bs "invalid HTTP request line"
  | UnsupportedHttpVersion => bs "only HTTP/1.1 is supported"
  | InvalidRequestTarget => bs "invalid origin-form HTTP request target"
  | InvalidHeaderName => bs "invalid HTTP header name"
  | InvalidHeaderValue => bs "invalid HTTP header value"
  | DuplicateHost => bs "multiple Host headers are not accepted"
  | MissingHost => bs "HTTP/1.1 request is missing Host"
  | InvalidContentLength => bs "invalid or duplicate Content-Length"
  | AmbiguousBodyFraming => bs "both Transfer-Encoding and Content-Length were supplied"
  | UnsupportedTransferEncoding => bs "unsupported Transfer-Encoding"
  | ParserAlreadyCompleted => bs "HTTP request-head parser was already completed"
  | InvalidPercentEncoding => bs "invalid percent escape in request target"
  | InvalidUtf8Path => bs "path-style bucket or key is not valid UTF-8"
  | InvalidBucket => bs "invalid path-style bucket component"
  | NulInPath => bs "NUL is not representable in a PostgreSQL text key"
  end.

Record Header := { header_name : bytes; header_value : bytes }.

Record HeaderMap := { fields : list Header }.

Record QueryParam := {
  raw_name : bytes;
  raw_value : bytes;
  param_name : bytes;
  param_value : bytes
}.

Record QueryParams := { pairs : list QueryParam }.

Record RequestTarget := {
  raw_path : bytes;
  raw_query : option bytes;
  query : QueryParams
}.

Record RequestHead := {
  method : bytes;
  target : RequestTarget;
  headers : HeaderMap;
  content_length : option Z;
  transfer_chunked : bool
}.

Record RequestHeadParser := {
  limits : HeadLimits;
  buffer : bytes;
  remainder : bytes;
  completed : bool
}.

Record PathStyleTarget := { bucket : option bytes; key : option bytes }.

(** * Bytes of the grammar *)

Definition CR : byte := x0d.
Definition LF : byte := x0a.
Definition SP : byte := x20.
Definition crlf : bytes := [CR; LF].

Definition is_ows (b : byte) : bool := (b ==b x20) || (b ==b x09).

Definition strip_cr (line : bytes) : result HttpParseError bytes :=
  match reverse line with
  | x :: r => if x ==b CR then Ok (reverse r) else Err InvalidHeaderValue
  | [] => Err InvalidHeaderValue
  end.

Definition trim_ows (value : bytes) : bytes := trim_by is_ows value.

Definition valid_field_byte (b : byte) : bool :=
  (b ==b x09) || ((32 <=? bval b) && negb (bval b =? 127)).

Definition valid_field_value (value : bytes) : bool := forallb valid_field_byte value.

Definition is_tchar (b : byte) : bool := is_ascii_alphanumeric b || contains b tchar_symbols.

Definition hex_value (b : byte) : option Z := hex_digit b.

(** [(high << 4) | low] pushed as a [u8]. *)
Definition join_nibbles (high low : Z) : byte := mkb (Z.lor (Z.shiftl high 4) low).

Fixpoint percent_decode (input : bytes) : result HttpParseError bytes :=
  match input with
  | [] => Ok []
  | c :: rest =>
      if c ==b x25 then
        match rest with
        | h :: l :: rest' =>
            let* high := ok_or (hex_value h) InvalidPercentEncoding in
            let* low := ok_or (hex_value l) InvalidPercentEncoding in
            let* tail := percent_decode rest' in
            Ok (join_nibbles high low :: tail)
        | _ => Err InvalidPercentEncoding
        end
      else
        let* tail := percent_decode rest in
        Ok (c :: tail)
  end.

Definition find_subslice (haystack needle : bytes) : option nat := find_sub needle haystack.

(** * Header maps and query parameters *)

(** [HeaderMap::get] *)
Definition HeaderMap_get (m : HeaderMap) (name : bytes) : option bytes :=
  option_map header_value
    (find (fun f => eq_ignore_ascii_case (header_name f) name) (fields m)).

(** [HeaderMap::get_all] *)
Definition HeaderMap_get_all (m : HeaderMap) (name : bytes) : list bytes :=
  map header_value
    (List.filter (fun f => eq_ignore_ascii_case (header_name f) name) (fields m)).

Definition make_header (name value : bytes) : Header :=
  {| header_name := lowercase name; header_value := value |}.

(** One iteration of [HeaderMap::from_pairs]. *)
Definition header_of_pair (pair : bytes * bytes) : result HttpParseError Header :=
  let (name, value) := pair in
  if is_empty name || negb (forallb is_tchar name) then Err InvalidHeaderName
  else
    let value := trim_ows value in
    if negb (valid_field_value value) then Err InvalidHeaderValue
    else Ok (make_header name value).

(** [HeaderMap::from_pairs] *)
Definition HeaderMap_from_pairs (pairs : list (bytes * bytes)) : result HttpParseError HeaderMap :=
  let* fields := traverse header_of_pair pairs in
  Ok {| fields := fields |}.

(** One component of [QueryParams::parse]: [+] is literal. *)
Definition parse_component (component : bytes) : result HttpParseError QueryParam :=
  let (raw_name, raw_value) :=
    match split_once x3d component with Some nv => nv | None => (component, []) end in
  let* name := percent_decode raw_name in
  let* value := percent_decode raw_value in
  Ok {| raw_name := raw_name; raw_value := raw_value; param_name := name; param_value := value |}.

(** [QueryParams::parse] *)
Definition QueryParams_parse (raw : bytes) : result HttpParseError QueryParams :=
  if is_empty raw then Ok {| pairs := [] |}
  else
    let* pairs := traverse parse_component (split_on (fun b => b ==b x26) raw) in
    Ok {| pairs := pairs |}.

(** [QueryParams::get] *)
Definition QueryParams_get (q : QueryParams) (name : bytes) : option bytes :=
  option_map param_value (find (fun pair => param_name pair ==b name) (pairs q)).

(** [QueryParams::get_all] *)
Definition QueryParams_get_all (q : QueryParams) (name : bytes) : list bytes :=
  map param_value (List.filter (fun pair => param_name pair ==b name) (pairs q)).

(** * Path-style targets *)

Definition decode_key (raw : bytes) : result HttpParseError bytes :=
  let* decoded := percent_decode raw in
  if contains x00 decoded then Err NulInPath
  else ok_or (from_utf8 decoded) InvalidUtf8Path.

Definition parse_path_style (raw_path : bytes) : result HttpParseError PathStyleTarget :=
  if negb (starts_with raw_path (bs "/")) || contains x3f raw_path || contains x23 raw_path
  then Err InvalidRequestTarget
  else if raw_path ==b bs "/" then Ok {| bucket := None; key := None |}
  else
    let rest := drop 1 raw_path in
    let (bucket_raw, key_raw) :=
      match split_once x2f rest with
      | Some (bucket, key) => (bucket, Some key)
      | None => (rest, None)
      end in
    let* bucket_bytes := percent_decode bucket_raw in
    if is_empty bucket_bytes || contains x2f bucket_bytes
       || existsb is_ascii_control bucket_bytes
    then Err InvalidBucket
    else if contains x00 bucket_bytes then Err NulInPath
    else
      let* bucket := ok_or (from_utf8 bucket_bytes) InvalidUtf8Path in
      let* key := transpose_map decode_key key_raw in
      Ok {| bucket := Some bucket; key := key |}.

(** * The complete head *)

(** The iterator [lines]: every line but the last ends in CR before its LF. *)
Fixpoint head_lines (raw_lines : list bytes) : list (result HttpParseError bytes) :=
  match raw_lines with
  | [] => []
  | [line] => [if contains CR line then Err InvalidHeaderValue else Ok line]
  | line :: rest => strip_cr line :: head_lines rest
  end.

(** The request line: method, raw path, raw query and parsed query. *)
Definition parse_request_line (lim : HeadLimits) (request_line : bytes)
  : result HttpParseError (bytes * RequestTarget) :=
  if max_request_line_bytes lim <? len request_line then Err RequestLineTooLarge
  else
    match split_on (fun b => b ==b SP) request_line with
    | method :: target :: version :: words =>
        if negb (is_empty words) || is_empty method || negb (forallb is_tchar method)
        then Err InvalidRequestLine
        else if negb (version ==b bs "HTTP/1.1") then Err UnsupportedHttpVersion
        else if negb (starts_with target (bs "/"))
                || existsb (fun b => negb (in_range 33 126 (bval b))) target
                || contains x23 target
        then Err InvalidRequestTarget
        else
          let* target := ok_or (from_utf8 target) InvalidRequestTarget in
          let (raw_path, raw_query) :=
            match split_once x3f target with
            | Some (path, query) => (path, Some query)
            | None => (target, None)
            end in
          let* _ := percent_decode raw_path in
          let* query := QueryParams_parse (match raw_query with Some q => q | None => [] end) in
          Ok (method, {| raw_path := raw_path; raw_query := raw_query; query := query |})
    | _ => Err InvalidRequestLine
    end.

Definition parse_field_line (lim : HeadLimits) (line : bytes) : result HttpParseError Header :=
  if max_header_line_bytes lim <? len line then Err HeaderLineTooLarge
  else if is_empty line || match line with b :: _ => is_ows b | [] => false end
  then Err InvalidHeaderValue
  else
    let* (name, rest) := ok_or (split_once x3a line) InvalidHeaderName in
    if is_empty name || negb (forallb is_tchar name) then Err InvalidHeaderName
    else
      let value := trim_ows rest in
      if negb (valid_field_value value) then Err InvalidHeaderValue
      else Ok (make_header name value).

(** The loop over the header lines; [index] counts the lines seen. *)
Fixpoint parse_fields (lim : HeadLimits) (index : Z) (lines : list (result HttpParseError bytes))
  : result HttpParseError (list Header) :=
  match lines with
  | [] => Ok []
  | raw_line :: rest =>
      if max_headers lim <=? index then Err TooManyHeaders
      else
        let* line := raw_line in
        let* field := parse_field_line lim line in
        let* tail := parse_fields lim (index + 1) rest in
        Ok (field :: tail)
  end.

Definition check_host (m : HeaderMap) : result HttpParseError unit :=
  let host_count := len (HeaderMap_get_all m (bs "host")) in
  if host_count =? 0 then Err MissingHost
  else if negb (host_count =? 1)
          || match HeaderMap_get m (bs "host") with Some host => is_empty host | None => false end
  then Err DuplicateHost
  else Ok tt.

Definition parse_content_length (value : bytes) : result HttpParseError Z :=
  if is_empty value || negb (forallb is_ascii_digit value) then Err InvalidContentLength
  else fold_result (decimal_step InvalidContentLength) 0 value.

(** The body framing: at most one Content-Length, never with
    Transfer-Encoding, and the only transfer coding is one [chunked]. *)
Definition parse_framing (m : HeaderMap) : result HttpParseError (option Z * bool) :=
  let content_lengths := HeaderMap_get_all m (bs "content-length") in
  let* content_length := transpose_map parse_content_length (hd_error content_lengths) in
  if 1 <? len content_lengths then Err InvalidContentLength
  else
    let transfer_values := HeaderMap_get_all m (bs "transfer-encoding") in
    match content_length, transfer_values with
    | Some _, _ :: _ => Err AmbiguousBodyFraming
    | _, [] => Ok (content_length, false)
    | None, _ =>
        let combined :=
          map trim_ows (concat (map (split_on (fun b => b ==b x2c)) transfer_values)) in
        match combined with
        | [token] => if eq_ignore_ascii_case token (bs "chunked") then Ok (None, true)
                     else Err UnsupportedTransferEncoding
        | _ => Err UnsupportedTransferEncoding
        end
    end.

Definition parse_complete_head (head_bytes : bytes) (lim : HeadLimits)
  : result HttpParseError RequestHead :=
  match head_lines (split_on (fun b => b ==b LF) head_bytes) with
  | [] => Err InvalidRequestLine
  | first :: lines =>
      let* request_line := first in
      let* (method, target) := parse_request_line lim request_line in
      let* fields := parse_fields lim 0 lines in
      if max_headers lim <? len fields then Err TooManyHeaders
      else
        let headers := {| fields := fields |} in
        let* _ := check_host headers in
        let* (content_length, transfer_chunked) := parse_framing headers in
        Ok {| method := method; target := target; headers := headers;
              content_length := content_length; transfer_chunked := transfer_chunked |}
  end.

(** * The incremental parser *)

Definition RequestHeadParser_new (lim : HeadLimits) : RequestHeadParser :=
  {| limits := lim; buffer := []; remainder := []; completed := false |}.

(** [RequestHeadParser::push]: the new parser state and the result.  The
    buffer keeps the bytes also when the call fails. *)
Definition RequestHeadParser_push (p : RequestHeadParser) (input : bytes)
  : RequestHeadParser * result HttpParseError (option RequestHead) :=
  if completed p then (p, Err ParserAlreadyCompleted)
  else
    let buf := buffer p ++ input in
    let p1 := {| limits := limits p; buffer := buf; remainder := remainder p;
                 completed := false |} in
    match find_subslice buf (crlf ++ crlf) with
    | None => if max_head_bytes (limits p) <? len buf then (p1, Err HeadTooLarge)
              else (p1, Ok None)
    | Some e =>
        let head_end := (e + 4)%nat in
        if max_head_bytes (limits p) <? Z.of_nat head_end then (p1, Err HeadTooLarge)
        else
          match parse_complete_head (take e buf) (limits p) with
          | Err err => (p1, Err err)
          | Ok request =>
              ({| limits := limits p; buffer := [];
                  remainder := remainder p ++ drop head_end buf; completed := true |},
               Ok (Some request))
          end
    end.

(** [take_remainder] *)
Definition take_remainder (p : RequestHeadParser) : RequestHeadParser * bytes :=
  ({| limits := limits p; buffer := buffer p; remainder := []; completed := completed p |},
   remainder p).

(** * Rendering and well-formed heads *)

Definition render_target (t : RequestTarget) : bytes :=
  raw_path t ++ match raw_query t with Some q => x3f :: q | None => [] end.

Definition render_request_line (r : RequestHead) : bytes :=
  join [SP] [method r; render_target (target r); bs "HTTP/1.1"].

Definition render_field (f : Header) : bytes := header_name f ++ x3a :: header_value f.

(** The head without its final empty line, as [parse_complete_head] takes it. *)
Definition render_head (r : RequestHead) : bytes :=
  join crlf (render_request_line r :: map render_field (fields (headers r))).

Record wf_field (lim : HeadLimits) (f : Header) : Prop := {
  wf_name_nonempty : header_name f <> [];
  wf_name_token : forallb is_tchar (header_name f) = true;
  wf_name_lower : lowercase (header_name f) = header_name f;
  wf_value_bytes : valid_field_value (header_value f) = true;
  wf_value_trimmed : trim_ows (header_value f) = header_value f;
  wf_field_length : len (render_field f) <= max_header_line_bytes lim
}.

Record wf_target (t : RequestTarget) : Prop := {
  wf_target_slash : starts_with (raw_path t) (bs "/") = true;
  wf_target_graphic : forallb is_ascii_graphic (render_target t) = true;
  wf_target_no_fragment : x23 ∉ render_target t;
  wf_path_no_query : x3f ∉ raw_path t;
  wf_path_escapes : is_ok (percent_decode (raw_path t)) = true;
  wf_query : QueryParams_parse (default [] (raw_query t)) = Ok (query t)
}.

Record wf_head (lim : HeadLimits) (r : RequestHead) : Prop := {
  wf_method_nonempty : method r <> [];
  wf_method_token : forallb is_tchar (method r) = true;
  wf_head_target : wf_target (target r);
  wf_request_line_length : len (render_request_line r) <= max_request_line_bytes lim;
  wf_fields : Forall (wf_field lim) (fields (headers r));
  wf_field_count : len (fields (headers r)) <= max_headers lim;
  wf_host : exists h, HeaderMap_get_all (headers r) (bs "host") = [h] /\ h <> [];
  wf_framing : parse_framing (headers r) = Ok (content_length r, transfer_chunked r)
}.

(** * Lemmas *)

Lemma hex_digit_range b v : hex_digit b = Some v -> 0 <= v < 16.
Proof.
  unfold hex_digit. repeat destr_match; intros; simplify_eq; bool_hyps; lia.
Qed.

Lemma percent_decode_plain l : x25 ∉ l -> percent_decode l = Ok l.
Proof.
  induction l as [|c l IH]; [done|]. rewrite not_elem_of_cons. intros [Hc Hl]. simpl.
  rewrite bool_decide_false by done. by rewrite (IH Hl).
Qed.

Lemma percent_decode_app a b r :
  percent_decode a = Ok r ->
  percent_decode (a ++ b) = match percent_decode b with Ok s => Ok (r ++ s) | Err e => Err e end.
Proof.
  revert r. induction a as [a IH] using length_ind.
  intros r H. destruct a as [|c a]; simpl in *; [simplify_eq; by destruct (percent_decode b)|].
  case_bool_decide.
  - destruct a as [|h [|l a]]; [done..|]. simpl in *.
    destruct (hex_value h); [|done]. destruct (hex_value l); [|done]. simpl in *.
    destruct (percent_decode a) eqn:E; [|done]. simplify_eq.
    rewrite (IH a) with (r := a0) by (simpl; lia || done). by destruct (percent_decode b).
  - destruct (percent_decode a) eqn:E; [|done]. simplify_eq.
    rewrite (IH a) with (r := a0) by (simpl; lia || done). by destruct (percent_decode b).
Qed.

Lemma percent_decode_length l r : percent_decode l = Ok r -> (length r <= length l)%nat.
Proof.
  revert r. induction l as [l IH] using length_ind.
  intros r H. destruct l as [|c l]; simpl in *; [simplify_eq; simpl; lia|].
  case_bool_decide.
  - destruct l as [|h [|l' l]]; [done..|]. simpl in *.
    destruct (hex_value h); [|done]. destruct (hex_value l'); [|done]. simpl in *.
    destruct (percent_decode l) eqn:E; [|done]. simplify_eq. simpl.
    apply IH in E; lia.
  - destruct (percent_decode l) eqn:E; [|done]. simplify_eq. simpl. apply IH in E; lia.
Qed.

(** Every failure of percent decoding is the same error. *)
Lemma percent_decode_err l e : percent_decode l = Err e -> e = InvalidPercentEncoding.
Proof.
  induction l as [l IH] using length_ind.
  intros H. destruct l as [|c l]; simpl in *; [done|]. case_bool_decide.
  - destruct l as [|h [|l' l]]; simpl in *; [congruence..|].
    destruct (hex_value h); simpl in H; [|congruence].
    destruct (hex_value l'); simpl in H; [|congruence].
    destruct (percent_decode l) eqn:E; [done|]. simplify_eq. eapply IH; [|exact E]. lia.
  - destruct (percent_decode l) eqn:E; [done|]. simplify_eq. eapply IH; [|exact E]. lia.
Qed.

Section ByteClasses.
Lemma tchar_lower b : is_tchar b = true -> is_tchar (to_ascii_lowercase b) = true.
Proof.
  pose proof (byte_forall (fun b => implb (is_tchar b) (is_tchar (to_ascii_lowercase b)))
    eq_refl b) as H. cbv beta in H. by destruct (is_tchar b).
Qed.

(** A token byte is graphic and is none of the delimiters of the grammar. *)
Lemma tchar_classes b : is_tchar b = true ->
  is_ascii_graphic b = true /\ b <> x3a /\ b <> SP /\ is_ows b = false /\ b <> CR /\ b <> LF.
Proof.
  pose proof (byte_forall (fun b => implb (is_tchar b)
    (is_ascii_graphic b && negb (b ==b x3a) && negb (b ==b SP) && negb (is_ows b)
     && negb (b ==b CR) && negb (b ==b LF))) eq_refl b) as H.
  cbv beta in H. intros E. rewrite E in H. cbn [implb] in H. bool_hyps. auto 10.
Qed.

Lemma graphic_classes b : is_ascii_graphic b = true ->
  b <> SP /\ b <> CR /\ b <> LF /\ bval b < 128.
Proof.
  intros H. unfold is_ascii_graphic in H. bool_hyps.
  repeat split; [intros ->; cbn in *; lia..|lia].
Qed.

Lemma field_byte_classes b : valid_field_byte b = true -> b <> CR /\ b <> LF.
Proof.
  pose proof (byte_forall (fun b => implb (valid_field_byte b)
    (negb (b ==b CR) && negb (b ==b LF))) eq_refl b) as H.
  cbv beta in H. intros E. rewrite E in H. cbn [implb] in H. bool_hyps. auto.
Qed.
End ByteClasses.

Lemma forallb_elem {A} (p : A -> bool) l x : forallb p l = true -> x ∈ l -> p x = true.
Proof. rewrite forallb_forall. intros H Hx. apply H. by apply list_elem_of_In. Qed.

Lemma forallb_Forall_true {A} (p : A -> bool) l : forallb p l = true <-> Forall (fun x => p x = true) l.
Proof. rewrite forallb_forall, List.Forall_forall. done. Qed.

Lemma strip_cr_snoc l : strip_cr (l ++ [CR]) = Ok l.
Proof. unfold strip_cr. rewrite reverse_snoc. by rewrite bool_decide_true, reverse_involutive. Qed.

Definition no_line_break (l : bytes) : Prop := (CR ∉ l) /\ (LF ∉ l).

Lemma not_elem_of_Forall_eqb (c : byte) l : c ∉ l -> Forall (fun b => (b ==b c) = false) l.
Proof.
  intros H. apply Forall_forall. intros b Hb. apply bool_decide_eq_false. intros ->. done.
Qed.

Lemma head_lines_join lines :
  lines <> [] -> Forall no_line_break lines ->
  head_lines (split_on (fun b => b ==b LF) (join crlf lines)) = map Ok lines.
Proof.
  intros Hne H. induction H as [|l ls [Hcr Hlf] Hls IH]; [done|].
  destruct ls as [|l' ls].
  - simpl join. rewrite split_on_no_sep by (by apply not_elem_of_Forall_eqb).
    simpl. apply contains_false in Hcr. by rewrite Hcr.
  - specialize (IH ltac:(done)). cbn [join].
    assert (E : forall r, l ++ crlf ++ r = (l ++ [CR]) ++ LF :: r) by (intros; by rewrite <- app_assoc).
    rewrite E, split_on_app; [|apply not_elem_of_Forall_eqb|done].
    2: { rewrite elem_of_app, list_elem_of_singleton. intros [|]; done. }
    change (match ls with [] => l' | _ :: _ => (l' ++ crlf ++ join crlf ls) end)
      with (join crlf (l' :: ls)).
    destruct (split_on_cons (fun b => b ==b LF) (join crlf (l' :: ls))) as (h & t & Et).
    rewrite Et in *. cbn [head_lines]. rewrite strip_cr_snoc. simpl map. f_equal. exact IH.
Qed.

Lemma parse_field_line_render lim f : wf_field lim f -> parse_field_line lim (render_field f) = Ok f.
Proof.
  intros [Hne Htok Hlow Hval Htrim Hlen]. destruct f as [n v]. simpl in *.
  unfold parse_field_line, render_field in *; simpl in *.
  destruct (Z.ltb_spec (max_header_line_bytes lim) (len (n ++ x3a :: v))); [lia|].
  destruct n as [|c n]; [done|]. cbn [app is_empty orb].
  pose proof (forallb_elem _ _ c Htok ltac:(left)) as Hc. apply tchar_classes in Hc.
  destruct Hc as (_ & _ & _ & -> & _).
  assert (Hs : split_once x3a (c :: n ++ x3a :: v) = Some (c :: n, v)).
  { apply (split_once_Some x3a ((c :: n) ++ x3a :: v)). split; [done|]. intros Hin.
    by apply (forallb_elem _ _ _ Htok), tchar_classes in Hin as (_ & ? & _). }
  rewrite Hs. simpl ok_or. cbv iota beta. rewrite Htok. simpl. rewrite Htrim, Hval. simpl.
  unfold make_header. by rewrite Hlow.
Qed.

Lemma parse_field_line_wf lim line f : parse_field_line lim line = Ok f -> wf_field lim f.
Proof.
  unfold parse_field_line. intros H.
  destruct (Z.ltb_spec (max_header_line_bytes lim) (len line)) as [|Hlen]; [done|].
  destruct (is_empty line || _); [done|].
  destruct (split_once x3a line) as [[n rest]|] eqn:Es; [|done]. simpl in H.
  destruct (is_empty n || negb (forallb is_tchar n)) eqn:En; [done|].
  destruct (negb (valid_field_value (trim_ows rest))) eqn:Ev; [done|]. simplify_eq.
  apply orb_false_elim in En as [Hne Htok]. guards. apply split_once_Some in Es as [-> _].
  split; simpl.
  - by destruct n.
  - unfold lowercase. rewrite forallb_Forall_true, Forall_map.
    apply forallb_Forall_true in Htok. eapply Forall_impl; [exact Htok|].
    intros b Hb. by apply tchar_lower.
  - apply lowercase_involutive.
  - done.
  - apply trim_by_id; intros x Hx; apply (trim_by_ends is_ows rest); auto.
  - unfold render_field. simpl. destruct (trim_by_sublist is_ows rest) as (a & b & E & _).
    unfold lowercase, trim_ows in *. revert Hlen. rewrite E at 1.
    unfold len. rewrite !length_app. simpl. rewrite length_map, !length_app. lia.
Qed.

Lemma parse_fields_wf lim i lines fs :
  parse_fields lim i lines = Ok fs -> Forall (wf_field lim) fs.
Proof.
  revert i fs. induction lines as [|l lines IH]; intros i fs H; simpl in H; [by simplify_eq|].
  destruct (max_headers lim <=? i); [done|]. destruct l as [l|]; [|done].
  destruct (parse_field_line lim l) eqn:Ef; [|done].
  destruct (parse_fields lim (i + 1) lines) eqn:Et; [|done]. simplify_eq.
  constructor; [by eapply parse_field_line_wf|by eapply IH].
Qed.

Lemma parse_fields_render lim i fs :
  Forall (wf_field lim) fs -> i + len fs <= max_headers lim ->
  parse_fields lim i (map (fun f => Ok (render_field f)) fs) = Ok fs.
Proof.
  intros H. revert i. induction H as [|f fs Hf Hfs IH]; intros i Hi; simpl; [done|].
  rewrite len_cons in Hi. pose proof (len_nonneg fs).
  destruct (Z.leb_spec (max_headers lim) i); [lia|].
  rewrite parse_field_line_render, IH by (done || lia). done.
Qed.

Lemma HeaderMap_get_hd m n : HeaderMap_get m n = hd_error (HeaderMap_get_all m n).
Proof.
  unfold HeaderMap_get, HeaderMap_get_all. induction (fields m) as [|f fs IH]; simpl; [done|].
  by destruct (eq_ignore_ascii_case (header_name f) n).
Qed.

Lemma check_host_Ok m :
  check_host m = Ok tt <-> exists h, HeaderMap_get_all m (bs "host") = [h] /\ h <> [].
Proof.
  unfold check_host. rewrite HeaderMap_get_hd.
  destruct (HeaderMap_get_all m (bs "host")) as [|h [|h' t]]; cbn [hd_error].
  - simpl. naive_solver.
  - destruct h; simpl; naive_solver.
  - replace (len (h :: h' :: t) =? 0) with false
      by (rewrite !len_cons; pose proof (len_nonneg t); symmetry; apply Z.eqb_neq; lia).
    replace (len (h :: h' :: t) =? 1) with false
      by (rewrite !len_cons; pose proof (len_nonneg t); symmetry; apply Z.eqb_neq; lia).
    simpl. naive_solver.
Qed.

Lemma graphic_ascii l : forallb is_ascii_graphic l = true -> from_utf8 l = Some l.
Proof.
  intros H. apply from_utf8_Some. split; [|done]. apply ascii_utf8_valid.
  apply forallb_Forall_true in H. eapply Forall_impl; [exact H|]. by intros b (_ & _ & _ & ?)%graphic_classes.
Qed.

Lemma existsb_not_graphic l :
  existsb (fun b => negb (in_range 33 126 (bval b))) l = negb (forallb is_ascii_graphic l).
Proof. induction l as [|b l IH]; simpl; [done|]. rewrite IH. by rewrite negb_andb. Qed.

Lemma split_once_target d l p q :
  match split_once d l with Some (a, b) => (a, Some b) | None => (l, None) end = (p, q) ->
  l = p ++ match q with Some q' => d :: q' | None => [] end /\ d ∉ p.
Proof.
  destruct (split_once d l) as [[a b]|] eqn:E; intros; simplify_eq.
  - by apply split_once_Some in E.
  - apply split_once_None in E. by rewrite app_nil_r.
Qed.

Lemma join_words a b c : join [SP] [a; b; c] = a ++ SP :: b ++ SP :: c.
Proof. done. Qed.

Lemma split_on_join_inv (d : byte) l : join [d] (split_on (fun b => b ==b d) l) = l.
Proof.
  induction l as [|x l IH]; [done|]. simpl. case_bool_decide.
  - subst. destruct (split_on_cons (fun b => b ==b d) l) as (h & t & E).
    rewrite E in *. simpl. f_equal. exact IH.
  - destruct (split_on_cons (fun b => b ==b d) l) as (h & t & E).
    rewrite E in *. destruct t; simpl in *; by f_equal.
Qed.

Lemma parse_request_line_wf lim line m t :
  parse_request_line lim line = Ok (m, t) ->
  m <> [] /\ forallb is_tchar m = true /\ wf_target t /\
  line = join [SP] [m; render_target t; bs "HTTP/1.1"] /\ len line <= max_request_line_bytes lim.
Proof.
  unfold parse_request_line. intros H.
  destruct (Z.ltb_spec (max_request_line_bytes lim) (len line)); [done|].
  pose proof (split_on_join_inv SP line) as Hj.
  destruct (split_on (fun b => b ==b SP) line) as [|m' [|tg [|v [|]]]]; simpl orb in H; try done.
  destruct (is_empty m' || negb (forallb is_tchar m')) eqn:Em; [done|].
  destruct (negb (v ==b bs "HTTP/1.1")) eqn:Ev; [done|].
  rewrite existsb_not_graphic in H.
  destruct (negb (starts_with tg (bs "/")) || negb (forallb is_ascii_graphic tg) || contains x23 tg) eqn:Et;
    [done|]. apply orb_false_elim in Et as [Et Hfr]. apply orb_false_elim in Et as [Hsl Hgr].
  guards. rewrite (graphic_ascii tg) in H by done. simpl ok_or in H. cbv iota in H.
  destruct (match split_once x3f tg with Some (p, q) => _ | None => _ end) as [p q] eqn:Es.
  apply split_once_target in Es as [-> Hp].
  destruct (percent_decode p) eqn:Ep; [|done].
  destruct (QueryParams_parse _) eqn:Eq; [|done]. simplify_eq.
  repeat split; simpl; try done.
  - apply starts_with_true in Hsl as [r Hr]. apply starts_with_true.
    destruct p as [|c p]; simpl in Hr; [destruct q; simplify_eq; done|].
    simplify_eq. by exists p.
  - by rewrite Ep.
Qed.

Lemma parse_request_line_render lim m t :
  m <> [] -> forallb is_tchar m = true -> wf_target t ->
  len (join [SP] [m; render_target t; bs "HTTP/1.1"]) <= max_request_line_bytes lim ->
  parse_request_line lim (join [SP] [m; render_target t; bs "HTTP/1.1"]) = Ok (m, t).
Proof.
  intros Hm Htok [Hsl Hgr Hfr Hpq Hesc Hq] Hlen. unfold parse_request_line.
  destruct (Z.ltb_spec (max_request_line_bytes lim)
    (len (join [SP] [m; render_target t; bs "HTTP/1.1"]))); [lia|].
  rewrite split_on_join; [|done|done|].
  2: { rewrite !Forall_cons, Forall_nil. split_and!; try done; apply not_elem_of_Forall_eqb.
       - intros Hin. by apply (forallb_elem _ _ _ Htok), tchar_classes in Hin as (_ & _ & ? & _).
       - intros Hin. by apply (forallb_elem _ _ _ Hgr), graphic_classes in Hin as (? & _).
       - by apply contains_false. }
  rewrite existsb_not_graphic, Hgr, Htok.
  apply contains_false in Hfr. rewrite Hfr.
  replace (starts_with (render_target t) (bs "/")) with true.
  2: { symmetry. apply starts_with_true in Hsl as [r Hr]. apply starts_with_true.
       unfold render_target. rewrite Hr, <- app_assoc. eauto. }
  destruct m as [|c m]; [done|].
  assert (Hv : (bs "HTTP/1.1" ==b bs "HTTP/1.1") = true) by (by apply bool_decide_true).
  rewrite Hv. cbn [is_empty negb orb]. rewrite (graphic_ascii _ Hgr). cbn [ok_or].
  assert (Hs : match split_once x3f (render_target t) with
               | Some (path, query) => (path, Some query)
               | None => (render_target t, None) end = (raw_path t, raw_query t)).
  { unfold render_target. destruct (raw_query t) as [q|].
    - rewrite (proj2 (split_once_Some x3f _ (raw_path t) q)); done.
    - rewrite app_nil_r. by rewrite (proj2 (split_once_None x3f _)). }
  rewrite Hs. destruct (percent_decode (raw_path t)); [|done].
  replace (match raw_query t with Some q => q | None => [] end)
    with (default [] (raw_query t)) by (by destruct (raw_query t)).
  rewrite Hq. by destruct t.
Qed.

(** Heads that [parse_complete_head] accepts are well formed. *)
Lemma parse_complete_head_wf b lim r : parse_complete_head b lim = Ok r -> wf_head lim r.
Proof.
  unfold parse_complete_head. intros H. destruct (head_lines _) as [|[l|] ls]; [done| |done].
  destruct (parse_request_line lim l) as [[m t]|] eqn:El; [|done].
  destruct (parse_fields lim 0 ls) as [fs|] eqn:Ef; [|done].
  destruct (Z.ltb_spec (max_headers lim) (len fs)); [done|].
  destruct (check_host _) as [[]|] eqn:Eh; [|done].
  destruct (parse_framing _) as [[cl tc]|] eqn:Efr; [|done]. simplify_eq.
  apply parse_request_line_wf in El as (? & ? & ? & -> & ?).
  split; simpl; try done; [by eapply parse_fields_wf|by apply check_host_Ok].
Qed.

Lemma wf_field_no_break lim f : wf_field lim f -> no_line_break (render_field f).
Proof.
  intros [_ Htok _ Hval _ _]. unfold render_field.
  split; rewrite elem_of_app, elem_of_cons; intros [Hn|[Hc|Hv]]; try done.
  - by apply (forallb_elem _ _ _ Htok), tchar_classes in Hn as (_ & _ & _ & _ & ? & _).
  - by apply (forallb_elem _ _ _ Hval), field_byte_classes in Hv as [? _].
  - by apply (forallb_elem _ _ _ Htok), tchar_classes in Hn as (_ & _ & _ & _ & _ & ?).
  - by apply (forallb_elem _ _ _ Hval), field_byte_classes in Hv as [_ ?].
Qed.

Lemma wf_request_line_no_break lim r : wf_head lim r -> no_line_break (render_request_line r).
Proof.
  intros [_ Htok [_ Hgr _ _ _ _] _ _ _ _ _]. unfold render_request_line. rewrite join_words.
  assert (Hv : (CR ∉ bs "HTTP/1.1") /\ (LF ∉ bs "HTTP/1.1")) by (split; by apply contains_false).
  split; rewrite elem_of_app, elem_of_cons, elem_of_app, elem_of_cons;
    intros [Hm|[Hc|[Ht|[Hc|Hin]]]]; try done; try tauto.
  - by apply (forallb_elem _ _ _ Htok), tchar_classes in Hm as (_ & _ & _ & _ & ? & _).
  - by apply (forallb_elem _ _ _ Hgr), graphic_classes in Ht as (_ & ? & _).
  - by apply (forallb_elem _ _ _ Htok), tchar_classes in Hm as (_ & _ & _ & _ & _ & ?).
  - by apply (forallb_elem _ _ _ Hgr), graphic_classes in Ht as (_ & _ & ? & _).
Qed.

(** Every well-formed head parses back from its rendering. *)
Lemma parse_render_head lim r : wf_head lim r -> parse_complete_head (render_head r) lim = Ok r.
Proof.
  intros Hwf. pose proof (wf_request_line_no_break _ _ Hwf) as Hrl.
  destruct Hwf as [Hm Htok Ht Hlen Hfs Hcount Hhost Hfr].
  unfold parse_complete_head, render_head.
  rewrite head_lines_join; [|done|].
  2: { constructor; [done|]. apply Forall_map. eapply Forall_impl; [exact Hfs|].
       intros f. apply wf_field_no_break. }
  simpl map. rewrite map_map. unfold render_request_line in *.
  rewrite parse_request_line_render by done.
  rewrite parse_fields_render by (done || lia).
  destruct (Z.ltb_spec (max_headers lim) (len (fields (headers r)))); [lia|].
  apply check_host_Ok in Hhost. destruct r as [m t [fs] cl tc]; simpl in *.
  rewrite Hhost, Hfr. done.
Qed.

Lemma parse_content_length_spec v n :
  parse_content_length v = Ok n <->
  v <> [] /\ forallb is_ascii_digit v = true /\ dec_value v = n /\ n <= u64_max.
Proof. apply (decimal_loop_spec InvalidContentLength). Qed.

Lemma transfer_values_single vs token :
  map trim_ows (concat (map (split_on (fun b => b ==b x2c)) vs)) = [token] ->
  exists v, vs = [v] /\ trim_ows v = token.
Proof.
  destruct vs as [|v [|v' vs]]; intros H; [done| |]; simpl in H.
  - rewrite app_nil_r in H. exists v. split; [done|].
    pose proof (split_on_join_inv x2c v) as Hj.
    destruct (split_on _ v) as [|p [|]]; by simplify_eq/=.
  - destruct (split_on_cons (fun b => b ==b x2c) v) as (h & t & E).
    destruct (split_on_cons (fun b => b ==b x2c) v') as (h' & t' & E').
    rewrite E, E' in H. simpl in H. simplify_eq. by destruct t.
Qed.

Lemma parse_framing_spec m cl tc :
  parse_framing m = Ok (cl, tc) ->
  match cl, tc with
  | Some n, true => False
  | Some n, false =>
      exists v, HeaderMap_get_all m (bs "content-length") = [v] /\ v <> [] /\
        forallb is_ascii_digit v = true /\ dec_value v = n /\ 0 <= n <= u64_max /\
        HeaderMap_get_all m (bs "transfer-encoding") = []
  | None, true =>
      HeaderMap_get_all m (bs "content-length") = [] /\
      exists v, HeaderMap_get_all m (bs "transfer-encoding") = [v] /\
        lowercase (trim_ows v) = bs "chunked"
  | None, false =>
      HeaderMap_get_all m (bs "content-length") = [] /\
      HeaderMap_get_all m (bs "transfer-encoding") = []
  end.
Proof.
  unfold parse_framing. destruct (HeaderMap_get_all m (bs "content-length")) as [|v vs]; simpl.
  - destruct (HeaderMap_get_all m (bs "transfer-encoding")) as [|t ts] eqn:Et;
      [intros; by simplify_eq|].
    destruct (map trim_ows _) as [|tok [|]] eqn:Em; [done| |done].
    destruct (eq_ignore_ascii_case tok (bs "chunked")) eqn:Ec; [|done].
    intros; simplify_eq. split; [done|]. apply transfer_values_single in Em as (v & -> & Hv).
    exists v. split; [done|]. rewrite Hv. unfold eq_ignore_ascii_case in Ec. by bool_hyps.
  - destruct (parse_content_length v) as [n|] eqn:En; [|done].
    destruct (Z.ltb_spec 1 (len (v :: vs))); [done|].
    destruct (HeaderMap_get_all m (bs "transfer-encoding")) as [|t ts] eqn:Et; [|done].
    intros; simplify_eq. rewrite len_cons in *. pose proof (len_nonneg vs).
    rewrite (len_zero vs) by lia. apply parse_content_length_spec in En as (Hne & Hd & Hv & Hm).
    exists v. pose proof (dec_value_nonneg v Hd). split_and!; done || lia.
Qed.

Section Push.
Implicit Types p : RequestHeadParser.

Definition with_remainder p (r : bytes) : RequestHeadParser :=
  {| limits := limits p; buffer := buffer p; remainder := r; completed := completed p |}.

(** One more fragment: the three outcomes of the first push. *)
Lemma push_app p a b :
  completed p = false ->
  match RequestHeadParser_push p a with
  | (p1, Ok None) => RequestHeadParser_push p1 b = RequestHeadParser_push p (a ++ b)
  | (p1, Ok (Some r)) =>
      RequestHeadParser_push p (a ++ b) = (with_remainder p1 (remainder p1 ++ b), Ok (Some r))
  | (p1, Err e) => snd (RequestHeadParser_push p (a ++ b)) = Err e
  end.
Proof.
  intros Hc. unfold RequestHeadParser_push. rewrite Hc. unfold find_subslice.
  rewrite app_assoc. set (buf := buffer p ++ a).
  destruct (find_sub (crlf ++ crlf) buf) as [e|] eqn:Ef.
  - pose proof (find_sub_Some _ _ _ Ef) as [_ Hb]. simpl in Hb.
    rewrite (find_sub_app _ _ b _ Ef).
    destruct (Z.ltb_spec (max_head_bytes (limits p)) (Z.of_nat (e + 4))); [done|].
    rewrite take_app_le by lia.
    destruct (parse_complete_head (take e buf) (limits p)); [|done].
    unfold with_remainder. simpl. rewrite drop_app_le by lia. by rewrite app_assoc.
  - destruct (Z.ltb_spec (max_head_bytes (limits p)) (len buf)).
    + destruct (find_sub (crlf ++ crlf) (buf ++ b)) as [e|] eqn:Ef'.
      * pose proof (find_sub_late _ _ _ _ Ef Ef') as Hlate. simpl in Hlate.
        unfold len in *. destruct (Z.ltb_spec (max_head_bytes (limits p)) (Z.of_nat (e + 4))); [done|lia].
      * rewrite len_app. pose proof (len_nonneg b).
        destruct (Z.ltb_spec (max_head_bytes (limits p)) (len buf + len b)); [done|lia].
    + done.
Qed.

(** The socket loop: push fragments until the head completes or fails; the
    fragments that follow a completed head are body bytes. *)
Fixpoint feed p (fragments : list bytes)
  : RequestHeadParser * result HttpParseError (option RequestHead) :=
  match fragments with
  | [] => (p, Ok None)
  | a :: rest =>
      match RequestHeadParser_push p a with
      | (p1, Ok None) => feed p1 rest
      | (p1, Ok (Some r)) => (with_remainder p1 (remainder p1 ++ concat rest), Ok (Some r))
      | (p1, Err e) => (p1, Err e)
      end
  end.

Definition same_outcome (x y : RequestHeadParser * result HttpParseError (option RequestHead)) : Prop :=
  snd x = snd y /\ match snd x with Ok _ => fst x = fst y | Err _ => True end.

Lemma push_completed p b p1 :
  completed p = false -> RequestHeadParser_push p b = (p1, Ok None) -> completed p1 = false.
Proof.
  unfold RequestHeadParser_push. intros -> H.
  repeat (destr_match_in H; simplify_eq/=); done.
Qed.
End Push.

(** * Theorems *)

(** The incremental head parser does not depend on fragmentation: however
    the bytes of a connection are split into reads, the parsed head, the
    error, the body bytes kept as remainder and the parser state are those of
    a single push of all the bytes. *)
Theorem head_parser_fragmentation (lim : HeadLimits) (first : bytes) (rest : list bytes) :
  same_outcome (feed (RequestHeadParser_new lim) (first :: rest))
               (RequestHeadParser_push (RequestHeadParser_new lim) (first ++ concat rest)).
Proof.
  assert (Hnew : completed (RequestHeadParser_new lim) = false) by done.
  revert first Hnew. generalize (RequestHeadParser_new lim) as p. revert rest.
  induction rest as [|b rest IH]; intros p a Hc; cbn [feed concat].
  - rewrite app_nil_r. pose proof (push_app p a [] Hc) as H. rewrite app_nil_r in H.
    destruct (RequestHeadParser_push p a) as [p1 [[r|]|e]]; split; simpl in *; try done.
    by simplify_eq.
  - pose proof (push_app p a (b ++ concat rest) Hc) as H.
    destruct (RequestHeadParser_push p a) as [p1 [[r|]|e]] eqn:E.
    + rewrite H. split; done.
    + rewrite <- H. eapply IH. by eapply push_completed.
    + split; simpl; [by rewrite H|done].
Qed.

(** C12: No request smuggling through the head: an accepted head has exactly
    one framing.  With a body length, the length is the decimal value of the
    single Content-Length header, fits a [u64], and there is no
    Transfer-Encoding; chunked framing excludes Content-Length and comes from
    the single transfer coding [chunked]; otherwise both headers are absent. *)
Theorem head_framing_unambiguous b lim r :
  parse_complete_head b lim = Ok r ->
  match content_length r, transfer_chunked r with
  | Some n, true => False
  | Some n, false =>
      exists v, HeaderMap_get_all (headers r) (bs "content-length") = [v] /\ v <> [] /\
        forallb is_ascii_digit v = true /\ dec_value v = n /\ 0 <= n <= u64_max /\
        HeaderMap_get_all (headers r) (bs "transfer-encoding") = []
  | None, true =>
      HeaderMap_get_all (headers r) (bs "content-length") = [] /\
      exists v, HeaderMap_get_all (headers r) (bs "transfer-encoding") = [v] /\
        lowercase (trim_ows v) = bs "chunked"
  | None, false =>
      HeaderMap_get_all (headers r) (bs "content-length") = [] /\
      HeaderMap_get_all (headers r) (bs "transfer-encoding") = []
  end.
Proof. intros H. apply parse_framing_spec. by eapply wf_framing, parse_complete_head_wf. Qed.

Definition sample_head : bytes :=
  join crlf [bs "PUT /bucket/a%20b?versionId=3 HTTP/1.1"; bs "Host: localhost:9000";
             bs "Content-Length: 3"; bs "X-Test:  a b  "].

(** The framing of a request with a body length. *)
Lemma head_framing_unambiguous_witness :
  exists r, parse_complete_head sample_head default_head_limits = Ok r /\
    content_length r = Some 3 /\ transfer_chunked r = false /\
    exists v, HeaderMap_get_all (headers r) (bs "content-length") = [v] /\ dec_value v = 3.
Proof.
  eexists. split; [vm_compute; reflexivity|]. split_and!; [done|done|].
  pose proof (head_framing_unambiguous sample_head default_head_limits _
    ltac:(vm_compute; reflexivity)) as H.
  cbn [content_length transfer_chunked] in H. destruct H as (v & Hv & _ & _ & Hd & _).
  exists v. split; assumption.
Defined.

(** The heads the parser accepts are exactly the well-formed ones, and
    each is the parse of its own rendering: a token method, a graphic
    origin-form target with valid escapes, lower-case token header names,
    trimmed values free of CR, LF and other controls, one non-empty Host, and
    every line and count within its limit. *)
Theorem accepted_heads lim r :
  ((exists b, parse_complete_head b lim = Ok r) <-> wf_head lim r) /\
  (wf_head lim r <-> parse_complete_head (render_head r) lim = Ok r).
Proof.
  split; split.
  - intros [b Hb]. by eapply parse_complete_head_wf.
  - intros Hwf. exists (render_head r). by apply parse_render_head.
  - apply parse_render_head.
  - apply parse_complete_head_wf.
Qed.

Example head_example :
  exists r, parse_complete_head sample_head default_head_limits = Ok r /\
    raw_path (target r) = bs "/bucket/a%20b" /\
    QueryParams_get (query (target r)) (bs "versionId") = Some (bs "3") /\
    HeaderMap_get (headers r) (bs "x-test") = Some (bs "a b").
Proof. eexists. split; [vm_compute; reflexivity|]. done. Qed.
