(* ===== verification/Headers.v ===== *)
(** Range and conditional request headers, [src/src/protocol/headers.rs]:
    byte ranges and their resolution against an object, entity tags, the
    If-Match / If-None-Match / If-(Un)Modified-Since evaluation and If-Range.
    The HTTP-date parser of the [httpdate] crate is a parameter; times are
    nanoseconds since the Unix epoch. *)
From S2P Require Import Prelude Text Http.

(** * Ranges *)

Inductive ByteRangeSpec :=
| Inclusive (first last : Z)
| From (first : Z)
| Suffix (length : Z).

Record ResolvedRange := { start : Z; end_ : Z }.

Definition ResolvedRange_len (r : ResolvedRange) : Z := end_ r - start r + 1.

Inductive RangeError :=
| UnsupportedUnit
| MultipleRangesUnsupported
| InvalidSyntax
| InvalidNumber
| Unsatisfiable.

Definition RangeError_display (e : RangeError) : bytes :=
  match e with
  | UnsupportedUnit => bs "only byte ranges are supported"
  | MultipleRangesUnsupported => bs "S3 does not support multiple ranges in one request"
  | InvalidSyntax => bs "invalid Range header syntax"
  | InvalidNumber => bs "Range header offset is not a valid u64"
  | Unsatisfiable => bs "requested range is not satisfiable"
  end.

Definition trim_ascii (value : bytes) : bytes := trim_by is_ascii_whitespace value.
Definition trim_ascii_start (value : bytes) : bytes := drop_while is_ascii_whitespace value.

(** [headers.rs] has its own [parse_u64], without a sign. *)
Definition parse_u64_digits (value : bytes) : result RangeError Z :=
  if is_empty value || negb (forallb is_ascii_digit value) then Err InvalidNumber
  else fold_result (decimal_step InvalidNumber) 0 value.

(** [ByteRangeSpec::parse] *)
Definition ByteRangeSpec_parse (value : bytes) : result RangeError ByteRangeSpec :=
  let value := trim_ascii value in
  let* (unit, range) := ok_or (split_once x3d value) InvalidSyntax in
  if negb (eq_ignore_ascii_case unit (bs "bytes")) then Err UnsupportedUnit
  else if contains x2c range then Err MultipleRangesUnsupported
  else
    let* (first, last) := ok_or (split_once x2d range) InvalidSyntax in
    if is_empty first then
      let* length := parse_u64_digits last in
      if length =? 0 then Err Unsatisfiable else Ok (Suffix length)
    else
      let* first := parse_u64_digits first in
      if is_empty last then Ok (From first)
      else
        let* last := parse_u64_digits last in
        if last <? first then Err Unsatisfiable else Ok (Inclusive first last).

(** [ByteRangeSpec::resolve] *)
Definition ByteRangeSpec_resolve (spec : ByteRangeSpec) (object_size : Z)
  : result RangeError ResolvedRange :=
  if object_size =? 0 then Err Unsatisfiable
  else
    let final_byte := object_size - 1 in
    match spec with
    | Inclusive first last =>
        if object_size <=? first then Err Unsatisfiable
        else Ok {| start := first; end_ := Z.min last final_byte |}
    | From first =>
        if object_size <=? first then Err Unsatisfiable
        else Ok {| start := first; end_ := final_byte |}
    | Suffix length => Ok {| start := saturating_sub_u64 object_size length; end_ := final_byte |}
    end.

(** * Entity tags *)

Record EntityTag := { weak : bool; opaque : bytes }.

Inductive ConditionalError :=
| DuplicateHeader (name : bytes)
| InvalidEntityTag
| InvalidHttpDate.

Definition ConditionalError_display (e : ConditionalError) : bytes :=
  match e with
  | DuplicateHeader name => bs "duplicate conditional header: " ++ name
  | InvalidEntityTag => bs "invalid HTTP entity-tag"
  | InvalidHttpDate => bs "invalid HTTP date in conditional header"
  end.

Definition DQUOTE : byte := x22.
Definition weak_prefix : bytes := bs "W/".

Definition etag_byte (b : byte) : bool :=
  (bval b =? 33) || ((35 <=? bval b) && negb (bval b =? 127)).

(** [EntityTag::parse] *)
Definition EntityTag_parse (value : bytes) : result ConditionalError EntityTag :=
  let value := trim_ascii value in
  let (weak, quoted) :=
    match strip_prefix weak_prefix value with
    | Some quoted => (true, quoted)
    | None => (false, value)
    end in
  match quoted with
  | q0 :: rest =>
      match reverse rest with
      | q1 :: inner =>
          if negb (q0 ==b DQUOTE) || negb (q1 ==b DQUOTE) then Err InvalidEntityTag
          else
            let opaque := reverse inner in
            if negb (forallb etag_byte opaque) then Err InvalidEntityTag
            else Ok {| weak := weak; opaque := opaque |}
      | [] => Err InvalidEntityTag
      end
  | [] => Err InvalidEntityTag
  end.

Definition strong_eq (a b : EntityTag) : bool :=
  negb (weak a) && negb (weak b) && (opaque a ==b opaque b).

Definition weak_eq (a b : EntityTag) : bool := opaque a ==b opaque b.

Inductive TagCondition :=
| Any
| Tags (tags : list EntityTag).

Definition weak_quote : bytes := weak_prefix ++ [DQUOTE].

Definition unquoted_tag_byte (b : byte) : bool :=
  (33 <=? bval b) && negb (b ==b DQUOTE) && negb (bval b =? 127).

(** The [while] loop of [TagCondition::parse].  Each round consumes at least
    two bytes, so [length remainder] rounds are enough
    ([parse_tags_fuel_enough]). *)
Fixpoint parse_tags (fuel : nat) (remainder : bytes) : result ConditionalError (list EntityTag) :=
  match fuel with
  | O => if is_empty remainder then Ok [] else Err InvalidEntityTag
  | S fuel' =>
      if is_empty remainder then Ok []
      else
        let remainder := trim_ascii_start remainder in
        let* quote := (if starts_with remainder weak_quote then Ok 2%nat
                       else if starts_with remainder [DQUOTE] then Ok 0%nat
                       else Err InvalidEntityTag) in
        let* close := ok_or (option_map (fun position => (quote + 1 + position)%nat)
                        (position (fun b => b ==b DQUOTE) (drop (quote + 1) remainder)))
                        InvalidEntityTag in
        let* tag := EntityTag_parse (take (close + 1) remainder) in
        let remainder := trim_ascii_start (drop (close + 1) remainder) in
        match remainder with
        | [] => Ok [tag]
        | c :: rest =>
            if negb (c ==b x2c) then Err InvalidEntityTag
            else if is_empty (trim_ascii_start rest) then Err InvalidEntityTag
            else
              let* tags := parse_tags fuel' rest in
              Ok (tag :: tags)
        end
  end.

(** [TagCondition::parse] *)
Definition TagCondition_parse (value : bytes) : result ConditionalError TagCondition :=
  let value := trim_ascii value in
  if value ==b bs "*" then Ok Any
  else if negb (starts_with value [DQUOTE]) && negb (starts_with value weak_quote) then
    if negb (is_empty value) && negb (contains x2c value) && forallb unquoted_tag_byte value
    then Ok (Tags [{| weak := false; opaque := value |}])
    else Err InvalidEntityTag
  else
    let* tags := parse_tags (length value) value in
    if is_empty tags then Err InvalidEntityTag else Ok (Tags tags).

(** * Conditional requests *)

(** Nanoseconds since the epoch; [SystemTime] may precede it. *)
Definition SystemTime : Type := Z.
Definition nanos_per_sec : Z := 1000000000.

(** [duration_since(UNIX_EPOCH).unwrap_or_default().as_secs()] *)
Definition second_precision (time : SystemTime) : Z :=
  if time <? 0 then 0 else time / nanos_per_sec.

Record ConditionalHeaders := {
  if_match : option TagCondition;
  if_none_match : option TagCondition;
  if_modified_since : option SystemTime;
  if_unmodified_since : option SystemTime
}.

Inductive PreconditionResult := Proceed | NotModified | PreconditionFailed.

Definition one (m : HeaderMap) (name : bytes) : result ConditionalError (option bytes) :=
  match HeaderMap_get_all m name with
  | [] => Ok None
  | [value] => Ok (Some value)
  | _ => Err (DuplicateHeader name)
  end.

Section Dates.
(** [httpdate::parse_http_date] *)
Context (parse_date : bytes -> option SystemTime).

Definition parse_http_date (value : bytes) : result ConditionalError SystemTime :=
  let* value := ok_or (from_utf8 (trim_ascii value)) InvalidHttpDate in
  ok_or (parse_date value) InvalidHttpDate.

(** [ConditionalHeaders::parse] *)
Definition ConditionalHeaders_parse (m : HeaderMap) : result ConditionalError ConditionalHeaders :=
  let* v := one m (bs "if-match") in
  let* if_match := transpose_map TagCondition_parse v in
  let* v := one m (bs "if-none-match") in
  let* if_none_match := transpose_map TagCondition_parse v in
  let* v := one m (bs "if-modified-since") in
  let* if_modified_since := transpose_map parse_http_date v in
  let* v := one m (bs "if-unmodified-since") in
  let* if_unmodified_since := transpose_map parse_http_date v in
  Ok {| if_match := if_match; if_none_match := if_none_match;
        if_modified_since := if_modified_since; if_unmodified_since := if_unmodified_since |}.
End Dates.

Definition condition_matches (eq : EntityTag -> EntityTag -> bool) (condition : TagCondition)
  (current_etag : option EntityTag) : bool :=
  match condition with
  | Any => match current_etag with Some _ => true | None => false end
  | Tags tags =>
      match current_etag with
      | Some current => existsb (fun candidate => eq candidate current) tags
      | None => false
      end
  end.

(** [ConditionalHeaders::evaluate] *)
Definition evaluate (c : ConditionalHeaders) (current_etag : option EntityTag)
  (last_modified : option SystemTime) (is_get_or_head : bool) : PreconditionResult :=
  let first_failed :=
    match if_match c with
    | Some condition => negb (condition_matches strong_eq condition current_etag)
    | None =>
        match if_unmodified_since c, last_modified with
        | Some since, Some modified => second_precision since <? second_precision modified
        | _, _ => false
        end
    end in
  if first_failed then PreconditionFailed
  else
    match if_none_match c with
    | Some condition =>
        if condition_matches weak_eq condition current_etag
        then if is_get_or_head then NotModified else PreconditionFailed
        else Proceed
    | None =>
        if is_get_or_head
           && match if_modified_since c, last_modified with
              | Some since, Some modified => second_precision modified <=? second_precision since
              | _, _ => false
              end
        then NotModified
        else Proceed
    end.

Inductive IfRange :=
| IfRangeTag (tag : EntityTag)
| IfRangeDate (date : SystemTime).

(** [IfRange::parse] *)
Definition IfRange_parse (parse_date : bytes -> option SystemTime) (value : bytes)
  : result ConditionalError IfRange :=
  let value := trim_ascii value in
  if starts_with value [DQUOTE] || starts_with value weak_quote then
    let* tag := EntityTag_parse value in Ok (IfRangeTag tag)
  else
    let* date := parse_http_date parse_date value in Ok (IfRangeDate date).

(** [IfRange::permits_range] *)
Definition permits_range (c : IfRange) (current_etag : EntityTag) (last_modified : SystemTime) : bool :=
  match c with
  | IfRangeTag expected => strong_eq expected current_etag
  | IfRangeDate date => second_precision last_modified <=? second_precision date
  end.

(** * Specifications *)

(** The bytes of an object of [size] bytes that a range names. *)
Definition selects (spec : ByteRangeSpec) (size i : Z) : Prop :=
  match spec with
  | Inclusive first last => first <= i <= last
  | From first => first <= i
  | Suffix length => size - length <= i
  end.

Definition wf_range (spec : ByteRangeSpec) : Prop :=
  match spec with
  | Inclusive first last => 0 <= first <= last /\ last <= u64_max
  | From first => 0 <= first <= u64_max
  | Suffix length => 0 < length <= u64_max
  end.

Definition render_range (spec : ByteRangeSpec) : bytes :=
  bs "bytes=" ++
  match spec with
  | Inclusive first last => show_Z first ++ x2d :: show_Z last
  | From first => show_Z first ++ [x2d]
  | Suffix length => x2d :: show_Z length
  end.

Definition wf_tag (t : EntityTag) : Prop := forallb etag_byte (opaque t) = true.

Definition render_tag (t : EntityTag) : bytes :=
  (if weak t then weak_prefix else []) ++ DQUOTE :: opaque t ++ [DQUOTE].

Definition render_tags (tags : list EntityTag) : bytes := join (bs ", ") (map render_tag tags).

(** A condition holds of the current representation under an equality on tags. *)
Definition condition_holds (same : EntityTag -> EntityTag -> Prop) (condition : TagCondition)
  (current : option EntityTag) : Prop :=
  exists t, current = Some t /\
    match condition with
    | Any => True
    | Tags tags => exists candidate, candidate ∈ tags /\ same candidate t
    end.

Definition strong_same (a b : EntityTag) : Prop :=
  weak a = false /\ weak b = false /\ opaque a = opaque b.
Definition weak_same (a b : EntityTag) : Prop := opaque a = opaque b.

(** RFC 9110 section 13.2.2, steps 1 and 2. *)
Definition representation_guard_fails (c : ConditionalHeaders) (current : option EntityTag)
  (modified : option SystemTime) : Prop :=
  match if_match c with
  | Some condition => ~ condition_holds strong_same condition current
  | None => exists since m, if_unmodified_since c = Some since /\ modified = Some m /\
                            second_precision since < second_precision m
  end.

(** Steps 3 and 4: the client's copy is current. *)
Definition copy_is_current (c : ConditionalHeaders) (current : option EntityTag)
  (modified : option SystemTime) : Prop :=
  match if_none_match c with
  | Some condition => condition_holds weak_same condition current
  | None => exists since m, if_modified_since c = Some since /\ modified = Some m /\
                            second_precision m <= second_precision since
  end.

(** * Lemmas *)

Lemma parse_u64_digits_spec v n :
  parse_u64_digits v = Ok n <->
  v <> [] /\ forallb is_ascii_digit v = true /\ dec_value v = n /\ n <= u64_max.
Proof. apply (decimal_loop_spec InvalidNumber). Qed.

Lemma parse_u64_digits_show n : 0 <= n <= u64_max -> parse_u64_digits (show_Z n) = Ok n.
Proof.
  intros Hn. apply parse_u64_digits_spec. destruct (show_Z_digits n) as (? & ? & ?); [lia|].
  split_and!; done || lia.
Qed.

Lemma parse_u64_digits_range v n : parse_u64_digits v = Ok n -> 0 <= n <= u64_max.
Proof.
  intros (_ & Hd & <- & ?)%parse_u64_digits_spec. pose proof (dec_value_nonneg v Hd). lia.
Qed.

Lemma ByteRangeSpec_parse_wf v s : ByteRangeSpec_parse v = Ok s -> wf_range s.
Proof.
  unfold ByteRangeSpec_parse. intros H.
  destruct (split_once x3d _) as [[u r]|]; [|done]. simpl in H.
  destruct (negb (eq_ignore_ascii_case u _)); [done|]. destruct (contains x2c r); [done|].
  destruct (split_once x2d r) as [[f l]|]; [|done]. simpl in H.
  destruct (is_empty f).
  - destruct (parse_u64_digits l) as [n|] eqn:En; [|done]. apply parse_u64_digits_range in En.
    destruct (Z.eqb_spec n 0); [done|]. simplify_eq. simpl. lia.
  - destruct (parse_u64_digits f) as [n|] eqn:En; [|done]. apply parse_u64_digits_range in En.
    destruct (is_empty l); [by simplify_eq|].
    destruct (parse_u64_digits l) as [n'|] eqn:En'; [|done]. apply parse_u64_digits_range in En'.
    destruct (Z.ltb_spec n' n); [done|]. simplify_eq. simpl. lia.
Qed.

Lemma digit_classes b : is_ascii_digit b = true ->
  b <> x2d /\ b <> x2c /\ b <> x3d /\ is_ascii_whitespace b = false.
Proof.
  pose proof (byte_forall (fun b => implb (is_ascii_digit b)
    (negb (b ==b x2d) && negb (b ==b x2c) && negb (b ==b x3d) && negb (is_ascii_whitespace b)))
    eq_refl b) as H.
  cbv beta in H. intros E. rewrite E in H. cbn [implb] in H. bool_hyps. auto.
Qed.

Lemma show_no n c : 0 <= n -> is_ascii_digit c = false -> c ∉ show_Z n.
Proof.
  intros Hn Hc Hin. destruct (show_Z_digits n Hn) as (Hd & _ & _).
  apply (forallb_elem _ _ _ Hd) in Hin. congruence.
Qed.

Lemma last_digits_not_space l :
  l <> [] -> forallb is_ascii_digit l = true -> forall x, last l = Some x -> is_ascii_whitespace x = false.
Proof.
  intros _ Hd x Hx. apply last_Some_elem_of in Hx. apply (forallb_elem _ _ _ Hd) in Hx.
  by apply digit_classes in Hx as (_ & _ & _ & ?).
Qed.

Lemma last_app_nonempty {A} (a b : list A) : b <> [] -> last (a ++ b) = last b.
Proof. intros Hb. rewrite last_app. destruct (last b) eqn:E; [done|]. by apply last_None in E. Qed.

Definition range_body (s : ByteRangeSpec) : bytes := drop 6 (render_range s).

Lemma render_range_body s : render_range s = bs "bytes" ++ x3d :: range_body s.
Proof. done. Qed.

Lemma range_body_classes s x :
  wf_range s -> x ∈ range_body s -> x <> x2c /\ is_ascii_whitespace x = false.
Proof.
  intros Hs Hx.
  assert (Hd : forall n x, 0 <= n -> x ∈ show_Z n -> x <> x2c /\ is_ascii_whitespace x = false).
  { clear. intros n x Hn Hx. destruct (show_Z_digits n Hn) as (Hd & _ & _).
    apply (forallb_elem _ _ _ Hd), digit_classes in Hx as (_ & ? & _ & ?). done. }
  unfold range_body, render_range in Hx. destruct s as [f l|f|n]; simpl in Hs, Hx;
    repeat (apply elem_of_app in Hx as [Hx|Hx] || apply elem_of_cons in Hx as [->|Hx]
            || (apply elem_of_nil in Hx; done) || (by split) || (eapply Hd; [|exact Hx]; lia)).
Qed.

Lemma range_body_nonempty s : wf_range s -> range_body s <> [].
Proof.
  unfold range_body, render_range. destruct s as [f l|f|n]; simpl; intros _ H;
    try (by apply app_nil in H as [_ ?]); done.
Qed.

Lemma trim_render_range s : wf_range s -> trim_ascii (render_range s) = render_range s.
Proof.
  intros Hs. apply trim_by_id; intros x Hx.
  - rewrite render_range_body in Hx. simpl in Hx. by simplify_eq.
  - rewrite render_range_body in Hx. change (x3d :: range_body s) with ([x3d] ++ range_body s) in Hx.
    rewrite !last_app_nonempty in Hx; [|by apply range_body_nonempty|done].
    apply last_Some_elem_of in Hx. by eapply range_body_classes.
Qed.

Lemma split_once_show d n r :
  0 <= n -> is_ascii_digit d = false -> split_once d (show_Z n ++ d :: r) = Some (show_Z n, r).
Proof. intros. apply split_once_Some. split; [done|]. by apply show_no. Qed.

Lemma parse_render_range s : wf_range s -> ByteRangeSpec_parse (render_range s) = Ok s.
Proof.
  intros Hs. unfold ByteRangeSpec_parse. rewrite trim_render_range, render_range_body by done.
  rewrite (proj2 (split_once_Some x3d _ (bs "bytes") (range_body s)))
    by (split; [done|by apply contains_false]).
  cbn [ok_or]. replace (eq_ignore_ascii_case (bs "bytes") (bs "bytes")) with true by done.
  assert (Hc : contains x2c (range_body s) = false).
  { apply contains_false. intros Hin. by apply range_body_classes in Hin as [? _]. }
  rewrite Hc. cbn [negb].
  assert (Hne : forall n, 0 <= n -> is_empty (show_Z n) = false).
  { intros n Hn. apply is_empty_false. by apply show_Z_digits. }
  destruct s as [f l|f|n]; unfold range_body, render_range; cbn [bs String.list_byte_of_string app drop];
    simpl in Hs; change (drop _ (bs "bytes=" ++ ?x)) with x.
  - change (split_once x2d _) with (split_once x2d (show_Z f ++ x2d :: show_Z l)).
    rewrite split_once_show by (done || lia). cbn [ok_or].
    rewrite !Hne, !parse_u64_digits_show by lia. destruct (Z.ltb_spec l f); [lia|done].
  - change (split_once x2d _) with (split_once x2d (show_Z f ++ [x2d])).
    rewrite split_once_show by (done || lia). cbn [ok_or].
    rewrite Hne, parse_u64_digits_show by lia. done.
  - change (split_once x2d _) with (Some ([] : bytes, show_Z n)). cbn [ok_or is_empty].
    rewrite parse_u64_digits_show by lia. destruct (Z.eqb_spec n 0); [lia|done].
Qed.

(** * Entity-tag lists *)

Lemma etag_byte_not_quote b : etag_byte b = true -> b <> DQUOTE.
Proof.
  pose proof (byte_forall (fun b => implb (etag_byte b) (negb (b ==b DQUOTE))) eq_refl b) as H.
  cbv beta in H. intros E. rewrite E in H. cbn [implb] in H. by bool_hyps.
Qed.

Lemma unquoted_etag_byte b : unquoted_tag_byte b = true -> etag_byte b = true.
Proof.
  pose proof (byte_forall (fun b => implb (unquoted_tag_byte b) (etag_byte b)) eq_refl b) as H.
  cbv beta in H. intros E. by rewrite E in H.
Qed.

Lemma EntityTag_parse_wf v t : EntityTag_parse v = Ok t -> wf_tag t.
Proof.
  unfold EntityTag_parse. destruct (match strip_prefix _ _ with Some _ => _ | None => _ end) as [w q].
  destruct q as [|q0 rest]; [done|]. destruct (reverse rest) as [|q1 inner]; [done|].
  destruct (_ || _); [done|]. destruct (forallb etag_byte (reverse inner)) eqn:E; [|done].
  intros [= <-]. done.
Qed.

(** The bytes of a tag between its opening and closing quotes. *)
Lemma render_tag_trim t : trim_ascii (render_tag t) = render_tag t.
Proof.
  apply trim_by_id; intros x Hx.
  - unfold render_tag in Hx. destruct (weak t); simpl in Hx; by simplify_eq.
  - unfold render_tag in Hx. rewrite app_comm_cons, app_assoc, last_snoc in Hx. by simplify_eq.
Qed.

Lemma EntityTag_parse_render t : wf_tag t -> EntityTag_parse (render_tag t) = Ok t.
Proof.
  intros Ht. unfold EntityTag_parse. rewrite render_tag_trim.
  assert (E : strip_prefix weak_prefix (render_tag t) =
              if weak t then Some (DQUOTE :: opaque t ++ [DQUOTE]) else None)
    by (unfold render_tag; by destruct (weak t)).
  rewrite E. unfold wf_tag in Ht. destruct t as [w o]; simpl in *.
  destruct w; unfold render_tag; simpl; rewrite reverse_app; simpl;
    rewrite reverse_involutive, Ht; done.
Qed.

Lemma trim_ascii_start_tag t r : trim_ascii_start (render_tag t ++ r) = render_tag t ++ r.
Proof. unfold render_tag. by destruct (weak t). Qed.

(** The position of the closing quote of the tag at the head of the list. *)
Lemma close_quote t r : wf_tag t ->
  position (fun b => b ==b DQUOTE) (drop ((if weak t then 2 else 0) + 1) (render_tag t ++ r))
  = Some (length (opaque t)).
Proof.
  intros Ht.
  replace (drop _ _) with (opaque t ++ DQUOTE :: r)
    by (unfold render_tag; destruct (weak t); simpl; by rewrite <- !app_assoc).
  apply position_app; [|by apply bool_decide_eq_true].
  apply Forall_forall. intros b Hb. apply bool_decide_eq_false.
  by eapply etag_byte_not_quote, forallb_elem.
Qed.

Lemma length_render_tag t :
  length (render_tag t) = ((if weak t then 2 else 0) + 1 + length (opaque t) + 1)%nat.
Proof. unfold render_tag. destruct (weak t); simpl; rewrite length_app; simpl; lia. Qed.

Lemma render_tag_quote t r :
  (if starts_with (render_tag t ++ r) weak_quote then Ok 2%nat
   else if starts_with (render_tag t ++ r) [DQUOTE] then Ok 0%nat else Err InvalidEntityTag)
  = Ok (if weak t then 2 else 0)%nat.
Proof. unfold render_tag. by destruct (weak t). Qed.

(** A rendered list, with a possible leading space, parses back; every round
    uses one unit of fuel and the list has fewer tags than bytes. *)
Lemma parse_tags_fuel_enough tags : tags <> [] -> Forall wf_tag tags ->
  forall fuel, (length tags <= fuel)%nat -> forall pre, pre = [] \/ pre = [x20] ->
  parse_tags fuel (pre ++ render_tags tags) = Ok tags.
Proof.
  intros Hne Hwf. induction Hwf as [|t tags Ht Htags IH]; [done|].
  intros [|fuel] Hf pre Hpre; [simpl in Hf; lia|].
  set (rest := match tags with [] => [] | _ => bs ", " ++ render_tags tags end).
  assert (E : render_tags (t :: tags) = render_tag t ++ rest)
    by (unfold render_tags, rest; destruct tags; simpl; [by rewrite app_nil_r|done]).
  rewrite E. cbn [parse_tags].
  assert (Hemp : is_empty (pre ++ render_tag t ++ rest) = false).
  { apply is_empty_false. intros [_ [Hr _]%app_nil]%app_nil.
    pose proof (length_render_tag t). rewrite Hr in *. simpl in *. lia. }
  rewrite Hemp.
  assert (Htrim : trim_ascii_start (pre ++ render_tag t ++ rest) = render_tag t ++ rest)
    by (destruct Hpre as [-> | ->]; [|change (trim_ascii_start ([x20] ++ ?l)) with (trim_ascii_start l)];
        apply trim_ascii_start_tag).
  rewrite Htrim, render_tag_quote, close_quote by done. cbn [option_map ok_or].
  replace (_ + 1 + length (opaque t) + 1)%nat with (length (render_tag t))
    by apply length_render_tag.
  rewrite take_app_length, drop_app_length, EntityTag_parse_render by done.
  destruct tags as [|t' tags]; [done|].
  change (trim_ascii_start rest) with (x2c :: [x20] ++ render_tags (t' :: tags)).
  cbv iota beta. replace (negb (x2c ==b x2c)) with false by done.
  assert (Hstart : is_empty (trim_ascii_start ([x20] ++ render_tags (t' :: tags))) = false).
  { change (trim_ascii_start ([x20] ++ ?l)) with (trim_ascii_start l).
    assert (E' : exists r, render_tags (t' :: tags) = render_tag t' ++ r)
      by (unfold render_tags; destruct tags; simpl; [exists []; by rewrite app_nil_r|eauto]).
    destruct E' as [r ->]. rewrite trim_ascii_start_tag. apply is_empty_false.
    intros [Hr _]%app_nil. pose proof (length_render_tag t'). rewrite Hr in *. simpl in *. lia. }
  rewrite Hstart, (IH ltac:(done) fuel); [done|simpl in Hf; simpl; lia|by right].
Qed.

Lemma parse_tags_wf fuel v tags : parse_tags fuel v = Ok tags -> Forall wf_tag tags.
Proof.
  revert v tags. induction fuel as [|fuel IH]; intros v tags H; cbn [parse_tags] in H.
  - destruct (is_empty v); [|done]. by simplify_eq.
  - destruct (is_empty v); [by simplify_eq|]. set (u := trim_ascii_start v) in *. clearbody u.
    destruct (if starts_with u weak_quote then _ else _) as [q|]; [|done].
    destruct (ok_or _ _) as [c|]; [|done].
    destruct (EntityTag_parse _) as [t|] eqn:Et; [|done]. apply EntityTag_parse_wf in Et.
    destruct (trim_ascii_start _) as [|c' r]; [simplify_eq; auto|].
    destruct (negb _); [done|]. destruct (is_empty _); [done|].
    destruct (parse_tags fuel r) as [ts|] eqn:Er; [|done]. simplify_eq. eauto.
Qed.

Lemma TagCondition_parse_wf v tags :
  TagCondition_parse v = Ok (Tags tags) -> tags <> [] /\ Forall wf_tag tags.
Proof.
  unfold TagCondition_parse. set (u := trim_ascii v). destruct (u ==b bs "*"); [done|].
  destruct (negb (starts_with u [DQUOTE]) && _).
  - destruct (_ && _) eqn:E; [|done]. intros [= <-]. split; [done|]. constructor; [|done].
    unfold wf_tag. simpl. bool_hyps. apply forallb_Forall_true. apply Forall_forall. intros b Hb.
    by eapply unquoted_etag_byte, forallb_elem.
  - destruct (parse_tags _ u) as [ts|] eqn:Et; [|done].
    destruct (is_empty ts) eqn:Ee; [done|]. intros [= <-].
    apply is_empty_false in Ee. apply parse_tags_wf in Et. done.
Qed.

Lemma render_tags_app t tags : exists r, render_tags (t :: tags) = render_tag t ++ r.
Proof. unfold render_tags. destruct tags; simpl; [exists []; by rewrite app_nil_r|eauto]. Qed.

Lemma render_tags_last tags : tags <> [] -> last (render_tags tags) = Some DQUOTE.
Proof.
  induction tags as [|t tags IH]; [done|]. intros _. unfold render_tags in *.
  destruct tags as [|t' tags]; cbn [map join].
  - unfold render_tag. by rewrite app_comm_cons, app_assoc, last_snoc.
  - cbn [map join] in IH. specialize (IH ltac:(done)).
    assert (Hne : forall l : bytes, last l = Some DQUOTE -> l <> []) by (by intros [|] ?).
    rewrite !last_app_nonempty; [done|by apply Hne|].
    intros [_ Hn]%app_nil. by apply (Hne _ IH).
Qed.

Lemma length_render_tags tags : (length tags <= length (render_tags tags))%nat.
Proof.
  unfold render_tags. induction tags as [|t tags IH]; [simpl; lia|].
  pose proof (length_render_tag t). destruct tags; cbn [map join] in *; [simpl; lia|].
  rewrite !length_app in *. simpl in *. lia.
Qed.

Lemma parse_render_tags tags :
  tags <> [] -> Forall wf_tag tags -> TagCondition_parse (render_tags tags) = Ok (Tags tags).
Proof.
  intros Hne Hwf. unfold TagCondition_parse.
  destruct tags as [|t tags]; [done|]. pose proof (render_tags_app t tags) as [r Hr].
  assert (Htrim : trim_ascii (render_tags (t :: tags)) = render_tags (t :: tags)).
  { apply trim_by_id; intros x Hx.
    - rewrite Hr in Hx. unfold render_tag in Hx. destruct (weak t); simpl in Hx; by simplify_eq.
    - rewrite render_tags_last in Hx by done. by simplify_eq. }
  rewrite Htrim.
  assert (Hstar : (render_tags (t :: tags) ==b bs "*") = false)
    by (apply bool_decide_eq_false; rewrite Hr; unfold render_tag; by destruct (weak t)).
  assert (Hq : negb (starts_with (render_tags (t :: tags)) [DQUOTE])
               && negb (starts_with (render_tags (t :: tags)) weak_quote) = false)
    by (rewrite Hr; unfold render_tag; by destruct (weak t)).
  rewrite Hstar, Hq.
  pose proof (parse_tags_fuel_enough (t :: tags) Hne Hwf _ (length_render_tags _) []
                (or_introl eq_refl)) as Hp.
  rewrite app_nil_l in Hp. by rewrite Hp.
Qed.

Lemma condition_matches_spec eqb (same : EntityTag -> EntityTag -> Prop) condition current :
  (forall a b, eqb a b = true <-> same a b) ->
  condition_matches eqb condition current = true <-> condition_holds same condition current.
Proof.
  intros Heq. unfold condition_matches, condition_holds.
  destruct current as [t|]; [|destruct condition; split; [done|by intros (? & ? & _)|done|by intros (? & ? & _)]].
  destruct condition as [|tags]; [split; [by exists t|done]|].
  rewrite existsb_exists. setoid_rewrite Heq. setoid_rewrite <- list_elem_of_In.
  split; [by exists t|]. by intros (? & [= <-] & ?).
Qed.

Lemma strong_eq_spec a b : strong_eq a b = true <-> strong_same a b.
Proof.
  unfold strong_eq, strong_same. rewrite !andb_true_iff, bool_decide_eq_true, !negb_true_iff. tauto.
Qed.

Lemma weak_eq_spec a b : weak_eq a b = true <-> weak_same a b.
Proof. unfold weak_eq, weak_same. apply bool_decide_eq_true. Qed.

(** * Properties *)

(** Resolving a well-formed range against an object of any [u64] size gives
    an interval inside the object holding exactly the selected bytes, and it is
    refused as unsatisfiable only when the range selects no byte at all. *)
Theorem range_resolution (spec : ByteRangeSpec) (size : Z) :
  wf_range spec -> 0 <= size <= u64_max ->
  match ByteRangeSpec_resolve spec size with
  | Ok r => 0 <= start r <= end_ r /\ end_ r < size /\ 1 <= ResolvedRange_len r <= size /\
            forall i, start r <= i <= end_ r <-> 0 <= i < size /\ selects spec size i
  | Err e => e = Unsatisfiable /\ forall i, ~ (0 <= i < size /\ selects spec size i)
  end.
Proof.
  intros Hs Hsize. unfold ByteRangeSpec_resolve, ResolvedRange_len, saturating_sub_u64.
  destruct (Z.eqb_spec size 0); [split; [done|lia]|].
  destruct spec as [f l|f|k]; simpl in Hs.
  - destruct (Z.leb_spec size f); simpl; [split; [done|lia]|].
    split_and!; lia.
  - destruct (Z.leb_spec size f); simpl; [split; [done|lia]|].
    split_and!; lia.
  - simpl. split_and!; lia.
Qed.

Lemma range_resolution_witness :
  ByteRangeSpec_resolve (Suffix 5) 12 = Ok {| start := 7; end_ := 11 |} /\
  match ByteRangeSpec_resolve (Suffix 5) 12 with
  | Ok r => 0 <= start r <= end_ r /\ end_ r < 12 /\ 1 <= ResolvedRange_len r <= 12 /\
            forall i, start r <= i <= end_ r <-> 0 <= i < 12 /\ selects (Suffix 5) 12 i
  | Err e => e = Unsatisfiable /\ forall i, ~ (0 <= i < 12 /\ selects (Suffix 5) 12 i)
  end.
Proof.
  split; [reflexivity|]. apply (range_resolution (Suffix 5) 12); unfold wf_range, u64_max; lia.
Defined.

(** The Range parser accepts exactly the well-formed specifications that fit
    64 bits, and reads each of them back from its canonical rendering. *)
Theorem accepted_ranges (spec : ByteRangeSpec) :
  ((exists v, ByteRangeSpec_parse v = Ok spec) <-> wf_range spec) /\
  (wf_range spec <-> ByteRangeSpec_parse (render_range spec) = Ok spec).
Proof.
  split; split.
  - intros [v Hv]. by eapply ByteRangeSpec_parse_wf.
  - eauto using parse_render_range.
  - apply parse_render_range.
  - apply ByteRangeSpec_parse_wf.
Qed.

(** The entity-tag list parser yields exactly the non-empty lists of
    well-formed tags, and reads each of them back from its rendering. *)
Theorem accepted_tag_lists (tags : list EntityTag) :
  ((exists v, TagCondition_parse v = Ok (Tags tags)) <-> tags <> [] /\ Forall wf_tag tags) /\
  (TagCondition_parse (render_tags tags) = Ok (Tags tags) <-> tags <> [] /\ Forall wf_tag tags).
Proof.
  split; split.
  - intros [v Hv]. by eapply TagCondition_parse_wf.
  - intros [? ?]. eauto using parse_render_tags.
  - apply TagCondition_parse_wf.
  - intros [? ?]. by apply parse_render_tags.
Qed.

(** Precondition evaluation follows RFC 9110 section 13.2.2: a failed
    If-Match (or, without one, If-Unmodified-Since) is 412 first; a current
    copy is 304 for GET and HEAD; a matching If-None-Match is 412 for the other
    methods; If-Modified-Since never affects them. *)
Theorem evaluate_precedence (c : ConditionalHeaders) (current : option EntityTag)
  (modified : option SystemTime) (g : bool) :
  let failed := representation_guard_fails c current modified in
  let same := copy_is_current c current modified in
  (evaluate c current modified g = PreconditionFailed <->
     failed \/ (~ failed /\ g = false /\ if_none_match c <> None /\ same)) /\
  (evaluate c current modified g = NotModified <-> ~ failed /\ g = true /\ same) /\
  (evaluate c current modified g = Proceed <->
     ~ failed /\ ~ (same /\ (g = true \/ if_none_match c <> None))).
Proof.
  cbv zeta. unfold evaluate, representation_guard_fails, copy_is_current.
  set (first := match if_match c with Some _ => _ | None => _ end).
  assert (Hf : first = true <->
    match if_match c with
    | Some condition => ~ condition_holds strong_same condition current
    | None => exists since m, if_unmodified_since c = Some since /\ modified = Some m /\
                              second_precision since < second_precision m
    end).
  { unfold first. destruct (if_match c) as [m|].
    - rewrite negb_true_iff, <- not_true_iff_false.
      by rewrite (condition_matches_spec _ strong_same) by apply strong_eq_spec.
    - destruct (if_unmodified_since c), modified; rewrite ?Z.ltb_lt; naive_solver. }
  rewrite <- Hf. clear Hf. generalize first. clear first. intros first.
  destruct (if_none_match c) as [m|].
  - rewrite <- (condition_matches_spec weak_eq weak_same) by apply weak_eq_spec.
    destruct first, g, (condition_matches weak_eq m current); naive_solver.
  - set (fresh := match if_modified_since c with Some _ => _ | None => _ end).
    assert (Hm : fresh = true <-> exists since m, if_modified_since c = Some since /\
              modified = Some m /\ second_precision m <= second_precision since).
    { unfold fresh. destruct (if_modified_since c), modified; rewrite ?Z.leb_le; naive_solver. }
    rewrite <- Hm. destruct first, g, fresh; naive_solver.
Qed.
