(* ===== verification/Calendar.v ===== *)
(** Civil-calendar arithmetic: [days_from_civil] and [days_in_month] of
    [src/src/protocol/sigv4.rs], which date request signatures, and
    [civil_from_days] and [iso8601] of [src/src/s3/xml.rs], which date the
    objects in responses.  Both conversions are shown to be the proleptic
    Gregorian calendar, by its successor function, and inverse to each other. *)
From S2P Require Import Prelude Text.

(** * Conversions *)

(** [u32] arguments widened to [i64]; the divisions are on non-negative
    numbers but [div_euclid], which is floor division for a positive divisor. *)
Definition days_from_civil (year month day : Z) : Z :=
  let year := year - (if month <=? 2 then 1 else 0) in
  let era := year / 400 in
  let year_of_era := year - era * 400 in
  let shifted_month := month + (if 2 <? month then -3 else 9) in
  let day_of_year := (153 * shifted_month + 2) / 5 + day - 1 in
  let day_of_era := year_of_era * 365 + year_of_era / 4 - year_of_era / 100 + day_of_year in
  era * 146097 + day_of_era - 719468.

Definition is_multiple_of (a b : Z) : bool := a mod b =? 0.

Definition is_leap (year : Z) : bool :=
  is_multiple_of year 400 || (is_multiple_of year 4 && negb (is_multiple_of year 100)).

Definition days_in_month (year month : Z) : Z :=
  match month with
  | 1 | 3 | 5 | 7 | 8 | 10 | 12 => 31
  | 4 | 6 | 9 | 11 => 30
  | 2 => if is_leap year then 29 else 28
  | _ => 0
  end.

(** [i64] division truncates: [Z.quot]. *)
Definition civil_from_days (days_since_epoch : Z) : Z * Z * Z :=
  let z := days_since_epoch + 719468 in
  let era := Z.quot (if 0 <=? z then z else z - 146096) 146097 in
  let doe := z - era * 146097 in
  let yoe := Z.quot (doe - Z.quot doe 1460 + Z.quot doe 36524 - Z.quot doe 146096) 365 in
  let year := yoe + era * 400 in
  let doy := doe - (365 * yoe + Z.quot yoe 4 - Z.quot yoe 100) in
  let mp := Z.quot (5 * doy + 2) 153 in
  let day := doy - Z.quot (153 * mp + 2) 5 + 1 in
  let month := mp + (if mp <? 10 then 3 else -9) in
  let year := year + (if month <=? 2 then 1 else 0) in
  (year, month, day).

(** [{n:0w}] of [format!]: zero padding to [w] characters, sign included. *)
Definition pad_zero (w : nat) (n : Z) : bytes :=
  if n <? 0 then x2d :: repeat x30 (w - 1 - length (show_Z (- n))) ++ show_Z (- n)
  else repeat x30 (w - length (show_Z n)) ++ show_Z n.

Definition iso8601 (milliseconds : Z) : bytes :=
  let seconds := milliseconds / 1000 in
  let millis := milliseconds mod 1000 in
  let days := seconds / 86400 in
  let seconds_of_day := seconds mod 86400 in
  let '(year, month, day) := civil_from_days days in
  let hour := seconds_of_day / 3600 in
  let minute := seconds_of_day mod 3600 / 60 in
  let second := seconds_of_day mod 60 in
  pad_zero 4 year ++ bs "-" ++ pad_zero 2 month ++ bs "-" ++ pad_zero 2 day ++ bs "T"
  ++ pad_zero 2 hour ++ bs ":" ++ pad_zero 2 minute ++ bs ":" ++ pad_zero 2 second
  ++ bs "." ++ pad_zero 3 millis ++ bs "Z".

(** * The Gregorian calendar *)

Definition valid_date (year month day : Z) : Prop :=
  1 <= month <= 12 /\ 1 <= day <= days_in_month year month.

(** The date of the next day. *)
Definition next_day (date : Z * Z * Z) : Z * Z * Z :=
  let '(year, month, day) := date in
  if day <? days_in_month year month then (year, month, day + 1)
  else if month <? 12 then (year, month + 1, 1)
  else (year + 1, 1, 1).

Definition days_of (date : Z * Z * Z) : Z :=
  let '(year, month, day) := date in days_from_civil year month day.

(** * Lemmas *)

Lemma month_cases m : 1 <= m <= 12 ->
  m = 1 \/ m = 2 \/ m = 3 \/ m = 4 \/ m = 5 \/ m = 6 \/
  m = 7 \/ m = 8 \/ m = 9 \/ m = 10 \/ m = 11 \/ m = 12.
Proof. lia. Qed.

Ltac each_month H :=
  apply month_cases in H;
  destruct H as [-> |[-> |[-> |[-> |[-> |[-> |[-> |[-> |[-> |[-> |[-> | ->]]]]]]]]]]].

Ltac euclid := Z.to_euclidean_division_equations; lia.

Lemma is_leap_spec y :
  is_leap y = true <-> y mod 400 = 0 \/ (y mod 4 = 0 /\ y mod 100 <> 0).
Proof.
  unfold is_leap, is_multiple_of.
  rewrite orb_true_iff, andb_true_iff, negb_true_iff, !Z.eqb_eq, Z.eqb_neq. done.
Qed.

(** February's length through the division structure of the year. *)
Lemma february y :
  days_in_month y 2 = 28 + (y / 4 - (y - 1) / 4) - (y / 100 - (y - 1) / 100)
                      + (y / 400 - (y - 1) / 400).
Proof.
  simpl. destruct (is_leap y) eqn:E.
  - apply is_leap_spec in E. euclid.
  - apply not_true_iff_false in E. rewrite is_leap_spec in E. euclid.
Qed.

(** The era arithmetic in closed form: full years before March of [y]. *)
Lemma era_closed y :
  y / 400 * 146097 + ((y - y / 400 * 400) * 365 + (y - y / 400 * 400) / 4
    - (y - y / 400 * 400) / 100) = 365 * y + y / 4 - y / 100 + y / 400.
Proof. euclid. Qed.

Lemma days_from_civil_closed y m d :
  days_from_civil y m d =
  let y' := y - (if m <=? 2 then 1 else 0) in
  365 * y' + y' / 4 - y' / 100 + y' / 400
  + (153 * (m + (if 2 <? m then -3 else 9)) + 2) / 5 + d - 1 - 719468.
Proof. unfold days_from_civil. cbv zeta. rewrite <- era_closed. lia. Qed.

(** The year of an era from its day. *)
Lemma year_of_era_inverse yoe doy doe :
  0 <= yoe < 400 ->
  0 <= doy <= 364 + ((yoe + 1) / 4 - yoe / 4) - ((yoe + 1) / 100 - yoe / 100)
                  + ((yoe + 1) / 400 - yoe / 400) ->
  doe = 365 * yoe + yoe / 4 - yoe / 100 + doy ->
  (doe - doe / 1460 + doe / 36524 - doe / 146096) / 365 = yoe.
Proof. intros. euclid. Qed.

(** Every day of an era lies in one of its years. *)
Lemma year_of_era_exists doe : 0 <= doe < 146097 ->
  let yoe := (doe - doe / 1460 + doe / 36524 - doe / 146096) / 365 in
  0 <= yoe < 400 /\
  0 <= doe - (365 * yoe + yoe / 4 - yoe / 100) <=
    364 + ((yoe + 1) / 4 - yoe / 4) - ((yoe + 1) / 100 - yoe / 100)
        + ((yoe + 1) / 400 - yoe / 400).
Proof. intros H yoe. subst yoe. split; euclid. Qed.

(** The day of the year, counted from March 1st, of month [m] and day [d]. *)
Definition day_of_year (m d : Z) : Z := (153 * (m + (if 2 <? m then -3 else 9)) + 2) / 5 + d - 1.

Lemma day_of_year_range y m d : valid_date y m d ->
  let y' := y - (if m <=? 2 then 1 else 0) in
  0 <= day_of_year m d <= 364 + ((y' + 1) / 4 - y' / 4) - ((y' + 1) / 100 - y' / 100)
                          + ((y' + 1) / 400 - y' / 400).
Proof.
  intros [Hm Hd]. unfold day_of_year. pose proof (february y) as Hf.
  each_month Hm; try (change (days_in_month y _) with 31 in Hd || change (days_in_month y _) with 30 in Hd);
    cbv zeta; cbn [Z.leb Z.ltb Z.compare Pos.compare Pos.compare_cont];
    try rewrite Hf in Hd; euclid.
Qed.

(** [civil_from_days] with floor divisions only. *)
Lemma civil_from_days_floor n :
  civil_from_days n =
  let z := n + 719468 in
  let era := z / 146097 in
  let doe := z - era * 146097 in
  let yoe := (doe - doe / 1460 + doe / 36524 - doe / 146096) / 365 in
  let doy := doe - (365 * yoe + yoe / 4 - yoe / 100) in
  let mp := (5 * doy + 2) / 153 in
  let month := mp + (if mp <? 10 then 3 else -9) in
  (yoe + era * 400 + (if month <=? 2 then 1 else 0), month, doy - (153 * mp + 2) / 5 + 1).
Proof.
  unfold civil_from_days. set (z := n + 719468). cbv zeta.
  assert (Hera : Z.quot (if 0 <=? z then z else z - 146096) 146097 = z / 146097)
    by (destruct (Z.leb_spec 0 z); euclid).
  rewrite Hera. set (doe := z - z / 146097 * 146097).
  assert (Hdoe : 0 <= doe < 146097) by (unfold doe; clearbody z; euclid).
  rewrite !(Z.quot_div_nonneg doe) by lia.
  rewrite (Z.quot_div_nonneg (doe - doe / 1460 + doe / 36524 - doe / 146096))
    by (clearbody doe; euclid).
  pose proof (year_of_era_exists doe Hdoe) as Hyoe. cbv zeta in Hyoe.
  set (yoe := (doe - doe / 1460 + doe / 36524 - doe / 146096) / 365) in *.
  rewrite !(Z.quot_div_nonneg yoe) by lia.
  set (doy := doe - (365 * yoe + yoe / 4 - yoe / 100)) in *.
  rewrite (Z.quot_div_nonneg (5 * doy + 2)) by lia.
  rewrite (Z.quot_div_nonneg (153 * _ + 2)) by euclid. done.
Qed.

Lemma civil_from_days_of_date y m d :
  valid_date y m d -> civil_from_days (days_from_civil y m d) = (y, m, d).
Proof.
  intros Hv. pose proof (day_of_year_range y m d Hv) as Hr. destruct Hv as [Hm Hd].
  rewrite civil_from_days_floor. cbv zeta in Hr.
  set (y' := y - (if m <=? 2 then 1 else 0)) in *.
  set (era := y' / 400). set (yoe := y' - era * 400).
  set (doe := 365 * yoe + yoe / 4 - yoe / 100 + day_of_year m d).
  assert (Hz : days_from_civil y m d + 719468 = era * 146097 + doe)
    by (unfold days_from_civil; cbv zeta; fold y' era yoe; unfold doe, day_of_year; lia).
  rewrite Hz. assert (Hy : 0 <= yoe < 400) by (unfold yoe, era; clearbody y'; euclid).
  assert (Hr' : 0 <= day_of_year m d <= 364 + ((yoe + 1) / 4 - yoe / 4)
                 - ((yoe + 1) / 100 - yoe / 100) + ((yoe + 1) / 400 - yoe / 400))
    by (subst yoe era; clearbody y'; generalize dependent (day_of_year m d); clear; intros; euclid).
  assert (Hdoe : 0 <= doe < 146097)
    by (subst doe; clear -Hy Hr'; clearbody yoe; generalize dependent (day_of_year m d); intros; euclid).
  cbv zeta. replace ((era * 146097 + doe) / 146097) with era by (clear -Hdoe; euclid).
  replace (era * 146097 + doe - era * 146097) with doe by lia.
  rewrite (year_of_era_inverse yoe (day_of_year m d) doe) by done.
  replace (doe - (365 * yoe + yoe / 4 - yoe / 100)) with (day_of_year m d) by (unfold doe; lia).
  replace (yoe + era * 400) with y' by (unfold yoe; lia).
  assert (Hd' : 1 <= d <= 31)
    by (split; [lia|]; destruct Hd as [_ Hd]; clear -Hm Hd; each_month Hm; simpl in Hd;
        try destruct (is_leap y); lia).
  assert (Hdm : forall k, days_in_month y m <= k -> d <= k) by lia.
  unfold y', day_of_year. clear -Hm Hd Hd' Hdm.
  assert (Hmp : (5 * ((153 * (m + (if 2 <? m then -3 else 9)) + 2) / 5 + d - 1) + 2) / 153
                = m + (if 2 <? m then -3 else 9)).
  { each_month Hm; simpl in Hd |- *; try destruct (is_leap y); euclid. }
  assert (Hback : m + (if 2 <? m then -3 else 9)
                  + (if m + (if 2 <? m then -3 else 9) <? 10 then 3 else -9) = m)
    by (clear -Hm; each_month Hm; done).
  rewrite Hmp, Hback. f_equal; [f_equal; lia|lia].
Qed.

Lemma date_of_days n :
  let '(y, m, d) := civil_from_days n in valid_date y m d /\ days_from_civil y m d = n.
Proof.
  rewrite civil_from_days_floor. cbv zeta. set (z := n + 719468). set (era := z / 146097).
  set (doe := z - era * 146097).
  assert (Hdoe : 0 <= doe < 146097) by (unfold doe, era; clearbody z; euclid).
  pose proof (year_of_era_exists doe Hdoe) as Hyoe. cbv zeta in Hyoe.
  set (yoe := (doe - doe / 1460 + doe / 36524 - doe / 146096) / 365) in *.
  set (doy := doe - (365 * yoe + yoe / 4 - yoe / 100)) in *.
  set (mp := (5 * doy + 2) / 153). set (day := doy - (153 * mp + 2) / 5 + 1).
  assert (Hmp : 0 <= mp <= 11) by (unfold mp; clearbody doy; euclid).
  set (m := mp + (if mp <? 10 then 3 else -9)).
  assert (Hm : 1 <= m <= 12) by (unfold m; destruct (Z.ltb_spec mp 10); lia).
  assert (Hsm : m + (if 2 <? m then -3 else 9) = mp)
    by (unfold m; destruct (Z.ltb_spec mp 10), (Z.ltb_spec 2 (mp + 3)), (Z.ltb_spec 2 (mp + -9)); lia).
  set (y := yoe + era * 400 + (if m <=? 2 then 1 else 0)).
  assert (Hy' : y - (if m <=? 2 then 1 else 0) = yoe + era * 400) by (unfold y; lia).
  split; [split; [done|]|].
  - assert (Hd1 : (153 * mp + 2) / 5 <= doy < (153 * (mp + 1) + 2) / 5)
      by (unfold mp; clearbody doy; euclid).
    pose proof (february y) as Hf.
    assert (Hfeb : m <= 2 -> y = yoe + 1 + era * 400) by (unfold y; destruct (Z.leb_spec m 2); lia).
    clearbody y. unfold day. clearbody doy. clear day Hy'. clearbody yoe era doe mp m. clear z.
    each_month Hm; cbn [Z.leb Z.ltb Z.compare Pos.compare Pos.compare_cont] in Hsm;
      subst mp; try rewrite Hf;
      try (change (days_in_month y _) with 31 || change (days_in_month y _) with 30); [| |euclid..].
    + euclid.
    + specialize (Hfeb ltac:(lia)). subst y. clear -Hd1 Hyoe. euclid.
  - rewrite days_from_civil_closed. cbv zeta. rewrite Hy', Hsm. unfold day.
    assert (Hz : n = era * 146097 + doe - 719468) by (unfold doe, z; lia).
    rewrite Hz. clear -Hyoe. clearbody era. subst doy. clearbody yoe. clearbody doe.
    pose proof (era_closed (yoe + era * 400)) as He.
    replace ((yoe + era * 400) / 400) with era in * by euclid.
    replace (yoe + era * 400 - era * 400) with yoe in He by lia. lia.
Qed.

Ltac next_month :=
  repeat match goal with
  | |- context [Z.pos ?a + 1] => let r := eval vm_compute in (Z.pos a + 1) in change (Z.pos a + 1) with r
  end.

Lemma next_day_days y m d :
  valid_date y m d -> days_of (next_day (y, m, d)) = days_from_civil y m d + 1.
Proof.
  intros [Hm Hd]. unfold next_day. pose proof (february y) as Hf.
  destruct (Z.ltb_spec d (days_in_month y m)) as [Hlt|Hge].
  - unfold days_of. rewrite !days_from_civil_closed. cbv zeta. lia.
  - assert (d = days_in_month y m) as -> by lia. clear Hd Hge.
    each_month Hm; try rewrite Hf; unfold days_of; cbv zeta iota beta;
      cbn [Z.ltb Z.compare Pos.compare Pos.compare_cont]; next_month;
      rewrite !days_from_civil_closed; cbv zeta;
      cbn [Z.leb Z.ltb Z.compare Pos.compare Pos.compare_cont];
      try (change (days_in_month y _) with 31 || change (days_in_month y _) with 30);
      rewrite ?Z.sub_0_r; replace (y + 1 - 1) with y by lia; try lia; clear; euclid.
Qed.

Lemma next_day_valid y m d :
  valid_date y m d -> let '(y', m', d') := next_day (y, m, d) in valid_date y' m' d'.
Proof.
  intros [Hm Hd]. unfold next_day. destruct (Z.ltb_spec d (days_in_month y m)); [split; lia|].
  unfold valid_date. each_month Hm; cbn [Z.ltb Z.compare Pos.compare Pos.compare_cont];
    simpl; try destruct (is_leap y); lia.
Qed.

(** * Zero-padded fields *)

Lemma show_digits_length fuel n w :
  0 <= n < 10 ^ Z.of_nat w -> (0 < w)%nat -> (length (show_digits fuel n) <= w)%nat.
Proof.
  revert n w. induction fuel as [|fuel IH]; intros n w Hn Hw; cbn [show_digits]; [simpl; lia|].
  destruct (Z.ltb_spec n 10); [simpl; lia|]. rewrite length_app. simpl.
  destruct w as [|[|w]]; [lia|change (10 ^ Z.of_nat 1) with 10 in Hn; lia|].
  rewrite Nat2Z.inj_succ, Z.pow_succ_r in Hn by lia.
  specialize (IH (n / 10) (S w)). enough (length (show_digits fuel (n / 10)) <= S w)%nat by lia.
  apply IH; [|lia]. split; [apply Z.div_pos; lia|]. apply Z.div_lt_upper_bound; lia.
Qed.

Lemma dec_value_zeros k l : dec_value (repeat x30 k ++ l) = dec_value l.
Proof.
  unfold dec_value. rewrite foldl_app. f_equal. induction k as [|k IH]; [done|]. apply IH.
Qed.

Lemma pad_zero_spec w n : 0 <= n < 10 ^ Z.of_nat w -> (0 < w)%nat ->
  length (pad_zero w n) = w /\ forallb is_ascii_digit (pad_zero w n) = true /\
  dec_value (pad_zero w n) = n.
Proof.
  intros Hn Hw. destruct (show_Z_digits n ltac:(lia)) as (Hd & Hv & _).
  assert (Hl : (length (show_Z n) <= w)%nat)
    by (unfold show_Z; destruct (Z.ltb_spec n 0); [lia|]; by apply show_digits_length).
  unfold pad_zero. destruct (Z.ltb_spec n 0); [lia|].
  rewrite length_app, repeat_length, forallb_app, Hd, dec_value_zeros, Hv.
  split_and!; [lia| |done]. rewrite andb_true_r. clear. by induction (w - length (show_Z n))%nat.
Qed.

(** Digit strings of the same length with the same value are equal. *)
Lemma dec_value_inj a b :
  length a = length b -> forallb is_ascii_digit a = true -> forallb is_ascii_digit b = true ->
  dec_value a = dec_value b -> a = b.
Proof.
  revert b. induction a as [|x a IH] using rev_ind; intros b Hl Ha Hb Hv.
  - by destruct b.
  - destruct b as [|y b' _] using rev_ind; [rewrite length_app in Hl; simpl in Hl; lia|].
    rewrite !length_app in Hl. simpl in Hl. rewrite !forallb_app in Ha, Hb. simpl in Ha, Hb.
    apply andb_prop in Ha as [Ha Hx], Hb as [Hb Hy]. rewrite andb_true_r in Hx, Hy.
    apply is_ascii_digit_value in Hx as Hx', Hy as Hy'. rewrite !dec_value_snoc in Hv.
    f_equal; [apply IH; (done || lia)|]. f_equal. apply bval_inj. unfold digit_value in *. lia.
Qed.

(** * Properties *)

(** Signature dates and response dates use the same calendar, and it is the
    Gregorian one: day 0 is 1970-01-01, the day after a valid date has the next
    number, every day number has exactly one valid date, and the two
    conversions are inverse to each other. *)
Theorem calendar_gregorian :
  days_from_civil 1970 1 1 = 0 /\
  (forall y m d, valid_date y m d ->
     days_of (next_day (y, m, d)) = days_from_civil y m d + 1 /\
     civil_from_days (days_from_civil y m d) = (y, m, d) /\
     civil_from_days (days_from_civil y m d + 1) = next_day (y, m, d)) /\
  (forall n, let '(y, m, d) := civil_from_days n in valid_date y m d /\ days_from_civil y m d = n).
Proof.
  split; [done|]. split; [|apply date_of_days]. intros y m d Hv.
  pose proof (next_day_days y m d Hv) as Hn. pose proof (next_day_valid y m d Hv) as Hv'.
  split_and!; [done|by apply civil_from_days_of_date|].
  rewrite <- Hn. destruct (next_day (y, m, d)) as [[y' m'] d']. by apply civil_from_days_of_date.
Qed.

Example iso_example : iso8601 951827696789 = bs "2000-02-29T12:34:56.789Z".
Proof. reflexivity. Qed.
