(* ===== verification/AwsSpec.v ===== *)
(** AWS Signature Version 4 as its documentation defines it, written from
    literals and relations and from none of the server's own functions: the
    texts of digests, encoded strings, canonical requests, strings to sign,
    signing keys, authorization fields and timestamps.  [SigV4Correct] and
    [Chunked] prove the code of [src/src/protocol] against these definitions.
    A header map and a list of query parameters are read with the accessors of
    [Http]; the digest and the keyed digest are arguments. *)
From stdpp Require Import sorting.
From S2P Require Import Prelude Text Http.

(** * Characters *)

Definition upper_letters : bytes := bs "ABCDEFGHIJKLMNOPQRSTUVWXYZ".
Definition lower_letters : bytes := bs "abcdefghijklmnopqrstuvwxyz".
Definition digits : bytes := bs "0123456789".

Definition unreserved_chars : bytes := upper_letters ++ lower_letters ++ digits ++ bs "-._~".

(** The characters of a lower-case header name. *)
Definition header_chars : bytes := lower_letters ++ digits ++ bs "!#$%&'*+-.^_`|~".

(** The two digits of a byte in a table. *)
Definition two_digits (table : bytes) (b : byte) : bytes :=
  [nth (Z.to_nat (bval b / 16)) table x00; nth (Z.to_nat (bval b mod 16)) table x00].

(** The lower-case hexadecimal text of a digest. *)
Definition hex_text (digest : bytes) : bytes :=
  concat (map (two_digits (bs "0123456789abcdef")) digest).

(** [text] spells [value] in hexadecimal digits of either case. *)
Inductive hex_spelling : bytes -> bytes -> Prop :=
| hs_nil : hex_spelling [] []
| hs_byte h l hi lo b text value :
    hex_of h hi -> hex_of l lo -> bval b = 16 * hi + lo -> hex_spelling text value ->
    hex_spelling (h :: l :: text) (b :: value).

(** The escape [%XY] of a byte, with upper-case digits. *)
Definition escape (b : byte) : bytes := bs "%" ++ two_digits (bs "0123456789ABCDEF") b.

(** [UriEncode]: every byte but the unreserved characters is escaped. *)
Definition uri_encode (text : bytes) : bytes :=
  concat (map (fun b => if bool_decide (b ∈ unreserved_chars) then [b] else escape b) text).

(** [raw] is a percent encoding of [text]; [+] stands for itself. *)
Inductive percent_spelling : bytes -> bytes -> Prop :=
| ps_nil : percent_spelling [] []
| ps_plain b raw text : b <> x25 -> percent_spelling raw text -> percent_spelling (b :: raw) (b :: text)
| ps_escape h l hi lo b raw text :
    hex_of h hi -> hex_of l lo -> bval b = 16 * hi + lo -> percent_spelling raw text ->
    percent_spelling (x25 :: h :: l :: raw) (b :: text).

(** * The canonical request *)

(** The path as it was sent: slashes and unreserved characters stay, escapes
    stay with upper-case digits, other bytes are escaped. *)
Inductive canonical_path : bytes -> bytes -> Prop :=
| cp_nil : canonical_path [] []
| cp_plain b raw text : b = x2f \/ b ∈ unreserved_chars -> canonical_path raw text ->
    canonical_path (b :: raw) (b :: text)
| cp_escape h l hi lo b raw text :
    hex_of h hi -> hex_of l lo -> bval b = 16 * hi + lo -> canonical_path raw text ->
    canonical_path (x25 :: h :: l :: raw) (escape b ++ text)
| cp_other b raw text : b <> x2f -> b <> x25 -> b ∉ unreserved_chars -> canonical_path raw text ->
    canonical_path (b :: raw) (escape b ++ text).

(** [component] is [name=value], or [name] alone with an empty value. *)
Definition component_of (component raw_name raw_value : bytes) : Prop :=
  (x3d ∉ raw_name) /\
  (component = raw_name ++ bs "=" ++ raw_value \/ component = raw_name /\ raw_value = []).

(** The encoded name-value pairs of the components of a query; a parameter
    whose name is [excluded] is left out. *)
Inductive query_pairs (excluded : option bytes) : list bytes -> list (bytes * bytes) -> Prop :=
| qp_nil : query_pairs excluded [] []
| qp_skip component raw_name raw_value name rest ps :
    component_of component raw_name raw_value -> percent_spelling raw_name name ->
    excluded = Some name -> query_pairs excluded rest ps ->
    query_pairs excluded (component :: rest) ps
| qp_keep component raw_name raw_value name value rest ps :
    component_of component raw_name raw_value -> percent_spelling raw_name name ->
    excluded <> Some name -> percent_spelling raw_value value -> query_pairs excluded rest ps ->
    query_pairs excluded (component :: rest) ((uri_encode name, uri_encode value) :: ps).

(** Bytewise lexicographic order. *)
Definition text_lt (a b : bytes) : Prop :=
  (exists x r, b = a ++ x :: r) \/
  (exists p x y r s, a = p ++ x :: r /\ b = p ++ y :: s /\ bval x < bval y).

(** By name, then by value. *)
Definition pair_order (p q : bytes * bytes) : Prop :=
  text_lt (fst p) (fst q) \/ (fst p = fst q /\ (text_lt (snd p) (snd q) \/ snd p = snd q)).

(** The query with its parameters encoded, sorted and joined; nothing for a
    request without a query. *)
Definition canonical_query_text (excluded raw_query : option bytes) (text : bytes) : Prop :=
  match raw_query with
  | None | Some [] => text = []
  | Some raw =>
      exists components ps sorted,
        raw = join (bs "&") components /\ Forall (fun c => (x26 ∉ c)) components /\ components <> [] /\
        query_pairs excluded components ps /\ Permutation ps sorted /\ StronglySorted pair_order sorted /\
        text = join (bs "&") (map (fun '(name, value) => name ++ bs "=" ++ value) sorted)
  end.

(** The words of a field value with single spaces between them. *)
Definition collapsed (value : bytes) : bytes :=
  join (bs " ") (List.filter (fun w => negb (is_empty w))
                   (split_on (fun b => (b ==b x20) || (b ==b x09)) value)).

(** One line for each signed header, with all its values. *)
Definition header_lines (m : HeaderMap) (signed : list bytes) : bytes :=
  concat (map (fun name => name ++ bs ":" ++ join (bs ",") (map collapsed (HeaderMap_get_all m name)) ++ [x0a])
            signed).

(** The canonical request: method, path, query, headers, signed names and
    payload hash, each on its own line. *)
Definition canonical_request (method raw_path : bytes) (raw_query excluded : option bytes)
  (m : HeaderMap) (signed : list bytes) (payload canonical : bytes) : Prop :=
  exists path query,
    canonical_path raw_path path /\ (exists rest, raw_path = x2f :: rest) /\
    canonical_query_text excluded raw_query query /\
    canonical = method ++ [x0a] ++ path ++ [x0a] ++ query ++ [x0a] ++ header_lines m signed ++ [x0a]
                ++ join (bs ";") signed ++ [x0a] ++ payload.

(** * Keys and strings to sign *)

Definition scope_text (date region service : bytes) : bytes :=
  date ++ bs "/" ++ region ++ bs "/" ++ service ++ bs "/aws4_request".

Section Signature.
Variables (hash : bytes -> bytes) (mac : bytes -> bytes -> bytes).

Definition aws_signing_key (secret date region service : bytes) : bytes :=
  mac (mac (mac (mac (bs "AWS4" ++ secret) date) region) service) (bs "aws4_request").

Definition aws_string_to_sign (time scope canonical : bytes) : bytes :=
  bs "AWS4-HMAC-SHA256" ++ [x0a] ++ time ++ [x0a] ++ scope ++ [x0a] ++ hex_text (hash canonical).

(** The signature of a canonical request under a credential. *)
Definition aws_signature (secret time date region service canonical : bytes) : bytes :=
  mac (aws_signing_key secret date region service)
    (aws_string_to_sign time (scope_text date region service) canonical).

(** The string to sign of a chunk of a streamed body: the previous signature,
    the digest of the empty string and the digest of the data. *)
Definition aws_chunk_string (time scope previous data : bytes) : bytes :=
  bs "AWS4-HMAC-SHA256-PAYLOAD" ++ [x0a] ++ time ++ [x0a] ++ scope ++ [x0a] ++ hex_text previous ++ [x0a]
  ++ bs "e3b0c44298fc1c149afbf4c8996fb92427ae41e4649b934ca495991b7852b855" ++ [x0a] ++ hex_text (hash data).
End Signature.

(** * Fields *)

Definition all_digits (text : bytes) : Prop := Forall (fun b => b ∈ digits) text.

(** A credential: five non-empty parts, the date in eight digits. *)
Definition credential_spelling (text key date region service : bytes) : Prop :=
  text = key ++ bs "/" ++ date ++ bs "/" ++ region ++ bs "/" ++ service ++ bs "/aws4_request" /\
  Forall (fun part => part <> [] /\ (x2f ∉ part)) [key; date; region; service] /\
  length date = 8%nat /\ all_digits date.

(** Signed header names: lower case, in strictly increasing order. *)
Definition signed_names_spelling (text : bytes) (names : list bytes) : Prop :=
  text = join (bs ";") names /\ names <> [] /\
  Forall (fun name => name <> [] /\ Forall (fun b => b ∈ header_chars) name) names /\
  Sorted text_lt names.

Definition digest_spelling (text digest : bytes) : Prop :=
  hex_spelling text digest /\ length digest = 32%nat.

(** An Authorization value: the algorithm and, in any order and with white
    space around them, the three attributes, each once. *)
Definition authorization_spelling (value key date region service : bytes) (names : list bytes)
  (signature : bytes) : Prop :=
  exists attributes credential signed_names hex,
    value = bs "AWS4-HMAC-SHA256 " ++ attributes /\
    Permutation (map str_trim (split_on (fun b => b ==b x2c) attributes))
      [bs "Credential=" ++ credential; bs "SignedHeaders=" ++ signed_names; bs "Signature=" ++ hex] /\
    credential_spelling credential key date region service /\
    signed_names_spelling signed_names names /\ digest_spelling hex signature.

(** * Time *)

Definition leap_year (y : Z) : bool :=
  (y mod 4 =? 0) && (negb (y mod 100 =? 0) || (y mod 400 =? 0)).

Definition month_lengths (y : Z) : list Z :=
  [31; (if leap_year y then 29 else 28); 31; 30; 31; 30; 31; 31; 30; 31; 30; 31].

Definition total (l : list Z) : Z := fold_right Z.add 0 l.

(** The days of the years from 1970 up to [n] years later. *)
Definition days_of_years (n : nat) : Z :=
  total (map (fun i => if leap_year (1970 + Z.of_nat i) then 366 else 365) (seq 0 n)).

(** The seconds since the epoch of a civil time. *)
Definition epoch_seconds (y m d h mi s : Z) : Z :=
  (days_of_years (Z.to_nat (y - 1970)) + total (take (Z.to_nat (m - 1)) (month_lengths y)) + (d - 1)) * 86400
  + h * 3600 + mi * 60 + s.

Definition number (text : bytes) (w : nat) (n : Z) : Prop :=
  length text = w /\ all_digits text /\ dec_value text = n.

(** [text] is [YYYYMMDD'T'hhmmss'Z'] and names the second [t]. *)
Definition time_spelling (text : bytes) (t : Z) : Prop :=
  exists y m d h mi s yt mt dt ht mit st last_day,
    text = yt ++ mt ++ dt ++ bs "T" ++ ht ++ mit ++ st ++ bs "Z" /\
    number yt 4 y /\ number mt 2 m /\ number dt 2 d /\ number ht 2 h /\ number mit 2 mi /\ number st 2 s /\
    1970 <= y /\ 1 <= m <= 12 /\ month_lengths y !! Z.to_nat (m - 1) = Some last_day /\
    1 <= d <= last_day /\ h <= 23 /\ mi <= 59 /\ s <= 59 /\ t = epoch_seconds y m d h mi s.
