(* ===== verification/Canonical.v ===== *)
(** Canonicalization for AWS Signature Version 4, from
    [src/src/protocol/sigv4.rs]: percent encoding, the canonical URI, query,
    headers and request, hexadecimal digests and the constant-time
    comparison.  The theorems say what a signature covers: requests with the
    same canonical request have the same method, address the same bucket and
    key, carry the same decoded query parameters and the same values of the
    signed headers. *)
From stdpp Require Import sets sorting.
From S2P Require Import Prelude Text Http.

Module SigV4Error.
Inductive SigV4Error :=
| MissingHeader (name : bytes)
| DuplicateHeader (name : bytes)
| MissingQueryParameter (name : bytes)
| DuplicateQueryParameter (name : bytes)
| InvalidUtf8
| InvalidAuthorization
| UnsupportedAlgorithm
| InvalidCredentialScope
| InvalidSignedHeaders
| MissingSignedHeader (name : bytes)
| UnsignedAmzHeader (name : bytes)
| MissingPayloadHash
| UnsupportedPayloadMode
| InvalidHex
| InvalidTimestamp
| RequestTimeTooSkewed
| PresignedUrlNotYetValid
| PresignedUrlExpired
| InvalidExpires
| RegionMismatch
| ServiceMismatch
| SignatureMismatch
| PayloadHashMismatch
| StreamingPayloadRequiresDecoder
| InvalidCanonicalUri
| InvalidCanonicalQuery.
End SigV4Error.
Abbreviation SigV4Error := SigV4Error.SigV4Error.

#[global] Instance SigV4Error_eq_dec : EqDecision SigV4Error.
Proof. solve_decision. Defined.

(** [impl Display for SigV4Error] *)
Definition SigV4Error_display (e : SigV4Error) : bytes :=
  match e with
  | SigV4Error.MissingHeader name => bs "missing SigV4 header " ++ name
  | SigV4Error.DuplicateHeader name => bs "duplicate SigV4 header " ++ name
  | SigV4Error.MissingQueryParameter name => bs "missing SigV4 query parameter " ++ name
  | SigV4Error.DuplicateQueryParameter name => bs "duplicate SigV4 query parameter " ++ name
  | SigV4Error.InvalidUtf8 => bs "SigV4 field is not UTF-8"
  | SigV4Error.InvalidAuthorization => bs "invalid SigV4 Authorization value"
  | SigV4Error.UnsupportedAlgorithm => bs "unsupported AWS signing algorithm"
  | SigV4Error.InvalidCredentialScope => bs "invalid SigV4 credential scope"
  | SigV4Error.InvalidSignedHeaders => bs "invalid SigV4 SignedHeaders list"
  | SigV4Error.MissingSignedHeader name => bs "signed header is missing: " ++ name
  | SigV4Error.UnsignedAmzHeader name => bs "x-amz header was not signed: " ++ name
  | SigV4Error.MissingPayloadHash => bs "missing x-amz-content-sha256"
  | SigV4Error.UnsupportedPayloadMode => bs "unsupported x-amz-content-sha256 mode"
  | SigV4Error.InvalidHex => bs "invalid hexadecimal SigV4 value"
  | SigV4Error.InvalidTimestamp => bs "invalid SigV4 timestamp"
  | SigV4Error.RequestTimeTooSkewed => bs "request timestamp is outside the allowed skew"
  | SigV4Error.PresignedUrlNotYetValid => bs "presigned URL is not valid yet"
  | SigV4Error.PresignedUrlExpired => bs "presigned URL has expired"
  | SigV4Error.InvalidExpires => bs "X-Amz-Expires must be 1..604800 seconds"
  | SigV4Error.RegionMismatch => bs "credential scope region does not match this endpoint"
  | SigV4Error.ServiceMismatch => bs "credential scope service is not s3"
  | SigV4Error.SignatureMismatch => bs "SigV4 signature does not match"
  | SigV4Error.PayloadHashMismatch => bs "request payload SHA-256 does not match"
  | SigV4Error.StreamingPayloadRequiresDecoder =>
      bs "streaming payload must be verified by the aws-chunked decoder"
  | SigV4Error.InvalidCanonicalUri => bs "request path cannot be canonicalized for SigV4"
  | SigV4Error.InvalidCanonicalQuery => bs "request query cannot be canonicalized for SigV4"
  end.

(** * Bytes and hexadecimal *)

(** [TABLE[usize::from(nibble)]] on a 16-byte table. *)
Definition hex_char (table : bytes) (nibble : Z) : byte := default x00 (table !! Z.to_nat nibble).

Definition HEX_UPPER : bytes := bs "0123456789ABCDEF".
Definition HEX_LOWER : bytes := bs "0123456789abcdef".

Definition hex_nibble (b : byte) : option Z := hex_digit b.

Definition is_unreserved (b : byte) : bool := is_ascii_alphanumeric b || contains b (bs "-._~").

(** [push_percent_encoded]: the three bytes it appends. *)
Definition push_percent_encoded (b : byte) : bytes :=
  [x25; hex_char HEX_UPPER (Z.shiftr (bval b) 4); hex_char HEX_UPPER (Z.land (bval b) 15)].

Definition aws_encode_byte (encode_slash : bool) (b : byte) : bytes :=
  if is_unreserved b || ((b ==b x2f) && negb encode_slash) then [b] else push_percent_encoded b.

Definition aws_encode (value : bytes) (encode_slash : bool) : bytes :=
  concat (map (aws_encode_byte encode_slash) value).

Fixpoint decode_hex_pairs (value : bytes) : result SigV4Error bytes :=
  match value with
  | h :: l :: rest =>
      let* high := ok_or (hex_nibble h) SigV4Error.InvalidHex in
      let* low := ok_or (hex_nibble l) SigV4Error.InvalidHex in
      let* tail := decode_hex_pairs rest in
      Ok (mkb (Z.lor (Z.shiftl high 4) low) :: tail)
  | _ => Ok []
  end.

Definition decode_hex_32 (value : bytes) : result SigV4Error bytes :=
  if negb (len value =? 64) then Err SigV4Error.InvalidHex else decode_hex_pairs value.

Definition decode_signature_hex (value : bytes) : result SigV4Error bytes := decode_hex_32 value.

Definition hex_lower (value : bytes) : bytes :=
  concat (map (fun b => [hex_char HEX_LOWER (Z.shiftr (bval b) 4);
                         hex_char HEX_LOWER (Z.land (bval b) 15)]) value).

Definition constant_time_eq (left right : bytes) : bool :=
  if negb (len left =? len right) then false
  else foldl (fun difference '(l, r) => Z.lor difference (Z.lxor (bval l) (bval r))) 0
         (zip left right) =? 0.

(** * Canonical URI *)

(** The [while index < input.len()] loop over the remaining input. *)
Fixpoint canonical_uri_loop (input : bytes) : result SigV4Error bytes :=
  match input with
  | [] => Ok []
  | b :: rest =>
      if (b ==b x2f) || is_unreserved b then
        let* output := canonical_uri_loop rest in Ok (b :: output)
      else if b ==b x25 then
        match rest with
        | h :: l :: rest' =>
            match hex_nibble h, hex_nibble l with
            | Some _, Some _ =>
                let* output := canonical_uri_loop rest' in
                Ok (x25 :: to_ascii_uppercase h :: to_ascii_uppercase l :: output)
            | _, _ => Err SigV4Error.InvalidCanonicalUri
            end
        | _ => Err SigV4Error.InvalidCanonicalUri
        end
      else
        let* output := canonical_uri_loop rest in Ok (push_percent_encoded b ++ output)
  end.

Definition canonical_uri (raw_path : bytes) : result SigV4Error bytes :=
  if negb (starts_with raw_path (bs "/")) then Err SigV4Error.InvalidCanonicalUri
  else canonical_uri_loop raw_path.

(** * Canonical query *)

(** The order on strings: bytewise lexicographic. *)
Fixpoint bytes_cmp (a b : bytes) : comparison :=
  match a, b with
  | [], [] => Eq
  | [], _ :: _ => Lt
  | _ :: _, [] => Gt
  | x :: a', y :: b' =>
      match Z.compare (bval x) (bval y) with Eq => bytes_cmp a' b' | c => c end
  end.

(** The derived order on pairs of strings. *)
Definition pair_cmp (p q : bytes * bytes) : comparison :=
  match bytes_cmp (fst p) (fst q) with Eq => bytes_cmp (snd p) (snd q) | c => c end.

Definition pair_le (p q : bytes * bytes) : Prop := pair_cmp p q <> Gt.

#[global] Instance pair_le_dec p q : Decision (pair_le p q).
Proof. unfold pair_le. solve_decision. Defined.

Definition map_canonical_query_error (error : HttpParseError) : SigV4Error :=
  match error with
  | InvalidPercentEncoding => SigV4Error.InvalidCanonicalQuery
  | _ => SigV4Error.InvalidCanonicalQuery
  end.

(** One round of the loop: [None] is [continue]. *)
Definition canonical_pair (exclude_signature : bool) (component : bytes)
  : result SigV4Error (option (bytes * bytes)) :=
  let (raw_name, raw_value) :=
    match split_once x3d component with Some nv => nv | None => (component, []) end in
  let* name := map_err map_canonical_query_error (percent_decode raw_name) in
  if exclude_signature && (name ==b bs "X-Amz-Signature") then Ok None
  else
    let* value := map_err map_canonical_query_error (percent_decode raw_value) in
    Ok (Some (aws_encode name true, aws_encode value true)).

Definition render_pair (p : bytes * bytes) : bytes := fst p ++ x3d :: snd p.

Definition canonical_query (raw_query : option bytes) (exclude_signature : bool)
  : result SigV4Error bytes :=
  match raw_query with
  | None => Ok []
  | Some raw_query =>
      if is_empty raw_query then Ok []
      else
        let* found := traverse (canonical_pair exclude_signature)
                        (split_on (fun b => b ==b x26) raw_query) in
        Ok (join [x26] (map render_pair (merge_sort pair_le (omap id found))))
  end.

(** * Canonical headers and request *)

(** One byte of [normalize_header_value]'s loop. *)
Definition normalize_step (s : bytes * bool) (b : byte) : bytes * bool :=
  let (normalized, in_whitespace) := s in
  if is_ows b then if in_whitespace then s else (normalized ++ [SP], true)
  else (normalized ++ [b], false).

Definition normalize_header_value (value : bytes) : bytes :=
  let normalized := fst (foldl normalize_step ([], true) value) in
  match last normalized with
  | Some b => if b ==b SP then take (length normalized - 1) normalized else normalized
  | None => normalized
  end.

(** The lines the loop of [canonical_headers] appends. *)
Fixpoint canonical_headers (m : HeaderMap) (signed_headers : list bytes)
  : result SigV4Error bytes :=
  match signed_headers with
  | [] => Ok []
  | name :: names =>
      let values := HeaderMap_get_all m name in
      if is_empty values then Err (SigV4Error.MissingSignedHeader name)
      else
        let* rest := canonical_headers m names in
        Ok (name ++ x3a :: join [x2c] (map normalize_header_value values) ++ LF :: rest)
  end.

Record SigV4Request := {
  req_method : bytes;
  req_raw_path : bytes;
  req_raw_query : option bytes;
  req_query : QueryParams;
  req_headers : HeaderMap
}.

(** [impl From<&RequestHead> for SigV4Request] *)
Definition SigV4Request_from (r : RequestHead) : SigV4Request := {|
  req_method := method r;
  req_raw_path := raw_path (target r);
  req_raw_query := raw_query (target r);
  req_query := query (target r);
  req_headers := headers r
|}.

Definition build_canonical_request (request : SigV4Request) (signed_headers : list bytes)
  (payload_literal : bytes) (exclude_signature : bool) : result SigV4Error bytes :=
  let* uri := canonical_uri (req_raw_path request) in
  let* query := canonical_query (req_raw_query request) exclude_signature in
  let* headers := canonical_headers (req_headers request) signed_headers in
  let signed := join [x3b] signed_headers in
  Ok (req_method request ++ LF :: uri ++ LF :: query ++ LF :: headers
      ++ LF :: signed ++ LF :: payload_literal).

(** * Reference definitions *)

(** The maximal runs of bytes other than space and tab. *)
Definition words (value : bytes) : list bytes :=
  List.filter (fun w => negb (is_empty w)) (split_on is_ows value).

(** The decoded query parameters a signature covers. *)
Definition signed_params (exclude_signature : bool) (q : QueryParams) : list (bytes * bytes) :=
  List.filter (fun p => negb (exclude_signature && (fst p ==b bs "X-Amz-Signature")))
    (map (fun p => (param_name p, param_value p)) (pairs q)).

(** The value of a signed header: its field values, normalized and combined. *)
Definition signed_value (m : HeaderMap) (name : bytes) : bytes :=
  join [x2c] (map normalize_header_value (HeaderMap_get_all m name)).

(** * Lemmas: encoding *)

Ltac by_bytes P b :=
  let H := fresh "H" in
  pose proof (byte_forall P eq_refl b) as H; cbv beta in H.

Lemma percent_encoded_digits b :
  hex_value (hex_char HEX_UPPER (Z.shiftr (bval b) 4)) = Some (Z.shiftr (bval b) 4) /\
  hex_value (hex_char HEX_UPPER (Z.land (bval b) 15)) = Some (Z.land (bval b) 15) /\
  join_nibbles (Z.shiftr (bval b) 4) (Z.land (bval b) 15) = b.
Proof.
  by_bytes (fun b => bool_decide
    (hex_value (hex_char HEX_UPPER (Z.shiftr (bval b) 4)) = Some (Z.shiftr (bval b) 4) /\
     hex_value (hex_char HEX_UPPER (Z.land (bval b) 15)) = Some (Z.land (bval b) 15) /\
     join_nibbles (Z.shiftr (bval b) 4) (Z.land (bval b) 15) = b)) b.
  by apply bool_decide_eq_true in H.
Qed.

Lemma percent_decode_encoded b r :
  percent_decode (push_percent_encoded b ++ r) =
  match percent_decode r with Ok t => Ok (b :: t) | Err e => Err e end.
Proof.
  destruct (percent_encoded_digits b) as (H1 & H2 & H3).
  unfold push_percent_encoded. cbn [app percent_decode]. rewrite bool_decide_true by done.
  rewrite H1, H2. cbn [ok_or]. rewrite H3. done.
Qed.

(** The bytes an encoded string is made of. *)
Definition encoded_byte (b : byte) : bool := is_unreserved b || (b ==b x25).

Lemma encoded_byte_classes b : encoded_byte b = true ->
  b <> x26 /\ b <> x3d /\ b <> x2f /\ b <> LF /\ b <> x3f /\ b <> x23.
Proof.
  by_bytes (fun b => implb (encoded_byte b)
    (bool_decide (b <> x26 /\ b <> x3d /\ b <> x2f /\ b <> LF /\ b <> x3f /\ b <> x23))) b.
  intros E. rewrite E in H. by apply bool_decide_eq_true in H.
Qed.

Lemma unreserved_not_percent b : is_unreserved b = true -> b <> x25.
Proof.
  by_bytes (fun b => implb (is_unreserved b) (negb (b ==b x25))) b.
  intros E. rewrite E in H. cbn [implb] in H. by bool_hyps.
Qed.

Lemma percent_encoded_bytes b : forallb encoded_byte (push_percent_encoded b) = true.
Proof. by_bytes (fun b => forallb encoded_byte (push_percent_encoded b)) b. done. Qed.

Lemma aws_encode_bytes v : forallb encoded_byte (aws_encode v true) = true.
Proof.
  unfold aws_encode. induction v as [|b v IH]; [done|]. simpl. rewrite forallb_app, IH, andb_true_r.
  unfold aws_encode_byte. cbn [negb]. rewrite andb_false_r, orb_false_r.
  destruct (is_unreserved b) eqn:E; [|apply percent_encoded_bytes].
  simpl. unfold encoded_byte. by rewrite E.
Qed.

Lemma aws_encode_decodes v s : percent_decode (aws_encode v s) = Ok v.
Proof.
  unfold aws_encode. induction v as [|b v IH]; [done|]. cbn [map concat].
  unfold aws_encode_byte at 1.
  destruct (is_unreserved b || _) eqn:E.
  - assert (b <> x25).
    { apply orb_prop in E as [E|E]; [by apply unreserved_not_percent|]. bool_hyps. by subst. }
    cbn [app percent_decode]. rewrite bool_decide_false by done. by rewrite IH.
  - rewrite percent_decode_encoded. by rewrite IH.
Qed.

Lemma aws_encode_inj a b s : aws_encode a s = aws_encode b s -> a = b.
Proof.
  intros H. pose proof (aws_encode_decodes a s) as Ha. rewrite H, aws_encode_decodes in Ha. congruence.
Qed.

(** * Lemmas: the canonical URI *)

Lemma hex_nibble_upper h n : hex_nibble h = Some n -> hex_nibble (to_ascii_uppercase h) = Some n
  /\ to_ascii_uppercase (to_ascii_uppercase h) = to_ascii_uppercase h
  /\ encoded_byte (to_ascii_uppercase h) = true.
Proof.
  by_bytes (fun h => match hex_nibble h with
    | Some n => bool_decide (hex_nibble (to_ascii_uppercase h) = Some n /\
        to_ascii_uppercase (to_ascii_uppercase h) = to_ascii_uppercase h /\
        encoded_byte (to_ascii_uppercase h) = true)
    | None => true end) h.
  intros E. rewrite E in H. by apply bool_decide_eq_true in H.
Qed.

Lemma percent_decode_uri_byte b r : (b ==b x2f) || is_unreserved b = true ->
  percent_decode (b :: r) = match percent_decode r with Ok t => Ok (b :: t) | Err e => Err e end.
Proof.
  intros E. cbn [percent_decode]. rewrite bool_decide_false; [done|].
  apply orb_prop in E as [E|E]; [bool_hyps; by subst|by apply unreserved_not_percent].
Qed.

Lemma canonical_uri_loop_ok p :
  is_ok (canonical_uri_loop p) = is_ok (percent_decode p).
Proof.
  induction p as [p IH] using length_ind. destruct p as [|b p]; [done|].
  assert (IHp : is_ok (canonical_uri_loop p) = is_ok (percent_decode p)) by (apply IH; simpl; lia).
  cbn [canonical_uri_loop]. destruct ((b ==b x2f) || is_unreserved b) eqn:E.
  - rewrite percent_decode_uri_byte by done. by destruct (canonical_uri_loop p), (percent_decode p).
  - cbn [percent_decode]. destruct (b ==b x25).
    + destruct p as [|h [|l p]]; [done..|]. unfold hex_value, hex_nibble.
      destruct (hex_digit h), (hex_digit l); try done. cbn [ok_or].
      assert (IHq : is_ok (canonical_uri_loop p) = is_ok (percent_decode p)) by (apply IH; simpl; lia).
      by destruct (canonical_uri_loop p), (percent_decode p).
    + by destruct (canonical_uri_loop p), (percent_decode p).
Qed.

Lemma percent_encoded_upper b :
  to_ascii_uppercase (hex_char HEX_UPPER (Z.shiftr (bval b) 4))
    = hex_char HEX_UPPER (Z.shiftr (bval b) 4) /\
  to_ascii_uppercase (hex_char HEX_UPPER (Z.land (bval b) 15))
    = hex_char HEX_UPPER (Z.land (bval b) 15).
Proof.
  by_bytes (fun b => bool_decide
    (to_ascii_uppercase (hex_char HEX_UPPER (Z.shiftr (bval b) 4))
       = hex_char HEX_UPPER (Z.shiftr (bval b) 4) /\
     to_ascii_uppercase (hex_char HEX_UPPER (Z.land (bval b) 15))
       = hex_char HEX_UPPER (Z.land (bval b) 15))) b.
  by apply bool_decide_eq_true in H.
Qed.

(** An escape is already canonical. *)
Lemma canonical_uri_loop_encoded b r :
  canonical_uri_loop (push_percent_encoded b ++ r) =
  match canonical_uri_loop r with Ok o => Ok (push_percent_encoded b ++ o) | Err e => Err e end.
Proof.
  destruct (percent_encoded_digits b) as (D1 & D2 & _), (percent_encoded_upper b) as [U1 U2].
  unfold push_percent_encoded. cbn [app canonical_uri_loop]. unfold hex_value, hex_nibble in *.
  rewrite D1, D2, U1, U2. done.
Qed.

Lemma canonical_uri_loop_spec p u : canonical_uri_loop p = Ok u ->
  percent_decode u = percent_decode p /\ canonical_uri_loop u = Ok u /\
  forallb (fun b => (b ==b x2f) || encoded_byte b) u = true /\ (x2f ∉ p -> x2f ∉ u) /\
  (p = [] <-> u = []).
Proof.
  revert u. induction p as [p IH] using length_ind. intros u H. destruct p as [|b p].
  { simpl in H. simplify_eq. split_and!; done. }
  cbn [canonical_uri_loop] in H. destruct ((b ==b x2f) || is_unreserved b) eqn:E.
  - destruct (canonical_uri_loop p) as [o|] eqn:Ep; [|done]. simplify_eq.
    destruct (IH p ltac:(simpl; lia) o Ep) as (I1 & I2 & I3 & I4 & I5).
    rewrite !percent_decode_uri_byte, I1 by done. split_and!; [done| | |set_solver|naive_solver].
    + cbn [canonical_uri_loop]. by rewrite E, I2.
    + cbn [forallb]. rewrite I3, andb_true_r. unfold encoded_byte. rewrite orb_assoc, E. done.
  - destruct (b ==b x25) eqn:Eb.
    + destruct p as [|h [|l p]]; [done..|]. destruct (hex_nibble h) as [hi|] eqn:Eh; [|done].
      destruct (hex_nibble l) as [lo|] eqn:El; [|done].
      destruct (canonical_uri_loop p) as [o|] eqn:Ep; [|done]. simplify_eq.
      destruct (IH p ltac:(simpl; lia) o Ep) as (I1 & I2 & I3 & I4 & I5).
      destruct (hex_nibble_upper h hi Eh) as (H1 & H2 & H3).
      destruct (hex_nibble_upper l lo El) as (L1 & L2 & L3).
      split_and!; [| | | |done].
      * cbn [percent_decode]. rewrite Eb, bool_decide_true by done. unfold hex_value, hex_nibble in *.
        by rewrite H1, L1, Eh, El, I1.
      * cbn [canonical_uri_loop]. rewrite H1, L1, I2, H2, L2. done.
      * cbn [forallb]. by rewrite H3, L3, I3, !orb_true_r.
      * intros Hn. apply encoded_byte_classes in H3 as (_ & _ & H3 & _), L3 as (_ & _ & L3 & _).
        rewrite !not_elem_of_cons in *. naive_solver.
    + destruct (canonical_uri_loop p) as [o|] eqn:Ep; [|done].
      assert (u = push_percent_encoded b ++ o) as -> by congruence. clear H.
      destruct (IH p ltac:(simpl; lia) o Ep) as (I1 & I2 & I3 & I4 & I5).
      split_and!; [| | | |done].
      * rewrite percent_decode_encoded, I1. cbn [percent_decode]. by rewrite Eb.
      * by rewrite canonical_uri_loop_encoded, I2.
      * rewrite forallb_app, I3, andb_true_r. eapply forallb_Forall_true.
        pose proof (percent_encoded_bytes b) as Hb. apply forallb_Forall_true in Hb.
        eapply Forall_impl; [exact Hb|]. intros c Hc. cbv beta in *. by rewrite Hc, orb_true_r.
      * intros Hn Hin. apply elem_of_app in Hin as [Hin|Hin]; [|set_solver].
        eapply (forallb_elem _ _ _ (percent_encoded_bytes b)), encoded_byte_classes in Hin.
        naive_solver.
Qed.

(** A slash is never part of an escape, so the loop works on both sides of it. *)
Lemma canonical_uri_loop_slash a b u : canonical_uri_loop (a ++ x2f :: b) = Ok u ->
  exists a' b', canonical_uri_loop a = Ok a' /\ canonical_uri_loop b = Ok b' /\ u = a' ++ x2f :: b'.
Proof.
  revert u. induction a as [a IH] using length_ind. intros u H. destruct a as [|c a].
  - cbn [app canonical_uri_loop orb] in H. rewrite bool_decide_true in H by done. cbn [orb] in H.
    destruct (canonical_uri_loop b) as [o|] eqn:E; [|done]. exists [], o. simplify_eq. done.
  - cbn [app canonical_uri_loop] in H |- *. destruct ((c ==b x2f) || is_unreserved c).
    + destruct (canonical_uri_loop (a ++ x2f :: b)) as [o|] eqn:E; [|done]. simplify_eq.
      destruct (IH a ltac:(simpl; lia) o E) as (a' & b' & -> & Hb & ->). by exists (c :: a'), b'.
    + destruct (c ==b x25).
      * destruct a as [|h [|l a]]; cbn [app] in H.
        -- destruct b; [done|]. done.
        -- destruct (hex_nibble h); done.
        -- destruct (hex_nibble h); [|done]. destruct (hex_nibble l); [|done].
           destruct (canonical_uri_loop (a ++ x2f :: b)) as [o|] eqn:E; [|done]. simplify_eq.
           destruct (IH a ltac:(simpl; lia) o E) as (a' & b' & -> & Hb & ->). by eexists _, b'.
      * destruct (canonical_uri_loop (a ++ x2f :: b)) as [o|] eqn:E; [|done].
        destruct (IH a ltac:(simpl; lia) o E) as (a' & b' & -> & Hb & ->).
        eexists _, b'. split_and!; [done..|]. rewrite <- app_assoc. congruence.
Qed.

Lemma canonical_uri_no_query p u : canonical_uri_loop p = Ok u -> (x3f ∉ u) /\ (x23 ∉ u).
Proof.
  intros (_ & _ & Hb & _)%canonical_uri_loop_spec.
  split; intros Hin; apply (forallb_elem _ _ _ Hb) in Hin; done.
Qed.

Lemma canonical_uri_path_style p u :
  canonical_uri p = Ok u -> x3f ∉ p -> x23 ∉ p -> parse_path_style u = parse_path_style p.
Proof.
  unfold canonical_uri. destruct (starts_with p (bs "/")) eqn:Hs; [|done]. cbn [negb].
  intros Hu Hq Hf. apply canonical_uri_no_query in Hu as Hu'. destruct Hu' as [Hq' Hf'].
  apply starts_with_true in Hs as [rest ->]. change (bs "/" ++ rest) with ([] ++ x2f :: rest) in Hu.
  apply canonical_uri_loop_slash in Hu as (a' & u' & [= <-] & Hu & ->). cbn [app] in *.
  unfold parse_path_style. apply contains_false in Hq, Hf, Hq', Hf'.
  change (bs "/" ++ rest) with (x2f :: rest) in *. rewrite Hq, Hf, Hq', Hf'.
  change (starts_with (x2f :: u') (bs "/")) with true.
  change (starts_with (x2f :: rest) (bs "/")) with true. cbn [negb orb].
  destruct (canonical_uri_loop_spec rest u' Hu) as (Hdec & _ & _ & Hns & Hnil).
  assert (He : (x2f :: u' ==b bs "/") = (x2f :: rest ==b bs "/")).
  { apply bool_decide_ext. split; intros [= E];
      [apply (proj2 Hnil) in E|apply (proj1 Hnil) in E]; by rewrite E. }
  rewrite He. destruct (x2f :: rest ==b bs "/"); [done|].
  change (drop 1 (x2f :: ?l)) with l.
  destruct (split_once x2f rest) as [[b k]|] eqn:E.
  - apply split_once_Some in E as [-> Hb]. clear Hns Hnil He.
    apply canonical_uri_loop_slash in Hu as (b' & k' & Hub & Huk & ->).
    destruct (canonical_uri_loop_spec b b' Hub) as (Db & _ & _ & Nb & _).
    destruct (canonical_uri_loop_spec k k' Huk) as (Dk & _).
    rewrite (proj2 (split_once_Some _ _ b' k')) by auto.
    cbn [transpose_map]. unfold decode_key. by rewrite Db, Dk.
  - apply split_once_None in E as Hn. rewrite (proj2 (split_once_None x2f u')) by auto.
    cbv iota beta. by rewrite Hdec.
Qed.

(** * Lemmas: the order on strings *)

Lemma bytes_cmp_eq a b : bytes_cmp a b = Eq <-> a = b.
Proof.
  revert b. induction a as [|x a IH]; intros [|y b]; simpl; [done..|].
  destruct (Z.compare_spec (bval x) (bval y)) as [E|E|E].
  - apply bval_inj in E as ->. rewrite IH. naive_solver.
  - split; [done|]. intros [= -> _]. lia.
  - split; [done|]. intros [= -> _]. lia.
Qed.

Lemma bytes_cmp_opp a b : bytes_cmp b a = CompOpp (bytes_cmp a b).
Proof.
  revert b. induction a as [|x a IH]; intros [|y b]; simpl; [done..|].
  rewrite (Z.compare_antisym (bval x) (bval y)).
  destruct (Z.compare (bval x) (bval y)); simpl; auto.
Qed.

Lemma bytes_cmp_lt_trans a b c : bytes_cmp a b = Lt -> bytes_cmp b c = Lt -> bytes_cmp a c = Lt.
Proof.
  revert b c. induction a as [|x a IH]; intros [|y b] [|z c]; simpl; try done.
  destruct (Z.compare_spec (bval x) (bval y)), (Z.compare_spec (bval y) (bval z)); try done;
    intros; destruct (Z.compare_spec (bval x) (bval z)); try done; try lia; eauto.
Qed.

Lemma pair_cmp_eq p q : pair_cmp p q = Eq <-> p = q.
Proof.
  destruct p as [a b], q as [a' b']. unfold pair_cmp. simpl.
  destruct (bytes_cmp a a') eqn:E; [|split; [done|]; intros [= -> ->]; by rewrite (proj2 (bytes_cmp_eq _ _)) in E..].
  apply bytes_cmp_eq in E as ->. rewrite bytes_cmp_eq. naive_solver.
Qed.

Lemma pair_cmp_opp p q : pair_cmp q p = CompOpp (pair_cmp p q).
Proof.
  unfold pair_cmp. rewrite (bytes_cmp_opp (fst p) (fst q)).
  destruct (bytes_cmp (fst p) (fst q)); simpl; [apply bytes_cmp_opp|done..].
Qed.

Lemma pair_cmp_lt_trans p q r : pair_cmp p q = Lt -> pair_cmp q r = Lt -> pair_cmp p r = Lt.
Proof.
  unfold pair_cmp. destruct p as [a b], q as [a' b'], r as [a'' b'']. simpl.
  destruct (bytes_cmp a a') eqn:E1, (bytes_cmp a' a'') eqn:E2; try done.
  - apply bytes_cmp_eq in E1 as ->. rewrite E2. apply bytes_cmp_lt_trans.
  - apply bytes_cmp_eq in E1 as ->. by rewrite E2.
  - apply bytes_cmp_eq in E2 as ->. by rewrite E1.
  - by rewrite (bytes_cmp_lt_trans a a' a'').
Qed.

#[global] Instance pair_le_total : Total pair_le.
Proof. intros p q. unfold pair_le. rewrite (pair_cmp_opp p q). destruct (pair_cmp p q); simpl; auto. Qed.

#[global] Instance pair_le_antisymm : AntiSymm eq pair_le.
Proof.
  intros p q. unfold pair_le. rewrite (pair_cmp_opp p q). intros H1 H2. apply pair_cmp_eq.
  by destruct (pair_cmp p q).
Qed.

#[global] Instance pair_le_trans : Transitive pair_le.
Proof.
  intros p q r. unfold pair_le. destruct (pair_cmp p q) eqn:E1; [|intros _|done].
  - apply pair_cmp_eq in E1 as ->. done.
  - destruct (pair_cmp q r) eqn:E2; [|intros _|done].
    + apply pair_cmp_eq in E2 as ->. by rewrite E1.
    + by rewrite (pair_cmp_lt_trans p q r).
Qed.

Lemma sort_permutation l l' : Permutation l l' -> merge_sort pair_le l = merge_sort pair_le l'.
Proof.
  intros H. apply (Sorted_unique pair_le); [apply (Sorted_merge_sort pair_le)..|].
  by rewrite !merge_sort_Permutation.
Qed.

(** * Lemmas: the canonical query *)

Definition encode_pair (p : bytes * bytes) : bytes * bytes :=
  (aws_encode (fst p) true, aws_encode (snd p) true).

Lemma encode_pair_inj : Inj eq eq encode_pair.
Proof.
  intros [a b] [a' b'] [= Ha Hb]. apply aws_encode_inj in Ha as ->, Hb as ->. done.
Qed.

Lemma canonical_pair_of_component e c p : parse_component c = Ok p ->
  canonical_pair e c =
  Ok (if e && (param_name p ==b bs "X-Amz-Signature") then None
      else Some (encode_pair (param_name p, param_value p))).
Proof.
  unfold parse_component, canonical_pair.
  destruct (match split_once x3d c with Some _ => _ | None => _ end) as [rn rv].
  destruct (percent_decode rn) as [n|]; [|done]. destruct (percent_decode rv) as [v|]; [|done].
  intros [= <-]. cbn [map_err param_name param_value].
  by destruct (e && (n ==b bs "X-Amz-Signature")).
Qed.

Lemma canonical_query_params raw q e : QueryParams_parse raw = Ok q ->
  canonical_query (Some raw) e =
  Ok (join [x26] (map render_pair (merge_sort pair_le (map encode_pair (signed_params e q))))).
Proof.
  unfold QueryParams_parse, canonical_query. destruct (is_empty raw).
  { intros [= <-]. done. }
  destruct (traverse parse_component _) as [ps|] eqn:E; [|done]. intros [= <-].
  unfold signed_params. cbn [pairs].
  assert (H : exists found, traverse (canonical_pair e) (split_on (fun b => b ==b x26) raw) = Ok found
    /\ omap id found = map encode_pair (List.filter
         (fun p => negb (e && (fst p ==b bs "X-Amz-Signature")))
         (map (fun p => (param_name p, param_value p)) ps))).
  { apply traverse_Ok in E. induction E as [|c p cs ps Hp _ (found & IH1 & IH2)]; [by exists []|].
    cbn [traverse]. rewrite (canonical_pair_of_component e c p Hp), IH1.
    eexists. split; [done|]. simpl.
    destruct (e && (param_name p ==b bs "X-Amz-Signature")); simpl; [done|by f_equal]. }
  destruct H as (found & -> & ->). done.
Qed.

(** The rendering of sorted encoded pairs determines them. *)
Lemma render_pairs_split l : Forall (fun p => exists q, p = encode_pair q) l ->
  (join [x26] (map render_pair l) = [] <-> l = []) /\
  (l <> [] -> map (split_once x3d) (split_on (fun b => b ==b x26) (join [x26] (map render_pair l)))
              = map Some l).
Proof.
  intros Hl.
  assert (Hp : Forall (fun p => Forall (fun b => (b ==b x26) = false) (render_pair p)
                 /\ split_once x3d (render_pair p) = Some p) l).
  { eapply Forall_impl; [exact Hl|]. intros p [[n v] ->]. unfold render_pair, encode_pair. simpl.
    assert (Hc : forall w b, b ∈ aws_encode w true -> b <> x26 /\ b <> x3d).
    { intros w b Hb. apply (forallb_elem _ _ _ (aws_encode_bytes w)), encoded_byte_classes in Hb. naive_solver. }
    split.
    - apply not_elem_of_Forall_eqb. rewrite elem_of_app, elem_of_cons.
      intros [Hb|[Hb|Hb]]; [by apply Hc in Hb as [? _]|done|by apply Hc in Hb as [? _]].
    - apply split_once_Some. split; [done|]. intros Hb. by apply Hc in Hb as [_ ?]. }
  split.
  - split; [|by intros ->]. destruct l as [|p [|p' l]]; cbn [map join]; [done|..];
      unfold render_pair; intros H; repeat (apply app_nil in H as [? H]); done.
  - intros Hne. rewrite split_on_join; [|done|by destruct l|].
    + clear -Hp. induction Hp as [|p l [_ Hp] _ IH]; simpl; [done|]. by rewrite Hp, IH.
    + clear -Hp. induction Hp as [|p l [Hp _] _ IH]; simpl; auto.
Qed.

Lemma render_pairs_inj l l' :
  Forall (fun p => exists q, p = encode_pair q) l -> Forall (fun p => exists q, p = encode_pair q) l' ->
  join [x26] (map render_pair l) = join [x26] (map render_pair l') -> l = l'.
Proof.
  intros Hl Hl' E. destruct (render_pairs_split l Hl) as [N S], (render_pairs_split l' Hl') as [N' S'].
  rewrite E in N, S. destruct l as [|p l].
  - symmetry. by apply N', N.
  - assert (Hne : l' <> []) by (intros H; apply N' in H; apply N in H; done).
    specialize (S ltac:(done)). specialize (S' Hne). rewrite S' in S.
    clear -S. revert S. generalize (p :: l). clear. intros l.
    revert l'. induction l as [|x l IH]; intros [|y l']; simpl; intros [= ]; [done|].
    subst. f_equal. by apply IH.
Qed.

Lemma permutation_map_inj l l' :
  Permutation (map encode_pair l) (map encode_pair l') -> Permutation l l'.
Proof.
  intros H. apply Permutation_map_inv in H as (l3 & E & H).
  assert (l = l3) as ->; [|by symmetry].
  clear H. revert l3 E. induction l as [|x l IH]; intros [|y l3]; simpl; intros [= ]; [done|].
  f_equal; [|by apply IH]. destruct x, y. by apply encode_pair_inj; unfold encode_pair; simpl; f_equal.
Qed.

Lemma sorted_encoded l :
  Forall (fun p => exists q, p = encode_pair q) (merge_sort pair_le (map encode_pair l)).
Proof.
  rewrite merge_sort_Permutation. apply List.Forall_forall. intros x (q & <- & _)%in_map_iff. eauto.
Qed.

Lemma canonical_query_iff raw raw' q q' e :
  QueryParams_parse raw = Ok q -> QueryParams_parse raw' = Ok q' ->
  canonical_query (Some raw) e = canonical_query (Some raw') e <->
  Permutation (signed_params e q) (signed_params e q').
Proof.
  intros Hq Hq'. rewrite (canonical_query_params raw q), (canonical_query_params raw' q') by done.
  split.
  - intros [= H]. apply render_pairs_inj in H; [|apply sorted_encoded..].
    apply permutation_map_inj. rewrite <- (merge_sort_Permutation pair_le (map encode_pair _)), H.
    apply merge_sort_Permutation.
  - intros H. do 3 f_equal. apply sort_permutation. by apply Permutation_map.
Qed.

Lemma canonical_query_default raw e : canonical_query raw e = canonical_query (Some (default [] raw)) e.
Proof. by destruct raw. Qed.

(** * Lemmas: header values *)

(** The trailing space the loop may leave behind. *)
Definition pop_space (l : bytes) : bytes :=
  match last l with
  | Some b => if b ==b SP then take (length l - 1) l else l
  | None => l
  end.

Lemma pop_space_snoc l b : pop_space (l ++ [b]) = if b ==b SP then l else l ++ [b].
Proof.
  unfold pop_space. rewrite last_snoc. case_bool_decide; [|done].
  rewrite length_app. simpl. replace (length l + 1 - 1)%nat with (length l) by lia.
  by rewrite take_app_length.
Qed.

Lemma join_cons_nonempty (sep w : bytes) ws :
  ws <> [] -> join sep (w :: ws) = w ++ sep ++ join sep ws.
Proof. by destruct ws. Qed.

Lemma join_cons_byte (sep : bytes) b w ws : join sep ((b :: w) :: ws) = b :: join sep (w :: ws).
Proof. by destruct ws. Qed.

(** The loop from either of its two states. *)
Lemma normalize_loop v :
  (forall n, (n = [] \/ exists m, n = m ++ [SP]) ->
     pop_space (fst (foldl normalize_step (n, true) v)) =
     match words v with [] => pop_space n | ws => n ++ join [SP] ws end) /\
  (forall n b, b <> SP ->
     pop_space (fst (foldl normalize_step (n ++ [b], false) v)) =
     n ++ [b] ++ match split_on is_ows v with
                 | h :: t => join [SP] (h :: List.filter (fun w => negb (is_empty w)) t)
                 | [] => []
                 end).
Proof.
  induction v as [|x v [IHt IHf]].
  { split; [done|]. intros n b Hb. simpl. rewrite pop_space_snoc.
    by rewrite bool_decide_false. }
  unfold words in *. cbn [foldl split_on normalize_step].
  destruct (split_on_cons is_ows v) as (h & t & E). rewrite E in *.
  destruct (is_ows x) eqn:Ex.
  - split; [intros n Hn; by rewrite IHt|].
    intros n b Hb. rewrite IHt by eauto. cbn [List.filter].
    destruct (if negb (is_empty h) then _ else _) as [|w ws] eqn:Ew.
    + rewrite pop_space_snoc, bool_decide_true by done. simpl. done.
    + rewrite (join_cons_nonempty [SP] [] (w :: ws)) by done. by rewrite <- !app_assoc.
  - assert (Hx : x <> SP) by (by intros ->).
    split.
    + intros n Hn. rewrite IHf by done. cbn [List.filter is_empty negb].
      by rewrite join_cons_byte.
    + intros n b Hb. rewrite IHf by done. rewrite join_cons_byte. by rewrite <- !app_assoc.
Qed.

Lemma normalize_words v : normalize_header_value v = join [SP] (words v).
Proof.
  pose proof (proj1 (normalize_loop v) [] (or_introl eq_refl)) as H.
  unfold normalize_header_value. fold (pop_space (fst (foldl normalize_step ([], true) v))).
  rewrite H. by destruct (words v).
Qed.

Lemma elem_of_join {A} (sep : list A) ls x : x ∈ join sep ls -> x ∈ sep \/ exists l, l ∈ ls /\ x ∈ l.
Proof.
  induction ls as [|l ls IH]; cbn [join]; [by intros ?%elem_of_nil|].
  destruct ls as [|l' ls]; [intros H; right; exists l; split; [left|done]|].
  rewrite !elem_of_app. intros [H|[H|H]]; [right; exists l; split; [left|done]|by left|].
  destruct (IH H) as [|(k & Hk & Hx)]; [by left|right; exists k; split; [by right|done]].
Qed.

Lemma elem_of_filter_list {A} (p : A -> bool) l x : x ∈ List.filter p l <-> x ∈ l /\ p x = true.
Proof. rewrite !list_elem_of_In. apply filter_In. Qed.

Lemma normalize_elem v b : b ∈ normalize_header_value v -> b = SP \/ b ∈ v.
Proof.
  rewrite normalize_words. intros [H|(w & Hw & Hb)]%elem_of_join.
  - left. by apply list_elem_of_singleton in H.
  - right. apply elem_of_filter_list in Hw as [Hw _]. by eapply elem_of_split_on.
Qed.

(** The first separator cuts uniquely. *)
Lemma cut_inj (d : byte) a b a' b' :
  d ∉ a -> d ∉ a' -> a ++ d :: b = a' ++ d :: b' -> a = a' /\ b = b'.
Proof.
  intros Ha Ha' E. assert (H : split_once d (a ++ d :: b) = Some (a, b)) by (by apply split_once_Some).
  assert (H' : split_once d (a' ++ d :: b') = Some (a', b')) by (by apply split_once_Some).
  rewrite E, H' in H. by simplify_eq.
Qed.

Definition no_lf_values (m : HeaderMap) : Prop := Forall (fun f => LF ∉ header_value f) (fields m).

Definition signed_name (name : bytes) : Prop := name <> [] /\ (x3a ∉ name) /\ (LF ∉ name).

Lemma get_all_elem m n v : v ∈ HeaderMap_get_all m n -> exists f, f ∈ fields m /\ header_value f = v
  /\ eq_ignore_ascii_case (header_name f) n = true.
Proof.
  unfold HeaderMap_get_all. rewrite list_elem_of_In. intros (f & <- & Hf)%in_map_iff.
  apply filter_In in Hf as [Hf He]. exists f. by rewrite list_elem_of_In.
Qed.

Lemma signed_value_no_lf m n : no_lf_values m -> LF ∉ signed_value m n.
Proof.
  intros Hm. unfold signed_value. intros [H|(w & Hw & Hb)]%elem_of_join.
  - by apply list_elem_of_singleton in H.
  - apply list_elem_of_In, in_map_iff in Hw as (v & <- & Hv). apply list_elem_of_In in Hv.
    apply normalize_elem in Hb as [|Hb]; [done|].
    apply get_all_elem in Hv as (f & Hf & <- & _).
    unfold no_lf_values in Hm. rewrite Forall_forall in Hm. by apply (Hm f).
Qed.

Lemma canonical_headers_inj m m' s s' h x h' x' :
  no_lf_values m -> no_lf_values m' -> Forall signed_name s -> Forall signed_name s' ->
  canonical_headers m s = Ok h -> canonical_headers m' s' = Ok h' ->
  h ++ LF :: x = h' ++ LF :: x' ->
  s = s' /\ x = x' /\ Forall (fun n => signed_value m n = signed_value m' n) s.
Proof.
  intros Hm Hm' Hs. revert s' h h'. induction Hs as [|n s (Hn & Hc & Hl) Hs IH]; intros s' h h' Hs' H H' E.
  - simpl in H. simplify_eq. destruct Hs' as [|n' s' (Hn' & _ & Hl') _]; [simpl in H'; by simplify_eq|].
    simpl in H'. destruct (is_empty _); [done|]. destruct (canonical_headers m' s'); [|done].
    simplify_eq. destruct n' as [|b n']; [done|]. simpl in E. apply not_elem_of_cons in Hl' as [? _].
    congruence.
  - cbn [canonical_headers] in H. destruct (is_empty (HeaderMap_get_all m n)); [done|].
    destruct (canonical_headers m s) as [r|] eqn:Er; [|done]. simplify_eq.
    destruct Hs' as [|n' s' (Hn' & Hc' & Hl') Hs'].
    + simpl in H'. simplify_eq. destruct n as [|b n]; [done|]. simpl in E.
      apply not_elem_of_cons in Hl as [? _]. congruence.
    + cbn [canonical_headers] in H'. destruct (is_empty (HeaderMap_get_all m' n')); [done|].
      destruct (canonical_headers m' s') as [r'|] eqn:Er'; [|done]. simplify_eq.
      fold (signed_value m n) (signed_value m' n') in E. rewrite <- !app_assoc in E. cbn [app] in E.
      apply cut_inj in E as [-> E]; [|done..]. rewrite <- !app_assoc in E. cbn [app] in E.
      apply cut_inj in E as [Ev E]; [|by apply signed_value_no_lf..].
      destruct (IH s' r r' Hs' eq_refl Er' E) as (-> & -> & Hf). auto.
Qed.

(** * Lemmas: the canonical request *)

Lemma canonical_uri_no_lf p u : canonical_uri p = Ok u -> LF ∉ u.
Proof.
  unfold canonical_uri. destruct (negb _); [done|]. intros (_ & _ & Hb & _)%canonical_uri_loop_spec Hin.
  by apply (forallb_elem _ _ _ Hb) in Hin.
Qed.

Lemma canonical_query_no_lf raw q e c :
  QueryParams_parse raw = Ok q -> canonical_query (Some raw) e = Ok c -> LF ∉ c.
Proof.
  intros Hq H. rewrite (canonical_query_params raw q e Hq) in H. injection H as <-.
  pose proof (sorted_encoded (signed_params e q)) as Hs.
  intros [H|(w & Hw & Hb)]%elem_of_join; [by apply list_elem_of_singleton in H|].
  apply list_elem_of_In, in_map_iff in Hw as (p & <- & Hp). apply list_elem_of_In in Hp.
  rewrite Forall_forall in Hs. destruct (Hs p Hp) as [[n v] ->].
  assert (Hc : forall w, LF ∉ aws_encode w true).
  { intros w Hw. apply (forallb_elem _ _ _ (aws_encode_bytes w)), encoded_byte_classes in Hw. naive_solver. }
  unfold render_pair, encode_pair in Hb. simpl in Hb. apply elem_of_app in Hb as [Hb|Hb]; [by apply Hc in Hb|].
  apply elem_of_cons in Hb as [|Hb]; [done|by apply Hc in Hb].
Qed.

Lemma wf_head_no_lf lim r : wf_head lim r -> no_lf_values (headers r) /\ (LF ∉ method r).
Proof.
  intros [_ Hm _ _ Hf _ _ _]. split.
  - eapply Forall_impl; [exact Hf|]. intros f Hw Hin. apply wf_value_bytes in Hw.
    by apply (forallb_elem _ _ _ Hw), field_byte_classes in Hin as [_ ?].
  - intros Hin. apply (forallb_elem _ _ _ Hm), tchar_classes in Hin. naive_solver.
Qed.

Lemma wf_head_path lim r : wf_head lim r -> (x3f ∉ raw_path (target r)) /\ (x23 ∉ raw_path (target r)).
Proof.
  intros [_ _ [_ _ Hf Hq _ _] _ _ _ _ _]. split; [done|]. intros Hin. apply Hf.
  unfold render_target. apply elem_of_app. by left.
Qed.

(** Everything the bytes of a canonical request determine. *)
Lemma canonical_request_inj lim lim' r r' s s' p p' e c :
  wf_head lim r -> wf_head lim' r' -> Forall signed_name s -> Forall signed_name s' ->
  build_canonical_request (SigV4Request_from r) s p e = Ok c ->
  build_canonical_request (SigV4Request_from r') s' p' e = Ok c ->
  method r = method r' /\
  parse_path_style (raw_path (target r)) = parse_path_style (raw_path (target r')) /\
  Permutation (signed_params e (query (target r))) (signed_params e (query (target r'))) /\
  s = s' /\ Forall (fun n => signed_value (headers r) n = signed_value (headers r') n) s /\ p = p'.
Proof.
  intros Hw Hw' Hs Hs'. destruct (wf_head_no_lf _ _ Hw) as [Hv Hm], (wf_head_no_lf _ _ Hw') as [Hv' Hm'].
  destruct (wf_head_path _ _ Hw) as [Hp1 Hp2], (wf_head_path _ _ Hw') as [Hp1' Hp2'].
  pose proof (wf_query _ (wf_head_target _ _ Hw)) as Hq.
  pose proof (wf_query _ (wf_head_target _ _ Hw')) as Hq'.
  unfold build_canonical_request, SigV4Request_from. cbn [req_method req_raw_path req_raw_query req_headers].
  rewrite (canonical_query_default (raw_query (target r))), (canonical_query_default (raw_query (target r'))).
  destruct (canonical_uri (raw_path (target r))) as [u|] eqn:Eu; [|done].
  destruct (canonical_query _ e) as [q|] eqn:Eq; [|done].
  destruct (canonical_headers _ s) as [h|] eqn:Eh; [|done].
  destruct (canonical_uri (raw_path (target r'))) as [u'|] eqn:Eu'; [|done].
  destruct (canonical_query (Some (default [] (raw_query (target r')))) e) as [q'|] eqn:Eq'; [|done].
  destruct (canonical_headers _ s') as [h'|] eqn:Eh'; [|done].
  intros [= <-] [= E]. symmetry in E.
  apply cut_inj in E as [-> E]; [|done..].
  apply cut_inj in E as [-> E]; [|by eapply canonical_uri_no_lf..].
  apply cut_inj in E as [-> E]; [|first [exact (canonical_query_no_lf _ _ _ _ Hq Eq)
                                     |exact (canonical_query_no_lf _ _ _ _ Hq' Eq')]..].
  destruct (canonical_headers_inj _ _ _ _ _ _ _ _ Hv Hv' Hs Hs' Eh Eh' E) as (-> & E' & Hf).
  clear E. rename E' into E.
  apply app_inv_head in E. simplify_eq. split_and!; try done.
  - by rewrite <- (canonical_uri_path_style _ _ Eu), <- (canonical_uri_path_style _ _ Eu') by done.
  - by rewrite <- (canonical_query_iff _ _ _ _ e Hq Hq'), Eq, Eq'.
Qed.

(** * Lemmas: hexadecimal and comparison *)

Lemma hex_lower_digits b :
  hex_nibble (hex_char HEX_LOWER (Z.shiftr (bval b) 4)) = Some (Z.shiftr (bval b) 4) /\
  hex_nibble (hex_char HEX_LOWER (Z.land (bval b) 15)) = Some (Z.land (bval b) 15) /\
  mkb (Z.lor (Z.shiftl (Z.shiftr (bval b) 4) 4) (Z.land (bval b) 15)) = b.
Proof.
  by_bytes (fun b => bool_decide
    (hex_nibble (hex_char HEX_LOWER (Z.shiftr (bval b) 4)) = Some (Z.shiftr (bval b) 4) /\
     hex_nibble (hex_char HEX_LOWER (Z.land (bval b) 15)) = Some (Z.land (bval b) 15) /\
     mkb (Z.lor (Z.shiftl (Z.shiftr (bval b) 4) 4) (Z.land (bval b) 15)) = b)) b.
  by apply bool_decide_eq_true in H.
Qed.

Lemma hex_lower_cons b d :
  hex_lower (b :: d) = hex_char HEX_LOWER (Z.shiftr (bval b) 4)
                       :: hex_char HEX_LOWER (Z.land (bval b) 15) :: hex_lower d.
Proof. done. Qed.

Lemma length_hex_lower d : length (hex_lower d) = (2 * length d)%nat.
Proof. induction d as [|b d IH]; [done|]. rewrite hex_lower_cons. simpl. lia. Qed.

Lemma decode_hex_lower d : decode_hex_pairs (hex_lower d) = Ok d.
Proof.
  induction d as [|b d IH]; [done|]. rewrite hex_lower_cons. cbn [decode_hex_pairs].
  destruct (hex_lower_digits b) as (-> & -> & E). cbn [ok_or]. by rewrite IH, E.
Qed.

(** The byte two hexadecimal digits make, printed back in lower case. *)
Lemma nibbles_print h l hi lo : hex_nibble h = Some hi -> hex_nibble l = Some lo ->
  let b := mkb (Z.lor (Z.shiftl hi 4) lo) in
  hex_char HEX_LOWER (Z.shiftr (bval b) 4) = to_ascii_lowercase h /\
  hex_char HEX_LOWER (Z.land (bval b) 15) = to_ascii_lowercase l.
Proof.
  assert (Hd : forall c n, hex_nibble c = Some n -> to_ascii_lowercase c = hex_char HEX_LOWER n).
  { intros c n. by_bytes (fun c => match hex_nibble c with
      | Some n => to_ascii_lowercase c ==b hex_char HEX_LOWER n | None => true end) c.
    intros E. rewrite E in H. by bool_hyps. }
  intros Hh Hl. rewrite (Hd h hi Hh), (Hd l lo Hl).
  apply hex_digit_range in Hh, Hl.
  assert (Hn : forallb (fun i => forallb (fun j =>
      let b := mkb (Z.lor (Z.shiftl i 4) j) in
      (hex_char HEX_LOWER (Z.shiftr (bval b) 4) ==b hex_char HEX_LOWER i)
      && (hex_char HEX_LOWER (Z.land (bval b) 15) ==b hex_char HEX_LOWER j))
      (seqZ 0 16)) (seqZ 0 16) = true) by (vm_compute; done).
  apply forallb_elem with (x := hi) in Hn; [|apply elem_of_seqZ; lia].
  apply forallb_elem with (x := lo) in Hn; [|apply elem_of_seqZ; lia].
  cbv zeta in Hn |- *. bool_hyps. done.
Qed.

Lemma decode_hex_pairs_print v d : Nat.even (length v) = true ->
  decode_hex_pairs v = Ok d -> hex_lower d = lowercase v /\ length v = (2 * length d)%nat.
Proof.
  revert d. induction v as [v IH] using length_ind. intros d He H.
  destruct v as [|h [|l v]]; [simpl in H; by simplify_eq|done|]. cbn [decode_hex_pairs] in H.
  destruct (hex_nibble h) as [hi|] eqn:Eh; [|done]. destruct (hex_nibble l) as [lo|] eqn:El; [|done].
  cbn [ok_or] in H. destruct (decode_hex_pairs v) as [t|] eqn:Ev; [|done]. injection H as <-.
  destruct (nibbles_print h l hi lo Eh El) as [N1 N2].
  destruct (IH v ltac:(simpl; lia) t He Ev) as [IH1 IH2].
  rewrite hex_lower_cons, N1, N2, IH1. split; [done|simpl; lia].
Qed.

Lemma difference_zero l acc :
  0 <= acc -> (foldl (fun difference '(x, y) => Z.lor difference (Z.lxor (bval x) (bval y))) acc l = 0
  <-> acc = 0 /\ Forall (fun '(x, y) => x = y) l).
Proof.
  revert acc. induction l as [|[x y] l IH]; intros acc Ha; cbn [foldl]; [naive_solver|].
  pose proof (bval_range x). pose proof (bval_range y).
  assert (0 <= Z.lxor (bval x) (bval y)) by (apply Z.lxor_nonneg; lia).
  rewrite IH by (apply Z.lor_nonneg; lia). rewrite Z.lor_eq_0_iff, Z.lxor_eq_0_iff, Forall_cons.
  split; [intros [[-> E%bval_inj] H']; auto|intros [-> [-> H']]; auto].
Qed.

Lemma constant_time_eq_true a b : constant_time_eq a b = true <-> a = b.
Proof.
  unfold constant_time_eq, len. destruct (Z.eqb_spec (Z.of_nat (length a)) (Z.of_nat (length b))) as [E|E];
    simpl; [|split; [done|by intros ->]].
  rewrite Z.eqb_eq, difference_zero by lia. split.
  - intros [_ H]. assert (Hl : length a = length b) by lia. clear E. revert b Hl H.
    induction a as [|x a IH]; intros [|y b]; simpl; try done; try lia.
    intros Hl H. inversion H; subst. f_equal. apply IH; [lia|done].
  - intros ->. split; [done|]. clear E. induction b; simpl; auto.
Qed.

(** * Lemmas: path-style targets *)

Definition valid_bucket_text (b : bytes) : Prop :=
  b <> [] /\ (x2f ∉ b) /\ existsb is_ascii_control b = false /\ utf8_valid b = true.
Definition valid_key_text (k : bytes) : Prop := (x00 ∉ k) /\ utf8_valid k = true.

(** The path-style URL path of a bucket and a key. *)
Definition render_path_style (bucket key : bytes) : bytes :=
  x2f :: aws_encode bucket true ++ x2f :: aws_encode key false.

Lemma decode_key_Ok raw k : decode_key raw = Ok k -> valid_key_text k.
Proof.
  unfold decode_key, valid_key_text. destruct (percent_decode raw) as [d|]; [|done].
  destruct (contains x00 d) eqn:E; [done|]. intros [Hu ->]%ok_or_Ok%from_utf8_Some.
  by apply contains_false in E.
Qed.

Lemma parse_path_style_valid p b k :
  parse_path_style p = Ok {| bucket := Some b; key := Some k |} ->
  valid_bucket_text b /\ valid_key_text k.
Proof.
  unfold parse_path_style. destruct (_ || _ || _); [done|]. destruct (p ==b bs "/"); [done|].
  destruct (match split_once x2f _ with Some _ => _ | None => _ end) as [br kr].
  destruct (percent_decode br) as [bb|]; [|done].
  destruct (is_empty bb || _ || _) eqn:E; [done|]. destruct (contains x00 bb); [done|].
  destruct (ok_or (from_utf8 bb) InvalidUtf8Path) as [b'|] eqn:Eb; [|done].
  apply ok_or_Ok, from_utf8_Some in Eb as [Hu ->].
  destruct (transpose_map decode_key kr) as [k'|] eqn:Ek; [|done]. intros [= <- ->].
  unfold valid_bucket_text. guards. split; [done|].
  destruct kr as [kr|]; [|done]. simpl in Ek. destruct (decode_key kr) as [kk|] eqn:Ekk; [|done].
  simplify_eq. by eapply decode_key_Ok.
Qed.

Lemma control_nul l : existsb is_ascii_control l = false -> contains x00 l = false.
Proof.
  intros H. apply contains_false. intros Hin. apply not_true_iff_false in H. apply H.
  apply existsb_exists. exists x00. split; [by apply list_elem_of_In|done].
Qed.

Lemma aws_encode_slash_bytes v s :
  forallb (fun b => (b ==b x2f) || encoded_byte b) (aws_encode v s) = true.
Proof.
  unfold aws_encode. induction v as [|b v IH]; [done|]. cbn [map concat]. rewrite forallb_app, IH, andb_true_r.
  unfold aws_encode_byte. destruct (is_unreserved b || _) eqn:E.
  - cbn [forallb]. unfold encoded_byte. apply orb_prop in E as [E|E]; [by rewrite E, orb_true_r|].
    apply andb_prop in E as [E _]. by rewrite E.
  - apply forallb_Forall_true. pose proof (percent_encoded_bytes b) as Hb.
    apply forallb_Forall_true in Hb. eapply Forall_impl; [exact Hb|]. intros c Hc. cbv beta in *.
    by rewrite Hc, orb_true_r.
Qed.

Lemma parse_render_path_style b k : valid_bucket_text b -> valid_key_text k ->
  parse_path_style (render_path_style b k) = Ok {| bucket := Some b; key := Some k |}.
Proof.
  intros (Hb1 & Hb2 & Hb3 & Hb4) (Hk1 & Hk2). unfold parse_path_style.
  assert (Hall : forallb (fun b => (b ==b x2f) || encoded_byte b) (render_path_style b k) = true).
  { unfold render_path_style. cbn [forallb]. rewrite forallb_app. cbn [forallb].
    by rewrite !aws_encode_slash_bytes. }
  assert (Hno : forall c, (c ==b x2f) || encoded_byte c = false -> contains c (render_path_style b k) = false).
  { intros c Hc. apply contains_false. intros Hin. apply (forallb_elem _ _ _ Hall) in Hin. congruence. }
  rewrite (Hno x3f), (Hno x23) by done.
  change (starts_with (render_path_style b k) (bs "/")) with true. cbn [negb orb].
  rewrite bool_decide_false
    by (unfold render_path_style; intros [= H]; by apply app_nil in H as [_ ?]).
  change (drop 1 (render_path_style b k)) with (aws_encode b true ++ x2f :: aws_encode k false).
  rewrite (proj2 (split_once_Some _ _ (aws_encode b true) (aws_encode k false))).
  2:{ split; [done|]. intros Hin.
      apply (forallb_elem _ _ _ (aws_encode_bytes b)), encoded_byte_classes in Hin. naive_solver. }
  rewrite aws_encode_decodes. apply is_empty_false in Hb1. apply contains_false in Hb2.
  rewrite Hb1, Hb2, Hb3, (control_nul b Hb3). cbn [orb].
  rewrite (proj2 (from_utf8_Some b b)) by done. cbn [ok_or transpose_map].
  unfold decode_key. rewrite aws_encode_decodes. apply contains_false in Hk1. rewrite Hk1.
  by rewrite (proj2 (from_utf8_Some k k)).
Qed.

(** * Properties *)

(** The canonical URI never changes what the path means: it exists exactly
    for paths that start with a slash and decode, it decodes to the same bytes,
    it is a fixed point of canonicalization, and for a path without query or
    fragment delimiters it addresses the same bucket and key. *)
Theorem canonical_uri_faithful (path : bytes) :
  match canonical_uri path with
  | Ok uri => percent_decode uri = percent_decode path /\ is_ok (percent_decode path) = true /\
              canonical_uri uri = Ok uri /\
              (contains x3f path = false -> contains x23 path = false ->
               parse_path_style uri = parse_path_style path)
  | Err e => e = SigV4Error.InvalidCanonicalUri /\
             (starts_with path (bs "/") = false \/ percent_decode path = Err InvalidPercentEncoding)
  end.
Proof.
  destruct (canonical_uri path) as [u|e] eqn:E; pose proof E as E'; unfold canonical_uri in E;
    destruct (starts_with path (bs "/")) eqn:Hs; try done; cbn [negb] in E.
  - pose proof (canonical_uri_loop_ok path) as Hok. rewrite E in Hok.
    destruct (canonical_uri_loop_spec path u E) as (Hd & Hf & _ & _ & _).
    split_and!; [done|done| |].
    + unfold canonical_uri. apply starts_with_true in Hs as [r ->].
      change (bs "/" ++ r) with ([] ++ x2f :: r) in E.
      apply canonical_uri_loop_slash in E as (a & b & [= <-] & _ & ->).
      change (starts_with ([] ++ x2f :: b) (bs "/")) with true. done.
    + intros Hq Hfr. apply contains_false in Hq, Hfr. by apply canonical_uri_path_style.
  - pose proof (canonical_uri_loop_ok path) as Hok. rewrite E in Hok. simpl in Hok.
    destruct (percent_decode path) as [|e'] eqn:Ed; [done|]. apply percent_decode_err in Ed as ->.
    split; [|by right]. clear -E. revert e E. induction path as [p IH] using length_ind. intros e E.
    destruct p as [|b p]; [done|]. cbn [canonical_uri_loop] in E.
    repeat destr_match_in E; simplify_eq; try done; eapply IH; try done; simpl; lia.
  - injection E as <-. auto.
Qed.

(** Two query strings have the same canonical query exactly when their
    decoded parameters, less the signature where it is excluded, are the same up
    to order, so a signature covers every parameter and ignores their order and
    spelling. *)
Theorem canonical_query_covers (raw raw' : bytes) (q q' : QueryParams) (exclude : bool) :
  QueryParams_parse raw = Ok q -> QueryParams_parse raw' = Ok q' ->
  canonical_query (Some raw) exclude = canonical_query (Some raw') exclude <->
  Permutation (signed_params exclude q) (signed_params exclude q').
Proof. apply canonical_query_iff. Qed.

Lemma canonical_query_covers_witness :
  exists q q', QueryParams_parse (bs "b=%7e&a") = Ok q /\ QueryParams_parse (bs "a=&b=~") = Ok q' /\
    (canonical_query (Some (bs "b=%7e&a")) true = canonical_query (Some (bs "a=&b=~")) true <->
     Permutation (signed_params true q) (signed_params true q')) /\
    canonical_query (Some (bs "b=%7e&a")) true = Ok (bs "a=&b=~").
Proof.
  eexists _, _. split; [reflexivity|]. split; [reflexivity|]. split; [|vm_compute; reflexivity].
  apply (canonical_query_covers (bs "b=%7e&a") (bs "a=&b=~")); reflexivity.
Defined.

(** Path-style targets: a bucket and a key come out of the path parser
    exactly when they are valid text, and the percent-encoded path of any valid
    bucket and key, with every byte value in the key but NUL, parses back to them. *)
Theorem path_style_roundtrip (b k : bytes) :
  ((exists p, parse_path_style p = Ok {| bucket := Some b; key := Some k |}) <->
     valid_bucket_text b /\ valid_key_text k) /\
  (parse_path_style (render_path_style b k) = Ok {| bucket := Some b; key := Some k |} <->
     valid_bucket_text b /\ valid_key_text k).
Proof.
  split; split.
  - intros [p Hp]. by eapply parse_path_style_valid.
  - intros [? ?]. eauto using parse_render_path_style.
  - apply parse_path_style_valid.
  - intros [? ?]. by apply parse_render_path_style.
Qed.

(** Header values are normalized as AWS specifies: the loop computes the
    words of the value joined by single spaces. *)
Theorem normalize_header_value_words (value : bytes) :
  normalize_header_value value = join [SP] (words value).
Proof. apply normalize_words. Qed.

(** Signatures and digests in hexadecimal: decoding accepts exactly 64
    hexadecimal digits, printing inverts it up to letter case, and the
    branch-free comparison of digests is equality. *)
Theorem digest_text (digest other : bytes) :
  ((exists v, decode_hex_32 v = Ok digest) <-> length digest = 32%nat) /\
  (forall v, decode_hex_32 v = Ok digest -> hex_lower digest = lowercase v) /\
  (length digest = 32%nat -> decode_hex_32 (hex_lower digest) = Ok digest) /\
  constant_time_eq digest other = bool_decide (digest = other).
Proof.
  assert (Hlen : forall v, decode_hex_32 v = Ok digest ->
                 hex_lower digest = lowercase v /\ length digest = 32%nat).
  { intros v. unfold decode_hex_32, len. destruct (Z.eqb_spec (Z.of_nat (length v)) 64) as [E|]; [|done].
    cbn [negb]. assert (length v = 64%nat) by lia.
    intros [Hp Hl]%decode_hex_pairs_print; [split; [done|lia]|]. by replace (length v) with 64%nat. }
  assert (Hback : length digest = 32%nat -> decode_hex_32 (hex_lower digest) = Ok digest).
  { intros Hl. unfold decode_hex_32, len. rewrite length_hex_lower, Hl. apply decode_hex_lower. }
  split_and!; [split; [intros [v Hv]; by eapply Hlen|eauto]|intros v Hv; by apply Hlen|done|].
  apply eq_bool_prop_intro. rewrite !Is_true_true, constant_time_eq_true, bool_decide_eq_true. done.
Qed.
