(* ===== verification/SigV4.v ===== *)
(** AWS Signature Version 4 verification, [src/src/protocol/sigv4.rs]: the
    Authorization header and presigned-URL parsers, the time windows and the
    two verification procedures.  SHA-256 and HMAC of the [sha2] and [hmac]
    crates are the interface [Crypto].  The lemmas turn both procedures into
    conjunctions of their checks, which [SigV4Correct] compares with the
    definition of the scheme.  Theorems: requests that verify under one
    signature agree on everything it covers, or exhibit a collision;
    timestamps are the Gregorian seconds [iso8601] prints. *)
From S2P Require Import Prelude Text Http Headers Calendar Canonical.

(** * The cryptographic interface *)

(** [Sha256::digest], [Hmac<Sha256>] and [Mac::verify_slice], which compares
    the whole tag. *)
Class Crypto := {
  sha256 : bytes -> bytes;
  hmac_sha256 : bytes -> bytes -> bytes;
  hmac_verify : bytes -> bytes -> bytes -> bool;
  sha256_length : forall m, length (sha256 m) = 32%nat;
  hmac_length : forall k m, length (hmac_sha256 k m) = 32%nat;
  hmac_verify_spec : forall k m tag, hmac_verify k m tag = true <-> tag = hmac_sha256 k m
}.

(** * Data *)

Definition ALGORITHM : bytes := bs "AWS4-HMAC-SHA256".
Definition TERMINATOR : bytes := bs "aws4_request".
Definition MAX_PRESIGN_EXPIRY_SECONDS : Z := 7 * 24 * 60 * 60.

Inductive PayloadMode :=
| FullHash (digest : bytes)
| UnsignedPayload
| StreamingSigned
| StreamingUnsignedTrailer.

Record CredentialScope := {
  access_key : bytes;
  scope_date : bytes;
  region : bytes;
  service : bytes
}.

Record HeaderAuthorization := {
  ha_credential : CredentialScope;
  ha_signed_headers : list bytes;
  ha_signature : bytes
}.

Record PresignedAuthorization := {
  pa_credential : CredentialScope;
  pa_signed_headers : list bytes;
  pa_signature : bytes;
  pa_amz_date : bytes;
  pa_expires_seconds : Z
}.

(** [Duration]: nanoseconds. *)
Record VerificationConfig := {
  now : SystemTime;
  max_clock_skew : Z;
  expected_region : option bytes;
  expected_service : bytes
}.

Record StreamingSigningContext := {
  signing_key : bytes;
  amz_date : bytes;
  credential_scope : bytes;
  seed_signature : bytes
}.

Record VerifiedSignature := {
  credential : CredentialScope;
  signed_headers : list bytes;
  payload_mode : PayloadMode;
  security_token : option bytes;
  canonical_request_hash : bytes;
  streaming_context : option StreamingSigningContext
}.

(** [VerificationConfig::default], at the current time. *)
Definition VerificationConfig_default (time : SystemTime) : VerificationConfig := {|
  now := time;
  max_clock_skew := 15 * 60 * nanos_per_sec;
  expected_region := None;
  expected_service := bs "s3"
|}.

(** [CredentialScope::scope] *)
Definition scope (c : CredentialScope) : bytes :=
  scope_date c ++ bs "/" ++ region c ++ bs "/" ++ service c ++ bs "/" ++ TERMINATOR.

(** [PayloadMode::parse] *)
Definition PayloadMode_parse (value : bytes) : result SigV4Error PayloadMode :=
  if value ==b bs "UNSIGNED-PAYLOAD" then Ok UnsignedPayload
  else if value ==b bs "STREAMING-AWS4-HMAC-SHA256-PAYLOAD" then Ok StreamingSigned
  else if value ==b bs "STREAMING-UNSIGNED-PAYLOAD-TRAILER" then Ok StreamingUnsignedTrailer
  else if len value =? 64 then
    let* digest := decode_hex_32 value in Ok (FullHash digest)
  else Err SigV4Error.UnsupportedPayloadMode.

(** * Fields *)

Definition one_header (m : HeaderMap) (name : bytes) : result SigV4Error (option bytes) :=
  match HeaderMap_get_all m name with
  | [] => Ok None
  | [value] => Ok (Some value)
  | _ :: _ :: _ => Err (SigV4Error.DuplicateHeader name)
  end.

Definition query_optional_one (q : QueryParams) (name : bytes) : result SigV4Error (option bytes) :=
  match QueryParams_get_all q name with
  | [] => Ok None
  | [value] => Ok (Some value)
  | _ :: _ :: _ => Err (SigV4Error.DuplicateQueryParameter name)
  end.

Definition query_one (q : QueryParams) (name : bytes) : result SigV4Error bytes :=
  let* value := query_optional_one q name in
  ok_or value (SigV4Error.MissingQueryParameter name).

Definition query_one_str (q : QueryParams) (name : bytes) : result SigV4Error bytes :=
  let* value := query_one q name in
  ok_or (from_utf8 value) SigV4Error.InvalidUtf8.

Definition is_lowercase_header_token (b : byte) : bool :=
  is_ascii_lowercase b || is_ascii_digit b || contains b tchar_symbols.

Definition parse_credential (value : bytes) : result SigV4Error CredentialScope :=
  match split_on (fun b => b ==b x2f) value with
  | [f0; f1; f2; f3; f4] =>
      if existsb is_empty [f0; f1; f2; f3; f4] || negb (f4 ==b TERMINATOR)
         || negb (len f1 =? 8) || negb (forallb is_ascii_digit f1)
      then Err SigV4Error.InvalidCredentialScope
      else Ok {| access_key := f0; scope_date := f1; region := f2; service := f3 |}
  | _ => Err SigV4Error.InvalidCredentialScope
  end.

(** [headers.windows(2).any(|pair| pair[0] >= pair[1])] *)
Fixpoint any_not_increasing (names : list bytes) : bool :=
  match names with
  | a :: rest =>
      match rest with
      | b :: _ => match bytes_cmp a b with Lt => any_not_increasing rest | _ => true end
      | [] => false
      end
  | [] => false
  end.

Definition parse_signed_headers (value : bytes) : result SigV4Error (list bytes) :=
  let names := split_on (fun b => b ==b x3b) value in
  if is_empty names
     || existsb (fun name => is_empty name || negb (forallb is_lowercase_header_token name)) names
     || any_not_increasing names
  then Err SigV4Error.InvalidSignedHeaders
  else Ok names.

(** The three attributes collected by the loop of
    [parse_header_authorization]. *)
Record AuthorizationParts := {
  part_credential : option CredentialScope;
  part_signed_headers : option (list bytes);
  part_signature : option bytes
}.

Definition parse_attribute (parts : AuthorizationParts) (attribute : bytes)
  : result SigV4Error AuthorizationParts :=
  let* (name, value) := ok_or (split_once x3d (str_trim attribute)) SigV4Error.InvalidAuthorization in
  if is_empty value then Err SigV4Error.InvalidAuthorization
  else if (name ==b bs "Credential") && bool_decide (part_credential parts = None) then
    let* c := parse_credential value in
    Ok {| part_credential := Some c; part_signed_headers := part_signed_headers parts;
          part_signature := part_signature parts |}
  else if (name ==b bs "SignedHeaders") && bool_decide (part_signed_headers parts = None) then
    let* names := parse_signed_headers value in
    Ok {| part_credential := part_credential parts; part_signed_headers := Some names;
          part_signature := part_signature parts |}
  else if (name ==b bs "Signature") && bool_decide (part_signature parts = None) then
    let* signature := decode_hex_32 value in
    Ok {| part_credential := part_credential parts;
          part_signed_headers := part_signed_headers parts; part_signature := Some signature |}
  else Err SigV4Error.InvalidAuthorization.

Definition parse_header_authorization (m : HeaderMap) : result SigV4Error HeaderAuthorization :=
  let* found := one_header m (bs "authorization") in
  let* authorization := ok_or found (SigV4Error.MissingHeader (bs "Authorization")) in
  let* authorization := ok_or (from_utf8 authorization) SigV4Error.InvalidUtf8 in
  let* (algorithm, attributes) :=
    ok_or (split_once SP authorization) SigV4Error.InvalidAuthorization in
  if negb (algorithm ==b ALGORITHM) then Err SigV4Error.UnsupportedAlgorithm
  else
    let* parts := fold_result parse_attribute
        {| part_credential := None; part_signed_headers := None; part_signature := None |}
        (split_on (fun b => b ==b x2c) attributes) in
    let* c := ok_or (part_credential parts) SigV4Error.InvalidAuthorization in
    let* names := ok_or (part_signed_headers parts) SigV4Error.InvalidAuthorization in
    let* signature := ok_or (part_signature parts) SigV4Error.InvalidAuthorization in
    Ok {| ha_credential := c; ha_signed_headers := names; ha_signature := signature |}.

Definition parse_presigned_authorization (q : QueryParams) : result SigV4Error PresignedAuthorization :=
  let* algorithm := query_one_str q (bs "X-Amz-Algorithm") in
  if negb (algorithm ==b ALGORITHM) then Err SigV4Error.UnsupportedAlgorithm
  else
    let* expires := query_one_str q (bs "X-Amz-Expires") in
    let* expires_seconds := ok_or (parse_u64 expires) SigV4Error.InvalidExpires in
    if negb (in_range 1 MAX_PRESIGN_EXPIRY_SECONDS expires_seconds)
    then Err SigV4Error.InvalidExpires
    else
      let* value := query_one_str q (bs "X-Amz-Credential") in
      let* credential := parse_credential value in
      let* value := query_one_str q (bs "X-Amz-SignedHeaders") in
      let* signed_headers := parse_signed_headers value in
      let* value := query_one q (bs "X-Amz-Signature") in
      let* signature := decode_hex_32 value in
      let* date := query_one_str q (bs "X-Amz-Date") in
      Ok {| pa_credential := credential; pa_signed_headers := signed_headers;
            pa_signature := signature; pa_amz_date := date;
            pa_expires_seconds := expires_seconds |}.

(** * Validation *)

(** The loop over the signed names: the first one without a field. *)
Fixpoint check_signed_present (m : HeaderMap) (signed : list bytes) : result SigV4Error unit :=
  match signed with
  | [] => Ok tt
  | name :: rest =>
      match HeaderMap_get m name with
      | None => Err (SigV4Error.MissingSignedHeader name)
      | Some _ => check_signed_present m rest
      end
  end.

(** The loop over the fields: the first [x-amz-] field that was not signed. *)
Fixpoint check_amz_signed (signed : list bytes) (fs : list Header) : result SigV4Error unit :=
  match fs with
  | [] => Ok tt
  | field :: rest =>
      if starts_with (header_name field) (bs "x-amz-")
         && negb (header_name field ==b bs "x-amz-content-sha256")
         && negb (existsb (fun name => name ==b header_name field) signed)
      then Err (SigV4Error.UnsignedAmzHeader (header_name field))
      else check_amz_signed signed rest
  end.

Definition validate_signed_headers (m : HeaderMap) (signed : list bytes) : result SigV4Error unit :=
  if negb (existsb (fun name => name ==b bs "host") signed) then Err SigV4Error.InvalidSignedHeaders
  else
    let* _ := check_signed_present m signed in
    check_amz_signed signed (fields m).

Definition validate_scope (credential : CredentialScope) (config : VerificationConfig)
  : result SigV4Error unit :=
  if negb (service credential ==b expected_service config) then Err SigV4Error.ServiceMismatch
  else if match expected_region config with
          | Some r => negb (r ==b region credential)
          | None => false
          end
  then Err SigV4Error.RegionMismatch
  else Ok tt.

Definition as_secs (duration : Z) : Z := duration / nanos_per_sec.

Definition unix_seconds (time : SystemTime) : result SigV4Error Z :=
  if time <? 0 then Err SigV4Error.InvalidTimestamp
  else ok_or (checked i64_min i64_max (as_secs time)) SigV4Error.InvalidTimestamp.

Definition validate_header_time (timestamp : Z) (config : VerificationConfig)
  : result SigV4Error unit :=
  let* t := unix_seconds (now config) in
  if as_secs (max_clock_skew config) <? Z.abs (t - timestamp)
  then Err SigV4Error.RequestTimeTooSkewed
  else Ok tt.

(** [i64::try_from(x).unwrap_or(i64::MAX)] *)
Definition i64_or_max (x : Z) : Z := if in_range i64_min i64_max x then x else i64_max.

Definition validate_presign_time (timestamp expires : Z) (config : VerificationConfig)
  : result SigV4Error unit :=
  let* t := unix_seconds (now config) in
  let skew := i64_or_max (as_secs (max_clock_skew config)) in
  if t <? saturating_sub_i64 timestamp skew then Err SigV4Error.PresignedUrlNotYetValid
  else
    let* expires := ok_or (checked i64_min i64_max expires) SigV4Error.InvalidExpires in
    if saturating_add_i64 timestamp expires <? t then Err SigV4Error.PresignedUrlExpired
    else Ok tt.

(** [u32] arithmetic on at most four digits. *)
Definition decimal (value : bytes) : Z :=
  foldl (fun v b => v * 10 + (bval b - 48)) 0 value.

Definition slice (value : bytes) (from to : nat) : bytes := take (to - from) (drop from value).

Definition parse_amz_timestamp (value : bytes) : result SigV4Error Z :=
  if negb (len value =? 16) || negb (bool_decide (value !! 8%nat = Some x54))
     || negb (bool_decide (value !! 15%nat = Some x5a))
  then Err SigV4Error.InvalidTimestamp
  else if negb (forallb is_ascii_digit (slice value 0 8 ++ slice value 9 15))
  then Err SigV4Error.InvalidTimestamp
  else
    let year := decimal (slice value 0 4) in
    let month := decimal (slice value 4 6) in
    let day := decimal (slice value 6 8) in
    let hour := decimal (slice value 9 11) in
    let minute := decimal (slice value 11 13) in
    let second := decimal (slice value 13 15) in
    if (year <? 1970) || negb (in_range 1 12 month) || (day =? 0)
       || (days_in_month year month <? day) || (23 <? hour) || (59 <? minute) || (59 <? second)
    then Err SigV4Error.InvalidTimestamp
    else
      let days := days_from_civil year month day in
      ok_or (match checked_mul_i64 days 86400 with
             | Some seconds => checked_add_i64 seconds (hour * 3600 + minute * 60 + second)
             | None => None
             end) SigV4Error.InvalidTimestamp.

(** * Signatures *)

Definition string_to_sign (amz_date scope canonical_hash : bytes) : bytes :=
  ALGORITHM ++ LF :: amz_date ++ LF :: scope ++ LF :: hex_lower canonical_hash.

Section Verify.
Context `{Crypto}.

Definition hmac_bytes (key value : bytes) : bytes := hmac_sha256 key value.

Definition verify_hmac (key value signature : bytes) : result SigV4Error unit :=
  if hmac_verify key value signature then Ok tt else Err SigV4Error.SignatureMismatch.

Definition derive_signing_key (secret : bytes) (credential : CredentialScope) : bytes :=
  let initial := bs "AWS4" ++ secret in
  let date_key := hmac_bytes initial (scope_date credential) in
  let region_key := hmac_bytes date_key (region credential) in
  let service_key := hmac_bytes region_key (service credential) in
  hmac_bytes service_key TERMINATOR.

(** [PayloadMode::verify_body] *)
Definition verify_body (mode : PayloadMode) (body : bytes) : result SigV4Error unit :=
  match mode with
  | FullHash expected =>
      if constant_time_eq expected (sha256 body) then Ok tt
      else Err SigV4Error.PayloadHashMismatch
  | UnsignedPayload => Ok tt
  | StreamingSigned | StreamingUnsignedTrailer => Err SigV4Error.StreamingPayloadRequiresDecoder
  end.

Definition text_option (value : option bytes) : result SigV4Error (option bytes) :=
  transpose_map (fun v => ok_or (from_utf8 v) SigV4Error.InvalidUtf8) value.

Definition is_streaming_signed (mode : PayloadMode) : bool :=
  match mode with StreamingSigned => true | _ => false end.

Definition verify_header (request : SigV4Request) (secret_access_key : bytes)
  (config : VerificationConfig) : result SigV4Error VerifiedSignature :=
  let m := req_headers request in
  let* authorization := parse_header_authorization m in
  let cred := ha_credential authorization in
  let signed := ha_signed_headers authorization in
  let* _ := validate_scope cred config in
  let* _ := validate_signed_headers m signed in
  let* found := one_header m (bs "x-amz-date") in
  let* date := ok_or found (SigV4Error.MissingHeader (bs "x-amz-date")) in
  let* date := ok_or (from_utf8 date) SigV4Error.InvalidUtf8 in
  let* signed_time := parse_amz_timestamp date in
  if negb (scope_date cred ==b take 8 date) then Err SigV4Error.InvalidCredentialScope
  else
    let* _ := validate_header_time signed_time config in
    let* found := one_header m (bs "x-amz-content-sha256") in
    let* payload_literal := ok_or found SigV4Error.MissingPayloadHash in
    let* payload_literal := ok_or (from_utf8 payload_literal) SigV4Error.InvalidUtf8 in
    let* mode := PayloadMode_parse payload_literal in
    let* canonical_request := build_canonical_request request signed payload_literal false in
    let hash := sha256 canonical_request in
    let sc := scope cred in
    let sts := string_to_sign date sc hash in
    let key := derive_signing_key secret_access_key cred in
    let* _ := verify_hmac key sts (ha_signature authorization) in
    let* found := one_header m (bs "x-amz-security-token") in
    let* token := text_option found in
    Ok {| credential := cred; signed_headers := signed; payload_mode := mode;
          security_token := token; canonical_request_hash := hash;
          streaming_context :=
            if is_streaming_signed mode then
              Some {| signing_key := key; amz_date := date; credential_scope := sc;
                      seed_signature := ha_signature authorization |}
            else None |}.

Definition verify_presigned (request : SigV4Request) (secret_access_key : bytes)
  (config : VerificationConfig) : result SigV4Error VerifiedSignature :=
  let* authorization := parse_presigned_authorization (req_query request) in
  let cred := pa_credential authorization in
  let signed := pa_signed_headers authorization in
  let date := pa_amz_date authorization in
  let* _ := validate_scope cred config in
  let* _ := validate_signed_headers (req_headers request) signed in
  let* signed_time := parse_amz_timestamp date in
  if negb (scope_date cred ==b take 8 date) then Err SigV4Error.InvalidCredentialScope
  else
    let* _ := validate_presign_time signed_time (pa_expires_seconds authorization) config in
    let* canonical_request :=
      build_canonical_request request signed (bs "UNSIGNED-PAYLOAD") true in
    let hash := sha256 canonical_request in
    let sts := string_to_sign date (scope cred) hash in
    let key := derive_signing_key secret_access_key cred in
    let* _ := verify_hmac key sts (pa_signature authorization) in
    let* found := query_optional_one (req_query request) (bs "X-Amz-Security-Token") in
    let* token := text_option found in
    Ok {| credential := cred; signed_headers := signed; payload_mode := UnsignedPayload;
          security_token := token; canonical_request_hash := hash; streaming_context := None |}.
End Verify.

(** * Timestamps *)

(** The basic format of a timestamp whose extended format is [s]. *)
Definition basic_format (s : bytes) : bytes :=
  slice s 0 4 ++ slice s 5 7 ++ slice s 8 10 ++ bs "T"
  ++ slice s 11 13 ++ slice s 14 16 ++ slice s 17 19 ++ bs "Z".

(** The first second after 9999-12-31T23:59:59Z. *)
Definition end_of_time : Z := 253402300800.

Definition civil_ok (y m d h mi s : Z) : Prop :=
  1970 <= y <= 9999 /\ valid_date y m d /\ 0 <= h <= 23 /\ 0 <= mi <= 59 /\ 0 <= s <= 59.

Definition civil_seconds (y m d h mi s : Z) : Z :=
  days_from_civil y m d * 86400 + (h * 3600 + mi * 60 + s).

Definition render_civil (y m d h mi s : Z) : bytes :=
  pad_zero 4 y ++ pad_zero 2 m ++ pad_zero 2 d ++ bs "T"
  ++ pad_zero 2 h ++ pad_zero 2 mi ++ pad_zero 2 s ++ bs "Z".

Lemma days_in_month_le y m : days_in_month y m <= 31.
Proof. unfold days_in_month. repeat destr_match; lia. Qed.

Lemma january_first_step y : days_from_civil y 1 1 + 365 <= days_from_civil (y + 1) 1 1.
Proof. rewrite !days_from_civil_closed. cbv zeta. cbn. replace (y + 1 - 1) with y by lia. euclid. Qed.

Lemma january_first_mono y z : y <= z -> days_from_civil y 1 1 <= days_from_civil z 1 1.
Proof.
  intros H. replace z with (y + Z.of_nat (Z.to_nat (z - y))) by lia.
  generalize (Z.to_nat (z - y)). clear. induction n as [|n IH]; [rewrite Z.add_0_r; lia|].
  rewrite Nat2Z.inj_succ. pose proof (january_first_step (y + Z.of_nat n)).
  replace (y + Z.succ (Z.of_nat n)) with (y + Z.of_nat n + 1) by lia. lia.
Qed.

Lemma year_bounds y m d : valid_date y m d ->
  days_from_civil y 1 1 <= days_from_civil y m d < days_from_civil (y + 1) 1 1.
Proof.
  intros [Hm Hd]. pose proof (february y) as Hf. rewrite !days_from_civil_closed. cbv zeta.
  replace (y + 1 - (if 1 <=? 2 then 1 else 0)) with y by (cbn; lia).
  each_month Hm; try rewrite Hf in Hd;
    try (change (days_in_month y _) with 31 in Hd || change (days_in_month y _) with 30 in Hd);
    cbn [Z.leb Z.ltb Z.compare Pos.compare Pos.compare_cont]; rewrite ?Z.sub_0_r; clear Hf; euclid.
Qed.

Lemma epoch_years y m d : valid_date y m d ->
  0 <= days_from_civil y m d < 2932897 <-> 1970 <= y <= 9999.
Proof.
  intros Hv. pose proof (year_bounds y m d Hv) as Hb.
  assert (E1 : days_from_civil 1970 1 1 = 0) by done.
  assert (E2 : days_from_civil 10000 1 1 = 2932897) by done.
  split; intros Hr; split.
  - destruct (Z.le_gt_cases 1970 y); [done|]. pose proof (january_first_mono (y + 1) 1970). lia.
  - destruct (Z.le_gt_cases y 9999); [done|]. pose proof (january_first_mono 10000 y). lia.
  - pose proof (january_first_mono 1970 y). lia.
  - pose proof (january_first_mono (y + 1) 10000). lia.
Qed.

Lemma explicit_2 (l : bytes) : length l = 2%nat -> exists a b, l = [a; b].
Proof. destruct l as [|a [|b [|]]]; try done. eauto. Qed.

Lemma explicit_4 (l : bytes) : length l = 4%nat -> exists a b c d, l = [a; b; c; d].
Proof. destruct l as [|a [|b [|c [|d [|]]]]]; try done. eauto 10. Qed.

Lemma decimal_dec_value l : decimal l = dec_value l.
Proof. done. Qed.

(** A padded field of a timestamp. *)
Ltac pad_field w n H :=
  let L := fresh "L" in let D := fresh "D" in let V := fresh "V" in
  destruct (pad_zero_spec w n H ltac:(lia)) as (L & D & V).

(** The fields of a timestamp with its fixed letters in place. *)
Definition timestamp_of_fields (year month day hour minute second : Z) : result SigV4Error Z :=
  if (year <? 1970) || negb (in_range 1 12 month) || (day =? 0)
     || (days_in_month year month <? day) || (23 <? hour) || (59 <? minute) || (59 <? second)
  then Err SigV4Error.InvalidTimestamp
  else
    ok_or (match checked_mul_i64 (days_from_civil year month day) 86400 with
           | Some seconds => checked_add_i64 seconds (hour * 3600 + minute * 60 + second)
           | None => None
           end) SigV4Error.InvalidTimestamp.

Lemma parse_explicit_timestamp y1 y2 y3 y4 m1 m2 d1 d2 h1 h2 i1 i2 s1 s2 :
  parse_amz_timestamp [y1; y2; y3; y4; m1; m2; d1; d2; x54; h1; h2; i1; i2; s1; s2; x5a] =
  if negb (forallb is_ascii_digit [y1; y2; y3; y4; m1; m2; d1; d2; h1; h2; i1; i2; s1; s2])
  then Err SigV4Error.InvalidTimestamp
  else timestamp_of_fields (dec_value [y1; y2; y3; y4]) (dec_value [m1; m2]) (dec_value [d1; d2])
         (dec_value [h1; h2]) (dec_value [i1; i2]) (dec_value [s1; s2]).
Proof. reflexivity. Qed.

Lemma timestamp_of_fields_Ok y m d h mi s t :
  0 <= y <= 9999 -> 0 <= h -> 0 <= mi -> 0 <= s -> 0 <= d ->
  timestamp_of_fields y m d h mi s = Ok t <->
  civil_ok y m d h mi s /\ t = civil_seconds y m d h mi s.
Proof.
  intros Hy Hh Hmi Hs Hd. unfold timestamp_of_fields, civil_ok, civil_seconds, valid_date.
  destruct (_ || _) eqn:E.
  - split; [done|]. intros [H _]. exfalso. unfold in_range in E.
    rewrite !orb_true_iff, negb_true_iff, andb_false_iff, !Z.ltb_lt, Z.eqb_eq, !Z.leb_gt in E. lia.
  - unfold in_range in E. bool_hyps.
    assert (Hv : valid_date y m d) by (split; lia).
    assert (Hdays : 0 <= days_from_civil y m d < 2932897) by (apply epoch_years; [done|lia]).
    unfold checked_mul_i64, checked_add_i64.
    rewrite !checked_in by (unfold i64_min, i64_max; lia). cbn [ok_or].
    split; [intros [= <-]|intros [_ ->]; done]. split; [|done]. split_and!; lia.
Qed.

Lemma parse_render_civil y m d h mi s :
  civil_ok y m d h mi s ->
  parse_amz_timestamp (render_civil y m d h mi s) = Ok (civil_seconds y m d h mi s).
Proof.
  intros (Hy & Hd & Hh & Hmi & Hs). pose proof Hd as [Hm Hday].
  pose proof (days_in_month_le y m) as Hle.
  assert (Hp4 : 0 <= y < 10 ^ Z.of_nat 4) by (change (10 ^ Z.of_nat 4) with 10000; lia).
  pad_field 4%nat y Hp4.
  assert (Hp : forall n, 0 <= n < 100 -> 0 <= n < 10 ^ Z.of_nat 2) by (intros; simpl; lia).
  pad_field 2%nat m (Hp m ltac:(lia)). pad_field 2%nat d (Hp d ltac:(lia)).
  pad_field 2%nat h (Hp h ltac:(lia)). pad_field 2%nat mi (Hp mi ltac:(lia)).
  pad_field 2%nat s (Hp s ltac:(lia)).
  unfold render_civil.
  destruct (explicit_4 _ L) as (y1 & y2 & y3 & y4 & Ey), (explicit_2 _ L0) as (m1 & m2 & Em),
    (explicit_2 _ L1) as (d1 & d2 & Ed), (explicit_2 _ L2) as (h1 & h2 & Eh),
    (explicit_2 _ L3) as (i1 & i2 & Ei), (explicit_2 _ L4) as (s1 & s2 & Es).
  rewrite Ey, Em, Ed, Eh, Ei, Es in *.
  change (parse_amz_timestamp _) with (parse_amz_timestamp
    [y1; y2; y3; y4; m1; m2; d1; d2; x54; h1; h2; i1; i2; s1; s2; x5a]).
  rewrite parse_explicit_timestamp, V, V0, V1, V2, V3, V4.
  assert (Hdig : forallb is_ascii_digit [y1; y2; y3; y4; m1; m2; d1; d2; h1; h2; i1; i2; s1; s2] = true).
  { clear -D D0 D1 D2 D3 D4. cbn [forallb] in *. bool_hyps.
    repeat (apply andb_true_intro; split; [done|]). done. }
  rewrite Hdig. cbn [negb]. by apply timestamp_of_fields_Ok; [lia..|].
Qed.

Lemma explicit_16 (l : bytes) : length l = 16%nat ->
  exists a b c d e f g h i j k m n o p q, l = [a; b; c; d; e; f; g; h; i; j; k; m; n; o; p; q].
Proof.
  intros H. do 16 (destruct l as [|? l]; [done|]). destruct l; [|done]. by do 16 eexists.
Qed.

(** A digit string is the padded rendering of its value. *)
Lemma pad_dec_value l : l <> [] -> forallb is_ascii_digit l = true ->
  0 <= dec_value l < 10 ^ Z.of_nat (length l) -> pad_zero (length l) (dec_value l) = l.
Proof.
  intros Hl Hd Hr. assert (0 < length l)%nat by (destruct l; [done|simpl; lia]).
  destruct (pad_zero_spec (length l) (dec_value l) Hr) as (HL & HD & HV); [done|].
  by apply dec_value_inj.
Qed.

Lemma dec_value_bound l : forallb is_ascii_digit l = true ->
  0 <= dec_value l < 10 ^ Z.of_nat (length l).
Proof.
  induction l as [|b l IH] using rev_ind; [done|]. rewrite forallb_app, andb_true_iff. simpl.
  rewrite andb_true_r. intros [Hl Hb%is_ascii_digit_value]. specialize (IH Hl).
  rewrite dec_value_snoc, length_app, Nat2Z.inj_add. change (Z.of_nat (length [b])) with 1.
  rewrite Z.pow_add_r by lia. change (10 ^ 1) with 10. lia.
Qed.

Lemma pad_digits l : l <> [] -> forallb is_ascii_digit l = true ->
  pad_zero (length l) (dec_value l) = l.
Proof. intros. apply pad_dec_value; [done..|by apply dec_value_bound]. Qed.

Lemma parse_amz_inv v t : parse_amz_timestamp v = Ok t ->
  exists y m d h mi s, civil_ok y m d h mi s /\ v = render_civil y m d h mi s
    /\ t = civil_seconds y m d h mi s.
Proof.
  intros H. assert (Hlen : length v = 16%nat).
  { unfold parse_amz_timestamp, len in H.
    destruct (Z.eqb_spec (Z.of_nat (length v)) 16); [lia|done]. }
  destruct (explicit_16 v Hlen) as
    (y1 & y2 & y3 & y4 & m1 & m2 & d1 & d2 & T & h1 & h2 & i1 & i2 & s1 & s2 & Zb & ->).
  assert (T = x54 /\ Zb = x5a) as [-> ->].
  { unfold parse_amz_timestamp in H. destruct (_ || _) eqn:E in H; [done|]. bool_hyps.
    cbn in *. by simplify_eq. }
  rewrite parse_explicit_timestamp in H. destruct (negb (forallb _ _)) eqn:Hd; [done|].
  apply negb_false_iff in Hd. cbn [forallb] in Hd. bool_hyps.
  assert (Hy4 : forallb is_ascii_digit [y1; y2; y3; y4] = true) by (cbn [forallb]; by rewrite !andb_true_iff).
  assert (Hpair : forall a b, is_ascii_digit a = true -> is_ascii_digit b = true ->
    pad_zero 2 (dec_value [a; b]) = [a; b] /\ 0 <= dec_value [a; b]).
  { intros a b Ha Hb. assert (Hab : forallb is_ascii_digit [a; b] = true) by (cbn [forallb]; by rewrite Ha, Hb).
    split; [by apply (pad_digits [a; b])|]. by apply dec_value_nonneg. }
  pose proof (dec_value_bound _ Hy4) as Hy. change (10 ^ Z.of_nat _) with 10000 in Hy.
  apply timestamp_of_fields_Ok in H as [Hok ->]; [|lia|by apply Hpair..].
  do 6 eexists. split; [exact Hok|]. split; [|done]. unfold render_civil.
  rewrite (pad_digits [y1; y2; y3; y4] ltac:(done) Hy4 : pad_zero 4 _ = _).
  assert (Hpad : forall a b, is_ascii_digit a = true -> is_ascii_digit b = true ->
    pad_zero 2 (dec_value [a; b]) = [a; b]) by (intros; by apply Hpair).
  rewrite !Hpad by done. done.
Qed.

Lemma civil_seconds_split y m d h mi s : civil_ok y m d h mi s ->
  let t := civil_seconds y m d h mi s in
  0 <= t < end_of_time /\ t / 86400 = days_from_civil y m d /\
  t mod 86400 / 3600 = h /\ t mod 86400 mod 3600 / 60 = mi /\ t mod 86400 mod 60 = s.
Proof.
  intros (Hy & Hv & Hh & Hmi & Hs). apply (epoch_years y m d Hv) in Hy.
  unfold civil_seconds, end_of_time. cbv zeta. generalize dependent (days_from_civil y m d). intros n Hn.
  split; [lia|]. clear Hv. Z.to_euclidean_division_equations. lia.
Qed.

Lemma iso8601_civil y m d h mi s : civil_ok y m d h mi s ->
  basic_format (iso8601 (civil_seconds y m d h mi s * 1000)) = render_civil y m d h mi s.
Proof.
  intros Hok. destruct (civil_seconds_split _ _ _ _ _ _ Hok) as (Ht & Ed & Eh & Em & Es).
  set (t := civil_seconds y m d h mi s) in *.
  destruct Hok as (Hy & Hd & Hh & Hmi & Hs). pose proof Hd as [Hm Hday].
  pose proof (days_in_month_le y m) as Hle.
  unfold iso8601. rewrite Z.div_mul, Z_mod_mult by lia. rewrite Ed, civil_from_days_of_date by done.
  rewrite Eh, Em, Es.
  assert (Hp4 : 0 <= y < 10 ^ Z.of_nat 4) by (change (10 ^ Z.of_nat 4) with 10000; lia).
  pad_field 4%nat y Hp4.
  assert (Hp : forall n, 0 <= n < 100 -> 0 <= n < 10 ^ Z.of_nat 2) by (intros; simpl; lia).
  pad_field 2%nat m (Hp m ltac:(lia)). pad_field 2%nat d (Hp d ltac:(lia)).
  pad_field 2%nat h (Hp h ltac:(lia)). pad_field 2%nat mi (Hp mi ltac:(lia)).
  pad_field 2%nat s (Hp s ltac:(lia)). unfold render_civil.
  destruct (explicit_4 _ L) as (y1 & y2 & y3 & y4 & ->), (explicit_2 _ L0) as (m1 & m2 & ->),
    (explicit_2 _ L1) as (d1 & d2 & ->), (explicit_2 _ L2) as (h1 & h2 & ->),
    (explicit_2 _ L3) as (i1 & i2 & ->), (explicit_2 _ L4) as (s1 & s2 & ->). done.
Qed.

Lemma civil_of_seconds t : 0 <= t < end_of_time ->
  exists y m d h mi s, civil_ok y m d h mi s /\ t = civil_seconds y m d h mi s.
Proof.
  unfold end_of_time. intros Ht. pose proof (date_of_days (t / 86400)) as Hd.
  destruct (civil_from_days (t / 86400)) as [[y m] d]. destruct Hd as [Hv Hd].
  exists y, m, d, (t mod 86400 / 3600), (t mod 86400 mod 3600 / 60), (t mod 86400 mod 60).
  unfold civil_ok, civil_seconds. rewrite Hd. split_and!; try done; try euclid.
  all: apply (epoch_years y m d Hv); rewrite Hd; euclid.
Qed.

(** * Specifications *)

Definition scope_ok (c : CredentialScope) (config : VerificationConfig) : Prop :=
  service c = expected_service config /\
  forall r, expected_region config = Some r -> region c = r.

(** The host and every [x-amz-] header but the payload hash are signed, and
    every signed header is present. *)
Definition headers_covered (m : HeaderMap) (signed : list bytes) : Prop :=
  bs "host" ∈ signed /\
  (forall n, n ∈ signed -> HeaderMap_get_all m n <> []) /\
  (forall f, f ∈ fields m -> starts_with (header_name f) (bs "x-amz-") = true ->
     header_name f <> bs "x-amz-content-sha256" -> header_name f ∈ signed).

(** The server clock reads a time that fits an [i64] of Unix seconds. *)
Definition clock_ok (config : VerificationConfig) : Prop :=
  0 <= now config /\ as_secs (now config) <= i64_max.

Definition within_skew (t : Z) (config : VerificationConfig) : Prop :=
  clock_ok config /\ Z.abs (as_secs (now config) - t) <= as_secs (max_clock_skew config).

(** A presigned URL lives from [skew] seconds before its date to [expires]
    seconds after it. *)
Definition within_presign_window (t expires : Z) (config : VerificationConfig) : Prop :=
  clock_ok config /\ t - as_secs (max_clock_skew config) <= as_secs (now config) <= t + expires.

Section Spec.
Context `{Crypto}.

(** The tag the code computes for a canonical request. *)
Definition computed_tag (secret : bytes) (c : CredentialScope) (date canonical_request : bytes) : bytes :=
  hmac_sha256 (derive_signing_key secret c)
    (string_to_sign date (scope c) (sha256 canonical_request)).

(** The conditions under which the code accepts, as a conjunction. *)
Definition accepted_header (req : SigV4Request) (secret : bytes) (config : VerificationConfig)
  (v : VerifiedSignature) : Prop :=
  exists auth date t literal canonical,
    parse_header_authorization (req_headers req) = Ok auth /\
    scope_ok (ha_credential auth) config /\
    headers_covered (req_headers req) (ha_signed_headers auth) /\
    HeaderMap_get_all (req_headers req) (bs "x-amz-date") = [date] /\ utf8_valid date = true /\
    parse_amz_timestamp date = Ok t /\ scope_date (ha_credential auth) = take 8 date /\
    within_skew t config /\
    HeaderMap_get_all (req_headers req) (bs "x-amz-content-sha256") = [literal] /\
    utf8_valid literal = true /\ PayloadMode_parse literal = Ok (payload_mode v) /\
    build_canonical_request req (ha_signed_headers auth) literal false = Ok canonical /\
    ha_signature auth = computed_tag secret (ha_credential auth) date canonical /\
    (exists found, one_header (req_headers req) (bs "x-amz-security-token") = Ok found /\
                   text_option found = Ok (security_token v)) /\
    credential v = ha_credential auth /\ signed_headers v = ha_signed_headers auth /\
    canonical_request_hash v = sha256 canonical /\
    streaming_context v =
      (if is_streaming_signed (payload_mode v) then
         Some {| signing_key := derive_signing_key secret (ha_credential auth); amz_date := date;
                 credential_scope := scope (ha_credential auth); seed_signature := ha_signature auth |}
       else None).

Definition accepted_presigned (req : SigV4Request) (secret : bytes) (config : VerificationConfig)
  (v : VerifiedSignature) : Prop :=
  exists auth t canonical,
    parse_presigned_authorization (req_query req) = Ok auth /\
    1 <= pa_expires_seconds auth <= 604800 /\
    scope_ok (pa_credential auth) config /\
    headers_covered (req_headers req) (pa_signed_headers auth) /\
    parse_amz_timestamp (pa_amz_date auth) = Ok t /\
    scope_date (pa_credential auth) = take 8 (pa_amz_date auth) /\
    within_presign_window t (pa_expires_seconds auth) config /\
    build_canonical_request req (pa_signed_headers auth) (bs "UNSIGNED-PAYLOAD") true = Ok canonical /\
    pa_signature auth = computed_tag secret (pa_credential auth) (pa_amz_date auth) canonical /\
    (exists found, query_optional_one (req_query req) (bs "X-Amz-Security-Token") = Ok found /\
                   text_option found = Ok (security_token v)) /\
    payload_mode v = UnsignedPayload /\ streaming_context v = None /\
    credential v = pa_credential auth /\ signed_headers v = pa_signed_headers auth /\
    canonical_request_hash v = sha256 canonical.
End Spec.

(** * Lemmas: the validators *)

Lemma validate_scope_Ok c config : validate_scope c config = Ok tt <-> scope_ok c config.
Proof.
  unfold validate_scope, scope_ok. case_bool_decide as Hs; cbn [negb]; [|naive_solver].
  destruct (expected_region config) as [r|]; [|naive_solver].
  case_bool_decide as Hr; cbn [negb]; naive_solver.
Qed.

Lemma check_signed_present_Ok m signed :
  check_signed_present m signed = Ok tt <-> forall n, n ∈ signed -> HeaderMap_get_all m n <> [].
Proof.
  induction signed as [|n signed IH]; cbn [check_signed_present].
  - split; [|done]. by intros _ n ?%elem_of_nil.
  - rewrite HeaderMap_get_hd. destruct (HeaderMap_get_all m n) as [|v vs] eqn:E; cbn [hd_error].
    + split; [done|]. intros Hall. by destruct (Hall n ltac:(left)).
    + rewrite IH. setoid_rewrite elem_of_cons. split; [|by eauto].
      intros Hall k [-> |Hk]; [by rewrite E|by apply Hall].
Qed.

Lemma check_amz_signed_Ok signed fs :
  check_amz_signed signed fs = Ok tt <->
  forall f, f ∈ fs -> starts_with (header_name f) (bs "x-amz-") = true ->
    header_name f <> bs "x-amz-content-sha256" -> header_name f ∈ signed.
Proof.
  assert (Hex : forall n, existsb (fun name => name ==b n) signed = true <-> n ∈ signed)
    by (intros n; apply (contains_true' n signed)).
  induction fs as [|f fs IH]; cbn [check_amz_signed].
  - split; [|done]. by intros _ f ?%elem_of_nil.
  - setoid_rewrite elem_of_cons. destruct (_ && _) eqn:E.
    + split; [done|]. intros Hall. bool_hyps. apply not_true_iff_false in H0. rewrite Hex in H0.
      destruct H0. apply Hall; auto.
    + rewrite IH. split; [|by eauto]. intros Hall g [-> |Hg] Hx Hn; [|by apply Hall].
      rewrite Hx in E. rewrite bool_decide_false in E by done. cbn [negb andb] in E.
      apply Hex. by apply negb_false_iff in E.
Qed.

Lemma validate_signed_headers_Ok m signed :
  validate_signed_headers m signed = Ok tt <-> headers_covered m signed.
Proof.
  unfold validate_signed_headers, headers_covered. rewrite <- check_signed_present_Ok, <- check_amz_signed_Ok.
  rewrite <- (contains_true' (bs "host") signed).
  destruct (existsb _ signed); cbn [negb]; [|naive_solver].
  destruct (check_signed_present m signed) as [[]|]; naive_solver.
Qed.

Lemma unix_seconds_Ok config t : unix_seconds (now config) = Ok t <-> clock_ok config /\ t = as_secs (now config).
Proof.
  unfold unix_seconds, clock_ok. destruct (Z.ltb_spec (now config) 0); [split; [done|lia]|].
  rewrite ok_or_Ok, checked_Some. assert (0 <= as_secs (now config)) by (apply Z.div_pos; done).
  assert (i64_min <= 0) by done. split; [intros [-> ?]; split; [split|]; lia|]. intros [[_ ?] ->]. lia.
Qed.

Lemma validate_header_time_Ok t config :
  validate_header_time t config = Ok tt <-> within_skew t config.
Proof.
  unfold validate_header_time, within_skew. destruct (unix_seconds (now config)) as [n|] eqn:E.
  - apply unix_seconds_Ok in E as [Hc ->]. destruct (Z.ltb_spec (as_secs (max_clock_skew config))
      (Z.abs (as_secs (now config) - t))); [split; [done|lia]|done].
  - split; [done|]. intros [Hc _]. by rewrite (proj2 (unix_seconds_Ok config _) (conj Hc eq_refl)) in E.
Qed.

Lemma validate_presign_time_Ok t expires config :
  0 <= t < end_of_time -> 1 <= expires <= 604800 -> 0 <= max_clock_skew config ->
  validate_presign_time t expires config = Ok tt <-> within_presign_window t expires config.
Proof.
  intros Ht He Hs. unfold validate_presign_time, within_presign_window, end_of_time in *.
  assert (Hk : 0 <= as_secs (max_clock_skew config)) by (apply Z.div_pos; done).
  destruct (unix_seconds (now config)) as [n|] eqn:E.
  2:{ split; [done|]. intros [Hc _]. by rewrite (proj2 (unix_seconds_Ok config _) (conj Hc eq_refl)) in E. }
  apply unix_seconds_Ok in E as [[Hc Hm] ->].
  assert (Hn : 0 <= as_secs (now config)) by (apply Z.div_pos; done).
  set (n := as_secs (now config)) in *. set (k := as_secs (max_clock_skew config)) in *.
  rewrite checked_in by (unfold i64_min, i64_max; lia). cbn [ok_or].
  assert (Hlow : (n <? saturating_sub_i64 t (i64_or_max k)) = (n <? t - k)).
  { unfold saturating_sub_i64, clamp_i64, i64_or_max, in_range, i64_min, i64_max in *.
    destruct (Z.leb_spec k 9223372036854775807); cbn [andb];
      [replace (-9223372036854775808 <=? k) with true by (symmetry; apply Z.leb_le; lia); cbn [andb]|
       rewrite andb_false_r];
      apply eq_bool_prop_intro; rewrite !Is_true_true, !Z.ltb_lt; lia. }
  replace (saturating_add_i64 t expires) with (t + expires)
    by (unfold saturating_add_i64, clamp_i64, i64_min, i64_max; lia).
  rewrite Hlow. unfold clock_ok. fold n.
  destruct (Z.ltb_spec n (t - k)), (Z.ltb_spec (t + expires) n); split; try done; lia.
Qed.

Lemma one_header_Some m n v : one_header m n = Ok (Some v) <-> HeaderMap_get_all m n = [v].
Proof. unfold one_header. destruct (HeaderMap_get_all m n) as [|? [|]]; naive_solver. Qed.

Lemma parse_amz_range v t : parse_amz_timestamp v = Ok t -> 0 <= t < end_of_time.
Proof.
  intros (y & m & d & h & mi & s & Hok & _ & ->)%parse_amz_inv. by apply civil_seconds_split.
Qed.

Lemma parse_presigned_expires q auth :
  parse_presigned_authorization q = Ok auth -> 1 <= pa_expires_seconds auth <= 604800.
Proof.
  unfold parse_presigned_authorization. intros Hp.
  destruct (query_one_str q (bs "X-Amz-Algorithm")); [|done]. destruct (negb _); [done|].
  destruct (query_one_str q (bs "X-Amz-Expires")); [|done].
  destruct (ok_or _ _) as [e|]; [|done]. destruct (in_range 1 MAX_PRESIGN_EXPIRY_SECONDS e) eqn:E; [|done].
  cbn [negb] in Hp. repeat destr_match_in Hp; try done. injection Hp as <-. simpl.
  unfold MAX_PRESIGN_EXPIRY_SECONDS in E. bool_hyps. lia.
Qed.

(** Names accepted in a SignedHeaders list can be told apart in a canonical request. *)
Lemma parse_signed_headers_names v s : parse_signed_headers v = Ok s -> Forall signed_name s.
Proof.
  unfold parse_signed_headers. destruct (_ || _) eqn:E; [done|]. intros [= <-].
  apply orb_false_elim in E as [E _]. apply orb_false_elim in E as [_ Hex].
  apply Forall_forall. intros n Hn.
  assert (Hg : is_empty n || negb (forallb is_lowercase_header_token n) = false).
  { apply not_true_iff_false. intros Ht. apply not_true_iff_false in Hex. apply Hex.
    apply existsb_exists. exists n. split; [by apply list_elem_of_In|done]. }
  apply orb_false_elim in Hg as [Hne Htok]. guards. unfold signed_name.
  assert (Ht : forall b, is_lowercase_header_token b = true -> b <> x3a /\ b <> LF).
  { intros b. by_bytes (fun b => implb (is_lowercase_header_token b)
      (negb (b ==b x3a) && negb (b ==b LF))) b. intros Eb. rewrite Eb in H. cbn [implb] in H.
    by bool_hyps. }
  split_and!; [done|intros Hin; by apply (forallb_elem _ _ _ Htok), Ht in Hin as [? ?]..].
Qed.

Lemma fold_attribute_signed l parts parts' :
  fold_result parse_attribute parts l = Ok parts' ->
  (forall s, part_signed_headers parts = Some s -> Forall signed_name s) ->
  forall s, part_signed_headers parts' = Some s -> Forall signed_name s.
Proof.
  revert parts. induction l as [|a l IH]; intros parts Hf Hp; cbn [fold_result] in Hf; [by simplify_eq|].
  destruct (parse_attribute parts a) as [p1|] eqn:E; [|done]. eapply IH; [exact Hf|].
  unfold parse_attribute in E. destruct (ok_or _ _) as [[n v]|]; [|done].
  repeat destr_match_in E; simplify_eq; try done; simpl; intros s Hs; simplify_eq;
    eauto using parse_signed_headers_names.
Qed.

Lemma parse_header_authorization_signed m auth :
  parse_header_authorization m = Ok auth -> Forall signed_name (ha_signed_headers auth).
Proof.
  unfold parse_header_authorization. intros Hp.
  destruct (one_header m _); [|done]. destruct (ok_or _ _); [|done].
  destruct (ok_or (from_utf8 _) _); [|done]. destruct (ok_or (split_once _ _) _) as [[alg attrs]|]; [|done].
  destruct (negb _); [done|]. destruct (fold_result _ _ _) as [parts|] eqn:Ef; [|done].
  destruct (ok_or (part_credential parts) _); [|done].
  destruct (part_signed_headers parts) as [s|] eqn:Es; [|done].
  destruct (ok_or (part_signature parts) _); [|done]. cbn [ok_or] in Hp. injection Hp as <-. simpl.
  eapply fold_attribute_signed; [exact Ef|by simpl|done].
Qed.

Section VerifyLemmas.
Context `{Crypto}.

Lemma verify_hmac_Ok k m tag : verify_hmac k m tag = Ok tt <-> tag = hmac_sha256 k m.
Proof.
  unfold verify_hmac. rewrite <- hmac_verify_spec. destruct (hmac_verify k m tag); naive_solver.
Qed.

Lemma verify_header_iff req secret config v :
  verify_header req secret config = Ok v <-> accepted_header req secret config v.
Proof.
  unfold verify_header, accepted_header. split.
  - intros Hv. destruct (parse_header_authorization _) as [auth|] eqn:Ea; [|done].
    destruct (validate_scope _ _) as [[]|] eqn:Es; [|done]. apply validate_scope_Ok in Es.
    destruct (validate_signed_headers _ _) as [[]|] eqn:Eh; [|done]. apply validate_signed_headers_Ok in Eh.
    destruct (one_header _ (bs "x-amz-date")) as [[date|]|] eqn:Ed; [|done..]. apply one_header_Some in Ed.
    cbn [ok_or] in Hv. destruct (from_utf8 date) as [date'|] eqn:Eu; [|done]. cbn [ok_or] in Hv.
    apply from_utf8_Some in Eu as [Eu ->].
    destruct (parse_amz_timestamp date) as [t|] eqn:Et; [|done].
    case_bool_decide as Edate; [|done]. cbn [negb] in Hv.
    destruct (validate_header_time t config) as [[]|] eqn:Ew; [|done]. apply validate_header_time_Ok in Ew.
    destruct (one_header _ (bs "x-amz-content-sha256")) as [[lit|]|] eqn:El; [|done..].
    apply one_header_Some in El. cbn [ok_or] in Hv.
    destruct (from_utf8 lit) as [lit'|] eqn:Eul; [|done]. cbn [ok_or] in Hv.
    apply from_utf8_Some in Eul as [Eul ->].
    destruct (PayloadMode_parse lit) as [mode|] eqn:Em; [|done].
    destruct (build_canonical_request _ _ _ _) as [c|] eqn:Ec; [|done].
    destruct (verify_hmac _ _ _) as [[]|] eqn:Eg; [|done]. apply verify_hmac_Ok in Eg.
    destruct (one_header _ (bs "x-amz-security-token")) as [found|] eqn:Ef; [|done].
    destruct (text_option found) as [token|] eqn:Etk; [|done]. injection Hv as <-.
    exists auth, date, t, lit, c. simpl. split_and!; eauto.
  - intros (auth & date & t & lit & c & -> & Hs & Hh & Hd & Hu & Ht & Hdate & Hw & Hl & Hul & Hm & Hc & Hg
            & (found & Hf & Htk) & E1 & E2 & E3 & E4).
    rewrite (proj2 (validate_scope_Ok _ _) Hs), (proj2 (validate_signed_headers_Ok _ _) Hh).
    rewrite (proj2 (one_header_Some _ _ _) Hd). cbn [ok_or].
    rewrite (proj2 (from_utf8_Some date date) (conj Hu eq_refl)). cbn [ok_or].
    rewrite Ht, bool_decide_true by done. cbn [negb].
    rewrite (proj2 (validate_header_time_Ok _ _) Hw), (proj2 (one_header_Some _ _ _) Hl). cbn [ok_or].
    rewrite (proj2 (from_utf8_Some lit lit) (conj Hul eq_refl)). cbn [ok_or].
    rewrite Hm, Hc, (proj2 (verify_hmac_Ok _ _ _) Hg), Hf, Htk.
    destruct v; simpl in *. by subst.
Qed.

Lemma verify_presigned_iff req secret config v : 0 <= max_clock_skew config ->
  verify_presigned req secret config = Ok v <-> accepted_presigned req secret config v.
Proof.
  intros Hskew. unfold verify_presigned, accepted_presigned. split.
  - intros Hv. destruct (parse_presigned_authorization _) as [auth|] eqn:Ea; [|done].
    pose proof (parse_presigned_expires _ _ Ea) as Hexp.
    destruct (validate_scope _ _) as [[]|] eqn:Es; [|done]. apply validate_scope_Ok in Es.
    destruct (validate_signed_headers _ _) as [[]|] eqn:Eh; [|done]. apply validate_signed_headers_Ok in Eh.
    destruct (parse_amz_timestamp _) as [t|] eqn:Et; [|done].
    case_bool_decide as Edate; [|done]. cbn [negb] in Hv.
    destruct (validate_presign_time _ _ _) as [[]|] eqn:Ew; [|done].
    apply validate_presign_time_Ok in Ew; [|by eapply parse_amz_range|done..].
    destruct (build_canonical_request _ _ _ _) as [c|] eqn:Ec; [|done].
    destruct (verify_hmac _ _ _) as [[]|] eqn:Eg; [|done]. apply verify_hmac_Ok in Eg.
    destruct (query_optional_one _ (bs "X-Amz-Security-Token")) as [found|] eqn:Ef; [|done].
    destruct (text_option found) as [token|] eqn:Etk; [|done]. injection Hv as <-.
    exists auth, t, c. simpl. split_and!; eauto; lia.
  - intros (auth & t & c & -> & Hexp & Hs & Hh & Ht & Hdate & Hw & Hc & Hg
            & (found & Hf & Htk) & E1 & E2 & E3 & E4 & E5).
    rewrite (proj2 (validate_scope_Ok _ _) Hs), (proj2 (validate_signed_headers_Ok _ _) Hh), Ht.
    rewrite bool_decide_true by done. cbn [negb].
    rewrite (proj2 (validate_presign_time_Ok _ _ _ (parse_amz_range _ _ Ht) Hexp Hskew) Hw).
    rewrite Hc, (proj2 (verify_hmac_Ok _ _ _) Hg), Hf, Htk.
    destruct v; simpl in *. by subst.
Qed.
End VerifyLemmas.

(** * What a signature binds *)

Section Binding.
Context `{Crypto}.

(** The HMAC key and message and the canonical request a signature is
    computed from. *)
Definition signing_inputs (req : SigV4Request) (secret : bytes) : option (bytes * bytes * bytes) :=
  match parse_header_authorization (req_headers req),
        HeaderMap_get_all (req_headers req) (bs "x-amz-date"),
        HeaderMap_get_all (req_headers req) (bs "x-amz-content-sha256") with
  | Ok auth, [date], [literal] =>
      match build_canonical_request req (ha_signed_headers auth) literal false with
      | Ok c => Some (derive_signing_key secret (ha_credential auth),
                      string_to_sign date (scope (ha_credential auth)) (sha256 c), c)
      | Err _ => None
      end
  | _, _, _ => None
  end.

(** Neither HMAC nor SHA-256 collides on these two inputs. *)
Definition no_collision (x y : bytes * bytes * bytes) : Prop :=
  let '(k, m, c) := x in let '(k', m', c') := y in
  (hmac_sha256 k m = hmac_sha256 k' m' -> k = k' /\ m = m') /\ (sha256 c = sha256 c' -> c = c').

Lemma string_to_sign_inj d d' s s' h h' :
  length d = length d' -> length h = length h' ->
  string_to_sign d s h = string_to_sign d' s' h' -> d = d' /\ s = s' /\ h = h'.
Proof.
  intros Hd Hh E. unfold string_to_sign in E. apply app_inv_head in E. injection E as E.
  apply app_inj_1 in E as [-> E]; [|done]. injection E as E.
  rewrite !cons_middle, !app_assoc in E. apply app_inj_2 in E as [E Eh].
  - apply app_inj_tail in E as [-> _]. split_and!; [done..|].
    pose proof (decode_hex_lower h) as Hl. rewrite Eh, decode_hex_lower in Hl. congruence.
  - rewrite !length_hex_lower. lia.
Qed.

Lemma parse_amz_length v t : parse_amz_timestamp v = Ok t -> length v = 16%nat.
Proof.
  unfold parse_amz_timestamp, len. destruct (Z.eqb_spec (Z.of_nat (length v)) 16); [lia|done].
Qed.

End Binding.

(** * Properties *)

(** C2: Two accepted requests with the same signature agree on the method, the
    addressed bucket and key, the decoded query parameters up to order, the
    signed header names and their values, the payload mode, the date and the
    credential scope, unless HMAC or SHA-256 collides on their signing inputs. *)
Theorem signature_binds_request `{Crypto} b b' lim lim' r r' secret secret' config config' v v'
  auth auth' x x' :
  parse_complete_head b lim = Ok r -> parse_complete_head b' lim' = Ok r' ->
  verify_header (SigV4Request_from r) secret config = Ok v ->
  verify_header (SigV4Request_from r') secret' config' = Ok v' ->
  parse_header_authorization (headers r) = Ok auth ->
  parse_header_authorization (headers r') = Ok auth' ->
  ha_signature auth = ha_signature auth' ->
  signing_inputs (SigV4Request_from r) secret = Some x ->
  signing_inputs (SigV4Request_from r') secret' = Some x' -> no_collision x x' ->
  method r = method r' /\
  parse_path_style (raw_path (target r)) = parse_path_style (raw_path (target r')) /\
  Permutation (signed_params false (query (target r))) (signed_params false (query (target r'))) /\
  signed_headers v = signed_headers v' /\
  Forall (fun n => signed_value (headers r) n = signed_value (headers r') n) (signed_headers v) /\
  payload_mode v = payload_mode v' /\
  HeaderMap_get_all (headers r) (bs "x-amz-date") = HeaderMap_get_all (headers r') (bs "x-amz-date") /\
  scope (credential v) = scope (credential v').
Proof.
  intros Hr Hr' Hv Hv' Ha Ha' Hsig Hx Hx' Hnc.
  apply verify_header_iff in Hv as (auth1 & date & t & lit & c & Ea & _ & _ & Ed & _ & Et & _ & _ & El & _
    & Em & Ec & Eg & _ & Ecr & Esh & _ & _).
  apply verify_header_iff in Hv' as (auth1' & date' & t' & lit' & c' & Ea' & _ & _ & Ed' & _ & Et' & _ & _ & El' & _
    & Em' & Ec' & Eg' & _ & Ecr' & Esh' & _ & _).
  cbn [SigV4Request_from req_headers] in *. rewrite Ha in Ea. rewrite Ha' in Ea'. simplify_eq.
  unfold signing_inputs in Hx, Hx'. cbn [SigV4Request_from req_headers] in *.
  rewrite Ha, Ed, El, Ec in Hx. rewrite Ha', Ed', El', Ec' in Hx'. simplify_eq.
  destruct Hnc as [Hh Hs]. unfold computed_tag in *. rewrite Eg, Eg' in Hsig.
  apply Hh in Hsig as [_ Hm].
  apply string_to_sign_inj in Hm as (-> & Escope & Ehash);
    [|by rewrite (parse_amz_length _ _ Et), (parse_amz_length _ _ Et')|by rewrite !sha256_length].
  apply Hs in Ehash as ->.
  destruct (canonical_request_inj lim lim' r r' _ _ _ _ false c'
    (parse_complete_head_wf _ _ _ Hr) (parse_complete_head_wf _ _ _ Hr')
    (parse_header_authorization_signed _ _ Ha) (parse_header_authorization_signed _ _ Ha') Ec Ec')
    as (? & ? & ? & Esn & ? & ->).
  rewrite Esh, Esh', Ecr, Ecr', Ed, Ed'. split_and!; try done. congruence.
Qed.

(** Signature timestamps: the parser accepts exactly the basic-format
    spellings of the seconds from 1970 to the end of 9999, as [iso8601] prints
    them, and returns that second; no 64-bit overflow is possible. *)
Theorem timestamp_calendar (value : bytes) (t : Z) :
  parse_amz_timestamp value = Ok t <->
  0 <= t < end_of_time /\ value = basic_format (iso8601 (t * 1000)).
Proof.
  split.
  - intros (y & m & d & h & mi & s & Hok & -> & ->)%parse_amz_inv.
    split; [by apply civil_seconds_split|]. symmetry. by apply iso8601_civil.
  - intros [(y & m & d & h & mi & s & Hok & ->)%civil_of_seconds ->].
    rewrite iso8601_civil by done. by apply parse_render_civil.
Qed.

(** * Witnesses *)

(** A concrete 32-byte digest and keyed digest, to evaluate the definitions:
    byte [i] sums the message bytes at the positions congruent to [i]. *)
Fixpoint fold_block (i : nat) (block m : bytes) : bytes :=
  match m with
  | [] => block
  | b :: rest =>
      fold_block (if (i =? 31)%nat then 0 else S i)
        (<[i := mkb (bval (default x00 (block !! i)) * 3 + bval b)]> block) rest
  end.

Definition sample_digest (m : bytes) : bytes := fold_block 0 (repeat x07 32) m.

Lemma fold_block_length i block m : length (fold_block i block m) = length block.
Proof.
  revert i block. induction m as [|b m IH]; intros i block; simpl; [done|]. by rewrite IH, length_insert.
Qed.

#[local] Instance sample_crypto : Crypto.
Proof.
  refine {| sha256 := sample_digest;
            hmac_sha256 := fun k m => sample_digest (k ++ m);
            hmac_verify := fun k m tag => tag ==b sample_digest (k ++ m) |}.
  - intros m. unfold sample_digest. by rewrite fold_block_length.
  - intros k m. unfold sample_digest. by rewrite fold_block_length.
  - intros k m tag. apply bool_decide_eq_true.
Defined.

Definition sample_secret : bytes := bs "secret".
(** 2024-05-06T07:08:09Z and two minutes. *)
Definition sample_config : VerificationConfig := {|
  now := (1714979289 + 120) * nanos_per_sec; max_clock_skew := 900 * nanos_per_sec;
  expected_region := Some (bs "us-east-1"); expected_service := bs "s3" |}.

Definition sample_lines (query signature : bytes) : list bytes :=
  [bs "GET /bucket/a%20b?" ++ query ++ bs " HTTP/1.1"; bs "Host: s3.test";
   bs "X-Amz-Date: 20240506T070809Z"; bs "X-Amz-Content-Sha256: UNSIGNED-PAYLOAD";
   bs "Authorization: AWS4-HMAC-SHA256 Credential=AK/20240506/us-east-1/s3/aws4_request, "
     ++ bs "SignedHeaders=host;x-amz-date, Signature=" ++ signature].

Definition sample_signature : bytes :=
  Eval vm_compute in
    match parse_complete_head (join crlf (sample_lines (bs "a=1&b=2") (repeat x30 64))) default_head_limits with
    | Ok r => match signing_inputs (SigV4Request_from r) sample_secret with
              | Some (k, m, _) => hex_lower (hmac_sha256 k m)
              | None => []
              end
    | Err _ => []
    end.

Definition signed_sample (query : bytes) : option RequestHead :=
  match parse_complete_head (join crlf (sample_lines query sample_signature)) default_head_limits with
  | Ok r => Some r
  | Err _ => None
  end.

Definition signed_head : RequestHead :=
  Eval vm_compute in
    match signed_sample (bs "a=1&b=2") with
    | Some r => r
    | None => {| method := []; target := {| raw_path := []; raw_query := None; query := {| pairs := [] |} |};
                 headers := {| fields := [] |}; content_length := None; transfer_chunked := false |}
    end.

(** The same request with its query in another order and spelling. *)
Definition signed_head' : RequestHead :=
  Eval vm_compute in
    match signed_sample (bs "%62=2&a=1") with
    | Some r => r
    | None => {| method := []; target := {| raw_path := []; raw_query := None; query := {| pairs := [] |} |};
                 headers := {| fields := [] |}; content_length := None; transfer_chunked := false |}
    end.

Definition sample_verified : VerifiedSignature :=
  Eval vm_compute in
    match verify_header (SigV4Request_from signed_head) sample_secret sample_config with
    | Ok v => v
    | Err _ => {| credential := {| access_key := []; scope_date := []; region := []; service := [] |};
                  signed_headers := []; payload_mode := UnsignedPayload; security_token := None;
                  canonical_request_hash := []; streaming_context := None |}
    end.

Lemma signature_binds_request_witness :
  signed_head <> signed_head' /\
  method signed_head = method signed_head' /\
  Permutation (signed_params false (query (target signed_head)))
    (signed_params false (query (target signed_head'))).
Proof.
  split; [vm_compute; discriminate|].
  edestruct (signature_binds_request
    (join crlf (sample_lines (bs "a=1&b=2") sample_signature))
    (join crlf (sample_lines (bs "%62=2&a=1") sample_signature))
    default_head_limits default_head_limits signed_head signed_head'
    sample_secret sample_secret sample_config sample_config sample_verified sample_verified)
    as (E & _ & Hp & _).
  1-9: vm_compute; reflexivity.
  - vm_compute. split; [by split|done].
  - split; assumption.
Defined.
