(* ===== verification/SigV4Correct.v ===== *)
(** Signature Version 4 verification against its definition: the functions of
    [Canonical] and [SigV4], from [src/src/protocol/sigv4.rs], compute the texts
    of [AwsSpec], and [verify_header] and [verify_presigned] accept exactly the
    requests it admits. *)
From stdpp Require Import sorting.
From S2P Require Import Prelude Text Http Headers Calendar AwsSpec Canonical SigV4.

(** * Characters and encodings *)

Lemma unreserved_chars_spec b : b ∈ unreserved_chars <-> is_unreserved b = true.
Proof.
  by_bytes (fun b => bool_decide (bool_decide (b ∈ unreserved_chars) = is_unreserved b)) b.
  apply bool_decide_eq_true in H. rewrite <- H. by rewrite bool_decide_eq_true.
Qed.

Lemma header_chars_spec b : b ∈ header_chars <-> is_lowercase_header_token b = true.
Proof.
  by_bytes (fun b => bool_decide (bool_decide (b ∈ header_chars) = is_lowercase_header_token b)) b.
  apply bool_decide_eq_true in H. rewrite <- H. by rewrite bool_decide_eq_true.
Qed.

Lemma digits_spec b : b ∈ digits <-> is_ascii_digit b = true.
Proof.
  by_bytes (fun b => bool_decide (bool_decide (b ∈ digits) = is_ascii_digit b)) b.
  apply bool_decide_eq_true in H. rewrite <- H. by rewrite bool_decide_eq_true.
Qed.

Lemma all_digits_spec text : all_digits text <-> forallb is_ascii_digit text = true.
Proof.
  unfold all_digits. rewrite forallb_Forall_true. apply Forall_iff. intros b. apply digits_spec.
Qed.

Lemma escape_spec b : escape b = push_percent_encoded b.
Proof. by_bytes (fun b => bool_decide (escape b = push_percent_encoded b)) b. by apply bool_decide_eq_true in H. Qed.

Lemma hex_text_spec d : hex_text d = hex_lower d.
Proof.
  unfold hex_text, hex_lower. f_equal. apply map_ext. intros b.
  by_bytes (fun b => bool_decide (two_digits (bs "0123456789abcdef") b =
    [hex_char HEX_LOWER (Z.shiftr (bval b) 4); hex_char HEX_LOWER (Z.land (bval b) 15)])) b.
  by apply bool_decide_eq_true in H.
Qed.

Lemma uri_encode_spec text : uri_encode text = aws_encode text true.
Proof.
  unfold uri_encode, aws_encode. f_equal. apply map_ext. intros b. unfold aws_encode_byte.
  rewrite andb_false_r, orb_false_r, escape_spec. case_bool_decide as E.
  - apply unreserved_chars_spec in E. by rewrite E.
  - rewrite unreserved_chars_spec in E. apply not_true_iff_false in E. by rewrite E.
Qed.

Lemma nibbles_lor hi lo : 0 <= hi < 16 -> 0 <= lo < 16 -> Z.lor (Z.shiftl hi 4) lo = 16 * hi + lo.
Proof.
  intros Hh Hl.
  assert (Hall : forallb (fun i => forallb (fun j =>
      Z.lor (Z.shiftl (Z.of_nat i) 4) (Z.of_nat j) =? 16 * Z.of_nat i + Z.of_nat j) (seq 0 16)) (seq 0 16) = true)
    by reflexivity.
  rewrite forallb_forall in Hall. specialize (Hall (Z.to_nat hi) ltac:(apply in_seq; lia)).
  rewrite forallb_forall in Hall. specialize (Hall (Z.to_nat lo) ltac:(apply in_seq; lia)).
  rewrite !Z2Nat.id in Hall by lia. by apply Z.eqb_eq.
Qed.

(** Two digits make the byte of their value. *)
Lemma nibbles_value h l hi lo b : hex_digit h = Some hi -> hex_digit l = Some lo ->
  bval b = 16 * hi + lo <-> b = mkb (Z.lor (Z.shiftl hi 4) lo).
Proof.
  intros Hh%hex_digit_range Hl%hex_digit_range. rewrite nibbles_lor by done. split.
  - intros <-. by rewrite mkb_bval.
  - intros ->. apply bval_mkb. lia.
Qed.

Lemma percent_spelling_spec raw text : percent_spelling raw text <-> percent_decode raw = Ok text.
Proof.
  split.
  - induction 1 as [|b raw text Hb _ IH|h l hi lo b raw text Hh Hl Hv _ IH]; [done|..]; cbn [percent_decode].
    + rewrite bool_decide_false by done. by rewrite IH.
    + rewrite bool_decide_true by done. apply hex_of_digit in Hh, Hl. unfold hex_value. rewrite Hh, Hl, IH.
      cbn [ok_or]. unfold join_nibbles. by rewrite <- (proj1 (nibbles_value _ _ _ _ _ Hh Hl) Hv).
  - revert text. induction raw as [raw IH] using length_ind. intros text H.
    destruct raw as [|c raw]; cbn [percent_decode] in H; [simplify_eq; constructor|].
    case_bool_decide as Ec.
    + subst c. destruct raw as [|h [|l raw]]; [done..|].
      destruct (hex_value h) as [hi|] eqn:Eh; [|done]. destruct (hex_value l) as [lo|] eqn:El; [|done].
      cbn [ok_or] in H. destruct (percent_decode raw) as [t|] eqn:Et; [|done]. simplify_eq.
      apply (ps_escape h l hi lo); [by apply hex_of_digit..| |apply IH; [simpl; lia|done]].
      by apply (nibbles_value h l).
    + destruct (percent_decode raw) as [t|] eqn:Et; [|done]. simplify_eq.
      apply ps_plain; [done|]. apply IH; [simpl; lia|done].
Qed.

Lemma hex_spelling_spec text value :
  hex_spelling text value <-> Nat.even (length text) = true /\ decode_hex_pairs text = Ok value.
Proof.
  split.
  - induction 1 as [|h l hi lo b text value Hh Hl Hv _ [IH1 IH2]]; [done|]. split; [done|].
    cbn [decode_hex_pairs]. apply hex_of_digit in Hh, Hl. unfold hex_nibble. rewrite Hh, Hl, IH2. cbn [ok_or].
    by rewrite <- (proj1 (nibbles_value _ _ _ _ _ Hh Hl) Hv).
  - intros [He H]. revert value He H. induction text as [text IH] using length_ind. intros value He H.
    destruct text as [|h [|l text]]; cbn [decode_hex_pairs] in H; [simplify_eq; constructor|done|].
    destruct (hex_nibble h) as [hi|] eqn:Eh; [|done]. destruct (hex_nibble l) as [lo|] eqn:El; [|done].
    cbn [ok_or] in H. destruct (decode_hex_pairs text) as [t|] eqn:Et; [|done]. simplify_eq.
    apply (hs_byte h l hi lo); [by apply hex_of_digit..|by apply (nibbles_value h l)|].
    apply IH; [simpl; lia|done..].
Qed.

Lemma hex_spelling_length text value : hex_spelling text value -> length text = (2 * length value)%nat.
Proof. induction 1; simpl; lia. Qed.

Lemma digest_spelling_spec text digest : digest_spelling text digest <-> decode_hex_32 text = Ok digest.
Proof.
  unfold digest_spelling, decode_hex_32, len. split.
  - intros [H Hl]. rewrite (hex_spelling_length _ _ H), Hl. by apply hex_spelling_spec in H as [_ ?].
  - destruct (Z.eqb_spec (Z.of_nat (length text)) 64) as [El|]; [|done]. intros H.
    assert (Hs : hex_spelling text digest).
    { apply hex_spelling_spec. split; [|done]. by replace (length text) with 64%nat by lia. }
    split; [done|]. apply hex_spelling_length in Hs. lia.
Qed.

(** * The canonical request *)

Lemma hex_upper_char h v : hex_digit h = Some v -> to_ascii_uppercase h = nth (Z.to_nat v) (bs "0123456789ABCDEF") x00.
Proof.
  by_bytes (fun h => match hex_digit h with
    | Some v => to_ascii_uppercase h ==b nth (Z.to_nat v) (bs "0123456789ABCDEF") x00 | None => true end) h.
  intros E. rewrite E in H. by bool_hyps.
Qed.

(** An escape keeps its digits, in upper case. *)
Lemma escape_upper h l hi lo b : hex_digit h = Some hi -> hex_digit l = Some lo -> bval b = 16 * hi + lo ->
  escape b = [x25; to_ascii_uppercase h; to_ascii_uppercase l].
Proof.
  intros Hh Hl Hv. rewrite (hex_upper_char _ _ Hh), (hex_upper_char _ _ Hl).
  apply hex_digit_range in Hh, Hl. unfold escape, two_digits. rewrite Hv.
  replace ((16 * hi + lo) / 16) with hi by euclid. by replace ((16 * hi + lo) mod 16) with lo by euclid.
Qed.

Lemma uri_byte_spec b : (b ==b x2f) || is_unreserved b = true <-> b = x2f \/ b ∈ unreserved_chars.
Proof. rewrite orb_true_iff, bool_decide_eq_true, unreserved_chars_spec. done. Qed.

Lemma hex_byte h l hi lo : hex_digit h = Some hi -> hex_digit l = Some lo -> exists b, bval b = 16 * hi + lo.
Proof.
  intros Hh%hex_digit_range Hl%hex_digit_range. exists (mkb (16 * hi + lo)). apply bval_mkb. lia.
Qed.

Lemma canonical_path_spec raw text : canonical_path raw text <-> canonical_uri_loop raw = Ok text.
Proof.
  split.
  - induction 1 as [|b raw text Hb _ IH|h l hi lo b raw text Hh Hl Hv _ IH|b raw text H1 H2 H3 _ IH];
      [done|..]; cbn [canonical_uri_loop].
    + apply uri_byte_spec in Hb. by rewrite Hb, IH.
    + apply hex_of_digit in Hh, Hl. unfold hex_nibble. rewrite Hh, Hl, IH.
      by rewrite (escape_upper _ _ _ _ _ Hh Hl Hv).
    + assert (Hn : (b ==b x2f) || is_unreserved b = false)
        by (apply not_true_iff_false; rewrite uri_byte_spec; tauto).
      rewrite Hn, bool_decide_false by done. by rewrite IH, escape_spec.
  - revert text. induction raw as [raw IH] using length_ind. intros text H.
    destruct raw as [|b raw]; cbn [canonical_uri_loop] in H; [simplify_eq; constructor|].
    destruct (_ || _) eqn:Eu in H.
    + destruct (canonical_uri_loop raw) as [t|] eqn:Et; [|done]. simplify_eq.
      apply cp_plain; [by apply uri_byte_spec|]. apply IH; [simpl; lia|done].
    + assert (Hu : ~ (b = x2f \/ b ∈ unreserved_chars)) by (rewrite <- uri_byte_spec; congruence).
      case_bool_decide as Ec.
      * subst b. destruct raw as [|h [|l raw]]; [done..|].
        destruct (hex_nibble h) as [hi|] eqn:Eh; [|done]. destruct (hex_nibble l) as [lo|] eqn:El; [|done].
        destruct (canonical_uri_loop raw) as [t|] eqn:Et; [|done]. simplify_eq.
        destruct (hex_byte h l hi lo Eh El) as [b Hb]. change (canonical_path (x25 :: h :: l :: raw)
          ([x25; to_ascii_uppercase h; to_ascii_uppercase l] ++ t)).
        rewrite <- (escape_upper h l hi lo b Eh El Hb).
        apply (cp_escape h l hi lo); [by apply hex_of_digit..|done|]. apply IH; [simpl; lia|done].
      * destruct (canonical_uri_loop raw) as [t|] eqn:Et; [|done].
        assert (text = push_percent_encoded b ++ t) as -> by congruence. rewrite <- escape_spec.
        apply cp_other; [tauto|done|tauto|]. apply IH; [simpl; lia|done].
Qed.

Lemma canonical_uri_spec raw text :
  canonical_uri raw = Ok text <-> canonical_path raw text /\ exists rest, raw = x2f :: rest.
Proof.
  unfold canonical_uri. destruct (starts_with raw (bs "/")) eqn:E; cbn [negb].
  - apply starts_with_true in E as [r ->]. rewrite <- canonical_path_spec. simpl. naive_solver.
  - split; [done|]. intros [_ [r ->]]. done.
Qed.

(** ** The order on strings *)

Lemma bytes_cmp_lt a b : bytes_cmp a b = Lt <-> text_lt a b.
Proof.
  split.
  - revert b. induction a as [|x a IH]; intros [|y b]; cbn [bytes_cmp]; try done.
    + intros _. left. by exists y, b.
    + destruct (Z.compare_spec (bval x) (bval y)) as [E|E|E]; [|intros _|done].
      * intros Hc. apply bval_inj in E as ->. destruct (IH _ Hc) as [(z & r & ->)|(p & u & v & r & s & -> & -> & ?)].
        -- left. by exists z, r.
        -- right. by exists (y :: p), u, v, r, s.
      * right. by exists [], x, y, a, b.
  - intros [(x & r & ->)|(p & x & y & r & s & -> & -> & Hlt)].
    + induction a as [|z a IH]; [done|]. simpl. by rewrite Z.compare_refl.
    + induction p as [|z p IH]; simpl.
      * by rewrite (proj2 (Z.compare_lt_iff _ _) Hlt).
      * by rewrite Z.compare_refl.
Qed.

Lemma pair_le_spec p q : pair_le p q <-> pair_order p q.
Proof.
  unfold pair_le, pair_order, pair_cmp. rewrite <- !bytes_cmp_lt.
  destruct (bytes_cmp (fst p) (fst q)) eqn:E.
  - apply bytes_cmp_eq in E. rewrite E. destruct (bytes_cmp (snd p) (snd q)) eqn:E2.
    + apply bytes_cmp_eq in E2. naive_solver.
    + naive_solver.
    + split; [done|]. intros [?|[_ [?|E3]]]; [done..|]. apply (bytes_cmp_eq (snd p)) in E3. congruence.
  - naive_solver.
  - split; [done|]. intros [?|[E3 _]]; [done|]. apply bytes_cmp_eq in E3. congruence.
Qed.

(** ** The canonical query *)

Definition excluded_name (exclude_signature : bool) : option bytes :=
  if exclude_signature then Some (bs "X-Amz-Signature") else None.

Lemma component_of_spec c rn rv : component_of c rn rv <->
  (match split_once x3d c with Some nv => nv | None => (c, []) end) = (rn, rv).
Proof.
  unfold component_of. destruct (split_once x3d c) as [[a b]|] eqn:E.
  - apply split_once_Some in E as [-> Ha]. split.
    + intros [Hn [E|[E ->]]].
      * by destruct (cut_inj x3d a b rn rv Ha Hn E) as [-> ->].
      * destruct Hn. rewrite <- E, elem_of_app. right. left.
    + intros [= <- <-]. split; [done|]. by left.
  - apply split_once_None in E. split.
    + intros [Hn [-> |[-> ->]]]; [|done]. destruct E. rewrite elem_of_app. right. left.
    + intros [= <- <-]. split; [done|]. by right.
Qed.

Lemma excluded_spec e name :
  excluded_name e = Some name <-> e && (name ==b bs "X-Amz-Signature") = true.
Proof. unfold excluded_name. rewrite andb_true_iff, bool_decide_eq_true. destruct e; naive_solver. Qed.

Lemma query_pairs_spec e cs ps : query_pairs (excluded_name e) cs ps <->
  exists found, traverse (canonical_pair e) cs = Ok found /\ omap id found = ps.
Proof.
  split.
  - induction 1 as [|c rn rv n cs ps Hc Hn Hx _ (found & IH1 & IH2)
                    |c rn rv n v cs ps Hc Hn Hx Hv _ (found & IH1 & IH2)]; [by exists []|..];
      cbn [traverse]; unfold canonical_pair at 1; rewrite (proj1 (component_of_spec _ _ _) Hc);
      apply percent_spelling_spec in Hn; rewrite Hn; cbn [map_err].
    + apply excluded_spec in Hx. rewrite Hx, IH1. eexists. split; [done|]. by subst.
    + rewrite excluded_spec, not_true_iff_false in Hx. rewrite Hx.
      apply percent_spelling_spec in Hv. rewrite Hv, IH1. cbn [map_err]. eexists. split; [done|].
      rewrite !uri_encode_spec. subst ps. done.
  - revert ps. induction cs as [|c cs IH]; intros ps (found & Ht & Ho); cbn [traverse] in Ht.
    { simplify_eq. constructor. }
    destruct (canonical_pair e c) as [o|] eqn:Ep; [|done].
    destruct (traverse (canonical_pair e) cs) as [rest|] eqn:Er; [|done]. simplify_eq.
    unfold canonical_pair in Ep.
    destruct (match split_once x3d c with Some _ => _ | None => _ end) as [rn rv] eqn:Ec.
    apply component_of_spec in Ec. destruct (percent_decode rn) as [n|] eqn:En; [|done].
    apply percent_spelling_spec in En. cbn [map_err] in Ep.
    destruct (e && _) eqn:Ex.
    + simplify_eq. apply excluded_spec in Ex. eapply qp_skip; [done..|]. apply IH. eauto.
    + destruct (percent_decode rv) as [v|] eqn:Ev; [|done]. apply percent_spelling_spec in Ev.
      cbn [map_err] in Ep. simplify_eq. simpl. rewrite <- !uri_encode_spec.
      eapply qp_keep; [done..| |done|apply IH; eauto]. rewrite excluded_spec. congruence.
Qed.

(** The pieces of a text between separators. *)
Lemma pieces_spec (d : byte) raw components :
  (raw = join [d] components /\ Forall (fun c => (d ∉ c)) components /\ components <> []) <->
  components = split_on (fun b => b ==b d) raw.
Proof.
  split.
  - intros (-> & Hc & Hne). symmetry. apply split_on_join; [by rewrite bool_decide_true|done|].
     eapply Forall_impl; [exact Hc|]. intros c. apply not_elem_of_Forall_eqb.
  - intros ->. split_and!.
    + by rewrite split_on_join_inv.
    + eapply Forall_impl; [apply split_on_pieces|]. cbn beta. intros c Hc Hin.
      rewrite Forall_forall in Hc. specialize (Hc d Hin). by rewrite bool_decide_true in Hc.
    + destruct (split_on_cons (fun b => b ==b d) raw) as (h & t & ->). done.
Qed.

Lemma StronglySorted_mono {A} (R R' : A -> A -> Prop) l :
  (forall x y, R x y -> R' x y) -> StronglySorted R l -> StronglySorted R' l.
Proof.
  intros HR. induction 1 as [|x l _ IH Hx]; constructor; [done|]. eapply Forall_impl; [exact Hx|auto].
Qed.

Lemma sorted_spec ps sorted :
  Permutation ps sorted /\ StronglySorted pair_order sorted <-> sorted = merge_sort pair_le ps.
Proof.
  assert (Hss : forall l, StronglySorted pair_order l <-> Sorted pair_le l).
  { intros l. split; intros Hl.
    - apply StronglySorted_Sorted. eapply StronglySorted_mono; [|exact Hl]. intros x y. apply pair_le_spec.
    - eapply StronglySorted_mono; [|exact (Sorted_StronglySorted pair_le l Hl)].
      intros x y. apply pair_le_spec. }
  split.
  - intros [Hp Hs%Hss]. apply (Sorted_unique pair_le); [done|apply (Sorted_merge_sort pair_le)|].
    by rewrite merge_sort_Permutation.
  - intros ->. split; [by rewrite merge_sort_Permutation|]. apply Hss, (Sorted_merge_sort pair_le).
Qed.

Lemma canonical_query_spec raw e text :
  canonical_query raw e = Ok text <-> canonical_query_text (excluded_name e) raw text.
Proof.
  unfold canonical_query, canonical_query_text. destruct raw as [[|b raw]|]; cbn [is_empty]; [naive_solver| |naive_solver].
  set (r := b :: raw). split.
  - intros H. destruct (traverse _ _) as [found|] eqn:Et; [|done]. injection H as <-.
    destruct (proj2 (pieces_spec x26 r _) eq_refl) as (? & ? & ?).
    exists (split_on (fun b => b ==b x26) r), (omap id found), (merge_sort pair_le (omap id found)).
    destruct (proj2 (sorted_spec (omap id found) _) eq_refl).
    split_and!; try done; [apply query_pairs_spec; eauto|]. f_equal. apply map_ext. by intros [].
  - intros (cs & ps & sorted & Hr & Hc & Hne & Hq & Hp & Hs & ->).
    rewrite <- (proj1 (pieces_spec x26 r cs)) by done. apply query_pairs_spec in Hq as (found & -> & Ho).
    rewrite Ho, <- (proj1 (sorted_spec ps sorted)) by done. do 2 f_equal. apply map_ext. by intros [].
Qed.

(** ** Headers and the whole request *)

Lemma canonical_headers_spec m signed : (forall n, n ∈ signed -> HeaderMap_get_all m n <> []) ->
  canonical_headers m signed = Ok (header_lines m signed).
Proof.
  induction signed as [|n signed IH]; intros Hp; [done|]. cbn [canonical_headers].
  rewrite (proj2 (is_empty_false _)) by (apply Hp; left).
  rewrite IH by (intros k Hk; apply Hp; by right). f_equal. unfold header_lines. cbn [map concat].
  rewrite (map_ext normalize_header_value collapsed) by (intros v; apply normalize_words).
  by rewrite <- !app_assoc.
Qed.

Lemma canonical_request_spec req signed payload e canonical :
  (forall n, n ∈ signed -> HeaderMap_get_all (req_headers req) n <> []) ->
  build_canonical_request req signed payload e = Ok canonical <->
  canonical_request (req_method req) (req_raw_path req) (req_raw_query req) (excluded_name e)
    (req_headers req) signed payload canonical.
Proof.
  intros Hp. unfold build_canonical_request, canonical_request. rewrite canonical_headers_spec by done. split.
  - intros H. destruct (canonical_uri _) as [path|] eqn:Eu; [|done]. destruct (canonical_query _ _) as [q|] eqn:Eq; [|done].
    injection H as <-. apply canonical_uri_spec in Eu as [??]. apply canonical_query_spec in Eq.
    exists path, q. by split_and!.
  - intros (path & q & Hpath & Hslash & Hq & ->).
    rewrite (proj2 (canonical_uri_spec _ _) (conj Hpath Hslash)), (proj2 (canonical_query_spec _ _ _) Hq). done.
Qed.

(** * Fields *)

Lemma not_increasing_spec names : any_not_increasing names = false <-> Sorted text_lt names.
Proof.
  induction names as [|a [|b names] IH].
  - split; [constructor|done].
  - split; [repeat constructor|done].
  - cbn [any_not_increasing] in *. split.
    + intros H. destruct (bytes_cmp a b) eqn:E; [done| |done]. apply IH in H. apply bytes_cmp_lt in E.
      constructor; [done|by constructor].
    + intros [Hs Hr]%Sorted_inv. inversion Hr as [|? ? Hlt]; subst. apply bytes_cmp_lt in Hlt.
      rewrite Hlt. by apply IH.
Qed.

Lemma existsb_false_Forall {A} (p : A -> bool) l : existsb p l = false <-> Forall (fun x => p x = false) l.
Proof. induction l as [|x l IH]; simpl; [done|]. rewrite orb_false_iff, Forall_cons, IH. done. Qed.

Lemma signed_names_spec text names :
  signed_names_spelling text names <-> parse_signed_headers text = Ok names.
Proof.
  assert (Hname : forall n, (n <> [] /\ Forall (fun b => b ∈ header_chars) n) <->
    is_empty n || negb (forallb is_lowercase_header_token n) = false).
  { intros n. rewrite orb_false_iff, is_empty_false, negb_false_iff, forallb_Forall_true.
    setoid_rewrite header_chars_spec. done. }
  unfold signed_names_spelling, parse_signed_headers. split.
  - intros (-> & Hne & Hn & Hs).
    assert (E : split_on (fun b => b ==b x3b) (join (bs ";") names) = names).
    { symmetry. apply pieces_spec. split_and!; [done| |done]. eapply Forall_impl; [exact Hn|].
      intros n [_ Hc] Hin. rewrite Forall_forall in Hc. specialize (Hc x3b Hin).
      by apply header_chars_spec in Hc. }
    rewrite E. setoid_rewrite Hname in Hn. apply existsb_false_Forall in Hn. apply not_increasing_spec in Hs.
    by rewrite (proj2 (is_empty_false _) Hne), Hn, Hs.
  - destruct (_ || _) eqn:E; [done|]. intros [= <-].
    apply orb_false_elim in E as [[E1%is_empty_false E2%existsb_false_Forall]%orb_false_elim E3%not_increasing_spec].
    destruct (proj2 (pieces_spec x3b text _) eq_refl) as (? & ? & ?). split_and!; try done.
    setoid_rewrite Hname. exact E2.
Qed.

Definition credential_of (key date region service : bytes) : CredentialScope :=
  {| access_key := key; scope_date := date; SigV4.region := region; SigV4.service := service |}.

Lemma credential_spec text k d r s :
  credential_spelling text k d r s <-> parse_credential text = Ok (credential_of k d r s).
Proof.
  unfold credential_spelling, parse_credential, credential_of. split.
  - intros (-> & Hp & Hl & Hd).
    assert (E : split_on (fun b => b ==b x2f) (k ++ bs "/" ++ d ++ bs "/" ++ r ++ bs "/" ++ s ++ bs "/aws4_request")
                = [k; d; r; s; TERMINATOR]).
    { symmetry. apply pieces_spec. split_and!; [done| |done].
      rewrite !Forall_cons in Hp. destruct Hp as ([_ ?] & [_ ?] & [_ ?] & [_ ?] & _).
      repeat (apply Forall_cons; split; [done|]). apply Forall_cons. split; [|done].
      by apply (bool_decide_eq_true (x2f ∉ TERMINATOR)). }
    rewrite E. rewrite !Forall_cons in Hp. destruct Hp as ([Hk _] & [Hd' _] & [Hr _] & [Hs _] & _).
    apply is_empty_false in Hk, Hd', Hr, Hs. cbn [existsb]. rewrite Hk, Hd', Hr, Hs.
    apply all_digits_spec in Hd. unfold len. rewrite Hl, Hd. done.
  - destruct (proj2 (pieces_spec x2f text _) eq_refl) as (Ht & Hp & _).
    destruct (split_on _ text) as [|f0 [|f1 [|f2 [|f3 [|f4 [|]]]]]] eqn:E; try done.
    destruct (_ || _) eqn:Eg; [done|]. intros [= <- <- <- <-].
    apply orb_false_elim in Eg as [[[Ee Et]%orb_false_elim El]%orb_false_elim Ed]. cbn [existsb] in Ee.
    rewrite !orb_false_iff, !is_empty_false in Ee. destruct Ee as (? & ? & ? & ? & _).
    apply negb_false_iff in Et, El, Ed. apply bool_decide_eq_true in Et as ->. apply Z.eqb_eq in El.
    rewrite !Forall_cons in Hp. destruct Hp as (? & ? & ? & ? & _).
    split_and!; [by rewrite Ht|by repeat constructor|unfold len in El; lia|by apply all_digits_spec].
Qed.

(** ** The attributes of an Authorization value *)

Definition no_parts : AuthorizationParts :=
  {| part_credential := None; part_signed_headers := None; part_signature := None |}.

Definition with_credential c (p : AuthorizationParts) : AuthorizationParts :=
  {| part_credential := Some c; part_signed_headers := part_signed_headers p; part_signature := part_signature p |}.
Definition with_names n (p : AuthorizationParts) : AuthorizationParts :=
  {| part_credential := part_credential p; part_signed_headers := Some n; part_signature := part_signature p |}.
Definition with_signature s (p : AuthorizationParts) : AuthorizationParts :=
  {| part_credential := part_credential p; part_signed_headers := part_signed_headers p; part_signature := Some s |}.

Definition slots (p : AuthorizationParts) : nat :=
  (if part_credential p is Some _ then 0 else 1) + (if part_signed_headers p is Some _ then 0 else 1)
  + (if part_signature p is Some _ then 0 else 1).

(** One attribute fills one empty slot. *)
Inductive attribute_fills (parts : AuthorizationParts) (text : bytes) : AuthorizationParts -> Prop :=
| fills_credential v c : text = bs "Credential=" ++ v -> parse_credential v = Ok c ->
    part_credential parts = None -> attribute_fills parts text (with_credential c parts)
| fills_names v n : text = bs "SignedHeaders=" ++ v -> parse_signed_headers v = Ok n ->
    part_signed_headers parts = None -> attribute_fills parts text (with_names n parts)
| fills_signature v s : text = bs "Signature=" ++ v -> decode_hex_32 v = Ok s ->
    part_signature parts = None -> attribute_fills parts text (with_signature s parts).

Lemma split_attribute (name v : bytes) : x3d ∉ name -> split_once x3d (name ++ x3d :: v) = Some (name, v).
Proof. intros H. by apply split_once_Some. Qed.

Lemma parse_attribute_spec parts a parts' :
  parse_attribute parts a = Ok parts' <-> attribute_fills parts (str_trim a) parts'.
Proof.
  unfold parse_attribute. split.
  - intros H. destruct (split_once x3d (str_trim a)) as [[name v]|] eqn:E; [|done]. cbn [ok_or] in H.
    apply split_once_Some in E as [E _]. destruct (is_empty v); [done|].
    destruct (_ && _) eqn:E1 in H.
    { bool_hyps. destruct (parse_credential v) as [c|] eqn:Ec; [|done]. simplify_eq. by apply (fills_credential _ _ v c). }
    destruct (_ && _) eqn:E2 in H.
    { bool_hyps. destruct (parse_signed_headers v) as [n|] eqn:Ec; [|done]. simplify_eq. by apply (fills_names _ _ v n). }
    destruct (_ && _) eqn:E3 in H; [|done].
    bool_hyps. destruct (decode_hex_32 v) as [s|] eqn:Ec; [|done]. simplify_eq. by apply (fills_signature _ _ v s).
  - assert (Hne : forall name v, str_trim a = name ++ x3d :: v -> contains x3d name = false ->
      split_once x3d (str_trim a) = Some (name, v)).
    { intros name v -> Hn%contains_false. by apply split_once_Some. }
    intros [v c E Hc Hp|v n E Hc Hp|v s E Hc Hp].
    + rewrite (Hne (bs "Credential") v E eq_refl). cbn [ok_or]. rewrite Hp.
      destruct v as [|b v]; [done|]. cbn [is_empty]. rewrite !bool_decide_true by done. cbn [andb]. by rewrite Hc.
    + rewrite (Hne (bs "SignedHeaders") v E eq_refl). cbn [ok_or]. rewrite Hp.
      destruct v as [|b v]; [done|]. cbn [is_empty]. by rewrite Hc.
    + rewrite (Hne (bs "Signature") v E eq_refl). cbn [ok_or]. rewrite Hp.
      destruct v as [|b v]; [done|]. cbn [is_empty]. by rewrite Hc.
Qed.

Lemma fills_slots parts text parts' : attribute_fills parts text parts' -> slots parts = S (slots parts').
Proof. intros [v c _ _ H|v n _ _ H|v s _ _ H]; unfold slots; simpl; rewrite H; lia. Qed.

Lemma fold_slots l parts parts' : fold_result parse_attribute parts l = Ok parts' ->
  slots parts = (length l + slots parts')%nat.
Proof.
  revert parts. induction l as [|a l IH]; intros parts H; cbn [fold_result] in H; [by simplify_eq|].
  destruct (parse_attribute parts a) as [p|] eqn:E; [|done].
  apply parse_attribute_spec, fills_slots in E. apply IH in H. simpl. lia.
Qed.

Lemma permutation_three {A} (l : list A) x y z : Permutation l [x; y; z] ->
  l = [x; y; z] \/ l = [x; z; y] \/ l = [y; x; z] \/ l = [y; z; x] \/ l = [z; x; y] \/ l = [z; y; x].
Proof.
  intros H. destruct (Permutation_vs_cons_inv H) as (l1 & l2 & ->).
  symmetry in H. apply Permutation_cons_app_inv, Permutation_length_2_inv in H as [E|E];
    destruct l1 as [|? [|? [|? l1]]]; simplify_eq/=; auto 10.
Qed.

Lemma attributes_spec l c names signature :
  fold_result parse_attribute no_parts l =
    Ok {| part_credential := Some c; part_signed_headers := Some names; part_signature := Some signature |} <->
  exists ct nt st, Permutation (map str_trim l)
      [bs "Credential=" ++ ct; bs "SignedHeaders=" ++ nt; bs "Signature=" ++ st] /\
    parse_credential ct = Ok c /\ parse_signed_headers nt = Ok names /\ decode_hex_32 st = Ok signature.
Proof.
  split.
  - intros H. pose proof (fold_slots _ _ _ H) as Hs. change (slots no_parts) with 3%nat in Hs.
    unfold slots in Hs. simpl in Hs. destruct l as [|a1 [|a2 [|a3 [|]]]]; try (simpl in Hs; lia).
    cbn [fold_result] in H. destruct (parse_attribute no_parts a1) as [p1|] eqn:E1; [|done].
    destruct (parse_attribute p1 a2) as [p2|] eqn:E2; [|done].
    destruct (parse_attribute p2 a3) as [p3|] eqn:E3; [|done]. apply parse_attribute_spec in E1, E2, E3.
    simplify_eq. cbn [map].
    destruct E1 as [v1 ? -> ? _|v1 ? -> ? _|v1 ? -> ? _]; destruct E2 as [v2 ? -> ? Hn2|v2 ? -> ? Hn2|v2 ? -> ? Hn2];
      try discriminate Hn2; inversion E3 as [v3 ? -> ? Hn3 HE|v3 ? -> ? Hn3 HE|v3 ? -> ? Hn3 HE];
      try discriminate Hn3; unfold with_credential, with_names, with_signature in HE; simplify_eq/=;
      do 3 eexists; split_and!; eauto; solve_Permutation.
  - intros (ct & nt & st & Hp & Hc & Hn & Hs). apply permutation_three in Hp.
    destruct l as [|a1 [|a2 [|a3 [|]]]]; try (by destruct_or! Hp).
    cbn [map] in Hp. cbn [fold_result].
    assert (HC : forall p a, str_trim a = bs "Credential=" ++ ct -> part_credential p = None ->
      parse_attribute p a = Ok (with_credential c p))
      by (intros p a E ?; apply parse_attribute_spec; rewrite E; by apply (fills_credential _ _ ct)).
    assert (HN : forall p a, str_trim a = bs "SignedHeaders=" ++ nt -> part_signed_headers p = None ->
      parse_attribute p a = Ok (with_names names p))
      by (intros p a E ?; apply parse_attribute_spec; rewrite E; by apply (fills_names _ _ nt)).
    assert (HS : forall p a, str_trim a = bs "Signature=" ++ st -> part_signature p = None ->
      parse_attribute p a = Ok (with_signature signature p))
      by (intros p a E ?; apply parse_attribute_spec; rewrite E; by apply (fills_signature _ _ st)).
    destruct_or! Hp; injection Hp as E1 E2 E3;
      do 3 first [rewrite HC by done|rewrite HN by done|rewrite HS by done]; done.
Qed.

Lemma CredentialScope_eta c : c = credential_of (access_key c) (scope_date c) (SigV4.region c) (SigV4.service c).
Proof. by destruct c. Qed.

(** The Authorization header of a request, given once. *)
Definition authorization_of (m : HeaderMap) (auth : HeaderAuthorization) : Prop :=
  let c := ha_credential auth in
  exists value, HeaderMap_get_all m (bs "authorization") = [value] /\ utf8_valid value = true /\
    authorization_spelling value (access_key c) (scope_date c) (SigV4.region c) (SigV4.service c)
      (ha_signed_headers auth) (ha_signature auth).

Lemma authorization_spec m auth : parse_header_authorization m = Ok auth <-> authorization_of m auth.
Proof.
  unfold parse_header_authorization, authorization_of, authorization_spelling. cbv zeta. split.
  - intros H. destruct (one_header m _) as [[value|]|] eqn:Ev; [|done..]. apply one_header_Some in Ev.
    cbn [ok_or] in H. destruct (from_utf8 value) as [w|] eqn:Eu; [|done]. apply from_utf8_Some in Eu as [Eu ->].
    cbn [ok_or] in H. destruct (split_once SP value) as [[alg attrs]|] eqn:Es; [|done]. cbn [ok_or] in H.
    apply split_once_Some in Es as [-> _]. case_bool_decide as Ea; [|done]. subst alg. cbn [negb] in H.
    destruct (fold_result _ _ _) as [[oc on os]|] eqn:Ef; [|done]. cbn [part_credential part_signed_headers part_signature] in H.
    destruct oc as [c|]; [|done]. destruct on as [n|]; [|done]. destruct os as [s|]; [|done].
    cbn [ok_or] in H. injection H as <-. cbn [ha_credential ha_signed_headers ha_signature].
    apply attributes_spec in Ef as (ct & nt & st & Hp & Hc & Hn & Hs).
    exists (ALGORITHM ++ SP :: attrs). split_and!; [done..|]. exists attrs, ct, nt, st.
    split_and!; [done..| |by apply signed_names_spec|by apply digest_spelling_spec].
    apply credential_spec. by rewrite <- CredentialScope_eta.
  - intros (value & Ev & Hu & attrs & ct & nt & st & -> & Hp & Hc & Hn & Hs).
    rewrite (proj2 (one_header_Some _ _ _) Ev). cbn [ok_or].
    rewrite (proj2 (from_utf8_Some _ _) (conj Hu eq_refl)). cbn [ok_or].
    assert (E : split_once SP (bs "AWS4-HMAC-SHA256 " ++ attrs) = Some (ALGORITHM, attrs)) by reflexivity.
    rewrite E. cbn [ok_or]. rewrite bool_decide_true by done. cbn [negb].
    apply credential_spec in Hc. rewrite <- CredentialScope_eta in Hc.
    apply signed_names_spec in Hn. apply digest_spelling_spec in Hs.
    change {| part_credential := None; part_signed_headers := None; part_signature := None |} with no_parts.
    rewrite (proj2 (attributes_spec _ _ _ _) (ex_intro _ ct (ex_intro _ nt (ex_intro _ st
      (conj Hp (conj Hc (conj Hn Hs))))))). by destruct auth.
Qed.

(** ** Numbers and times *)

Lemma leap_year_spec y : leap_year y = is_leap y.
Proof.
  apply eq_bool_prop_intro. rewrite !Is_true_true, is_leap_spec. unfold leap_year.
  rewrite andb_true_iff, orb_true_iff, negb_true_iff, !Z.eqb_eq, Z.eqb_neq. euclid.
Qed.

Lemma month_lengths_spec y m : 1 <= m <= 12 -> month_lengths y !! Z.to_nat (m - 1) = Some (days_in_month y m).
Proof. intros Hm. unfold month_lengths. rewrite leap_year_spec. each_month Hm; reflexivity. Qed.

Lemma january_first_next y :
  days_from_civil (y + 1) 1 1 = days_from_civil y 1 1 + (if leap_year y then 366 else 365).
Proof.
  pose proof (february y) as Hf. simpl in Hf. rewrite leap_year_spec, !days_from_civil_closed. cbv zeta. cbn.
  replace (y + 1 - 1) with y by lia. destruct (is_leap y); euclid.
Qed.

Lemma days_of_years_spec n : days_of_years n = days_from_civil (1970 + Z.of_nat n) 1 1.
Proof.
  induction n as [|n IH]; [reflexivity|].
  assert (Ht : forall l x, total (l ++ [x]) = total l + x)
    by (intros l x; unfold total; induction l as [|z l IHl]; simpl; [lia|rewrite IHl; lia]).
  unfold days_of_years in *. rewrite seq_S, map_app. cbn [map]. rewrite Ht, IH.
  rewrite Nat2Z.inj_succ. replace (1970 + Z.succ (Z.of_nat n)) with (1970 + Z.of_nat n + 1) by lia.
  rewrite january_first_next. done.
Qed.

Lemma month_days y m d : 1 <= m <= 12 ->
  days_from_civil y m d = days_from_civil y 1 1 + total (take (Z.to_nat (m - 1)) (month_lengths y)) + (d - 1).
Proof.
  intros Hm. pose proof (february y) as Hf. simpl in Hf. unfold month_lengths. rewrite leap_year_spec.
  rewrite !days_from_civil_closed. cbv zeta. destruct (is_leap y); each_month Hm;
    match goal with |- context[total ?l] => let v := eval vm_compute in (total l) in change (total l) with v end;
    cbn; rewrite ?Z.sub_0_r; euclid.
Qed.

Lemma epoch_seconds_spec y m d h mi s : 1970 <= y -> 1 <= m <= 12 ->
  epoch_seconds y m d h mi s = civil_seconds y m d h mi s.
Proof.
  intros Hy Hm. unfold epoch_seconds, civil_seconds. rewrite days_of_years_spec, (month_days y m d Hm).
  replace (1970 + Z.of_nat (Z.to_nat (y - 1970))) with y by lia. lia.
Qed.

Lemma time_fields yt mt dt ht mit st :
  length yt = 4%nat -> length mt = 2%nat -> length dt = 2%nat -> length ht = 2%nat -> length mit = 2%nat ->
  length st = 2%nat -> all_digits yt -> all_digits mt -> all_digits dt -> all_digits ht -> all_digits mit ->
  all_digits st ->
  parse_amz_timestamp (yt ++ mt ++ dt ++ bs "T" ++ ht ++ mit ++ st ++ bs "Z") =
  timestamp_of_fields (dec_value yt) (dec_value mt) (dec_value dt) (dec_value ht) (dec_value mit) (dec_value st).
Proof.
  intros (y1 & y2 & y3 & y4 & ->)%explicit_4 (m1 & m2 & ->)%explicit_2 (d1 & d2 & ->)%explicit_2
    (h1 & h2 & ->)%explicit_2 (i1 & i2 & ->)%explicit_2 (s1 & s2 & ->)%explicit_2 Hy Hm Hd Hh Hi Hs.
  change (parse_amz_timestamp _) with (parse_amz_timestamp
    [y1; y2; y3; y4; m1; m2; d1; d2; x54; h1; h2; i1; i2; s1; s2; x5a]).
  rewrite parse_explicit_timestamp.
  assert (E : forallb is_ascii_digit ([y1; y2; y3; y4] ++ [m1; m2] ++ [d1; d2] ++ [h1; h2] ++ [i1; i2] ++ [s1; s2]) = true).
  { rewrite !forallb_app, !andb_true_iff. rewrite <- !all_digits_spec. by split_and!. }
  cbn [app] in E. by rewrite E.
Qed.

Lemma time_spelling_spec text t : time_spelling text t <-> parse_amz_timestamp text = Ok t.
Proof.
  unfold time_spelling, number. split.
  - intros (y & m & d & h & mi & s & yt & mt & dt & ht & mit & st & last_day & -> & (?&Hy&<-) & (?&Hm&<-)
      & (?&Hd&<-) & (?&Hh&<-) & (?&Hi&<-) & (?&Hs&<-) & ? & Hmr & Hl & ? & ? & ? & ? & ->).
    rewrite time_fields by done. rewrite month_lengths_spec in Hl by done. injection Hl as <-.
    apply all_digits_spec in Hy, Hd, Hh, Hi, Hs.
    pose proof (dec_value_bound _ Hy) as Hb. replace (length yt) with 4%nat in Hb. change (10 ^ Z.of_nat 4) with 10000 in Hb.
    apply timestamp_of_fields_Ok; [lia|by apply dec_value_nonneg..|].
    split; [|by apply epoch_seconds_spec]. pose proof (dec_value_nonneg _ Hh). pose proof (dec_value_nonneg _ Hi).
    pose proof (dec_value_nonneg _ Hs). split_and!; try lia; split; lia.
  - intros (y & m & d & h & mi & s & Hok & -> & ->)%parse_amz_inv. unfold render_civil.
    pose proof Hok as (Hy & [Hm Hday] & Hh & Hmi & Hs). pose proof (days_in_month_le y m) as Hle.
    assert (Hp4 : 0 <= y < 10 ^ Z.of_nat 4) by (change (10 ^ Z.of_nat 4) with 10000; lia).
    assert (Hp : forall n, 0 <= n < 100 -> 0 <= n < 10 ^ Z.of_nat 2) by (intros; simpl; lia).
    pad_field 4%nat y Hp4. pad_field 2%nat m (Hp m ltac:(lia)). pad_field 2%nat d (Hp d ltac:(lia)).
    pad_field 2%nat h (Hp h ltac:(lia)). pad_field 2%nat mi (Hp mi ltac:(lia)). pad_field 2%nat s (Hp s ltac:(lia)).
    exists y, m, d, h, mi, s, (pad_zero 4 y), (pad_zero 2 m), (pad_zero 2 d), (pad_zero 2 h), (pad_zero 2 mi),
      (pad_zero 2 s), (days_in_month y m). rewrite !all_digits_spec.
    split_and!; try done; try lia; [by apply month_lengths_spec|symmetry; apply epoch_seconds_spec; lia].
Qed.

(** An unsigned integer, with an optional plus sign. *)
Definition integer_spelling (text : bytes) (n : Z) : Prop :=
  exists ds, (text = ds \/ text = bs "+" ++ ds) /\ ds <> [] /\ all_digits ds /\ dec_value ds = n.

Lemma integer_spec text n : n <= u64_max -> parse_u64 text = Some n <-> integer_spelling text n.
Proof.
  intros Hn. unfold parse_u64, parse_unsigned, integer_spelling. split.
  - intros H. destruct (parse_digits _) as [v|] eqn:E; [|done]. apply checked_Some in H as [-> _].
    unfold parse_digits in E. destruct (_ || _) eqn:Eg; [done|]. injection E as <-.
    apply orb_false_elim in Eg as [Ee%is_empty_false Ed%negb_false_iff].
    eexists. split_and!; [|exact Ee|by apply all_digits_spec|done].
    destruct (strip_prefix (bs "+") text) as [r|] eqn:Es; [|by left].
    apply strip_prefix_Some in Es. by right.
  - intros (ds & Ht & Hne & Hd & <-). apply all_digits_spec in Hd.
    assert (E : match strip_prefix (bs "+") text with Some r => r | None => text end = ds).
    { destruct Ht as [-> | ->]; [|done]. destruct ds as [|b ds]; [done|]. apply andb_true_iff in Hd as [Hb _].
      destruct (strip_prefix (bs "+") (b :: ds)) as [r|] eqn:Es; [|done].
      apply strip_prefix_Some in Es. by injection Es as -> _. }
    rewrite E. unfold parse_digits. rewrite (proj2 (is_empty_false _) Hne), Hd. cbn [orb negb].
    apply checked_in. split; [by apply dec_value_nonneg|done].
Qed.

(** * Specifications *)

Definition payload_spelling (text : bytes) (mode : PayloadMode) : Prop :=
  match mode with
  | UnsignedPayload => text = bs "UNSIGNED-PAYLOAD"
  | StreamingSigned => text = bs "STREAMING-AWS4-HMAC-SHA256-PAYLOAD"
  | StreamingUnsignedTrailer => text = bs "STREAMING-UNSIGNED-PAYLOAD-TRAILER"
  | FullHash digest => digest_spelling text digest
  end.

Lemma payload_spec text mode : PayloadMode_parse text = Ok mode <-> payload_spelling text mode.
Proof.
  unfold PayloadMode_parse, payload_spelling. split.
  - intros H. case_bool_decide; [by simplify_eq|]. case_bool_decide; [by simplify_eq|].
    case_bool_decide; [by simplify_eq|]. destruct (len text =? 64); [|done].
    destruct (decode_hex_32 text) as [d|] eqn:E; [|done]. simplify_eq. by apply digest_spelling_spec.
  - destruct mode as [d| | |]; [|intros ->; reflexivity..]. intros H.
    assert (Hl : length text = 64%nat) by (destruct H as [H Hd]; apply hex_spelling_length in H; lia).
    rewrite !bool_decide_false by (intros ->; done). unfold len. rewrite Hl. apply digest_spelling_spec in H.
    by rewrite H.
Qed.

(** A value given at most once, as text. *)
Definition optional_text (values : list bytes) (value : option bytes) : Prop :=
  match value with
  | None => values = []
  | Some v => values = [v] /\ utf8_valid v = true
  end.

Lemma text_values_spec (values : list bytes) (found : result SigV4Error (option bytes)) value error :
  found = match values with [] => Ok None | [v] => Ok (Some v) | _ :: _ :: _ => Err error end ->
  (exists o, found = Ok o /\ text_option o = Ok value) <-> optional_text values value.
Proof.
  intros ->. unfold text_option, optional_text, transpose_map, from_utf8. destruct values as [|v [|w l]].
  - destruct value; split; [intros (o & [= <-] & ?); done|intros [? _]; done|done|intros _; by exists None].
  - split.
    + intros (o & [= <-] & H). cbn in H. destruct (utf8_valid v) eqn:E; [|done]. by simplify_eq/=.
    + intros H. exists (Some v). split; [done|]. destruct value as [u|]; [|done]. destruct H as [[= <-] ->]. done.
  - split; [by intros (o & ? & _)|]. by destruct value as [u|]; [intros [? _]|intros ?].
Qed.

Lemma header_text_spec m name value :
  (exists found, one_header m name = Ok found /\ text_option found = Ok value) <->
  optional_text (HeaderMap_get_all m name) value.
Proof. eapply text_values_spec. reflexivity. Qed.

Lemma query_text_spec q name value :
  (exists found, query_optional_one q name = Ok found /\ text_option found = Ok value) <->
  optional_text (QueryParams_get_all q name) value.
Proof. eapply text_values_spec. reflexivity. Qed.

Section Spec.
Context `{Crypto}.

Definition signature_for (secret : bytes) (c : CredentialScope) (time canonical : bytes) : bytes :=
  aws_signature sha256 hmac_sha256 secret time (scope_date c) (SigV4.region c) (SigV4.service c) canonical.

(** A request with an Authorization header that the scheme admits, and what
    its verification returns. *)
Definition authentic_header (req : SigV4Request) (secret : bytes) (config : VerificationConfig)
  (v : VerifiedSignature) : Prop :=
  exists auth date t literal canonical,
    let c := ha_credential auth in
    let m := req_headers req in
    authorization_of m auth /\ scope_ok c config /\ headers_covered m (ha_signed_headers auth) /\
    HeaderMap_get_all m (bs "x-amz-date") = [date] /\ time_spelling date t /\ scope_date c = take 8 date /\
    within_skew t config /\
    HeaderMap_get_all m (bs "x-amz-content-sha256") = [literal] /\ payload_spelling literal (payload_mode v) /\
    canonical_request (req_method req) (req_raw_path req) (req_raw_query req) None m
      (ha_signed_headers auth) literal canonical /\
    ha_signature auth = signature_for secret c date canonical /\
    optional_text (HeaderMap_get_all m (bs "x-amz-security-token")) (security_token v) /\
    credential v = c /\ signed_headers v = ha_signed_headers auth /\
    canonical_request_hash v = sha256 canonical /\
    streaming_context v =
      match payload_mode v with
      | StreamingSigned => Some {|
          signing_key := aws_signing_key hmac_sha256 secret (scope_date c) (SigV4.region c) (SigV4.service c);
          amz_date := date;
          credential_scope := scope_text (scope_date c) (SigV4.region c) (SigV4.service c);
          seed_signature := ha_signature auth |}
      | _ => None
      end.

(** A query parameter given once, as text. *)
Definition given (q : QueryParams) (name value : bytes) : Prop :=
  QueryParams_get_all q name = [value] /\ utf8_valid value = true.

(** The authorization parameters of a presigned URL. *)
Definition presigned_of (q : QueryParams) (auth : PresignedAuthorization) : Prop :=
  let c := pa_credential auth in
  given q (bs "X-Amz-Algorithm") (bs "AWS4-HMAC-SHA256") /\
  (exists text, given q (bs "X-Amz-Expires") text /\ integer_spelling text (pa_expires_seconds auth)) /\
  1 <= pa_expires_seconds auth <= 604800 /\
  (exists text, given q (bs "X-Amz-Credential") text /\
     credential_spelling text (access_key c) (scope_date c) (SigV4.region c) (SigV4.service c)) /\
  (exists text, given q (bs "X-Amz-SignedHeaders") text /\ signed_names_spelling text (pa_signed_headers auth)) /\
  (exists text, QueryParams_get_all q (bs "X-Amz-Signature") = [text] /\ digest_spelling text (pa_signature auth)) /\
  given q (bs "X-Amz-Date") (pa_amz_date auth).

(** A presigned request that the scheme admits. *)
Definition authentic_presigned (req : SigV4Request) (secret : bytes) (config : VerificationConfig)
  (v : VerifiedSignature) : Prop :=
  exists auth t canonical,
    let c := pa_credential auth in
    presigned_of (req_query req) auth /\ scope_ok c config /\
    headers_covered (req_headers req) (pa_signed_headers auth) /\
    time_spelling (pa_amz_date auth) t /\ scope_date c = take 8 (pa_amz_date auth) /\
    within_presign_window t (pa_expires_seconds auth) config /\
    canonical_request (req_method req) (req_raw_path req) (req_raw_query req) (Some (bs "X-Amz-Signature"))
      (req_headers req) (pa_signed_headers auth) (bs "UNSIGNED-PAYLOAD") canonical /\
    pa_signature auth = signature_for secret c (pa_amz_date auth) canonical /\
    optional_text (QueryParams_get_all (req_query req) (bs "X-Amz-Security-Token")) (security_token v) /\
    payload_mode v = UnsignedPayload /\ streaming_context v = None /\
    credential v = c /\ signed_headers v = pa_signed_headers auth /\
    canonical_request_hash v = sha256 canonical.

(** * The code computes the scheme *)

Lemma derive_signing_key_spec secret c :
  derive_signing_key secret c = aws_signing_key hmac_sha256 secret (scope_date c) (SigV4.region c) (SigV4.service c).
Proof. reflexivity. Qed.

Lemma scope_spec c : scope c = scope_text (scope_date c) (SigV4.region c) (SigV4.service c).
Proof. reflexivity. Qed.

Lemma computed_tag_spec secret c time canonical : computed_tag secret c time canonical = signature_for secret c time canonical.
Proof.
  unfold computed_tag, signature_for, aws_signature. rewrite <- derive_signing_key_spec, <- scope_spec. f_equal.
  unfold aws_string_to_sign. by rewrite hex_text_spec.
Qed.

Lemma ascii_time v t : parse_amz_timestamp v = Ok t -> utf8_valid v = true.
Proof.
  intros (y & m & d & h & mi & s & yt & mt & dt & ht & mit & st & ld & -> & (_&Hy&_) & (_&Hm&_) & (_&Hd&_)
    & (_&Hh&_) & (_&Hi&_) & (_&Hs&_) & _)%time_spelling_spec.
  apply ascii_utf8_valid.
  assert (Hdig : forall l, all_digits l -> Forall (fun b => bval b < 128) l).
  { intros l Hl. eapply Forall_impl; [exact Hl|]. cbv beta. intros b Hb%digits_spec%is_ascii_digit_value.
    unfold digit_value in Hb. lia. }
  repeat (apply Forall_app; split; [first [by apply Hdig|by repeat constructor]|]). by repeat constructor.
Qed.

Lemma ascii_payload text mode : PayloadMode_parse text = Ok mode -> utf8_valid text = true.
Proof.
  intros Hp%payload_spec. destruct mode; simpl in Hp; try (subst; reflexivity). apply ascii_utf8_valid.
  destruct Hp as [Hx _]. induction Hx as [|h l hi lo b text value Hh Hl _ _ IH]; [constructor|].
  assert (Hc : forall c v, hex_of c v -> bval c < 128).
  { intros c v E%hex_of_digit. by_bytes (fun c => implb (bool_decide (is_Some (hex_digit c))) (bval c <? 128)) c.
    rewrite bool_decide_true in H0 by eauto. by apply Z.ltb_lt in H0. }
  repeat constructor; eauto.
Qed.

Lemma headers_present m signed : headers_covered m signed -> forall n, n ∈ signed -> HeaderMap_get_all m n <> [].
Proof. by intros (_ & H1 & _). Qed.

Lemma accepted_header_spec req secret config v :
  accepted_header req secret config v <-> authentic_header req secret config v.
Proof.
  unfold accepted_header, authentic_header. split.
  - intros (auth & date & t & lit & c & Ha & Hs & Hh & Hd & _ & Ht & Hdate & Hw & Hl & _ & Hm & Hc & Hg & Htk
            & E1 & E2 & E3 & E4).
    exists auth, date, t, lit, c. cbv zeta. apply authorization_spec in Ha. apply time_spelling_spec in Ht.
    apply payload_spec in Hm. apply (canonical_request_spec _ _ _ false) in Hc; [|by apply headers_present].
    rewrite computed_tag_spec in Hg. apply header_text_spec in Htk. split_and!; try done.
    rewrite E4. by destruct (payload_mode v).
  - intros (auth & date & t & lit & c & Ha & Hs & Hh & Hd & Ht & Hdate & Hw & Hl & Hm & Hc & Hg & Htk
            & E1 & E2 & E3 & E4).
    exists auth, date, t, lit, c. apply authorization_spec in Ha. apply time_spelling_spec in Ht.
    apply payload_spec in Hm. apply (canonical_request_spec _ _ _ false) in Hc; [|by apply headers_present].
    apply header_text_spec in Htk. split_and!; try done;
      [by eapply ascii_time|by eapply ascii_payload|by rewrite computed_tag_spec|].
    rewrite E4. by destruct (payload_mode v).
Qed.

Lemma query_one_str_spec q name v : query_one_str q name = Ok v <-> given q name v.
Proof.
  unfold query_one_str, query_one, query_optional_one, given, from_utf8.
  destruct (QueryParams_get_all q name) as [|w [|]]; cbn [ok_or]; [naive_solver| |naive_solver].
  destruct (utf8_valid w) eqn:E; cbn [ok_or]; split; [intros [= <-]; done|intros [[= <-] _]; done|done|].
  intros [[= <-] ?]. congruence.
Qed.

Lemma query_one_spec q name v : query_one q name = Ok v <-> QueryParams_get_all q name = [v].
Proof.
  unfold query_one, query_optional_one. destruct (QueryParams_get_all q name) as [|w [|]]; cbn [ok_or]; naive_solver.
Qed.

Lemma presigned_spec q auth : parse_presigned_authorization q = Ok auth <-> presigned_of q auth.
Proof.
  unfold parse_presigned_authorization, presigned_of, MAX_PRESIGN_EXPIRY_SECONDS. cbv zeta. split.
  - intros Hp. destruct (query_one_str q (bs "X-Amz-Algorithm")) as [a|] eqn:Ea; [|done].
    case_bool_decide as Eq; [|done]. subst a. cbn [negb] in Hp.
    destruct (query_one_str q (bs "X-Amz-Expires")) as [e|] eqn:Ee; [|done].
    destruct (parse_u64 e) as [n|] eqn:En; [|done]. cbn [ok_or] in Hp.
    destruct (in_range 1 _ n) eqn:Er; [|done]. cbn [negb] in Hp. unfold in_range in Er. bool_hyps.
    destruct (query_one_str q (bs "X-Amz-Credential")) as [ct|] eqn:Ec; [|done].
    destruct (parse_credential ct) as [c|] eqn:Ec2; [|done].
    destruct (query_one_str q (bs "X-Amz-SignedHeaders")) as [nt|] eqn:Eh; [|done].
    destruct (parse_signed_headers nt) as [names|] eqn:Eh2; [|done].
    destruct (query_one q (bs "X-Amz-Signature")) as [st|] eqn:Es; [|done].
    destruct (decode_hex_32 st) as [sig|] eqn:Es2; [|done].
    destruct (query_one_str q (bs "X-Amz-Date")) as [d|] eqn:Ed; [|done]. injection Hp as <-.
    cbn [pa_credential pa_expires_seconds pa_signed_headers pa_signature pa_amz_date].
    apply query_one_str_spec in Ea, Ee, Ec, Eh, Ed. apply query_one_spec in Es.
    apply integer_spec in En; [|unfold u64_max; lia].
    rewrite (CredentialScope_eta c) in Ec2. apply credential_spec in Ec2. apply signed_names_spec in Eh2.
    apply digest_spelling_spec in Es2. split_and!; eauto; lia.
  - intros (Ea & (e & Ee & En) & Hr & (ct & Ec & Ec2) & (nt & Eh & Eh2) & (st & Es & Es2) & Ed).
    apply query_one_str_spec in Ea, Ee, Ec, Eh, Ed. apply query_one_spec in Es.
    apply integer_spec in En; [|unfold u64_max; lia]. apply credential_spec in Ec2.
    rewrite <- CredentialScope_eta in Ec2. apply signed_names_spec in Eh2. apply digest_spelling_spec in Es2.
    rewrite Ea. rewrite bool_decide_true by done. cbn [negb]. rewrite Ee, En. cbn [ok_or].
    assert (Er : in_range 1 (7 * 24 * 60 * 60) (pa_expires_seconds auth) = true)
      by (unfold in_range; apply andb_true_iff; split; apply Z.leb_le; lia).
    rewrite Er. cbn [negb]. rewrite Ec, Ec2, Eh, Eh2, Es, Es2, Ed. by destruct auth.
Qed.

Lemma accepted_presigned_spec req secret config v :
  accepted_presigned req secret config v <-> authentic_presigned req secret config v.
Proof.
  unfold accepted_presigned, authentic_presigned. split.
  - intros (auth & t & c & Ha & _ & Hs & Hh & Ht & Hdate & Hw & Hc & Hg & Htk & E1 & E2 & E3 & E4 & E5).
    exists auth, t, c. cbv zeta. apply presigned_spec in Ha. apply time_spelling_spec in Ht.
    apply (canonical_request_spec _ _ _ true) in Hc; [|by apply headers_present].
    rewrite computed_tag_spec in Hg. apply query_text_spec in Htk. by split_and!.
  - intros (auth & t & c & Ha & Hs & Hh & Ht & Hdate & Hw & Hc & Hg & Htk & E1 & E2 & E3 & E4 & E5).
    exists auth, t, c. pose proof Ha as (_ & _ & Hr & _). apply presigned_spec in Ha.
    apply time_spelling_spec in Ht.
    apply (canonical_request_spec _ _ _ true) in Hc; [|by apply headers_present].
    apply query_text_spec in Htk. rewrite <- computed_tag_spec in Hg. split_and!; try done; lia.
Qed.
End Spec.

(** * Properties *)

(** C3: Authorization-header verification is exact.  A request is accepted, with
    this result, if and only if: its one Authorization header is a well-formed
    AWS4-HMAC-SHA256 value; its credential names the expected service and
    region; host, every signed name it lists and every x-amz-* header but
    x-amz-content-sha256 are signed and present; its one x-amz-date is a valid
    time, in the credential's day and within the clock skew; its payload hash is
    one of the four forms; a security token is given at most once; and its
    signature is the HMAC, under the key derived from AWS4 and the secret by
    date, region, service and aws4_request, of the string to sign of its
    canonical request, all as Signature Version 4 spells them. *)
Theorem verify_header_correct `{Crypto} (req : SigV4Request) (secret : bytes)
  (config : VerificationConfig) (v : VerifiedSignature) :
  verify_header req secret config = Ok v <-> authentic_header req secret config v.
Proof. rewrite verify_header_iff. apply accepted_header_spec. Qed.

(** C4: Presigned-URL verification is exact, for a clock skew that is not
    negative.  A request is accepted, with this result, if and only if: its
    X-Amz-* query parameters, each given once, name the algorithm, an expiry of
    1 to 604800 seconds, a well-formed credential for the expected service and
    region, sorted signed header names, a signature and a valid time in the
    credential's day; host, every name listed and every x-amz-* header but
    x-amz-content-sha256 are signed and present; the server time lies between
    the signing time less the skew and the signing time plus the expiry, with no
    effect of the saturating 64-bit arithmetic; a security token is given at
    most once; and the signature is the one Signature Version 4 defines for the
    canonical request without X-Amz-Signature and with an unsigned payload. *)
Theorem verify_presigned_correct `{Crypto} (req : SigV4Request) (secret : bytes)
  (config : VerificationConfig) (v : VerifiedSignature) :
  0 <= max_clock_skew config ->
  verify_presigned req secret config = Ok v <-> authentic_presigned req secret config v.
Proof. intros Hs. rewrite verify_presigned_iff by done. apply accepted_presigned_spec. Qed.

(** * Witnesses *)

#[local] Existing Instance sample_crypto.

Lemma verify_header_correct_witness :
  verify_header (SigV4Request_from signed_head) sample_secret sample_config = Ok sample_verified /\
  authentic_header (SigV4Request_from signed_head) sample_secret sample_config sample_verified.
Proof.
  split; [vm_compute; reflexivity|].
  apply (verify_header_correct (SigV4Request_from signed_head) sample_secret sample_config sample_verified).
  vm_compute. reflexivity.
Defined.

Definition presigned_query (signature : bytes) : bytes :=
  bs "X-Amz-Algorithm=AWS4-HMAC-SHA256&X-Amz-Credential=AK%2F20240506%2Fus-east-1%2Fs3%2Faws4_request"
  ++ bs "&X-Amz-Date=20240506T070809Z&X-Amz-Expires=600&X-Amz-SignedHeaders=host&X-Amz-Signature="
  ++ signature.

Definition presigned_request (signature : bytes) : SigV4Request := {|
  req_method := bs "GET";
  req_raw_path := bs "/bucket/key";
  req_raw_query := Some (presigned_query signature);
  req_query := match QueryParams_parse (presigned_query signature) with
               | Ok q => q | Err _ => {| pairs := [] |} end;
  req_headers := {| fields := [{| header_name := bs "host"; header_value := bs "s3.test" |}] |}
|}.

Definition presigned_signature : bytes :=
  Eval vm_compute in
    match parse_presigned_authorization (req_query (presigned_request (repeat x30 64))),
          build_canonical_request (presigned_request (repeat x30 64)) [bs "host"]
            (bs "UNSIGNED-PAYLOAD") true with
    | Ok a, Ok c => hex_lower (computed_tag sample_secret (pa_credential a) (pa_amz_date a) c)
    | _, _ => []
    end.

Definition presigned_verified : VerifiedSignature :=
  Eval vm_compute in
    match verify_presigned (presigned_request presigned_signature) sample_secret sample_config with
    | Ok v => v
    | Err _ => sample_verified
    end.

Lemma verify_presigned_correct_witness :
  verify_presigned (presigned_request presigned_signature) sample_secret sample_config
    = Ok presigned_verified /\
  authentic_presigned (presigned_request presigned_signature) sample_secret sample_config presigned_verified.
Proof.
  split; [vm_compute; reflexivity|].
  apply (verify_presigned_correct (presigned_request presigned_signature) sample_secret sample_config
           presigned_verified); [vm_compute; discriminate|vm_compute; reflexivity].
Defined.
