(* ===== verification/Base64.v ===== *)
(** The RFC 4648 base64 codec with padding: a concrete instance of the
    [base64] crate's interface, to evaluate definitions that take the codec as
    a parameter. *)
From S2P Require Import Prelude Text Http.

Definition alphabet : bytes :=
  bs "ABCDEFGHIJKLMNOPQRSTUVWXYZabcdefghijklmnopqrstuvwxyz0123456789+/".

Definition sextet (n : Z) : byte := default x3d (alphabet !! Z.to_nat n).

Fixpoint b64_encode (l : bytes) : bytes :=
  match l with
  | [] => []
  | [a] => let n := bval a * 65536 in [sextet (n / 262144); sextet (n / 4096 mod 64); x3d; x3d]
  | [a; b] =>
      let n := bval a * 65536 + bval b * 256 in
      [sextet (n / 262144); sextet (n / 4096 mod 64); sextet (n / 64 mod 64); x3d]
  | a :: b :: c :: r =>
      let n := bval a * 65536 + bval b * 256 + bval c in
      sextet (n / 262144) :: sextet (n / 4096 mod 64) :: sextet (n / 64 mod 64) :: sextet (n mod 64)
      :: b64_encode r
  end.

Definition sextet_value (b : byte) : Z :=
  match position (fun x => x ==b b) alphabet with Some i => Z.of_nat i | None => 0 end.

(** The bytes of the groups of four characters, padding read as zero bits. *)
Fixpoint b64_groups (l : bytes) : bytes :=
  match l with
  | w :: x :: y :: z :: r =>
      let n := sextet_value w * 262144 + sextet_value x * 4096 + sextet_value y * 64 + sextet_value z in
      let a := mkb (n / 65536) in
      let b := mkb (n / 256 mod 256) in
      let c := mkb (n mod 256) in
      if y ==b x3d then [a] else if z ==b x3d then [a; b] else a :: b :: c :: b64_groups r
  | _ => []
  end.

(** Only canonical texts decode. *)
Definition b64_decode (l : bytes) : option bytes :=
  let m := b64_groups l in if b64_encode m ==b l then Some m else None.

Lemma sextet_spec n : 0 <= n < 64 ->
  sextet_value (sextet n) = n /\ sextet n <> x3d /\ is_ascii_graphic (sextet n) = true.
Proof.
  intros Hn. assert (Hall : forallb (fun n => (sextet_value (sextet n) =? n) && negb (sextet n ==b x3d)
    && is_ascii_graphic (sextet n)) (seqZ 0 64) = true) by (vm_compute; done).
  apply forallb_elem with (x := n) in Hall; [|apply elem_of_seqZ; lia]. by bool_hyps.
Qed.

Lemma three_ind {A} (P : list A -> Prop) :
  P [] -> (forall a, P [a]) -> (forall a b, P [a; b]) ->
  (forall a b c r, P r -> P (a :: b :: c :: r)) -> forall l, P l.
Proof.
  intros H0 H1 H2 H3 l. induction l as [l IH] using length_ind.
  destruct l as [|a [|b [|c r]]]; auto. apply H3, IH. simpl. lia.
Qed.

(** The bytes of a group from its 24-bit number. *)
Lemma split_24 a b c : 0 <= a < 256 -> 0 <= b < 256 -> 0 <= c < 256 ->
  let n := a * 65536 + b * 256 + c in
  0 <= n / 262144 < 64 /\ 0 <= n / 4096 mod 64 < 64 /\ 0 <= n / 64 mod 64 < 64 /\ 0 <= n mod 64 < 64 /\
  n / 262144 * 262144 + n / 4096 mod 64 * 4096 + n / 64 mod 64 * 64 + n mod 64 = n /\
  n / 65536 = a /\ n / 256 mod 256 = b /\ n mod 256 = c.
Proof. intros Ha Hb Hc n. subst n. Z.to_euclidean_division_equations. lia. Qed.

Lemma b64_groups_encode l : b64_groups (b64_encode l) = l.
Proof.
  induction l as [|a|a b|a b c r IH] using three_ind; [done|..]; cbn [b64_encode b64_groups]; cbv zeta.
  - pose proof (bval_range a) as Ha.
    destruct (split_24 (bval a) 0 0 Ha ltac:(lia) ltac:(lia)) as (R1 & R2 & R3 & R4 & Rs & Ra & Rb & Rc).
    rewrite Z.mul_0_l, !Z.add_0_r in *. destruct (sextet_spec _ R1) as (-> & _ & _), (sextet_spec _ R2) as (-> & _ & _).
    rewrite bool_decide_true by done. change (sextet_value x3d) with 0.
    assert (Hz : bval a * 65536 / 64 mod 64 = 0 /\ (bval a * 65536) mod 64 = 0)
      by (clear; split; Z.to_euclidean_division_equations; lia).
    destruct Hz as [Hz1 Hz2]. rewrite Hz1, Hz2, ?Z.mul_0_l, !Z.add_0_r in Rs. rewrite ?Z.mul_0_l, ?Z.add_0_r.
    rewrite Rs, Ra. by rewrite mkb_bval.
  - pose proof (bval_range a) as Ha. pose proof (bval_range b) as Hb.
    destruct (split_24 (bval a) (bval b) 0 Ha Hb ltac:(lia)) as (R1 & R2 & R3 & R4 & Rs & Ra & Rb & Rc).
    rewrite !Z.add_0_r in *.
    destruct (sextet_spec _ R1) as (-> & _ & _), (sextet_spec _ R2) as (-> & _ & _), (sextet_spec _ R3) as (E3 & N3 & _).
    rewrite E3, (bool_decide_false (_ = x3d)), bool_decide_true by done. change (sextet_value x3d) with 0.
    assert (Hz : (bval a * 65536 + bval b * 256) mod 64 = 0) by (clear; Z.to_euclidean_division_equations; lia).
    rewrite Hz, Z.add_0_r in Rs. rewrite ?Z.add_0_r, Rs, Ra, Rb. by rewrite !mkb_bval.
  - pose proof (bval_range a) as Ha. pose proof (bval_range b) as Hb. pose proof (bval_range c) as Hc.
    destruct (split_24 _ _ _ Ha Hb Hc) as (R1 & R2 & R3 & R4 & Rs & Ra & Rb & Rc).
    destruct (sextet_spec _ R1) as (-> & _ & _), (sextet_spec _ R2) as (-> & _ & _),
      (sextet_spec _ R3) as (-> & N3 & _), (sextet_spec _ R4) as (-> & N4 & _).
    rewrite (bool_decide_false (_ = x3d)) by done. rewrite (bool_decide_false (_ = x3d)) by done.
    rewrite Rs, Ra, Rb, Rc, !mkb_bval. by rewrite IH.
Qed.

Lemma b64_roundtrip l : b64_decode (b64_encode l) = Some l.
Proof. unfold b64_decode. rewrite b64_groups_encode. by rewrite bool_decide_true. Qed.

Lemma b64_length l : length (b64_encode l) = (4 * ((length l + 2) / 3))%nat.
Proof.
  induction l as [|a|a b|a b c r IH] using three_ind; [done..|]. cbn [b64_encode length]. rewrite IH.
  replace (S (S (S (length r))) + 2)%nat with ((length r + 2) + 1 * 3)%nat by lia.
  rewrite Nat.div_add by lia. lia.
Qed.

Lemma b64_graphic l : forallb is_ascii_graphic (b64_encode l) = true.
Proof.
  assert (Hs : forall n, is_ascii_graphic (sextet n) = true).
  { intros n. destruct (decide (0 <= n < 64)) as [Hn|Hn]; [by apply sextet_spec|].
    unfold sextet. destruct (decide (n < 0)); [rewrite Z2Nat.nonpos by lia; done|].
    rewrite lookup_ge_None_2; [done|]. change (length alphabet) with 64%nat. lia. }
  induction l as [|a|a b|a b c r IH] using three_ind; [done|..]; cbn [b64_encode forallb];
    cbv zeta; rewrite ?Hs, ?IH; done.
Qed.
