(* ===== verification/Chunked.v ===== *)
(** The incremental aws-chunked decoder of [src/src/protocol/chunked.rs]: the
    whole state machine [AwsChunkedDecoder] with its buffer and compaction,
    chunk signatures, trailers and checksums.  The checksum functions and the
    base64 codec of the external crates are the interface [Digests].
    Theorems: the decoder never panics and stays within its bounds, its result
    does not depend on how the input is fragmented, encoded bodies decode to
    themselves, and only data whose checksums verify is reported complete;
    [ChunkedWire] adds the signatures. *)
From S2P Require Import Prelude Text Http Headers Canonical SigV4 Base64.

(** * The digest interface *)

(** A streaming hasher is the sequence of bytes it has absorbed; [finalize]
    applies the digest to that sequence.  [crc32], [crc32c] and [crc64nvme]
    are the values of the [crc32fast] and [crc] crates. *)
Class Digests := {
  digest_crypto :: Crypto;
  crc32 : bytes -> Z;
  crc32c : bytes -> Z;
  crc64nvme : bytes -> Z;
  sha1 : bytes -> bytes;
  base64_encode : bytes -> bytes;
  base64_decode : bytes -> option bytes;
  sha1_length : forall m, length (sha1 m) = 20%nat;
  base64_roundtrip : forall m, base64_decode (base64_encode m) = Some m;
  base64_length : forall m, length (base64_encode m) = (4 * ((length m + 2) / 3))%nat;
  base64_graphic : forall m, forallb is_ascii_graphic (base64_encode m) = true
}.

(** [to_be_bytes] of an [n]-byte integer. *)
Fixpoint be_bytes (n : nat) (z : Z) : bytes :=
  match n with
  | O => []
  | S n' => be_bytes n' (z / 256) ++ [mkb z]
  end.

(** * Data *)

Definition EMPTY_SHA256 : bytes :=
  bs "e3b0c44298fc1c149afbf4c8996fb92427ae41e4649b934ca495991b7852b855".
Definition MAX_BUFFERED_CHUNK_BYTES : Z := 1024 * 1024.

Record ChunkedLimits := {
  max_chunk_header_bytes : Z;
  max_chunk_bytes : Z;
  max_decoded_bytes : Z;
  max_trailer_bytes : Z;
  max_trailers : Z;
  expected_decoded_length : option Z
}.

Definition default_chunked_limits : ChunkedLimits := {|
  max_chunk_header_bytes := 1024;
  max_chunk_bytes := MAX_BUFFERED_CHUNK_BYTES;
  max_decoded_bytes := 5 * 1024 * 1024 * 1024;
  max_trailer_bytes := 16 * 1024;
  max_trailers := 8;
  expected_decoded_length := None
|}.

Inductive AwsChunkedMode :=
| Signed (context : StreamingSigningContext)
| UnsignedTrailer (declared_trailers : list bytes).

Inductive DecodeStatus := NeedMore | Done.

Record DecodedTrailer := { trailer_name : bytes; trailer_value : bytes }.

Module ChunkedError.
Inductive ChunkedError :=
| InputAfterEnd
| HeaderTooLarge
| InvalidChunkHeader
| ChunkTooLarge
| MissingChunkSignature
| UnexpectedChunkSignature
| ChunkSignatureMismatch
| MissingChunkTerminator
| DecodedBodyTooLarge
| DecodedLengthMismatch (expected actual : Z)
| TrailerTooLarge
| TooManyTrailers
| InvalidTrailer
| DuplicateTrailer (name : bytes)
| UndeclaredTrailer (name : bytes)
| MissingTrailer (name : bytes)
| UnsupportedChecksum (name : bytes)
| InvalidChecksumEncoding (name : bytes)
| ChecksumMismatch (name : bytes)
| UnexpectedTrailer.
End ChunkedError.
Abbreviation ChunkedError := ChunkedError.ChunkedError.

(** [impl Display for ChunkedError] *)
Definition ChunkedError_display (e : ChunkedError) : bytes :=
  match e with
  | ChunkedError.InputAfterEnd => bs "bytes follow the final aws-chunked trailer"
  | ChunkedError.HeaderTooLarge => bs "aws-chunked header line is too large"
  | ChunkedError.InvalidChunkHeader => bs "invalid aws-chunked size or extension"
  | ChunkedError.ChunkTooLarge => bs "aws-chunked data chunk exceeds its limit"
  | ChunkedError.MissingChunkSignature => bs "signed aws-chunked chunk has no signature"
  | ChunkedError.UnexpectedChunkSignature => bs "unsigned aws-chunked chunk unexpectedly has a signature"
  | ChunkedError.ChunkSignatureMismatch => bs "aws-chunked signature chain does not match"
  | ChunkedError.MissingChunkTerminator => bs "aws-chunked data lacks its trailing CRLF"
  | ChunkedError.DecodedBodyTooLarge => bs "decoded aws-chunked body exceeds its limit"
  | ChunkedError.DecodedLengthMismatch expected actual =>
      bs "decoded body length " ++ show_Z actual ++ bs " does not match declared length " ++ show_Z expected
  | ChunkedError.TrailerTooLarge => bs "aws-chunked trailers exceed their size limit"
  | ChunkedError.TooManyTrailers => bs "aws-chunked body has too many trailers"
  | ChunkedError.InvalidTrailer => bs "invalid aws-chunked trailer field"
  | ChunkedError.DuplicateTrailer name => bs "duplicate aws-chunked trailer " ++ name
  | ChunkedError.UndeclaredTrailer name => bs "undeclared aws-chunked trailer " ++ name
  | ChunkedError.MissingTrailer name => bs "declared aws-chunked trailer is missing: " ++ name
  | ChunkedError.UnsupportedChecksum name => bs "unsupported aws-chunked checksum: " ++ name
  | ChunkedError.InvalidChecksumEncoding name => bs "invalid base64 checksum in aws-chunked trailer " ++ name
  | ChunkedError.ChecksumMismatch name => bs "aws-chunked checksum does not match: " ++ name
  | ChunkedError.UnexpectedTrailer => bs "signed non-trailer payload contains trailers"
  end.

(** An operation fails with an error of its own, or panics in an [expect]. *)
Inductive fault :=
| Fail (e : ChunkedError)
| Panic.

Inductive Phase := PHeader | PData | PDataCrlf | PTrailers | PDone.

Record CurrentChunk := {
  chunk_size : Z;
  chunk_data : bytes;
  chunk_signature : option bytes
}.

(** [AwsChunkedDecoder]; the five hashers hold the bytes they absorbed. *)
Record Decoder := {
  mode : AwsChunkedMode;
  dlimits : ChunkedLimits;
  phase : Phase;
  input : bytes;
  offset : nat;
  current : option CurrentChunk;
  decoded_bytes : Z;
  crc32_in : bytes;
  crc32c_in : bytes;
  crc64nvme_in : bytes;
  sha1_in : bytes;
  sha256_in : bytes;
  trailers : list DecodedTrailer;
  trailer_bytes : Z;
  previous_signature : option bytes
}.

Definition set_phase (p : Phase) (d : Decoder) : Decoder :=
  {| mode := mode d; dlimits := dlimits d; phase := p; input := input d; offset := offset d;
     current := current d; decoded_bytes := decoded_bytes d; crc32_in := crc32_in d;
     crc32c_in := crc32c_in d; crc64nvme_in := crc64nvme_in d; sha1_in := sha1_in d;
     sha256_in := sha256_in d; trailers := trailers d; trailer_bytes := trailer_bytes d;
     previous_signature := previous_signature d |}.

Definition set_buffer (i : bytes) (o : nat) (d : Decoder) : Decoder :=
  {| mode := mode d; dlimits := dlimits d; phase := phase d; input := i; offset := o;
     current := current d; decoded_bytes := decoded_bytes d; crc32_in := crc32_in d;
     crc32c_in := crc32c_in d; crc64nvme_in := crc64nvme_in d; sha1_in := sha1_in d;
     sha256_in := sha256_in d; trailers := trailers d; trailer_bytes := trailer_bytes d;
     previous_signature := previous_signature d |}.

Definition set_current (c : option CurrentChunk) (d : Decoder) : Decoder :=
  {| mode := mode d; dlimits := dlimits d; phase := phase d; input := input d; offset := offset d;
     current := c; decoded_bytes := decoded_bytes d; crc32_in := crc32_in d;
     crc32c_in := crc32c_in d; crc64nvme_in := crc64nvme_in d; sha1_in := sha1_in d;
     sha256_in := sha256_in d; trailers := trailers d; trailer_bytes := trailer_bytes d;
     previous_signature := previous_signature d |}.

Definition set_previous (s : option bytes) (d : Decoder) : Decoder :=
  {| mode := mode d; dlimits := dlimits d; phase := phase d; input := input d; offset := offset d;
     current := current d; decoded_bytes := decoded_bytes d; crc32_in := crc32_in d;
     crc32c_in := crc32c_in d; crc64nvme_in := crc64nvme_in d; sha1_in := sha1_in d;
     sha256_in := sha256_in d; trailers := trailers d; trailer_bytes := trailer_bytes d;
     previous_signature := s |}.

Definition set_decoded (n : Z) (d : Decoder) : Decoder :=
  {| mode := mode d; dlimits := dlimits d; phase := phase d; input := input d; offset := offset d;
     current := current d; decoded_bytes := n; crc32_in := crc32_in d;
     crc32c_in := crc32c_in d; crc64nvme_in := crc64nvme_in d; sha1_in := sha1_in d;
     sha256_in := sha256_in d; trailers := trailers d; trailer_bytes := trailer_bytes d;
     previous_signature := previous_signature d |}.

(** [update(data)] on every hasher. *)
Definition update_hashers (data : bytes) (d : Decoder) : Decoder :=
  {| mode := mode d; dlimits := dlimits d; phase := phase d; input := input d; offset := offset d;
     current := current d; decoded_bytes := decoded_bytes d; crc32_in := crc32_in d ++ data;
     crc32c_in := crc32c_in d ++ data; crc64nvme_in := crc64nvme_in d ++ data;
     sha1_in := sha1_in d ++ data; sha256_in := sha256_in d ++ data; trailers := trailers d;
     trailer_bytes := trailer_bytes d; previous_signature := previous_signature d |}.

Definition set_trailers (t : list DecodedTrailer) (n : Z) (d : Decoder) : Decoder :=
  {| mode := mode d; dlimits := dlimits d; phase := phase d; input := input d; offset := offset d;
     current := current d; decoded_bytes := decoded_bytes d; crc32_in := crc32_in d;
     crc32c_in := crc32c_in d; crc64nvme_in := crc64nvme_in d; sha1_in := sha1_in d;
     sha256_in := sha256_in d; trailers := t; trailer_bytes := n;
     previous_signature := previous_signature d |}.

(** The unread input. *)
Definition available (d : Decoder) : bytes := drop (offset d) (input d).

Definition advance (n : nat) (d : Decoder) : Decoder := set_buffer (input d) (offset d + n) d.

(** * Lines and headers *)

Definition supported_checksums : list bytes :=
  [bs "x-amz-checksum-crc32"; bs "x-amz-checksum-crc32c"; bs "x-amz-checksum-sha1";
   bs "x-amz-checksum-sha256"; bs "x-amz-checksum-crc64nvme"].

(** The loop of [validate_declarations]; [seen] is [declared[..index]]. *)
Fixpoint check_declared (seen declared : list bytes) : result ChunkedError unit :=
  match declared with
  | [] => Ok tt
  | name :: rest =>
      if negb (existsb (fun s => s ==b name) supported_checksums)
      then Err (ChunkedError.UnsupportedChecksum name)
      else if existsb (fun s => s ==b name) seen then Err (ChunkedError.DuplicateTrailer name)
      else check_declared (seen ++ [name]) rest
  end.

Definition validate_declarations (declared : list bytes) : result ChunkedError unit :=
  if is_empty declared then Err (ChunkedError.MissingTrailer (bs "x-amz-trailer"))
  else check_declared [] declared.

(** [u64::from_str_radix(value, 16)] on hexadecimal digits. *)
Definition from_str_radix_16 (value : bytes) : option Z :=
  checked 0 u64_max (foldl (fun acc b => acc * 16 + default 0 (hex_digit b)) 0 value).

(** One round of the loop over the extensions. *)
Definition chunk_extension (signature : option bytes) (extension : bytes)
  : result ChunkedError (option bytes) :=
  let* (name, value) := ok_or (split_once x3d extension) ChunkedError.InvalidChunkHeader in
  if negb (name ==b bs "chunk-signature")
     || match signature with Some _ => true | None => false end
  then Err ChunkedError.InvalidChunkHeader
  else
    let* s := map_err (fun _ => ChunkedError.InvalidChunkHeader) (decode_signature_hex value) in
    Ok (Some s).

Definition parse_chunk_header (line : bytes) : result ChunkedError (Z * option bytes) :=
  match split_on (fun b => b ==b x3b) line with
  | [] => Err ChunkedError.InvalidChunkHeader
  | size :: extensions =>
      if is_empty size || (16 <? len size) || negb (forallb is_ascii_hexdigit size)
      then Err ChunkedError.InvalidChunkHeader
      else
        let* size := ok_or (from_str_radix_16 size) ChunkedError.InvalidChunkHeader in
        let* signature := fold_result chunk_extension None extensions in
        Ok (size, signature)
  end.

(** [take_line] *)
Definition take_line (limit : Z) (trailer : bool) (d : Decoder)
  : Decoder * result ChunkedError (option bytes) :=
  let too_large := if trailer then ChunkedError.TrailerTooLarge else ChunkedError.HeaderTooLarge in
  match find_sub crlf (available d) with
  | None => if limit <? len (available d) then (d, Err too_large) else (d, Ok None)
  | Some position =>
      if limit <? Z.of_nat position then (d, Err too_large)
      else (advance (position + 2) d, Ok (Some (take position (available d))))
  end.

(** [compact] *)
Definition compact (d : Decoder) : Decoder :=
  if (offset d =? length (input d))%nat then set_buffer [] 0 d
  else if (64 * 1024 <? Z.of_nat (offset d)) && (len (input d) / 2 <? Z.of_nat (offset d))
  then set_buffer (drop (offset d) (input d)) 0 d
  else d.

(** [AwsChunkedDecoder::new] *)
Definition Decoder_new (m : AwsChunkedMode) (limits : ChunkedLimits) : result ChunkedError Decoder :=
  let* previous :=
    match m with
    | Signed context => Ok (Some (seed_signature context))
    | UnsignedTrailer declared => let* _ := validate_declarations declared in Ok None
    end in
  Ok {| mode := m; dlimits := limits; phase := PHeader; input := []; offset := 0; current := None;
        decoded_bytes := 0; crc32_in := []; crc32c_in := []; crc64nvme_in := []; sha1_in := [];
        sha256_in := []; trailers := []; trailer_bytes := 0; previous_signature := previous |}.

(** [finish] *)
Definition Decoder_finish (d : Decoder) : result ChunkedError unit :=
  match phase d with
  | PDone => Ok tt
  | PDataCrlf => Err ChunkedError.MissingChunkTerminator
  | PTrailers => Err ChunkedError.InvalidTrailer
  | PHeader | PData => Err ChunkedError.InvalidChunkHeader
  end.

(** * Chunks and trailers *)

Definition exceeds_length (n : Z) (limits : ChunkedLimits) : bool :=
  (max_decoded_bytes limits <? n)
  || match expected_decoded_length limits with Some e => e <? n | None => false end.

(** [accept_decoded]: the state, the bytes appended to the output, the result. *)
Definition accept_decoded (data : bytes) (d : Decoder) : Decoder * bytes * result ChunkedError unit :=
  match checked_add_u64 (decoded_bytes d) (len data) with
  | None => (d, [], Err ChunkedError.DecodedBodyTooLarge)
  | Some n =>
      let d := set_decoded n d in
      if exceeds_length n (dlimits d) then (d, [], Err ChunkedError.DecodedBodyTooLarge)
      else (update_hashers data d, data, Ok tt)
  end.

Section Decode.
Context `{Digests}.

Definition chunk_string_to_sign (context : StreamingSigningContext) (previous data : bytes) : bytes :=
  bs "AWS4-HMAC-SHA256-PAYLOAD" ++ LF :: amz_date context ++ LF :: credential_scope context
  ++ LF :: hex_lower previous ++ LF :: EMPTY_SHA256 ++ LF :: hex_lower (sha256 data).

(** [verify_chunk_signature]; the [expect] on the previous signature can panic. *)
Definition verify_chunk_signature (data signature : bytes) (d : Decoder) : result fault unit :=
  match mode d with
  | UnsignedTrailer _ => Err (Fail ChunkedError.UnexpectedChunkSignature)
  | Signed context =>
      match previous_signature d with
      | None => Err Panic
      | Some previous =>
          map_err (fun _ => Fail ChunkedError.ChunkSignatureMismatch)
            (verify_hmac (signing_key context) (chunk_string_to_sign context previous data) signature)
      end
  end.

Definition trailer_name_byte (b : byte) : bool :=
  is_ascii_lowercase b || is_ascii_digit b || (b ==b x2d).

(** [value.ends_with("\n")], then the value without it. *)
Definition strip_one_lf (value : bytes) : bytes :=
  match reverse value with
  | b :: rest => if b ==b LF then reverse rest else value
  | [] => value
  end.

(** [accept_trailer] *)
Definition accept_trailer (line : bytes) (d : Decoder) : Decoder * result ChunkedError unit :=
  match mode d with
  | Signed _ => (d, Err ChunkedError.UnexpectedTrailer)
  | UnsignedTrailer declared =>
      if max_trailers (dlimits d) <=? len (trailers d) then (d, Err ChunkedError.TooManyTrailers)
      else if match line with b :: _ => is_ows b | [] => false end
      then (d, Err ChunkedError.InvalidTrailer)
      else
        match split_once x3a line with
        | None => (d, Err ChunkedError.InvalidTrailer)
        | Some (name, rest) =>
            if is_empty name || negb (forallb trailer_name_byte name)
            then (d, Err ChunkedError.InvalidTrailer)
            else
              let value := strip_one_lf (trim_ows rest) in
              if is_empty value || negb (forallb is_ascii_graphic value)
              then (d, Err ChunkedError.InvalidTrailer)
              else if existsb (fun t => trailer_name t ==b name) (trailers d)
              then (d, Err (ChunkedError.DuplicateTrailer name))
              else if negb (existsb (fun n => n ==b name) declared)
              then (d, Err (ChunkedError.UndeclaredTrailer name))
              else (set_trailers (trailers d ++ [{| trailer_name := name; trailer_value := value |}])
                      (trailer_bytes d) d, Ok tt)
        end
  end.

(** [calculated_checksum]: the digest and the length of its base64 text. *)
Definition calculated_checksum (name : bytes) (d : Decoder) : option (bytes * Z) :=
  if name ==b bs "x-amz-checksum-crc32" then Some (be_bytes 4 (crc32 (crc32_in d)), 8)
  else if name ==b bs "x-amz-checksum-crc32c" then Some (be_bytes 4 (crc32c (crc32c_in d)), 8)
  else if name ==b bs "x-amz-checksum-sha1" then Some (sha1 (sha1_in d), 28)
  else if name ==b bs "x-amz-checksum-sha256" then Some (sha256 (sha256_in d), 44)
  else if name ==b bs "x-amz-checksum-crc64nvme" then Some (be_bytes 8 (crc64nvme (crc64nvme_in d)), 12)
  else None.

(** One declared trailer in [finish_trailers]. *)
Definition check_trailer (d : Decoder) (declared : bytes) : result ChunkedError unit :=
  let* t := ok_or (find (fun t => trailer_name t ==b declared) (trailers d))
              (ChunkedError.MissingTrailer declared) in
  let* (expected, encoded_length) :=
    ok_or (calculated_checksum declared d) (ChunkedError.UnsupportedChecksum declared) in
  if negb (len (trailer_value t) =? encoded_length)
  then Err (ChunkedError.InvalidChecksumEncoding declared)
  else
    let* supplied := ok_or (base64_decode (trailer_value t))
                       (ChunkedError.InvalidChecksumEncoding declared) in
    if negb (len supplied =? len expected) then Err (ChunkedError.InvalidChecksumEncoding declared)
    else if negb (constant_time_eq supplied expected) then Err (ChunkedError.ChecksumMismatch declared)
    else Ok tt.

(** [finish_trailers] *)
Definition finish_trailers (d : Decoder) : result ChunkedError unit :=
  let* _ :=
    match expected_decoded_length (dlimits d) with
    | Some expected =>
        if negb (decoded_bytes d =? expected)
        then Err (ChunkedError.DecodedLengthMismatch expected (decoded_bytes d)) else Ok tt
    | None => Ok tt
    end in
  match mode d with
  | Signed _ => if is_empty (trailers d) then Ok tt else Err ChunkedError.UnexpectedTrailer
  | UnsignedTrailer declared =>
      let* _ := traverse (check_trailer d) declared in Ok tt
  end.

(** * The loop of [push] *)

Inductive control :=
| Continue
| Return (r : result fault DecodeStatus).

Definition fail (e : ChunkedError) : control := Return (Err (Fail e)).

(** A chunk header line: the final chunk or the start of a data chunk. *)
Definition open_chunk (line : bytes) (d : Decoder) : Decoder * control :=
  match parse_chunk_header line with
  | Err e => (d, fail e)
  | Ok (size, signature) =>
      if Z.min (max_chunk_bytes (dlimits d)) MAX_BUFFERED_CHUNK_BYTES <? size
      then (d, fail ChunkedError.ChunkTooLarge)
      else
        match checked_add_u64 (decoded_bytes d) size with
        | None => (d, fail ChunkedError.DecodedBodyTooLarge)
        | Some decoded_after_chunk =>
            if exceeds_length decoded_after_chunk (dlimits d)
            then (d, fail ChunkedError.DecodedBodyTooLarge)
            else
              match mode d, signature with
              | Signed _, None => (d, fail ChunkedError.MissingChunkSignature)
              | UnsignedTrailer _, Some _ => (d, fail ChunkedError.UnexpectedChunkSignature)
              | _, _ =>
                  if size =? 0 then
                    match signature with
                    | Some s =>
                        match verify_chunk_signature [] s d with
                        | Err f => (d, Return (Err f))
                        | Ok _ => (set_phase PTrailers (set_previous (Some s) d), Continue)
                        end
                    | None => (set_phase PTrailers d, Continue)
                    end
                  else
                    (set_phase PData (set_current
                       (Some {| chunk_size := size; chunk_data := [];
                                chunk_signature := signature |}) d), Continue)
              end
        end
  end.

Definition header_phase (d : Decoder) : Decoder * control :=
  match take_line (max_chunk_header_bytes (dlimits d)) false d with
  | (d, Err e) => (d, fail e)
  | (d, Ok None) => (d, Return (Ok NeedMore))
  | (d, Ok (Some line)) => open_chunk line d
  end.

Definition data_phase (d : Decoder) : Decoder * control :=
  match current d with
  | None => (d, Return (Err Panic))
  | Some c =>
      let remaining := chunk_size c - len (chunk_data c) in
      let avail := available d in
      if is_empty avail then (d, Return (Ok NeedMore))
      else
        let count := Z.to_nat (Z.min remaining (len avail)) in
        let data := chunk_data c ++ take count avail in
        let d := advance count (set_current (Some {| chunk_size := chunk_size c; chunk_data := data;
                   chunk_signature := chunk_signature c |}) d) in
        if len data =? chunk_size c then (set_phase PDataCrlf d, Continue) else (d, Continue)
  end.

Definition crlf_phase (d : Decoder) : Decoder * bytes * control :=
  match available d with
  | a :: b :: _ =>
      if negb ([a; b] ==b crlf) then (d, [], fail ChunkedError.MissingChunkTerminator)
      else
        let d := advance 2 d in
        match current d with
        | None => (d, [], Return (Err Panic))
        | Some c =>
            let d := set_current None d in
            let verified :=
              match chunk_signature c with
              | Some s => match verify_chunk_signature (chunk_data c) s d with
                          | Err f => Err f
                          | Ok _ => Ok (set_previous (Some s) d)
                          end
              | None => Ok d
              end in
            match verified with
            | Err f => (d, [], Return (Err f))
            | Ok d =>
                match accept_decoded (chunk_data c) d with
                | (d, out, Err e) => (d, out, fail e)
                | (d, out, Ok _) => (set_phase PHeader d, out, Continue)
                end
            end
        end
  | _ => (d, [], Return (Ok NeedMore))
  end.

(** A trailer line, or the empty line that ends the body. *)
Definition trailer_line (line : bytes) (d : Decoder) : Decoder * control :=
  match checked_add_u64 (trailer_bytes d) (len line + 2) with
  | None => (d, fail ChunkedError.TrailerTooLarge)
  | Some n =>
      let d := set_trailers (trailers d) n d in
      if max_trailer_bytes (dlimits d) <? n then (d, fail ChunkedError.TrailerTooLarge)
      else if is_empty line then
        match finish_trailers d with
        | Err e => (d, fail e)
        | Ok _ =>
            let d := set_phase PDone d in
            if negb (is_empty (available d)) then (d, fail ChunkedError.InputAfterEnd)
            else (d, Return (Ok Done))
        end
      else
        match accept_trailer line d with
        | (d, Err e) => (d, fail e)
        | (d, Ok _) => (d, Continue)
        end
  end.

Definition trailers_phase (d : Decoder) : Decoder * control :=
  match take_line (max_trailer_bytes (dlimits d)) true d with
  | (d, Err e) => (d, fail e)
  | (d, Ok None) => (d, Return (Ok NeedMore))
  | (d, Ok (Some line)) => trailer_line line d
  end.

(** One iteration of the loop: the state, the output, what happens next. *)
Definition step (d : Decoder) : Decoder * bytes * control :=
  match phase d with
  | PHeader => let (d, c) := header_phase d in (d, [], c)
  | PData => let (d, c) := data_phase d in (d, [], c)
  | PDataCrlf => crlf_phase d
  | PTrailers => let (d, c) := trailers_phase d in (d, [], c)
  | PDone => (d, [], Return (Ok Done))
  end.

(** The loop with fuel; every iteration that continues consumes input, so one
    more round than there are unread bytes is enough ([push_terminates]). *)
Fixpoint run (fuel : nat) (d : Decoder) : Decoder * bytes * option (result fault DecodeStatus) :=
  match fuel with
  | O => (d, [], None)
  | S fuel' =>
      match step d with
      | (d', out, Return r) => (d', out, Some r)
      | (d', out, Continue) =>
          let '(d'', out', r) := run fuel' d' in (d'', out ++ out', r)
      end
  end.

(** [push]: the new state, the bytes appended to the output, the result. *)
Definition push (d : Decoder) (b : bytes) : Decoder * bytes * option (result fault DecodeStatus) :=
  match phase d with
  | PDone => (d, [], Some (if is_empty b then Ok Done else Err (Fail ChunkedError.InputAfterEnd)))
  | _ =>
      let d := compact d in
      let d := set_buffer (input d ++ b) (offset d) d in
      run (S (length (available d))) d
  end.
End Decode.

(** * Specifications *)

(** The text of the checksum a trailer promises is that of [body]. *)
Definition checksum_of `{Digests} (name body : bytes) : option bytes :=
  if name ==b bs "x-amz-checksum-crc32" then Some (be_bytes 4 (crc32 body))
  else if name ==b bs "x-amz-checksum-crc32c" then Some (be_bytes 4 (crc32c body))
  else if name ==b bs "x-amz-checksum-sha1" then Some (sha1 body)
  else if name ==b bs "x-amz-checksum-sha256" then Some (sha256 body)
  else if name ==b bs "x-amz-checksum-crc64nvme" then Some (be_bytes 8 (crc64nvme body))
  else None.

Definition within_limits (limits : ChunkedLimits) (n : Z) : Prop :=
  n <= max_decoded_bytes limits /\ n <= u64_max /\
  forall e, expected_decoded_length limits = Some e -> n <= e.

(** The chunk being received. *)
Definition receiving (d : Decoder) (c : CurrentChunk) : Prop :=
  current d = Some c /\ 0 < chunk_size c <= Z.min (max_chunk_bytes (dlimits d)) MAX_BUFFERED_CHUNK_BYTES /\
  within_limits (dlimits d) (decoded_bytes d + chunk_size c) /\
  match mode d with Signed _ => chunk_signature c <> None | UnsignedTrailer _ => chunk_signature c = None end.

(** The invariant between pushes, of a decoder that has released [out]. *)
Record decoder_inv `{Digests} (d : Decoder) (out : bytes) : Prop := {
  inv_offset : (offset d <= length (input d))%nat;
  inv_hashers : crc32_in d = out /\ crc32c_in d = out /\ crc64nvme_in d = out /\
                sha1_in d = out /\ sha256_in d = out;
  inv_decoded : decoded_bytes d = len out;
  inv_trailer_bytes : 0 <= trailer_bytes d;
  inv_limits : 0 < len out -> within_limits (dlimits d) (len out);
  inv_phase : match phase d with
              | PData => exists c, receiving d c /\ len (chunk_data c) < chunk_size c
              | PDataCrlf => exists c, receiving d c /\ len (chunk_data c) = chunk_size c
              | _ => True
              end;
  inv_chain : match mode d with
              | Signed _ => previous_signature d <> None
              | UnsignedTrailer _ => True
              end
}.

(** The length and the checksum trailers of a finished decoder's output. *)
Definition checked_output `{Digests} (d : Decoder) (out : bytes) : Prop :=
  (forall e, expected_decoded_length (dlimits d) = Some e -> len out = e) /\
  match mode d with
  | Signed _ => trailers d = []
  | UnsignedTrailer declared =>
      forall name, name ∈ declared ->
        exists t digest, t ∈ trailers d /\ trailer_name t = name /\ checksum_of name out = Some digest /\
                         base64_decode (trailer_value t) = Some digest
  end.

(** * Lemmas: the phases preserve the invariant *)

Lemma available_advance n d : available (advance n d) = drop n (available d).
Proof. unfold available, advance. simpl. by rewrite drop_drop, Nat.add_comm. Qed.

(** The decoder with [m] appended to its buffer. *)
Definition extend (m : bytes) (d : Decoder) : Decoder := set_buffer (input d ++ m) (offset d) d.

Lemma available_extend m d : (offset d <= length (input d))%nat ->
  available (extend m d) = available d ++ m.
Proof. intros. unfold available. simpl. by rewrite drop_app_le. Qed.

Lemma length_available d : length (available d) = (length (input d) - offset d)%nat.
Proof. apply length_drop. Qed.

Lemma exceeds_length_false n limits : exceeds_length n limits = false <->
  n <= max_decoded_bytes limits /\ forall e, expected_decoded_length limits = Some e -> n <= e.
Proof.
  unfold exceeds_length. rewrite orb_false_iff, Z.ltb_ge.
  destruct (expected_decoded_length limits); rewrite ?Z.ltb_ge; naive_solver.
Qed.

(** [take_line] either leaves the buffer alone or consumes one line. *)
Lemma take_line_cases limit trailer d d' r :
  take_line limit trailer d = (d', r) ->
  match r with
  | Ok (Some line) =>
      exists rest, available d = line ++ crlf ++ rest /\ available d' = rest /\
        d' = advance (length line + 2) d /\ find_sub crlf (available d) = Some (length line) /\
        len line <= limit
  | Ok None => d' = d /\ find_sub crlf (available d) = None /\ len (available d) <= limit
  | Err e => d' = d /\ e = (if trailer then ChunkedError.TrailerTooLarge else ChunkedError.HeaderTooLarge) /\
             (find_sub crlf (available d) = None /\ limit < len (available d) \/
              exists p, find_sub crlf (available d) = Some p /\ limit < Z.of_nat p)
  end.
Proof.
  unfold take_line. destruct (find_sub crlf (available d)) as [p|] eqn:Ef.
  - destruct (Z.ltb_spec limit (Z.of_nat p)); intros; simplify_eq; [naive_solver|].
    pose proof (find_sub_Some _ _ _ Ef) as [Hs Hl]. change (length crlf) with 2%nat in *.
    assert (Hlen : length (take p (available d)) = p) by (rewrite length_take; lia).
    exists (drop (p + 2) (available d)). rewrite Hlen. split_and!; [done| |done|done|].
    + by rewrite available_advance.
    + unfold len. rewrite Hlen. lia.
  - destruct (Z.ltb_spec limit (len (available d))); intros; simplify_eq; naive_solver.
Qed.

Section Invariant.
Context `{Digests}.

Lemma verify_chunk_signature_Ok data s d :
  verify_chunk_signature data s d = Ok tt ->
  exists context previous, mode d = Signed context /\ previous_signature d = Some previous /\
    s = hmac_sha256 (signing_key context) (chunk_string_to_sign context previous data).
Proof.
  unfold verify_chunk_signature. destruct (mode d) as [context|]; [|done].
  destruct (previous_signature d) as [previous|]; [|done].
  intros Hv%map_err_Ok%verify_hmac_Ok. eauto.
Qed.

Lemma verify_chunk_signature_no_panic data s d out :
  decoder_inv d out -> verify_chunk_signature data s d <> Err Panic.
Proof.
  intros [_ _ _ _ _ _ Hc]. unfold verify_chunk_signature. destruct (mode d) as [context|]; [|done].
  destruct (previous_signature d); [|done]. by destruct (verify_hmac _ _ _).
Qed.

(** Moving the read position keeps the invariant. *)
Lemma inv_advance d out n :
  decoder_inv d out -> (n <= length (available d))%nat -> decoder_inv (advance n d) out.
Proof.
  intros [? ? ? ? ? ? ?] Hn. rewrite length_available in Hn. split; simpl; try done; lia.
Qed.

(** A data chunk is announced. *)
Lemma inv_open_chunk d out size sig :
  phase d = PHeader -> decoder_inv d out -> 0 < size ->
  size <= Z.min (max_chunk_bytes (dlimits d)) MAX_BUFFERED_CHUNK_BYTES ->
  within_limits (dlimits d) (decoded_bytes d + size) ->
  match mode d with Signed _ => sig <> None | UnsignedTrailer _ => sig = None end ->
  decoder_inv (set_phase PData (set_current (Some {| chunk_size := size; chunk_data := [];
                 chunk_signature := sig |}) d)) out.
Proof.
  intros Hp [? ? ? ? ? ? Hc] Hs Hmax Hl Hsig.
  split; simpl; try done. eexists. split; [split; [done|]|done]. simpl. split_and!; try done; lia.
Qed.

(** The final chunk of a signed body. *)
Lemma inv_final_signed d out s :
  decoder_inv d out -> verify_chunk_signature [] s d = Ok tt ->
  decoder_inv (set_phase PTrailers (set_previous (Some s) d)) out.
Proof.
  intros [? ? ? ? ? ? Hc] (context & previous & Em & Hprev & ->)%verify_chunk_signature_Ok.
  split; simpl; try done. by rewrite Em.
Qed.

Lemma parse_chunk_header_nonneg line size sig : parse_chunk_header line = Ok (size, sig) -> 0 <= size.
Proof.
  unfold parse_chunk_header. destruct (split_on _ line); [done|]. destruct (_ || _ || _); [done|].
  destruct (from_str_radix_16 _) as [n|] eqn:En; [|done]. cbn [ok_or].
  destruct (fold_result _ _ _); [|done]. intros [= <- _].
  apply checked_Some in En as [-> ?]. lia.
Qed.

(** What one iteration of the loop guarantees. *)
Definition step_ok (d : Decoder) (out : bytes) (d' : Decoder) (o : bytes) (c : control) : Prop :=
  match c with
  | Continue => decoder_inv d' (out ++ o) /\ (length (available d') < length (available d))%nat /\
                phase d' <> PDone
  | Return (Ok NeedMore) => d' = d /\ o = []
  | Return (Ok Done) => decoder_inv d' (out ++ o) /\ phase d' = PDone /\ checked_output d' (out ++ o) /\
                        available d' = []
  | Return (Err (Fail _)) => True
  | Return (Err Panic) => False
  end.

Lemma header_phase_inv d out d' c :
  phase d = PHeader -> decoder_inv d out -> header_phase d = (d', c) -> step_ok d out d' [] c.
Proof.
  intros Hp Hi Hh. unfold header_phase in Hh.
  destruct (take_line _ _ d) as [d1 r] eqn:Et. apply take_line_cases in Et.
  destruct r as [[line|]|e]; [|destruct Et as (-> & _ & _); by simplify_eq..].
  destruct Et as (rest & Ha & Ha' & Hd1 & _ & _).
  assert (Hlt : (length (available d1) < length (available d))%nat)
    by (rewrite Ha', Ha, !length_app; simpl; lia).
  assert (Hi1 : decoder_inv d1 out)
    by (rewrite Hd1; apply inv_advance; [done|]; rewrite Ha, !length_app; simpl; lia).
  assert (Hp1 : phase d1 = PHeader) by (by rewrite Hd1). clear Ha Ha' rest Hd1. unfold open_chunk in Hh.
  destruct (parse_chunk_header line) as [[size sig]|] eqn:Eh; [|by simplify_eq].
  apply parse_chunk_header_nonneg in Eh.
  destruct (Z.ltb_spec (Z.min (max_chunk_bytes (dlimits d1)) MAX_BUFFERED_CHUNK_BYTES) size); [by simplify_eq|].
  destruct (checked_add_u64 (decoded_bytes d1) size) as [n|] eqn:En; [|by simplify_eq].
  apply checked_Some in En as [-> En]. destruct (exceeds_length _ _) eqn:Ee; [by simplify_eq|].
  apply exceeds_length_false in Ee.
  assert (Hw : within_limits (dlimits d1) (decoded_bytes d1 + size)) by (split_and!; naive_solver lia).
  assert (Hopen : size <> 0 -> match mode d1 with Signed _ => sig <> None | UnsignedTrailer _ => sig = None end ->
    decoder_inv (set_phase PData (set_current (Some {| chunk_size := size; chunk_data := [];
                 chunk_signature := sig |}) d1)) out) by (intros; apply inv_open_chunk; done || lia).
  unfold step_ok. rewrite app_nil_r.
  destruct (mode d1) as [context|decl] eqn:Em, sig as [s|]; try by simplify_eq.
  - destruct (Z.eqb_spec size 0); [|simplify_eq; split_and!; auto].
    destruct (verify_chunk_signature [] s d1) as [[]|f] eqn:Ev; simplify_eq.
    + split_and!; [by apply inv_final_signed|done..].
    + destruct f; [done|]. by eapply verify_chunk_signature_no_panic in Ev.
  - destruct (Z.eqb_spec size 0); simplify_eq; split_and!; auto.
    destruct Hi1 as [? ? ? ? ? ? Hc]. split; simpl; try done.
Qed.

Lemma data_phase_inv d out d' c :
  phase d = PData -> decoder_inv d out -> data_phase d = (d', c) -> step_ok d out d' [] c.
Proof.
  intros Hp Hi Hh. pose proof Hi as [Ho ? ? ? ? Hph Hc]. rewrite Hp in Hph.
  destruct Hph as (cur & (Hcur & Hs & Hw & Hm) & Hlen).
  unfold data_phase in Hh. rewrite Hcur in Hh.
  destruct (is_empty (available d)) eqn:Ee; [by simplify_eq|]. apply is_empty_false in Ee.
  set (avail := available d) in *. assert (Hav : 0 < len avail)
    by (pose proof (len_nonneg avail); destruct (Z.eq_dec (len avail) 0) as [E%len_zero|]; [done|lia]).
  set (count := Z.to_nat (Z.min (chunk_size cur - len (chunk_data cur)) (len avail))) in *.
  assert (Hcount : (0 < count <= length avail)%nat) by (unfold count, len in *; lia).
  assert (Hl : len (chunk_data cur ++ take count avail) = len (chunk_data cur) + Z.of_nat count)
    by (rewrite len_app; unfold len at 2; rewrite length_take; lia).
  assert (Hlt : forall d2 ph, available d2 = drop count avail ->
            (length (available (set_phase ph d2)) < length avail)%nat)
    by (intros d2 ph E; change (available (set_phase ph d2)) with (available d2); rewrite E, length_drop; lia).
  assert (Hoff : (offset d + count <= length (input d))%nat)
    by (unfold avail in Hcount; rewrite length_available in Hcount; lia).
  unfold step_ok. rewrite app_nil_r. rewrite Hl in Hh.
  assert (Hle : len (chunk_data cur) + Z.of_nat count <= chunk_size cur) by (unfold count; lia).
  destruct (Z.eqb_spec (len (chunk_data cur) + Z.of_nat count) (chunk_size cur)); simplify_eq.
  - split_and!; [|apply Hlt; by rewrite available_advance|done].
    split; simpl; try done. eexists. split; [split; [done|]|simpl; by rewrite Hl].
    simpl. split_and!; try done; lia.
  - split_and!; [|rewrite available_advance, length_drop;
                  change (available (set_current _ d)) with avail; change (available d) with avail; lia|simpl; by rewrite Hp].
    split; simpl; try done. rewrite Hp.
    eexists. split; [split; [done|]|simpl; rewrite Hl; lia]. simpl. split_and!; try done; lia.
Qed.

(** Releasing a verified chunk. *)
Lemma inv_release d d1 out data d' o :
  phase d = PDataCrlf -> decoder_inv d out ->
  (exists c, receiving d c /\ chunk_data c = data /\ len data = chunk_size c) ->
  (offset d1 <= length (input d1))%nat -> dlimits d1 = dlimits d -> mode d1 = mode d ->
  decoded_bytes d1 = decoded_bytes d -> 0 <= trailer_bytes d1 ->
  crc32_in d1 = out /\ crc32c_in d1 = out /\ crc64nvme_in d1 = out /\ sha1_in d1 = out /\ sha256_in d1 = out ->
  match mode d1 with Signed _ => previous_signature d1 <> None | UnsignedTrailer _ => True end ->
  accept_decoded data d1 = (d', o, Ok tt) ->
  o = data /\ decoder_inv (set_phase PHeader d') (out ++ data).
Proof.
  intros Hp [_ _ Hdec _ _ _ _] (c & (_ & Hs & Hw & _) & Hdata & Hlen) Ho El Em Ed Htb (H1 & H2 & H3 & H4 & H5) Hch Ha.
  unfold accept_decoded in Ha. rewrite Ed, Hdec in *.
  destruct (checked_add_u64 (len out) (len data)) as [n|] eqn:En; [|done].
  apply checked_Some in En as [-> En].
  destruct (exceeds_length _ _); [done|]. injection Ha as <- <-. split; [done|].
  split; simpl; rewrite ?len_app; try done.
  - by rewrite H1, H2, H3, H4, H5.
  - intros _. rewrite El, Hlen. done.
Qed.

Lemma crlf_phase_inv d out d' o c :
  phase d = PDataCrlf -> decoder_inv d out -> crlf_phase d = (d', o, c) -> step_ok d out d' o c.
Proof.
  intros Hp Hi Hh. pose proof Hi as [Ho Hhash Hdec Htb ? Hph Hc]. rewrite Hp in Hph.
  destruct Hph as (cur & Hr & Hlen). pose proof Hr as (Hcur & Hs & Hw & Hm).
  unfold crlf_phase in Hh. destruct (available d) as [|a [|b rest]] eqn:Ea; [by simplify_eq..|].
  destruct (negb ([a; b] ==b crlf)); [by simplify_eq|].
  change (current (advance 2 d)) with (current d) in Hh. rewrite Hcur in Hh.
  assert (Hoff : (offset d + 2 <= length (input d))%nat)
    by (pose proof (length_available d) as Hl; rewrite Ea in Hl; simpl in Hl; lia).
  set (d0 := set_current None (advance 2 d)) in *.
  assert (Hex : exists c, receiving d c /\ chunk_data c = chunk_data cur /\ len (chunk_data cur) = chunk_size c)
    by (by exists cur).
  assert (Hav : forall d2, available d2 = available (advance 2 d) ->
                (length (available d2) < length (available d))%nat)
    by (intros d2 E; rewrite E, available_advance, length_drop, Ea; simpl; lia).
  destruct (chunk_signature cur) as [s|] eqn:Esig.
  - destruct (verify_chunk_signature (chunk_data cur) s d0) as [[]|f] eqn:Ev.
    2:{ injection Hh as _ _ <-. destruct f; [done|]. simpl.
        unfold verify_chunk_signature in Ev. change (mode d0) with (mode d) in Ev.
        change (previous_signature d0) with (previous_signature d) in Ev.
        destruct (mode d); [|done]. destruct (previous_signature d); [|done].
        by destruct (verify_hmac _ _ _). }
    apply verify_chunk_signature_Ok in Ev as (context & previous & Em & Hprev & ->).
    change (mode d0) with (mode d) in Em. change (previous_signature d0) with (previous_signature d) in Hprev.
    destruct (accept_decoded _ _) as [[d1 o1] [[]|e]] eqn:Eacc; [|by simplify_eq]. simplify_eq.
    pose proof Eacc as Eacc'. eapply (inv_release d) in Eacc as [-> Hinv]; try done; simpl.
    2:{ by rewrite Em. }
    split_and!; [done|apply Hav|done]. unfold accept_decoded in Eacc'.
    repeat destr_match_in Eacc'; by simplify_eq.
  - destruct (accept_decoded _ _) as [[d1 o1] [[]|e]] eqn:Eacc; [|by simplify_eq]. simplify_eq.
    pose proof Eacc as Eacc'. eapply (inv_release d) in Eacc as [-> Hinv]; try done; simpl.
    split_and!; [done|apply Hav|done]. unfold accept_decoded in Eacc'.
    repeat destr_match_in Eacc'; by simplify_eq.
Qed.

Lemma accept_trailer_fields line d d' r : accept_trailer line d = (d', r) ->
  exists ts, d' = set_trailers ts (trailer_bytes d) d.
Proof.
  unfold accept_trailer. intros Ha.
  repeat destr_match_in Ha; simplify_eq;
    first [exists (trailers d'); by destruct d'|eexists; reflexivity].
Qed.

Lemma inv_set_trailers d out ts n : 0 <= n -> decoder_inv d out -> decoder_inv (set_trailers ts n d) out.
Proof. intros ? [? ? ? ? ? ? ?]. by split. Qed.

Lemma check_trailer_Ok d out name :
  sha256_in d = out -> crc32_in d = out -> crc32c_in d = out -> crc64nvme_in d = out -> sha1_in d = out ->
  check_trailer d name = Ok tt ->
  exists t digest, t ∈ trailers d /\ trailer_name t = name /\ checksum_of name out = Some digest /\
                   base64_decode (trailer_value t) = Some digest.
Proof.
  intros E1 E2 E3 E4 E5. unfold check_trailer.
  destruct (find _ (trailers d)) as [t|] eqn:Ef; [|done]. cbn [ok_or].
  apply find_some in Ef as [Hin Hname]. apply bool_decide_eq_true in Hname.
  destruct (calculated_checksum name d) as [[expected n]|] eqn:Ec; [|done]. cbn [ok_or].
  destruct (negb _); [done|]. destruct (base64_decode _) as [supplied|] eqn:Eb; [|done]. cbn [ok_or].
  destruct (negb _); [done|]. destruct (constant_time_eq supplied expected) eqn:Et; [|done].
  apply constant_time_eq_true in Et as ->. intros _. exists t, expected.
  split_and!; [by apply list_elem_of_In|done| |done].
  unfold calculated_checksum, checksum_of in *. rewrite E1, E2, E3, E4, E5 in Ec.
  repeat destr_match_in Ec; congruence.
Qed.

Lemma finish_trailers_Ok d out : decoder_inv d out -> phase d = PTrailers ->
  finish_trailers d = Ok tt -> checked_output d out.
Proof.
  intros [_ (E1 & E2 & E3 & E4 & E5) Hdec _ _ _ Hch] Hp Hf. unfold finish_trailers in Hf.
  split.
  - intros e He. rewrite He in Hf. destruct (Z.eqb_spec (decoded_bytes d) e); [congruence|done].
  - destruct (match expected_decoded_length _ with Some _ => _ | None => _ end); [|done].
    destruct (mode d) as [context|declared].
    + destruct (is_empty (trailers d)) eqn:Ee; [by apply is_empty_true in Ee|done].
    + destruct (traverse _ _) as [us|] eqn:Et; [|done]. apply traverse_Ok in Et.
      intros name Hn. apply list_elem_of_lookup in Hn as [i Hi].
      destruct (Forall2_lookup_l _ _ _ _ _ Et Hi) as (u & _ & Hu). destruct u.
      by eapply check_trailer_Ok.
Qed.

Lemma trailers_phase_inv d out d' c :
  phase d = PTrailers -> decoder_inv d out -> trailers_phase d = (d', c) -> step_ok d out d' [] c.
Proof.
  intros Hp Hi Hh. unfold trailers_phase in Hh.
  destruct (take_line _ _ d) as [d1 r] eqn:Et. apply take_line_cases in Et.
  destruct r as [[line|]|e]; [|destruct Et as (-> & _ & _); by simplify_eq..].
  destruct Et as (rest & Ha & Ha' & Hd1 & _ & _).
  assert (Hlt : (length (available d1) < length (available d))%nat)
    by (rewrite Ha', Ha, !length_app; simpl; lia).
  assert (Hi1 : decoder_inv d1 out)
    by (rewrite Hd1; apply inv_advance; [done|]; rewrite Ha, !length_app; simpl; lia).
  assert (Hp1 : phase d1 = PTrailers) by (by rewrite Hd1). clear Ha Ha' rest Hd1. unfold trailer_line in Hh.
  destruct (checked_add_u64 _ _) as [n|] eqn:En; [|by simplify_eq].
  apply checked_Some in En as [-> En].
  set (n := trailer_bytes d1 + (len line + 2)) in *.
  apply (inv_set_trailers d1 out (trailers d1) n) in Hi1; [|lia].
  change (length (available d1)) with (length (available (set_trailers (trailers d1) n d1))) in Hlt.
  change (phase d1) with (phase (set_trailers (trailers d1) n d1)) in Hp1.
  set (d2 := set_trailers (trailers d1) n d1) in *. clearbody d2.
  unfold step_ok. rewrite app_nil_r.
  destruct (Z.ltb_spec (max_trailer_bytes (dlimits d2)) n); [by simplify_eq|].
  destruct (is_empty line).
  - destruct (finish_trailers d2) as [[]|] eqn:Ef; [|by simplify_eq].
    apply (finish_trailers_Ok _ out) in Ef; [|done..].
    change (available (set_phase PDone d2)) with (available d2) in Hh.
    destruct (is_empty (available d2)) eqn:Ee; cbn [negb] in Hh; simplify_eq; [|done].
    apply is_empty_true in Ee. split_and!; [|done..].
    destruct Hi1 as [? ? ? ? ? ? Hc]. by split.
  - destruct (accept_trailer line d2) as [d3 [[]|]] eqn:Eacc; [|by simplify_eq]. simplify_eq.
    apply accept_trailer_fields in Eacc as [ts ->].
    split_and!; [apply inv_set_trailers; [|done]; by destruct Hi1|done|simpl; by rewrite Hp1].
Qed.

Lemma step_inv d out d' o c :
  phase d <> PDone -> decoder_inv d out -> step d = (d', o, c) -> step_ok d out d' o c.
Proof.
  intros Hp Hi Hs. unfold step in Hs. destruct (phase d) eqn:E; [| | | |done].
  - destruct (header_phase d) eqn:Eh. simplify_eq. by apply header_phase_inv.
  - destruct (data_phase d) eqn:Eh. simplify_eq. by apply data_phase_inv.
  - by apply crlf_phase_inv.
  - destruct (trailers_phase d) eqn:Eh. simplify_eq. by apply trailers_phase_inv.
Qed.
End Invariant.

(** * The loop as a big-step relation *)

Section Runs.
Context `{Digests}.

Inductive runs : Decoder -> Decoder -> bytes -> result fault DecodeStatus -> Prop :=
| runs_return d d' o r : step d = (d', o, Return r) -> runs d d' o r
| runs_continue d d1 d' o o' r :
    step d = (d1, o, Continue) -> runs d1 d' o' r -> runs d d' (o ++ o') r.

Lemma run_runs fuel d d' o r : run fuel d = (d', o, Some r) -> runs d d' o r.
Proof.
  revert d d' o r. induction fuel as [|fuel IH]; intros d d' o r E; cbn [run] in E; [done|].
  destruct (step d) as [[d1 o1] [|r1]] eqn:Es; [|simplify_eq; by constructor].
  destruct (run fuel d1) as [[d2 o2] r2] eqn:Er. simplify_eq. eapply runs_continue; eauto.
Qed.

(** Enough fuel for the unread input always gives a result. *)
Lemma run_terminates fuel d out :
  phase d <> PDone -> decoder_inv d out -> (length (available d) < fuel)%nat ->
  exists d' o r, run fuel d = (d', o, Some r).
Proof.
  revert d out. induction fuel as [|fuel IH]; intros d out Hp Hi Hf; [lia|]. cbn [run].
  destruct (step d) as [[d1 o1] [|r1]] eqn:Es; [|by eauto].
  apply (step_inv d out) in Es as (Hi1 & Hlt & Hp1); [|done..].
  destruct (IH d1 (out ++ o1) Hp1 Hi1 ltac:(lia)) as (d2 & o2 & r2 & ->). eauto.
Qed.

(** The relation and the function agree whenever the fuel is enough. *)
Lemma runs_run d d' o r : runs d d' o r -> forall fuel out,
  phase d <> PDone -> decoder_inv d out -> (length (available d) < fuel)%nat ->
  run fuel d = (d', o, Some r).
Proof.
  induction 1 as [d d' o r Es|d d1 d' o o' r Es Hr IH]; intros [|fuel] out Hp Hi Hf; try lia;
    cbn [run]; rewrite Es; [done|].
  apply (step_inv d out) in Es as (Hi1 & Hlt & Hp1); [|done..].
  by rewrite (IH fuel (out ++ o) Hp1 Hi1 ltac:(lia)).
Qed.

(** The outcome of a run and the invariant. *)
Lemma runs_inv d d' o r : runs d d' o r -> forall out,
  phase d <> PDone -> decoder_inv d out ->
  match r with
  | Ok NeedMore => decoder_inv d' (out ++ o) /\ phase d' <> PDone /\ step d' = (d', [], Return (Ok NeedMore))
  | Ok Done => decoder_inv d' (out ++ o) /\ phase d' = PDone /\ checked_output d' (out ++ o) /\
               available d' = []
  | Err (Fail _) => True
  | Err Panic => False
  end.
Proof.
  induction 1 as [d d' o r Es|d d1 d' o o' r Es Hr IH]; intros out Hp Hi.
  - pose proof (step_inv d out _ _ _ Hp Hi Es) as Ho. simpl in Ho.
    destruct r as [[]|[]]; try done. destruct Ho as [-> ->]. by rewrite app_nil_r.
  - apply (step_inv d out) in Es as (Hi1 & _ & Hp1); [|done..].
    specialize (IH (out ++ o) Hp1 Hi1). by rewrite <- !app_assoc in IH.
Qed.

(** * More input *)

Lemma find_crlf_extend (u m : bytes) p : find_sub crlf u = Some p -> find_sub crlf (u ++ m) = Some p.
Proof. apply find_sub_app. Qed.

(** [take_line] with more input: a found line and an exceeded limit stay,
    except that a line of exactly [limit] bytes whose CR and LF are separated
    is only seen to fit when both are present. *)
Lemma take_line_extend limit trailer m d d' r :
  (offset d <= length (input d))%nat -> take_line limit trailer d = (d', r) ->
  match r with
  | Ok (Some line) => take_line limit trailer (extend m d) = (extend m d', r)
  | Ok None => True
  | Err e => take_line limit trailer (extend m d) = (extend m d, Err e) \/
             exists line d2, len line = limit /\ take_line limit trailer (extend m d) = (d2, Ok (Some line))
  end.
Proof.
  intros Ho Ht. pose proof (available_extend m d Ho) as Ha. unfold take_line in *.
  rewrite Ha.
  destruct (find_sub crlf (available d)) as [p|] eqn:Ef.
  - rewrite (find_crlf_extend _ m _ Ef). pose proof (find_sub_Some _ _ _ Ef) as [_ Hl].
    destruct (Z.ltb_spec limit (Z.of_nat p)); injection Ht as <- <-; [by left|].
    rewrite take_app_le by lia. done.
  - destruct (Z.ltb_spec limit (len (available d))); injection Ht as <- <-; [|done].
    destruct (find_sub crlf (available d ++ m)) as [p|] eqn:Ef'.
    + pose proof (find_sub_late _ _ _ _ Ef Ef') as Hlate. change (length crlf) with 2%nat in Hlate.
      unfold len in *. destruct (Z.ltb_spec limit (Z.of_nat p)); [by left|]. right.
      eexists _, _. split; [|done]. unfold len. pose proof (find_sub_Some _ _ _ Ef') as [_ Hl].
      rewrite length_take. change (length crlf) with 2%nat in Hl. lia.
    + rewrite len_app. pose proof (len_nonneg m).
      destruct (Z.ltb_spec limit (len (available d) + len m)); [by left|lia].
Qed.

(** A header line that parses has at most 97 bytes. *)
Lemma parse_chunk_header_length line x : parse_chunk_header line = Ok x -> len line <= 97.
Proof.
  unfold parse_chunk_header. intros Hh.
  pose proof (split_on_join_inv x3b line) as Hj.
  destruct (split_on _ line) as [|size exts]; [done|].
  destruct (is_empty size || (16 <? len size) || _) eqn:Eg; [done|]. bool_hyps.
  destruct (from_str_radix_16 size); [|done]. cbn [ok_or] in Hh.
  destruct (fold_result chunk_extension None exts) as [sig|] eqn:Ef; [|done].
  assert (Hext : forall e a s, chunk_extension a e = Ok s -> len e = 80 /\ a = None /\ s <> None).
  { clear. intros e a s. unfold chunk_extension. destruct (split_once x3d e) as [[n v]|] eqn:Es; [|done].
    cbn [ok_or]. destruct (_ || _) eqn:Eo; [done|]. apply orb_false_elim in Eo as [En Ea].
    destruct (decode_signature_hex v) as [sg|] eqn:Ed; [|done]. intros [= <-].
    apply split_once_Some in Es as [-> _]. bool_hyps. subst n.
    unfold decode_signature_hex, decode_hex_32 in Ed.
    destruct (Z.eqb_spec (len v) 64) as [Hv|]; [|done]. split; [|by destruct a].
    rewrite len_app, len_cons, Hv. done. }
  destruct exts as [|e [|e' exts]].
  - simpl in Hj. subst. lia.
  - simpl in Hj, Ef. destruct (chunk_extension None e) as [s|] eqn:Ee; [|done].
    apply Hext in Ee as (He & _). rewrite <- Hj, len_app. unfold len at 2. simpl. unfold len in *. lia.
  - simpl in Ef. destruct (chunk_extension None e) as [s|] eqn:Ee; [|done].
    apply Hext in Ee as (_ & _ & Hs). destruct (chunk_extension s e') as [s'|] eqn:Ee'; [|done].
    by apply Hext in Ee' as (_ & -> & _).
Qed.

Lemma open_chunk_extend line m d d' c :
  open_chunk line d = (d', c) -> open_chunk line (extend m d) = (extend m d', c).
Proof.
  unfold open_chunk. change (dlimits (extend m d)) with (dlimits d).
  change (mode (extend m d)) with (mode d). change (decoded_bytes (extend m d)) with (decoded_bytes d).
  intros Ho. repeat destr_match_in Ho; injection Ho as <- <-; try reflexivity;
    match goal with Ev : verify_chunk_signature [] ?s d = _ |- _ =>
      change (verify_chunk_signature [] s (extend m d)) with (verify_chunk_signature [] s d);
      rewrite Ev; reflexivity end.
Qed.

(** A failing line keeps failing; a completing one now has input after it. *)
Lemma trailer_line_extend line m d d' c : m <> [] -> (offset d <= length (input d))%nat ->
  trailer_line line d = (d', c) ->
  match c with
  | Continue => trailer_line line (extend m d) = (extend m d', c)
  | Return (Ok NeedMore) | Return (Err Panic) => False
  | Return (Ok Done) => exists d2, trailer_line line (extend m d) = (d2, fail ChunkedError.InputAfterEnd)
  | Return (Err (Fail e)) => exists d2, trailer_line line (extend m d) = (d2, c)
  end.
Proof.
  intros Hm Ho. unfold trailer_line. change (trailer_bytes (extend m d)) with (trailer_bytes d).
  change (dlimits (set_trailers _ _ (extend m d))) with (dlimits d).
  change (dlimits (set_trailers _ _ d)) with (dlimits d).
  destruct (checked_add_u64 (trailer_bytes d) (len line + 2)) as [n|]; [|intros [= <- <-]; simpl; eauto].
  destruct (max_trailer_bytes (dlimits d) <? n); [intros [= <- <-]; simpl; eauto|].
  destruct (is_empty line).
  - change (trailers (extend m d)) with (trailers d).
    change (finish_trailers (set_trailers (trailers d) n (extend m d)))
      with (finish_trailers (set_trailers (trailers d) n d)).
    destruct (finish_trailers _); [|intros [= <- <-]; simpl; eauto].
    change (available (set_phase PDone (set_trailers ?t ?k ?x))) with (available x).
    rewrite (available_extend m d Ho).
    assert (Hne : is_empty (available d ++ m) = false) by (apply is_empty_false; by intros [_ ?]%app_nil).
    rewrite Hne. cbn [negb]. destruct (is_empty (available d)); cbn [negb]; intros [= <- <-]; simpl; eauto.
  - change (trailers (extend m d)) with (trailers d).
    destruct (accept_trailer line (set_trailers (trailers d) n d)) as [d1 [u|e]] eqn:Eacc;
      intros [= <- <-]; simpl.
    + assert (E : accept_trailer line (set_trailers (trailers d) n (extend m d)) = (extend m d1, Ok u)).
      { revert Eacc. unfold accept_trailer. simpl. intros Ha. repeat destr_match_in Ha; by simplify_eq. }
      by rewrite E.
    + assert (E : exists d2, accept_trailer line (set_trailers (trailers d) n (extend m d)) = (d2, Err e)).
      { revert Eacc. unfold accept_trailer. simpl. intros Ha. repeat destr_match_in Ha; simplify_eq; eauto. }
      destruct E as [d2 ->]. eauto.
Qed.

Lemma advance_current_extend c c0 m j k d :
  advance k (set_current c (extend m (advance j (set_current c0 d))))
  = advance (j + k) (set_current c (extend m d)).
Proof.
  unfold advance at 1 3, set_buffer. cbn [offset advance extend set_current set_buffer].
  by rewrite Nat.add_assoc.
Qed.

Lemma data_phase_extend m d d' c out :
  m <> [] -> phase d = PData -> decoder_inv d out -> data_phase d = (d', c) -> c = Continue ->
  data_phase (extend m d) = (extend m d', Continue) \/
  (phase d' = PData /\ available d' = [] /\ data_phase (extend m d) = data_phase (extend m d')).
Proof.
  intros Hm Hp [Ho _ _ _ _ Hph _] Hd ->. rewrite Hp in Hph.
  destruct Hph as (cur & (Hcur & Hs & _ & _) & Hlen). unfold data_phase in Hd |- *.
  change (current (extend m d)) with (current d). rewrite Hcur in Hd |- *.
  rewrite (available_extend m d Ho). set (u := available d) in *.
  destruct (is_empty u) eqn:Eu; [done|]. apply is_empty_false in Eu.
  assert (Hum : is_empty (u ++ m) = false) by (apply is_empty_false; by intros [? _]%app_nil).
  rewrite Hum. rewrite (len_app u m). set (rem := chunk_size cur - len (chunk_data cur)) in *.
  pose proof (len_nonneg u) as Hu0. pose proof (len_nonneg m) as Hm0.
  destruct (Z_lt_le_dec (len u) rem) as [Hpart|Hfull].
  - right. rewrite Z.min_r in Hd by lia.
    assert (Hcnt : Z.to_nat (len u) = length u) by (unfold len; lia). rewrite Hcnt, firstn_all in Hd.
    assert (Hneq : (len (chunk_data cur ++ u) =? chunk_size cur) = false)
      by (apply Z.eqb_neq; rewrite len_app; lia).
    rewrite Hneq in Hd. injection Hd as <-.
    assert (Hav : available (advance (length u) (set_current (Some {| chunk_size := chunk_size cur;
      chunk_data := chunk_data cur ++ u; chunk_signature := chunk_signature cur |}) d)) = []).
    { rewrite available_advance. change (available (set_current _ d)) with u. apply drop_all. }
    split_and!; [done|done|]. rewrite available_extend, Hav.
    2:{ simpl. unfold u in *. rewrite length_available. lia. }
    cbn [app]. apply is_empty_false in Hm as Hm'.
    change (current (extend m (advance ?k (set_current ?c d)))) with c. cbv iota beta.
    rewrite Hm'. cbn [chunk_size chunk_data chunk_signature].
    assert (Hc2 : Z.to_nat (Z.min rem (len u + len m)) =
             (length u + Z.to_nat (Z.min (chunk_size cur - len (chunk_data cur ++ u)) (len m)))%nat)
      by (rewrite len_app; unfold rem, len in *; lia).
    rewrite Hc2, take_app_add, <- app_assoc. generalize (Z.to_nat (Z.min (chunk_size cur
      - len (chunk_data cur ++ u)) (len m))). intros k. rewrite advance_current_extend. done.
  - left. rewrite !Z.min_l in * by lia.
    rewrite take_app_le by (unfold len in *; lia).
    destruct (_ =? chunk_size cur); by injection Hd as <-.
Qed.

Lemma crlf_phase_extend m d d' o c out :
  phase d = PDataCrlf -> decoder_inv d out -> crlf_phase d = (d', o, c) ->
  c <> Return (Ok NeedMore) -> crlf_phase (extend m d) = (extend m d', o, c).
Proof.
  intros Hp [Ho _ _ _ _ _ _] Hs Hc. unfold crlf_phase in *. rewrite (available_extend m d Ho).
  destruct (available d) as [|a [|b rest]]; [by simplify_eq..|]. cbn [app].
  destruct (negb ([a; b] ==b crlf)); [by injection Hs as <- <- <-|].
  change (current (advance 2 (extend m d))) with (current d).
  change (current (advance 2 d)) with (current d) in Hs.
  destruct (current d) as [cur|]; [|by injection Hs as <- <- <-].
  destruct (chunk_signature cur) as [s|].
  - change (verify_chunk_signature (chunk_data cur) s (set_current None (advance 2 (extend m d))))
      with (verify_chunk_signature (chunk_data cur) s (set_current None (advance 2 d))).
    destruct (verify_chunk_signature _ _ _); [|by injection Hs as <- <- <-].
    unfold accept_decoded in *. simpl in *.
    destruct (checked_add_u64 _ _); [|by injection Hs as <- <- <-].
    destruct (exceeds_length _ _); by injection Hs as <- <- <-.
  - unfold accept_decoded in *. simpl in *.
    destruct (checked_add_u64 _ _); [|by injection Hs as <- <- <-].
    destruct (exceeds_length _ _); by injection Hs as <- <- <-.
Qed.

(** How one iteration changes when more input is available. *)
Definition extends (m : bytes) (d d' : Decoder) (o : bytes) (c : control) : Prop :=
  match c with
  | Continue => step (extend m d) = (extend m d', o, Continue) \/
                (o = [] /\ step d' = (d', [], Return (Ok NeedMore)) /\ step (extend m d) = step (extend m d'))
  | Return (Ok NeedMore) | Return (Err Panic) => True
  | Return (Ok Done) => exists d2, step (extend m d) = (d2, o, fail ChunkedError.InputAfterEnd)
  | Return (Err (Fail _)) => exists d2 e2, step (extend m d) = (d2, o, fail e2)
  end.

Lemma header_phase_extend m d d' c out :
  98 <= max_chunk_header_bytes (dlimits d) -> phase d = PHeader -> decoder_inv d out ->
  header_phase d = (d', c) -> extends m d d' [] c.
Proof.
  intros Hlim Hp Hi Hh. pose proof (inv_offset _ _ Hi) as Ho.
  assert (Hstep : forall d2 c2, header_phase (extend m d) = (d2, c2) -> step (extend m d) = (d2, [], c2)).
  { intros d2 c2 E. unfold step. change (phase (extend m d)) with (phase d). by rewrite Hp, E. }
  pose proof (header_phase_inv _ _ _ _ Hp Hi Hh) as Hok. unfold header_phase in Hh, Hstep.
  change (dlimits (extend m d)) with (dlimits d) in Hstep.
  destruct (take_line _ _ d) as [d1 r] eqn:Et. pose proof (take_line_extend _ _ m _ _ _ Ho Et) as Hx.
  destruct r as [[line|]|e].
  - rewrite Hx in Hstep. pose proof (open_chunk_extend _ m _ _ _ Hh) as Hoc. specialize (Hstep _ _ Hoc).
    unfold extends. destruct c as [|[[]|[]]]; [by left|done| |eauto|done].
    exfalso. clear -Hh. unfold open_chunk in Hh. repeat destr_match_in Hh; by simplify_eq.
  - by injection Hh as <- <-.
  - injection Hh as <- <-. simpl. destruct Hx as [Hx|(line & d2 & Hl & Hx)]; rewrite Hx in Hstep; [by eauto|].
    assert (Hbad : exists e2, open_chunk line d2 = (d2, fail e2)).
    { unfold open_chunk. destruct (parse_chunk_header line) as [x|e2] eqn:Eh; [|by eauto].
      apply parse_chunk_header_length in Eh. lia. }
    destruct Hbad as [e2 Hbad]. eauto.
Qed.

Lemma trailers_phase_extend m d d' c out :
  m <> [] -> phase d = PTrailers -> decoder_inv d out ->
  trailers_phase d = (d', c) -> extends m d d' [] c.
Proof.
  intros Hm Hp Hi Hh. pose proof (inv_offset _ _ Hi) as Ho.
  assert (Hstep : forall d2 c2, trailers_phase (extend m d) = (d2, c2) -> step (extend m d) = (d2, [], c2)).
  { intros d2 c2 E. unfold step. change (phase (extend m d)) with (phase d). by rewrite Hp, E. }
  unfold trailers_phase in Hh, Hstep. change (dlimits (extend m d)) with (dlimits d) in Hstep.
  destruct (take_line _ _ d) as [d1 r] eqn:Et. pose proof (take_line_extend _ _ m _ _ _ Ho Et) as Hx.
  pose proof (take_line_cases _ _ _ _ _ Et) as Hcase.
  destruct r as [[line|]|e].
  - rewrite Hx in Hstep. destruct Hcase as (rest & Ha & Ha' & Hd1 & _ & _).
    assert (Ho1 : (offset d1 <= length (input d1))%nat).
    { rewrite Hd1. simpl. pose proof (length_available d) as Hla. rewrite Ha, !length_app in Hla.
      simpl in Hla. lia. }
    pose proof (trailer_line_extend _ m _ _ _ Hm Ho1 Hh) as Htl.
    unfold extends. destruct c as [|[[]|[]]]; [left; by apply Hstep|done| | |done].
    + destruct Htl as [d2 Htl]. eauto.
    + destruct Htl as [d2 Htl]. eauto.
  - by injection Hh as <- <-.
  - injection Hh as <- <-. simpl. destruct Hx as [Hx|(line & d2 & Hl & Hx)]; rewrite Hx in Hstep; [by eauto|].
    pose proof (take_line_cases _ _ _ _ _ Hx) as (_ & _ & _ & Hd2 & _ & _).
    assert (Hbad : exists d3 e2, trailer_line line d2 = (d3, fail e2)).
    { unfold trailer_line. destruct (checked_add_u64 _ _) as [n|] eqn:En; [|by eauto].
      apply checked_Some in En as [-> _]. pose proof (inv_trailer_bytes _ _ Hi).
      change (dlimits (set_trailers _ _ ?x)) with (dlimits x). rewrite Hd2. simpl.
      destruct (Z.ltb_spec (max_trailer_bytes (dlimits d)) (trailer_bytes d + (len line + 2))); [by eauto|lia]. }
    destruct Hbad as (d3 & e2 & Hbad). eauto.
Qed.

Lemma step_extend m d d' o c out :
  m <> [] -> 98 <= max_chunk_header_bytes (dlimits d) -> phase d <> PDone -> decoder_inv d out ->
  step d = (d', o, c) -> extends m d d' o c.
Proof.
  intros Hm Hlim Hp Hi Hs. pose proof (step_inv _ _ _ _ _ Hp Hi Hs) as Hok.
  assert (Hph : phase (extend m d) = phase d) by done.
  unfold step in Hs. destruct (phase d) eqn:E; [| | | |done].
  - destruct (header_phase d) as [d1 c1] eqn:Eh. injection Hs as <- <- <-. by eapply header_phase_extend.
  - destruct (data_phase d) as [d1 c1] eqn:Eh. injection Hs as <- <- <-.
    destruct c1 as [|[[]|[e|]]]; try done.
    + simpl. destruct (data_phase_extend m d d1 Continue out Hm E Hi Eh eq_refl) as [Hd|(Hp1 & Ha & Hd)].
      * left. unfold step. by rewrite Hph, Hd.
      * right. split; [done|]. destruct Hok as [[_ _ _ _ _ Hc _] _]. rewrite Hp1 in Hc.
        destruct Hc as (cur & (Hcur & _) & _). split.
        -- unfold step, data_phase. by rewrite Hp1, Hcur, Ha.
        -- unfold step. change (phase (extend m d1)) with (phase d1). by rewrite Hph, Hp1, Hd.
    + unfold data_phase in Eh. repeat destr_match_in Eh; by simplify_eq.
    + unfold data_phase in Eh. repeat destr_match_in Eh; by simplify_eq.
  - assert (Hc : c = Return (Ok NeedMore) \/ c <> Return (Ok NeedMore)) by (destruct c as [|[[]|]]; auto).
    destruct Hc as [-> |Hc]; [done|].
    pose proof (crlf_phase_extend m _ _ _ _ _ E Hi Hs Hc) as Hx.
    assert (Hst : step (extend m d) = (extend m d', o, c)) by (unfold step; by rewrite Hph, Hx).
    unfold extends. destruct c as [|[[]|[]]]; [by left|done| |by eauto|done].
    exfalso. clear -Hs. unfold crlf_phase, accept_decoded in Hs. repeat destr_match_in Hs; by simplify_eq.
  - destruct (trailers_phase d) as [d1 c1] eqn:Eh. injection Hs as <- <- <-. by eapply trailers_phase_extend.
Qed.

(** * The representation of the unread input is irrelevant *)

Lemma take_line_rebuffer i o limit trailer d d' r :
  drop o i = available d -> take_line limit trailer d = (d', r) ->
  exists k, d' = set_buffer (input d) (offset d + k) d /\
    take_line limit trailer (set_buffer i o d) = (set_buffer i (o + k) d, r).
Proof.
  intros Ha Ht. unfold take_line in *. change (available (set_buffer i o d)) with (drop o i). rewrite Ha.
  destruct (find_sub crlf (available d)) as [p|].
  - destruct (limit <? Z.of_nat p); injection Ht as <- <-; [exists 0%nat|exists (p + 2)%nat].
    + rewrite !Nat.add_0_r. by destruct d.
    + done.
  - destruct (limit <? len (available d)); injection Ht as <- <-; exists 0%nat;
      rewrite !Nat.add_0_r; by destruct d.
Qed.

Lemma open_chunk_rebuffer i o line d d' c :
  open_chunk line d = (d', c) ->
  open_chunk line (set_buffer i o d) = (set_buffer i o d', c) /\
  input d' = input d /\ offset d' = offset d /\ dlimits d' = dlimits d /\ mode d' = mode d.
Proof.
  unfold open_chunk. change (dlimits (set_buffer i o d)) with (dlimits d).
  change (mode (set_buffer i o d)) with (mode d).
  change (decoded_bytes (set_buffer i o d)) with (decoded_bytes d).
  intros Ho. repeat destr_match_in Ho; injection Ho as <- <-; try (by split_and!);
    match goal with Ev : verify_chunk_signature [] ?s d = _ |- _ =>
      change (verify_chunk_signature [] s (set_buffer i o d)) with (verify_chunk_signature [] s d);
      rewrite Ev; by split_and! end.
Qed.

Lemma accept_trailer_rebuffer i o line d d' r :
  accept_trailer line d = (d', r) -> accept_trailer line (set_buffer i o d) = (set_buffer i o d', r).
Proof.
  unfold accept_trailer. change (mode (set_buffer i o d)) with (mode d).
  change (dlimits (set_buffer i o d)) with (dlimits d).
  change (trailers (set_buffer i o d)) with (trailers d).
  intros Ha. repeat destr_match_in Ha; by injection Ha as <- <-.
Qed.

Lemma trailer_line_rebuffer i o line d d' c :
  drop o i = available d -> trailer_line line d = (d', c) ->
  trailer_line line (set_buffer i o d) = (set_buffer i o d', c) /\
  input d' = input d /\ offset d' = offset d /\ dlimits d' = dlimits d /\ mode d' = mode d.
Proof.
  intros Ha. unfold trailer_line. change (trailer_bytes (set_buffer i o d)) with (trailer_bytes d).
  change (trailers (set_buffer i o d)) with (trailers d).
  destruct (checked_add_u64 _ _) as [n|]; [|intros [= <- <-]; by split_and!].
  change (dlimits (set_trailers (trailers d) n (set_buffer i o d))) with (dlimits d).
  change (dlimits (set_trailers (trailers d) n d)) with (dlimits d).
  destruct (max_trailer_bytes (dlimits d) <? n); [intros [= <- <-]; by split_and!|].
  destruct (is_empty line).
  - change (finish_trailers (set_trailers (trailers d) n (set_buffer i o d)))
      with (finish_trailers (set_trailers (trailers d) n d)).
    destruct (finish_trailers _); [|intros [= <- <-]; by split_and!].
    change (available (set_phase PDone (set_trailers (trailers d) n (set_buffer i o d)))) with (drop o i).
    change (available (set_phase PDone (set_trailers (trailers d) n d))) with (available d). rewrite Ha.
    destruct (negb _); intros [= <- <-]; by split_and!.
  - destruct (accept_trailer line (set_trailers (trailers d) n d)) as [d1 r] eqn:Eacc.
    pose proof (accept_trailer_fields _ _ _ _ Eacc) as [ts Hd1].
    apply (accept_trailer_rebuffer i o) in Eacc.
    change (set_trailers (trailers d) n (set_buffer i o d))
      with (set_buffer i o (set_trailers (trailers d) n d)). rewrite Eacc.
    destruct r; intros [= <- <-]; rewrite Hd1; by split_and!.
Qed.

Lemma crlf_phase_rebuffer i o d d' out c :
  drop o i = available d -> crlf_phase d = (d', out, c) ->
  exists k, input d' = input d /\ offset d' = (offset d + k)%nat /\
    dlimits d' = dlimits d /\ mode d' = mode d /\
    crlf_phase (set_buffer i o d) = (set_buffer i (o + k) d', out, c).
Proof.
  intros Ha. unfold crlf_phase. change (available (set_buffer i o d)) with (drop o i). rewrite Ha.
  destruct (available d) as [|a [|b rest]];
    [intros [= <- <- <-]; exists 0%nat; rewrite !Nat.add_0_r; by split_and!..|].
  destruct (negb ([a; b] ==b crlf)); [intros [= <- <- <-]; exists 0%nat; rewrite !Nat.add_0_r; by split_and!|].
  change (current (advance 2 (set_buffer i o d))) with (current d).
  change (current (advance 2 d)) with (current d). intros Hs. exists 2%nat.
  destruct (current d) as [cur|]; [|injection Hs as <- <- <-; by split_and!].
  destruct (chunk_signature cur) as [s|].
  - change (verify_chunk_signature (chunk_data cur) s (set_current None (advance 2 (set_buffer i o d))))
      with (verify_chunk_signature (chunk_data cur) s (set_current None (advance 2 d))).
    destruct (verify_chunk_signature _ _ _); [|injection Hs as <- <- <-; by split_and!].
    unfold accept_decoded in *. simpl in *.
    destruct (checked_add_u64 _ _); [|injection Hs as <- <- <-; by split_and!].
    destruct (exceeds_length _ _); injection Hs as <- <- <-; by split_and!.
  - unfold accept_decoded in *. simpl in *.
    destruct (checked_add_u64 _ _); [|injection Hs as <- <- <-; by split_and!].
    destruct (exceeds_length _ _); injection Hs as <- <- <-; by split_and!.
Qed.

Lemma data_phase_rebuffer i o d d' c :
  drop o i = available d -> data_phase d = (d', c) ->
  exists k, input d' = input d /\ offset d' = (offset d + k)%nat /\
    dlimits d' = dlimits d /\ mode d' = mode d /\
    data_phase (set_buffer i o d) = (set_buffer i (o + k) d', c).
Proof.
  intros Ha. unfold data_phase. change (available (set_buffer i o d)) with (drop o i). rewrite Ha.
  change (current (set_buffer i o d)) with (current d).
  destruct (current d) as [cur|]; [|intros [= <- <-]; exists 0%nat; rewrite !Nat.add_0_r; by split_and!].
  destruct (is_empty _); [intros [= <- <-]; exists 0%nat; rewrite !Nat.add_0_r; by split_and!|].
  destruct (_ =? chunk_size cur); intros [= <- <-]; eexists; by split_and!.
Qed.

Lemma step_rebuffer i o d d' out c :
  drop o i = available d -> step d = (d', out, c) ->
  exists k, input d' = input d /\ offset d' = (offset d + k)%nat /\
    dlimits d' = dlimits d /\ mode d' = mode d /\
    step (set_buffer i o d) = (set_buffer i (o + k) d', out, c).
Proof.
  intros Ha Hs. unfold step in *. change (phase (set_buffer i o d)) with (phase d).
  destruct (phase d) eqn:Hp.
  - destruct (header_phase d) as [d1 c1] eqn:Eh. injection Hs as <- <- <-. unfold header_phase in *.
    change (dlimits (set_buffer i o d)) with (dlimits d).
    destruct (take_line _ _ d) as [d2 r] eqn:Et.
    destruct (take_line_rebuffer i o _ _ _ _ _ Ha Et) as (k & Hd2 & ->). exists k.
    destruct r as [[line|]|]; [|injection Eh as <- <-; rewrite Hd2; by split_and!..].
    destruct (open_chunk_rebuffer i (o + k) _ _ _ _ Eh) as (Hoc & E1 & E2 & E3 & E4).
    rewrite Hd2 in *. change (set_buffer i (o + k) (set_buffer ?x ?y d)) with (set_buffer i (o + k) d) in Hoc.
    rewrite Hoc. by split_and!.
  - destruct (data_phase d) as [d1 c1] eqn:Eh. injection Hs as <- <- <-.
    destruct (data_phase_rebuffer i o _ _ _ Ha Eh) as (k & E1 & E2 & E3 & E4 & ->). by exists k.
  - by apply crlf_phase_rebuffer.
  - destruct (trailers_phase d) as [d1 c1] eqn:Eh. injection Hs as <- <- <-. unfold trailers_phase in *.
    change (dlimits (set_buffer i o d)) with (dlimits d).
    destruct (take_line _ _ d) as [d2 r] eqn:Et.
    destruct (take_line_rebuffer i o _ _ _ _ _ Ha Et) as (k & Hd2 & ->). exists k.
    destruct r as [[line|]|]; [|injection Eh as <- <-; rewrite Hd2; by split_and!..].
    assert (Ha2 : drop (o + k) i = available d2).
    { rewrite Hd2. unfold available in *. simpl. by rewrite <- !drop_drop, Ha. }
    destruct (trailer_line_rebuffer i (o + k) _ _ _ _ Ha2 Eh) as (Hoc & E1 & E2 & E3 & E4).
    rewrite Hd2 in *. change (set_buffer i (o + k) (set_buffer ?x ?y d)) with (set_buffer i (o + k) d) in Hoc.
    rewrite Hoc. by split_and!.
  - injection Hs as <- <- <-. exists 0%nat. rewrite !Nat.add_0_r. by split_and!.
Qed.

(** Two decoders that differ only in how they hold their unread input. *)
Definition eqv (d1 d2 : Decoder) : Prop := exists i o, d2 = set_buffer i o d1 /\ drop o i = available d1.

Lemma runs_eqv d d' out r : runs d d' out r -> forall e, eqv d e -> exists e', runs e e' out r /\ eqv d' e'.
Proof.
  induction 1 as [d d' o r Es|d d1 d' o o' r Es Hr IH]; intros e (i & j & -> & Ha);
    destruct (step_rebuffer i j _ _ _ _ Ha Es) as (k & E1 & E2 & _ & _ & Es').
  - eexists. split; [by apply runs_return|]. exists i, (j + k)%nat. split; [done|].
    unfold available in *. by rewrite E1, E2, <- !drop_drop, Ha.
  - destruct (IH (set_buffer i (j + k) d1)) as (e' & Hr' & He').
    { exists i, (j + k)%nat. split; [done|]. unfold available in *. by rewrite E1, E2, <- !drop_drop, Ha. }
    exists e'. split; [|done]. by eapply runs_continue.
Qed.

Lemma step_config d d' out c : step d = (d', out, c) -> dlimits d' = dlimits d /\ mode d' = mode d.
Proof.
  intros Hs. destruct (step_rebuffer (input d) (offset d) _ _ _ _ eq_refl Hs) as (k & _ & _ & ? & ? & _). done.
Qed.

Lemma runs_config d d' out r : runs d d' out r -> dlimits d' = dlimits d /\ mode d' = mode d.
Proof.
  induction 1 as [d d' o r Es|d d1 d' o o' r Es Hr [IH1 IH2]]; apply step_config in Es as [E1 E2]; [done|].
  split; congruence.
Qed.

(** * Fragmentation *)

Lemma runs_step_eq a b d' o r : step a = step b -> runs b d' o r -> runs a d' o r.
Proof.
  intros E Hr. inversion Hr; subst; [apply runs_return|eapply runs_continue]; eauto; congruence.
Qed.

Lemma runs_extend d d' o r : runs d d' o r -> forall out m,
  m <> [] -> 98 <= max_chunk_header_bytes (dlimits d) -> phase d <> PDone -> decoder_inv d out ->
  match r with
  | Ok NeedMore => forall d2 o2 r2, runs (extend m d') d2 o2 r2 -> runs (extend m d) d2 (o ++ o2) r2
  | Ok Done => exists d2, runs (extend m d) d2 o (Err (Fail ChunkedError.InputAfterEnd))
  | Err (Fail _) => exists d2 e2, runs (extend m d) d2 o (Err (Fail e2))
  | Err Panic => False
  end.
Proof.
  induction 1 as [d d' o r Es|d d1 d' o o' r Es Hr IH]; intros out m Hm Hl Hp Hi;
    pose proof (step_inv _ _ _ _ _ Hp Hi Es) as Hok; pose proof (step_extend m _ _ _ _ _ Hm Hl Hp Hi Es) as Hx.
  - destruct r as [[]|[]]; simpl in Hok, Hx.
    + destruct Hok as [-> ->]. done.
    + destruct Hx as [d2 Hx]. exists d2. by apply runs_return.
    + destruct Hx as (d2 & e2 & Hx). exists d2, e2. by apply runs_return.
    + done.
  - destruct Hok as (Hi1 & _ & Hp1). pose proof (step_config _ _ _ _ Es) as [Hl1 _].
    destruct Hx as [Hx|(-> & Hstuck & Hx)].
    + specialize (IH (out ++ o) m Hm ltac:(by rewrite Hl1) Hp1 Hi1).
      destruct r as [[]|[]]; simpl in IH.
      * intros d2 o2 r2 H2. rewrite <- app_assoc. eapply runs_continue; [exact Hx|]. by apply IH.
      * destruct IH as [d2 IH]. exists d2. by eapply runs_continue.
      * destruct IH as (d2 & e2 & IH). exists d2, e2. by eapply runs_continue.
      * done.
    + inversion Hr as [? ? ? ? Es1|? ? ? ? ? ? Es1]; subst; rewrite Hstuck in Es1; simplify_eq.
      intros d2 o2 r2 H2. cbn [app]. by eapply runs_step_eq.
Qed.

Lemma available_compact d : available (compact d) = available d.
Proof.
  unfold compact. destruct (Nat.eqb_spec (offset d) (length (input d))) as [E|].
  - unfold available. simpl. by rewrite E, drop_all.
  - by destruct (_ && _).
Qed.

Lemma compact_buffer d : (offset d <= length (input d))%nat ->
  exists i o, compact d = set_buffer i o d /\ (o <= length i)%nat /\ drop o i = available d.
Proof.
  intros Ho. pose proof (available_compact d) as Ha. revert Ha. unfold compact.
  destruct (_ =? _)%nat; [intros Ha; exists [], 0%nat; split_and!; [done|simpl; lia|done]|].
  destruct (_ && _); [intros Ha; eexists _, 0%nat; split_and!; [done|lia|done]|].
  intros _. exists (input d), (offset d). split_and!; [by destruct d|done|done].
Qed.

(** Appending to the compacted buffer is appending to the original one. *)
Lemma eqv_compact_extend b d : (offset d <= length (input d))%nat -> eqv (extend b d) (extend b (compact d)).
Proof.
  intros Ho. destruct (compact_buffer d Ho) as (i & o & -> & Hi & Ha).
  exists (i ++ b), o. split; [done|]. rewrite available_extend by done. rewrite drop_app_le by done. by rewrite Ha.
Qed.

Lemma eqv_sym d e : eqv d e -> eqv e d.
Proof.
  intros (i & o & -> & Ha). exists (input d), (offset d). split; [by destruct d|]. exact (eq_sym Ha).
Qed.

Lemma eqv_trans d e f : eqv d e -> eqv e f -> eqv d f.
Proof. intros (i & o & -> & Ha) (j & k & -> & Hb). exists j, k. split; [done|]. by rewrite Hb. Qed.

Lemma inv_extend d out b : decoder_inv d out -> decoder_inv (extend b d) out.
Proof. intros [? ? ? ? ? ? ?]. split; try done. simpl. rewrite length_app. lia. Qed.

Lemma inv_compact d out : decoder_inv d out -> decoder_inv (compact d) out.
Proof.
  intros Hi. destruct (compact_buffer d (inv_offset _ _ Hi)) as (i & o & -> & Ho & _).
  destruct Hi as [? ? ? ? ? ? ?]. by split.
Qed.

Lemma phase_compact d : phase (compact d) = phase d.
Proof. unfold compact. destruct (_ =? _)%nat; [done|]. by destruct (_ && _). Qed.

(** [push] on an unfinished decoder, as a run of the extended decoder. *)
Lemma push_runs d out b : phase d <> PDone -> decoder_inv d out ->
  exists d' o r, push d b = (d', o, Some r) /\ runs (extend b (compact d)) d' o r /\
    exists d2, runs (extend b d) d2 o r /\ eqv d2 d'.
Proof.
  intros Hp Hi. unfold push.
  set (x := set_buffer (input (compact d) ++ b) (offset (compact d)) (compact d)).
  assert (Hi' : decoder_inv x out) by (by apply inv_extend, inv_compact).
  assert (Hp' : phase x <> PDone) by (change (phase x) with (phase (compact d)); by rewrite phase_compact).
  destruct (run_terminates (S (length (available x))) x out Hp' Hi' ltac:(lia)) as (d' & o & r & Hr).
  exists d', o, r. apply run_runs in Hr as Hrs. split; [by destruct (phase d)|]. split; [done|].
  destruct (runs_eqv _ _ _ _ Hrs (extend b d)) as (d2 & Hd2 & He).
  { apply eqv_sym, eqv_compact_extend, Hi. }
  exists d2. split; [done|by apply eqv_sym].
Qed.

Lemma runs_det d a o r : runs d a o r -> forall b o' r', runs d b o' r' -> a = b /\ o = o' /\ r = r'.
Proof.
  induction 1 as [d d' o r Es|d d1 d' o o' r Es Hr IH]; intros b p r' H2;
    inversion H2 as [? ? ? ? Es2|? d2 ? p1 p2 ? Es2 Hr2]; subst; rewrite Es in Es2; simplify_eq; [done|].
  by destruct (IH _ _ _ Hr2) as (-> & -> & ->).
Qed.

(** Push the pieces one after another, until the first error. *)
Fixpoint feed (d : Decoder) (pieces : list bytes)
  : Decoder * bytes * option (result fault DecodeStatus) :=
  match pieces with
  | [] => (d, [], Some (Ok (match phase d with PDone => Done | _ => NeedMore end)))
  | p :: ps =>
      match push d p with
      | (d', o, Some (Ok _)) => let '(d'', o', r) := feed d' ps in (d'', o ++ o', r)
      | other => other
      end
  end.

(** The same output, and the same status with equivalent states or an error
    on both sides. *)
Definition same_result (x y : Decoder * bytes * option (result fault DecodeStatus)) : Prop :=
  let '(d, o, r) := x in let '(d', o', r') := y in
  o = o' /\
  match r, r' with
  | Some (Ok s), Some (Ok s') => s = s' /\ eqv d d'
  | Some (Err (Fail _)), Some (Err (Fail _)) => True
  | _, _ => False
  end.

(** A decoder waiting for input, with its configuration. *)
Definition waiting (m : AwsChunkedMode) (lim : ChunkedLimits) (d : Decoder) (out : bytes) : Prop :=
  decoder_inv d out /\ phase d <> PDone /\ step d = (d, [], Return (Ok NeedMore)) /\
  dlimits d = lim /\ mode d = m.

Lemma extend_nil d : extend [] d = d.
Proof. unfold extend. rewrite app_nil_r. by destruct d. Qed.

Lemma extend_extend a b d : extend b (extend a d) = extend (a ++ b) d.
Proof. unfold extend. simpl. by rewrite app_assoc. Qed.

Lemma eqv_extend d e b :
  (offset d <= length (input d))%nat -> (offset e <= length (input e))%nat -> eqv d e -> eqv (extend b d) (extend b e).
Proof.
  intros Hd He (i & o & -> & Ha). exists (i ++ b), o. split; [done|].
  rewrite available_extend by done. simpl in He. rewrite drop_app_le by done. by rewrite Ha.
Qed.

Lemma compact_config d : dlimits (compact d) = dlimits d /\ mode (compact d) = mode d.
Proof. unfold compact. destruct (_ =? _)%nat; [done|]. by destruct (_ && _). Qed.

Lemma push_waiting m lim d out p d' o r : waiting m lim d out -> push d p = (d', o, r) ->
  exists s, r = Some s /\
  match s with
  | Ok NeedMore => waiting m lim d' (out ++ o)
  | Ok Done => decoder_inv d' (out ++ o) /\ phase d' = PDone /\ checked_output d' (out ++ o) /\
               dlimits d' = lim /\ mode d' = m
  | Err (Fail _) => True
  | Err Panic => False
  end.
Proof.
  intros (Hi & Hp & Hs & Hl & Hm) Hpush. destruct (push_runs d out p Hp Hi) as (d1 & o1 & s & E & Hr & _).
  rewrite E in Hpush. simplify_eq. exists s. split; [done|].
  assert (Hi' : decoder_inv (extend p (compact d)) out) by (by apply inv_extend, inv_compact).
  assert (Hp' : phase (extend p (compact d)) <> PDone)
    by (change (phase (extend p (compact d))) with (phase (compact d)); by rewrite phase_compact).
  pose proof (runs_inv _ _ _ _ Hr out Hp' Hi') as Hout. pose proof (runs_config _ _ _ _ Hr) as [El Em].
  destruct (compact_config d) as [Cl Cm].
  change (dlimits (extend p (compact d))) with (dlimits (compact d)) in El.
  change (mode (extend p (compact d))) with (mode (compact d)) in Em. rewrite Cl in El. rewrite Cm in Em.
  destruct s as [[]|[]]; try done.
  - destruct Hout as (? & ? & ?). by split_and!.
  - destruct Hout as (? & ? & ? & _). by split_and!.
Qed.

Lemma push_nil_waiting m lim d out :
  waiting m lim d out -> exists d', push d [] = (d', [], Some (Ok NeedMore)) /\ eqv d d'.
Proof.
  intros (Hi & Hp & Hs & _). destruct (push_runs d out [] Hp Hi) as (d1 & o1 & s & E & _ & d2 & Hr & He).
  rewrite extend_nil in Hr. apply (runs_det _ _ _ _ (runs_return _ _ _ _ Hs)) in Hr as (<- & <- & <-). eauto.
Qed.

(** Two pushes are one push of both pieces. *)
Lemma push_push m lim d out a b d1 o1 :
  98 <= max_chunk_header_bytes lim -> waiting m lim d out -> push d a = (d1, o1, Some (Ok NeedMore)) ->
  same_result (let '(d2, o2, r) := push d1 b in (d2, o1 ++ o2, r)) (push d (a ++ b)).
Proof.
  intros Hl Hw Ha. pose proof (push_waiting _ _ _ _ _ _ _ _ Hw Ha) as (s & [= <-] & Hw1).
  destruct (decide (b = [])) as [-> |Hb].
  { rewrite app_nil_r, Ha. destruct (push_nil_waiting _ _ _ _ Hw1) as (d2 & -> & He).
    rewrite app_nil_r. split_and!; [done..|by apply eqv_sym]. }
  pose proof Hw as (Hi & Hp & _ & <- & _). pose proof Hw1 as (Hi1 & Hp1 & _ & _ & _).
  destruct (push_runs d out a Hp Hi) as (d1' & o1' & s & E & _ & d1e & Hr1 & He1).
  rewrite Ha in E. simplify_eq.
  destruct (push_runs d1' _ b Hp1 Hi1) as (d2 & o2 & s2 & -> & _ & d2e & Hr2 & He2).
  destruct (push_runs d out (a ++ b) Hp Hi) as (d3 & o3 & s3 & -> & _ & d3e & Hr3 & He3).
  pose proof (runs_inv _ _ _ _ Hr1 out Hp (inv_extend _ _ _ Hi)) as (Hi1e & _ & _).
  destruct (runs_eqv _ _ _ _ Hr2 (extend b d1e)) as (f & Hf & Hef).
  { apply eqv_extend; [apply (inv_offset _ _ Hi1)|apply (inv_offset _ _ Hi1e)|by apply eqv_sym]. }
  pose proof (runs_extend _ _ _ _ Hr1 out b Hb Hl Hp (inv_extend _ _ _ Hi) _ _ _ Hf) as Hcat.
  rewrite extend_extend in Hcat. destruct (runs_det _ _ _ _ Hcat _ _ _ Hr3) as (-> & <- & <-).
  split; [done|].
  pose proof (push_runs d1' _ b Hp1 Hi1) as (d2' & o2' & s2' & E & Hr2c & _).
  assert (Hnp : s2 <> Err Panic).
  { intros ->. by apply (runs_inv _ _ _ _ Hr2 (out ++ o1')) in Hp1; [|by apply inv_extend]. }
  destruct s2 as [s2|[]]; [|done|done]. split; [done|].
  eapply eqv_trans; [by apply eqv_sym|]. by eapply eqv_trans.
Qed.

(** A finished decoder accepts nothing more. *)
Lemma feed_done d pieces : phase d = PDone ->
  feed d pieces = (d, [], Some (if is_empty (concat pieces) then Ok Done
                                else Err (Fail ChunkedError.InputAfterEnd))).
Proof.
  intros Hp. induction pieces as [|p ps IH]; cbn [feed]; [by rewrite Hp|].
  unfold push. rewrite Hp. destruct p as [|b p]; cbn [is_empty concat app]; [by rewrite IH|done].
Qed.

Lemma push_done d out a b d1 o1 m lim :
  98 <= max_chunk_header_bytes lim -> waiting m lim d out -> b <> [] ->
  push d a = (d1, o1, Some (Ok Done)) ->
  exists d2, push d (a ++ b) = (d2, o1, Some (Err (Fail ChunkedError.InputAfterEnd))).
Proof.
  intros Hl (Hi & Hp & _ & <- & _) Hb Ha.
  destruct (push_runs d out a Hp Hi) as (d1' & o1' & s & E & _ & d1e & Hr1 & _).
  rewrite Ha in E. simplify_eq.
  destruct (push_runs d out (a ++ b) Hp Hi) as (d3 & o3 & s3 & -> & _ & d3e & Hr3 & _).
  destruct (runs_extend _ _ _ _ Hr1 out b Hb Hl Hp (inv_extend _ _ _ Hi)) as [d2 Hx].
  rewrite extend_extend in Hx. destruct (runs_det _ _ _ _ Hx _ _ _ Hr3) as (_ & <- & <-). eauto.
Qed.

Lemma push_failed d out a b d1 o1 e m lim :
  98 <= max_chunk_header_bytes lim -> waiting m lim d out ->
  push d a = (d1, o1, Some (Err (Fail e))) ->
  exists d2 e2, push d (a ++ b) = (d2, o1, Some (Err (Fail e2))).
Proof.
  intros Hl (Hi & Hp & _ & <- & _) Ha. destruct (decide (b = [])) as [-> |Hb]; [rewrite app_nil_r; eauto|].
  destruct (push_runs d out a Hp Hi) as (d1' & o1' & s & E & _ & d1e & Hr1 & _).
  rewrite Ha in E. simplify_eq.
  destruct (push_runs d out (a ++ b) Hp Hi) as (d3 & o3 & s3 & -> & _ & d3e & Hr3 & _).
  destruct (runs_extend _ _ _ _ Hr1 out b Hb Hl Hp (inv_extend _ _ _ Hi)) as (d2 & e2 & Hx).
  rewrite extend_extend in Hx. destruct (runs_det _ _ _ _ Hx _ _ _ Hr3) as (_ & <- & <-). eauto.
Qed.

Lemma feed_push m lim d out pieces :
  98 <= max_chunk_header_bytes lim -> waiting m lim d out ->
  same_result (feed d pieces) (push d (concat pieces)).
Proof.
  intros Hl. revert d out. induction pieces as [|p ps IH]; intros d out Hw.
  - destruct (push_nil_waiting _ _ _ _ Hw) as (d' & Hd' & He). cbn [feed concat]. rewrite Hd'.
    destruct Hw as (_ & Hp & _). split_and!; [done| |done]. by destruct (phase d).
  - cbn [feed concat]. destruct (push d p) as [[d1 o1] r1] eqn:Ep.
    destruct (push_waiting _ _ _ _ _ _ _ _ Hw Ep) as (s & -> & Hs). destruct s as [[]|[e|]]; [| | |done].
    + pose proof (push_push _ _ _ _ _ (concat ps) _ _ Hl Hw Ep) as Hpp. specialize (IH _ _ Hs).
      destruct (feed d1 ps) as [[d2 o2] r2]. destruct (push d1 (concat ps)) as [[d3 o3] r3].
      destruct (push d (p ++ concat ps)) as [[d4 o4] r4]. destruct IH as [-> IH], Hpp as [<- Hpp].
      split; [done|]. destruct r2 as [[s2|[]]|], r3 as [[s3|[]]|], r4 as [[s4|[]]|]; try done.
      destruct IH as [-> IH], Hpp as [-> Hpp]. split; [done|]. by eapply eqv_trans.
    + destruct Hs as (Hi1 & Hp1 & _). rewrite feed_done by done. rewrite app_nil_r.
      destruct (is_empty (concat ps)) eqn:Ee.
      * apply is_empty_true in Ee. rewrite Ee, app_nil_r, Ep. split_and!; [done..|].
        exists (input d1), (offset d1). split; [by destruct d1|done].
      * apply is_empty_false in Ee. by destruct (push_done _ _ _ _ _ _ _ _ Hl Hw Ee Ep) as [d2 ->].
    + by destruct (push_failed _ _ _ (concat ps) _ _ _ _ _ Hl Hw Ep) as (d2 & e2 & ->).
Qed.

Lemma new_waiting m lim d :
  0 <= max_chunk_header_bytes lim -> Decoder_new m lim = Ok d -> waiting m lim d [].
Proof.
  intros Hl Hn. unfold Decoder_new in Hn.
  destruct (match m with Signed _ => _ | UnsignedTrailer _ => _ end) as [previous|] eqn:Ep; [|done].
  injection Hn as <-. split_and!; try done.
  - split; simpl; try done. destruct m as [context|]; [|done]. by injection Ep as <-.
  - unfold step. cbn [phase]. unfold header_phase, take_line. cbn [dlimits].
    change (available _) with ([] : bytes). change (len []) with 0.
    destruct (Z.ltb_spec (max_chunk_header_bytes lim) 0); [lia|done].
Qed.

(** The states reached by pushing any pieces. *)
Lemma feed_inv m lim pieces : forall d out d' o r,
  waiting m lim d out -> feed d pieces = (d', o, r) ->
  exists s, r = Some s /\ s <> Err Panic /\
  (forall st, s = Ok st -> decoder_inv d' (out ++ o) /\ dlimits d' = lim /\ mode d' = m /\
     (st = Done <-> phase d' = PDone) /\ (st = Done -> checked_output d' (out ++ o))).
Proof.
  induction pieces as [|p ps IH]; intros d out d' o r Hw Hf; cbn [feed] in Hf.
  - destruct Hw as (Hi & Hp & _ & El & Em). simplify_eq. eexists. split; [done|]. split; [done|].
    intros st [= <-]. rewrite app_nil_r. destruct (phase d'); by split_and!.
  - destruct (push d p) as [[d1 o1] r1] eqn:Ep.
    destruct (push_waiting _ _ _ _ _ _ _ _ Hw Ep) as (s & -> & Hs). destruct s as [[]|[e|]]; [| | |done].
    + destruct (feed d1 ps) as [[d2 o2] r2] eqn:Ef. simplify_eq. rewrite app_assoc.
      by apply (IH d1 (out ++ o1) d' o2).
    + destruct Hs as (Hi1 & Hp1 & Hv & El & Em). rewrite feed_done in Hf by done. simplify_eq.
      eexists. split; [done|]. rewrite app_nil_r. destruct (is_empty (concat ps)); [|split; [done|intros st [=]]].
      split; [done|]. intros st [= <-]. by split_and!.
    + simplify_eq. eexists. split; [done|]. split; [done|intros st [=]].
Qed.
End Runs.

(** * Encoding *)

Fixpoint hex_digits (fuel : nat) (n : Z) : bytes :=
  match fuel with
  | O => []
  | S fuel' => if n <? 16 then [hex_char HEX_LOWER n]
               else hex_digits fuel' (n / 16) ++ [hex_char HEX_LOWER (n mod 16)]
  end.

Definition show_hex (n : Z) : bytes := hex_digits 16 n.

Definition chunk_head (size : Z) (signature : option bytes) : bytes :=
  show_hex size ++ match signature with
                   | Some s => bs ";chunk-signature=" ++ hex_lower s
                   | None => []
                   end.

Section Encode.
Context `{Digests}.

Definition chunk_signature_of (m : AwsChunkedMode) (previous : option bytes) (data : bytes) : option bytes :=
  match m, previous with
  | Signed context, Some p =>
      Some (hmac_sha256 (signing_key context) (chunk_string_to_sign context p data))
  | _, _ => None
  end.

(** The chunks of a body, up to and including the final chunk's header. *)
Fixpoint encode_chunks (m : AwsChunkedMode) (previous : option bytes) (chunks : list bytes) : bytes :=
  match chunks with
  | [] => chunk_head 0 (chunk_signature_of m previous []) ++ crlf
  | data :: rest =>
      let s := chunk_signature_of m previous data in
      chunk_head (len data) s ++ crlf ++ data ++ crlf ++ encode_chunks m s rest
  end.

Definition trailer_text (body name : bytes) : bytes :=
  name ++ x3a :: base64_encode (default [] (checksum_of name body)).

Definition encode_trailers (m : AwsChunkedMode) (body : bytes) : bytes :=
  match m with
  | Signed _ => crlf
  | UnsignedTrailer declared => concat (map (fun n => trailer_text body n ++ crlf) declared) ++ crlf
  end.

(** The aws-chunked encoding of a body cut into chunks. *)
Definition encode_body (m : AwsChunkedMode) (chunks : list bytes) : bytes :=
  encode_chunks m (match m with Signed c => Some (seed_signature c) | UnsignedTrailer _ => None end) chunks
  ++ encode_trailers m (concat chunks).

(** A body the limits admit. *)
Definition admissible (m : AwsChunkedMode) (lim : ChunkedLimits) (chunks : list bytes) : Prop :=
  98 <= max_chunk_header_bytes lim /\ 0 <= max_chunk_bytes lim /\
  Forall (fun c => 0 < len c <= Z.min (max_chunk_bytes lim) MAX_BUFFERED_CHUNK_BYTES) chunks /\
  within_limits lim (len (concat chunks)) /\
  (forall e, expected_decoded_length lim = Some e -> e = len (concat chunks)) /\
  len (encode_trailers m (concat chunks)) <= max_trailer_bytes lim /\ max_trailer_bytes lim <= u64_max /\
  match m with Signed _ => True | UnsignedTrailer declared => len declared <= max_trailers lim end.
End Encode.

(** ** Lemmas: the parts of an encoding *)

Lemma hex_char_class n : 0 <= n < 16 ->
  is_ascii_hexdigit (hex_char HEX_LOWER n) = true /\ hex_digit (hex_char HEX_LOWER n) = Some n.
Proof.
  intros Hn. assert (Hall : forallb (fun n => is_ascii_hexdigit (hex_char HEX_LOWER n)
    && bool_decide (hex_digit (hex_char HEX_LOWER n) = Some n)) (seqZ 0 16) = true) by (vm_compute; done).
  apply forallb_elem with (x := n) in Hall; [|apply elem_of_seqZ; lia]. by bool_hyps.
Qed.

Definition radix_16 (l : bytes) : Z := foldl (fun acc b => acc * 16 + default 0 (hex_digit b)) 0 l.

Lemma hex_digits_spec fuel n : 0 <= n < 16 ^ Z.of_nat fuel -> (0 < fuel)%nat ->
  forallb is_ascii_hexdigit (hex_digits fuel n) = true /\ radix_16 (hex_digits fuel n) = n /\
  (0 < length (hex_digits fuel n) <= fuel)%nat.
Proof.
  revert n. induction fuel as [|fuel IH]; intros n Hn Hf; [lia|]. cbn [hex_digits].
  destruct (Z.ltb_spec n 16).
  - destruct (hex_char_class n ltac:(lia)) as [H1 H2]. cbn [forallb]. rewrite H1. unfold radix_16. cbn [foldl].
    rewrite H2. simpl. split_and!; [done|done|lia|lia].
  - rewrite Nat2Z.inj_succ, Z.pow_succ_r in Hn by lia.
    assert (0 < fuel)%nat by (destruct fuel; simpl in Hn; lia).
    pose proof (Z.div_mod n 16 ltac:(lia)). pose proof (Z.mod_pos_bound n 16 ltac:(lia)).
    destruct (IH (n / 16)) as (I1 & I2 & I3); [|done|].
    { split; [apply Z.div_pos; lia|apply Z.div_lt_upper_bound; lia]. }
    destruct (hex_char_class (n mod 16) ltac:(lia)) as [C1 C2].
    rewrite forallb_app, I1. cbn [forallb]. rewrite C1. unfold radix_16 in *. rewrite foldl_app, I2.
    cbn [foldl]. rewrite C2, length_app. simpl. split_and!; [done|lia|lia|lia].
Qed.

Lemma hexdigit_classes b : is_ascii_hexdigit b = true -> b <> x3b /\ b <> CR.
Proof.
  by_bytes (fun b => implb (is_ascii_hexdigit b) (negb (b ==b x3b) && negb (b ==b CR))) b.
  intros E. rewrite E in H. cbn [implb] in H. by bool_hyps.
Qed.

Lemma hex_lower_hexdigits d : forallb is_ascii_hexdigit (hex_lower d) = true.
Proof.
  induction d as [|b d IH]; [done|]. rewrite hex_lower_cons. cbn [forallb]. rewrite IH.
  by_bytes (fun b => is_ascii_hexdigit (hex_char HEX_LOWER (Z.shiftr (bval b) 4))
    && is_ascii_hexdigit (hex_char HEX_LOWER (Z.land (bval b) 15))) b.
  apply andb_prop in H as [-> ->]. done.
Qed.

Lemma parse_chunk_head size signature :
  0 <= size <= u64_max -> (forall s, signature = Some s -> length s = 32%nat) ->
  parse_chunk_header (chunk_head size signature) = Ok (size, signature).
Proof.
  intros Hs Hsig. assert (Hr : 0 <= size < 16 ^ Z.of_nat 16) by (change (16 ^ Z.of_nat 16) with (u64_max + 1); lia).
  destruct (hex_digits_spec 16 size Hr ltac:(lia)) as (D1 & D2 & D3). fold (show_hex size) in *.
  assert (Hno : forall l, forallb is_ascii_hexdigit l = true -> Forall (fun b => (b ==b x3b) = false) l).
  { intros l Hl. apply not_elem_of_Forall_eqb. intros Hin. by apply (forallb_elem _ _ _ Hl), hexdigit_classes in Hin as [? _]. }
  assert (Hguard : is_empty (show_hex size) || (16 <? len (show_hex size))
                   || negb (forallb is_ascii_hexdigit (show_hex size)) = false).
  { rewrite D1. replace (is_empty (show_hex size)) with false
      by (symmetry; apply is_empty_false; intros E; rewrite E in D3; simpl in D3; lia).
    cbn [orb negb]. rewrite orb_false_r. apply Z.ltb_ge. unfold len. lia. }
  assert (Hval : from_str_radix_16 (show_hex size) = Some size).
  { unfold from_str_radix_16. fold (radix_16 (show_hex size)). rewrite D2. apply checked_in. lia. }
  unfold parse_chunk_header, chunk_head. destruct signature as [s|].
  - change (bs ";chunk-signature=" ++ hex_lower s) with (x3b :: (bs "chunk-signature=" ++ hex_lower s)).
    rewrite split_on_app by (done || by apply Hno).
    rewrite split_on_no_sep.
    2:{ apply Forall_app. split; [by repeat constructor|]. apply Hno, hex_lower_hexdigits. }
    rewrite Hguard, Hval. cbn [ok_or fold_result]. unfold chunk_extension.
    change (bs "chunk-signature=" ++ hex_lower s) with (bs "chunk-signature" ++ x3d :: hex_lower s).
    rewrite (proj2 (split_once_Some x3d _ (bs "chunk-signature") (hex_lower s)))
      by (split; [done|by apply contains_false]).
    cbn [ok_or]. rewrite bool_decide_true by done. cbn [negb orb].
    unfold decode_signature_hex, decode_hex_32, len. rewrite length_hex_lower, (Hsig s eq_refl). simpl.
    by rewrite decode_hex_lower.
  - rewrite app_nil_r, split_on_no_sep by (by apply Hno). by rewrite Hguard, Hval.
Qed.

Lemma find_crlf_line line rest : CR ∉ line -> find_sub crlf (line ++ crlf ++ rest) = Some (length line).
Proof.
  induction line as [|b line IH]; intros Hn; [done|]. apply not_elem_of_cons in Hn as [Hb Hn].
  assert (Hst : starts_with (b :: line ++ crlf ++ rest) crlf = false).
  { unfold starts_with, crlf. cbn [strip_prefix]. by rewrite bool_decide_false by done. }
  rewrite <- app_comm_cons. cbn [find_sub]. rewrite Hst, (IH Hn). done.
Qed.

Lemma take_line_exact limit trailer d line rest :
  available d = line ++ crlf ++ rest -> CR ∉ line -> len line <= limit ->
  take_line limit trailer d = (advance (length line + 2) d, Ok (Some line)) /\
  available (advance (length line + 2) d) = rest.
Proof.
  intros Ha Hn Hl. unfold take_line. rewrite Ha, find_crlf_line by done.
  destruct (Z.ltb_spec limit (Z.of_nat (length line))); [unfold len in Hl; lia|].
  rewrite take_app_length. split; [done|]. rewrite available_advance, Ha.
  rewrite drop_app_add. done.
Qed.

Lemma chunk_head_no_cr size s : 0 <= size <= u64_max -> CR ∉ chunk_head size s.
Proof.
  intros Hs. assert (Hr : 0 <= size < 16 ^ Z.of_nat 16) by (change (16 ^ Z.of_nat 16) with (u64_max + 1); lia).
  destruct (hex_digits_spec 16 size Hr ltac:(lia)) as (D1 & _ & _).
  assert (Hno : forall l, forallb is_ascii_hexdigit l = true -> CR ∉ l).
  { intros l Hl Hin. by apply (forallb_elem _ _ _ Hl), hexdigit_classes in Hin as [_ ?]. }
  unfold chunk_head. rewrite elem_of_app. intros [Hin|Hin]; [by apply (Hno _ D1)|].
  destruct s as [s|]; [|by apply elem_of_nil in Hin]. apply elem_of_app in Hin as [Hin|Hin].
  - by apply contains_true in Hin.
  - by apply (Hno _ (hex_lower_hexdigits s)).
Qed.

Lemma chunk_head_length size s : 0 <= size <= u64_max -> (forall x, s = Some x -> length x = 32%nat) ->
  len (chunk_head size s) <= 97.
Proof. intros Hs Hl. by apply (parse_chunk_header_length _ (size, s)), parse_chunk_head. Qed.

Section Decoding.
Context `{Digests}.

(** The loop gets from [d] to [d1], releasing [o]. *)
Definition leads_to (d : Decoder) (o : bytes) (d1 : Decoder) : Prop :=
  forall d' o' r, runs d1 d' o' r -> runs d d' (o ++ o') r.

Lemma leads_step d o d1 : step d = (d1, o, Continue) -> leads_to d o d1.
Proof. intros Hs d' o' r Hr. by eapply runs_continue. Qed.

Lemma leads_trans d o d1 o1 d2 : leads_to d o d1 -> leads_to d1 o1 d2 -> leads_to d (o ++ o1) d2.
Proof. intros H1 H2 d' o' r Hr. rewrite <- app_assoc. auto. Qed.

(** The fields a chunk leaves alone. *)
Definition same_frame (d d1 : Decoder) : Prop :=
  mode d1 = mode d /\ dlimits d1 = dlimits d /\ trailers d1 = trailers d /\ trailer_bytes d1 = trailer_bytes d.

(** The previous signature fits the mode. *)
Definition previous_ok (d : Decoder) : Prop :=
  match mode d with Signed _ => previous_signature d <> None | UnsignedTrailer _ => previous_signature d = None end.

Lemma chunk_signature_length m p data s : chunk_signature_of m p data = Some s -> length s = 32%nat.
Proof. unfold chunk_signature_of. destruct m, p; try done. intros [= <-]. apply hmac_length. Qed.

Lemma chunk_signature_kind d data : previous_ok d ->
  match mode d with
  | Signed _ => exists s, chunk_signature_of (mode d) (previous_signature d) data = Some s /\
                          verify_chunk_signature data s d = Ok tt
  | UnsignedTrailer _ => chunk_signature_of (mode d) (previous_signature d) data = None
  end.
Proof.
  unfold previous_ok, chunk_signature_of, verify_chunk_signature.
  destruct (mode d) as [context|]; [|done]. destruct (previous_signature d) as [p|]; [|done].
  intros _. eexists. split; [done|]. by rewrite (proj2 (verify_hmac_Ok _ _ _)).
Qed.

(** The header line of a data chunk. *)
Lemma step_open d out data rest :
  phase d = PHeader -> decoder_inv d out -> previous_ok d -> 97 <= max_chunk_header_bytes (dlimits d) ->
  available d = chunk_head (len data) (chunk_signature_of (mode d) (previous_signature d) data) ++ crlf ++ rest ->
  0 < len data <= Z.min (max_chunk_bytes (dlimits d)) MAX_BUFFERED_CHUNK_BYTES ->
  within_limits (dlimits d) (len (out ++ data)) ->
  exists n, step d = (set_phase PData (set_current (Some {| chunk_size := len data; chunk_data := [];
      chunk_signature := chunk_signature_of (mode d) (previous_signature d) data |}) (advance n d)), [], Continue)
    /\ available (advance n d) = rest.
Proof.
  intros Hp Hi Hprev Hl Ha Hd (W1 & W2 & W3).
  set (sig := chunk_signature_of (mode d) (previous_signature d) data) in *.
  assert (Hu : 0 <= len data <= u64_max) by (unfold MAX_BUFFERED_CHUNK_BYTES, u64_max in *; lia).
  assert (Hsl : forall x, sig = Some x -> length x = 32%nat) by (intros x; apply chunk_signature_length).
  pose proof (chunk_head_length _ _ Hu Hsl) as Hlen.
  destruct (take_line_exact (max_chunk_header_bytes (dlimits d)) false d _ rest Ha
    ltac:(by apply chunk_head_no_cr) ltac:(lia)) as [Ht Hav].
  eexists. split; [|exact Hav]. unfold step, header_phase. rewrite Hp, Ht. unfold open_chunk.
  rewrite parse_chunk_head by done. set (n := (length _ + 2)%nat).
  change (dlimits (advance n d)) with (dlimits d). change (decoded_bytes (advance n d)) with (decoded_bytes d).
  change (mode (advance n d)) with (mode d).
  destruct (Z.ltb_spec (Z.min (max_chunk_bytes (dlimits d)) MAX_BUFFERED_CHUNK_BYTES) (len data)); [lia|].
  rewrite len_app in *. rewrite (inv_decoded _ _ Hi). pose proof (len_nonneg out).
  unfold checked_add_u64. rewrite checked_in by lia.
  rewrite (proj2 (exceeds_length_false _ _)) by done.
  pose proof (chunk_signature_kind d data Hprev) as Hk. fold sig in Hk.
  destruct (Z.eqb_spec (len data) 0); [lia|].
  destruct (mode d); [destruct Hk as (s & -> & _)|rewrite Hk]; done.
Qed.

(** The bytes of a data chunk, all available. *)
Lemma step_fill d data sig rest : phase d = PData -> 0 < len data ->
  current d = Some {| chunk_size := len data; chunk_data := []; chunk_signature := sig |} ->
  available d = data ++ rest ->
  step d = (set_phase PDataCrlf (advance (length data) (set_current (Some {| chunk_size := len data;
              chunk_data := data; chunk_signature := sig |}) d)), [], Continue).
Proof.
  intros Hp Hd Hc Ha. unfold step, data_phase. rewrite Hp, Hc. cbn [chunk_size chunk_data chunk_signature].
  rewrite Ha. assert (Hne : is_empty (data ++ rest) = false)
    by (apply is_empty_false; intros [-> _]%app_nil; done).
  rewrite Hne, (len_app data rest). change (len (@nil byte)) with 0. pose proof (len_nonneg rest).
  replace (Z.to_nat (Z.min (len data - 0) (len data + len rest))) with (length data) by (unfold len in *; lia).
  rewrite take_app_length. cbn [app]. by rewrite Z.eqb_refl.
Qed.

(** The end of a data chunk: it verifies and is released. *)
Lemma step_release d out data rest :
  phase d = PDataCrlf -> decoder_inv d out -> previous_ok d ->
  current d = Some {| chunk_size := len data; chunk_data := data;
                      chunk_signature := chunk_signature_of (mode d) (previous_signature d) data |} ->
  available d = crlf ++ rest ->
  exists d1, step d = (d1, data, Continue) /\ phase d1 = PHeader /\ available d1 = rest /\ same_frame d d1 /\
    previous_signature d1 = chunk_signature_of (mode d) (previous_signature d) data.
Proof.
  intros Hp Hi Hprev Hc Ha. unfold step, crlf_phase. rewrite Hp, Ha. cbn [crlf app].
  rewrite bool_decide_true by done. cbn [negb].
  change (current (advance 2 d)) with (current d). rewrite Hc. cbn [chunk_signature chunk_data].
  destruct Hi as [_ _ Hdec _ _ Hph _]. rewrite Hp in Hph. destruct Hph as (cur & (Hcur & _ & (W1 & W2 & W3) & _) & _).
  rewrite Hc in Hcur. injection Hcur as <-. cbn [chunk_size] in *.
  assert (Hav : drop 2 (available d) = rest) by (by rewrite Ha).
  assert (Hacc : forall x, dlimits x = dlimits d -> decoded_bytes x = decoded_bytes d ->
    accept_decoded data x = (update_hashers data (set_decoded (decoded_bytes d + len data) x), data, Ok tt)).
  { intros x El Ed. unfold accept_decoded. rewrite Ed. pose proof (len_nonneg out). pose proof (len_nonneg data).
    unfold checked_add_u64. rewrite checked_in by lia. change (dlimits (set_decoded _ x)) with (dlimits x).
    rewrite El, (proj2 (exceeds_length_false _ _)) by done. done. }
  pose proof (chunk_signature_kind d data Hprev) as Hk. unfold previous_ok in Hprev.
  destruct (mode d) as [context|decl] eqn:Em.
  - destruct Hk as (s & -> & Hv).
    change (verify_chunk_signature data s (set_current None (advance 2 d))) with (verify_chunk_signature data s d).
    rewrite Hv, Hacc by done. eexists. split; [reflexivity|]. split_and!; try done.
    rewrite <- Hav, <- available_advance. done.
  - rewrite Hk, Hacc by done. eexists. split; [reflexivity|]. split_and!; try done.
    rewrite <- Hav, <- available_advance. done.
Qed.

Lemma step_inv_continue d out d1 o : phase d <> PDone -> decoder_inv d out ->
  step d = (d1, o, Continue) -> decoder_inv d1 (out ++ o).
Proof. intros Hp Hi Hs. by apply (step_inv _ _ _ _ _ Hp Hi Hs). Qed.

(** One encoded chunk is consumed and released. *)
Lemma chunk_leads d out data rest :
  phase d = PHeader -> decoder_inv d out -> previous_ok d -> 97 <= max_chunk_header_bytes (dlimits d) ->
  available d = chunk_head (len data) (chunk_signature_of (mode d) (previous_signature d) data)
                ++ crlf ++ data ++ crlf ++ rest ->
  0 < len data <= Z.min (max_chunk_bytes (dlimits d)) MAX_BUFFERED_CHUNK_BYTES ->
  within_limits (dlimits d) (len (out ++ data)) ->
  exists d1, leads_to d data d1 /\ phase d1 = PHeader /\ decoder_inv d1 (out ++ data) /\ available d1 = rest /\
    same_frame d d1 /\ previous_ok d1 /\
    previous_signature d1 = chunk_signature_of (mode d) (previous_signature d) data.
Proof.
  intros Hp Hi Hprev Hl Ha Hd Hw.
  destruct (step_open d out data _ Hp Hi Hprev Hl Ha Hd Hw) as (n & Hs1 & Ha1).
  set (sig := chunk_signature_of (mode d) (previous_signature d) data) in *.
  set (d1 := set_phase PData (set_current _ (advance n d))) in *.
  pose proof (step_inv_continue d out d1 [] ltac:(by rewrite Hp) Hi Hs1) as Hi1. rewrite app_nil_r in Hi1.
  pose proof (step_fill d1 data sig (crlf ++ rest) eq_refl ltac:(lia) eq_refl Ha1) as Hs2.
  set (d2 := set_phase PDataCrlf _) in *.
  pose proof (step_inv_continue d1 out d2 [] ltac:(done) Hi1 Hs2) as Hi2. rewrite app_nil_r in Hi2.
  assert (Ha2 : available d2 = crlf ++ rest).
  { unfold d2. change (available (set_phase _ ?x)) with (available x). rewrite available_advance.
    change (available (set_current _ d1)) with (available (advance n d)). by rewrite Ha1, drop_app_length. }
  destruct (step_release d2 out data rest eq_refl Hi2 Hprev eq_refl Ha2) as (d3 & Hs3 & Hp3 & Ha3 & Hf3 & Hprev3).
  pose proof (step_inv_continue d2 out d3 data ltac:(done) Hi2 Hs3) as Hi3.
  exists d3. split_and!; try done.
  - apply (leads_trans d [] d1 data d3); [by apply leads_step|].
    apply (leads_trans d1 [] d2 data d3); by apply leads_step.
  - unfold previous_ok. rewrite Hprev3. destruct Hf3 as (-> & _). change (mode d2) with (mode d).
    pose proof (chunk_signature_kind d data Hprev) as Hk. fold sig in Hk.
    change (chunk_signature_of (mode d) (previous_signature d2) data) with sig.
    destruct (mode d); [by destruct Hk as (s & -> & _)|done].
Qed.

(** The header of the final chunk. *)
Lemma final_leads d out rest :
  phase d = PHeader -> decoder_inv d out -> previous_ok d -> 97 <= max_chunk_header_bytes (dlimits d) ->
  0 <= Z.min (max_chunk_bytes (dlimits d)) MAX_BUFFERED_CHUNK_BYTES ->
  available d = chunk_head 0 (chunk_signature_of (mode d) (previous_signature d) []) ++ crlf ++ rest ->
  within_limits (dlimits d) (len out) ->
  exists d1, leads_to d [] d1 /\ phase d1 = PTrailers /\ decoder_inv d1 out /\ available d1 = rest /\ same_frame d d1.
Proof.
  intros Hp Hi Hprev Hl Hmax Ha (W1 & W2 & W3).
  set (sig := chunk_signature_of (mode d) (previous_signature d) []) in *.
  assert (Hu : 0 <= 0 <= u64_max) by (unfold u64_max; lia).
  assert (Hsl : forall x, sig = Some x -> length x = 32%nat) by (intros x; apply chunk_signature_length).
  pose proof (chunk_head_length _ _ Hu Hsl) as Hlen.
  destruct (take_line_exact (max_chunk_header_bytes (dlimits d)) false d _ rest Ha
    ltac:(by apply chunk_head_no_cr) ltac:(lia)) as [Ht Hav].
  set (d0 := advance _ d) in *.
  assert (Hd0 : same_frame d d0 /\ mode d0 = mode d /\ decoded_bytes d0 = len out)
    by (split_and!; try done; by rewrite <- (inv_decoded _ _ Hi)).
  assert (Hstep : exists d1, step d = (d1, [], Continue) /\ phase d1 = PTrailers /\ available d1 = rest /\ same_frame d d1).
  { unfold step, header_phase. rewrite Hp, Ht. unfold open_chunk. rewrite parse_chunk_head by done.
    destruct Hd0 as ((Em & El & _ & _) & _ & Edec). rewrite El, Edec, Em.
    destruct (Z.ltb_spec (Z.min (max_chunk_bytes (dlimits d)) MAX_BUFFERED_CHUNK_BYTES) 0); [lia|].
    unfold checked_add_u64. pose proof (len_nonneg out). rewrite Z.add_0_r, checked_in by lia.
    rewrite (proj2 (exceeds_length_false _ _)) by done.
    pose proof (chunk_signature_kind d [] Hprev) as Hk. fold sig in Hk.
    destruct (mode d) eqn:Em'.
    - destruct Hk as (s & -> & Hv).
      change (verify_chunk_signature [] s d0) with (verify_chunk_signature [] s d). rewrite Hv.
      eexists. split; [reflexivity|]. split_and!; try done; congruence.
    - rewrite Hk. eexists. split; [reflexivity|]. split_and!; try done; congruence. }
  destruct Hstep as (d1 & Hs & Hp1 & Ha1 & Hf1). exists d1. split_and!; try done; [by apply leads_step|].
  rewrite <- (app_nil_r out). by eapply step_inv_continue; [rewrite Hp| |].
Qed.

Lemma chunks_lead chunks : forall d out rest,
  phase d = PHeader -> decoder_inv d out -> previous_ok d -> 97 <= max_chunk_header_bytes (dlimits d) ->
  0 <= Z.min (max_chunk_bytes (dlimits d)) MAX_BUFFERED_CHUNK_BYTES ->
  available d = encode_chunks (mode d) (previous_signature d) chunks ++ rest ->
  Forall (fun c => 0 < len c <= Z.min (max_chunk_bytes (dlimits d)) MAX_BUFFERED_CHUNK_BYTES) chunks ->
  within_limits (dlimits d) (len (out ++ concat chunks)) ->
  exists d1, leads_to d (concat chunks) d1 /\ phase d1 = PTrailers /\ decoder_inv d1 (out ++ concat chunks) /\
    available d1 = rest /\ same_frame d d1.
Proof.
  induction chunks as [|data chunks IH]; intros d out rest Hp Hi Hprev Hl Hmax Ha Hc Hw.
  - cbn [encode_chunks concat] in *. rewrite app_nil_r in *. rewrite <- app_assoc in Ha.
    by apply (final_leads d out rest).
  - cbn [encode_chunks concat] in *. inversion Hc as [|? ? Hd Hc']; subst.
    assert (Hw1 : within_limits (dlimits d) (len (out ++ data))).
    { destruct Hw as (W1 & W2 & W3). rewrite !len_app in *. pose proof (len_nonneg (concat chunks)).
      split_and!; [lia|lia|]. intros e He. specialize (W3 e He). lia. }
    rewrite <- !app_assoc in Ha.
    destruct (chunk_leads d out data _ Hp Hi Hprev Hl Ha Hd Hw1)
      as (d1 & Hlead & Hp1 & Hi1 & Ha1 & Hf1 & Hprev1 & Eprev1).
    pose proof Hf1 as (Em & El & Et & Eb). rewrite <- El, <- Em, <- Eprev1 in *.
    rewrite app_assoc in Hw.
    destruct (IH d1 (out ++ data) rest Hp1 Hi1 Hprev1 Hl Hmax Ha1 Hc' Hw) as (d2 & Hlead2 & Hp2 & Hi2 & Ha2 & Hf2).
    exists d2. rewrite app_assoc. split_and!; try done; [by eapply leads_trans|].
    destruct Hf1 as (? & ? & ? & ?), Hf2 as (? & ? & ? & ?). split_and!; congruence.
Qed.

(** ** Trailers *)

Lemma be_bytes_length n z : length (be_bytes n z) = n.
Proof. revert z. induction n as [|n IH]; intros z; simpl; [done|]. rewrite length_app, IH. simpl. lia. Qed.

Lemma check_declared_spec declared : forall seen, check_declared seen declared = Ok tt ->
  Forall (fun n => n ∈ supported_checksums) declared /\ NoDup declared /\ (forall n, n ∈ declared -> n ∉ seen).
Proof.
  induction declared as [|n declared IH]; intros seen Hc; cbn [check_declared] in Hc.
  - split_and!; [done|constructor|]. by intros ? ?%elem_of_nil.
  - destruct (existsb _ supported_checksums) eqn:E1; [|done]. cbn [negb] in Hc.
    destruct (existsb _ seen) eqn:E2; [done|]. apply contains_true' in E1.
    apply not_true_iff_false in E2. rewrite contains_true' in E2.
    destruct (IH _ Hc) as (I1 & I2 & I3). split_and!; [by constructor|constructor; [|done]|].
    + intros Hin. apply (I3 n Hin). apply elem_of_app. right. apply list_elem_of_singleton. done.
    + intros k [-> |Hk]%elem_of_cons; [done|]. intros Hs. apply (I3 k Hk). apply elem_of_app. by left.
Qed.

(** A supported checksum has a digest, of the length its text announces. *)
Lemma checksum_supported name body : name ∈ supported_checksums ->
  exists digest n, checksum_of name body = Some digest /\
    (forall d, crc32_in d = body -> crc32c_in d = body -> crc64nvme_in d = body -> sha1_in d = body ->
       sha256_in d = body -> calculated_checksum name d = Some (digest, n)) /\
    len (base64_encode digest) = n /\ 0 < n.
Proof.
  intros Hn. unfold supported_checksums in Hn.
  assert (Hlen : forall l k, length l = k ->
    len (base64_encode l) = Z.of_nat (4 * ((k + 2) / 3))) by (intros l k <-; unfold len; by rewrite base64_length).
  assert (Hcase : forall nm digest n k, checksum_of nm body = Some digest -> length digest = k ->
    n = Z.of_nat (4 * ((k + 2) / 3)) -> 0 < n ->
    (forall d, crc32_in d = body -> crc32c_in d = body -> crc64nvme_in d = body -> sha1_in d = body ->
       sha256_in d = body -> calculated_checksum nm d = Some (digest, n)) ->
    exists digest n, checksum_of nm body = Some digest /\
    (forall d, crc32_in d = body -> crc32c_in d = body -> crc64nvme_in d = body -> sha1_in d = body ->
       sha256_in d = body -> calculated_checksum nm d = Some (digest, n)) /\
    len (base64_encode digest) = n /\ 0 < n).
  { intros nm digest n k E1 E2 E3 E4 E5. exists digest, n. split_and!; try done. by rewrite (Hlen _ _ E2). }
  repeat (apply elem_of_cons in Hn as [-> |Hn]); [..|by apply elem_of_nil in Hn].
  - apply (Hcase _ (be_bytes 4 (crc32 body)) 8 4%nat); [done|apply be_bytes_length|done..|by intros d <- _ _ _ _].
  - apply (Hcase _ (be_bytes 4 (crc32c body)) 8 4%nat); [done|apply be_bytes_length|done..|by intros d _ <- _ _ _].
  - apply (Hcase _ (sha1 body) 28 20%nat); [done|apply sha1_length|done..|by intros d _ _ _ <- _].
  - apply (Hcase _ (sha256 body) 44 32%nat); [done|apply sha256_length|done..|by intros d _ _ _ _ <-].
  - apply (Hcase _ (be_bytes 8 (crc64nvme body)) 12 8%nat); [done|apply be_bytes_length|done..|by intros d _ _ <- _ _].
Qed.

Definition trailer_of (body name : bytes) : DecodedTrailer :=
  {| trailer_name := name; trailer_value := base64_encode (default [] (checksum_of name body)) |}.

Lemma supported_name name : name ∈ supported_checksums ->
  is_empty name = false /\ forallb trailer_name_byte name = true /\ (x3a ∉ name) /\ (CR ∉ name) /\
  match name with b :: _ => is_ows b | [] => false end = false.
Proof.
  intros Hn. assert (Hall : forallb (fun name => negb (is_empty name) && forallb trailer_name_byte name
      && negb (contains x3a name) && negb (contains CR name)
      && negb (match name with b :: _ => is_ows b | [] => false end)) supported_checksums = true)
    by (vm_compute; done).
  apply (forallb_elem _ _ _ Hall) in Hn. guards. split_and!; [by apply is_empty_false|done..].
Qed.

Lemma graphic_value v : forallb is_ascii_graphic v = true -> v <> [] ->
  strip_one_lf (trim_ows v) = v /\ is_empty v = false /\ (CR ∉ v).
Proof.
  intros Hg Hne.
  assert (Hc : forall b, b ∈ v -> is_ows b = false /\ b <> LF /\ b <> CR).
  { intros b Hb. apply (forallb_elem _ _ _ Hg) in Hb as Hb'. apply graphic_classes in Hb' as (? & ? & ? & _).
    split_and!; try done. apply (forallb_elem _ _ _ Hg) in Hb.
    pose proof (byte_forall (fun b => implb (is_ascii_graphic b) (negb (is_ows b))) eq_refl b) as Hq.
    cbv beta in Hq. rewrite Hb in Hq. by apply negb_true_iff in Hq. }
  assert (Ht : trim_ows v = v).
  { apply trim_by_id; intros x Hx; [apply head_Some_elem_of in Hx|apply last_Some_elem_of in Hx]; by apply Hc. }
  rewrite Ht. split_and!; [|by apply is_empty_false|intros Hin; by apply Hc in Hin as (_ & _ & ?)].
  unfold strip_one_lf. destruct (reverse v) as [|b r] eqn:Er; [done|]. rewrite bool_decide_false; [done|].
  intros ->. assert (Hin : LF ∈ v) by (rewrite <- elem_of_reverse, Er; left). by apply Hc in Hin as (_ & ? & _).
Qed.

Lemma trailer_value_graphic body name : name ∈ supported_checksums ->
  let v := base64_encode (default [] (checksum_of name body)) in
  forallb is_ascii_graphic v = true /\ v <> [].
Proof.
  intros Hn. destruct (checksum_supported name body Hn) as (digest & n & -> & _ & Hl & Hn0). simpl.
  split; [apply base64_graphic|]. intros E. rewrite E in Hl. unfold len in Hl. simpl in Hl. lia.
Qed.

(** The line of a trailer, seen by [accept_trailer]. *)
Lemma accept_trailer_text d body name declared front :
  mode d = UnsignedTrailer declared -> name ∈ supported_checksums -> name ∈ declared -> name ∉ front ->
  trailers d = map (trailer_of body) front -> len front < max_trailers (dlimits d) ->
  accept_trailer (trailer_text body name) d
  = (set_trailers (trailers d ++ [trailer_of body name]) (trailer_bytes d) d, Ok tt).
Proof.
  intros Em Hn Hdecl Hnew Et Hmax. destruct (supported_name name Hn) as (N1 & N2 & N3 & _ & N5).
  destruct (trailer_value_graphic body name Hn) as [V1 V2].
  destruct (graphic_value _ V1 V2) as (G1 & G2 & _).
  unfold accept_trailer, trailer_text. rewrite Em.
  assert (Hcount : (max_trailers (dlimits d) <=? len (trailers d)) = false)
    by (apply Z.leb_gt; rewrite Et; unfold len in *; by rewrite length_map).
  rewrite Hcount.
  assert (Hows : match name ++ x3a :: base64_encode (default [] (checksum_of name body)) with
                 | b :: _ => is_ows b | [] => false end = false) by (by destruct name).
  rewrite Hows, (proj2 (split_once_Some x3a _ name _)) by done. rewrite N1, N2. cbn [orb negb].
  set (v := base64_encode (default [] (checksum_of name body))) in *. rewrite G1, G2, V1. cbn [orb negb].
  assert (Hdup : existsb (fun t => trailer_name t ==b name) (trailers d) = false).
  { apply not_true_iff_false. intros (t & Ht & Hnm)%existsb_exists. rewrite Et in Ht.
    apply in_map_iff in Ht as (x & <- & Hx). bool_hyps. simpl in Hnm. subst x.
    by apply list_elem_of_In in Hx. }
  rewrite Hdup. rewrite (proj2 (contains_true' name declared)) by done. done.
Qed.

Lemma finish_trailers_text d body declared :
  mode d = UnsignedTrailer declared -> Forall (fun n => n ∈ supported_checksums) declared ->
  decoder_inv d body -> trailers d = map (trailer_of body) declared ->
  (forall e, expected_decoded_length (dlimits d) = Some e -> e = len body) ->
  finish_trailers d = Ok tt.
Proof.
  intros Em Hs [_ (H1 & H2 & H3 & H4 & H5) Hdec _ _ _ _] Et He. unfold finish_trailers.
  assert (Hexp : match expected_decoded_length (dlimits d) with
    | Some expected => if negb (decoded_bytes d =? expected)
        then Err (ChunkedError.DecodedLengthMismatch expected (decoded_bytes d)) else Ok tt
    | None => Ok tt end = Ok tt).
  { destruct (expected_decoded_length (dlimits d)) as [e|] eqn:Ee; [|done].
    rewrite (He e eq_refl), Hdec, Z.eqb_refl. done. }
  rewrite Hexp, Em.
  assert (Hall : traverse (check_trailer d) declared = Ok (map (fun _ => tt) declared)).
  { apply traverse_Ok. apply Forall2_fmap_r, Forall_Forall2_diag, Forall_forall. intros name Hin.
    rewrite Forall_forall in Hs. pose proof (Hs name Hin) as Hsn. unfold check_trailer.
    assert (Hfind : find (fun t => trailer_name t ==b name) (trailers d) = Some (trailer_of body name)).
    { rewrite Et. clear -Hin. induction declared as [|x l IH]; [by apply elem_of_nil in Hin|]. simpl.
      case_bool_decide as E; [by rewrite E|]. apply IH. apply elem_of_cons in Hin as [-> |?]; done. }
    rewrite Hfind. cbn [ok_or].
    destruct (checksum_supported name body Hsn) as (digest & n & Hd & Hcalc & Hlen & _).
    rewrite (Hcalc d H1 H2 H3 H4 H5). cbn [ok_or trailer_of trailer_value]. rewrite Hd. simpl default.
    rewrite Hlen, Z.eqb_refl. cbn [negb]. rewrite base64_roundtrip. cbn [ok_or].
    rewrite Z.eqb_refl. cbn [negb]. by rewrite (proj2 (constant_time_eq_true digest digest)). }
  by rewrite Hall.
Qed.

(** The empty line that ends a body whose trailers are complete. *)
Lemma step_end d body : phase d = PTrailers -> available d = crlf -> finish_trailers d = Ok tt ->
  0 <= trailer_bytes d -> trailer_bytes d + 2 <= max_trailer_bytes (dlimits d) <= u64_max ->
  decoder_inv d body -> exists d', runs d d' [] (Ok Done).
Proof.
  intros Hp Ha Hf Htb Hmax Hi.
  destruct (take_line_exact (max_trailer_bytes (dlimits d)) true d [] [] Ha ltac:(apply not_elem_of_nil)
    ltac:(change (len []) with 0; lia)) as [Ht Hav].
  eexists. apply runs_return. unfold step, trailers_phase. rewrite Hp, Ht. unfold trailer_line.
  change (trailer_bytes (advance _ d)) with (trailer_bytes d). change (len (@nil byte) + 2) with 2.
  unfold checked_add_u64. rewrite checked_in by lia. cbn [is_empty].
  change (dlimits (set_trailers _ _ (advance _ d))) with (dlimits d).
  destruct (Z.ltb_spec (max_trailer_bytes (dlimits d)) (trailer_bytes d + 2)); [lia|].
  change (finish_trailers (set_trailers _ _ (advance _ d))) with (finish_trailers d). rewrite Hf.
  change (available (set_phase PDone (set_trailers ?a ?b ?x))) with (available x). rewrite Hav. reflexivity.
Qed.

Lemma trailers_run rest : forall d front body declared,
  phase d = PTrailers -> mode d = UnsignedTrailer declared -> declared = front ++ rest ->
  Forall (fun n => n ∈ supported_checksums) declared -> NoDup declared ->
  len declared <= max_trailers (dlimits d) -> decoder_inv d body ->
  (forall e, expected_decoded_length (dlimits d) = Some e -> e = len body) ->
  trailers d = map (trailer_of body) front ->
  available d = concat (map (fun n => trailer_text body n ++ crlf) rest) ++ crlf ->
  trailer_bytes d + len (available d) <= max_trailer_bytes (dlimits d) <= u64_max ->
  exists d', runs d d' [] (Ok Done).
Proof.
  induction rest as [|n rest IH]; intros d front body declared Hp Em Ed Hs Hnd Hc Hi He Et Ha Hb.
  - cbn [map concat app] in Ha. rewrite app_nil_r in Ed. subst front.
    apply (step_end d body); try done.
    + by eapply finish_trailers_text.
    + apply (inv_trailer_bytes _ _ Hi).
    + rewrite Ha in Hb. change (len crlf) with 2 in Hb. lia.
  - cbn [map concat] in Ha. rewrite <- !app_assoc in Ha.
    pose proof (inv_trailer_bytes _ _ Hi) as Htb.
    assert (Hn : n ∈ declared) by (rewrite Ed; apply elem_of_app; right; left).
    assert (Hsup : n ∈ supported_checksums) by (rewrite Forall_forall in Hs; by apply Hs).
    assert (Hnew : n ∉ front).
    { intros Hin. rewrite Ed in Hnd. apply NoDup_app in Hnd as (_ & Hx & _). apply (Hx n Hin). left. }
    destruct (supported_name n Hsup) as (N1 & _ & _ & N4 & _).
    destruct (trailer_value_graphic body n Hsup) as [V1 V2]. destruct (graphic_value _ V1 V2) as (_ & _ & V3).
    assert (Hcr : CR ∉ trailer_text body n).
    { unfold trailer_text. rewrite elem_of_app, elem_of_cons. intros [?|[?|?]]; [by apply N4|done|by apply V3]. }
    rewrite Ha, len_app in Hb. rewrite len_app in Hb. change (len crlf) with 2 in Hb.
    set (after := concat (map (fun n => trailer_text body n ++ crlf) rest) ++ crlf) in *.
    pose proof (len_nonneg after). pose proof (len_nonneg (trailer_text body n)).
    destruct (take_line_exact (max_trailer_bytes (dlimits d)) true d _ _ Ha Hcr ltac:(lia)) as [Ht Hav].
    set (d0 := advance _ d) in *. set (k := trailer_bytes d + (len (trailer_text body n) + 2)).
    set (d1 := set_trailers (trailers d ++ [trailer_of body n]) k d0).
    assert (Hstep : step d = (d1, [], Continue)).
    { unfold step, trailers_phase. rewrite Hp, Ht. unfold trailer_line. change (trailer_bytes d0) with (trailer_bytes d).
      unfold checked_add_u64. rewrite checked_in by lia. fold k.
      change (dlimits (set_trailers (trailers d0) k d0)) with (dlimits d).
      destruct (Z.ltb_spec (max_trailer_bytes (dlimits d)) k); [lia|].
      replace (is_empty (trailer_text body n)) with false by (unfold trailer_text; by destruct n).
      rewrite (accept_trailer_text _ body n declared front); try done.
      rewrite Ed in Hc. rewrite len_app, len_cons in Hc. pose proof (len_nonneg rest).
      change (dlimits (set_trailers (trailers d0) k d0)) with (dlimits d). lia. }
    pose proof (step_inv_continue d body d1 [] ltac:(by rewrite Hp) Hi Hstep) as Hi1. rewrite app_nil_r in Hi1.
    destruct (IH d1 (front ++ [n]) body declared) as [d' Hr]; try done.
    + by rewrite Ed, <- app_assoc.
    + change (trailers d1) with (trailers d ++ [trailer_of body n]). by rewrite Et, map_app.
    + change (available d1) with (available d0). change (trailer_bytes d1) with k. rewrite Hav. fold after.
      change (dlimits d1) with (dlimits d). unfold k. lia.
    + exists d'. exact (runs_continue _ _ _ [] [] _ Hstep Hr).
Qed.
End Decoding.

Lemma new_fields m lim d : Decoder_new m lim = Ok d ->
  phase d = PHeader /\ available d = [] /\ trailers d = [] /\ trailer_bytes d = 0 /\
  previous_signature d = (match m with Signed c => Some (seed_signature c) | UnsignedTrailer _ => None end) /\
  (forall decl, m = UnsignedTrailer decl -> check_declared [] decl = Ok tt).
Proof.
  unfold Decoder_new. intros Hn. destruct m as [c|decl].
  - injection Hn as <-. by split_and!.
  - destruct (validate_declarations decl) as [[]|] eqn:Ev; [|done]. injection Hn as <-. split_and!; try done.
    intros decl' [= <-]. unfold validate_declarations in Ev. by destruct (is_empty decl).
Qed.

(** The trailer section of an admissible body completes it. *)
Lemma encoded_trailers_run `{Digests} m lim d body chunks :
  admissible m lim chunks -> body = concat chunks -> phase d = PTrailers -> decoder_inv d body ->
  mode d = m -> dlimits d = lim -> trailers d = [] -> trailer_bytes d = 0 ->
  (forall decl, m = UnsignedTrailer decl -> check_declared [] decl = Ok tt) ->
  available d = encode_trailers m body -> exists d', runs d d' [] (Ok Done).
Proof.
  intros (_ & _ & _ & _ & A5 & A6 & A7 & A8) -> Hp Hi Em El Htr Htb Hdecl Ha. destruct m as [c|decl].
  - apply (step_end d (concat chunks)); try done.
    + unfold finish_trailers. rewrite Em, El, Htr. cbn [is_empty].
      destruct (expected_decoded_length lim) as [e|] eqn:Ee; [|done].
      by rewrite (inv_decoded _ _ Hi), (A5 e eq_refl), Z.eqb_refl.
    + rewrite Htb. lia.
    + rewrite El, Htb. change (len (encode_trailers (Signed c) (concat chunks))) with 2 in A6. lia.
  - destruct (check_declared_spec decl [] (Hdecl decl eq_refl)) as (S1 & S2 & _).
    eapply (trailers_run decl d [] (concat chunks) decl); try done.
    + by rewrite El.
    + rewrite El. intros e He. by apply A5.
    + rewrite Htb, El, Ha. lia.
Qed.

(** * Properties *)

(** Aws-chunked decoding does not depend on how the connection fragments
    the body: for every way to cut it, a fresh decoder releases the same bytes
    and ends in the same status as on the whole body at once, or fails on both.
    It needs a header limit above the longest valid header, as the default has. *)
Theorem chunked_fragmentation `{Digests} (m : AwsChunkedMode) (lim : ChunkedLimits) (d : Decoder)
  (pieces : list bytes) :
  98 <= max_chunk_header_bytes lim -> Decoder_new m lim = Ok d ->
  same_result (feed d pieces) (push d (concat pieces)).
Proof. intros Hl Hn. eapply feed_push; [exact Hl|]. apply new_waiting; [lia|done]. Qed.

(** C11: Encoding then decoding: a body cut into admissible chunks, signed with
    the chunk-signature chain or followed by its checksum trailers, decodes to
    exactly that body and completes, however its encoding is fragmented. *)
Theorem chunked_roundtrip `{Digests} (m : AwsChunkedMode) (lim : ChunkedLimits) (d : Decoder)
  (chunks pieces : list bytes) :
  Decoder_new m lim = Ok d -> admissible m lim chunks -> concat pieces = encode_body m chunks ->
  exists d', feed d pieces = (d', concat chunks, Some (Ok Done)).
Proof.
  intros Hn Hadm Hpieces. pose proof Hadm as (A1 & A2 & A3 & A4 & _).
  pose proof (new_waiting m lim d ltac:(lia) Hn) as Hw. pose proof Hw as (Hi & Hp & _ & El & Em).
  destruct (new_fields m lim d Hn) as (Hph & Hav & Htr & Htb & Hprev & Hdecl).
  set (body := concat chunks) in *. set (x := extend (encode_body m chunks) d).
  assert (Hax : available x = encode_body m chunks)
    by (unfold x; rewrite available_extend by apply (inv_offset _ _ Hi); by rewrite Hav).
  destruct (chunks_lead chunks x [] (encode_trailers m body)) as (d1 & Hlead & Hp1 & Hi1 & Ha1 & (F1 & F2 & F3 & F4)).
  - done.
  - by apply inv_extend.
  - unfold previous_ok. change (mode x) with (mode d). change (previous_signature x) with (previous_signature d).
    rewrite Em, Hprev. by destruct m.
  - change (dlimits x) with (dlimits d). rewrite El. lia.
  - change (dlimits x) with (dlimits d). rewrite El. unfold MAX_BUFFERED_CHUNK_BYTES. lia.
  - change (mode x) with (mode d). change (previous_signature x) with (previous_signature d).
    rewrite Hax, Em, Hprev. done.
  - change (dlimits x) with (dlimits d). by rewrite El.
  - change (dlimits x) with (dlimits d). rewrite El. by rewrite app_nil_l.
  - change (mode x) with (mode d) in F1. change (dlimits x) with (dlimits d) in F2.
    change (trailers x) with (trailers d) in F3. change (trailer_bytes x) with (trailer_bytes d) in F4.
    rewrite app_nil_l in Hi1. fold body in Hi1.
    destruct (encoded_trailers_run m lim d1 body chunks Hadm eq_refl Hp1 Hi1 ltac:(congruence)
      ltac:(congruence) ltac:(congruence) ltac:(congruence) Hdecl Ha1) as [d2 Hend]. apply Hlead in Hend. rewrite app_nil_r in Hend. fold body in Hend.
    destruct (push_runs d [] (encode_body m chunks) Hp Hi) as (d3 & o3 & r3 & Hpush & _ & d4 & Hr4 & _).
    fold x in Hr4. destruct (runs_det _ _ _ _ Hend _ _ _ Hr4) as (_ & <- & <-).
    pose proof (feed_push m lim d [] pieces A1 Hw) as Hsame. rewrite Hpieces, Hpush in Hsame.
    destruct (feed d pieces) as [[d5 o5] [[s|[]]|]]; [|by destruct Hsame..].
    destruct Hsame as (-> & -> & _). eauto.
Qed.

(** Pushing any pieces never panics and always returns; while it succeeds,
    the decoder has counted and hashed exactly the bytes it released, these stay
    within the configured and declared lengths, and at most 1 MiB of unverified
    chunk data is buffered. *)
Theorem chunked_bounds `{Digests} (m : AwsChunkedMode) (lim : ChunkedLimits) (d d' : Decoder)
  (pieces : list bytes) (out : bytes) (r : option (result fault DecodeStatus)) :
  0 <= max_chunk_header_bytes lim -> Decoder_new m lim = Ok d -> feed d pieces = (d', out, r) ->
  r <> None /\ r <> Some (Err Panic) /\
  (forall status, r = Some (Ok status) ->
     decoded_bytes d' = len out /\ sha256_in d' = out /\
     (out <> [] -> len out <= max_decoded_bytes lim /\
        forall e, expected_decoded_length lim = Some e -> len out <= e) /\
     (forall c, phase d' = PData \/ phase d' = PDataCrlf -> current d' = Some c ->
        len (chunk_data c) <= MAX_BUFFERED_CHUNK_BYTES)).
Proof.
  intros Hl Hn Hf. destruct (feed_inv m lim pieces d [] d' out r (new_waiting _ _ _ Hl Hn) Hf) as (s & -> & Hnp & Hok).
  split_and!; [done|congruence|]. intros st [= ->]. destruct (Hok st eq_refl) as (Hi & El & _ & _ & _).
  rewrite app_nil_l in Hi. destruct Hi as [_ (_ & _ & _ & _ & Hs) Hdec _ Hlim Hph _]. split_and!; try done.
  - intros Hne. rewrite El in Hlim. destruct Hlim as (? & ? & ?); [|done].
    destruct out; [done|]. rewrite len_cons. pose proof (len_nonneg out). lia.
  - intros c [E|E] Hc; rewrite E in Hph; destruct Hph as (c' & (Hc' & Hs' & _) & Hlen); simplify_eq; lia.
Qed.

(** * Witnesses *)

#[local] Instance sample_digests : Digests.
Proof.
  refine {| digest_crypto := sample_crypto; crc32 := len; crc32c := len; crc64nvme := len;
            sha1 := fun m => take 20 (sample_digest m);
            base64_encode := b64_encode; base64_decode := b64_decode |}.
  - intros m. unfold sample_digest. by rewrite length_take, fold_block_length.
  - apply b64_roundtrip.
  - apply b64_length.
  - apply b64_graphic.
Defined.

Definition sample_context : StreamingSigningContext := {|
  signing_key := repeat x01 32; amz_date := bs "20240506T070809Z";
  credential_scope := bs "20240506/us-east-1/s3/aws4_request"; seed_signature := repeat x02 32 |}.

Definition sample_limits : ChunkedLimits := {|
  max_chunk_header_bytes := 1024; max_chunk_bytes := MAX_BUFFERED_CHUNK_BYTES; max_decoded_bytes := 64;
  max_trailer_bytes := 256; max_trailers := 2; expected_decoded_length := Some 11 |}.

Definition sample_chunks : list bytes := [bs "hello "; bs "world"].

Definition sample_modes : AwsChunkedMode * AwsChunkedMode :=
  (Signed sample_context, UnsignedTrailer [bs "x-amz-checksum-crc32"; bs "x-amz-checksum-sha256"]).

Definition sample_decoder (m : AwsChunkedMode) : Decoder :=
  {| mode := m; dlimits := sample_limits; phase := PHeader; input := []; offset := 0; current := None;
     decoded_bytes := 0; crc32_in := []; crc32c_in := []; crc64nvme_in := []; sha1_in := [];
     sha256_in := []; trailers := []; trailer_bytes := 0;
     previous_signature := match m with Signed c => Some (seed_signature c) | UnsignedTrailer _ => None end |}.

Lemma sample_admissible : admissible (fst sample_modes) sample_limits sample_chunks /\
  admissible (snd sample_modes) sample_limits sample_chunks.
Proof.
  assert (Hz : forall m, len (encode_trailers m (concat sample_chunks)) <= 256 ->
    match m with Signed _ => True | UnsignedTrailer declared => len declared <= 2 end ->
    admissible m sample_limits sample_chunks).
  { intros m Hm Hd. split_and!; try done; try (intros e [= <-]; vm_compute; (discriminate || reflexivity)).
    - repeat constructor; vm_compute; done.
    - unfold within_limits. split_and!; [done..|]. intros e [= <-]. done. }
  split; apply Hz; vm_compute; done.
Qed.

(** Cuts a byte string into pieces of seven bytes. *)
Fixpoint cut_in (fuel : nat) (l : bytes) : list bytes :=
  match fuel with O => [l] | S fuel' => take 7 l :: cut_in fuel' (drop 7 l) end.

Lemma chunked_roundtrip_witness :
  (exists d', feed (sample_decoder (fst sample_modes)) (cut_in 40 (encode_body (fst sample_modes) sample_chunks))
     = (d', bs "hello world", Some (Ok Done))) /\
  (exists d', feed (sample_decoder (snd sample_modes)) (cut_in 40 (encode_body (snd sample_modes) sample_chunks))
     = (d', bs "hello world", Some (Ok Done))).
Proof.
  split.
  - apply (chunked_roundtrip (fst sample_modes) sample_limits (sample_decoder (fst sample_modes)) sample_chunks);
      [reflexivity|apply sample_admissible|vm_compute; reflexivity].
  - apply (chunked_roundtrip (snd sample_modes) sample_limits (sample_decoder (snd sample_modes)) sample_chunks);
      [reflexivity|apply sample_admissible|vm_compute; reflexivity].
Defined.

Lemma chunked_fragmentation_witness :
  same_result (feed (sample_decoder (snd sample_modes)) [bs "6"; crlf ++ bs "hel"; bs "lo "; crlf])
              (push (sample_decoder (snd sample_modes)) (bs "6" ++ crlf ++ bs "hello " ++ crlf)).
Proof.
  apply (chunked_fragmentation (snd sample_modes) sample_limits (sample_decoder (snd sample_modes))
           [bs "6"; crlf ++ bs "hel"; bs "lo "; crlf]); [vm_compute; discriminate|reflexivity].
Defined.

Lemma chunked_bounds_witness :
  let '(d', out, r) := feed (sample_decoder (snd sample_modes)) [bs "6"; crlf ++ bs "hello " ++ crlf ++ bs "5"] in
  out = bs "hello " /\ r = Some (Ok NeedMore) /\ decoded_bytes d' = 6.
Proof.
  destruct (feed (sample_decoder (snd sample_modes)) [bs "6"; crlf ++ bs "hello " ++ crlf ++ bs "5"])
    as [[d' out] r] eqn:E.
  assert (Hr : r = Some (Ok NeedMore) /\ out = bs "hello ") by (vm_compute in E; injection E as _ <- <-; by split).
  destruct Hr as [-> ->].
  destruct (chunked_bounds (snd sample_modes) sample_limits (sample_decoder (snd sample_modes)) d'
              [bs "6"; crlf ++ bs "hello " ++ crlf ++ bs "5"] (bs "hello ") (Some (Ok NeedMore))) as (_ & _ & Hb);
    [vm_compute; discriminate|reflexivity|exact E|].
  destruct (Hb NeedMore eq_refl) as (Hd & _). split_and!; [reflexivity|reflexivity|exact Hd].
Defined.
