(* ===== verification/ChunkedWire.v ===== *)
(** What the [aws-chunked] decoder accepted, on the wire: the grammar of an
    encoded body, spelled from literals, and the theorem that the bytes pushed
    into a decoder that reports Done are such an encoding of the bytes it
    released, every chunk with its verified signature.  The decoder is
    [Chunked], from [src/src/protocol/chunked.rs]. *)
From S2P Require Import Prelude Text Http Headers AwsSpec Canonical SigV4 SigV4Correct Base64 Chunked.

(** * The grammar *)

Definition CRLF : bytes := [x0d; x0a].

(** A header line for [n] bytes of data, with the signature it carries. *)
Definition header_line (m : AwsChunkedMode) (line : bytes) (n : Z) (signature : option bytes) : Prop :=
  match m with
  | Signed _ => exists size hex s, signature = Some s /\ line = size ++ bs ";chunk-signature=" ++ hex /\
                  hex_number size n /\ digest_spelling hex s
  | UnsignedTrailer _ => signature = None /\ hex_number line n
  end.

(** A trailer line: blanks, and one line feed, around the value are dropped. *)
Definition trailer_text (line name value : bytes) : Prop :=
  exists before feed after,
    line = name ++ bs ":" ++ before ++ value ++ feed ++ after /\ (feed = [] \/ feed = [x0a]) /\
    Forall (fun b => b = x20 \/ b = x09) (before ++ after).

Section Grammar.
Context `{Digests}.

(** In a signed body the signature of a chunk is the HMAC of its string to
    sign, which names the signature before it. *)
Definition signs (m : AwsChunkedMode) (previous : option bytes) (data : bytes) (signature : option bytes) : Prop :=
  match m with
  | Signed context =>
      exists p, previous = Some p /\
        signature = Some (hmac_sha256 (signing_key context)
          (aws_chunk_string sha256 (amz_date context) (credential_scope context) p data))
  | UnsignedTrailer _ => True
  end.

(** The data chunks of a body, with the signature of the last one. *)
Inductive chunks_wire (m : AwsChunkedMode) : bytes -> list bytes -> option bytes -> Prop :=
| cw_start : chunks_wire m [] []
    match m with Signed context => Some (seed_signature context) | UnsignedTrailer _ => None end
| cw_chunk wire chunks previous line data signature :
    chunks_wire m wire chunks previous -> data <> [] ->
    header_line m line (len data) signature -> signs m previous data signature ->
    chunks_wire m (wire ++ line ++ CRLF ++ data ++ CRLF) (chunks ++ [data]) signature.

(** A whole body: data chunks, the empty chunk, trailers and an empty line. *)
Definition body_wire (m : AwsChunkedMode) (wire : bytes) (chunks trailer_lines : list bytes) : Prop :=
  exists front previous line signature,
    chunks_wire m front chunks previous /\ header_line m line 0 signature /\ signs m previous [] signature /\
    wire = front ++ line ++ CRLF ++ concat (map (fun t => t ++ CRLF) trailer_lines) ++ CRLF.

(** [wire] is an encoding of [out], with the declared length; a signed body has
    no trailers, and the trailers of an unsigned one include every declared
    checksum, which is that of [out]. *)
Definition verified_body (m : AwsChunkedMode) (lim : ChunkedLimits) (wire out : bytes) : Prop :=
  (forall e, expected_decoded_length lim = Some e -> len out = e) /\
  exists chunks trailer_lines, body_wire m wire chunks trailer_lines /\ concat chunks = out /\
    match m with
    | Signed _ => trailer_lines = []
    | UnsignedTrailer declared =>
        forall name, name ∈ declared -> exists line value digest,
          line ∈ trailer_lines /\ trailer_text line name value /\
          base64_decode value = Some digest /\ checksum_of name out = Some digest
    end.

(** * The header line *)

Lemma parse_size_spec size n :
  is_empty size || (16 <? len size) || negb (forallb is_ascii_hexdigit size) = false ->
  from_str_radix_16 size = Some n -> hex_number size n.
Proof.
  intros Hg Hr. apply orb_false_elim in Hg as [[He Hl]%orb_false_elim Hx%negb_false_iff].
  apply checked_Some in Hr as [-> _]. destruct (hex_digits_values size Hx) as (vs & F & E).
  split; [|exists vs; by rewrite E]. apply is_empty_false in He. apply Z.ltb_ge in Hl. unfold len in Hl.
  destruct size; [done|]. simpl in *. lia.
Qed.

Lemma chunk_extension_spec acc e s : chunk_extension acc e = Ok s ->
  acc = None /\ exists hex sg, s = Some sg /\ e = bs "chunk-signature=" ++ hex /\ digest_spelling hex sg.
Proof.
  unfold chunk_extension. destruct (split_once x3d e) as [[n v]|] eqn:Es; [|done]. cbn [ok_or].
  destruct (_ || _) eqn:Eo; [done|]. apply orb_false_elim in Eo as [En Ea].
  destruct (decode_signature_hex v) as [sg|] eqn:Ed; [|done]. intros [= <-].
  apply split_once_Some in Es as [-> _]. bool_hyps. subst n. split; [by destruct acc|].
  exists v, sg. split_and!; [done..|]. by apply digest_spelling_spec.
Qed.

Lemma parse_chunk_header_spec line n sig : parse_chunk_header line = Ok (n, sig) ->
  match sig with
  | None => hex_number line n
  | Some s => exists size hex, line = size ++ bs ";chunk-signature=" ++ hex /\ hex_number size n /\ digest_spelling hex s
  end.
Proof.
  unfold parse_chunk_header. intros Hh. pose proof (split_on_join_inv x3b line) as Hj.
  destruct (split_on _ line) as [|size exts]; [done|].
  destruct (is_empty size || (16 <? len size) || _) eqn:Eg; [done|].
  destruct (from_str_radix_16 size) as [k|] eqn:Er; [|done]. cbn [ok_or] in Hh.
  destruct (fold_result chunk_extension None exts) as [sg|] eqn:Ef; [|done]. injection Hh as -> ->. rewrite <- Hj.
  pose proof (parse_size_spec _ _ Eg Er) as Hn. destruct exts as [|e [|e' exts]]; cbn [fold_result] in Ef.
  - by injection Ef as <-.
  - destruct (chunk_extension None e) as [s|] eqn:Ee; [|done]. injection Ef as ->.
    apply chunk_extension_spec in Ee as (_ & hex & sg & -> & -> & Hd). exists size, hex. by split_and!.
  - destruct (chunk_extension None e) as [s|] eqn:Ee; [|done].
    apply chunk_extension_spec in Ee as (_ & hex & sg' & -> & _).
    destruct (chunk_extension _ e') as [s'|] eqn:Ee'; [|done]. by apply chunk_extension_spec in Ee' as [? _].
Qed.

Lemma chunk_string_spec context previous data :
  chunk_string_to_sign context previous data
  = aws_chunk_string sha256 (amz_date context) (credential_scope context) previous data.
Proof. unfold chunk_string_to_sign, aws_chunk_string. by rewrite !hex_text_spec. Qed.

(** A verified signature signs the chunk. *)
Lemma verified_signs data s d : verify_chunk_signature data s d = Ok tt ->
  signs (mode d) (previous_signature d) data (Some s).
Proof.
  intros (context & previous & -> & -> & ->)%verify_chunk_signature_Ok. exists previous.
  by rewrite chunk_string_spec.
Qed.

(** * The bytes consumed so far *)

(** The trailer section read so far. *)
Definition trailer_section (m : AwsChunkedMode) (ts : list DecodedTrailer) (consumed out ending : bytes) : Prop :=
  exists front chunks previous line signature lines,
    chunks_wire m front chunks previous /\ concat chunks = out /\
    header_line m line 0 signature /\ signs m previous [] signature /\
    Forall2 (fun l t => trailer_text l (trailer_name t) (trailer_value t)) lines ts /\
    consumed = front ++ line ++ CRLF ++ concat (map (fun t => t ++ CRLF) lines) ++ ending.

(** The part of an encoding a decoder has read, from its phase. *)
Definition wire_inv (d : Decoder) (consumed out : bytes) : Prop :=
  match phase d with
  | PHeader => trailers d = [] /\
      exists chunks, chunks_wire (mode d) consumed chunks (previous_signature d) /\ concat chunks = out
  | PData | PDataCrlf => trailers d = [] /\
      exists front chunks c line, chunks_wire (mode d) front chunks (previous_signature d) /\ concat chunks = out /\
        current d = Some c /\ header_line (mode d) line (chunk_size c) (chunk_signature c) /\
        consumed = front ++ line ++ CRLF ++ chunk_data c
  | PTrailers => trailer_section (mode d) (trailers d) consumed out []
  | PDone => trailer_section (mode d) (trailers d) consumed out CRLF
  end.

Definition tracked (d : Decoder) (pushed out : bytes) : Prop :=
  exists consumed, pushed = consumed ++ available d /\ wire_inv d consumed out.

Lemma chunks_wire_unsigned m wire chunks signature : chunks_wire m wire chunks signature ->
  match m with Signed _ => True | UnsignedTrailer _ => signature = None end.
Proof. destruct 1 as [|wire chunks previous line data signature _ _ Hl _]; destruct m; try done. by destruct Hl. Qed.

Lemma header_phase_tracked d pushed out d' : phase d = PHeader -> tracked d pushed out ->
  header_phase d = (d', Continue) -> tracked d' pushed out.
Proof.
  intros Hp (consumed & -> & Hw) Hh. unfold wire_inv in Hw. rewrite Hp in Hw. destruct Hw as (Ht & chunks & Hc & Hout).
  unfold header_phase in Hh. destruct (take_line _ _ d) as [d1 r] eqn:Et. apply take_line_cases in Et.
  destruct r as [[line|]|e]; [|done..]. destruct Et as (rest & Ha & Ha' & Hd1 & _ & _).
  assert (Hm : mode d1 = mode d /\ previous_signature d1 = previous_signature d /\ trailers d1 = trailers d)
    by (by rewrite Hd1). destruct Hm as (Em & Ep & Etr). clear Hd1.
  unfold open_chunk in Hh. destruct (parse_chunk_header line) as [[size sig]|] eqn:Eh; [|done].
  apply parse_chunk_header_spec in Eh. destruct (_ <? size); [done|].
  destruct (checked_add_u64 _ _); [|done]. destruct (exceeds_length _ _); [done|].
  assert (Hl : match mode d1, sig with Signed _, None | UnsignedTrailer _, Some _ => False | _, _ => True end ->
    header_line (mode d) line size sig).
  { rewrite Em. destruct (mode d), sig as [s|]; try done. intros _. destruct Eh as (sz & hex & ? & ? & ?).
    by exists sz, hex, s. }
  assert (Hsplit : consumed ++ available d = (consumed ++ line ++ CRLF) ++ rest)
    by (rewrite Ha, <- !app_assoc; done).
  assert (Hopen : match mode d1, sig with Signed _, None | UnsignedTrailer _, Some _ => False | _, _ => True end ->
    tracked (set_phase PData (set_current (Some {| chunk_size := size; chunk_data := [];
      chunk_signature := sig |}) d1)) (consumed ++ available d) out).
  { intros Hok. exists (consumed ++ line ++ CRLF). split; [by rewrite Hsplit, <- Ha'|]. split; [simpl; congruence|].
    exists consumed, chunks, {| chunk_size := size; chunk_data := []; chunk_signature := sig |}, line.
    simpl. rewrite Em, Ep. split_and!; eauto. }
  assert (Hfinal : forall d2, phase d2 = PTrailers -> available d2 = rest -> trailers d2 = [] -> mode d2 = mode d ->
    header_line (mode d) line 0 sig -> signs (mode d) (previous_signature d) [] sig ->
    tracked d2 (consumed ++ available d) out).
  { intros d2 E1 E2 E3 E4 Hl0 Hs. exists (consumed ++ line ++ CRLF). split; [by rewrite Hsplit, E2|].
    unfold wire_inv. rewrite E1, E4, E3. exists consumed, chunks, (previous_signature d), line, sig, [].
    split_and!; try done; by rewrite !app_nil_r. }
  destruct (mode d1) as [context|decl] eqn:Em1, sig as [s|]; try done.
  - destruct (Z.eqb_spec size 0) as [-> |]; [|simplify_eq; by apply Hopen].
    destruct (verify_chunk_signature [] s d1) as [[]|] eqn:Ev; [|done]. simplify_eq.
    apply verified_signs in Ev. apply Hfinal; simpl; try done; [congruence..|by apply Hl|]. by rewrite Em1, Em, Ep in Ev.
  - destruct (Z.eqb_spec size 0) as [-> |]; [|simplify_eq; by apply Hopen]. simplify_eq.
    apply Hfinal; simpl; try done; [congruence..|by apply Hl|]. by rewrite <- Em.
Qed.

Lemma data_phase_tracked d pushed out d' : phase d = PData -> tracked d pushed out ->
  data_phase d = (d', Continue) -> tracked d' pushed out.
Proof.
  intros Hp (consumed & -> & Hw) Hh. unfold wire_inv in Hw. rewrite Hp in Hw.
  destruct Hw as (Ht & front & chunks & c & line & Hc & Hout & Hcur & Hl & ->).
  unfold data_phase in Hh. rewrite Hcur in Hh. destruct (is_empty (available d)); [done|].
  set (count := Z.to_nat _) in Hh.
  assert (Hgo : forall ph, ph = PData \/ ph = PDataCrlf ->
    tracked (set_phase ph (advance count (set_current (Some {| chunk_size := chunk_size c;
      chunk_data := chunk_data c ++ take count (available d); chunk_signature := chunk_signature c |}) d)))
      ((front ++ line ++ CRLF ++ chunk_data c) ++ available d) out).
  { intros ph Hph. exists (front ++ line ++ CRLF ++ chunk_data c ++ take count (available d)). split.
    - change (available (set_phase ph ?x)) with (available x). rewrite available_advance.
      change (available (set_current ?x d)) with (available d). rewrite <- !app_assoc. by rewrite take_drop.
    - unfold wire_inv. cbn [phase set_phase]. destruct Hph as [-> | ->]; (split; [done|]);
        exists front, chunks; eexists _, line; simpl; split_and!; eauto. }
  destruct (_ =? _); injection Hh as <-; [apply Hgo; by right|].
  specialize (Hgo PData (or_introl eq_refl)). revert Hgo. unfold tracked, wire_inv. simpl. by rewrite Hp.
Qed.

Lemma crlf_phase_tracked d pushed out d' o : phase d = PDataCrlf -> decoder_inv d out -> tracked d pushed out ->
  crlf_phase d = (d', o, Continue) -> tracked d' pushed (out ++ o).
Proof.
  intros Hp Hi (consumed & -> & Hw) Hh. unfold wire_inv in Hw. rewrite Hp in Hw.
  destruct Hw as (Ht & front & chunks & c & line & Hc & Hout & Hcur & Hl & ->).
  destruct Hi as [_ _ _ _ _ Hph _]. rewrite Hp in Hph. destruct Hph as (c' & (Hcur' & Hs & _ & Hsig) & Hlen).
  rewrite Hcur in Hcur'. injection Hcur' as <-.
  unfold crlf_phase in Hh. destruct (available d) as [|a [|b rest]] eqn:Ea; [done..|].
  destruct ([a; b] ==b crlf) eqn:Ecr; [|done]. cbn [negb] in Hh. apply bool_decide_eq_true in Ecr. injection Ecr as -> ->.
  change (current (advance 2 d)) with (current d) in Hh. rewrite Hcur in Hh.
  set (d0 := set_current None (advance 2 d)) in *.
  assert (Hrest : available d0 = rest) by (change (available d0) with (available (advance 2 d));
    rewrite available_advance, Ea; done).
  assert (Hdone : forall d1 sig,
    header_line (mode d) line (chunk_size c) sig -> signs (mode d) (previous_signature d) (chunk_data c) sig ->
    mode d1 = mode d -> available d1 = rest -> trailers d1 = [] -> previous_signature d1 = sig ->
    forall d2 u, accept_decoded (chunk_data c) d1 = (d2, o, Ok u) ->
    tracked (set_phase PHeader d2) ((front ++ line ++ CRLF ++ chunk_data c) ++ CR :: LF :: rest) (out ++ o)).
  { intros d1 sig Hline Hsn E1 E2 E3 E4 d2 u Hacc. unfold accept_decoded in Hacc.
    destruct (checked_add_u64 _ _); [|done]. destruct (exceeds_length _ _); [done|]. injection Hacc as <- <-.
    exists (front ++ line ++ CRLF ++ chunk_data c ++ CRLF). split.
    - change (available (set_phase PHeader ?x)) with (available d1). rewrite E2, <- !app_assoc. done.
    - unfold wire_inv. cbn. split; [done|]. exists (chunks ++ [chunk_data c]). rewrite E1, E4. split.
      + eapply cw_chunk; [done| |by rewrite Hlen|done]. intros E. rewrite E in Hlen. unfold len in Hlen. simpl in Hlen. lia.
      + rewrite concat_app, Hout. simpl. by rewrite app_nil_r. }
  destruct (chunk_signature c) as [s|] eqn:Esig.
  - destruct (verify_chunk_signature (chunk_data c) s d0) as [[]|] eqn:Ev; [|done]. apply verified_signs in Ev.
    destruct (accept_decoded _ _) as [[d1 o1] [u|]] eqn:Eacc; [|done]. injection Hh as <- <-.
    by apply (Hdone (set_previous (Some s) d0) (Some s) Hl Ev eq_refl Hrest Ht eq_refl _ u).
  - destruct (accept_decoded _ _) as [[d1 o1] [u|]] eqn:Eacc; [|done]. injection Hh as <- <-.
    pose proof (chunks_wire_unsigned _ _ _ _ Hc) as Hnone.
    apply (Hdone d0 None Hl) with (u := u); try done; [destruct (mode d); [done|done]|].
    change (previous_signature d0) with (previous_signature d). destruct (mode d); [by destruct Hl as (? & ? & ? & ? & _)|done].
Qed.

Lemma strip_one_lf_spec v : exists feed, v = strip_one_lf v ++ feed /\ (feed = [] \/ feed = [x0a]).
Proof.
  unfold strip_one_lf. destruct (reverse v) as [|b r] eqn:E; [exists []; rewrite app_nil_r; auto|].
  case_bool_decide as Eb; [|exists []; rewrite app_nil_r; auto]. subst b. exists [x0a]. split; [|auto].
  rewrite <- (reverse_involutive v), E, reverse_cons. done.
Qed.

Lemma accepted_trailer_text line d d' : accept_trailer line d = (d', Ok tt) ->
  exists name value, trailer_text line name value /\
    d' = set_trailers (trailers d ++ [{| trailer_name := name; trailer_value := value |}]) (trailer_bytes d) d /\
    match mode d with Signed _ => False | UnsignedTrailer _ => True end.
Proof.
  unfold accept_trailer. intros Ha. destruct (mode d) as [|declared]; [done|].
  destruct (_ <=? _); [done|]. destruct (match line with [] => _ | _ => _ end); [done|].
  destruct (split_once x3a line) as [[name rest]|] eqn:Es; [|done]. destruct (_ || _); [done|].
  destruct (_ || _); [done|]. destruct (existsb _ _); [done|]. destruct (negb _); [done|]. injection Ha as <-.
  eexists _, _. split_and!; [|done..]. apply split_once_Some in Es as [-> _].
  destruct (trim_by_sublist is_ows rest) as (a & b & Er & Fa & Fb). fold (trim_ows rest) in Er.
  destruct (strip_one_lf_spec (trim_ows rest)) as (feed & Ev & Hf). exists a, feed, b. split_and!; [|done|].
  - rewrite Er at 1. rewrite Ev at 1. by rewrite <- !app_assoc.
  - assert (Hb : forall y, is_ows y = true -> y = x20 \/ y = x09)
      by (intros y; unfold is_ows; rewrite orb_true_iff, !bool_decide_eq_true; done).
    apply Forall_app. split; eapply Forall_impl; eauto.
Qed.

Lemma trailers_phase_tracked d pushed out d' c : phase d = PTrailers -> tracked d pushed out ->
  trailers_phase d = (d', c) -> c = Continue \/ c = Return (Ok Done) -> tracked d' pushed out.
Proof.
  intros Hp (consumed & -> & Hw) Hh Hc. unfold wire_inv in Hw. rewrite Hp in Hw.
  destruct Hw as (front & chunks & previous & hl & sig & lines & Hcw & Hout & Hhl & Hs & Hf & ->).
  unfold trailers_phase in Hh. destruct (take_line _ _ d) as [d1 r] eqn:Et. apply take_line_cases in Et.
  destruct r as [[line|]|e]; [|simplify_eq; by destruct Hc..]. destruct Et as (rest & Ha & Ha' & Hd1 & _ & _).
  assert (Hm : mode d1 = mode d /\ trailers d1 = trailers d /\ phase d1 = phase d) by (by rewrite Hd1).
  destruct Hm as (Em & Etr & Eph). clear Hd1. unfold trailer_line in Hh.
  destruct (checked_add_u64 _ _) as [n|]; [|simplify_eq; by destruct Hc].
  destruct (_ <? n); [simplify_eq; by destruct Hc|]. destruct (is_empty line) eqn:El.
  - apply is_empty_true in El as ->. destruct (finish_trailers _); [|simplify_eq; by destruct Hc].
    destruct (negb _); simplify_eq; [by destruct Hc|].
    exists (front ++ hl ++ CRLF ++ concat (map (fun t => t ++ CRLF) lines) ++ CRLF). split.
    + change (available (set_phase PDone ?x)) with (available d1). rewrite Ha, app_nil_r, <- !app_assoc. done.
    + unfold wire_inv. cbn. rewrite Em, Etr. by exists front, chunks, previous, hl, sig, lines.
  - destruct (accept_trailer _ _) as [d2 [[]|]] eqn:Eacc; simplify_eq; [|by destruct Hc].
    apply accepted_trailer_text in Eacc as (name & value & Ht & -> & _).
    exists (front ++ hl ++ CRLF ++ concat (map (fun t => t ++ CRLF) (lines ++ [line]))). split.
    + change (available (set_trailers _ _ ?x)) with (available d1). rewrite Ha, map_app, concat_app. cbn [map concat].
      rewrite !app_nil_r, <- !app_assoc. done.
    + unfold wire_inv. cbn. rewrite Eph, Hp. exists front, chunks, previous, hl, sig, (lines ++ [line]).
      rewrite Em, Etr. split_and!; try done; [|by rewrite app_nil_r].
      apply Forall2_app; [done|]. by repeat constructor.
Qed.

Lemma returns_not_done d :
  (forall d', header_phase d <> (d', Return (Ok Done))) /\ (forall d', data_phase d <> (d', Return (Ok Done))) /\
  (forall d' o, crlf_phase d <> (d', o, Return (Ok Done))).
Proof.
  split_and!; intros d'; [..|intros o]; intros E;
    [unfold header_phase, open_chunk in E|unfold data_phase in E|unfold crlf_phase in E];
    repeat destr_match_in E; by simplify_eq.
Qed.

Lemma step_tracked d pushed out d' o c : phase d <> PDone -> decoder_inv d out -> tracked d pushed out ->
  step d = (d', o, c) -> match c with Return (Err _) => False | _ => True end -> tracked d' pushed (out ++ o).
Proof.
  intros Hp Hi Ht Hs Hc. destruct (returns_not_done d) as (N1 & N2 & N3).
  destruct c as [|[[]|]]; [| | |done].
  - unfold step in Hs. destruct (phase d) eqn:E; [| | | |done].
    + destruct (header_phase d) eqn:Eh. simplify_eq. rewrite app_nil_r. by eapply header_phase_tracked.
    + destruct (data_phase d) eqn:Eh. simplify_eq. rewrite app_nil_r. by eapply data_phase_tracked.
    + by eapply crlf_phase_tracked.
    + destruct (trailers_phase d) eqn:Eh. simplify_eq. rewrite app_nil_r. eapply trailers_phase_tracked; eauto.
  - pose proof (step_inv _ _ _ _ _ Hp Hi Hs) as [-> ->]. by rewrite app_nil_r.
  - unfold step in Hs. destruct (phase d) eqn:E; [| | | |done].
    + destruct (header_phase d) eqn:Eh. simplify_eq. by destruct (N1 d').
    + destruct (data_phase d) eqn:Eh. simplify_eq. by destruct (N2 d').
    + by destruct (N3 d' o).
    + destruct (trailers_phase d) eqn:Eh. simplify_eq. rewrite app_nil_r. eapply trailers_phase_tracked; eauto.
Qed.

Lemma runs_tracked d d' o r : runs d d' o r -> forall out pushed,
  phase d <> PDone -> decoder_inv d out -> tracked d pushed out ->
  match r with Ok _ => tracked d' pushed (out ++ o) | Err _ => True end.
Proof.
  induction 1 as [d d' o r Es|d d1 d' o o' r Es Hr IH]; intros out pushed Hp Hi Ht.
  - destruct r; [|done]. by eapply step_tracked.
  - pose proof (step_inv _ _ _ _ _ Hp Hi Es) as (Hi1 & _ & Hp1).
    pose proof (step_tracked _ _ _ _ _ _ Hp Hi Ht Es I) as Ht1.
    specialize (IH _ _ Hp1 Hi1 Ht1). by rewrite <- app_assoc in IH.
Qed.

Lemma tracked_extend d pushed out b : (offset d <= length (input d))%nat ->
  tracked d pushed out -> tracked (extend b (compact d)) (pushed ++ b) out.
Proof.
  intros Ho (consumed & -> & Hw). destruct (compact_buffer d Ho) as (i & k & -> & Hk & Ha).
  exists consumed. split; [|exact Hw]. rewrite available_extend by done.
  change (available (set_buffer i k d)) with (drop k i). by rewrite Ha, app_assoc.
Qed.

(** Pushing pieces into a waiting decoder. *)
Lemma feed_tracked m lim pieces : forall d out pushed d' o st,
  waiting m lim d out -> tracked d pushed out -> feed d pieces = (d', o, Some (Ok st)) ->
  tracked d' (pushed ++ concat pieces) (out ++ o) /\ (st = Done -> available d' = []).
Proof.
  induction pieces as [|p ps IH]; intros d out pushed d' o st Hw Ht Hf; cbn [feed concat] in *.
  { simplify_eq. rewrite !app_nil_r. split; [done|]. destruct Hw as (_ & Hp & _). by destruct (phase d'). }
  pose proof Hw as (Hi & Hp & _). destruct (push d p) as [[d1 o1] r1] eqn:Ep.
  destruct (push_waiting _ _ _ _ _ _ _ _ Hw Ep) as (s & -> & Hs).
  destruct (push_runs d out p Hp Hi) as (d1' & o1' & s' & E & Hr & _). rewrite Ep in E. simplify_eq.
  assert (Hi' : decoder_inv (extend p (compact d)) out) by (by apply inv_extend, inv_compact).
  assert (Hp' : phase (extend p (compact d)) <> PDone)
    by (change (phase (extend p (compact d))) with (phase (compact d)); by rewrite phase_compact).
  pose proof (runs_tracked _ _ _ _ Hr _ _ Hp' Hi' (tracked_extend d pushed out p (inv_offset _ _ Hi) Ht)) as Ht1.
  pose proof (runs_inv _ _ _ _ Hr out Hp' Hi') as Hout.
  destruct s' as [[]|]; [| |simplify_eq; by destruct f].
  - destruct (feed d1' ps) as [[d2 o2] r2] eqn:Ef. simplify_eq. rewrite !app_assoc. by eapply IH.
  - destruct Hout as (_ & Hph & _ & Hav). rewrite feed_done in Hf by done.
    destruct (is_empty (concat ps)) eqn:Ee; simplify_eq. apply is_empty_true in Ee. by rewrite Ee, !app_nil_r.
Qed.

Lemma new_tracked m lim d : Decoder_new m lim = Ok d -> tracked d [] [].
Proof.
  intros Hn. unfold Decoder_new in Hn.
  destruct (match m with Signed _ => _ | UnsignedTrailer _ => _ end) as [previous|] eqn:Ep; [|done].
  injection Hn as <-. exists []. split; [done|]. unfold wire_inv. cbn. split; [done|]. exists []. split; [|done].
  assert (previous = match m with Signed context => Some (seed_signature context) | UnsignedTrailer _ => None end) as ->.
  { destruct m; [by simplify_eq|]. by destruct (validate_declarations _); simplify_eq. }
  apply cw_start.
Qed.

(** The bytes pushed into a decoder that is done are a verified body. *)
Lemma feed_verified m lim d d' pieces out :
  0 <= max_chunk_header_bytes lim -> Decoder_new m lim = Ok d -> feed d pieces = (d', out, Some (Ok Done)) ->
  verified_body m lim (concat pieces) out.
Proof.
  intros Hl Hn Hf. pose proof (new_waiting _ _ _ Hl Hn) as Hw.
  destruct (feed_inv m lim pieces d [] d' out _ Hw Hf) as (s & [= <-] & _ & Hok).
  destruct (Hok Done eq_refl) as (_ & El & Em & Hph & Hv). destruct (Hv eq_refl) as [Hlen Htr].
  destruct (feed_tracked m lim pieces d [] [] d' out Done Hw (new_tracked _ _ _ Hn) Hf) as [(consumed & E & Hwi) Hav].
  rewrite (Hav eq_refl), app_nil_r in E. cbn [app] in *. subst consumed.
  unfold wire_inv in Hwi. rewrite (proj1 Hph eq_refl), Em in Hwi. rewrite El in Hlen. rewrite Em in Htr.
  destruct Hwi as (front & chunks & previous & hl & sig & lines & Hcw & Hout & Hhl & Hs & Hf2 & Hwire).
  split; [done|]. exists chunks, lines. split_and!; [by exists front, previous, hl, sig|done|].
  destruct m as [context|declared].
  - rewrite Htr in Hf2. by inversion Hf2.
  - intros name Hname. destruct (Htr name Hname) as (t & digest & Ht & <- & Hc & Hb).
    apply list_elem_of_lookup in Ht as [i Hi]. destruct (Forall2_lookup_r _ _ _ _ _ Hf2 Hi) as (l & Hli & Htt).
    exists l, (trailer_value t), digest. split_and!; try done. by eapply list_elem_of_lookup_2.
Qed.
End Grammar.

(** C10: The bytes pushed into a decoder, in any pieces, until it reports Done
    are a verified aws-chunked encoding of the bytes it released: data chunks,
    each a header line with its size in hexadecimal, its data and their line
    ends, then the empty chunk, the trailers and an empty line, the data adding
    up to the output and to the declared length.  In a signed body every header
    line carries, from the seed signature on, the HMAC under the signing key of
    the chunk's string to sign with the signature before it, up to that of the
    empty chunk, and there are no trailers; in an unsigned one every declared
    checksum is among the trailers and is that of the output. *)
Theorem chunked_done_verified `{Digests} (m : AwsChunkedMode) (lim : ChunkedLimits) (d d' : Decoder)
  (pieces : list bytes) (out : bytes) :
  0 <= max_chunk_header_bytes lim -> Decoder_new m lim = Ok d ->
  feed d pieces = (d', out, Some (Ok Done)) ->
  verified_body m lim (concat pieces) out.
Proof. apply feed_verified. Qed.

#[local] Existing Instance sample_digests.

Lemma chunked_done_verified_witness :
  exists d', feed (sample_decoder (fst sample_modes)) [encode_body (fst sample_modes) sample_chunks]
      = (d', bs "hello world", Some (Ok Done)) /\
    verified_body (fst sample_modes) sample_limits
      (concat [encode_body (fst sample_modes) sample_chunks]) (bs "hello world").
Proof.
  destruct (feed (sample_decoder (fst sample_modes)) [encode_body (fst sample_modes) sample_chunks])
    as [[d' out] r] eqn:E.
  assert (Hr : r = Some (Ok Done) /\ out = bs "hello world") by (vm_compute in E; injection E as _ <- <-; by split).
  destruct Hr as [-> ->]. exists d'. split; [reflexivity|].
  apply (chunked_done_verified (fst sample_modes) sample_limits (sample_decoder (fst sample_modes)) d'
           [encode_body (fst sample_modes) sample_chunks] (bs "hello world"));
    [vm_compute; discriminate|reflexivity|exact E].
Defined.
