(* ===== verification/Framing.v ===== *)
(** HTTP/1.1 message-body framing, from [src/src/workers/http.rs]: the bounded
    Transfer-Encoding decoder [HttpChunkedDecoder], Content-Length framing and
    [BodyFraming].  The decoder copies chunk data in bulk; it is shown equal to
    a decoder that reads one byte at a time, from which follow independence of
    fragmentation, exact consumption up to a pipelined suffix, the round trip
    of encoded bodies and the bounds on what is accepted.  A call that fails
    leaves no usable state: the exchange discards the decoder. *)
From stdpp Require Import sets.
From S2P Require Import Prelude Text Http.

(** * Data *)

Definition MAX_HTTP_BODY_BYTES : Z := 5 * 1024 * 1024 * 1024.
Definition MAX_HTTP_WIRE_BYTES : Z := MAX_HTTP_BODY_BYTES + 256 * 1024 * 1024.
Definition MAX_CHUNK_LINE_BYTES : Z := 8 * 1024.
Definition MAX_TRAILER_LINE_BYTES : Z := 16 * 1024.
Definition MAX_TRAILER_BYTES : Z := 64 * 1024.
Definition MAX_TRAILERS : Z := 100.

Inductive FramingError := EntityTooLarge | InvalidChunk | InvalidTrailer | TooMuchFraming.

Record DecodeProgress := { consumed : nat; complete : bool }.

Inductive ChunkState :=
| SizeLine (line : bytes)
| Data (remaining : Z)
| DataCrLf (seen : Z)
| TrailerLine (line : bytes)
| Complete.

Record HttpChunkedDecoder := {
  cstate : ChunkState;
  wire_bytes : Z;
  decoded_bytes : Z;
  trailer_bytes : Z;
  trailers : Z
}.

Definition HttpChunkedDecoder_new : HttpChunkedDecoder :=
  {| cstate := SizeLine []; wire_bytes := 0; decoded_bytes := 0; trailer_bytes := 0; trailers := 0 |}.

Definition is_complete (d : HttpChunkedDecoder) : bool :=
  match cstate d with Complete => true | _ => false end.

(** * Lines *)

(** [charge_wire]: the new counter. *)
Definition charge_wire (wire count : Z) : result FramingError Z :=
  let* n := ok_or (checked_add_u64 wire count) TooMuchFraming in
  if MAX_HTTP_WIRE_BYTES <? n then Err TooMuchFraming else Ok n.

Definition trim_left_ows (b : bytes) : bytes := drop_while is_ows b.

(** A byte after a backslash in a quoted string. *)
Definition quoted_pair_byte (b : byte) : bool :=
  (b ==b x09) || in_range 32 126 (bval b) || (128 <=? bval b).

(** [b'\t' | 0x20..=0x21 | 0x23..=0x5b | 0x5d..=0x7e | 0x80..=0xff] *)
Definition quoted_text_byte (b : byte) : bool :=
  (b ==b x09) || in_range 32 33 (bval b) || in_range 35 91 (bval b) || in_range 93 126 (bval b)
  || in_range 128 255 (bval b).

(** The loop over a quoted string after its opening quote: what follows the
    closing quote. *)
Fixpoint quoted_string (b : bytes) : result FramingError bytes :=
  match b with
  | [] => Err InvalidChunk
  | c :: rest =>
      if c ==b x22 then Ok rest
      else if c ==b x5c then
        match rest with
        | e :: rest' => if quoted_pair_byte e then quoted_string rest' else Err InvalidChunk
        | [] => Err InvalidChunk
        end
      else if quoted_text_byte c then quoted_string rest
      else Err InvalidChunk
  end.

(** The optional value of an extension: what follows it. *)
Definition extension_value (b : bytes) : result FramingError bytes :=
  match b with
  | c :: rest =>
      if c ==b x3d then
        let b := trim_left_ows rest in
        match b with
        | q :: inner =>
            if q ==b x22 then
              let* after := quoted_string inner in Ok (trim_left_ows after)
            else
              let value_len := length (take_while is_tchar b) in
              if (value_len =? 0)%nat then Err InvalidChunk
              else Ok (trim_left_ows (drop value_len b))
        | [] => Err InvalidChunk
        end
      else Ok b
  | [] => Ok b
  end.

(** [validate_chunk_extensions]; a round consumes at least two bytes. *)
Fixpoint validate_chunk_extensions (fuel : nat) (b : bytes) : result FramingError unit :=
  match fuel with
  | O => if is_empty b then Ok tt else Err InvalidChunk
  | S fuel' =>
      match b with
      | [] => Ok tt
      | c :: rest =>
          if negb (c ==b x3b) then Err InvalidChunk
          else
            let b := trim_left_ows rest in
            let name_len := length (take_while is_tchar b) in
            if (name_len =? 0)%nat then Err InvalidChunk
            else
              let* b := extension_value (trim_left_ows (drop name_len b)) in
              match b with
              | c :: _ => if negb (c ==b x3b) then Err InvalidChunk
                          else validate_chunk_extensions fuel' b
              | [] => validate_chunk_extensions fuel' b
              end
      end
  end.

Definition size_digit (size : Z) (b : byte) : result FramingError Z :=
  match hex_digit b with
  | None => Err InvalidChunk
  | Some digit =>
      ok_or (match checked_mul_u64 size 16 with
             | Some v => checked_add_u64 v digit
             | None => None
             end) EntityTooLarge
  end.

Definition parse_chunk_size_line (line : bytes) : result FramingError Z :=
  let extension := position (fun b => b ==b x3b) line in
  let size_bytes := take (match extension with Some i => i | None => length line end) line in
  if is_empty size_bytes || (16 <? len size_bytes) then Err InvalidChunk
  else
    let* size := fold_result size_digit 0 size_bytes in
    match extension with
    | Some start =>
        let* _ := validate_chunk_extensions (length line) (drop start line) in Ok size
    | None => Ok size
    end.

Definition validate_trailer_line (line : bytes) : result FramingError unit :=
  if match line with b :: _ => is_ows b | [] => false end then Err InvalidTrailer
  else
    match split_once x3a line with
    | None => Err InvalidTrailer
    | Some (name, value) =>
        if is_empty name || negb (forallb is_tchar name) then Err InvalidTrailer
        else if negb (forallb valid_field_byte value) then Err InvalidTrailer
        else Ok tt
    end.

(** * The decoder *)

Definition set_state (s : ChunkState) (d : HttpChunkedDecoder) : HttpChunkedDecoder :=
  {| cstate := s; wire_bytes := wire_bytes d; decoded_bytes := decoded_bytes d;
     trailer_bytes := trailer_bytes d; trailers := trailers d |}.

Definition set_wire (n : Z) (d : HttpChunkedDecoder) : HttpChunkedDecoder :=
  {| cstate := cstate d; wire_bytes := n; decoded_bytes := decoded_bytes d;
     trailer_bytes := trailer_bytes d; trailers := trailers d |}.

(** [line.pop()] compared with CR: the line without it. *)
Definition pop_cr (line : bytes) : option bytes :=
  match reverse line with
  | b :: rest => if b ==b CR then Some (reverse rest) else None
  | [] => None
  end.

(** A byte of a size line, already charged to the wire. *)
Definition size_line_byte (line : bytes) (b : byte) (d : HttpChunkedDecoder)
  : result FramingError HttpChunkedDecoder :=
  if b ==b LF then
    match pop_cr line with
    | None => Err InvalidChunk
    | Some line =>
        let* size := parse_chunk_size_line line in
        let* total := ok_or (checked_add_u64 (decoded_bytes d) size) EntityTooLarge in
        if MAX_HTTP_BODY_BYTES <? total then Err EntityTooLarge
        else Ok (set_state (if size =? 0 then TrailerLine [] else Data size) d)
    end
  else if bool_decide (last line = Some CR) || (MAX_CHUNK_LINE_BYTES <=? len line)
  then Err InvalidChunk
  else Ok (set_state (SizeLine (line ++ [b])) d).

(** A byte of a trailer line. *)
Definition trailer_line_byte (line : bytes) (b : byte) (d : HttpChunkedDecoder)
  : result FramingError HttpChunkedDecoder :=
  let* n := ok_or (checked_add_u64 (trailer_bytes d) 1) TooMuchFraming in
  if MAX_TRAILER_BYTES <? n then Err TooMuchFraming
  else
    let d := {| cstate := cstate d; wire_bytes := wire_bytes d; decoded_bytes := decoded_bytes d;
                trailer_bytes := n; trailers := trailers d |} in
    if b ==b LF then
      match pop_cr line with
      | None => Err InvalidTrailer
      | Some [] => Ok (set_state Complete d)
      | Some line =>
          let* _ := validate_trailer_line line in
          let count := trailers d + 1 in
          if MAX_TRAILERS <? count then Err TooMuchFraming
          else Ok {| cstate := TrailerLine []; wire_bytes := wire_bytes d;
                     decoded_bytes := decoded_bytes d; trailer_bytes := trailer_bytes d;
                     trailers := count |}
      end
    else if bool_decide (last line = Some CR) || (MAX_TRAILER_LINE_BYTES <=? len line)
    then Err InvalidTrailer
    else Ok (set_state (TrailerLine (line ++ [b])) d).

(** A byte of the CRLF after chunk data. *)
Definition crlf_byte (seen : Z) (b : byte) (d : HttpChunkedDecoder)
  : result FramingError HttpChunkedDecoder :=
  if negb (b ==b (if seen =? 0 then CR else LF)) then Err InvalidChunk
  else Ok (set_state (if seen + 1 =? 2 then SizeLine [] else DataCrLf (seen + 1)) d).

(** [count] bytes of chunk data. *)
Definition take_data (remaining count : Z) (d : HttpChunkedDecoder) : HttpChunkedDecoder :=
  {| cstate := if remaining - count =? 0 then DataCrLf 0 else Data (remaining - count);
     wire_bytes := wire_bytes d; decoded_bytes := decoded_bytes d + count;
     trailer_bytes := trailer_bytes d; trailers := trailers d |}.

(** The [while offset < input.len() && !self.is_complete()] loop over the
    remaining input: the state, the bytes consumed and the decoded bytes, or
    [None] when the fuel runs out. *)
Fixpoint push_loop (fuel : nat) (d : HttpChunkedDecoder) (input : bytes)
  : option (result FramingError (HttpChunkedDecoder * nat * bytes)) :=
  match fuel with
  | O => None
  | S fuel' =>
      match input with
      | [] => Some (Ok (d, 0%nat, []))
      | b :: rest =>
          let one (r : result FramingError HttpChunkedDecoder) :=
            match r with
            | Err e => Some (Err e)
            | Ok d' =>
                match push_loop fuel' d' rest with
                | Some (Ok (d'', n, out)) => Some (Ok (d'', S n, out))
                | other => other
                end
            end in
          match cstate d with
          | Complete => Some (Ok (d, 0%nat, []))
          | SizeLine line =>
              one (let* w := charge_wire (wire_bytes d) 1 in size_line_byte line b (set_wire w d))
          | TrailerLine line =>
              one (let* w := charge_wire (wire_bytes d) 1 in trailer_line_byte line b (set_wire w d))
          | DataCrLf seen =>
              one (let* w := charge_wire (wire_bytes d) 1 in crlf_byte seen b (set_wire w d))
          | Data remaining =>
              let count := Z.min remaining (len input) in
              match charge_wire (wire_bytes d) count with
              | Err e => Some (Err e)
              | Ok w =>
                  let k := Z.to_nat count in
                  match push_loop fuel' (take_data remaining count (set_wire w d)) (drop k input) with
                  | Some (Ok (d'', n, out)) => Some (Ok (d'', (k + n)%nat, take k input ++ out))
                  | other => other
                  end
              end
          end
      end
  end.

(** [HttpChunkedDecoder::push] *)
Definition HttpChunkedDecoder_push (d : HttpChunkedDecoder) (input : bytes)
  : option (result FramingError (HttpChunkedDecoder * DecodeProgress * bytes)) :=
  match push_loop (S (length input)) d input with
  | Some (Ok (d', n, out)) => Some (Ok (d', {| consumed := n; complete := is_complete d' |}, out))
  | Some (Err e) => Some (Err e)
  | None => None
  end.

(** * Body framing *)

Inductive BodyFraming :=
| NoBody
| ContentLength (remaining : Z)
| Chunked (decoder : HttpChunkedDecoder).

Definition BodyFraming_from_head (head : RequestHead) : result FramingError BodyFraming :=
  if transfer_chunked head then Ok (Chunked HttpChunkedDecoder_new)
  else match content_length head with
       | Some length => if MAX_HTTP_BODY_BYTES <? length then Err EntityTooLarge
                        else Ok (ContentLength length)
       | None => Ok NoBody
       end.

Definition BodyFraming_push (f : BodyFraming) (input : bytes)
  : option (result FramingError (BodyFraming * DecodeProgress * bytes)) :=
  match f with
  | NoBody => Some (Ok (f, {| consumed := 0; complete := true |}, []))
  | ContentLength remaining =>
      let count := Z.min remaining (len input) in
      Some (Ok (ContentLength (remaining - count),
                {| consumed := Z.to_nat count; complete := remaining - count =? 0 |},
                take (Z.to_nat count) input))
  | Chunked decoder =>
      match HttpChunkedDecoder_push decoder input with
      | Some (Ok (decoder, progress, decoded)) => Some (Ok (Chunked decoder, progress, decoded))
      | Some (Err e) => Some (Err e)
      | None => None
      end
  end.

Definition BodyFraming_is_complete (f : BodyFraming) : bool :=
  match f with
  | NoBody => true
  | ContentLength remaining => remaining =? 0
  | Chunked decoder => is_complete decoder
  end.

(** * The byte-at-a-time reference *)

(** One byte of an unfinished body. *)
Definition byte_step (d : HttpChunkedDecoder) (b : byte)
  : result FramingError (HttpChunkedDecoder * bytes) :=
  let* w := charge_wire (wire_bytes d) 1 in
  let d := set_wire w d in
  match cstate d with
  | SizeLine line => let* d := size_line_byte line b d in Ok (d, [])
  | Data remaining => Ok (take_data remaining 1 d, [b])
  | DataCrLf seen => let* d := crlf_byte seen b d in Ok (d, [])
  | TrailerLine line => let* d := trailer_line_byte line b d in Ok (d, [])
  | Complete => Ok (d, [])
  end.

Fixpoint decode_bytes (d : HttpChunkedDecoder) (input : bytes)
  : result FramingError (HttpChunkedDecoder * nat * bytes) :=
  match input with
  | [] => Ok (d, 0%nat, [])
  | b :: rest =>
      if is_complete d then Ok (d, 0%nat, [])
      else
        let* (d, o) := byte_step d b in
        let* (d, n, out) := decode_bytes d rest in
        Ok (d, S n, o ++ out)
  end.

(** Chunk data is never empty, so every round of the loop makes progress. *)
Definition wf_decoder (d : HttpChunkedDecoder) : Prop :=
  0 <= wire_bytes d <= MAX_HTTP_WIRE_BYTES /\ 0 <= decoded_bytes d <= MAX_HTTP_BODY_BYTES /\
  0 <= trailers d <= MAX_TRAILERS /\ 0 <= trailer_bytes d <= MAX_TRAILER_BYTES /\
  match cstate d with
  | SizeLine line => len line <= MAX_CHUNK_LINE_BYTES
  | TrailerLine line => len line <= MAX_TRAILER_LINE_BYTES
  | Data remaining => 0 < remaining /\ decoded_bytes d + remaining <= MAX_HTTP_BODY_BYTES
  | DataCrLf seen => 0 <= seen <= 1
  | Complete => True
  end.

(** * Lemmas: the invariant *)

Lemma charge_wire_Ok w k n : charge_wire w k = Ok n <-> n = w + k /\ 0 <= w + k <= MAX_HTTP_WIRE_BYTES.
Proof.
  unfold charge_wire, checked_add_u64. destruct (checked 0 u64_max (w + k)) as [m|] eqn:E; cbn [ok_or].
  - apply checked_Some in E as [-> E]. destruct (Z.ltb_spec MAX_HTTP_WIRE_BYTES (w + k)); [split; [done|lia]|].
    split; [intros [= <-]; lia|intros [-> _]; done].
  - apply checked_None in E. split; [done|]. unfold MAX_HTTP_WIRE_BYTES, MAX_HTTP_BODY_BYTES, u64_max in *. lia.
Qed.

Lemma charge_wire_Err w k e : charge_wire w k = Err e -> e = TooMuchFraming.
Proof.
  unfold charge_wire. destruct (checked_add_u64 w k); cbn [ok_or]; [|congruence].
  destruct (MAX_HTTP_WIRE_BYTES <? _); congruence.
Qed.

(** Charging in two parts is charging once. *)
Lemma charge_wire_add w j k : 0 <= w -> 0 <= j -> 0 <= k ->
  charge_wire w (j + k) = match charge_wire w j with Ok w' => charge_wire w' k | Err e => Err e end.
Proof.
  intros Hw Hj Hk. destruct (charge_wire w j) as [w'|e] eqn:E.
  - apply charge_wire_Ok in E as [-> E]. destruct (charge_wire (w + j) k) as [v|e'] eqn:E'.
    + apply charge_wire_Ok in E' as [-> E']. apply charge_wire_Ok. lia.
    + destruct (charge_wire w (j + k)) as [v|e''] eqn:E''.
      * apply charge_wire_Ok in E'' as [-> E'']. assert (Hc : charge_wire (w + j) k = Ok (w + j + k))
          by (apply charge_wire_Ok; lia). congruence.
      * apply charge_wire_Err in E', E''. congruence.
  - destruct (charge_wire w (j + k)) as [v|e'] eqn:E'.
    + apply charge_wire_Ok in E' as [-> E']. assert (Hc : charge_wire w j = Ok (w + j))
        by (apply charge_wire_Ok; lia). congruence.
    + apply charge_wire_Err in E, E'. congruence.
Qed.

Lemma pop_cr_Some line l : pop_cr line = Some l <-> line = l ++ [CR].
Proof.
  unfold pop_cr. destruct (reverse line) as [|b r] eqn:E.
  - split; [done|]. intros ->. by rewrite reverse_snoc in E.
  - assert (line = reverse r ++ [b]) as -> by (by rewrite <- reverse_cons, <- E, reverse_involutive).
    case_bool_decide as Hb; [subst|]; split; try done.
    + by intros [= <-].
    + intros H. apply app_inj_tail in H as [<- _]. done.
    + intros H. by apply app_inj_tail in H as [_ ?].
Qed.

Lemma size_digits_nonneg size l n : fold_result size_digit size l = Ok n -> 0 <= size -> 0 <= n.
Proof.
  revert size. induction l as [|b l IH]; intros size Hf Hs; simpl in Hf; [by simplify_eq|].
  unfold size_digit in Hf at 1. destruct (hex_digit b) as [v|] eqn:Ev; [|done].
  destruct (checked_mul_u64 size 16) as [x|]; [|done]. destruct (checked_add_u64 x v) as [y|] eqn:Ey; [|done].
  apply (IH y Hf). apply checked_Some in Ey as [-> ?]. lia.
Qed.

Lemma parse_chunk_size_nonneg line n : parse_chunk_size_line line = Ok n -> 0 <= n.
Proof.
  unfold parse_chunk_size_line. destruct (_ || _); [done|].
  destruct (fold_result _ _ _) as [s|] eqn:E; [|done]. apply size_digits_nonneg in E; [|lia].
  destruct (position _ line); [destruct (validate_chunk_extensions _ _); [|done]|]; by intros [= <-].
Qed.

Lemma size_line_byte_wf line b d d' :
  wf_decoder d -> len line <= MAX_CHUNK_LINE_BYTES -> size_line_byte line b d = Ok d' ->
  wf_decoder d' /\ decoded_bytes d' = decoded_bytes d.
Proof.
  intros (W1 & W2 & W3 & W4 & _) Hl. unfold size_line_byte. destruct (b ==b LF).
  - destruct (pop_cr line) as [l|]; [|done]. destruct (parse_chunk_size_line l) as [size|] eqn:Es; [|done].
    apply parse_chunk_size_nonneg in Es.
    destruct (checked_add_u64 _ _) as [t|] eqn:Et; [|done]. cbn [ok_or]. apply checked_Some in Et as [-> Et].
    destruct (Z.ltb_spec MAX_HTTP_BODY_BYTES (decoded_bytes d + size)); [done|]. intros [= <-].
    split; [|done]. unfold wf_decoder. simpl. split_and!; try lia.
    destruct (Z.eqb_spec size 0); [done|]. lia.
  - destruct (_ || _) eqn:Eg; [done|]. intros [= <-]. split; [|done]. unfold wf_decoder. simpl. bool_hyps.
    unfold len in *. rewrite length_app. simpl. split_and!; lia.
Qed.

Lemma trailer_line_byte_wf line b d d' :
  wf_decoder d -> len line <= MAX_TRAILER_LINE_BYTES -> trailer_line_byte line b d = Ok d' ->
  wf_decoder d' /\ decoded_bytes d' = decoded_bytes d.
Proof.
  intros (W1 & W2 & W3 & W4 & _) Hl. unfold trailer_line_byte.
  destruct (checked_add_u64 _ _) as [n|] eqn:En; [|done]. cbn [ok_or]. apply checked_Some in En as [-> En].
  destruct (Z.ltb_spec MAX_TRAILER_BYTES (trailer_bytes d + 1)); [done|].
  unfold wf_decoder. destruct (b ==b LF).
  - destruct (pop_cr line) as [[|x l]|]; [| |done].
    + intros [= <-]. simpl. split_and!; try done; lia.
    + destruct (validate_trailer_line _); [|done]. simpl.
      destruct (Z.ltb_spec MAX_TRAILERS (trailers d + 1)); [done|]. intros [= <-]. simpl.
      split_and!; try done; lia.
  - destruct (_ || _) eqn:Eg; [done|]. intros [= <-]. simpl. bool_hyps.
    unfold len in *. rewrite length_app. simpl. split_and!; try done; lia.
Qed.

Lemma byte_step_wf d b d' o : wf_decoder d -> is_complete d = false -> byte_step d b = Ok (d', o) ->
  wf_decoder d' /\ decoded_bytes d' = decoded_bytes d + len o.
Proof.
  intros Hw Hc. unfold byte_step. destruct (charge_wire (wire_bytes d) 1) as [w|] eqn:Ew; [|done].
  apply charge_wire_Ok in Ew as [-> Ew]. set (d1 := set_wire (wire_bytes d + 1) d).
  assert (Hw1 : wf_decoder d1) by (destruct Hw as (? & ? & ? & ? & ?); split_and!; simpl; try done; lia).
  pose proof Hw1 as (W1 & W2 & W3 & W4 & W5). change (decoded_bytes d) with (decoded_bytes d1).
  assert (Hc1 : is_complete d1 = false) by exact Hc. clearbody d1. clear Hw Hc Ew d.
  destruct (cstate d1) as [line|rem|seen|line|] eqn:Es.
  - destruct (size_line_byte line b d1) as [d2|] eqn:E; [|done]. intros [= <- <-].
    apply size_line_byte_wf in E as [? ->]; [|done..]. split; [done|]. unfold len. simpl. lia.
  - intros [= <- <-]. split; [|done]. unfold wf_decoder. simpl.
    destruct (Z.eqb_spec (rem - 1) 0); simpl; split_and!; simpl in *; lia.
  - unfold crlf_byte. destruct (negb _); [done|]. intros [= <- <-]. split; [|unfold len; simpl; lia].
    unfold wf_decoder. simpl. split_and!; try done; try lia.
    destruct (Z.eqb_spec (seen + 1) 2); simpl; [unfold MAX_CHUNK_LINE_BYTES, len; simpl|]; lia.
  - destruct (trailer_line_byte line b d1) as [d2|] eqn:E; [|done]. intros [= <- <-].
    apply trailer_line_byte_wf in E as [? ->]; [|done..]. split; [done|]. unfold len. simpl. lia.
  - unfold is_complete in Hc1. by rewrite Es in Hc1.
Qed.

(** * Lemmas: bulk copies are byte steps *)

Lemma decode_data k : forall d rem input, cstate d = Data rem -> 0 <= wire_bytes d ->
  (0 < k <= length input)%nat -> Z.of_nat k <= rem ->
  decode_bytes d input =
  match charge_wire (wire_bytes d) (Z.of_nat k) with
  | Err e => Err e
  | Ok w => match decode_bytes (take_data rem (Z.of_nat k) (set_wire w d)) (drop k input) with
            | Ok (d', n, out) => Ok (d', (k + n)%nat, take k input ++ out)
            | Err e => Err e
            end
  end.
Proof.
  induction k as [|k IH]; intros d rem input Hs Hw Hk Hr; [lia|].
  destruct input as [|b input]; [simpl in Hk; lia|]. cbn [decode_bytes].
  unfold is_complete. rewrite Hs. unfold byte_step.
  replace (Z.of_nat (S k)) with (1 + Z.of_nat k) by lia. rewrite charge_wire_add by lia.
  destruct (charge_wire (wire_bytes d) 1) as [w|] eqn:Ew; [|done].
  apply charge_wire_Ok in Ew as [-> Ew]. change (cstate (set_wire _ d)) with (cstate d). rewrite Hs.
  destruct (decide (k = 0%nat)) as [-> |Hk0].
  - change (Z.of_nat 0) with 0. replace (charge_wire (wire_bytes d + 1) 0) with (Ok (wire_bytes d + 1) : result FramingError Z)
      by (symmetry; apply charge_wire_Ok; lia).
    change (drop 1 (b :: input)) with input. change (1 + 0) with 1.
    by destruct (decode_bytes (take_data rem 1 (set_wire (wire_bytes d + 1) d)) input) as [[[d' n] out]|].
  - set (d1 := take_data rem 1 (set_wire (wire_bytes d + 1) d)).
    assert (Hs1 : cstate d1 = Data (rem - 1)) by (unfold d1; simpl; destruct (Z.eqb_spec (rem - 1) 0); [lia|done]).
    rewrite (IH d1 (rem - 1) input Hs1); [|simpl; lia|simpl in Hk; lia|lia].
    change (wire_bytes d1) with (wire_bytes d + 1).
    destruct (charge_wire (wire_bytes d + 1) (Z.of_nat k)) as [w|]; [|done].
    assert (Ht : take_data (rem - 1) (Z.of_nat k) (set_wire w d1)
                 = take_data rem (1 + Z.of_nat k) (set_wire w d)).
    { unfold take_data, set_wire, d1. simpl.
      replace (rem - 1 - Z.of_nat k) with (rem - (1 + Z.of_nat k)) by lia. f_equal. lia. }
    rewrite Ht. change (drop (S k) (b :: input)) with (drop k input).
    by destruct (decode_bytes _ (drop k input)) as [[[d' n] out]|].
Qed.

(** The loop computes the reference, whenever the fuel exceeds the input. *)
Lemma push_loop_bytes fuel : forall d input, wf_decoder d -> (length input < fuel)%nat ->
  push_loop fuel d input = Some (decode_bytes d input).
Proof.
  induction fuel as [|fuel IH]; intros d input Hw Hf; [lia|].
  destruct input as [|b rest]; [done|]. cbn [push_loop decode_bytes]. simpl in Hf.
  assert (Hone : forall (r : result FramingError HttpChunkedDecoder) (d0 : HttpChunkedDecoder),
    is_complete d = false -> byte_step d b = match r with Ok d' => Ok (d', []) | Err e => Err e end ->
    match r with
    | Err e => Some (Err e)
    | Ok d' => match push_loop fuel d' rest with
               | Some (Ok (d'', n, out)) => Some (Ok (d'', S n, out)) | other => other end
    end = Some (match r with
      | Ok d' => match decode_bytes d' rest with Ok (d'', n, out) => Ok (d'', S n, [] ++ out) | Err e => Err e end
      | Err e => Err e end)).
  { intros r _ Hc Hb. destruct r as [d'|e]; [|done]. destruct (byte_step_wf d b d' [] Hw Hc Hb) as [Hw' _].
    rewrite IH by (done || lia). by destruct (decode_bytes d' rest) as [[[d'' n] out]|]. }
  destruct (cstate d) as [line|rem|seen|line|] eqn:Es; unfold is_complete in *; rewrite Es in *.
  - rewrite Hone; [|done|done|unfold byte_step; destruct (charge_wire _ _); [|done]; simpl; rewrite Es;
      by destruct (size_line_byte _ _ _)].
    unfold byte_step. destruct (charge_wire _ _) as [w|]; [|done]. simpl. rewrite Es.
    by destruct (size_line_byte line b (set_wire w d)).
  - pose proof Hw as ([W1 _] & _ & _ & _ & W5). rewrite Es in W5.
    set (k := Z.to_nat (Z.min rem (len (b :: rest)))).
    assert (Hk : (0 < k <= length (b :: rest))%nat) by (unfold k, len; simpl; lia).
    assert (Hkz : Z.of_nat k = Z.min rem (len (b :: rest))) by (unfold k, len; simpl; lia).
    rewrite <- Hkz. pose proof (decode_data k d rem (b :: rest) Es W1 Hk ltac:(lia)) as Hd.
    cbn [decode_bytes] in Hd. unfold is_complete in Hd. rewrite Es in Hd. rewrite Hd.
    destruct (charge_wire (wire_bytes d) (Z.of_nat k)) as [w|] eqn:Ew; [|done].
    apply charge_wire_Ok in Ew as [-> Ew]. replace (Z.to_nat (Z.of_nat k)) with k by lia.
    rewrite IH.
    + by destruct (decode_bytes _ (drop k (b :: rest))) as [[[d' n] out]|].
    + destruct Hw as (? & ? & ? & ? & _). unfold wf_decoder. simpl.
      split_and!; simpl; try lia. destruct (Z.eqb_spec (rem - Z.of_nat k) 0); lia.
    + rewrite length_drop. simpl in *. lia.
  - rewrite Hone; [|done|done|unfold byte_step; destruct (charge_wire _ _); [|done]; simpl; rewrite Es;
      by destruct (crlf_byte _ _ _)].
    unfold byte_step. destruct (charge_wire _ _) as [w|]; [|done]. simpl. rewrite Es.
    by destruct (crlf_byte seen b (set_wire w d)).
  - rewrite Hone; [|done|done|unfold byte_step; destruct (charge_wire _ _); [|done]; simpl; rewrite Es;
      by destruct (trailer_line_byte _ _ _)].
    unfold byte_step. destruct (charge_wire _ _) as [w|]; [|done]. simpl. rewrite Es.
    by destruct (trailer_line_byte line b (set_wire w d)).
  - done.
Qed.

Lemma decode_bytes_wf input : forall d d' n out, wf_decoder d -> decode_bytes d input = Ok (d', n, out) ->
  wf_decoder d' /\ decoded_bytes d' = decoded_bytes d + len out /\ (n <= length input)%nat /\
  (n = length input \/ is_complete d' = true).
Proof.
  induction input as [|b rest IH]; intros d d' n out Hw; cbn [decode_bytes].
  - intros [= <- <- <-]. split_and!; [done|unfold len; simpl; lia|done|by left].
  - destruct (is_complete d) eqn:Ec.
    + intros [= <- <- <-]. split_and!; [done|unfold len; simpl; lia|simpl; lia|by right].
    + destruct (byte_step d b) as [[d1 o]|] eqn:Es; [|done].
      destruct (byte_step_wf d b d1 o Hw Ec Es) as [Hw1 E1].
      destruct (decode_bytes d1 rest) as [[[d2 k] out2]|] eqn:Ed; [|done]. intros [= <- <- <-].
      destruct (IH _ _ _ _ Hw1 Ed) as (? & E2 & ? & Hor). unfold len in *. rewrite length_app. simpl.
      split_and!; [done|lia|lia|]. destruct Hor; [left; lia|by right].
Qed.

Lemma decode_bytes_app a : forall d b,
  decode_bytes d (a ++ b) =
  match decode_bytes d a with
  | Err e => Err e
  | Ok (d1, n1, o1) => match decode_bytes d1 b with
                       | Err e => Err e
                       | Ok (d2, n2, o2) => Ok (d2, (n1 + n2)%nat, o1 ++ o2)
                       end
  end.
Proof.
  induction a as [|c a IH]; intros d b; simpl.
  - by destruct (decode_bytes d b) as [[[? ?] ?]|].
  - destruct (is_complete d) eqn:Ec.
    + destruct b as [|x b]; cbn [decode_bytes]; [done|by rewrite Ec].
    + destruct (byte_step d c) as [[d1 o]|]; [|done]. rewrite IH.
      destruct (decode_bytes d1 a) as [[[d2 n2] o2]|]; [|done].
      destruct (decode_bytes d2 b) as [[[d3 n3] o3]|]; [|done]. by rewrite app_assoc.
Qed.

Lemma new_wf : wf_decoder HttpChunkedDecoder_new.
Proof. unfold wf_decoder. vm_compute. split_and!; by intros. Qed.

Lemma push_is_decode d input : wf_decoder d ->
  HttpChunkedDecoder_push d input =
  Some (let* (d', n, out) := decode_bytes d input in
        Ok (d', {| consumed := n; complete := is_complete d' |}, out)).
Proof.
  intros Hw. unfold HttpChunkedDecoder_push. rewrite push_loop_bytes by (done || lia).
  by destruct (decode_bytes d input) as [[[? ?] ?]|].
Qed.

(** * Fragmented input *)

(** Pushes one piece after another, as the exchange does while the body is
    unfinished: the last state, all bytes consumed and decoded. *)
Fixpoint push_pieces (d : HttpChunkedDecoder) (pieces : list bytes)
  : option (result FramingError (HttpChunkedDecoder * nat * bytes)) :=
  match pieces with
  | [] => Some (Ok (d, 0%nat, []))
  | p :: ps =>
      match HttpChunkedDecoder_push d p with
      | Some (Ok (d, progress, out)) =>
          match push_pieces d ps with
          | Some (Ok (d, n, out')) => Some (Ok (d, (consumed progress + n)%nat, out ++ out'))
          | other => other
          end
      | Some (Err e) => Some (Err e)
      | None => None
      end
  end.

Lemma push_pieces_decode pieces : forall d, wf_decoder d ->
  push_pieces d pieces = Some (decode_bytes d (concat pieces)).
Proof.
  induction pieces as [|p ps IH]; intros d Hw; cbn [push_pieces concat]; [done|].
  rewrite push_is_decode, decode_bytes_app by done.
  destruct (decode_bytes d p) as [[[d1 n1] o1]|] eqn:E; [|done].
  rewrite IH by (by eapply decode_bytes_wf). by destruct (decode_bytes d1 (concat ps)) as [[[? ?] ?]|].
Qed.

(** * Encoding *)

Record HttpChunk := { size_line : bytes; payload : bytes }.

Definition encode_chunk (c : HttpChunk) : bytes := size_line c ++ crlf ++ payload c ++ crlf.

Definition encode_trailer (line : bytes) : bytes := line ++ crlf.

(** Chunks, a last size line and trailer lines. *)
Definition encode_http (chunks : list HttpChunk) (final : bytes) (lines : list bytes) : bytes :=
  concat (map encode_chunk chunks) ++ (final ++ crlf) ++ concat (map encode_trailer lines) ++ crlf.

(** ** The grammar of size lines and trailers (RFC 9112, section 7.1) *)

Definition blanks (l : bytes) : Prop := Forall (fun b => b = x20 \/ b = x09) l.

Definition token_chars : bytes :=
  bs "ABCDEFGHIJKLMNOPQRSTUVWXYZabcdefghijklmnopqrstuvwxyz0123456789!#$%&'*+-.^_`|~".

Definition token (l : bytes) : Prop := l <> [] /\ Forall (fun b => b ∈ token_chars) l.

(** A tab, a printable character or a byte above ASCII. *)
Definition text_char (b : byte) : Prop := bval b = 9 \/ 32 <= bval b <= 126 \/ 128 <= bval b.

(** The inside of a quoted string: a quote or a backslash needs a backslash. *)
Inductive quoted_text : bytes -> Prop :=
| qt_nil : quoted_text []
| qt_char b text : text_char b -> b <> x22 -> b <> x5c -> quoted_text text -> quoted_text (b :: text)
| qt_pair b text : text_char b -> quoted_text text -> quoted_text (x5c :: b :: text).

(** One extension: a name, alone or with a value, a token or a quoted string. *)
Inductive extension : bytes -> Prop :=
| ext_name a name b : blanks a -> token name -> blanks b -> extension (bs ";" ++ a ++ name ++ b)
| ext_token a name b c value d : blanks a -> token name -> blanks b -> blanks c -> token value -> blanks d ->
    extension (bs ";" ++ a ++ name ++ b ++ bs "=" ++ c ++ value ++ d)
| ext_quoted a name b c text d : blanks a -> token name -> blanks b -> blanks c -> quoted_text text -> blanks d ->
    extension (bs ";" ++ a ++ name ++ b ++ bs "=" ++ c ++ x22 :: text ++ x22 :: d).

(** A size line: the size in hexadecimal digits of either case, leading zeros
    allowed, and any extensions. *)
Definition size_text (line : bytes) (size : Z) : Prop :=
  (exists hex exts, line = hex ++ concat exts /\ hex_number hex size /\ Forall extension exts) /\
  (CR ∉ line) /\ (LF ∉ line) /\ len line < MAX_CHUNK_LINE_BYTES.

(** A trailer line: a field name, a colon and a field value. *)
Definition trailer_text (line : bytes) : Prop :=
  exists name value, line = name ++ bs ":" ++ value /\ token name /\
    Forall (fun b => bval b = 9 \/ (32 <= bval b /\ bval b <> 127)) value.

(** A body within the limits; the size lines may use any spelling of the size
    and carry extensions. *)
Definition admissible_http (chunks : list HttpChunk) (final : bytes) (lines : list bytes) : Prop :=
  Forall (fun c => payload c <> [] /\ size_text (size_line c) (len (payload c))) chunks /\
  size_text final 0 /\
  Forall (fun l => trailer_text l /\ (CR ∉ l) /\ (LF ∉ l) /\ len l < MAX_TRAILER_LINE_BYTES) lines /\
  len (concat (map payload chunks)) <= MAX_HTTP_BODY_BYTES /\
  len lines <= MAX_TRAILERS /\ len (concat (map encode_trailer lines) ++ crlf) <= MAX_TRAILER_BYTES /\
  len (encode_http chunks final lines) <= MAX_HTTP_WIRE_BYTES.

(** ** Lemmas: the grammar is accepted *)

Ltac each_byte P b :=
  let H := fresh "H" in pose proof (byte_forall P eq_refl b) as H; cbv beta in H.

Lemma token_char_tchar b : b ∈ token_chars <-> is_tchar b = true.
Proof.
  each_byte (fun b => bool_decide (bool_decide (b ∈ token_chars) = is_tchar b)) b.
  apply bool_decide_eq_true in H. rewrite <- H. by rewrite bool_decide_eq_true.
Qed.

Lemma token_tchars l : token l -> Forall (fun b => is_tchar b = true) l.
Proof. intros [_ H]. eapply Forall_impl; [exact H|]. intros b. apply token_char_tchar. Qed.

Lemma text_char_pair b : text_char b -> quoted_pair_byte b = true.
Proof.
  unfold text_char, quoted_pair_byte, in_range. intros H. rewrite !orb_true_iff, andb_true_iff, !Z.leb_le.
  destruct H as [H|H]; [|tauto]. left. left. apply bool_decide_eq_true. by apply bval_inj.
Qed.

Lemma text_char_text b : text_char b -> b <> x22 -> b <> x5c -> quoted_text_byte b = true.
Proof.
  intros H%text_char_pair H1 H2.
  each_byte (fun b => implb (quoted_pair_byte b && negb (b ==b x22) && negb (b ==b x5c)) (quoted_text_byte b)) b.
  rewrite H, !bool_decide_false in H0 by done. done.
Qed.

Lemma quoted_string_text text rest : quoted_text text -> quoted_string (text ++ x22 :: rest) = Ok rest.
Proof.
  induction 1 as [|b text Hc H1 H2 _ IH|b text Hc _ IH]; [done|..]; cbn [app quoted_string].
  - rewrite !bool_decide_false by done. by rewrite text_char_text.
  - by rewrite text_char_pair.
Qed.

Lemma trim_blanks a l : blanks a -> (forall b, head l = Some b -> is_ows b = false) -> trim_left_ows (a ++ l) = l.
Proof.
  intros Ha Hl. unfold trim_left_ows. induction Ha as [|b a Hb _ IH].
  - apply drop_while_id. intros x r ->. by apply Hl.
  - cbn [app drop_while]. destruct Hb as [-> | ->]; exact IH.
Qed.

Lemma tchar_not_ows b : is_tchar b = true -> is_ows b = false.
Proof.
  each_byte (fun b => implb (is_tchar b) (negb (is_ows b))) b. intros E. rewrite E in H. cbn [implb] in H.
  by apply negb_true_iff.
Qed.

Lemma token_head l r b : token l -> head (l ++ r) = Some b -> is_tchar b = true.
Proof.
  intros Ht Hb. pose proof (token_tchars _ Ht) as Hf. destruct l as [|x l]; [by destruct Ht|].
  simpl in Hb. injection Hb as <-. by apply Forall_inv in Hf.
Qed.

(** What may follow an extension: another one, or nothing. *)
Definition at_extension (l : bytes) : Prop := forall b, head l = Some b -> b = x3b.

Lemma head_blanks a l (P : byte -> Prop) : blanks a -> (forall b, b = x20 \/ b = x09 -> P b) -> (forall b, head l = Some b -> P b) ->
  forall b, head (a ++ l) = Some b -> P b.
Proof. intros Ha H1 H2 b Hb. destruct Ha as [|x a Hx _]; [by apply H2|]. injection Hb as <-. by apply H1. Qed.

Lemma take_token l r : token l -> (forall b, head r = Some b -> is_tchar b = false) ->
  take_while is_tchar (l ++ r) = l /\ (length l =? 0)%nat = false.
Proof.
  intros Ht Hr. split; [by apply take_while_app; [apply token_tchars|]|]. destruct l; [by destruct Ht|done].
Qed.

Lemma blank_not_tchar b : b = x20 \/ b = x09 -> is_tchar b = false.
Proof. by intros [-> | ->]. Qed.

(** The value of an extension, up to the next one. *)
Lemma extension_value_spec b c d rest :
  at_extension rest -> blanks c -> blanks d ->
  (token b -> extension_value (bs "=" ++ c ++ b ++ d ++ rest) = Ok rest) /\
  (quoted_text b -> extension_value (bs "=" ++ c ++ (x22 :: b ++ x22 :: d) ++ rest) = Ok rest).
Proof.
  intros Hr Hc Hd.
  assert (Hend : trim_left_ows (d ++ rest) = rest) by (apply trim_blanks; [done|]; intros x ->%Hr; done).
  split; intros Hb; cbn [app bs extension_value String.list_byte_of_string].
  - change (extension_value (x3d :: c ++ b ++ d ++ rest) = Ok rest). cbn [extension_value]. rewrite bool_decide_true by done.
    rewrite trim_blanks; [|done|intros x Hx; apply tchar_not_ows; by eapply token_head].
    destruct (take_token b (d ++ rest) Hb) as [Et El].
    { apply head_blanks; [done|apply blank_not_tchar|]. by intros x ->%Hr. }
    destruct (b ++ d ++ rest) as [|q inner] eqn:E; [by destruct b; destruct Hb|].
    assert (Hq : is_tchar q = true) by (eapply (token_head b (d ++ rest)); [done|by rewrite E]).
    rewrite bool_decide_false by (intros ->; done). rewrite Et, El. rewrite <- E, drop_app_length. by rewrite Hend.
  - change (extension_value (x3d :: c ++ (x22 :: b ++ x22 :: d) ++ rest) = Ok rest). cbn [extension_value].
    rewrite bool_decide_true by done. rewrite trim_blanks; [|done|by intros x [= <-]].
    cbn [app]. rewrite bool_decide_true by done. rewrite <- app_assoc. cbn [app]. rewrite quoted_string_text by done.
    by rewrite Hend.
Qed.

Lemma extension_round e rest fuel : extension e -> at_extension rest ->
  validate_chunk_extensions (S fuel) (e ++ rest) = validate_chunk_extensions fuel rest.
Proof.
  intros He Hr.
  assert (Hgo : forall a name b tail, blanks a -> token name -> blanks b ->
    (forall x, head tail = Some x -> is_tchar x = false /\ is_ows x = false) -> extension_value tail = Ok rest ->
    validate_chunk_extensions (S fuel) (x3b :: a ++ name ++ b ++ tail) = validate_chunk_extensions fuel rest).
  { intros a name b tail Ha Hn Hb Ht Hv. cbn [validate_chunk_extensions]. rewrite bool_decide_true by done. cbn [negb].
    rewrite trim_blanks; [|done|intros x Hx; apply tchar_not_ows; by eapply token_head].
    destruct (take_token name (b ++ tail) Hn) as [-> ->].
    { apply head_blanks; [done|apply blank_not_tchar|]. intros x Hx. by apply Ht. }
    rewrite drop_app_length, trim_blanks; [|done|intros x Hx; by apply Ht]. rewrite Hv.
    destruct rest as [|x rest]; [done|]. rewrite (Hr x eq_refl). by rewrite bool_decide_true. }
  destruct He as [a name b Ha Hn Hb|a name b c value d Ha Hn Hb Hc Hv Hd|a name b c text d Ha Hn Hb Hc Hv Hd];
    rewrite <- !app_assoc; cbn [app bs String.list_byte_of_string].
  - change (validate_chunk_extensions (S fuel) (x3b :: a ++ name ++ b ++ rest) = validate_chunk_extensions fuel rest).
    apply Hgo; try done; [by intros x ->%Hr|]. destruct rest as [|x rest]; [done|]. cbn [extension_value].
    rewrite (Hr x eq_refl). by rewrite bool_decide_false.
  - apply (Hgo a name b (bs "=" ++ c ++ value ++ d ++ rest)); try done; [by intros x [= <-]|].
    by apply extension_value_spec.
  - apply (Hgo a name b (bs "=" ++ c ++ (x22 :: text ++ x22 :: d) ++ rest)); try done; [by intros x [= <-]|].
    by apply extension_value_spec.
Qed.

Lemma extension_head e : extension e -> exists t, e = x3b :: t.
Proof. intros []; by eexists. Qed.

Lemma extensions_valid exts : Forall extension exts -> forall fuel, (length (concat exts) <= fuel)%nat ->
  validate_chunk_extensions fuel (concat exts) = Ok tt.
Proof.
  induction 1 as [|e exts He Hes IH]; intros fuel Hf; [by destruct fuel|]. cbn [concat] in *.
  destruct (extension_head e He) as [t Et]. rewrite length_app, Et in Hf. simpl in Hf.
  destruct fuel as [|fuel]; [lia|]. rewrite extension_round; [apply IH; lia|done|].
  intros x Hx. destruct Hes as [|e' es [t' ->]%extension_head _]; [done|]. by injection Hx.
Qed.

Lemma size_digits_value text : forall acc values, Forall2 hex_of text values -> 0 <= acc ->
  (acc + 1) * 16 ^ Z.of_nat (length text) <= u64_max + 1 ->
  fold_result size_digit acc text = Ok (foldl (fun acc v => 16 * acc + v) acc values).
Proof.
  induction text as [|b text IH]; intros acc values Hf Ha Hb; inversion Hf as [|? v ? vs Hv Hvs]; subst; [done|].
  cbn [fold_result foldl]. unfold size_digit at 1. apply hex_of_digit in Hv. rewrite Hv.
  apply hex_digit_range in Hv. cbn [length] in Hb. rewrite Nat2Z.inj_succ, Z.pow_succ_r in Hb by lia.
  assert (Hp : 1 <= 16 ^ Z.of_nat (length text)) by (apply (Z.pow_le_mono_r 16 0); lia).
  unfold checked_mul_u64, checked_add_u64. rewrite !checked_in by (unfold u64_max in *; nia). cbn [ok_or].
  replace (acc * 16 + v) with (16 * acc + v) by lia. apply IH; [done|lia|nia].
Qed.

Lemma hex_number_no_semicolon hex n : hex_number hex n -> Forall (fun b => (b ==b x3b) = false) hex.
Proof.
  intros (_ & vs & Hf & _). induction Hf as [|b v hex vs Hb%hex_of_digit _ IH]; constructor; [|done].
  apply bool_decide_eq_false. by intros ->.
Qed.

Lemma size_text_parse line size : size_text line size -> parse_chunk_size_line line = Ok size.
Proof.
  intros [(hex & exts & -> & Hn & He) _]. pose proof (hex_number_no_semicolon _ _ Hn) as Hs.
  destruct Hn as (Hl & vs & Hv & ->).
  assert (Hsize : fold_result size_digit 0 hex = Ok (foldl (fun acc v => 16 * acc + v) 0 vs)).
  { apply size_digits_value; [done|lia|]. rewrite Z.mul_1_l. transitivity (16 ^ 16); [|done].
    apply Z.pow_le_mono_r; lia. }
  assert (Hg : is_empty hex || (16 <? len hex) = false).
  { destruct hex; [simpl in Hl; lia|]. cbn [is_empty orb]. apply Z.ltb_ge. unfold len. lia. }
  unfold parse_chunk_size_line. destruct He as [|e exts He Hes].
  - cbn [concat]. rewrite app_nil_r, position_not_found by done. by rewrite take_ge, Hg, Hsize by done.
  - destruct (extension_head e He) as [t Et]. cbn [concat]. rewrite Et. cbn [app]. rewrite position_app by done.
    rewrite take_app_length, Hg, Hsize, drop_app_length.
    change (x3b :: t ++ concat exts) with ((x3b :: t) ++ concat exts). rewrite <- Et.
    rewrite (extensions_valid (e :: exts)); [done|by constructor|]. rewrite length_app. cbn [concat]. lia.
Qed.

Lemma trailer_text_valid line : trailer_text line -> line <> [] /\ validate_trailer_line line = Ok tt.
Proof.
  intros (name & value & -> & Hn & Hv). pose proof (token_tchars _ Hn) as Hf. destruct name as [|b name]; [by destruct Hn|].
  split; [done|]. unfold validate_trailer_line. cbn [app].
  rewrite tchar_not_ows by (by apply Forall_inv in Hf).
  assert (E : split_once x3a (b :: name ++ bs ":" ++ value) = Some (b :: name, value)).
  { apply split_once_Some. split; [done|]. intros Hin. rewrite Forall_forall in Hf. by apply Hf in Hin. }
  rewrite E. cbn [is_empty orb]. rewrite (proj2 (forallb_Forall_true is_tchar _) Hf). cbn [negb].
  rewrite (proj2 (forallb_Forall_true valid_field_byte value)); [done|]. eapply Forall_impl; [exact Hv|].
  intros x Hx. unfold valid_field_byte. apply orb_true_iff. rewrite andb_true_iff, Z.leb_le, negb_true_iff, Z.eqb_neq.
  destruct Hx as [Hx|Hx]; [left; apply bool_decide_eq_true; by apply bval_inj|by right].
Qed.

(** ** Lemmas: the parts of an encoding *)

Lemma byte_step_charged s w n tb t b : 0 <= w -> w + 1 <= MAX_HTTP_WIRE_BYTES ->
  byte_step (Build_HttpChunkedDecoder s w n tb t) b =
  let d := Build_HttpChunkedDecoder s (w + 1) n tb t in
  match s with
  | SizeLine line => let* d := size_line_byte line b d in Ok (d, [])
  | Data remaining => Ok (take_data remaining 1 d, [b])
  | DataCrLf seen => let* d := crlf_byte seen b d in Ok (d, [])
  | TrailerLine line => let* d := trailer_line_byte line b d in Ok (d, [])
  | Complete => Ok (d, [])
  end.
Proof.
  intros H0 H1. unfold byte_step. simpl.
  by replace (charge_wire w 1) with (Ok (w + 1) : result FramingError Z)
    by (symmetry; apply charge_wire_Ok; lia).
Qed.

#[local] Arguments byte_step : simpl never.

Lemma not_last_CR (l : bytes) : CR ∉ l -> bool_decide (last l = Some CR) = false.
Proof. intros H. apply bool_decide_eq_false. intros E. apply H. by apply last_Some_elem_of in E. Qed.

Lemma decode_size_bytes l : forall pre w n tb t, CR ∉ pre ++ l -> LF ∉ l ->
  len pre + len l <= MAX_CHUNK_LINE_BYTES -> 0 <= w -> w + len l <= MAX_HTTP_WIRE_BYTES ->
  decode_bytes (Build_HttpChunkedDecoder (SizeLine pre) w n tb t) l =
  Ok (Build_HttpChunkedDecoder (SizeLine (pre ++ l)) (w + len l) n tb t, length l, []).
Proof.
  induction l as [|b l IH]; intros pre w n tb t Hc Hf Hl Hw Hm; cbn [decode_bytes is_complete cstate].
  - rewrite app_nil_r. unfold len. simpl. by rewrite Z.add_0_r.
  - assert (Hlen : len (b :: l) = 1 + len l) by (unfold len; simpl; lia).
    pose proof (len_nonneg l) as Hn. rewrite Hlen in *.
    rewrite byte_step_charged by lia. cbn zeta. unfold size_line_byte.
    rewrite (proj2 (bool_decide_eq_false _)) by set_solver. rewrite not_last_CR by set_solver.
    rewrite (proj2 (Z.leb_gt _ _)) by lia. simpl. unfold set_state. simpl.
    rewrite IH; [|by rewrite <- app_assoc|set_solver|unfold len in *; rewrite length_app; simpl; lia|lia|lia].
    rewrite <- app_assoc. simpl. by rewrite Z.add_assoc.
Qed.

Lemma decode_size_line line size w n : size_text line size -> 0 <= w ->
  w + len (line ++ crlf) <= MAX_HTTP_WIRE_BYTES -> 0 <= n -> n + size <= MAX_HTTP_BODY_BYTES ->
  decode_bytes (Build_HttpChunkedDecoder (SizeLine []) w n 0 0) (line ++ crlf) =
  Ok (Build_HttpChunkedDecoder (if size =? 0 then TrailerLine [] else Data size)
        (w + len (line ++ crlf)) n 0 0, length (line ++ crlf), []).
Proof.
  intros Htext Hw Hm Hn Hs. pose proof (size_text_parse _ _ Htext) as Hp. destruct Htext as (_ & Hc & Hf & Hl).
  rewrite decode_bytes_app, len_app, length_app in *.
  change (len crlf) with 2 in *. pose proof (parse_chunk_size_nonneg _ _ Hp) as H0.
  rewrite decode_size_bytes; [|done|done|unfold len in *; simpl; lia|done|lia].
  cbn [app crlf decode_bytes is_complete cstate].
  pose proof (len_nonneg line) as Hn0. rewrite byte_step_charged by lia. cbn zeta.
  unfold size_line_byte at 1. rewrite not_last_CR by done. rewrite (proj2 (Z.leb_gt _ _)) by lia.
  cbn [bool_decide orb]. simpl. unfold set_state. simpl. rewrite byte_step_charged by lia.
  unfold size_line_byte. simpl. rewrite (proj2 (pop_cr_Some (line ++ [CR]) line)) by done. rewrite Hp.
  unfold checked_add_u64. rewrite checked_in by (unfold MAX_HTTP_BODY_BYTES, u64_max in *; lia). simpl.
  rewrite (proj2 (Z.ltb_ge _ _)) by lia. unfold set_state. simpl. do 3 f_equal. f_equal. lia.
Qed.

(** The CRLF after chunk data. *)
Lemma decode_crlf w n : 0 <= w -> w + 2 <= MAX_HTTP_WIRE_BYTES ->
  decode_bytes (Build_HttpChunkedDecoder (DataCrLf 0) w n 0 0) crlf =
  Ok (Build_HttpChunkedDecoder (SizeLine []) (w + 2) n 0 0, 2%nat, []).
Proof.
  intros Hw Hm. cbn [crlf decode_bytes is_complete cstate]. rewrite byte_step_charged by lia. simpl.
  unfold set_state. simpl. rewrite byte_step_charged by lia. simpl. unfold set_state. simpl. by rewrite <- Z.add_assoc.
Qed.

Lemma decode_chunk c w n : payload c <> [] -> size_text (size_line c) (len (payload c)) -> 0 <= w ->
  w + len (encode_chunk c) <= MAX_HTTP_WIRE_BYTES -> 0 <= n -> n + len (payload c) <= MAX_HTTP_BODY_BYTES ->
  decode_bytes (Build_HttpChunkedDecoder (SizeLine []) w n 0 0) (encode_chunk c) =
  Ok (Build_HttpChunkedDecoder (SizeLine []) (w + len (encode_chunk c)) (n + len (payload c)) 0 0,
      length (encode_chunk c), payload c).
Proof.
  intros He Ht Hw Hm Hn Hb. unfold encode_chunk in *. rewrite (app_assoc (size_line c)) in *.
  rewrite !(len_app (_ ++ crlf)), (len_app (payload c)) in *. change (len crlf) with 2 in *.
  pose proof (len_nonneg (payload c)) as Hp0. pose proof (len_nonneg (size_line c ++ crlf)) as Hl0.
  rewrite decode_bytes_app, (decode_size_line _ (len (payload c))) by (done || lia).
  assert (Hpos : 0 < len (payload c)) by (destruct (payload c); [done|unfold len; simpl; lia]).
  rewrite (proj2 (Z.eqb_neq _ _)) by lia.
  rewrite (decode_data (length (payload c)) _ (len (payload c))); [|done|simpl; lia| |done];
    [|rewrite length_app; unfold len in *; lia].
  cbn [wire_bytes]. replace (charge_wire _ (Z.of_nat (length (payload c))))
    with (Ok (w + len (size_line c ++ crlf) + len (payload c)) : result FramingError Z)
    by (symmetry; apply charge_wire_Ok; unfold len in *; lia).
  rewrite drop_app_length, take_app_length. unfold take_data, set_wire. cbn [wire_bytes decoded_bytes trailer_bytes trailers].
  change (Z.of_nat (length (payload c))) with (len (payload c)). rewrite Z.sub_diag. cbn [Z.eqb].
  rewrite decode_crlf by lia. rewrite app_nil_r, !length_app. do 3 f_equal. f_equal. lia.
Qed.

Lemma decode_chunks chunks : forall w n,
  Forall (fun c => payload c <> [] /\ size_text (size_line c) (len (payload c))) chunks -> 0 <= w ->
  w + len (concat (map encode_chunk chunks)) <= MAX_HTTP_WIRE_BYTES -> 0 <= n ->
  n + len (concat (map payload chunks)) <= MAX_HTTP_BODY_BYTES ->
  decode_bytes (Build_HttpChunkedDecoder (SizeLine []) w n 0 0) (concat (map encode_chunk chunks)) =
  Ok (Build_HttpChunkedDecoder (SizeLine []) (w + len (concat (map encode_chunk chunks)))
        (n + len (concat (map payload chunks))) 0 0,
      length (concat (map encode_chunk chunks)), concat (map payload chunks)).
Proof.
  induction chunks as [|c cs IH]; intros w n Hall Hw Hm Hn Hb; cbn [map concat] in *.
  - unfold len. simpl. by rewrite !Z.add_0_r.
  - apply Forall_cons in Hall as [[He Ht] Hall]. rewrite !len_app in *.
    pose proof (len_nonneg (encode_chunk c)). pose proof (len_nonneg (payload c)).
    pose proof (len_nonneg (concat (map encode_chunk cs))). pose proof (len_nonneg (concat (map payload cs))).
    rewrite decode_bytes_app, decode_chunk by (done || lia). rewrite IH by (done || lia).
    by rewrite length_app, !Z.add_assoc.
Qed.

Lemma decode_trailer_bytes l : forall pre w n tb t, CR ∉ pre ++ l -> LF ∉ l ->
  len pre + len l <= MAX_TRAILER_LINE_BYTES -> 0 <= w -> w + len l <= MAX_HTTP_WIRE_BYTES ->
  0 <= tb -> tb + len l <= MAX_TRAILER_BYTES ->
  decode_bytes (Build_HttpChunkedDecoder (TrailerLine pre) w n tb t) l =
  Ok (Build_HttpChunkedDecoder (TrailerLine (pre ++ l)) (w + len l) n (tb + len l) t, length l, []).
Proof.
  induction l as [|b l IH]; intros pre w n tb t Hc Hf Hl Hw Hm Hb Ht; cbn [decode_bytes is_complete cstate].
  - rewrite app_nil_r. unfold len. simpl. by rewrite !Z.add_0_r.
  - assert (Hlen : len (b :: l) = 1 + len l) by (unfold len; simpl; lia).
    pose proof (len_nonneg l) as Hn. rewrite Hlen in *.
    rewrite byte_step_charged by lia. cbn zeta. unfold trailer_line_byte. simpl.
    unfold checked_add_u64. rewrite checked_in by (unfold MAX_TRAILER_BYTES, u64_max in *; lia). simpl.
    rewrite (proj2 (Z.ltb_ge _ _)) by lia.
    rewrite (proj2 (bool_decide_eq_false _)) by set_solver. rewrite not_last_CR by set_solver.
    rewrite (proj2 (Z.leb_gt _ _)) by lia. simpl. unfold set_state. simpl.
    rewrite IH; [|by rewrite <- app_assoc|set_solver|unfold len in *; rewrite length_app; simpl; lia|lia..].
    rewrite <- app_assoc. simpl. by rewrite !Z.add_assoc.
Qed.

(** A whole trailer line; the empty one ends the body. *)
Lemma decode_trailer_line line w n tb t :
  CR ∉ line -> LF ∉ line -> len line < MAX_TRAILER_LINE_BYTES -> 0 <= w ->
  w + len (encode_trailer line) <= MAX_HTTP_WIRE_BYTES -> 0 <= tb ->
  tb + len (encode_trailer line) <= MAX_TRAILER_BYTES -> 0 <= t ->
  (line = [] \/ validate_trailer_line line = Ok tt /\ t + 1 <= MAX_TRAILERS) ->
  decode_bytes (Build_HttpChunkedDecoder (TrailerLine []) w n tb t) (encode_trailer line) =
  Ok (Build_HttpChunkedDecoder (if is_empty line then Complete else TrailerLine [])
        (w + len (encode_trailer line)) n (tb + len (encode_trailer line))
        (if is_empty line then t else t + 1), length (encode_trailer line), []).
Proof.
  intros Hc Hf Hl Hw Hm Hb Ht H0 Hv. unfold encode_trailer in *. rewrite decode_bytes_app, len_app, length_app in *.
  change (len crlf) with 2 in *. pose proof (len_nonneg line) as Hn0.
  rewrite decode_trailer_bytes by (done || lia || (unfold len in *; simpl; lia)).
  cbn [app crlf decode_bytes is_complete cstate]. rewrite byte_step_charged by lia. cbn zeta.
  unfold trailer_line_byte at 1, checked_add_u64. cbn [trailer_bytes].
  rewrite checked_in by (unfold MAX_TRAILER_BYTES, u64_max in *; lia). cbn [ok_or].
  rewrite (proj2 (Z.ltb_ge _ _)) by lia. rewrite not_last_CR by done. rewrite (proj2 (Z.leb_gt _ _)) by lia.
  simpl. unfold set_state. simpl. rewrite byte_step_charged by lia. cbn zeta.
  unfold trailer_line_byte, checked_add_u64. cbn [trailer_bytes].
  rewrite checked_in by (unfold MAX_TRAILER_BYTES, u64_max in *; lia). cbn [ok_or].
  rewrite (proj2 (Z.ltb_ge _ _)) by lia. simpl. rewrite (proj2 (pop_cr_Some (line ++ [CR]) line)) by done.
  destruct line as [|b line]; simpl.
  - unfold set_state. simpl. do 3 f_equal. f_equal; lia.
  - destruct Hv as [?|[-> Hv]]; [done|]. simpl. rewrite (proj2 (Z.ltb_ge _ _)) by lia.
    do 3 f_equal. f_equal; lia.
Qed.

Lemma decode_trailers lines : forall w n tb t,
  Forall (fun l => l <> [] /\ validate_trailer_line l = Ok tt /\ (CR ∉ l) /\ (LF ∉ l) /\
                   len l < MAX_TRAILER_LINE_BYTES) lines -> 0 <= w ->
  w + len (concat (map encode_trailer lines) ++ crlf) <= MAX_HTTP_WIRE_BYTES -> 0 <= tb ->
  tb + len (concat (map encode_trailer lines) ++ crlf) <= MAX_TRAILER_BYTES -> 0 <= t ->
  t + len lines <= MAX_TRAILERS ->
  exists d, decode_bytes (Build_HttpChunkedDecoder (TrailerLine []) w n tb t)
              (concat (map encode_trailer lines) ++ crlf)
            = Ok (d, length (concat (map encode_trailer lines) ++ crlf), []) /\ is_complete d = true.
Proof.
  induction lines as [|l ls IH]; intros w n tb t Hall Hw Hm Hb Htb Ht Hc; cbn [map concat] in *.
  - rewrite app_nil_l in *. change crlf with (encode_trailer []) in *.
    rewrite decode_trailer_line by (set_solver || lia || (by left) || done). by eexists.
  - apply Forall_cons in Hall as [(H1 & H2 & H3 & H4 & H5) Hall]. rewrite <- app_assoc in *.
    rewrite (len_app (encode_trailer l)), len_cons in *. pose proof (len_nonneg (encode_trailer l)).
    pose proof (len_nonneg (concat (map encode_trailer ls) ++ crlf)). pose proof (len_nonneg ls).
    rewrite decode_bytes_app, decode_trailer_line by (done || lia || (right; split; [done|lia])).
    destruct l as [|b l]; [done|]. simpl is_empty. cbn iota.
    destruct (IH (w + len (encode_trailer (b :: l))) n (tb + len (encode_trailer (b :: l))) (t + 1) Hall)
      as (d & -> & Hd); [lia..|].
    exists d. by rewrite (length_app (encode_trailer (b :: l))).
Qed.

(** * Content-Length *)

Fixpoint framing_pieces (f : BodyFraming) (pieces : list bytes)
  : option (result FramingError (BodyFraming * nat * bytes)) :=
  match pieces with
  | [] => Some (Ok (f, 0%nat, []))
  | p :: ps =>
      match BodyFraming_push f p with
      | Some (Ok (f, progress, out)) =>
          match framing_pieces f ps with
          | Some (Ok (f, n, out')) => Some (Ok (f, (consumed progress + n)%nat, out ++ out'))
          | other => other
          end
      | Some (Err e) => Some (Err e)
      | None => None
      end
  end.

Lemma content_length_pieces pieces : forall remaining, 0 <= remaining ->
  framing_pieces (ContentLength remaining) pieces =
  Some (Ok (ContentLength (remaining - Z.min remaining (len (concat pieces))),
            Z.to_nat (Z.min remaining (len (concat pieces))),
            take (Z.to_nat remaining) (concat pieces))).
Proof.
  induction pieces as [|p ps IH]; intros r Hr; cbn [framing_pieces concat BodyFraming_push].
  - unfold len. simpl. rewrite take_nil, Z.min_r by lia. do 3 f_equal. f_equal. f_equal. lia.
  - rewrite IH by lia. rewrite len_app. pose proof (len_nonneg p) as Hp. pose proof (len_nonneg (concat ps)) as Hc.
    cbn [consumed]. f_equal. f_equal. f_equal; [f_equal; [f_equal; lia|lia]|].
    rewrite take_app. f_equal.
    + unfold len in *. destruct (Z.min_spec r (Z.of_nat (length p))) as [[? ->]|[? ->]]; [done|].
      rewrite !take_ge by lia. done.
    + f_equal. unfold len in *. lia.
Qed.


(** * Extensions *)

Lemma length_drop_while {A} (f : A -> bool) l : (length (drop_while f l) <= length l)%nat.
Proof. induction l as [|a l IH]; simpl; [done|]. destruct (f a); simpl; lia. Qed.

Lemma quoted_string_length b : forall n r, (length b <= n)%nat -> quoted_string b = Ok r ->
  (length r <= length b)%nat.
Proof.
  intros n. revert b. induction n as [|n IH]; intros [|c b] r Hn Hq; simpl in *; try done; try lia.
  destruct (c ==b x22); [by injection Hq as ->; lia|]. destruct (c ==b x5c).
  - destruct b as [|e b]; [done|]. destruct (quoted_pair_byte e); [|done].
    apply IH in Hq; simpl in *; lia.
  - destruct (quoted_text_byte c); [|done]. apply IH in Hq; lia.
Qed.

Lemma extension_value_length b r : extension_value b = Ok r -> (length r <= length b)%nat.
Proof.
  unfold extension_value. destruct b as [|c rest]; [by intros [= <-]|].
  destruct (c ==b x3d); [|by intros [= <-]].
  pose proof (length_drop_while is_ows rest) as Hd. unfold trim_left_ows.
  destruct (drop_while is_ows rest) as [|q inner]; [done|]. destruct (q ==b x22).
  - destruct (quoted_string inner) as [after|] eqn:Eq; [|done]. intros [= <-].
    apply (quoted_string_length _ (length inner)) in Eq; [|lia].
    pose proof (length_drop_while is_ows after). simpl in *. lia.
  - destruct (_ =? 0)%nat; [done|]. intros [= <-].
    pose proof (length_drop_while is_ows (drop (length (take_while is_tchar (q :: inner))) (q :: inner))) as Hl.
    rewrite length_drop in Hl. simpl in *. lia.
Qed.

(** The fuel of [parse_chunk_size_line] is never exhausted: more of it changes
    nothing. *)
Lemma validate_chunk_extensions_fuel n : forall k b, (length b <= n)%nat -> (length b <= k)%nat ->
  validate_chunk_extensions n b = validate_chunk_extensions k b.
Proof.
  induction n as [|n IH]; intros k [|c rest] Hn Hk; try (simpl in *; lia); [by destruct k..|].
  destruct k as [|k]; [simpl in *; lia|]. cbn [validate_chunk_extensions].
  destruct (negb (c ==b x3b)); [done|].
  pose proof (length_drop_while is_ows rest) as Hd. fold (trim_left_ows rest) in Hd.
  set (b1 := trim_left_ows rest) in *. destruct (_ =? 0)%nat; [done|].
  pose proof (length_drop_while is_ows (drop (length (take_while is_tchar b1)) b1)) as He.
  rewrite length_drop in He. fold (trim_left_ows (drop (length (take_while is_tchar b1)) b1)) in He.
  destruct (extension_value _) as [b2|] eqn:Ev; [|done]. apply extension_value_length in Ev. simpl in Hn, Hk.
  destruct b2 as [|c' b2]; [apply IH; simpl; lia|]. destruct (negb (c' ==b x3b)); [done|].
  apply IH; lia.
Qed.

(** Sixteen hexadecimal digits fit 64 bits. *)
Lemma size_digits_fit l : forall size, 0 <= size -> size * 16 ^ len l + 16 ^ len l <= 2 ^ 64 ->
  fold_result size_digit size l <> Err EntityTooLarge.
Proof.
  induction l as [|b l IH]; intros size Hs Hb; simpl; [done|].
  unfold size_digit at 1. destruct (hex_digit b) as [v|] eqn:Ev; [|done]. apply hex_digit_range in Ev.
  rewrite len_cons in Hb. pose proof (len_nonneg l) as Hl. rewrite Z.pow_add_r in Hb by lia.
  pose proof (Z.pow_pos_nonneg 16 (len l) ltac:(lia) Hl) as Hp.
  unfold checked_mul_u64, checked_add_u64. rewrite checked_in by (unfold u64_max; nia).
  rewrite checked_in by (unfold u64_max; nia). simpl. apply IH; [lia|nia].
Qed.

Lemma quoted_string_fit k : forall b, (length b <= k)%nat -> quoted_string b <> Err EntityTooLarge.
Proof.
  induction k as [|k IH]; intros [|c b] Hk; simpl in *; try done; try lia.
  repeat destr_match; try done; apply IH; simpl in *; lia.
Qed.

Lemma extensions_fit n : forall b, validate_chunk_extensions n b <> Err EntityTooLarge.
Proof.
  assert (Hv : forall b, extension_value b <> Err EntityTooLarge).
  { intros b. unfold extension_value. repeat destr_match; try done. intros [= ->]. by eapply quoted_string_fit. }
  induction n as [|n IH]; intros b; cbn [validate_chunk_extensions]; [by destruct (is_empty b)|].
  destruct b as [|c rest]; [done|]. destruct (negb _); [done|]. cbn zeta. destruct (_ =? 0)%nat; [done|].
  destruct (extension_value _) as [b2|] eqn:Ev; [|intros [= ->]; by eapply Hv].
  destruct b2; [apply IH|]. destruct (negb _); [done|apply IH].
Qed.

Lemma chunk_size_fits line : parse_chunk_size_line line <> Err EntityTooLarge.
Proof.
  unfold parse_chunk_size_line. set (sz := take _ line).
  destruct (is_empty sz || (16 <? len sz)) eqn:E; [done|]. apply orb_false_iff in E as [_ E].
  apply Z.ltb_ge in E. pose proof (len_nonneg sz) as H0.
  assert (Hp : 16 ^ len sz <= 16 ^ 16) by (apply Z.pow_le_mono_r; lia).
  pose proof (size_digits_fit sz 0 ltac:(lia) ltac:(change (2 ^ 64) with (16 ^ 16); lia)) as Hf.
  destruct (fold_result size_digit 0 sz) as [s|e] eqn:Ef; [|congruence].
  destruct (position _ line); [|done].
  destruct (validate_chunk_extensions _ _) eqn:Ee; [done|]. intros [= ->]. by eapply extensions_fit.
Qed.

(** * The wire counter *)

Lemma byte_step_wire d b d' o : byte_step d b = Ok (d', o) -> wire_bytes d' = wire_bytes d + 1.
Proof.
  unfold byte_step. destruct (charge_wire (wire_bytes d) 1) as [w|] eqn:Ew; [|done].
  apply charge_wire_Ok in Ew as [-> _]. simpl. destruct (cstate d).
  - unfold size_line_byte. repeat destr_match; intros; by simplify_eq/=.
  - intros [= <- _]. done.
  - unfold crlf_byte. repeat destr_match; intros; by simplify_eq/=.
  - unfold trailer_line_byte. repeat destr_match; intros; by simplify_eq/=.
  - intros [= <- _]. done.
Qed.

Lemma decode_bytes_wire input : forall d d' n out, decode_bytes d input = Ok (d', n, out) ->
  wire_bytes d' = wire_bytes d + Z.of_nat n.
Proof.
  induction input as [|b rest IH]; intros d d' n out; cbn [decode_bytes]; [by intros [= <- <- _]; lia|].
  destruct (is_complete d); [by intros [= <- <- _]; lia|].
  destruct (byte_step d b) as [[d1 o]|] eqn:Es; [|done]. apply byte_step_wire in Es.
  destruct (decode_bytes d1 rest) as [[[d2 k] out2]|] eqn:Ed; [|done]. apply IH in Ed.
  intros [= <- <- _]. lia.
Qed.

(** * Claims *)

(** A call of the chunked decoder always returns, and its bulk copies give
    exactly the state, the consumed count, the decoded bytes or the error of
    the decoder that reads one byte at a time. *)
Theorem framing_bytewise (d : HttpChunkedDecoder) (input : bytes) (H : wf_decoder d) :
  HttpChunkedDecoder_push d input =
  Some (let* (d', n, out) := decode_bytes d input in
        Ok (d', {| consumed := n; complete := is_complete d' |}, out)).
Proof. by apply push_is_decode. Qed.

Lemma framing_bytewise_witness :
  HttpChunkedDecoder_push HttpChunkedDecoder_new (bs "3") =
  Some (let* (d', n, out) := decode_bytes HttpChunkedDecoder_new (bs "3") in
        Ok (d', {| consumed := n; complete := is_complete d' |}, out)).
Proof. apply framing_bytewise. apply new_wf. Defined.

(** The way the transport cuts a chunked body into pieces does not change
    the state reached, the bytes consumed, the bytes delivered or the error. *)
Theorem framing_fragmentation (pieces pieces' : list bytes) (H : concat pieces = concat pieces') :
  push_pieces HttpChunkedDecoder_new pieces = push_pieces HttpChunkedDecoder_new pieces' /\
  push_pieces HttpChunkedDecoder_new pieces <> None.
Proof. rewrite !push_pieces_decode, H by apply new_wf. done. Qed.

Lemma framing_fragmentation_witness :
  push_pieces HttpChunkedDecoder_new [bs "3"; CR :: LF :: bs "a"; bs "bc"]
  = push_pieces HttpChunkedDecoder_new [bs "3" ++ [CR]; LF :: bs "abc"] /\
  push_pieces HttpChunkedDecoder_new [bs "3"; CR :: LF :: bs "a"; bs "bc"] <> None.
Proof. apply framing_fragmentation. reflexivity. Defined.

(** C18: A chunked message within the limits, whose size lines are the payload
    sizes in 1 to 16 hexadecimal digits of either case, leading zeros allowed,
    with any chunk extensions, and whose trailers are field lines, decodes to the
    concatenated payloads however it is cut into pieces, completes, and leaves
    the bytes after it (a pipelined request) unconsumed. *)
Theorem framing_roundtrip (chunks : list HttpChunk) (final : bytes) (lines : list bytes)
    (rest : bytes) (pieces : list bytes)
    (H : admissible_http chunks final lines)
    (Hp : concat pieces = encode_http chunks final lines ++ rest) :
  exists d, push_pieces HttpChunkedDecoder_new pieces
            = Some (Ok (d, length (encode_http chunks final lines), concat (map payload chunks)))
            /\ is_complete d = true.
Proof.
  destruct H as (H1 & H2 & H3 & H4 & H5 & H6 & H7). rewrite push_pieces_decode, Hp, decode_bytes_app by apply new_wf.
  unfold encode_http in *. rewrite decode_bytes_app. rewrite !len_app in H7. rewrite len_app in H6.
  pose proof (len_nonneg (concat (map encode_chunk chunks))). pose proof (len_nonneg (final ++ crlf)) as Hf0.
  rewrite len_app in Hf0. pose proof (len_nonneg (concat (map encode_trailer lines))).
  pose proof (len_nonneg (concat (map payload chunks))).
  change (len crlf) with 2 in *. unfold HttpChunkedDecoder_new.
  rewrite decode_chunks by (done || lia). rewrite decode_bytes_app, Z.add_0_l.
  rewrite (decode_size_line final 0) by (done || lia || (rewrite len_app; change (len crlf) with 2; lia)).
  cbn [Z.eqb].
  assert (H3' : Forall (fun l => l <> [] /\ validate_trailer_line l = Ok tt /\ (CR ∉ l) /\ (LF ∉ l) /\
                          len l < MAX_TRAILER_LINE_BYTES) lines).
  { eapply Forall_impl; [exact H3|]. intros l (Hl & ? & ? & ?). by destruct (trailer_text_valid l Hl). }
  edestruct (decode_trailers lines) as (d & Hd & Hc); [exact H3'|..|rewrite Hd];
    rewrite ?len_app; change (len crlf) with 2; try lia.
  exists d. rewrite !length_app in *. split; [|done].
  assert (Hr : decode_bytes d rest = Ok (d, 0%nat, [])) by (destruct rest; simpl; [done|by rewrite Hc]).
  rewrite Hr, !app_nil_r. by rewrite Nat.add_0_r.
Qed.

Definition sample_chunks : list HttpChunk :=
  [{| size_line := bs "3;name=v"; payload := bs "abc" |}; {| size_line := bs "0A"; payload := bs "0123456789" |}].

Lemma sample_http_admissible : admissible_http sample_chunks (bs "0") [bs "x-trailer: v"].
Proof.
  assert (Hsize : forall hex exts n values, (1 <= length hex <= 16)%nat -> Forall2 hex_of hex values ->
    foldl (fun acc v => 16 * acc + v) 0 values = n -> Forall extension exts ->
    contains CR (hex ++ concat exts) = false -> contains LF (hex ++ concat exts) = false ->
    len (hex ++ concat exts) < MAX_CHUNK_LINE_BYTES -> size_text (hex ++ concat exts) n).
  { intros hex exts n values Hl Hf <- He Hc%contains_false Hlf%contains_false Hlen. split_and!; try done.
    exists hex, exts. split_and!; try done. split; [done|]. by exists values. }
  assert (Htoken : forall l, l <> [] -> forallb is_tchar l = true -> token l).
  { intros l Hl Ht%forallb_Forall_true. split; [done|]. eapply Forall_impl; [exact Ht|]. intros b. apply token_char_tchar. }
  assert (Hhex : forall text values, map hex_digit text = map Some values -> Forall2 hex_of text values).
  { induction text as [|b text IH]; intros [|v values] E; try done. injection E as E1 E2.
    constructor; [by apply hex_of_digit|by apply IH]. }
  unfold admissible_http, sample_chunks.
  split; [apply Forall_cons; split; [split; [done|]|apply Forall_cons; split; [split; [done|]|done]]|];
    cbn [size_line payload].
  - apply (Hsize (bs "3") [bs ";name=v"] 3 [3]); try done; [simpl; lia|by apply Hhex|]. constructor; [|done].
    apply (ext_token [] (bs "name") [] [] (bs "v") []); try (by apply Forall_nil_2); by apply Htoken.
  - apply (Hsize (bs "0A") [] 10 [0; 10]); try done; [simpl; lia|by apply Hhex].
  - split; [apply (Hsize (bs "0") [] 0 [0]); try done; [simpl; lia|by apply Hhex]|].
    split; [|vm_compute; split_and!; discriminate]. constructor; [|done].
    split_and!; [|by apply contains_false..|done]. exists (bs "x-trailer"), (bs " v"). split_and!; [done|by apply Htoken|].
    apply Forall_forall. intros b Hb. right.
    assert (Hbs : forallb (fun b => (32 <=? bval b) && negb (bval b =? 127)) (bs " v") = true) by done.
    apply (forallb_elem _ _ _ Hbs) in Hb. apply andb_true_iff in Hb as [H1%Z.leb_le H2%negb_true_iff%Z.eqb_neq]. done.
Qed.

Lemma framing_roundtrip_witness :
  exists d, push_pieces HttpChunkedDecoder_new
              [encode_http sample_chunks (bs "0") [bs "x-trailer: v"]; bs "GET / HTTP/1.1"]
            = Some (Ok (d, 50%nat, bs "abc0123456789")) /\ is_complete d = true.
Proof.
  apply (framing_roundtrip sample_chunks (bs "0") [bs "x-trailer: v"] (bs "GET / HTTP/1.1")).
  - apply sample_http_admissible.
  - reflexivity.
Defined.

(** Whatever the input, a decoder that has not failed has delivered at most
    5 GiB, has consumed at most 256 MiB more than that, counts exactly what it
    consumed, holds at most one line within its limit and has accepted at
    most 100 trailers of 64 KiB; it has consumed all input unless the body is
    complete. *)
Theorem framing_bounds (pieces : list bytes) (d : HttpChunkedDecoder) (n : nat) (out : bytes)
    (H : push_pieces HttpChunkedDecoder_new pieces = Some (Ok (d, n, out))) :
  wf_decoder d /\ decoded_bytes d = len out /\ len out <= MAX_HTTP_BODY_BYTES /\
  wire_bytes d = Z.of_nat n /\ Z.of_nat n <= MAX_HTTP_WIRE_BYTES /\
  (n = length (concat pieces) \/ is_complete d = true).
Proof.
  rewrite push_pieces_decode in H by apply new_wf. injection H as H.
  destruct (decode_bytes_wf _ _ _ _ _ new_wf H) as (Hw & E & _ & Ho). apply decode_bytes_wire in H.
  pose proof Hw as (W1 & W2 & _). simpl in *. split_and!; try done; lia.
Qed.

Lemma framing_bounds_witness :
  exists d, wf_decoder d /\ decoded_bytes d = len (bs "ab") /\ len (bs "ab") <= MAX_HTTP_BODY_BYTES /\
    wire_bytes d = Z.of_nat 5 /\ Z.of_nat 5 <= MAX_HTTP_WIRE_BYTES /\
    (5%nat = length (concat [bs "3" ++ crlf; bs "ab"]) \/ is_complete d = true).
Proof. eexists. apply (framing_bounds [bs "3" ++ crlf; bs "ab"]). vm_compute. reflexivity. Defined.

(** A request with a Content-Length is refused when it exceeds 5 GiB, and
    otherwise its body is exactly the declared number of bytes in order,
    however they are cut: nothing beyond is consumed, and the body is complete
    exactly when they have all arrived. *)
Theorem content_length_exact (head : RequestHead) (n : Z) (pieces : list bytes)
    (Hc : transfer_chunked head = false) (Hn : content_length head = Some n) (H0 : 0 <= n) :
  (MAX_HTTP_BODY_BYTES < n /\ BodyFraming_from_head head = Err EntityTooLarge) \/
  (n <= MAX_HTTP_BODY_BYTES /\
   exists f f', BodyFraming_from_head head = Ok f /\
     framing_pieces f pieces = Some (Ok (f', Nat.min (Z.to_nat n) (length (concat pieces)),
                                         take (Z.to_nat n) (concat pieces))) /\
     (BodyFraming_is_complete f' = true <-> n <= len (concat pieces))).
Proof.
  unfold BodyFraming_from_head. rewrite Hc, Hn. destruct (Z.ltb_spec MAX_HTTP_BODY_BYTES n); [by left|].
  right. split; [done|]. eexists _, _. split; [done|]. rewrite content_length_pieces by done.
  split; [do 3 f_equal; f_equal; unfold len; lia|]. simpl. rewrite Z.eqb_eq. lia.
Qed.

Definition sized_head (n : Z) : RequestHead :=
  {| method := bs "PUT"; target := {| raw_path := bs "/b/k"; raw_query := None; query := {| pairs := [] |} |};
     headers := {| fields := [] |}; content_length := Some n; transfer_chunked := false |}.

Lemma content_length_exact_witness :
  (MAX_HTTP_BODY_BYTES < 4 /\ BodyFraming_from_head (sized_head 4) = Err EntityTooLarge) \/
  (4 <= MAX_HTTP_BODY_BYTES /\
   exists f f', BodyFraming_from_head (sized_head 4) = Ok f /\
     framing_pieces f [bs "ab"; bs "cdGET"]
     = Some (Ok (f', Nat.min (Z.to_nat 4) (length (concat [bs "ab"; bs "cdGET"])),
                 take (Z.to_nat 4) (concat [bs "ab"; bs "cdGET"]))) /\
     (BodyFraming_is_complete f' = true <-> 4 <= len (concat [bs "ab"; bs "cdGET"]))).
Proof. apply content_length_exact; [reflexivity | reflexivity | lia]. Defined.

(** Sixteen hexadecimal digits are the most a size line may have, so the
    64-bit accumulator never overflows, and the loop over the extensions ends
    within as many rounds as the line has bytes: more fuel changes nothing. *)
Theorem chunk_size_line_total (line : bytes) (k : nat) :
  parse_chunk_size_line line <> Err EntityTooLarge /\
  (forall start, validate_chunk_extensions (length line) (drop start line)
                 = validate_chunk_extensions (length line + k) (drop start line)).
Proof.
  split; [apply chunk_size_fits|]. intros start. apply validate_chunk_extensions_fuel; rewrite length_drop; lia.
Qed.
