(* ===== verification/XmlWrite.v ===== *)
(** XML responses, from [src/src/protocol/xml.rs]: the [XmlWriter] and the
    serializers of the errors and of the bucket, copy, multipart and delete
    results.  What is written is related to the tokens a reader sees: a
    reference scanner that splits a document into tags and text and resolves
    the predefined entities reads back exactly the elements and the values
    that were written, whatever bytes a key, a message or an owner holds. *)
From S2P Require Import Prelude Text.

(** * The writer *)

Definition QUOTE : byte := x22.

Definition S3_XMLNS : bytes := bs "http://s3.amazonaws.com/doc/2006-03-01/".

Definition xml_declaration : bytes :=
  bs "<?xml version=" ++ [QUOTE] ++ bs "1.0" ++ [QUOTE] ++ bs " encoding=" ++ [QUOTE] ++ bs "UTF-8"
  ++ [QUOTE] ++ bs "?>".

Record XmlWriter := { xml_bytes : bytes }.

Definition extend_from_slice (b : bytes) (w : XmlWriter) : XmlWriter := {| xml_bytes := xml_bytes w ++ b |}.

(** One character of [escaped]; the bytes of a multi-byte character are all
    above 127 and are copied. *)
Definition escape_byte (b : byte) : bytes :=
  if b ==b x26 then bs "&amp;"
  else if b ==b x3c then bs "&lt;"
  else if b ==b x3e then bs "&gt;"
  else if b ==b x22 then bs "&quot;"
  else if b ==b x27 then bs "&apos;"
  else [b].

Definition escape (value : bytes) : bytes := concat (map escape_byte value).

Definition escaped (value : bytes) (w : XmlWriter) : XmlWriter := extend_from_slice (escape value) w.

Definition start (name : bytes) (w : XmlWriter) : XmlWriter :=
  extend_from_slice (bs "<" ++ name ++ bs ">") w.

Definition end_ (name : bytes) (w : XmlWriter) : XmlWriter :=
  extend_from_slice (bs "</" ++ name ++ bs ">") w.

Definition text (value : bytes) (w : XmlWriter) : XmlWriter := escaped value w.

Definition element (name value : bytes) (w : XmlWriter) : XmlWriter :=
  end_ name (escaped value (start name w)).

Definition document (root : bytes) : XmlWriter := start root {| xml_bytes := xml_declaration |}.

Definition document_ns (root : bytes) : XmlWriter :=
  let w := {| xml_bytes := xml_declaration |} in
  let w := extend_from_slice (bs "<") w in
  let w := extend_from_slice root w in
  let w := extend_from_slice (bs " xmlns=" ++ [QUOTE]) w in
  let w := escaped S3_XMLNS w in
  extend_from_slice (QUOTE :: bs ">") w.

Definition finish (root : bytes) (w : XmlWriter) : bytes := xml_bytes (end_ root w).

(** [if let Some(value) = value { xml.element(name, value) }] *)
Definition optional_element (name : bytes) (value : option bytes) (w : XmlWriter) : XmlWriter :=
  match value with Some v => element name v w | None => w end.

(** * The serializers *)

Record S3ErrorResponse := {
  err_code : bytes;
  err_message : bytes;
  err_resource : option bytes;
  err_request_id : bytes;
  err_host_id : option bytes
}.

Definition serialize_error (error : S3ErrorResponse) : bytes :=
  let xml := document (bs "Error") in
  let xml := element (bs "Code") (err_code error) xml in
  let xml := element (bs "Message") (err_message error) xml in
  let xml := optional_element (bs "Resource") (err_resource error) xml in
  let xml := element (bs "RequestId") (err_request_id error) xml in
  let xml := optional_element (bs "HostId") (err_host_id error) xml in
  finish (bs "Error") xml.

Record BucketDescription := { desc_name : bytes; desc_creation_date : bytes }.

Definition write_bucket (xml : XmlWriter) (bucket : BucketDescription) : XmlWriter :=
  let xml := start (bs "Bucket") xml in
  let xml := element (bs "Name") (desc_name bucket) xml in
  let xml := element (bs "CreationDate") (desc_creation_date bucket) xml in
  end_ (bs "Bucket") xml.

Definition serialize_list_buckets (owner_id owner_display_name : bytes)
    (buckets : list BucketDescription) : bytes :=
  let xml := document_ns (bs "ListAllMyBucketsResult") in
  let xml := start (bs "Owner") xml in
  let xml := element (bs "ID") owner_id xml in
  let xml := element (bs "DisplayName") owner_display_name xml in
  let xml := end_ (bs "Owner") xml in
  let xml := start (bs "Buckets") xml in
  let xml := foldl write_bucket xml buckets in
  let xml := end_ (bs "Buckets") xml in
  finish (bs "ListAllMyBucketsResult") xml.

Definition serialize_bucket_location (region : option bytes) : bytes :=
  let xml := document_ns (bs "LocationConstraint") in
  let xml := match region with Some region => text region xml | None => xml end in
  finish (bs "LocationConstraint") xml.

Definition serialize_versioning_enabled : bytes :=
  let xml := document_ns (bs "VersioningConfiguration") in
  let xml := element (bs "Status") (bs "Enabled") xml in
  finish (bs "VersioningConfiguration") xml.

Definition serialize_initiate_multipart (bucket key upload_id : bytes)
    (checksum_algorithm checksum_type : option bytes) : bytes :=
  let xml := document_ns (bs "InitiateMultipartUploadResult") in
  let xml := element (bs "Bucket") bucket xml in
  let xml := element (bs "Key") key xml in
  let xml := element (bs "UploadId") upload_id xml in
  let xml := optional_element (bs "ChecksumAlgorithm") checksum_algorithm xml in
  let xml := optional_element (bs "ChecksumType") checksum_type xml in
  finish (bs "InitiateMultipartUploadResult") xml.

Definition serialize_complete_multipart (location bucket key etag : bytes)
    (checksum_sha256 checksum_type : option bytes) : bytes :=
  let xml := document_ns (bs "CompleteMultipartUploadResult") in
  let xml := element (bs "Location") location xml in
  let xml := element (bs "Bucket") bucket xml in
  let xml := element (bs "Key") key xml in
  let xml := element (bs "ETag") etag xml in
  let xml := optional_element (bs "ChecksumSHA256") checksum_sha256 xml in
  let xml := optional_element (bs "ChecksumType") checksum_type xml in
  finish (bs "CompleteMultipartUploadResult") xml.

Definition serialize_copy_result (last_modified etag : bytes) (checksum_sha256 : option bytes) : bytes :=
  let xml := document (bs "CopyObjectResult") in
  let xml := element (bs "LastModified") last_modified xml in
  let xml := element (bs "ETag") etag xml in
  let xml := optional_element (bs "ChecksumSHA256") checksum_sha256 xml in
  finish (bs "CopyObjectResult") xml.

Record DeletedObject := {
  del_key : bytes;
  del_version_id : option bytes;
  delete_marker : bool;
  delete_marker_version_id : option bytes
}.

Record DeleteObjectError := {
  fail_key : bytes;
  fail_version_id : option bytes;
  fail_code : bytes;
  fail_message : bytes
}.

Definition write_deleted (xml : XmlWriter) (item : DeletedObject) : XmlWriter :=
  let xml := start (bs "Deleted") xml in
  let xml := element (bs "Key") (del_key item) xml in
  let xml := optional_element (bs "VersionId") (del_version_id item) xml in
  let xml := if delete_marker item then element (bs "DeleteMarker") (bs "true") xml else xml in
  let xml := optional_element (bs "DeleteMarkerVersionId") (delete_marker_version_id item) xml in
  end_ (bs "Deleted") xml.

Definition write_delete_error (xml : XmlWriter) (item : DeleteObjectError) : XmlWriter :=
  let xml := start (bs "Error") xml in
  let xml := element (bs "Key") (fail_key item) xml in
  let xml := optional_element (bs "VersionId") (fail_version_id item) xml in
  let xml := element (bs "Code") (fail_code item) xml in
  let xml := element (bs "Message") (fail_message item) xml in
  end_ (bs "Error") xml.

Definition serialize_delete_result (deleted : list DeletedObject) (errors : list DeleteObjectError) : bytes :=
  let xml := document_ns (bs "DeleteResult") in
  let xml := foldl write_deleted xml deleted in
  let xml := foldl write_delete_error xml errors in
  finish (bs "DeleteResult") xml.

(** * The reference scanner *)

Inductive token :=
| TDecl
| TOpen (name attributes : bytes)
| TClose (name : bytes)
| TText (value : bytes).

(** The predefined entities of XML 1.0. *)
Definition predefined (name : bytes) : option byte :=
  if name ==b bs "amp" then Some x26
  else if name ==b bs "lt" then Some x3c
  else if name ==b bs "gt" then Some x3e
  else if name ==b bs "quot" then Some x22
  else if name ==b bs "apos" then Some x27
  else None.

(** Text with its references resolved; [entity] holds the name read since an
    ampersand. *)
Fixpoint unescape (entity : option bytes) (l : bytes) : option bytes :=
  match l, entity with
  | [], None => Some []
  | [], Some _ => None
  | b :: l, None =>
      if b ==b x26 then unescape (Some []) l
      else option_map (cons b) (unescape None l)
  | b :: l, Some name =>
      if b ==b x3b then
        match predefined name with
        | Some c => option_map (cons c) (unescape None l)
        | None => None
        end
      else unescape (Some (name ++ [b])) l
  end.

Definition tag_token (tag : bytes) : token :=
  match tag with
  | x3f :: _ => TDecl
  | x2f :: name => TClose name
  | _ => match split_once x20 tag with
         | Some (name, attributes) => TOpen name attributes
         | None => TOpen tag []
         end
  end.

(** The tokens of the rest of a document, after the text or, inside a tag,
    the tag bytes already read. *)
Fixpoint scan (in_tag : bool) (acc : bytes) (l : bytes) : option (list token) :=
  let flushed (k : option (list token)) :=
    if is_empty acc then k
    else match unescape None acc, k with
         | Some t, Some ts => Some (TText t :: ts)
         | _, _ => None
         end in
  match l, in_tag with
  | [], true => None
  | [], false => flushed (Some [])
  | b :: l, true =>
      if b ==b x3e then option_map (cons (tag_token acc)) (scan false [] l)
      else scan true (acc ++ [b]) l
  | b :: l, false =>
      if b ==b x3c then flushed (scan true [] l) else scan false (acc ++ [b]) l
  end.

(** What a reader of a document sees. *)
Definition tokens (doc : bytes) : option (list token) := scan false [] doc.

Definition text_tokens (value : bytes) : list token := if is_empty value then [] else [TText value].

Definition leaf (name value : bytes) : list token := TOpen name [] :: text_tokens value ++ [TClose name].

Definition optional_leaf (name : bytes) (value : option bytes) : list token :=
  match value with Some v => leaf name v | None => [] end.

Definition branch (name : bytes) (inner : list token) : list token :=
  TOpen name [] :: inner ++ [TClose name].

Definition xmlns : bytes := bs "xmlns=" ++ [QUOTE] ++ S3_XMLNS ++ [QUOTE].

(** A document with the S3 name space on its root. *)
Definition namespaced (root : bytes) (inner : list token) : list token :=
  TDecl :: TOpen root xmlns :: inner ++ [TClose root].

Definition plain_document (root : bytes) (inner : list token) : list token :=
  TDecl :: branch root inner.

(** * Lemmas: reading back what is written *)

(** [b] reads as [ts], wherever it stands between tags. *)
Definition produces (b : bytes) (ts : list token) : Prop :=
  forall rest, scan false [] (b ++ rest) = option_map (app ts) (scan false [] rest).

(** [w'] continues [w] with a text that reads as [ts]. *)
Definition writes (w w' : XmlWriter) (ts : list token) : Prop :=
  exists b, xml_bytes w' = xml_bytes w ++ b /\ produces b ts.

Definition plain_name (name : bytes) : bool := forallb is_ascii_alphanumeric name.

Lemma option_map_app {A} (a b : list A) o : option_map (app (a ++ b)) o = option_map (app a) (option_map (app b) o).
Proof. destruct o; simpl; [|done]. by rewrite app_assoc. Qed.

Lemma produces_app a b ts us : produces a ts -> produces b us -> produces (a ++ b) (ts ++ us).
Proof. intros Ha Hb rest. by rewrite <- app_assoc, Ha, Hb, option_map_app. Qed.

Lemma produces_nil : produces [] [].
Proof. intros rest. simpl. by destruct (scan false [] rest). Qed.

Lemma escape_cons b v : escape (b :: v) = escape_byte b ++ escape v.
Proof. done. Qed.

Lemma unescape_escape_byte b l : unescape None (escape_byte b ++ l) = option_map (cons b) (unescape None l).
Proof.
  unfold escape_byte. repeat case_bool_decide; subst; try done. simpl. by rewrite bool_decide_false.
Qed.

(** Escaping loses nothing. *)
Lemma unescape_escape v : unescape None (escape v) = Some v.
Proof.
  induction v as [|b v IH]; [done|]. by rewrite escape_cons, unescape_escape_byte, IH.
Qed.

(** Escaped text holds no markup and no quote. *)
Lemma escape_no_markup v b : b ∈ escape v -> b <> x3c /\ b <> x3e /\ b <> x22 /\ b <> x27.
Proof.
  induction v as [|c v IH]; [by intros ?%elem_of_nil|]. rewrite escape_cons, elem_of_app.
  intros [H|H]; [|by apply IH]. revert H. unfold escape_byte. repeat case_bool_decide; subst.
  1-5: intros Hin; repeat (apply elem_of_cons in Hin as [->|Hin]; [done|]); by apply elem_of_nil in Hin.
  intros ->%list_elem_of_singleton. done.
Qed.

Lemma scan_text l : forall acc rest, x3c ∉ l -> scan false acc (l ++ rest) = scan false (acc ++ l) rest.
Proof.
  induction l as [|b l IH]; intros acc rest H; [by rewrite app_nil_r|].
  apply not_elem_of_cons in H as [Hb H]. simpl. rewrite bool_decide_false by done.
  by rewrite IH, <- app_assoc.
Qed.

Lemma scan_tag l : forall acc rest, x3e ∉ l -> scan true acc (l ++ rest) = scan true (acc ++ l) rest.
Proof.
  induction l as [|b l IH]; intros acc rest H; [by rewrite app_nil_r|].
  apply not_elem_of_cons in H as [Hb H]. simpl. rewrite bool_decide_false by done.
  by rewrite IH, <- app_assoc.
Qed.

Lemma produces_tag tag : x3e ∉ tag -> produces (bs "<" ++ tag ++ bs ">") [tag_token tag].
Proof.
  intros H rest. rewrite <- !app_assoc. simpl. rewrite scan_tag by done. simpl.
  by destruct (scan false [] rest).
Qed.

Lemma alphanumeric_plain b : is_ascii_alphanumeric b = true ->
  b <> x3e /\ b <> x3f /\ b <> x2f /\ b <> x20 /\ b <> x3c.
Proof. intros H. split_and!; intros ->; done. Qed.

Lemma plain_name_not name b : plain_name name = true -> is_ascii_alphanumeric b = false -> b ∉ name.
Proof.
  unfold plain_name. rewrite forallb_forall. intros H Hb Hin. apply list_elem_of_In in Hin. rewrite H in Hb; done.
Qed.

Lemma open_token name : plain_name name = true -> tag_token name = TOpen name [].
Proof.
  intros H. unfold tag_token. rewrite (proj2 (split_once_None x20 name)) by (by apply plain_name_not).
  destruct name as [|b name]; [done|]. simpl in H. apply andb_prop in H as [H _].
  destruct b; try done.
Qed.

Lemma close_produces name : plain_name name = true -> produces (bs "</" ++ name ++ bs ">") [TClose name].
Proof.
  intros H. change (bs "</" ++ name ++ bs ">") with (bs "<" ++ (x2f :: name) ++ bs ">").
  apply (produces_tag (x2f :: name)). apply not_elem_of_cons. split; [done|]. by apply plain_name_not.
Qed.

Lemma open_produces name : plain_name name = true -> produces (bs "<" ++ name ++ bs ">") [TOpen name []].
Proof. intros H. rewrite <- (open_token name H). apply produces_tag. by apply plain_name_not. Qed.

(** Text before a closing tag. *)
Lemma text_close_produces name v : plain_name name = true ->
  produces (escape v ++ bs "</" ++ name ++ bs ">") (text_tokens v ++ [TClose name]).
Proof.
  intros H rest. rewrite <- app_assoc, scan_text by (intros Hin; by apply escape_no_markup in Hin as [? _]).
  simpl ([] ++ _). pose proof (close_produces name H rest) as Hc.
  destruct v as [|b v].
  - unfold text_tokens. simpl is_empty. cbn iota. rewrite app_nil_l. exact Hc.
  - assert (Hne : is_empty (escape (b :: v)) = false).
    { rewrite escape_cons. unfold escape_byte. by repeat case_bool_decide. }
    assert (Hs : forall k l, scan false k (x3c :: l) =
      if is_empty k then scan true [] l
      else match unescape None k, scan true [] l with Some t, Some ts => Some (TText t :: ts) | _, _ => None end)
      by done.
    change ((bs "</" ++ name ++ bs ">") ++ rest) with (x3c :: (x2f :: name ++ bs ">") ++ rest) in *.
    rewrite Hs in Hc |- *. rewrite Hne, unescape_escape. simpl is_empty in Hc. cbn iota in Hc. rewrite Hc.
    by destruct (scan false [] rest).
Qed.

Lemma writes_refl w : writes w w [].
Proof. exists []. rewrite app_nil_r. split; [done|apply produces_nil]. Qed.

Lemma writes_trans w1 w2 w3 ts us : writes w1 w2 ts -> writes w2 w3 us -> writes w1 w3 (ts ++ us).
Proof.
  intros (a & E1 & Pa) (b & E2 & Pb). exists (a ++ b). split; [by rewrite E2, E1, app_assoc|].
  by apply produces_app.
Qed.

Lemma writes_start w name : plain_name name = true -> writes w (start name w) [TOpen name []].
Proof. intros H. eexists. split; [done|by apply open_produces]. Qed.

Lemma writes_end w name : plain_name name = true -> writes w (end_ name w) [TClose name].
Proof. intros H. eexists. split; [done|by apply close_produces]. Qed.

Lemma writes_element w name v : plain_name name = true -> writes w (element name v w) (leaf name v).
Proof.
  intros H. exists ((bs "<" ++ name ++ bs ">") ++ escape v ++ bs "</" ++ name ++ bs ">"). split.
  - unfold element, end_, escaped, start, extend_from_slice. cbn [xml_bytes]. by rewrite <- !app_assoc.
  - apply (produces_app _ _ [TOpen name []]); [by apply open_produces|by apply text_close_produces].
Qed.

Lemma writes_optional w name v : plain_name name = true ->
  writes w (optional_element name v w) (optional_leaf name v).
Proof. intros H. destruct v; [by apply writes_element|apply writes_refl]. Qed.

Lemma writes_fold {A} (f : XmlWriter -> A -> XmlWriter) (ts : A -> list token) l :
  (forall w a, writes w (f w a) (ts a)) -> forall w, writes w (foldl f w l) (concat (map ts l)).
Proof.
  intros H. induction l as [|a l IH]; intros w; [apply writes_refl|]. simpl.
  eapply writes_trans; [apply H|apply IH].
Qed.

Lemma tokens_of w ts : writes {| xml_bytes := [] |} w ts -> tokens (xml_bytes w) = Some ts.
Proof.
  intros (b & -> & P). unfold tokens. simpl. rewrite <- (app_nil_r b), P. simpl. by rewrite app_nil_r.
Qed.

Lemma declaration_produces : produces xml_declaration [TDecl].
Proof.
  replace xml_declaration with (bs "<" ++ drop 1 (take 37 xml_declaration) ++ bs ">") by reflexivity.
  apply (produces_tag (drop 1 (take 37 xml_declaration))).
  apply (bool_decide_unpack (x3e ∉ drop 1 (take 37 xml_declaration))). by vm_compute.
Qed.

Lemma declaration_writes : writes {| xml_bytes := [] |} {| xml_bytes := xml_declaration |} [TDecl].
Proof. exists xml_declaration. split; [done|apply declaration_produces]. Qed.

Lemma document_writes root : plain_name root = true ->
  writes {| xml_bytes := [] |} (document root) [TDecl; TOpen root []].
Proof. intros H. apply (writes_trans _ _ _ [TDecl] _ declaration_writes). by apply writes_start. Qed.

Lemma document_ns_bytes root : xml_bytes (document_ns root)
  = xml_declaration ++ bs "<" ++ (root ++ x20 :: xmlns) ++ bs ">".
Proof. unfold document_ns, escaped, extend_from_slice. cbn [xml_bytes]. by rewrite <- !app_assoc. Qed.

Lemma document_ns_writes root : plain_name root = true ->
  writes {| xml_bytes := [] |} (document_ns root) [TDecl; TOpen root xmlns].
Proof.
  intros H. exists (xml_bytes (document_ns root)). split; [done|]. rewrite document_ns_bytes.
  apply (produces_app _ _ [TDecl]); [apply declaration_produces|].
  replace [TOpen root xmlns] with [tag_token (root ++ x20 :: xmlns)].
  - apply produces_tag. rewrite elem_of_app. intros [Hin|Hin]; [by eapply plain_name_not in Hin|].
    revert Hin. apply (bool_decide_unpack (x3e ∉ x20 :: xmlns)). by vm_compute.
  - unfold tag_token. rewrite (proj2 (split_once_Some x20 (root ++ x20 :: xmlns) root xmlns))
      by (split; [done|by apply plain_name_not]).
    destruct root as [|b root]; [done|]. simpl in H. apply andb_prop in H as [H _]. by destruct b.
Qed.

Lemma tokens_finish root w ts us : writes {| xml_bytes := [] |} (end_ root w) ts -> ts = us ->
  tokens (finish root w) = Some us.
Proof. intros H <-. by apply tokens_of. Qed.

(** Follows the calls on the writer, outermost first. *)
Ltac chain :=
  lazymatch goal with
  | |- writes ?w ?w _ => apply writes_refl
  | |- writes _ (document _) _ => apply document_writes; reflexivity
  | |- writes _ (document_ns _) _ => apply document_ns_writes; reflexivity
  | |- writes _ (end_ _ ?w) _ => eapply writes_trans; [|apply writes_end; reflexivity]; chain
  | |- writes _ (start _ ?w) _ => eapply writes_trans; [|apply writes_start; reflexivity]; chain
  | |- writes _ (element _ _ ?w) _ => eapply writes_trans; [|apply writes_element; reflexivity]; chain
  | |- writes _ (optional_element _ _ ?w) _ => eapply writes_trans; [|apply writes_optional; reflexivity]; chain
  | |- writes _ _ _ => eapply writes_trans; [|solve [eauto with pgs3_xml]]; chain
  end.

(** Reassociates the tokens and compares. *)
Ltac same_tokens :=
  unfold namespaced, plain_document, branch; repeat (progress (rewrite <- ?app_assoc; simpl)); reflexivity.

Create HintDb pgs3_xml.

Definition bucket_tokens (b : BucketDescription) : list token :=
  branch (bs "Bucket") (leaf (bs "Name") (desc_name b) ++ leaf (bs "CreationDate") (desc_creation_date b)).

Definition deleted_tokens (d : DeletedObject) : list token :=
  branch (bs "Deleted")
    (leaf (bs "Key") (del_key d) ++ optional_leaf (bs "VersionId") (del_version_id d)
     ++ (if delete_marker d then leaf (bs "DeleteMarker") (bs "true") else [])
     ++ optional_leaf (bs "DeleteMarkerVersionId") (delete_marker_version_id d)).

Definition delete_error_tokens (e : DeleteObjectError) : list token :=
  branch (bs "Error")
    (leaf (bs "Key") (fail_key e) ++ optional_leaf (bs "VersionId") (fail_version_id e)
     ++ leaf (bs "Code") (fail_code e) ++ leaf (bs "Message") (fail_message e)).

Lemma writes_eq w w' ts us : writes w w' ts -> ts = us -> writes w w' us.
Proof. by intros H <-. Qed.

Lemma writes_buckets w l : writes w (foldl write_bucket w l) (concat (map bucket_tokens l)).
Proof.
  apply writes_fold. intros w' b. unfold write_bucket. cbn zeta. eapply writes_eq; [chain|].
  unfold bucket_tokens. same_tokens.
Qed.

Lemma writes_marker w (b : bool) :
  writes w (if b then element (bs "DeleteMarker") (bs "true") w else w)
    (if b then leaf (bs "DeleteMarker") (bs "true") else []).
Proof. destruct b; [by apply writes_element|apply writes_refl]. Qed.

#[export] Hint Resolve writes_buckets writes_marker : pgs3_xml.

Lemma writes_deleted w l : writes w (foldl write_deleted w l) (concat (map deleted_tokens l)).
Proof.
  apply writes_fold. intros w' d. unfold write_deleted. cbn zeta. eapply writes_eq; [chain|].
  unfold deleted_tokens. same_tokens.
Qed.

Lemma writes_delete_errors w l :
  writes w (foldl write_delete_error w l) (concat (map delete_error_tokens l)).
Proof.
  apply writes_fold. intros w' d. unfold write_delete_error. cbn zeta. eapply writes_eq; [chain|].
  unfold delete_error_tokens. same_tokens.
Qed.

#[export] Hint Resolve writes_deleted writes_delete_errors : pgs3_xml.

(** * Claims *)

(** An error response is read back as exactly its code, message, resource,
    request id and host id: no value can add or alter an element. *)
Theorem error_document (e : S3ErrorResponse) :
  tokens (serialize_error e) =
  Some (plain_document (bs "Error")
    (leaf (bs "Code") (err_code e) ++ leaf (bs "Message") (err_message e)
     ++ optional_leaf (bs "Resource") (err_resource e) ++ leaf (bs "RequestId") (err_request_id e)
     ++ optional_leaf (bs "HostId") (err_host_id e))).
Proof. unfold serialize_error. cbn zeta. eapply tokens_finish; [chain|same_tokens]. Qed.

(** The bucket listing and the result of a batch delete are read back as
    one element per bucket, deleted object and failed object, in order, with
    the values the database returned. *)
Theorem batch_documents (owner display : bytes) (buckets : list BucketDescription)
    (deleted : list DeletedObject) (errors : list DeleteObjectError) :
  tokens (serialize_list_buckets owner display buckets) =
  Some (namespaced (bs "ListAllMyBucketsResult")
    (branch (bs "Owner") (leaf (bs "ID") owner ++ leaf (bs "DisplayName") display)
     ++ branch (bs "Buckets") (concat (map bucket_tokens buckets)))) /\
  tokens (serialize_delete_result deleted errors) =
  Some (namespaced (bs "DeleteResult")
    (concat (map deleted_tokens deleted) ++ concat (map delete_error_tokens errors))).
Proof.
  split.
  - unfold serialize_list_buckets. cbn zeta. eapply tokens_finish; [chain|same_tokens].
  - unfold serialize_delete_result. cbn zeta. eapply tokens_finish; [chain|same_tokens].
Qed.

(** The results of the single-object operations are read back as exactly
    the values written, an optional checksum appearing only when there is one. *)
Theorem object_documents (location bucket key upload_id etag modified : bytes)
    (algorithm kind checksum region : option bytes) :
  tokens (serialize_initiate_multipart bucket key upload_id algorithm kind) =
  Some (namespaced (bs "InitiateMultipartUploadResult")
    (leaf (bs "Bucket") bucket ++ leaf (bs "Key") key ++ leaf (bs "UploadId") upload_id
     ++ optional_leaf (bs "ChecksumAlgorithm") algorithm ++ optional_leaf (bs "ChecksumType") kind)) /\
  tokens (serialize_complete_multipart location bucket key etag checksum kind) =
  Some (namespaced (bs "CompleteMultipartUploadResult")
    (leaf (bs "Location") location ++ leaf (bs "Bucket") bucket ++ leaf (bs "Key") key ++ leaf (bs "ETag") etag
     ++ optional_leaf (bs "ChecksumSHA256") checksum ++ optional_leaf (bs "ChecksumType") kind)) /\
  tokens (serialize_copy_result modified etag checksum) =
  Some (plain_document (bs "CopyObjectResult")
    (leaf (bs "LastModified") modified ++ leaf (bs "ETag") etag
     ++ optional_leaf (bs "ChecksumSHA256") checksum)) /\
  tokens (serialize_bucket_location region) =
  Some (namespaced (bs "LocationConstraint") (text_tokens (default [] region))).
Proof.
  split_and!.
  - unfold serialize_initiate_multipart. cbn zeta. eapply tokens_finish; [chain|same_tokens].
  - unfold serialize_complete_multipart. cbn zeta. eapply tokens_finish; [chain|same_tokens].
  - unfold serialize_copy_result. cbn zeta. eapply tokens_finish; [chain|same_tokens].
  - unfold serialize_bucket_location. cbn zeta.
    eapply (tokens_finish _ _ ([TDecl; TOpen (bs "LocationConstraint") xmlns]
                               ++ text_tokens (default [] region) ++ [TClose (bs "LocationConstraint")]));
      [|same_tokens].
    eapply writes_trans; [apply document_ns_writes; reflexivity|].
    exists (escape (default [] region) ++ bs "</" ++ bs "LocationConstraint" ++ bs ">").
    split; [|by apply text_close_produces]. destruct region as [r|]; cbn [default]; [|done].
    unfold text, escaped, end_, extend_from_slice. cbn [xml_bytes]. by rewrite <- app_assoc.
Qed.
