(* ===== verification/Types.v ===== *)
(** Responses and errors of the S3 layer, from [src/src/s3/types.rs].  A
    request id is text made from the clock and a counter; the operations take
    it as an argument. *)
From S2P Require Import Prelude Text XmlWrite.

Record ServiceResponse := {
  status : Z;
  resp_headers : list (bytes * bytes);
  body : bytes
}.

Definition ServiceResponse_empty (status : Z) : ServiceResponse :=
  {| status := status; resp_headers := []; body := [] |}.

Definition ServiceResponse_xml (status : Z) (body : bytes) : ServiceResponse :=
  {| status := status; resp_headers := [(bs "content-type", bs "application/xml")]; body := body |}.

Definition header (r : ServiceResponse) (name value : bytes) : ServiceResponse :=
  {| status := status r; resp_headers := resp_headers r ++ [(name, value)]; body := body r |}.

(** A header of that name is present, in any letter case. *)
Definition has_header (name : bytes) (hs : list (bytes * bytes)) : bool :=
  existsb (fun h => eq_ignore_ascii_case h.1 name) hs.

Definition finalize (r : ServiceResponse) (request_id : bytes) (head_only : bool) : ServiceResponse :=
  let r := header r (bs "x-amz-request-id") request_id in
  let r := header r (bs "x-amz-id-2") request_id in
  let r := header r (bs "connection") (bs "keep-alive") in
  let body_len := len (body r) in
  let r := if has_header (bs "content-length") (resp_headers r) then r
           else header r (bs "content-length") (show_Z body_len) in
  if head_only then {| status := status r; resp_headers := resp_headers r; body := [] |} else r.

Record S3Error := { error_status : Z; code : bytes; message : bytes }.

Definition S3Error_new (status : Z) (code message : bytes) : S3Error :=
  {| error_status := status; code := code; message := message |}.

Definition invalid_request (message : bytes) : S3Error := S3Error_new 400 (bs "InvalidRequest") message.

Definition access_denied : S3Error := S3Error_new 403 (bs "AccessDenied") (bs "Access Denied").

Definition internal : S3Error :=
  S3Error_new 500 (bs "InternalError") (bs "We encountered an internal error").

Definition S3Error_response (e : S3Error) (resource request_id : bytes) : ServiceResponse :=
  ServiceResponse_xml (error_status e)
    (serialize_error {| err_code := code e; err_message := message e; err_resource := Some resource;
                        err_request_id := request_id; err_host_id := Some request_id |}).
