(* ===== verification/Route.v ===== *)
(** The S3 router, from [src/src/s3/route.rs]: [classify] maps a parsed request
    head to an operation with its parameters, or to the error to return.  The
    theorems show that every parameter of an accepted operation is in range,
    that reading methods reach only reading operations, that no query name is
    ignored where it could change the meaning of the request, and that the
    plain request for an operation is classified as that operation. *)
From S2P Require Import Prelude Text Http Canonical XmlWrite Types.

(** * Operations *)

Record ListParams := {
  prefix : bytes;
  delimiter : option bytes;
  marker : option bytes;
  start_after : option bytes;
  continuation_token : option bytes;
  requested_start_after : option bytes;
  requested_continuation_token : option bytes;
  list_max_keys : Z;
  encoding_type_url : bool
}.

Record VersionListParams := {
  v_prefix : bytes;
  v_delimiter : option bytes;
  key_marker : option bytes;
  version_id_marker : option Z;
  v_max_keys : Z;
  v_encoding_type_url : bool
}.

Record CopySource := { src_bucket : bytes; src_key : bytes; src_version_id : option Z }.

Record ListPartsParams := { part_number_marker : Z; max_parts : Z }.

Inductive Operation :=
| ListBuckets
| CreateBucket (bucket : bytes)
| DeleteBucket (bucket : bytes)
| HeadBucket (bucket : bytes)
| GetBucketLocation (bucket : bytes)
| GetBucketVersioning (bucket : bytes)
| ListObjectsV1 (bucket : bytes) (params : ListParams)
| ListObjectsV2 (bucket : bytes) (params : ListParams)
| ListObjectVersions (bucket : bytes) (params : VersionListParams)
| PutObject (bucket key : bytes)
| CopyObject (bucket key : bytes) (source : CopySource)
| RestoreObject (bucket key : bytes) (version_id : Z)
| GetObject (bucket key : bytes) (version_id : option Z)
| HeadObject (bucket key : bytes) (version_id : option Z)
| DeleteObject (bucket key : bytes) (version_id : option Z)
| DeleteObjects (bucket : bytes)
| CreateMultipartUpload (bucket key : bytes)
| UploadPart (bucket key upload_id : bytes) (part_number : Z)
| CompleteMultipartUpload (bucket key upload_id : bytes)
| AbortMultipartUpload (bucket key upload_id : bytes)
| ListParts (bucket key upload_id : bytes) (params : ListPartsParams).

Definition name (op : Operation) : bytes :=
  match op with
  | ListBuckets => bs "ListBuckets"
  | CreateBucket _ => bs "CreateBucket"
  | DeleteBucket _ => bs "DeleteBucket"
  | HeadBucket _ => bs "HeadBucket"
  | GetBucketLocation _ => bs "GetBucketLocation"
  | GetBucketVersioning _ => bs "GetBucketVersioning"
  | ListObjectsV1 _ _ => bs "ListObjects"
  | ListObjectsV2 _ _ => bs "ListObjectsV2"
  | ListObjectVersions _ _ => bs "ListObjectVersions"
  | PutObject _ _ => bs "PutObject"
  | CopyObject _ _ _ => bs "CopyObject"
  | RestoreObject _ _ _ => bs "RestoreObject"
  | GetObject _ _ _ => bs "GetObject"
  | HeadObject _ _ _ => bs "HeadObject"
  | DeleteObject _ _ _ => bs "DeleteObject"
  | DeleteObjects _ => bs "DeleteObjects"
  | CreateMultipartUpload _ _ => bs "CreateMultipartUpload"
  | UploadPart _ _ _ _ => bs "UploadPart"
  | CompleteMultipartUpload _ _ _ => bs "CompleteMultipartUpload"
  | AbortMultipartUpload _ _ _ => bs "AbortMultipartUpload"
  | ListParts _ _ _ _ => bs "ListParts"
  end.

Definition is_head (op : Operation) : bool :=
  match op with HeadBucket _ | HeadObject _ _ _ => true | _ => false end.

Definition streams_object_body (op : Operation) : bool :=
  match op with PutObject _ _ | UploadPart _ _ _ _ => true | _ => false end.

Definition requires_xml_body (op : Operation) : bool :=
  match op with DeleteObjects _ | CompleteMultipartUpload _ _ _ => true | _ => false end.

(** * Query parameters *)

Definition unsupported : S3Error :=
  S3Error_new 501 (bs "NotImplemented") (bs "The requested S3 operation is not implemented").

Definition invalid_argument (message : bytes) : S3Error := S3Error_new 400 (bs "InvalidArgument") message.

Definition duplicate_parameter (name : bytes) : S3Error :=
  invalid_request (bs "duplicate query parameter " ++ name).

(** [validate_query_names] *)
Definition validate_query_names (query : QueryParams) (allowed : list bytes) : result S3Error unit :=
  let* _ := traverse (fun pair =>
      let* name := ok_or (from_utf8 (param_name pair)) (invalid_request (bs "query name is not UTF-8")) in
      if existsb (fun a => a ==b name) allowed then Ok tt else Err unsupported) (pairs query) in
  Ok tt.

Definition has_flag (query : QueryParams) (name : bytes) : result S3Error bool :=
  let values := QueryParams_get_all query name in
  if 1 <? len values then Err (duplicate_parameter name) else Ok (len values =? 1).

Definition optional_one (query : QueryParams) (name : bytes) : result S3Error (option bytes) :=
  let values := QueryParams_get_all query name in
  if 1 <? len values then Err (duplicate_parameter name)
  else transpose_map
         (fun value => ok_or (from_utf8 value) (invalid_request (name ++ bs " is not UTF-8")))
         (head values).

Definition optional_i64 (query : QueryParams) (name : bytes) : result S3Error (option Z) :=
  let* value := optional_one query name in
  transpose_map
    (fun value =>
       ok_or (match parse_i64 value with
              | Some v => if 0 <? v then Some v else None
              | None => None
              end) (invalid_argument (name ++ bs " is invalid"))) value.

Definition optional_i32 (query : QueryParams) (name : bytes) : result S3Error (option Z) :=
  let* value := optional_one query name in
  transpose_map (fun value => ok_or (parse_i32 value) (invalid_argument (name ++ bs " is invalid"))) value.

(** The parameters of a presigned URL, spelled out in each list of the code. *)
Definition presign_names : list bytes :=
  [bs "X-Amz-Algorithm"; bs "X-Amz-Credential"; bs "X-Amz-Date"; bs "X-Amz-Expires";
   bs "X-Amz-SignedHeaders"; bs "X-Amz-Signature"; bs "X-Amz-Security-Token"].

Definition max_keys (query : QueryParams) : result S3Error Z :=
  let* value := optional_i32 query (bs "max-keys") in
  let value := default 1000 value in
  if negb (in_range 0 1000 value) then Err (invalid_argument (bs "max-keys must be 0..1000"))
  else Ok value.

Definition encoding_type (query : QueryParams) : result S3Error bool :=
  let* value := optional_one query (bs "encoding-type") in
  match value with
  | None => Ok false
  | Some v => if v ==b bs "url" then Ok true else Err (invalid_argument (bs "encoding-type must be url"))
  end.

Definition only_version_names : list bytes := bs "versionId" :: presign_names ++ [bs "x-id"].

Definition only_version_query (query : QueryParams) (operation_id : bytes) : result S3Error bool :=
  let* _ := validate_query_names query only_version_names in
  let* value := optional_one query (bs "x-id") in
  match value with
  | Some value => if negb (value ==b operation_id) then Err unsupported else Ok true
  | None => Ok true
  end.

Definition put_names : list bytes := presign_names ++ [bs "x-id"].

Definition valid_put_query (query : QueryParams) : result S3Error bool :=
  let* _ := validate_query_names query put_names in
  let* value := optional_one query (bs "x-id") in
  match value with
  | Some value => if negb (value ==b bs "PutObject") then Err unsupported else Ok true
  | None => Ok true
  end.

(** [Option::filter(|value| !value.is_empty())] *)
Definition non_empty (value : option bytes) : option bytes :=
  match value with Some v => if is_empty v then None else Some v | None => None end.

Definition list_names : list bytes :=
  [bs "list-type"; bs "prefix"; bs "delimiter"; bs "marker"; bs "start-after"; bs "continuation-token";
   bs "max-keys"; bs "encoding-type"; bs "fetch-owner"] ++ presign_names.

Definition parse_list (query : QueryParams) : result S3Error ListParams :=
  let* _ := validate_query_names query list_names in
  let* requested_start_after := optional_one query (bs "start-after") in
  let* requested_continuation_token := optional_one query (bs "continuation-token") in
  let continuation_token := non_empty requested_continuation_token in
  let start_after := match continuation_token with None => requested_start_after | Some _ => None end in
  let* prefix := optional_one query (bs "prefix") in
  let* delimiter := optional_one query (bs "delimiter") in
  let* marker := optional_one query (bs "marker") in
  let* max_keys := max_keys query in
  let* encoding_type_url := encoding_type query in
  Ok {| prefix := default [] prefix; delimiter := non_empty delimiter; marker := marker;
        start_after := start_after; continuation_token := continuation_token;
        requested_start_after := requested_start_after;
        requested_continuation_token := requested_continuation_token;
        list_max_keys := max_keys; encoding_type_url := encoding_type_url |}.

(** The byte test of [validate_multipart_upload_id] at an index. *)
Definition upload_id_byte (index : nat) (b : byte) : bool :=
  if existsb (Nat.eqb index) [8%nat; 13%nat; 18%nat; 23%nat] then b ==b x2d else is_ascii_hexdigit b.

Fixpoint all_indexed {A} (p : nat -> A -> bool) (index : nat) (l : list A) : bool :=
  match l with [] => true | a :: l' => p index a && all_indexed p (S index) l' end.

Definition valid_upload_id (upload_id : bytes) : bool :=
  (len upload_id =? 36) && all_indexed upload_id_byte 0 upload_id.

Definition no_such_upload : S3Error :=
  S3Error_new 404 (bs "NoSuchUpload") (bs "The specified upload does not exist").

Definition validate_multipart_upload_id (upload_id : bytes) : result S3Error unit :=
  if valid_upload_id upload_id then Ok tt else Err no_such_upload.

Definition version_list_names : list bytes :=
  [bs "versions"; bs "prefix"; bs "delimiter"; bs "key-marker"; bs "version-id-marker"; bs "max-keys";
   bs "encoding-type"] ++ presign_names.

Definition is_some {A} (o : option A) : bool := match o with Some _ => true | None => false end.

Definition parse_version_list (query : QueryParams) : result S3Error VersionListParams :=
  let* _ := validate_query_names query version_list_names in
  let* key_marker := optional_one query (bs "key-marker") in
  let* version_id_marker := optional_i64 query (bs "version-id-marker") in
  if is_some version_id_marker && negb (is_some key_marker)
  then Err (invalid_argument (bs "version-id-marker requires key-marker"))
  else
    let* prefix := optional_one query (bs "prefix") in
    let* delimiter := optional_one query (bs "delimiter") in
    let* max_keys := max_keys query in
    let* encoding_type_url := encoding_type query in
    Ok {| v_prefix := default [] prefix; v_delimiter := non_empty delimiter; key_marker := key_marker;
          version_id_marker := version_id_marker; v_max_keys := max_keys;
          v_encoding_type_url := encoding_type_url |}.

Definition http_error (e : HttpParseError) : S3Error := invalid_request (HttpParseError_display e).

Definition parse_copy_source (headers : HeaderMap) : result S3Error CopySource :=
  match HeaderMap_get_all headers (bs "x-amz-copy-source") with
  | [value] =>
      let* raw := ok_or (from_utf8 value) (invalid_request (bs "x-amz-copy-source is not UTF-8")) in
      let (raw_path, raw_query) := default (raw, []) (split_once x3f raw) in
      let path := if starts_with raw_path (bs "/") then raw_path else bs "/" ++ raw_path in
      let* parsed := map_err http_error (parse_path_style path) in
      let* source_query := map_err http_error (QueryParams_parse raw_query) in
      if existsb (fun pair => negb (param_name pair ==b bs "versionId")) (pairs source_query)
      then Err (invalid_request (bs "invalid copy source query"))
      else
        let* bucket := ok_or (bucket parsed) (invalid_request (bs "copy source has no bucket")) in
        let* key := ok_or (non_empty (key parsed)) (invalid_request (bs "copy source has no object key")) in
        let* version_id := optional_i64 source_query (bs "versionId") in
        Ok {| src_bucket := bucket; src_key := key; src_version_id := version_id |}
  | _ => Err (invalid_request (bs "x-amz-copy-source must appear once"))
  end.

(** * Classification *)

(** The arms of each [match] are grouped by method, in the order of the
    source: an arm's guard runs only when its method matches. *)
Definition classify_bucket (method bucket : bytes) (query : QueryParams) : result S3Error Operation :=
  if method ==b bs "PUT" then
    if is_empty (pairs query) then Ok (CreateBucket bucket) else Err unsupported
  else if method ==b bs "DELETE" then
    if is_empty (pairs query) then Ok (DeleteBucket bucket) else Err unsupported
  else if method ==b bs "HEAD" then
    if is_empty (pairs query) then Ok (HeadBucket bucket) else Err unsupported
  else if method ==b bs "GET" then
    let* location := has_flag query (bs "location") in
    if location then Ok (GetBucketLocation bucket) else
    let* versioning := has_flag query (bs "versioning") in
    if versioning then Ok (GetBucketVersioning bucket) else
    let* versions := has_flag query (bs "versions") in
    if versions then
      let* params := parse_version_list query in Ok (ListObjectVersions bucket params)
    else
      let* list_type := optional_one query (bs "list-type") in
      let* params := parse_list query in
      match list_type with
      | None => Ok (ListObjectsV1 bucket params)
      | Some t => if t ==b bs "1" then Ok (ListObjectsV1 bucket params)
                  else if t ==b bs "2" then Ok (ListObjectsV2 bucket params)
                  else Err (invalid_request (bs "list-type must be 1 or 2"))
      end
  else if method ==b bs "POST" then
    let* delete := has_flag query (bs "delete") in
    if delete then Ok (DeleteObjects bucket) else Err unsupported
  else Err unsupported.

Definition list_parts_names : list bytes :=
  [bs "uploadId"; bs "part-number-marker"; bs "max-parts"; bs "encoding-type"] ++ presign_names.

(** The ListParts arm. *)
Definition classify_list_parts (bucket key upload_id : bytes) (query : QueryParams)
  : result S3Error Operation :=
  let* _ := validate_query_names query list_parts_names in
  let* encoding := optional_one query (bs "encoding-type") in
  if match encoding with Some v => negb (v ==b bs "url") | None => false end
  then Err (invalid_argument (bs "encoding-type must be url"))
  else
    let* part_number_marker := optional_i32 query (bs "part-number-marker") in
    let part_number_marker := default 0 part_number_marker in
    let* max_parts := optional_i32 query (bs "max-parts") in
    let max_parts := default 1000 max_parts in
    if negb (in_range 0 10000 part_number_marker) || negb (in_range 0 1000 max_parts)
    then Err (invalid_argument (bs "part-number-marker must be 0..10000 and max-parts must be 0..1000"))
    else Ok (ListParts bucket key upload_id
               {| part_number_marker := part_number_marker; max_parts := max_parts |}).

Definition classify_object (method bucket key : bytes) (query : QueryParams) (headers : HeaderMap)
  : result S3Error Operation :=
  let* upload_id := optional_one query (bs "uploadId") in
  let* version_id := optional_i64 query (bs "versionId") in
  let* part_number := optional_i32 query (bs "partNumber") in
  if method ==b bs "POST" then
    let* uploads := has_flag query (bs "uploads") in
    if uploads then Ok (CreateMultipartUpload bucket key)
    else match upload_id with
         | Some upload_id =>
             let* _ := validate_multipart_upload_id upload_id in
             Ok (CompleteMultipartUpload bucket key upload_id)
         | None =>
             let* restore := has_flag query (bs "restore") in
             if restore then
               let* version_id := ok_or version_id (invalid_argument (bs "restore requires versionId")) in
               Ok (RestoreObject bucket key version_id)
             else Err unsupported
         end
  else if method ==b bs "PUT" then
    match upload_id, part_number with
    | Some upload_id, Some part_number =>
        if negb (in_range 1 10000 part_number)
        then Err (invalid_argument (bs "partNumber must be 1..10000"))
        else Ok (UploadPart bucket key upload_id part_number)
    | _, _ =>
        if is_some (HeaderMap_get headers (bs "x-amz-copy-source")) then
          let* source := parse_copy_source headers in Ok (CopyObject bucket key source)
        else
          let* valid := valid_put_query query in
          if valid then Ok (PutObject bucket key) else Err unsupported
    end
  else if method ==b bs "DELETE" then
    match upload_id with
    | Some upload_id =>
        let* _ := validate_multipart_upload_id upload_id in
        Ok (AbortMultipartUpload bucket key upload_id)
    | None =>
        let* valid := only_version_query query (bs "DeleteObject") in
        if valid then Ok (DeleteObject bucket key version_id) else Err unsupported
    end
  else if method ==b bs "GET" then
    match upload_id with
    | Some upload_id => classify_list_parts bucket key upload_id query
    | None =>
        let* valid := only_version_query query (bs "GetObject") in
        if valid then Ok (GetObject bucket key version_id) else Err unsupported
    end
  else if method ==b bs "HEAD" then
    let* valid := only_version_query query (bs "HeadObject") in
    if valid then Ok (HeadObject bucket key version_id) else Err unsupported
  else Err unsupported.

Definition classify (request : RequestHead) : result S3Error Operation :=
  let* path := map_err http_error (parse_path_style (raw_path (target request))) in
  let key := non_empty (key path) in
  let query := query (target request) in
  let method := method request in
  match bucket path with
  | None => if (method ==b bs "GET") && is_empty (pairs query) then Ok ListBuckets else Err unsupported
  | Some bucket =>
      match key with
      | Some key => classify_object method bucket key query (headers request)
      | None => classify_bucket method bucket query
      end
  end.

(** * Specification *)

(** Operations that read; the others change buckets, objects or uploads. *)
Definition reading (op : Operation) : bool :=
  match op with
  | ListBuckets | HeadBucket _ | GetBucketLocation _ | GetBucketVersioning _ | ListObjectsV1 _ _
  | ListObjectsV2 _ _ | ListObjectVersions _ _ | GetObject _ _ _ | HeadObject _ _ _ | ListParts _ _ _ _ => true
  | _ => false
  end.

(** The query names an operation admits, where it admits no others. *)
Definition admitted_names (op : Operation) : option (list bytes) :=
  match op with
  | ListBuckets | CreateBucket _ | DeleteBucket _ | HeadBucket _ => Some []
  | ListObjectsV1 _ _ | ListObjectsV2 _ _ => Some list_names
  | ListObjectVersions _ _ => Some version_list_names
  | PutObject _ _ => Some put_names
  | GetObject _ _ _ | HeadObject _ _ _ | DeleteObject _ _ _ => Some only_version_names
  | ListParts _ _ _ _ => Some list_parts_names
  | _ => None
  end.

Definition utf8_option (o : option bytes) : Prop :=
  match o with Some v => utf8_valid v = true | None => True end.

Definition wf_version (v : option Z) : Prop := match v with Some v => 1 <= v <= i64_max | None => True end.

Definition wf_object (b k : bytes) : Prop := valid_bucket_text b /\ valid_key_text k /\ k <> [].

Definition wf_list (p : ListParams) : Prop :=
  utf8_valid (prefix p) = true /\ utf8_option (delimiter p) /\ utf8_option (marker p) /\
  utf8_option (requested_start_after p) /\ utf8_option (requested_continuation_token p) /\
  delimiter p <> Some [] /\
  continuation_token p = non_empty (requested_continuation_token p) /\
  start_after p = (match continuation_token p with None => requested_start_after p | Some _ => None end) /\
  0 <= list_max_keys p <= 1000.

Definition wf_versions (p : VersionListParams) : Prop :=
  utf8_valid (v_prefix p) = true /\ utf8_option (v_delimiter p) /\ utf8_option (key_marker p) /\
  v_delimiter p <> Some [] /\ wf_version (version_id_marker p) /\
  (version_id_marker p <> None -> key_marker p <> None) /\ 0 <= v_max_keys p <= 1000.

(** The operations [classify] can return: names that the database can store,
    and every number within its documented range. *)
Definition wf_operation (op : Operation) : Prop :=
  match op with
  | ListBuckets => True
  | CreateBucket b | DeleteBucket b | HeadBucket b | GetBucketLocation b | GetBucketVersioning b
  | DeleteObjects b => valid_bucket_text b
  | ListObjectsV1 b p | ListObjectsV2 b p => valid_bucket_text b /\ wf_list p
  | ListObjectVersions b p => valid_bucket_text b /\ wf_versions p
  | PutObject b k | CreateMultipartUpload b k => wf_object b k
  | CopyObject b k s =>
      wf_object b k /\ wf_object (src_bucket s) (src_key s) /\ wf_version (src_version_id s)
  | RestoreObject b k v => wf_object b k /\ 1 <= v <= i64_max
  | GetObject b k v | HeadObject b k v | DeleteObject b k v => wf_object b k /\ wf_version v
  | UploadPart b k u n => wf_object b k /\ utf8_valid u = true /\ 1 <= n <= 10000
  | CompleteMultipartUpload b k u | AbortMultipartUpload b k u => wf_object b k /\ valid_upload_id u = true
  | ListParts b k u p =>
      wf_object b k /\ utf8_valid u = true /\ 0 <= part_number_marker p <= 10000 /\ 0 <= max_parts p <= 1000
  end.

(** * Lemmas: parameters *)

Lemma optional_one_Ok q n v : optional_one q n = Ok v ->
  QueryParams_get_all q n = option_list v /\ utf8_option v.
Proof.
  unfold optional_one. destruct (QueryParams_get_all q n) as [|x [|y l]] eqn:E; simpl.
  - by intros [= <-].
  - destruct (from_utf8 x) as [x'|] eqn:Ex; simpl; [|done]. apply from_utf8_Some in Ex as [? ->]. by intros [= <-].
  - rewrite (proj2 (Z.ltb_lt _ _)); [done|]. rewrite !len_cons. pose proof (len_nonneg l). lia.
Qed.

Lemma optional_one_intro q n v : QueryParams_get_all q n = option_list v -> utf8_option v ->
  optional_one q n = Ok v.
Proof.
  intros Hg Hv. unfold optional_one. rewrite Hg. destruct v as [v|]; simpl; [|done].
  by rewrite (proj2 (from_utf8_Some v v)).
Qed.

Lemma optional_i64_Ok q n v : optional_i64 q n = Ok v -> wf_version v /\
  match v with
  | Some z => exists t, QueryParams_get_all q n = [t] /\ parse_i64 t = Some z
  | None => QueryParams_get_all q n = []
  end.
Proof.
  unfold optional_i64. destruct (optional_one q n) as [o|] eqn:E; [|done].
  apply optional_one_Ok in E as [E _]. destruct o as [t|]; simpl in *; [|by intros [= <-]].
  destruct (parse_i64 t) as [z|] eqn:Et; [|done]. destruct (Z.ltb_spec 0 z); simpl; [|done]. intros [= <-].
  pose proof (parse_signed_range _ _ _ _ Et). simpl. split; [lia|eauto].
Qed.

Lemma optional_i32_Ok q n v : optional_i32 q n = Ok v ->
  match v with
  | Some z => exists t, QueryParams_get_all q n = [t] /\ parse_i32 t = Some z
  | None => QueryParams_get_all q n = []
  end.
Proof.
  unfold optional_i32. destruct (optional_one q n) as [o|] eqn:E; [|done].
  apply optional_one_Ok in E as [E _]. destruct o as [t|]; simpl in *; [|by intros [= <-]].
  destruct (parse_i32 t) as [z|] eqn:Et; simpl; [|done]. intros [= <-]. eauto.
Qed.

Lemma max_keys_Ok q n : max_keys q = Ok n -> 0 <= n <= 1000.
Proof.
  unfold max_keys. destruct (optional_i32 _ _) as [v|]; [|done]. destruct (in_range _ _ _) eqn:E; [|done].
  intros [= <-]. bool_hyps. lia.
Qed.

Lemma non_empty_Some o v : non_empty o = Some v -> o = Some v /\ v <> [].
Proof. destruct o as [[|b l]|]; simpl; [done| |done]. by intros [= <-]. Qed.

Lemma utf8_non_empty o : utf8_option o -> utf8_option (non_empty o) /\ non_empty o <> Some [].
Proof. by destruct o as [[|b l]|]. Qed.

Lemma utf8_default o : utf8_option o -> utf8_valid (default [] o) = true.
Proof. by destruct o. Qed.

Lemma validate_query_names_Ok q allowed u : validate_query_names q allowed = Ok u ->
  Forall (fun p => param_name p ∈ allowed) (pairs q).
Proof.
  unfold validate_query_names. destruct (traverse _ (pairs q)) as [us|] eqn:E; [|done]. intros _.
  apply traverse_Ok in E. induction E as [|p y ps ys Hp _ IH]; constructor; [|done].
  destruct (from_utf8 (param_name p)) as [n|] eqn:En; simpl in Hp; [|done].
  apply from_utf8_Some in En as [_ ->]. destruct (existsb _ allowed) eqn:Ee; [|done]. by apply contains_true' in Ee.
Qed.

Lemma parse_path_style_texts p t : parse_path_style p = Ok t ->
  match bucket t with
  | Some b => valid_bucket_text b /\ (forall k, key t = Some k -> valid_key_text k)
  | None => key t = None
  end.
Proof.
  unfold parse_path_style. destruct (_ || _ || _); [done|]. destruct (p ==b bs "/"); [by intros [= <-]|].
  destruct (match split_once x2f _ with Some _ => _ | None => _ end) as [br kr].
  destruct (percent_decode br) as [bb|]; [|done].
  destruct (is_empty bb || _ || _) eqn:E; [done|]. destruct (contains x00 bb); [done|].
  destruct (ok_or (from_utf8 bb) InvalidUtf8Path) as [b'|] eqn:Eb; [|done].
  apply ok_or_Ok, from_utf8_Some in Eb as [Hu ->].
  destruct (transpose_map decode_key kr) as [k'|] eqn:Ek; [|done]. intros [= <-]. simpl.
  unfold valid_bucket_text. guards. split; [done|]. intros k ->.
  destruct kr as [kr|]; [|done]. simpl in Ek. destruct (decode_key kr) as [kk|] eqn:Ekk; [|done].
  simplify_eq. by eapply decode_key_Ok.
Qed.

Lemma parse_list_Ok q p : parse_list q = Ok p ->
  wf_list p /\ Forall (fun x => param_name x ∈ list_names) (pairs q).
Proof.
  unfold parse_list. destruct (validate_query_names q list_names) as [u|] eqn:E0; [|done].
  apply validate_query_names_Ok in E0.
  destruct (optional_one q (bs "start-after")) as [sa|] eqn:E1; [|done].
  destruct (optional_one q (bs "continuation-token")) as [ct|] eqn:E2; [|done].
  destruct (optional_one q (bs "prefix")) as [pf|] eqn:E3; [|done].
  destruct (optional_one q (bs "delimiter")) as [dl|] eqn:E4; [|done].
  destruct (optional_one q (bs "marker")) as [mk|] eqn:E5; [|done].
  destruct (max_keys q) as [n|] eqn:E6; [|done]. destruct (encoding_type q) as [e|]; [|done]. intros [= <-].
  apply optional_one_Ok in E1 as [_ E1], E2 as [_ E2], E3 as [_ E3], E4 as [_ E4], E5 as [_ E5].
  apply max_keys_Ok in E6. destruct (utf8_non_empty _ E4) as [U4 N4]. split; [|done].
  split_and!; try done; first [by apply utf8_default|simpl; lia].
Qed.

Lemma parse_version_list_Ok q p : parse_version_list q = Ok p ->
  wf_versions p /\ Forall (fun x => param_name x ∈ version_list_names) (pairs q).
Proof.
  unfold parse_version_list. destruct (validate_query_names q version_list_names) as [u|] eqn:E0; [|done].
  apply validate_query_names_Ok in E0.
  destruct (optional_one q (bs "key-marker")) as [km|] eqn:E1; [|done].
  destruct (optional_i64 q (bs "version-id-marker")) as [vm|] eqn:E2; [|done].
  destruct (is_some vm && negb (is_some km)) eqn:Eg; [done|].
  destruct (optional_one q (bs "prefix")) as [pf|] eqn:E3; [|done].
  destruct (optional_one q (bs "delimiter")) as [dl|] eqn:E4; [|done].
  destruct (max_keys q) as [n|] eqn:E6; [|done]. destruct (encoding_type q) as [e|]; [|done]. intros [= <-].
  apply optional_one_Ok in E1 as [_ E1], E3 as [_ E3], E4 as [_ E4]. apply optional_i64_Ok in E2 as [E2 _].
  apply max_keys_Ok in E6. destruct (utf8_non_empty _ E4) as [U4 N4]. split; [|done].
  split_and!; try done; [by apply utf8_default| |simpl; lia..]. simpl. intros Hv. by destruct vm, km.
Qed.

Lemma parse_copy_source_Ok hs s : parse_copy_source hs = Ok s ->
  wf_object (src_bucket s) (src_key s) /\ wf_version (src_version_id s).
Proof.
  unfold parse_copy_source. destruct (HeaderMap_get_all hs _) as [|v [|w l]]; try done.
  destruct (ok_or (from_utf8 v) _) as [raw|]; [|done].
  destruct (default (raw, []) (split_once x3f raw)) as [rp rq].
  destruct (parse_path_style _) as [t|] eqn:Et; simpl; [|done].
  destruct (QueryParams_parse rq) as [q|]; simpl; [|done]. destruct (existsb _ _); [done|].
  apply parse_path_style_texts in Et. destruct (bucket t) as [b|]; simpl; [|done].
  destruct (non_empty (key t)) as [k|] eqn:Ek; simpl; [|done].
  destruct (optional_i64 q _) as [v'|] eqn:Ev; [|done]. intros [= <-]. simpl.
  apply non_empty_Some in Ek as [Ek Hk]. apply optional_i64_Ok in Ev as [? _]. unfold wf_object. naive_solver.
Qed.

(** * Lemmas: classification *)

(** The bucket and the key an operation addresses. *)
Definition addressed (op : Operation) : option bytes * option bytes :=
  match op with
  | ListBuckets => (None, None)
  | CreateBucket b | DeleteBucket b | HeadBucket b | GetBucketLocation b | GetBucketVersioning b
  | DeleteObjects b | ListObjectsV1 b _ | ListObjectsV2 b _ | ListObjectVersions b _ => (Some b, None)
  | PutObject b k | CreateMultipartUpload b k | CopyObject b k _ | RestoreObject b k _ | GetObject b k _
  | HeadObject b k _ | DeleteObject b k _ | UploadPart b k _ _ | CompleteMultipartUpload b k _
  | AbortMultipartUpload b k _ | ListParts b k _ _ => (Some b, Some k)
  end.

(** The version an object operation names. *)
Definition version_of (op : Operation) : option (option Z) :=
  match op with
  | GetObject _ _ v | HeadObject _ _ v | DeleteObject _ _ v => Some v
  | RestoreObject _ _ v => Some (Some v)
  | _ => None
  end.

(** [v] is the single value of a parameter, or there is none. *)
Definition only_value (q : QueryParams) (n : bytes) (v : option Z) : Prop :=
  match v with
  | Some z => exists t, QueryParams_get_all q n = [t] /\ parse_i64 t = Some z
  | None => QueryParams_get_all q n = []
  end.

(** What an accepted request says of its operation. *)
Record routed (m : bytes) (q : QueryParams) (b k : option bytes) (op : Operation) : Prop := {
  routed_wf : wf_operation op;
  routed_reading : reading op = true <-> m = bs "GET" \/ m = bs "HEAD";
  routed_head : is_head op = true <-> m = bs "HEAD";
  routed_names : forall names, admitted_names op = Some names ->
                   Forall (fun p => param_name p ∈ names) (pairs q);
  routed_address : addressed op = (b, k);
  routed_version : forall v, version_of op = Some v -> only_value q (bs "versionId") v
}.

Ltac routed_tac :=
  constructor; simpl;
  [ try done
  | split; [intros; try done; auto | try (by intros [H'|H']); try done]
  | split; [intros; try done; auto | try done]
  | intros ? [=]; subst; try done
  | done
  | intros ? [=]; subst; try done ].

Lemma is_empty_Forall {A} (P : A -> Prop) l : is_empty l = true -> Forall P l.
Proof. by intros ->%is_empty_true. Qed.

Lemma classify_bucket_Ok m b q op : classify_bucket m b q = Ok op -> valid_bucket_text b ->
  routed m q (Some b) None op.
Proof.
  intros H Hb. unfold classify_bucket in H.
  destruct (m ==b bs "PUT") eqn:E1; [apply bool_decide_eq_true in E1 as ->|].
  { destruct (is_empty (pairs q)) eqn:Eq; [|done]. injection H as <-. routed_tac. by apply is_empty_Forall. }
  destruct (m ==b bs "DELETE") eqn:E2; [apply bool_decide_eq_true in E2 as ->|].
  { destruct (is_empty (pairs q)) eqn:Eq; [|done]. injection H as <-. routed_tac. by apply is_empty_Forall. }
  destruct (m ==b bs "HEAD") eqn:E3; [apply bool_decide_eq_true in E3 as ->|].
  { destruct (is_empty (pairs q)) eqn:Eq; [|done]. injection H as <-. routed_tac. by apply is_empty_Forall. }
  destruct (m ==b bs "GET") eqn:E4; [apply bool_decide_eq_true in E4 as ->|].
  { destruct (has_flag q (bs "location")) as [[]|]; [|..|done]; [injection H as <-; routed_tac|].
    destruct (has_flag q (bs "versioning")) as [[]|]; [|..|done]; [injection H as <-; routed_tac|].
    destruct (has_flag q (bs "versions")) as [[]|]; [|..|done].
    - destruct (parse_version_list q) as [p|] eqn:Ep; [|done]. injection H as <-.
      apply parse_version_list_Ok in Ep as [? ?]. routed_tac.
    - destruct (optional_one q (bs "list-type")) as [t|]; [|done].
      destruct (parse_list q) as [p|] eqn:Ep; [|done]. apply parse_list_Ok in Ep as [? ?].
      destruct t as [t|]; [destruct (t ==b bs "1"); [|destruct (t ==b bs "2"); [|done]]|];
        injection H as <-; routed_tac. }
  destruct (m ==b bs "POST") eqn:E5; [apply bool_decide_eq_true in E5 as ->|done].
  destruct (has_flag q (bs "delete")) as [[]|]; try done. injection H as <-. routed_tac.
Qed.

Lemma only_version_query_Ok q o v : only_version_query q o = Ok v ->
  v = true /\ Forall (fun p => param_name p ∈ only_version_names) (pairs q).
Proof.
  unfold only_version_query. destruct (validate_query_names _ _) as [u|] eqn:E; [|done].
  apply validate_query_names_Ok in E. destruct (optional_one q _) as [[x|]|]; [|by intros [= <-]|done].
  destruct (negb _); [done|]. by intros [= <-].
Qed.

Lemma valid_put_query_Ok q v : valid_put_query q = Ok v ->
  v = true /\ Forall (fun p => param_name p ∈ put_names) (pairs q).
Proof.
  unfold valid_put_query. destruct (validate_query_names _ _) as [u|] eqn:E; [|done].
  apply validate_query_names_Ok in E. destruct (optional_one q _) as [[x|]|]; [|by intros [= <-]|done].
  destruct (negb _); [done|]. by intros [= <-].
Qed.

Lemma validate_upload_id_Ok u v : validate_multipart_upload_id u = Ok v -> valid_upload_id u = true.
Proof. unfold validate_multipart_upload_id. by destruct (valid_upload_id u). Qed.

Lemma classify_list_parts_Ok b k u q op : classify_list_parts b k u q = Ok op ->
  wf_object b k -> utf8_valid u = true -> routed (bs "GET") q (Some b) (Some k) op.
Proof.
  unfold classify_list_parts. intros H Ho Hu.
  destruct (validate_query_names q list_parts_names) as [x|] eqn:Ev; [|done]. apply validate_query_names_Ok in Ev.
  destruct (optional_one q (bs "encoding-type")) as [e|]; [|done].
  destruct (match e with Some _ => _ | None => _ end); [done|].
  destruct (optional_i32 q (bs "part-number-marker")) as [pm|]; [|done].
  destruct (optional_i32 q (bs "max-parts")) as [mp|]; [|done].
  destruct (negb _ || negb _) eqn:Er; [done|]. injection H as <-. bool_hyps.
  routed_tac.
Qed.

Lemma classify_object_Ok m b k q hs op : classify_object m b k q hs = Ok op -> wf_object b k ->
  routed m q (Some b) (Some k) op.
Proof.
  intros H Ho. unfold classify_object in H.
  destruct (optional_one q (bs "uploadId")) as [u|] eqn:Eu; [|done]. apply optional_one_Ok in Eu as [_ Eu].
  destruct (optional_i64 q (bs "versionId")) as [v|] eqn:Ev; [|done]. apply optional_i64_Ok in Ev as [Ev Ev'].
  destruct (optional_i32 q (bs "partNumber")) as [n|]; [|done].
  destruct (m ==b bs "POST") eqn:E1; [apply bool_decide_eq_true in E1 as ->|].
  { destruct (has_flag q (bs "uploads")) as [[]|]; [|..|done]; [injection H as <-; routed_tac|].
    destruct u as [u|].
    - destruct (validate_multipart_upload_id u) eqn:Ew; [|done]. apply validate_upload_id_Ok in Ew.
      injection H as <-. routed_tac.
    - destruct (has_flag q (bs "restore")) as [[]|]; try done. destruct v as [v|]; simpl in H; [|done].
      injection H as <-. routed_tac. }
  destruct (m ==b bs "PUT") eqn:E2; [apply bool_decide_eq_true in E2 as ->|].
  { assert (Hput : (if is_some (HeaderMap_get hs (bs "x-amz-copy-source")) then
          let* source := parse_copy_source hs in Ok (CopyObject b k source)
        else let* valid := valid_put_query q in
          if valid then Ok (PutObject b k) else Err unsupported) = Ok op ->
        routed (bs "PUT") q (Some b) (Some k) op).
    { clear H. intros H. destruct (is_some _).
      - destruct (parse_copy_source hs) as [s|] eqn:Es; [|done]. apply parse_copy_source_Ok in Es as [? ?].
        injection H as <-. routed_tac.
      - destruct (valid_put_query q) as [w|] eqn:Ew; [|done]. apply valid_put_query_Ok in Ew as [-> ?].
        injection H as <-. routed_tac. }
    destruct u as [u|]; [|by apply Hput]. destruct n as [n|]; [|by apply Hput].
    destruct (in_range 1 10000 n) eqn:En; [|done]. injection H as <-. bool_hyps. routed_tac. }
  destruct (m ==b bs "DELETE") eqn:E3; [apply bool_decide_eq_true in E3 as ->|].
  { destruct u as [u|].
    - destruct (validate_multipart_upload_id u) eqn:Ew; [|done]. apply validate_upload_id_Ok in Ew.
      injection H as <-. routed_tac.
    - destruct (only_version_query _ _) as [w|] eqn:Ew; [|done]. apply only_version_query_Ok in Ew as [-> ?].
      injection H as <-. routed_tac. }
  destruct (m ==b bs "GET") eqn:E4; [apply bool_decide_eq_true in E4 as ->|].
  { destruct u as [u|]; [by eapply classify_list_parts_Ok|].
    destruct (only_version_query _ _) as [w|] eqn:Ew; [|done]. apply only_version_query_Ok in Ew as [-> ?].
    injection H as <-. routed_tac. }
  destruct (m ==b bs "HEAD") eqn:E5; [apply bool_decide_eq_true in E5 as ->|done].
  destruct (only_version_query _ _) as [w|] eqn:Ew; [|done]. apply only_version_query_Ok in Ew as [-> ?].
  injection H as <-. routed_tac.
Qed.

Lemma classify_Ok r op : classify r = Ok op ->
  exists path, parse_path_style (raw_path (target r)) = Ok path /\
    routed (method r) (query (target r)) (bucket path) (non_empty (key path)) op.
Proof.
  unfold classify. destruct (parse_path_style _) as [path|] eqn:Ep; simpl; [|done]. intros H.
  exists path. split; [done|]. apply parse_path_style_texts in Ep. destruct (bucket path) as [b|].
  - destruct Ep as [Hb Hk]. destruct (non_empty (key path)) as [k|] eqn:Ek.
    + apply non_empty_Some in Ek as [Ek Hne]. apply (classify_object_Ok _ _ _ _ (headers r)); [done|].
      split_and!; auto.
    + by apply classify_bucket_Ok.
  - rewrite Ep. destruct (_ && _) eqn:E; [|done]. injection H as <-. bool_hyps.
    simpl. destruct (method r ==b bs "GET") eqn:Em in *; bool_hyps; [|done].
    match goal with H : method r = _ |- _ => rewrite H end. routed_tac. by apply is_empty_Forall.
Qed.

(** * Requests for operations *)

Definition opt_param (n : bytes) (v : option bytes) : list (bytes * bytes) :=
  match v with Some v => [(n, v)] | None => [] end.

Definition flag_text (b : bool) : option bytes := if b then Some (bs "url") else None.

Definition list_query (t : bytes) (p : ListParams) : list (bytes * bytes) :=
  [(bs "list-type", t); (bs "prefix", prefix p); (bs "max-keys", show_Z (list_max_keys p))]
  ++ opt_param (bs "delimiter") (delimiter p) ++ opt_param (bs "marker") (marker p)
  ++ opt_param (bs "start-after") (requested_start_after p)
  ++ opt_param (bs "continuation-token") (requested_continuation_token p)
  ++ opt_param (bs "encoding-type") (flag_text (encoding_type_url p)).

Definition versions_query (p : VersionListParams) : list (bytes * bytes) :=
  [(bs "versions", []); (bs "prefix", v_prefix p); (bs "max-keys", show_Z (v_max_keys p))]
  ++ opt_param (bs "delimiter") (v_delimiter p) ++ opt_param (bs "key-marker") (key_marker p)
  ++ opt_param (bs "version-id-marker") (option_map show_Z (version_id_marker p))
  ++ opt_param (bs "encoding-type") (flag_text (v_encoding_type_url p)).

Definition version_query (v : option Z) : list (bytes * bytes) :=
  opt_param (bs "versionId") (option_map show_Z v).

(** Method, query parameters and copy source of the plain request. *)
Definition plain_request (op : Operation) : bytes * list (bytes * bytes) * option CopySource :=
  match op with
  | ListBuckets => (bs "GET", [], None)
  | CreateBucket _ => (bs "PUT", [], None)
  | DeleteBucket _ => (bs "DELETE", [], None)
  | HeadBucket _ => (bs "HEAD", [], None)
  | GetBucketLocation _ => (bs "GET", [(bs "location", [])], None)
  | GetBucketVersioning _ => (bs "GET", [(bs "versioning", [])], None)
  | ListObjectsV1 _ p => (bs "GET", list_query (bs "1") p, None)
  | ListObjectsV2 _ p => (bs "GET", list_query (bs "2") p, None)
  | ListObjectVersions _ p => (bs "GET", versions_query p, None)
  | PutObject _ _ => (bs "PUT", [], None)
  | CopyObject _ _ s => (bs "PUT", [], Some s)
  | RestoreObject _ _ v => (bs "POST", (bs "restore", []) :: version_query (Some v), None)
  | GetObject _ _ v => (bs "GET", version_query v, None)
  | HeadObject _ _ v => (bs "HEAD", version_query v, None)
  | DeleteObject _ _ v => (bs "DELETE", version_query v, None)
  | DeleteObjects _ => (bs "POST", [(bs "delete", [])], None)
  | CreateMultipartUpload _ _ => (bs "POST", [(bs "uploads", [])], None)
  | UploadPart _ _ u n => (bs "PUT", [(bs "uploadId", u); (bs "partNumber", show_Z n)], None)
  | CompleteMultipartUpload _ _ u => (bs "POST", [(bs "uploadId", u)], None)
  | AbortMultipartUpload _ _ u => (bs "DELETE", [(bs "uploadId", u)], None)
  | ListParts _ _ u p =>
      (bs "GET", [(bs "uploadId", u); (bs "part-number-marker", show_Z (part_number_marker p));
                  (bs "max-parts", show_Z (max_parts p))], None)
  end.

Definition render_component (p : bytes * bytes) : bytes := p.1 ++ x3d :: aws_encode p.2 true.

Definition render_query (ps : list (bytes * bytes)) : bytes := join [x26] (map render_component ps).

Definition params_of (ps : list (bytes * bytes)) : QueryParams :=
  {| pairs := map (fun p => {| raw_name := p.1; raw_value := aws_encode p.2 true; param_name := p.1;
                               param_value := p.2 |}) ps |}.

Definition render_path (op : Operation) : bytes :=
  match addressed op with
  | (Some b, k) => render_path_style b (default [] k)
  | (None, _) => bs "/"
  end.

Definition render_source (s : CopySource) : bytes :=
  render_path_style (src_bucket s) (src_key s)
  ++ match src_version_id s with Some v => bs "?versionId=" ++ show_Z v | None => [] end.

Definition source_headers (s : option CopySource) : HeaderMap :=
  {| fields := match s with
               | Some s => [{| header_name := bs "x-amz-copy-source"; header_value := render_source s |}]
               | None => []
               end |}.

(** The request head of the plain request, with [q] the parsed query. *)
Definition request_of (op : Operation) (q : QueryParams) : RequestHead :=
  let '(m, ps, s) := plain_request op in
  {| method := m;
     target := {| raw_path := render_path op; raw_query := Some (render_query ps); query := q |};
     headers := source_headers s; content_length := None; transfer_chunked := false |}.

(** ** Lemmas: the query text *)

Definition param_byte (b : byte) : bool := is_ascii_alphanumeric b || (b ==b x2d).

Definition plain_param (n : bytes) : bool := forallb param_byte n.

Lemma plain_param_not n b : plain_param n = true -> param_byte b = false -> b ∉ n.
Proof. intros H Hb Hin. apply (forallb_elem _ _ _ H) in Hin. congruence. Qed.

Lemma parse_render_component p : plain_param p.1 = true ->
  parse_component (render_component p) =
  Ok {| raw_name := p.1; raw_value := aws_encode p.2 true; param_name := p.1; param_value := p.2 |}.
Proof.
  intros H. unfold parse_component, render_component.
  rewrite (proj2 (split_once_Some x3d _ p.1 (aws_encode p.2 true)))
    by (split; [done|]; by apply plain_param_not).
  rewrite percent_decode_plain by (by apply plain_param_not). by rewrite aws_encode_decodes.
Qed.

Lemma render_component_no_amp p : plain_param p.1 = true -> x26 ∉ render_component p.
Proof.
  intros H. unfold render_component. rewrite elem_of_app, elem_of_cons. intros [Hin|[?|Hin]]; [|done|].
  - by apply (plain_param_not _ x26) in H.
  - apply (forallb_elem _ _ _ (aws_encode_bytes p.2)) in Hin. done.
Qed.

Lemma parse_render_query ps : Forall (fun p => plain_param p.1 = true) ps ->
  QueryParams_parse (render_query ps) = Ok (params_of ps).
Proof.
  intros H. unfold QueryParams_parse. destruct ps as [|p ps]; [done|].
  assert (Hne : is_empty (render_query (p :: ps)) = false).
  { apply is_empty_false. unfold render_query. simpl. unfold render_component.
    destruct (map _ ps); [|rewrite <- app_assoc]; by destruct p.1. }
  rewrite Hne. unfold render_query. rewrite split_on_join.
  - assert (Ht : traverse parse_component (map render_component (p :: ps)) = Ok (pairs (params_of (p :: ps)))).
    { apply traverse_Ok. apply Forall2_fmap_l, Forall2_fmap_r. eapply Forall_Forall2_diag.
      eapply Forall_impl; [exact H|]. intros x Hx. by apply parse_render_component. }
    by rewrite Ht.
  - done.
  - done.
  - apply Forall_map. eapply Forall_impl; [exact H|]. intros x Hx. simpl.
    apply not_elem_of_Forall_eqb. by apply render_component_no_amp.
Qed.

(** ** Lemmas: the parameters of a rendered query *)

Definition get_params (ps : list (bytes * bytes)) (n : bytes) : list bytes :=
  map snd (List.filter (fun p => p.1 ==b n) ps).

Lemma get_all_params ps n : QueryParams_get_all (params_of ps) n = get_params ps n.
Proof.
  unfold QueryParams_get_all, get_params, params_of. cbn [pairs].
  induction ps as [|p ps IH]; [done|]. simpl. destruct (p.1 ==b n); simpl; by rewrite IH.
Qed.

Lemma get_params_app a b n : get_params (a ++ b) n = get_params a n ++ get_params b n.
Proof. unfold get_params. by rewrite List.filter_app, map_app. Qed.

Lemma get_params_cons m v ps n :
  get_params ((m, v) :: ps) n = (if m ==b n then [v] else []) ++ get_params ps n.
Proof. unfold get_params. simpl. by destruct (m ==b n). Qed.

Lemma get_params_opt m v n : get_params (opt_param m v) n = if m ==b n then option_list v else [].
Proof. unfold get_params. destruct v; simpl; by destruct (m ==b n). Qed.

(** Computes the values of a parameter in a rendered query. *)
Ltac lookup :=
  rewrite ?get_all_params; unfold list_query, versions_query, version_query;
  rewrite ?get_params_app, ?get_params_cons, ?get_params_opt;
  repeat match goal with
  | |- context [bool_decide (bs ?a = bs ?b)] =>
      let v := eval vm_compute in (bool_decide (bs a = bs b)) in
      change (bool_decide (bs a = bs b)) with v; cbv iota
  end; rewrite ?app_nil_l, ?app_nil_r; try reflexivity.

Definition named_in (allowed : list bytes) (n : bytes) : bool :=
  plain_param n && existsb (fun a => a ==b n) allowed.

Lemma plain_param_utf8 n : plain_param n = true -> utf8_valid n = true.
Proof.
  intros H. apply ascii_utf8_valid. apply Forall_forall. intros b Hb. apply (forallb_elem _ _ _ H) in Hb.
  pose proof (byte_forall (fun b => implb (param_byte b) (bval b <? 128)) ltac:(vm_compute; reflexivity) b) as Hf.
  simpl in Hf. rewrite Hb in Hf. by apply Z.ltb_lt.
Qed.

Lemma validate_params ps allowed : forallb (fun p => named_in allowed p.1) ps = true ->
  validate_query_names (params_of ps) allowed = Ok tt.
Proof.
  intros H. unfold validate_query_names.
  assert (Ht : exists us, traverse (fun pair =>
      let* name := ok_or (from_utf8 (param_name pair)) (invalid_request (bs "query name is not UTF-8")) in
      if existsb (fun a => a ==b name) allowed then Ok tt else Err unsupported) (pairs (params_of ps)) = Ok us).
  { induction ps as [|p ps IH]; [by eexists|]. simpl in H. apply andb_prop in H as [Hp H].
    apply andb_prop in Hp as [Hp Hi]. destruct (IH H) as [us IH']. cbn [params_of pairs map traverse] in *.
    cbn [param_name]. rewrite (proj2 (from_utf8_Some p.1 p.1)) by (split; [by apply plain_param_utf8|done]).
    cbn [ok_or]. rewrite Hi. rewrite IH'. by eexists. }
  by destruct Ht as [us ->].
Qed.

Lemma forallb_opt (f : bytes -> bool) n v : f n = true -> forallb (fun p => f p.1) (opt_param n v) = true.
Proof. intros H. destruct v; simpl; [by rewrite H|done]. Qed.

Lemma show_Z_utf8 n : 0 <= n -> utf8_valid (show_Z n) = true.
Proof.
  intros H. destruct (show_Z_digits n H) as (Hd & _ & _). apply plain_param_utf8. unfold plain_param.
  rewrite forallb_forall in *. intros b Hb. apply Hd in Hb. unfold param_byte, is_ascii_alphanumeric. by rewrite Hb.
Qed.

Lemma optional_i64_show q n v : QueryParams_get_all q n = option_list (option_map show_Z v) -> wf_version v ->
  optional_i64 q n = Ok v.
Proof.
  intros Hg Hv. unfold optional_i64. rewrite (optional_one_intro q n (option_map show_Z v)); [|done|].
  - destruct v as [v|]; simpl in *; [|done]. unfold parse_i64.
    rewrite parse_signed_show, checked_in by (unfold i64_min in *; lia). by rewrite (proj2 (Z.ltb_lt 0 v)) by lia.
  - destruct v as [v|]; simpl in *; [|done]. apply show_Z_utf8. lia.
Qed.

Lemma optional_i32_show q n v : QueryParams_get_all q n = [show_Z v] -> 0 <= v <= i32_max ->
  optional_i32 q n = Ok (Some v).
Proof.
  intros Hg Hv. unfold optional_i32. rewrite (optional_one_intro q n (Some (show_Z v))); [|done|].
  - simpl. unfold parse_i32. by rewrite parse_signed_show, checked_in by (unfold i32_min in *; lia).
  - simpl. apply show_Z_utf8. lia.
Qed.

Lemma optional_i32_none q n : QueryParams_get_all q n = [] -> optional_i32 q n = Ok None.
Proof. intros Hg. unfold optional_i32. by rewrite (optional_one_intro q n None). Qed.

Lemma has_flag_is q n v : QueryParams_get_all q n = option_list v -> has_flag q n = Ok (is_some v).
Proof. intros H. unfold has_flag. rewrite H. by destruct v. Qed.

Lemma max_keys_show q n : QueryParams_get_all q (bs "max-keys") = [show_Z n] -> 0 <= n <= 1000 ->
  max_keys q = Ok n.
Proof.
  intros Hg Hn. unfold max_keys. rewrite (optional_i32_show _ _ n) by (done || (unfold i32_max; lia)).
  change (default 1000 (Some n)) with n. replace (in_range 0 1000 n) with true; [done|]. symmetry. apply andb_true_intro. lia.
Qed.

Lemma encoding_type_flag q b : QueryParams_get_all q (bs "encoding-type") = option_list (flag_text b) ->
  encoding_type q = Ok b.
Proof. intros H. unfold encoding_type. rewrite (optional_one_intro q _ (flag_text b)); by destruct b. Qed.

(** Solves the validity of the names of a rendered query. *)
Ltac names :=
  unfold list_query, versions_query, version_query; rewrite ?forallb_app;
  repeat (rewrite forallb_opt by (vm_compute; reflexivity)); vm_compute; reflexivity.

Lemma parse_list_render t p : wf_list p -> parse_list (params_of (list_query t p)) = Ok p.
Proof.
  intros (W1 & W2 & W3 & W4 & W5 & W6 & W7 & W8 & W9). unfold parse_list.
  rewrite validate_params by names.
  rewrite (optional_one_intro _ (bs "start-after") (requested_start_after p)) by (done || lookup).
  rewrite (optional_one_intro _ (bs "continuation-token") (requested_continuation_token p)) by (done || lookup).
  rewrite (optional_one_intro _ (bs "prefix") (Some (prefix p))) by (done || lookup).
  rewrite (optional_one_intro _ (bs "delimiter") (delimiter p)) by (done || lookup).
  rewrite (optional_one_intro _ (bs "marker") (marker p)) by (done || lookup).
  rewrite (max_keys_show _ (list_max_keys p)) by (done || lookup).
  rewrite (encoding_type_flag _ (encoding_type_url p)) by lookup.
  cbn [default]. rewrite <- W7, <- W8. replace (non_empty (delimiter p)) with (delimiter p)
    by (by destruct (delimiter p) as [[]|]). by destruct p.
Qed.

Lemma parse_version_list_render p : wf_versions p -> parse_version_list (params_of (versions_query p)) = Ok p.
Proof.
  intros (W1 & W2 & W3 & W4 & W5 & W6 & W7). unfold parse_version_list.
  rewrite validate_params by names.
  rewrite (optional_one_intro _ (bs "key-marker") (key_marker p)) by (done || lookup).
  rewrite (optional_i64_show _ (bs "version-id-marker") (version_id_marker p)) by (done || lookup).
  assert (Hg : is_some (version_id_marker p) && negb (is_some (key_marker p)) = false).
  { destruct (version_id_marker p), (key_marker p); simpl; try done. by destruct W6. }
  rewrite Hg.
  rewrite (optional_one_intro _ (bs "prefix") (Some (v_prefix p))) by (done || lookup).
  rewrite (optional_one_intro _ (bs "delimiter") (v_delimiter p)) by (done || lookup).
  rewrite (max_keys_show _ (v_max_keys p)) by (done || lookup).
  rewrite (encoding_type_flag _ (v_encoding_type_url p)) by lookup.
  cbn [default]. replace (non_empty (v_delimiter p)) with (v_delimiter p)
    by (by destruct (v_delimiter p) as [[]|]). by destruct p.
Qed.

Lemma only_version_render v o : only_version_query (params_of (version_query v)) o = Ok true.
Proof.
  unfold only_version_query. rewrite validate_params by names.
  by rewrite (optional_one_intro _ (bs "x-id") None) by (done || lookup).
Qed.

Lemma classify_list_parts_render b k u p :
  utf8_valid u = true -> 0 <= part_number_marker p <= 10000 -> 0 <= max_parts p <= 1000 ->
  classify_list_parts b k u (params_of [(bs "uploadId", u);
    (bs "part-number-marker", show_Z (part_number_marker p)); (bs "max-parts", show_Z (max_parts p))])
  = Ok (ListParts b k u p).
Proof.
  intros Hu Hm Hp. unfold classify_list_parts. rewrite validate_params by names.
  rewrite (optional_one_intro _ (bs "encoding-type") None) by (done || lookup).
  rewrite (optional_i32_show _ (bs "part-number-marker") (part_number_marker p))
    by (lookup || (unfold i32_max; lia)).
  rewrite (optional_i32_show _ (bs "max-parts") (max_parts p)) by (lookup || (unfold i32_max; lia)).
  change (default 0 (Some (part_number_marker p))) with (part_number_marker p).
  change (default 1000 (Some (max_parts p))) with (max_parts p).
  replace (in_range 0 10000 (part_number_marker p)) with true by (symmetry; apply andb_true_intro; lia).
  replace (in_range 0 1000 (max_parts p)) with true by (symmetry; apply andb_true_intro; lia).
  by destruct p.
Qed.

Lemma render_path_bytes b k : forallb (fun b => (b ==b x2f) || encoded_byte b) (render_path_style b k) = true.
Proof. unfold render_path_style. cbn [forallb]. rewrite forallb_app. cbn [forallb]. by rewrite !aws_encode_slash_bytes. Qed.

Lemma render_path_not b k c : (c ==b x2f) || encoded_byte c = false -> c ∉ render_path_style b k.
Proof. intros Hc Hin. apply (forallb_elem _ _ _ (render_path_bytes b k)) in Hin. congruence. Qed.

Lemma uri_utf8 l : forallb (fun b => (b ==b x2f) || encoded_byte b) l = true -> Forall (fun b => bval b < 128) l.
Proof.
  intros H. apply Forall_forall. intros b Hb. apply (forallb_elem _ _ _ H) in Hb.
  pose proof (byte_forall (fun b => implb ((b ==b x2f) || encoded_byte b) (bval b <? 128)) eq_refl b) as Hf.
  simpl in Hf. rewrite Hb in Hf. by apply Z.ltb_lt.
Qed.

Lemma aws_encode_digits l e : forallb is_ascii_digit l = true -> aws_encode l e = l.
Proof.
  unfold aws_encode. induction l as [|d l IH]; [done|]. cbn [forallb map concat]. intros [Hd Hl]%andb_prop.
  rewrite IH by done. unfold aws_encode_byte, is_unreserved, is_ascii_alphanumeric. by rewrite Hd.
Qed.

(** The version of a copy source, as its own query. *)
Lemma source_query v : 0 <= v ->
  QueryParams_parse (bs "versionId=" ++ show_Z v) = Ok (params_of [(bs "versionId", show_Z v)]).
Proof.
  intros Hv. rewrite <- (parse_render_query [(bs "versionId", show_Z v)]) by (repeat constructor).
  unfold render_query, render_component. cbn [map join fst snd].
  destruct (show_Z_digits v Hv) as (Hd & _ & _). by rewrite aws_encode_digits.
Qed.

Lemma parse_copy_source_render s : wf_object (src_bucket s) (src_key s) -> wf_version (src_version_id s) ->
  parse_copy_source (source_headers (Some s)) = Ok s.
Proof.
  intros (Hb & Hk & Hne) Hv. unfold parse_copy_source.
  change (HeaderMap_get_all _ _) with [render_source s]. cbv iota beta.
  set (path := render_path_style (src_bucket s) (src_key s)).
  assert (Hu : utf8_valid (render_source s) = true).
  { unfold render_source. destruct (src_version_id s) as [v|].
    - rewrite utf8_valid_ascii_app by apply uri_utf8, render_path_bytes.
      rewrite utf8_valid_ascii_app by (repeat constructor). apply show_Z_utf8. simpl in Hv. lia.
    - rewrite app_nil_r. apply ascii_utf8_valid, uri_utf8, render_path_bytes. }
  rewrite (proj2 (from_utf8_Some _ _)) by (split; [exact Hu|reflexivity]). cbn [ok_or].
  assert (Hsplit : default (render_source s, []) (split_once x3f (render_source s))
    = (path, match src_version_id s with Some v => bs "versionId=" ++ show_Z v | None => [] end)).
  { unfold render_source. fold path. destruct (src_version_id s) as [v|].
    - by rewrite (proj2 (split_once_Some x3f _ path (bs "versionId=" ++ show_Z v)))
        by (split; [done|by apply render_path_not]).
    - rewrite app_nil_r, (proj2 (split_once_None _ _)) by (by apply render_path_not). done. }
  rewrite Hsplit. change (starts_with path (bs "/")) with true. cbv iota.
  unfold path. rewrite parse_render_path_style by done. cbn [map_err bucket key].
  destruct (src_version_id s) as [v|] eqn:Es; simpl in Hv.
  - rewrite source_query by lia. cbn [map_err params_of pairs map existsb].
    change (negb _ || false) with false. cbv iota. cbn [ok_or].
    replace (non_empty (Some (src_key s))) with (Some (src_key s)) by (by destruct (src_key s)). cbn [ok_or].
    change {| pairs := _ |} with (params_of [(bs "versionId", show_Z v)]).
    rewrite (optional_i64_show _ _ (Some v)) by (lookup || done).
    destruct s; simpl in *; by subst.
  - change (QueryParams_parse []) with (Ok (params_of []) : result HttpParseError QueryParams).
    cbn [map_err params_of pairs map existsb ok_or].
    replace (non_empty (Some (src_key s))) with (Some (src_key s)) by (by destruct (src_key s)). cbn [ok_or].
    destruct s; simpl in *; by subst.
Qed.

(** The parameters of a rendered request that the object arms look at first. *)
Lemma classify_bucket_render op b m ps : addressed op = (Some b, None) -> wf_operation op ->
  plain_request op = (m, ps, None) -> classify_bucket m b (params_of ps) = Ok op.
Proof.
  intros Ha Hw Hp. destruct op; simplify_eq/=; unfold classify_bucket; cbn [bool_decide]; try done.
  - rewrite (has_flag_is _ (bs "location") None), (has_flag_is _ (bs "versioning") None),
      (has_flag_is _ (bs "versions") None) by lookup. cbn [is_some].
    rewrite (optional_one_intro _ (bs "list-type") (Some (bs "1"))) by (lookup || done).
    rewrite parse_list_render by naive_solver. done.
  - rewrite (has_flag_is _ (bs "location") None), (has_flag_is _ (bs "versioning") None),
      (has_flag_is _ (bs "versions") None) by lookup. cbn [is_some].
    rewrite (optional_one_intro _ (bs "list-type") (Some (bs "2"))) by (lookup || done).
    rewrite parse_list_render by naive_solver. done.
  - rewrite (has_flag_is _ (bs "location") None), (has_flag_is _ (bs "versioning") None),
      (has_flag_is _ (bs "versions") (Some [])) by lookup. cbn [is_some].
    rewrite parse_version_list_render by naive_solver. done.
Qed.

(** The parameters common to the object arms. *)
Lemma object_params (q : QueryParams) u v n :
  QueryParams_get_all q (bs "uploadId") = option_list u -> utf8_option u ->
  QueryParams_get_all q (bs "versionId") = option_list (option_map show_Z v) -> wf_version v ->
  QueryParams_get_all q (bs "partNumber") = option_list (option_map show_Z n) ->
  match n with Some n => 0 <= n <= i32_max | None => True end ->
  optional_one q (bs "uploadId") = Ok u /\ optional_i64 q (bs "versionId") = Ok v /\
  optional_i32 q (bs "partNumber") = Ok n.
Proof.
  intros. split_and!; [by apply optional_one_intro|by apply optional_i64_show|].
  destruct n; [by apply optional_i32_show|by apply optional_i32_none].
Qed.

Ltac object_arm u v n :=
  unfold classify_object;
  match goal with |- context [params_of ?ps] =>
    destruct (object_params (params_of ps) u v n) as (-> & -> & ->)
  end; [lookup|try done|lookup|try done|lookup|simpl; try done; unfold i32_max; lia|]; cbn [bool_decide].

Lemma upload_id_utf8 u : valid_upload_id u = true -> utf8_valid u = true.
Proof.
  unfold valid_upload_id. intros [_ H]%andb_prop. apply ascii_utf8_valid. revert H. generalize 0%nat.
  induction u as [|b u IH]; intros i H; [constructor|]. simpl in H. apply andb_prop in H as [Hb H].
  constructor; [|by eapply IH]. unfold upload_id_byte in Hb.
  destruct (existsb _ _); [bool_hyps; by subst|]. unfold is_ascii_hexdigit, is_ascii_digit, in_range in Hb.
  repeat match type of Hb with _ || _ = true => apply orb_prop in Hb as [Hb|Hb] end; bool_hyps; lia.
Qed.

Lemma classify_object_render op b k m ps s : addressed op = (Some b, Some k) -> wf_operation op ->
  plain_request op = (m, ps, s) -> classify_object m b k (params_of ps) (source_headers s) = Ok op.
Proof.
  intros Ha Hw Hp. destruct op as [| | | | | | | | | | |? ? v|? ? v|? ? v|? ? v| | |? ? u n|? ? u|? ? u|? ? u p];
    simplify_eq/=; destruct_and?.
  - object_arm (@None bytes) (@None Z) (@None Z). done.
  - object_arm (@None bytes) (@None Z) (@None Z). rewrite parse_copy_source_render by done. done.
  - object_arm (@None bytes) (Some v) (@None Z).
    rewrite (has_flag_is _ (bs "uploads") None), (has_flag_is _ (bs "restore") (Some [])) by lookup. done.
  - object_arm (@None bytes) v (@None Z). rewrite !only_version_render. done.
  - object_arm (@None bytes) v (@None Z). rewrite !only_version_render. done.
  - object_arm (@None bytes) v (@None Z). rewrite !only_version_render. done.
  - object_arm (@None bytes) (@None Z) (@None Z). rewrite (has_flag_is _ (bs "uploads") (Some [])) by lookup. done.
  - object_arm (Some u) (@None Z) (Some n).
    replace (in_range 1 10000 n) with true by (symmetry; apply andb_true_intro; lia). done.
  - object_arm (Some u) (@None Z) (@None Z); [by apply upload_id_utf8|].
    rewrite (has_flag_is _ (bs "uploads") None) by lookup. unfold validate_multipart_upload_id.
    match goal with H : valid_upload_id u = true |- _ => rewrite H end. done.
  - object_arm (Some u) (@None Z) (@None Z); [by apply upload_id_utf8|].
    unfold validate_multipart_upload_id. match goal with H : valid_upload_id u = true |- _ => rewrite H end. done.
  - object_arm (Some u) (@None Z) (@None Z). by apply classify_list_parts_render.
Qed.

Lemma plain_request_names op m ps s : plain_request op = (m, ps, s) ->
  Forall (fun p => plain_param p.1 = true) ps.
Proof.
  intros H. apply forallb_Forall_true.
  destruct op; simplify_eq/=; unfold list_query, versions_query, version_query; rewrite ?forallb_app;
    repeat (rewrite forallb_opt by (vm_compute; reflexivity)); try (vm_compute; reflexivity).
Qed.

Lemma wf_addressed op b k : wf_operation op -> addressed op = (Some b, k) ->
  valid_bucket_text b /\ (forall k', k = Some k' -> valid_key_text k' /\ k' <> []).
Proof. intros Hw Ha. destruct op; simplify_eq/=; unfold wf_object in *; naive_solver. Qed.

Lemma classify_render op q : wf_operation op -> q = params_of (plain_request op).1.2 ->
  classify (request_of op q) = Ok op.
Proof.
  intros Hw ->. unfold request_of. destruct (plain_request op) as [[m ps] s] eqn:Ep. cbn [fst snd].
  unfold classify, render_path. cbn [raw_path target query method headers].
  destruct (addressed op) as [[b|] k] eqn:Ea.
  - destruct (wf_addressed _ _ _ Hw Ea) as [Hb Hk]. destruct k as [k|].
    + destruct (Hk k eq_refl) as [Hk1 Hk2]. change (default [] (Some k)) with k.
      rewrite parse_render_path_style by done. cbn [map_err bucket key].
      replace (non_empty (Some k)) with (Some k) by (by destruct k).
      by apply (classify_object_render op).
    + change (default [] (@None bytes)) with (@nil byte).
      rewrite parse_render_path_style by (done || (split; [apply not_elem_of_nil|done])).
      cbn [map_err bucket key non_empty is_empty].
      apply (classify_bucket_render op); [done|done|]. rewrite Ep. do 2 f_equal.
      destruct op; simplify_eq/=; done.
  - destruct op; simplify_eq/=. done.
Qed.

(** * Claims *)

(** Every operation within range is reachable: the URL of its plain
    request parses, and the router returns that operation with those
    parameters. *)
Lemma classify_complete (op : Operation) (H : wf_operation op) :
  exists q, QueryParams_parse (render_query (plain_request op).1.2) = Ok q /\
            classify (request_of op q) = Ok op.
Proof.
  exists (params_of (plain_request op).1.2). split; [|by apply classify_render].
  apply parse_render_query. destruct (plain_request op) as [[m ps] s] eqn:E. by eapply plain_request_names.
Qed.

(** C16: The router accepts exactly the well-formed operations.  An operation is
    the answer to some request if and only if its names can be stored as
    database text and its numbers are in range: versions are positive 64-bit,
    parts 1 to 10000, page sizes 0 to 1000, and a completed or aborted upload
    id is a UUID.  And whatever request it answers, it addresses exactly the
    bucket and key of the path; it reads if the method is GET or HEAD and
    changes state otherwise, and is answered without a body exactly for HEAD;
    no query name is ignored where the operation has a list of those it knows;
    and the version it acts on is the single [versionId] of the query, or none
    is present. *)
Theorem classify_well_formed (op : Operation) :
  (wf_operation op <-> exists r, classify r = Ok op) /\
  (forall r, classify r = Ok op ->
     (exists path, parse_path_style (raw_path (target r)) = Ok path /\ addressed op = (bucket path, non_empty (key path))) /\
     (reading op = true <-> method r = bs "GET" \/ method r = bs "HEAD") /\
     (is_head op = true <-> method r = bs "HEAD") /\
     (forall names, admitted_names op = Some names -> Forall (fun p => param_name p ∈ names) (pairs (query (target r)))) /\
     (forall v, version_of op = Some v -> only_value (query (target r)) (bs "versionId") v)).
Proof.
  split; [split|].
  - intros H. destruct (classify_complete op H) as (q & _ & E). eauto.
  - intros [r E]. apply classify_Ok in E as (path & _ & H). apply H.
  - intros r E. apply classify_Ok in E as (path & Hp & H). split; [exists path; split; [done|apply H]|]. split_and!; apply H.
Qed.

(** Witnesses: a versioned read of a key with a space and a copy. *)
Definition sample_get : Operation := GetObject (bs "photos") (bs "a b/c") (Some 7).

Definition sample_copy : Operation :=
  CopyObject (bs "photos") (bs "copy") {| src_bucket := bs "photos"; src_key := bs "a b/c"; src_version_id := Some 7 |}.

Definition sample_request (op : Operation) : RequestHead := request_of op (params_of (plain_request op).1.2).

Lemma sample_object_wf b k : bool_decide (b <> [] /\ (x2f ∉ b) /\ existsb is_ascii_control b = false /\
  utf8_valid b = true /\ (x00 ∉ k) /\ utf8_valid k = true /\ k <> []) = true -> wf_object b k.
Proof. intros (? & ? & ? & ? & ? & ? & ?)%bool_decide_eq_true. by split_and!. Qed.

Lemma classify_well_formed_witness :
  wf_operation sample_copy /\ (exists r, classify r = Ok sample_get) /\
  only_value (query (target (sample_request sample_get))) (bs "versionId") (Some 7).
Proof.
  split; [|split].
  - apply (classify_well_formed sample_copy). exists (sample_request sample_copy). vm_compute. reflexivity.
  - apply (classify_well_formed sample_get). split; [apply sample_object_wf; vm_compute; reflexivity|].
    vm_compute. split; discriminate.
  - apply (classify_well_formed sample_get); vm_compute; reflexivity.
Defined.
