(* ===== verification/Response.v ===== *)
(** Serialization of responses to the socket, from [src/src/workers/http.rs]:
    [serialize_response] with its header filter, [protocol_error] and the
    fallback response.  A response is shown to be the status line, the kept
    headers, exactly one Content-Length and the body, with no way for a header
    value to start a line of its own. *)
From S2P Require Import Prelude Text Http Canonical XmlWrite Types Framing.

Definition MAX_RESPONSE_HEAD_BYTES : Z := 64 * 1024.
Definition MAX_RESPONSE_HEADERS : Z := 128.

(** * Tokens *)

Definition header_has_token (value expected : bytes) : bool :=
  existsb (fun token => eq_ignore_ascii_case (trim_ows token) expected)
    (split_on (fun b => b ==b x2c) value).

Definition request_wants_close (request : RequestHead) : bool :=
  existsb (fun value => header_has_token value (bs "close") || header_has_token value (bs "upgrade"))
    (HeaderMap_get_all (headers request) (bs "connection")).

Definition response_wants_close (response : ServiceResponse) : bool :=
  existsb (fun h => eq_ignore_ascii_case h.1 (bs "connection") && header_has_token h.2 (bs "close"))
    (resp_headers response).

(** * Headers *)

Definition valid_response_header (name value : bytes) : bool :=
  negb (is_empty name) && forallb is_tchar name
  && forallb (fun b => (b ==b x09) || ((32 <=? bval b) && negb (bval b =? 127))) value.

Definition is_hop_by_hop (name : bytes) : bool :=
  eq_ignore_ascii_case name (bs "connection") || eq_ignore_ascii_case name (bs "keep-alive")
  || eq_ignore_ascii_case name (bs "proxy-connection") || eq_ignore_ascii_case name (bs "transfer-encoding")
  || eq_ignore_ascii_case name (bs "trailer") || eq_ignore_ascii_case name (bs "upgrade").

Definition reason_phrase (status : Z) : bytes :=
  match status with
  | 100 => bs "Continue"
  | 200 => bs "OK"
  | 201 => bs "Created"
  | 202 => bs "Accepted"
  | 204 => bs "No Content"
  | 206 => bs "Partial Content"
  | 301 => bs "Moved Permanently"
  | 302 => bs "Found"
  | 304 => bs "Not Modified"
  | 307 => bs "Temporary Redirect"
  | 308 => bs "Permanent Redirect"
  | 400 => bs "Bad Request"
  | 401 => bs "Unauthorized"
  | 403 => bs "Forbidden"
  | 404 => bs "Not Found"
  | 405 => bs "Method Not Allowed"
  | 408 => bs "Request Timeout"
  | 409 => bs "Conflict"
  | 411 => bs "Length Required"
  | 412 => bs "Precondition Failed"
  | 413 => bs "Payload Too Large"
  | 416 => bs "Range Not Satisfiable"
  | 417 => bs "Expectation Failed"
  | 429 => bs "Too Many Requests"
  | 500 => bs "Internal Server Error"
  | 501 => bs "Not Implemented"
  | 503 => bs "Service Unavailable"
  | _ => bs "Unknown"
  end.

(** One header of the first loop of [serialize_response]: the kept headers and
    the length advertised for an empty body. *)
Definition collect_header (body_empty : bool) (s : list (bytes * bytes) * option Z) (h : bytes * bytes)
  : result unit (list (bytes * bytes) * option Z) :=
  let (kept, semantic_empty_length) := s in
  let (name, value) := h in
  if eq_ignore_ascii_case name (bs "content-length") then
    Ok (kept, match semantic_empty_length with
              | None => if body_empty then parse_u64 value else None
              | Some n => Some n
              end)
  else if is_hop_by_hop name || negb (valid_response_header name value) then Ok s
  else if MAX_RESPONSE_HEADERS <=? len kept then Err tt
  else Ok (kept ++ [h], semantic_empty_length).

(** One header of the second loop. *)
Definition write_header (head : bytes) (h : bytes * bytes) : result unit bytes :=
  let head := head ++ h.1 ++ bs ": " ++ h.2 ++ crlf in
  if MAX_RESPONSE_HEAD_BYTES <? len head then Err tt else Ok head.

Definition serialize_response (response : ServiceResponse) (close_connection : bool) : result unit bytes :=
  if negb (in_range 100 599 (status response)) || (MAX_HTTP_BODY_BYTES <? len (body response)) then Err tt
  else
    let* (kept, semantic_empty_length) :=
      fold_result (collect_header (is_empty (body response))) ([], None) (resp_headers response) in
    let content_length := if is_empty (body response) then default 0 semantic_empty_length
                          else len (body response) in
    let head := bs "HTTP/1.1 " ++ show_Z (status response) ++ bs " " ++ reason_phrase (status response) ++ crlf in
    let* head := fold_result write_header head kept in
    let head := head ++ bs "Content-Length: " ++ show_Z content_length ++ crlf in
    let head := if close_connection then head ++ bs "Connection: close" ++ crlf else head in
    let head := head ++ crlf in
    if MAX_RESPONSE_HEAD_BYTES <? len head then Err tt else Ok (head ++ body response).

(** * Protocol errors *)

Fixpoint upper_digits (fuel : nat) (n : Z) : bytes :=
  match fuel with
  | O => []
  | S fuel' => (if n <? 16 then [] else upper_digits fuel' (n / 16)) ++ [hex_char HEX_UPPER (n mod 16)]
  end.

(** [format!("{n:0width$X}")] of a [u64]. *)
Definition format_hex (width : nat) (n : Z) : bytes :=
  let digits := upper_digits 16 n in replicate (width - length digits) x30 ++ digits.

(** [error_request_id], from the clock and the sequence counter. *)
Definition error_request_id (timestamp sequence : Z) : bytes :=
  format_hex 16 timestamp ++ format_hex 8 sequence.

(** The clock and the counter read when an error response is made. *)
Record Clock := { timestamp : Z; sequence : Z }.

Definition protocol_error (now : Clock) (status : Z) (code message : bytes) : ServiceResponse :=
  let request_id := error_request_id (timestamp now) (sequence now) in
  header
    (header
       (ServiceResponse_xml status
          (serialize_error {| err_code := code; err_message := message; err_resource := Some (bs "/");
                              err_request_id := request_id; err_host_id := Some request_id |}))
       (bs "x-amz-request-id") request_id)
    (bs "x-amz-id-2") request_id.

(** [FramingError::response] *)
Definition FramingError_response (now : Clock) (e : FramingError) : ServiceResponse :=
  match e with
  | EntityTooLarge =>
      protocol_error now 413 (bs "EntityTooLarge") (bs "Request entity exceeds the configured HTTP limit")
  | InvalidChunk | InvalidTrailer | TooMuchFraming =>
      protocol_error now 400 (bs "InvalidRequest") (bs "Malformed HTTP chunked request body")
  end.

Definition FALLBACK_BODY : bytes :=
  xml_declaration
  ++ bs "<Error><Code>InternalError</Code><Message>The pgs3 response could not be serialized.</Message></Error>".

Definition fallback_internal_response : bytes :=
  bs "HTTP/1.1 500 Internal Server Error" ++ crlf ++ bs "Content-Type: application/xml" ++ crlf
  ++ bs "Content-Length: " ++ show_Z (len FALLBACK_BODY) ++ crlf ++ bs "Connection: close" ++ crlf ++ crlf
  ++ FALLBACK_BODY.

(** * Specification *)

(** The headers that are sent. *)
Definition kept_header (h : bytes * bytes) : bool :=
  negb (eq_ignore_ascii_case h.1 (bs "content-length")) && negb (is_hop_by_hop h.1)
  && valid_response_header h.1 h.2.

Definition kept_headers (r : ServiceResponse) : list (bytes * bytes) := List.filter kept_header (resp_headers r).

(** The first length a response declares itself that is a number. *)
Fixpoint declared_length (hs : list (bytes * bytes)) : option Z :=
  match hs with
  | [] => None
  | h :: hs' =>
      if eq_ignore_ascii_case h.1 (bs "content-length")
      then match parse_u64 h.2 with Some n => Some n | None => declared_length hs' end
      else declared_length hs'
  end.

(** The length sent: that of the body, or, without a body, the first declared. *)
Definition sent_length (r : ServiceResponse) : Z :=
  if is_empty (body r) then default 0 (declared_length (resp_headers r)) else len (body r).

Definition header_line (h : bytes * bytes) : bytes := h.1 ++ bs ": " ++ h.2.

Definition response_lines (r : ServiceResponse) (close : bool) : list bytes :=
  (bs "HTTP/1.1 " ++ show_Z (status r) ++ bs " " ++ reason_phrase (status r))
  :: map header_line (kept_headers r)
  ++ (bs "Content-Length: " ++ show_Z (sent_length r)) :: (if close then [bs "Connection: close"] else []).

Definition response_head (r : ServiceResponse) (close : bool) : bytes := join crlf (response_lines r close).

Definition sendable (r : ServiceResponse) (close : bool) : bool :=
  in_range 100 599 (status r) && (len (body r) <=? MAX_HTTP_BODY_BYTES)
  && (len (kept_headers r) <=? MAX_RESPONSE_HEADERS)
  && (len (response_head r close) + 4 <=? MAX_RESPONSE_HEAD_BYTES).

(** * Lemmas *)

Lemma concat_lines lines : lines <> [] ->
  concat (map (fun l => l ++ crlf) lines) = join crlf lines ++ crlf.
Proof.
  induction lines as [|l ls IH]; [done|]. intros _. destruct ls as [|l' ls]; [cbn [map concat join]; by rewrite app_nil_r|].
  cbn [map concat]. cbn [map concat] in IH. rewrite IH by done. cbn [join]. by rewrite <- !app_assoc.
Qed.

Lemma collect_headers be hs : forall kept sem, len kept <= MAX_RESPONSE_HEADERS ->
  fold_result (collect_header be) (kept, sem) hs =
  if len kept + len (List.filter kept_header hs) <=? MAX_RESPONSE_HEADERS
  then Ok (kept ++ List.filter kept_header hs,
           match sem with
           | Some n => Some n
           | None => if be then declared_length hs else None
           end)
  else Err tt.
Proof.
  induction hs as [|[n v] hs IH]; intros kept sem Hk.
  - simpl. rewrite app_nil_r, Z.add_0_r, (proj2 (Z.leb_le _ _)) by done. by destruct sem, be.
  - cbn [fold_result]. unfold collect_header at 1. cbn [List.filter declared_length].
    assert (Hkh : kept_header (n, v) = negb (eq_ignore_ascii_case n (bs "content-length"))
      && negb (is_hop_by_hop n) && valid_response_header n v) by done.
    rewrite Hkh. clear Hkh. cbn [fst snd]. destruct (eq_ignore_ascii_case n (bs "content-length")) eqn:Ec.
    + cbn [negb andb]. rewrite IH by done. destruct sem, be; by try destruct (parse_u64 v).
    + cbn [negb andb]. destruct (is_hop_by_hop n || negb (valid_response_header n v)) eqn:Eh.
      * rewrite IH by done. replace (negb (is_hop_by_hop n) && valid_response_header n v) with false; [done|].
        destruct (is_hop_by_hop n); [done|]. simpl in *. by destruct (valid_response_header n v).
      * apply orb_false_elim in Eh as [-> Ev%negb_false_iff]. rewrite Ev. cbn [negb andb].
        pose proof (len_nonneg (List.filter kept_header hs)). rewrite len_cons.
        destruct (Z.leb_spec MAX_RESPONSE_HEADERS (len kept)).
        -- rewrite (proj2 (Z.leb_gt _ _)) by lia. done.
        -- rewrite IH by (rewrite len_app; unfold len in *; simpl; lia). rewrite len_app, <- app_assoc.
           replace (len kept + len [(n, v)] + len (List.filter kept_header hs))
             with (len kept + (len (List.filter kept_header hs) + 1)) by (unfold len; simpl; lia).
           done.
Qed.

Lemma write_headers hs : forall h, 
  let all := h ++ concat (map (fun l => l ++ crlf) (map header_line hs)) in
  (len all <= MAX_RESPONSE_HEAD_BYTES -> fold_result write_header h hs = Ok all) /\
  (forall h', fold_result write_header h hs = Ok h' -> h' = all).
Proof.
  induction hs as [|x hs IH]; intros h; simpl.
  - rewrite app_nil_r. split; [done|by intros h' [= <-]].
  - assert (Hw : write_header h x = if MAX_RESPONSE_HEAD_BYTES <? len (h ++ header_line x ++ crlf) then Err tt
                                    else Ok (h ++ header_line x ++ crlf)).
    { unfold write_header, header_line. by rewrite <- !app_assoc. }
    rewrite Hw.
    destruct (IH (h ++ header_line x ++ crlf)) as [IH1 IH2].
    replace (h ++ (header_line x ++ crlf) ++ concat (map (fun l => l ++ crlf) (map header_line hs)))
      with ((h ++ header_line x ++ crlf) ++ concat (map (fun l => l ++ crlf) (map header_line hs)))
      by (by rewrite <- !app_assoc).
    destruct (Z.ltb_spec MAX_RESPONSE_HEAD_BYTES (len (h ++ header_line x ++ crlf))).
    + split; [|done]. intros Hl. rewrite len_app in Hl.
      pose proof (len_nonneg (concat (map (fun l => l ++ crlf) (map header_line hs)))). lia.
    + by split.
Qed.

Lemma fold_result_unit {A S} (f : S -> A -> result unit S) s l e : fold_result f s l = Err e -> e = tt.
Proof. by destruct e. Qed.

(** The closed form of the serializer. *)
Lemma serialize_response_eq r close :
  serialize_response r close =
  if sendable r close then Ok (response_head r close ++ crlf ++ crlf ++ body r) else Err tt.
Proof.
  unfold serialize_response, sendable. destruct (in_range 100 599 (status r)); [|done]. cbn [negb orb andb].
  destruct (Z.ltb_spec MAX_HTTP_BODY_BYTES (len (body r))) as [Hb|Hb];
    [by rewrite (proj2 (Z.leb_gt _ _)) by done|rewrite (proj2 (Z.leb_le _ _)) by done].
  rewrite collect_headers by (unfold len; simpl; unfold MAX_RESPONSE_HEADERS; lia).
  rewrite app_nil_l. change (len [] + ?x) with x. fold (kept_headers r). cbn [andb].
  destruct (len (kept_headers r) <=? MAX_RESPONSE_HEADERS); [|done]. cbn [andb].
  replace (if is_empty (body r) then _ else len (body r)) with (sent_length r)
    by (unfold sent_length; by destruct (is_empty (body r))).
  set (first := bs "HTTP/1.1 " ++ show_Z (status r) ++ bs " " ++ reason_phrase (status r)).
  set (last := (bs "Content-Length: " ++ show_Z (sent_length r)) :: (if close then [bs "Connection: close"] else [])).
  assert (Hhead : (first ++ crlf) ++ concat (map (fun l => l ++ crlf) (map header_line (kept_headers r)))
                  ++ concat (map (fun l => l ++ crlf) last) = response_head r close ++ crlf).
  { unfold response_head. rewrite <- concat_lines by done. unfold response_lines. fold first. fold last.
    cbn [map concat]. by rewrite map_app, concat_app. }
  replace (bs "HTTP/1.1 " ++ show_Z (status r) ++ bs " " ++ reason_phrase (status r) ++ crlf) with (first ++ crlf)
    by (unfold first; by rewrite <- !app_assoc).
  destruct (write_headers (kept_headers r) (first ++ crlf)) as [W1 W2].
  set (mid := (first ++ crlf) ++ concat (map (fun l => l ++ crlf) (map header_line (kept_headers r)))) in *.
  assert (Hend : forall m, (if close then (m ++ bs "Content-Length: " ++ show_Z (sent_length r) ++ crlf)
        ++ bs "Connection: close" ++ crlf else m ++ bs "Content-Length: " ++ show_Z (sent_length r) ++ crlf) ++ crlf
      = m ++ concat (map (fun l => l ++ crlf) last) ++ crlf).
  { intros m. unfold last. destruct close; cbn [map concat]; rewrite <- ?app_assoc; by rewrite ?app_nil_r. }
  rewrite app_assoc in Hhead. fold mid in Hhead.
  assert (Hlen : len (mid ++ concat (map (fun l => l ++ crlf) last) ++ crlf) = len (response_head r close) + 4).
  { rewrite app_assoc, Hhead, !len_app. change (len crlf) with 2. lia. }
  destruct (Z.leb_spec (len (response_head r close) + 4) MAX_RESPONSE_HEAD_BYTES) as [Hl|Hl].
  - rewrite W1 by (rewrite <- Hlen, len_app in Hl; pose proof (len_nonneg (concat (map (fun l => l ++ crlf) last) ++ crlf)); lia).
    rewrite Hend, Hlen, (proj2 (Z.ltb_ge _ _)) by done. f_equal.
    rewrite app_assoc, Hhead. by rewrite <- !app_assoc.
  - destruct (fold_result write_header (first ++ crlf) (kept_headers r)) as [h|[]] eqn:Ef; [|done].
    rewrite (W2 h eq_refl), Hend, Hlen, (proj2 (Z.ltb_lt _ _)) by done. done.
Qed.

(** ** Lines cannot be forged *)

Definition line_text (l : bytes) : Prop := l <> [] /\ (CR ∉ l) /\ (LF ∉ l).

Lemma digits_line n : 0 <= n -> (CR ∉ show_Z n) /\ (LF ∉ show_Z n).
Proof.
  intros H. destruct (show_Z_digits n H) as (Hd & _ & _).
  split; intros Hin; apply (forallb_elem _ _ _ Hd) in Hin; done.
Qed.

Lemma reason_phrase_line s : line_text (reason_phrase s).
Proof.
  unfold line_text, reason_phrase.
  repeat destr_match; (split; [done|]); apply (bool_decide_unpack _); vm_compute; exact I.
Qed.

Lemma kept_header_line h : kept_header h = true -> line_text (header_line h).
Proof.
  unfold kept_header, valid_response_header. intros H. bool_hyps. unfold line_text, header_line.
  assert (Hn : forall c, c = CR \/ c = LF -> c ∉ h.1).
  { intros c Hc Hin. match goal with H : forallb is_tchar _ = true |- _ => apply (forallb_elem _ _ _ H) in Hin end.
    destruct Hc; by subst. }
  assert (Hv : forall c, c = CR \/ c = LF -> c ∉ h.2).
  { intros c Hc Hin. match goal with H : forallb _ h.2 = true |- _ => apply (forallb_elem _ _ _ H) in Hin end.
    destruct Hc; subst; vm_compute in Hin; done. }
  assert (Hs : forall c, c = CR \/ c = LF -> c ∉ bs ": ") by (intros c [-> | ->]; apply (bool_decide_unpack _); done).
  split_and!; [by destruct h.1| |]; rewrite !elem_of_app; intros [?|[?|?]];
    first [by eapply (Hn CR); auto|by eapply (Hs CR); auto|by eapply (Hv CR); auto
          |by eapply (Hn LF); auto|by eapply (Hs LF); auto|by eapply (Hv LF); auto].
Qed.

Lemma response_lines_text r close : 0 <= status r -> 0 <= sent_length r -> Forall line_text (response_lines r close).
Proof.
  intros Hs Hl. destruct (digits_line _ Hs) as [D1 D2], (digits_line _ Hl) as [L1 L2].
  destruct (reason_phrase_line (status r)) as (_ & R1 & R2).
  assert (Hc : forall c (s : bytes), bool_decide (c ∉ s) = true -> c ∉ s) by (intros c s; apply bool_decide_eq_true).
  unfold response_lines. constructor.
  - split_and!; [done| |]; rewrite !elem_of_app; intros [H|[H|[H|H]]]; try done; revert H; by apply Hc.
  - apply Forall_app. split.
    + apply Forall_map, Forall_forall. intros h [_ Hk]%elem_of_filter_list. by apply kept_header_line.
    + constructor; [|destruct close; [constructor; [|done]|done]].
      * split_and!; [done| |]; rewrite elem_of_app; intros [H|H]; try done; revert H; by apply Hc.
      * split_and!; [done| |]; by apply Hc.
Qed.

Lemma parse_u64_nonneg v n : parse_u64 v = Some n -> 0 <= n.
Proof. intros H. apply parse_unsigned_range in H. lia. Qed.

Lemma declared_length_nonneg hs n : declared_length hs = Some n -> 0 <= n.
Proof.
  induction hs as [|h hs IH]; simpl; [done|]. destruct (eq_ignore_ascii_case _ _); [|done].
  destruct (parse_u64 h.2) eqn:E; [|done]. intros [= <-]. by apply parse_u64_nonneg in E.
Qed.

Lemma sent_length_nonneg r : 0 <= sent_length r.
Proof.
  unfold sent_length. destruct (is_empty (body r)); [|apply len_nonneg].
  destruct (declared_length _) as [n|] eqn:E; simpl; [by eapply declared_length_nonneg|done].
Qed.

(** * A client's reading *)

(** The lines up to the first empty one, and what follows it. *)
Fixpoint read_lines (fuel : nat) (wire : bytes) : option (list bytes * bytes) :=
  match fuel with
  | O => None
  | S fuel' =>
      match find_sub [x0d; x0a] wire with
      | None => None
      | Some i =>
          if (i =? 0)%nat then Some ([], drop 2 wire)
          else match read_lines fuel' (drop (i + 2) wire) with
               | Some (lines, rest) => Some (take i wire :: lines, rest)
               | None => None
               end
      end
  end.

Definition read_message (wire : bytes) : option (list bytes * bytes) := read_lines (S (length wire)) wire.

(** The name of a field line, in lower case. *)
Definition field_name (line : bytes) : bytes :=
  lowercase (match split_once x3a line with Some (name, _) => name | None => line end).

(** The fields that say where a message ends and what becomes of the connection. *)
Definition framing_names : list bytes :=
  [bs "content-length"; bs "connection"; bs "keep-alive"; bs "proxy-connection"; bs "transfer-encoding";
   bs "trailer"; bs "upgrade"].

Definition contains_name (name : bytes) (names : list bytes) : bool := existsb (fun n => n ==b name) names.

Lemma find_line l rest : CR ∉ l -> find_sub [x0d; x0a] (l ++ crlf ++ rest) = Some (length l).
Proof.
  induction l as [|b l IH]; [done|]. intros [Hb Hl]%not_elem_of_cons. cbn [app find_sub].
  unfold starts_with at 1. cbn [strip_prefix]. rewrite bool_decide_false by (intros E; by apply Hb).
  by rewrite (IH Hl).
Qed.

Lemma read_lines_spec lines rest : Forall line_text lines -> forall fuel, (length lines < fuel)%nat ->
  read_lines fuel (concat (map (fun l => l ++ crlf) lines) ++ crlf ++ rest) = Some (lines, rest).
Proof.
  induction 1 as [|l ls (Hne & Hcr & _) Hls IH]; intros [|fuel] Hf; try (simpl in Hf; lia); [done|].
  cbn [map concat read_lines]. rewrite <- !app_assoc, find_line by done.
  destruct (Nat.eqb_spec (length l) 0) as [E|_]; [by destruct l|].
  set (t := concat (map (fun l0 => l0 ++ crlf) ls) ++ crlf ++ rest) in *.
  assert (Ed : drop (length l + 2) (l ++ crlf ++ t) = t).
  { rewrite (app_assoc l crlf t). apply drop_app_length'. by rewrite length_app. }
  rewrite Ed, take_app_length, IH by (simpl in Hf; lia). done.
Qed.

Lemma read_message_lines lines rest : lines <> [] -> Forall line_text lines ->
  read_message (join crlf lines ++ crlf ++ crlf ++ rest) = Some (lines, rest).
Proof.
  intros Hne Ht. unfold read_message. rewrite app_assoc, <- concat_lines by done.
  apply read_lines_spec; [done|]. rewrite length_app. cut (length lines <= length (concat (map (fun l => l ++ crlf) lines)))%nat; [lia|].
  clear. induction lines as [|l ls IH]; simpl; [lia|]. rewrite !length_app. simpl. lia.
Qed.

Lemma header_line_name h : kept_header h = true -> field_name (header_line h) = lowercase h.1.
Proof.
  unfold kept_header, valid_response_header. intros H. bool_hyps. unfold field_name, header_line.
  assert (E : split_once x3a (h.1 ++ bs ": " ++ h.2) = Some (h.1, bs " " ++ h.2)).
  { apply split_once_Some. split; [done|]. intros Hin.
    match goal with H : forallb is_tchar _ = true |- _ => by apply (forallb_elem _ _ _ H) in Hin end. }
  by rewrite E.
Qed.

Lemma kept_header_name h : kept_header h = true -> contains_name (lowercase h.1) framing_names = false.
Proof.
  unfold kept_header, is_hop_by_hop, eq_ignore_ascii_case. intros H. bool_hyps. cbn [contains_name framing_names existsb].
  apply not_true_iff_false. unfold contains_name, framing_names. cbn [existsb].
  rewrite !orb_true_iff, !bool_decide_eq_true. intros E. destruct_or! E; try done; congruence.
Qed.

Lemma filter_kept_headers r :
  List.filter (fun l => contains_name (field_name l) framing_names) (map header_line (kept_headers r)) = [].
Proof.
  unfold kept_headers. induction (resp_headers r) as [|h hs IH]; [done|]. cbn [List.filter].
  destruct (kept_header h) eqn:E; [|done]. cbn [map List.filter].
  by rewrite header_line_name, kept_header_name.
Qed.

Lemma content_length_name n : contains_name (field_name (bs "Content-Length: " ++ show_Z n)) framing_names = true.
Proof. reflexivity. Qed.

(** * HEAD responses *)

Lemma has_header_app n a b : has_header n (a ++ b) = has_header n a || has_header n b.
Proof. unfold has_header. by rewrite existsb_app. Qed.

Lemma declared_length_app a b : has_header (bs "content-length") a = false ->
  declared_length (a ++ b) = declared_length b.
Proof.
  induction a as [|h a IH]; [done|]. unfold has_header in *. simpl. intros [H1 H2]%orb_false_elim.
  rewrite H1. by apply IH.
Qed.

Lemma finalize_length r id head_only : has_header (bs "content-length") (resp_headers r) = false ->
  len (body r) <= u64_max -> declared_length (resp_headers (finalize r id head_only)) = Some (len (body r)).
Proof.
  intros Hh Hl. set (extra := [(bs "x-amz-request-id", id); (bs "x-amz-id-2", id); (bs "connection", bs "keep-alive")]).
  assert (Hf : resp_headers (finalize r id head_only)
               = resp_headers r ++ extra ++ [(bs "content-length", show_Z (len (body r)))]).
  { unfold finalize, header. cbn [resp_headers body status]. rewrite <- !app_assoc. fold extra.
    cbn [app] in *. rewrite has_header_app, Hh. by destruct head_only. }
  rewrite Hf, declared_length_app by done. simpl. unfold parse_u64.
  pose proof (len_nonneg (body r)). rewrite parse_unsigned_show, checked_in by lia. done.
Qed.

(** * Claims *)

(** [serialize_response] succeeds exactly for a status of three digits, a
    body of at most 5 GiB, at most 128 headers and a head of at most 64 KiB,
    and then writes the status line, the kept headers, one Content-Length, the
    close header when asked, an empty line and the body. *)
Theorem serialize_response_spec (r : ServiceResponse) (close : bool) :
  serialize_response r close =
  if sendable r close then Ok (response_head r close ++ crlf ++ crlf ++ body r) else Err tt.
Proof. apply serialize_response_eq. Qed.

(** C17: No response splitting: whatever the headers of a response hold, a
    client that reads the serialized bytes line by line up to the first empty
    line finds the status line, then fields of which exactly one is named
    Content-Length, giving the length of the body when there is one, and one
    Connection: close when the connection is to be closed, with no other
    Content-Length, Connection, Keep-Alive, Proxy-Connection, Transfer-Encoding,
    Trailer or Upgrade in any case; and what follows is exactly the body. *)
Theorem response_not_split (r : ServiceResponse) (close : bool) (wire : bytes)
    (H : serialize_response r close = Ok wire) :
  exists fields n,
    read_message wire = Some ((bs "HTTP/1.1 " ++ show_Z (status r) ++ bs " " ++ reason_phrase (status r)) :: fields,
                              body r) /\
    List.filter (fun l => contains_name (field_name l) framing_names) fields =
      (bs "Content-Length: " ++ show_Z n) :: (if close then [bs "Connection: close"] else []) /\
    (body r <> [] -> n = len (body r)).
Proof.
  rewrite serialize_response_eq in H. destruct (sendable r close) eqn:Es; [|done]. injection H as <-.
  unfold sendable in Es. bool_hyps. pose proof (sent_length_nonneg r) as Hl.
  pose proof (response_lines_text r close ltac:(lia) Hl) as Ht.
  pose proof (read_message_lines (response_lines r close) (body r) ltac:(discriminate) Ht) as Hread.
  eexists _, (sent_length r). split; [exact Hread|].
  split; [|unfold sent_length; by destruct (body r)].
  rewrite List.filter_app, filter_kept_headers. cbn [app List.filter].
  by rewrite content_length_name; destruct close.
Qed.

Definition sample_response : ServiceResponse :=
  {| status := 200; resp_headers := [(bs "etag", bs "abc"); (bs "x-bad", [CR; LF]); (bs "Connection", bs "keep-alive");
       (bs "transfer-Encoding", bs "chunked")];
     body := bs "data" |}.

Lemma response_not_split_witness :
  exists wire fields, serialize_response sample_response true = Ok wire /\
    read_message wire = Some (bs "HTTP/1.1 200 OK" :: fields, bs "data").
Proof.
  eexists. edestruct (response_not_split sample_response true) as (fields & n & Hr & _); [vm_compute; reflexivity|].
  exists fields. split; [vm_compute; reflexivity|exact Hr].
Defined.

(** The answer to a HEAD request has no body and the same head as the
    answer with the body: it announces the length the body would have had. *)
Theorem head_response_same_head (r : ServiceResponse) (id : bytes) (close : bool)
    (H : body r = [] \/ has_header (bs "content-length") (resp_headers r) = false)
    (Hl : len (body r) <= u64_max) :
  body (finalize r id true) = [] /\
  response_head (finalize r id true) close = response_head (finalize r id false) close.
Proof.
  split; [done|]. unfold response_head, response_lines.
  assert (Hh : resp_headers (finalize r id true) = resp_headers (finalize r id false)) by done.
  assert (Hs : status (finalize r id true) = status (finalize r id false)) by done.
  assert (Hb : body (finalize r id false) = body r) by (unfold finalize, header; cbn [body resp_headers status]; case_match; reflexivity).
  unfold kept_headers. rewrite Hh, Hs.
  replace (sent_length (finalize r id true)) with (sent_length (finalize r id false)); [done|].
  unfold sent_length. rewrite Hb, <- Hh. change (body (finalize r id true)) with (@nil byte).
  destruct H as [-> |H]; [done|]. rewrite finalize_length by done. cbn [is_empty].
  destruct (body r); [done|]. done.
Qed.

Lemma head_response_same_head_witness :
  body (finalize sample_response (bs "id") true) = [] /\
  response_head (finalize sample_response (bs "id") true) true
  = response_head (finalize sample_response (bs "id") false) true.
Proof. apply head_response_same_head; [right; reflexivity | vm_compute; discriminate]. Defined.
