(* ===== verification/Exchange.v ===== *)
(** The request/response exchange of a connection, from
    [src/src/workers/http.rs]: the state machine that parses the head, streams
    the framed body to the S3 handler and queues one response.  The handler is
    the [S3Handler] trait, a class here; the theorems are about every handler
    and every sequence of reads, end-of-file, timeouts and failures. *)
From S2P Require Import Prelude Text Http Canonical XmlWrite Types Framing Response.

Definition MAX_HEAD_BYTES : Z := 64 * 1024.

(** * The handler interface *)

Inductive HandlerOutcome (S : Type) :=
| Immediate (response : ServiceResponse)
| ReceiveBody (session : S).
Arguments Immediate {S} response.
Arguments ReceiveBody {S} session.

(** The trait's methods on a handler state [H] and its sessions [S]. *)
Class S3Handler (H S : Type) := {
  operation_name : H -> RequestHead -> bytes;
  handle_head : H -> RequestHead -> H * HandlerOutcome S;
  push_body : H -> S -> bytes -> H * S * result ServiceResponse unit;
  handler_finish : H -> S -> H * S * ServiceResponse;
  abort_body : H -> S -> H * S
}.

(** * State *)

Inductive ExchangePhase (S : Type) :=
| Head (parser : RequestHeadParser)
| Body (session : S) (framing : BodyFraming)
| Responding
| Closed.
Arguments Head {S} parser.
Arguments Body {S} session framing.
Arguments Responding {S}.
Arguments Closed {S}.

Record Exchange (S : Type) := {
  ex_phase : ExchangePhase S;
  response : bytes;
  ex_status : option Z;
  operation : bytes;
  send_continue : bool;
  close_after_response : bool
}.
Arguments ex_phase {S}.
Arguments response {S}.
Arguments ex_status {S}.
Arguments operation {S}.
Arguments send_continue {S}.
Arguments close_after_response {S}.

Definition head_limits : HeadLimits :=
  {| max_head_bytes := MAX_HEAD_BYTES;
     max_request_line_bytes := max_request_line_bytes default_head_limits;
     max_header_line_bytes := max_header_line_bytes default_head_limits;
     max_headers := max_headers default_head_limits |}.

Definition expect_continue (request : RequestHead) : result unit bool :=
  match HeaderMap_get_all (headers request) (bs "expect") with
  | [] => Ok false
  | [value] => if eq_ignore_ascii_case value (bs "100-continue") then Ok true else Err tt
  | _ => Err tt
  end.

Section Exchange.
Context {H S : Type} `{S3Handler H S}.
Implicit Types (h : H) (e : Exchange S).

Definition Exchange_new : Exchange S :=
  {| ex_phase := Head (RequestHeadParser_new head_limits); response := []; ex_status := None;
     operation := bs "InvalidRequest"; send_continue := false; close_after_response := false |}.

Definition set_phase (p : ExchangePhase S) e : Exchange S :=
  {| ex_phase := p; response := response e; ex_status := ex_status e; operation := operation e;
     send_continue := send_continue e; close_after_response := close_after_response e |}.

Definition set_close (b : bool) e : Exchange S :=
  {| ex_phase := ex_phase e; response := response e; ex_status := ex_status e; operation := operation e;
     send_continue := send_continue e; close_after_response := b |}.

Definition set_operation (name : bytes) e : Exchange S :=
  {| ex_phase := ex_phase e; response := response e; ex_status := ex_status e; operation := name;
     send_continue := send_continue e; close_after_response := close_after_response e |}.

Definition set_continue (b : bool) e : Exchange S :=
  {| ex_phase := ex_phase e; response := response e; ex_status := ex_status e; operation := operation e;
     send_continue := b; close_after_response := close_after_response e |}.

Definition is_reading e : bool :=
  match ex_phase e with Head _ | Body _ _ => true | _ => false end.

Definition is_writing e : bool := match ex_phase e with Responding => true | _ => false end.

(** Seconds. *)
Definition idle_timeout e : Z :=
  match ex_phase e with Head _ => 5 | Body _ _ => 60 | Responding => 30 | Closed => 0 end.

(** * Operations *)

Definition queue_response (r : ServiceResponse) e : Exchange S :=
  let close := close_after_response e || ((400 <=? status r) || response_wants_close r) in
  match serialize_response r close with
  | Ok wire =>
      {| ex_phase := Responding; response := wire; ex_status := Some (status r); operation := operation e;
         send_continue := send_continue e; close_after_response := close |}
  | Err _ =>
      {| ex_phase := Responding; response := fallback_internal_response; ex_status := Some 500;
         operation := operation e; send_continue := send_continue e; close_after_response := true |}
  end.

Definition abort_session h e : H * Exchange S :=
  match ex_phase e with
  | Body session framing =>
      let (h, session) := abort_body h session in (h, set_phase (Body session framing) e)
  | _ => (h, e)
  end.

Definition body_is_complete e : bool :=
  match ex_phase e with Body _ framing => BodyFraming_is_complete framing | _ => false end.

Definition finish_body h e : H * Exchange S :=
  match ex_phase e with
  | Body session _ =>
      let '(h, _, r) := handler_finish h session in (h, queue_response r e)
  | _ => (h, e)
  end.

(** [ingest_body]; [None] when the body decoder runs out of fuel. *)
Definition ingest_body (now : Clock) h e (input : bytes) : option (H * Exchange S) :=
  match ex_phase e with
  | Body session framing =>
      match BodyFraming_push framing input with
      | None => None
      | Some (Err error) =>
          let (h, e) := abort_session h e in
          Some (h, queue_response (FramingError_response now error) e)
      | Some (Ok (framing, progress, decoded)) =>
          let e := set_phase (Body session framing) e in
          let e := if Z.of_nat (consumed progress) <? len input then set_close true e else e in
          let '(h, e, failed) :=
            if is_empty decoded then (h, e, None)
            else
              let '(h, session, r) := push_body h session decoded in
              (h, set_phase (Body session framing) e, match r with Ok _ => None | Err r => Some r end) in
          match failed with
          | Some r => Some (h, queue_response r e)
          | None => Some (if complete progress then finish_body h e else (h, e))
          end
      end
  | _ => Some (h, e)
  end.

(** The part of [ingest] after the head has been parsed. *)
Definition start_request (now : Clock) h e (request : RequestHead) (remainder : bytes)
  : option (H * Exchange S) :=
  let e := set_close (request_wants_close request) e in
  let e := set_operation (operation_name h request) e in
  match expect_continue request with
  | Err _ =>
      Some (h, queue_response
        (protocol_error now 417 (bs "InvalidRequest") (bs "Only Expect: 100-continue is supported")) e)
  | Ok wants_continue =>
      match BodyFraming_from_head request with
      | Err error => Some (h, queue_response (FramingError_response now error) e)
      | Ok framing =>
          let complete := BodyFraming_is_complete framing in
          let (h, outcome) := handle_head h request in
          match outcome with
          | Immediate r =>
              let e := set_close (close_after_response e || (negb complete || negb (is_empty remainder))) e in
              Some (h, queue_response r e)
          | ReceiveBody session =>
              let e := set_continue wants_continue (set_phase (Body session framing) e) in
              let next := if is_empty remainder then Some (h, e) else ingest_body now h e remainder in
              match next with
              | None => None
              | Some (h, e) => Some (if body_is_complete e then finish_body h e else (h, e))
              end
          end
      end
  end.

Definition ingest (now : Clock) h e (input : bytes) : option (H * Exchange S) :=
  match ex_phase e with
  | Head parser =>
      match RequestHeadParser_push parser input with
      | (parser, Err _) =>
          Some (h, queue_response
            (protocol_error now 400 (bs "InvalidRequest") (bs "Malformed or oversized HTTP request head")) e)
      | (parser, Ok None) => Some (h, set_phase (Head parser) e)
      | (parser, Ok (Some request)) =>
          let (parser, remainder) := take_remainder parser in
          start_request now h (set_phase (Head parser) e) request remainder
      end
  | Body _ _ => ingest_body now h e input
  | Responding | Closed => Some (h, e)
  end.

Definition eof (now : Clock) h e : H * Exchange S :=
  match ex_phase e with
  | Head _ =>
      (h, queue_response
        (protocol_error now 400 (bs "InvalidRequest")
           (bs "Connection closed before the HTTP request head was complete")) e)
  | Body _ _ =>
      let (h, e) := abort_session h e in
      (h, queue_response
        (protocol_error now 400 (bs "IncompleteBody")
           (bs "Connection closed before the request body was complete")) e)
  | Responding | Closed => (h, e)
  end.

Definition timeout (now : Clock) h e : H * Exchange S :=
  match ex_phase e with
  | Head _ | Body _ _ =>
      let (h, e) := abort_session h e in
      (h, queue_response
        (protocol_error now 408 (bs "RequestTimeout")
           (bs "The client did not send data within the allowed idle period")) e)
  | Responding | Closed => (h, e)
  end.

Definition force_internal_error (now : Clock) e : Exchange S :=
  queue_response
    (protocol_error now 500 (bs "InternalError") (bs "The request failed inside the pgs3 worker"))
    (set_continue false e).

Definition close e : Exchange S := set_phase Closed e.

Definition reset e : Exchange S := Exchange_new.

(** * Runs *)

(** What the connection does to an exchange: it reads, sees the end of the
    stream or the idle timeout, recovers from a failure of the worker, or
    abandons the connection. *)
Inductive Input :=
| Read (now : Clock) (input : bytes)
| Eof (now : Clock)
| Timeout (now : Clock)
| Recover (now : Clock)
| Abandon.

Definition step h e (i : Input) : option (H * Exchange S) :=
  match i with
  | Read now input => ingest now h e input
  | Eof now => Some (eof now h e)
  | Timeout now => Some (timeout now h e)
  | Recover now => let (h, e) := abort_session h e in Some (h, force_internal_error now e)
  | Abandon => let (h, e) := abort_session h e in Some (h, close e)
  end.

Fixpoint run h e (inputs : list Input) : option (H * Exchange S) :=
  match inputs with
  | [] => Some (h, e)
  | i :: rest => match step h e i with Some (h, e) => run h e rest | None => None end
  end.
End Exchange.

(** * The calls on the handler *)

Inductive Call :=
| CallHead (request : RequestHead) (received : bool)
| CallPush (data : bytes) (accepted : bool)
| CallFinish
| CallAbort.

(** A handler that also records the calls made on it. *)
#[export] Instance traced {H S} (handler : S3Handler H S) : S3Handler (H * list Call) S := {|
  operation_name := fun h r => operation_name (fst h) r;
  handle_head := fun h r =>
    let (h', o) := handle_head (fst h) r in
    ((h', snd h ++ [CallHead r (match o with ReceiveBody _ => true | Immediate _ => false end)]), o);
  push_body := fun h s b =>
    let '(h', s', r) := push_body (fst h) s b in ((h', snd h ++ [CallPush b (is_ok r)]), s', r);
  handler_finish := fun h s =>
    let '(h', s', r) := handler_finish (fst h) s in ((h', snd h ++ [CallFinish]), s', r);
  abort_body := fun h s => let (h', s') := abort_body (fst h) s in ((h', snd h ++ [CallAbort]), s')
|}.

(** The life of the one session an exchange may open. *)
Inductive Life := NotStarted | Open | Ended.

Definition life_step (l : Life) (c : Call) : option Life :=
  match l, c with
  | NotStarted, CallHead _ received => Some (if received then Open else Ended)
  | Open, CallPush _ accepted => Some (if accepted then Open else Ended)
  | Open, CallFinish => Some Ended
  | Open, CallAbort => Some Ended
  | _, _ => None
  end.

(** The state after a sequence of calls; [None] when a call is out of order. *)
Definition life (log : list Call) : option Life :=
  foldl (fun l c => match l with Some l => life_step l c | None => None end) (Some NotStarted) log.

(** The bytes the handler was given. *)
Definition delivered (log : list Call) : bytes :=
  concat (map (fun c => match c with CallPush b _ => b | _ => [] end) log).

(** ** Lemmas: framing in one push or two *)

Definition wf_framing_state (f : BodyFraming) : Prop :=
  match f with
  | NoBody => True
  | ContentLength n => 0 <= n
  | Chunked d => wf_decoder d
  end.

Definition join_progress (p q : DecodeProgress) : DecodeProgress :=
  {| consumed := consumed p + consumed q; complete := complete q |}.

Lemma framing_push_app f a b : wf_framing_state f ->
  BodyFraming_push f (a ++ b) =
  match BodyFraming_push f a with
  | Some (Ok (f1, p1, o1)) =>
      match BodyFraming_push f1 b with
      | Some (Ok (f2, p2, o2)) => Some (Ok (f2, join_progress p1 p2, o1 ++ o2))
      | other => other
      end
  | other => other
  end.
Proof.
  intros Hw. destruct f as [|n|d]; cbn [BodyFraming_push wf_framing_state] in *; [done| |].
  - unfold join_progress. rewrite len_app. cbn [consumed complete].
    pose proof (len_nonneg a) as Ha. pose proof (len_nonneg b) as Hb.
    assert (Hm : n - Z.min n (len a + len b) = n - Z.min n (len a) - Z.min (n - Z.min n (len a)) (len b)) by lia.
    rewrite Hm. f_equal. f_equal. f_equal; [f_equal; f_equal; lia|].
    rewrite take_app. f_equal.
    + unfold len in *. destruct (Z.min_spec n (Z.of_nat (length a))) as [[? ->]|[? ->]];
        [rewrite Z.min_l by lia; done|]. rewrite !take_ge by lia. done.
    + f_equal. unfold len in *. lia.
  - rewrite (push_is_decode d (a ++ b)), (push_is_decode d a), decode_bytes_app by done.
    destruct (decode_bytes d a) as [[[d1 n1] o1]|] eqn:E; [|done].
    cbv iota beta. cbn [BodyFraming_push]. rewrite push_is_decode by (by eapply decode_bytes_wf).
    by destruct (decode_bytes d1 b) as [[[d2 n2] o2]|].
Qed.

Lemma framing_push_wf f a f1 p o : wf_framing_state f -> BodyFraming_push f a = Some (Ok (f1, p, o)) ->
  wf_framing_state f1 /\ complete p = BodyFraming_is_complete f1.
Proof.
  intros Hw. destruct f as [|n|d]; cbn [BodyFraming_push wf_framing_state] in *.
  - by intros [= <- <- <-].
  - intros [= <- <- <-]. simpl. split; [lia|done].
  - rewrite push_is_decode by done. destruct (decode_bytes d a) as [[[d1 n1] o1]|] eqn:E; [|done].
    intros [= <- <- <-]. split; [by eapply decode_bytes_wf|done].
Qed.

Lemma framing_push_total f a : wf_framing_state f -> BodyFraming_push f a <> None.
Proof.
  intros Hw. destruct f as [|n|d]; cbn [BodyFraming_push wf_framing_state] in *; [done|done|].
  rewrite push_is_decode by done. by destruct (decode_bytes d a) as [[[? ?] ?]|].
Qed.

Lemma framing_push_nil f : wf_framing_state f ->
  BodyFraming_push f [] = Some (Ok (f, {| consumed := 0; complete := BodyFraming_is_complete f |}, [])).
Proof.
  intros Hw. destruct f as [|n|d]; cbn [BodyFraming_push wf_framing_state] in *; [done| |].
  - unfold len. simpl. rewrite Z.min_r, Z.sub_0_r by done. done.
  - by rewrite push_is_decode.
Qed.

(** ** Lemmas: the life of a session *)

Lemma life_snoc log c : life (log ++ [c]) = match life log with Some l => life_step l c | None => None end.
Proof. unfold life. by rewrite foldl_snoc. Qed.

Lemma delivered_app a b : delivered (a ++ b) = delivered a ++ delivered b.
Proof. unfold delivered. by rewrite map_app, concat_app. Qed.

Lemma delivered_push log b ok : delivered (log ++ [CallPush b ok]) = delivered log ++ b.
Proof. rewrite delivered_app. f_equal. unfold delivered. simpl. by rewrite app_nil_r. Qed.

(** ** Lemmas: what a push consumes *)

Lemma framing_push_consumed f a f1 p o : wf_framing_state f -> BodyFraming_push f a = Some (Ok (f1, p, o)) ->
  (consumed p <= length a)%nat /\ (BodyFraming_is_complete f1 = false -> consumed p = length a).
Proof.
  intros Hw. destruct f as [|n|d]; cbn [BodyFraming_push wf_framing_state] in *.
  - intros [= <- <- <-]. simpl. split; [lia|done].
  - intros [= <- <- <-]. simpl. rewrite Z.eqb_neq. unfold len. lia.
  - rewrite push_is_decode by done. destruct (decode_bytes d a) as [[[d1 n1] o1]|] eqn:E; [|done].
    intros [= <- <- <-]. simpl. destruct (decode_bytes_wf _ _ _ _ _ Hw E) as (_ & _ & ? & [->|Hc]); [done|].
    rewrite Hc. done.
Qed.

(** A parsed head comes from the complete head in the input. *)
Lemma parser_push_head p input p' r : RequestHeadParser_push p input = (p', Ok (Some r)) ->
  exists b, parse_complete_head b (limits p) = Ok r.
Proof.
  unfold RequestHeadParser_push. intros H. repeat (destr_match_in H; simplify_eq/=); eauto.
Qed.

Lemma from_head_wf p input p' r f :
  RequestHeadParser_push p input = (p', Ok (Some r)) -> BodyFraming_from_head r = Ok f -> wf_framing_state f.
Proof.
  intros [b Hb]%parser_push_head Hf. apply parse_complete_head_wf in Hb.
  pose proof (wf_framing _ _ Hb) as Hp. apply parse_framing_spec in Hp. unfold BodyFraming_from_head in Hf.
  destruct (transfer_chunked r); [injection Hf as <-; apply new_wf|].
  destruct (content_length r) as [n|]; [|by injection Hf as <-].
  destruct (MAX_HTTP_BODY_BYTES <? n); [done|]. injection Hf as <-. simpl. naive_solver lia.
Qed.

(** * The invariant *)

Section Traced.
Context {H S : Type} (handler : S3Handler H S).
Implicit Types (h : H) (log : list Call) (e : Exchange S).

(** A response is queued: an error closes the connection, and the bytes are a
    serialized response that announces the close, or the fallback. *)
Definition answered e : Prop :=
  ex_phase e = Responding /\
  exists st, ex_status e = Some st /\ (400 <= st -> close_after_response e = true) /\
    ((exists r, status r = st /\ sendable r (close_after_response e) = true /\
        response e = response_head r (close_after_response e) ++ crlf ++ crlf ++ body r) \/
     (st = 500 /\ response e = fallback_internal_response)).

(** A session is open and has been given what the framing of [total], the
    bytes after the head, yields. *)
Definition open_state (f0 : BodyFraming) (total : bytes) log e : Prop :=
  exists s f pr, ex_phase e = Body s f /\ life log = Some Open /\ (CallFinish ∉ log) /\
    BodyFraming_push f0 total = Some (Ok (f, pr, delivered log)) /\
    BodyFraming_is_complete f = false /\ consumed pr = length total.

(** The body was complete, all of it was delivered, and what followed it is
    not reused. *)
Definition whole_body (f0 : BodyFraming) (total : bytes) log e : Prop :=
  exists f pr, BodyFraming_push f0 total = Some (Ok (f, pr, delivered log)) /\
    BodyFraming_is_complete f = true /\ (Z.of_nat (consumed pr) < len total -> close_after_response e = true).

Definition parsed (data : bytes) (r : RequestHead) (p : RequestHeadParser) : Prop :=
  RequestHeadParser_push (RequestHeadParser_new head_limits) data = (p, Ok (Some r)).

(** A finished session saw the whole body of the request in [seen], the bytes
    read when it was finished. *)
Definition finished (seen : bytes) log e : Prop :=
  CallFinish ∈ log ->
  exists r p f0, parsed seen r p /\ BodyFraming_from_head r = Ok f0 /\ whole_body f0 (remainder p) log e.

Definition resolved log : Prop := life log = Some NotStarted \/ life log = Some Ended.

(** The invariant after the bytes [data], of which [seen] had been read when
    the exchange stopped reading. *)
Definition exchange_inv (data seen : bytes) log e : Prop :=
  match ex_phase e with
  | Head p => log = [] /\ RequestHeadParser_push (RequestHeadParser_new head_limits) data = (p, Ok None)
  | Body _ _ => exists r p f0, parsed data r p /\ BodyFraming_from_head r = Ok f0 /\
                  open_state f0 (remainder p) log e
  | Responding => answered e /\ resolved log /\ finished seen log e
  | Closed => resolved log /\ finished seen log e
  end.

Lemma queue_answered r e : answered (queue_response r e) /\
  (close_after_response e = true -> close_after_response (queue_response r e) = true).
Proof.
  unfold queue_response. rewrite serialize_response_eq.
  set (c := close_after_response e || ((400 <=? status r) || response_wants_close r)).
  destruct (sendable r c) eqn:Es.
  - split; [|by unfold c; intros ->]. split; [done|]. exists (status r). split; [done|]. cbn [close_after_response].
    split; [|left; by exists r]. intros Hs. unfold c. rewrite (proj2 (Z.leb_le 400 (status r))) by done.
    by rewrite orb_true_r.
  - split; [|done]. split; [done|]. exists 500. split; [done|]. split; [done|]. by right.
Qed.

(** Ending the session by finishing it. *)
Lemma finish_body_traced h log e s f :
  ex_phase e = Body s f -> life log = Some Open ->
  exists h' e', finish_body (h, log) e = ((h', log ++ [CallFinish]), e') /\ answered e' /\
    life (log ++ [CallFinish]) = Some Ended /\
    (close_after_response e = true -> close_after_response e' = true).
Proof.
  intros Hp Hl. unfold finish_body. rewrite Hp. cbn [handler_finish traced fst snd].
  destruct (handler_finish h s) as [[h' s'] r]. eexists _, _. split; [done|].
  destruct (queue_answered r e) as [Ha Hc]. split_and!; [done|by rewrite life_snoc, Hl|done].
Qed.

(** Ending it by aborting. *)
Lemma abort_session_traced h log e s f :
  ex_phase e = Body s f -> life log = Some Open -> CallFinish ∉ log ->
  exists h' e', abort_session (h, log) e = ((h', log ++ [CallAbort]), e') /\
    life (log ++ [CallAbort]) = Some Ended /\ CallFinish ∉ log ++ [CallAbort].
Proof.
  intros Hp Hl Hf. unfold abort_session. rewrite Hp. cbn [abort_body traced fst snd].
  destruct (abort_body h s) as [h' s']. eexists _, _. split; [done|]. rewrite life_snoc, Hl. split; [done|].
  rewrite elem_of_app, list_elem_of_singleton. naive_solver.
Qed.

(** The session ended in [e], with the body delivered if it was finished. *)
Definition ended_state (f0 : BodyFraming) (total : bytes) log e : Prop :=
  answered e /\ life log = Some Ended /\ (CallFinish ∈ log -> whole_body f0 total log e).

Lemma ingest_body_traced now h log e s f f0 prev pr input :
  ex_phase e = Body s f -> life log = Some Open -> CallFinish ∉ log -> wf_framing_state f0 ->
  BodyFraming_push f0 prev = Some (Ok (f, pr, delivered log)) -> consumed pr = length prev ->
  exists h' log' e', ingest_body now (h, log) e input = Some ((h', log'), e') /\
    (open_state f0 (prev ++ input) log' e' \/ ended_state f0 (prev ++ input) log' e').
Proof.
  intros Hp Hl Hf Hw Hpush Hcons. unfold ingest_body. rewrite Hp.
  pose proof (framing_push_app f0 prev input Hw) as Happ. rewrite Hpush in Happ.
  destruct (framing_push_wf _ _ _ _ _ Hw Hpush) as [Hwf _].
  destruct (BodyFraming_push f input) as [[[[f1 p1] o1]|err]|] eqn:E1; [| |by apply framing_push_total in E1].
  2:{ destruct (abort_session_traced h log e s f Hp Hl Hf) as (h' & e' & -> & Hl' & Hf').
      eexists _, _, _. split; [done|]. right. split; [apply queue_answered|]. by split. }
  destruct (framing_push_wf _ _ _ _ _ Hwf E1) as [Hwf1 Hc1].
  set (e1 := if Z.of_nat (consumed p1) <? len input then set_close true (set_phase (Body s f1) e)
             else set_phase (Body s f1) e).
  assert (He1 : ex_phase e1 = Body s f1 /\
    (Z.of_nat (consumed p1) < len input -> close_after_response e1 = true)).
  { unfold e1. destruct (Z.ltb_spec (Z.of_nat (consumed p1)) (len input)); split; try done. lia. }
  assert (Hgo : forall h2 log2 e2 s2, ex_phase e2 = Body s2 f1 -> life log2 = Some Open -> CallFinish ∉ log2 ->
      delivered log2 = delivered log ++ o1 -> close_after_response e2 = close_after_response e1 ->
      exists h' log' e', (if complete p1 then finish_body (h2, log2) e2 else ((h2, log2), e2)) = ((h', log'), e') /\
        (open_state f0 (prev ++ input) log' e' \/ ended_state f0 (prev ++ input) log' e')).
  { intros h2 log2 e2 s2 Hp2 Hl2 Hf2 Hd2 Hcl2. rewrite Hc1. destruct (BodyFraming_is_complete f1) eqn:Ec.
    - destruct (finish_body_traced h2 log2 e2 s2 f1 Hp2 Hl2) as (h' & e' & -> & Ha & Hl' & Hcl).
      eexists _, _, _. split; [done|]. right. split_and!; [done|done|]. intros _.
      exists f1, (join_progress pr p1). rewrite Happ, delivered_app, Hd2. change (delivered [CallFinish]) with (@nil byte).
      rewrite app_nil_r. split_and!; [done|done|].
      cbn [join_progress consumed]. rewrite len_app. intros Hlt. apply Hcl. rewrite Hcl2. apply He1.
      unfold len in *. lia.
    - eexists _, _, _. split; [done|]. left. exists s2, f1, (join_progress pr p1).
      rewrite Happ, Hd2. split_and!; try done. cbn [join_progress consumed].
      rewrite length_app, Hcons. f_equal. by eapply (framing_push_consumed f input). }
  fold e1. destruct He1 as [He1 _]. destruct (is_empty o1) eqn:Eo.
  - apply is_empty_true in Eo as ->. cbv iota beta.
    destruct (Hgo h log e1 s He1 Hl Hf) as (h' & log' & e' & Hr & Hd); [by rewrite app_nil_r|done|].
    rewrite Hr. eauto.
  - cbn [push_body traced fst snd]. destruct (push_body h s o1) as [[h2 s2] [[]|r]]; cbv iota beta.
    + destruct (Hgo h2 (log ++ [CallPush o1 true]) (set_phase (Body s2 f1) e1) s2) as (h' & log' & e' & Hr & Hd);
        [done|by rewrite life_snoc, Hl| |by rewrite delivered_push|done|].
      { rewrite elem_of_app, list_elem_of_singleton. naive_solver. }
      cbn [is_ok]. rewrite Hr. eauto.
    + eexists _, _, _. split; [done|]. right. split; [apply queue_answered|].
      split; [by rewrite life_snoc, Hl|]. rewrite elem_of_app, list_elem_of_singleton. naive_solver.
Qed.

(** ** The invariant is kept *)

Lemma answered_inv data seen log e : answered e -> resolved log -> finished seen log e ->
  exchange_inv data seen log e.
Proof. intros Ha Hr Hf. unfold exchange_inv. pose proof Ha as [-> _]. done. Qed.

Lemma queued_inv data seen log e r : resolved log -> CallFinish ∉ log ->
  exchange_inv data seen log (queue_response r e).
Proof. intros Hr Hf. apply answered_inv; [apply queue_answered|done|by intros ?]. Qed.

Lemma open_or_ended_inv data r p f0 log e :
  parsed data r p -> BodyFraming_from_head r = Ok f0 ->
  open_state f0 (remainder p) log e \/ ended_state f0 (remainder p) log e -> exchange_inv data data log e.
Proof.
  intros Hp Hf [Ho|(Ha & Hl & Hw)].
  - pose proof Ho as (s & f & pr & Hph & _). unfold exchange_inv. rewrite Hph. eauto 10.
  - apply answered_inv; [done|by right|]. intros Hin. exists r, p, f0. by split_and!; auto.
Qed.

Lemma start_request_inv now h e data r p : parsed data r p ->
  exists h' log' e', start_request now (h, []) e r (remainder p) = Some ((h', log'), e') /\
    exchange_inv data data log' e'.
Proof.
  intros Hp. unfold start_request.
  destruct (expect_continue r) as [wants|]; [|eexists _, _, _; split; [done|]; apply queued_inv; [by left|by apply not_elem_of_nil]].
  destruct (BodyFraming_from_head r) as [f0|] eqn:Ef;
    [|eexists _, _, _; split; [done|]; apply queued_inv; [by left|by apply not_elem_of_nil]].
  pose proof (from_head_wf _ _ _ _ _ Hp Ef) as Hw. cbn [handle_head operation_name traced fst snd].
  destruct (handle_head h r) as [h1 [resp|s]]; cbv iota beta.
  { eexists _, _, _. split; [done|]. apply queued_inv; [by right|]. by intros ?%list_elem_of_singleton. }
  set (e1 := set_continue wants (set_phase (Body s f0) _)).
  assert (Hn : CallFinish ∉ [] ++ [CallHead r true]) by (by intros ?%list_elem_of_singleton).
  pose proof (framing_push_nil f0 Hw) as Hnil.
  destruct (is_empty (remainder p)) eqn:Er.
  - apply is_empty_true in Er. unfold body_is_complete. change (ex_phase e1) with (Body s f0).
    destruct (BodyFraming_is_complete f0) eqn:Ec.
    + destruct (finish_body_traced h1 ([] ++ [CallHead r true]) e1 s f0 eq_refl eq_refl) as (h' & e' & Hfin & Ha & Hl & _).
      rewrite Hfin. eexists _, _, _. split; [done|]. eapply open_or_ended_inv; [done|done|]. right.
      split_and!; [done|done|]. intros _. rewrite Er. eexists f0, _. split_and!; [exact Hnil|done|].
      simpl. unfold len. simpl. lia.
    + eexists _, _, _. split; [done|]. eapply open_or_ended_inv; [done|done|]. left.
      rewrite Er. eexists s, f0, _. split_and!; [done|done|done|exact Hnil|done|done].
  - destruct (ingest_body_traced now h1 ([] ++ [CallHead r true]) e1 s f0 f0 [] _ (remainder p)
      eq_refl eq_refl Hn Hw Hnil eq_refl) as (h2 & log2 & e2 & Hi & Hcase).
    rewrite Hi. rewrite app_nil_l in Hcase.
    assert (Hnc : body_is_complete e2 = false).
    { unfold body_is_complete. destruct Hcase as [(s2 & f2 & pr & -> & _ & _ & _ & Hc & _)|([-> _] & _)]; done. }
    rewrite Hnc. eexists _, _, _. split; [done|]. by eapply open_or_ended_inv.
Qed.

Definition input_bytes (i : Input) : bytes := match i with Read _ b => b | _ => [] end.

(** What has been seen of the input by an exchange that stops reading now. *)
Definition seen_after e (data seen : bytes) : bytes := if is_reading e then data else seen.

Lemma inv_resolved data seen log e : exchange_inv data seen log e ->
  (match ex_phase e with Body _ _ => False | _ => True end) -> resolved log.
Proof.
  unfold exchange_inv. destruct (ex_phase e); [|done|by intros (_ & ? & _)|by intros (? & _)].
  intros [-> _] _. by left.
Qed.

Lemma ingest_inv now h log e data seen b : exchange_inv data seen log e ->
  exists h' log' e', ingest now (h, log) e b = Some ((h', log'), e') /\
    exchange_inv (data ++ b) (seen_after e (data ++ b) seen) log' e'.
Proof.
  intros Hi. unfold ingest, seen_after, is_reading. pose proof Hi as Hi'. unfold exchange_inv in Hi'.
  destruct (ex_phase e) as [p|s f| |] eqn:Hp.
  - destruct Hi' as [-> Hpush].
    pose proof (push_app (RequestHeadParser_new head_limits) data b eq_refl) as Happ. rewrite Hpush in Happ.
    destruct (RequestHeadParser_push p b) as [p1 [[r|]|err]] eqn:E.
    + cbn [take_remainder]. apply start_request_inv. unfold parsed. by rewrite <- Happ.
    + eexists _, _, _. split; [done|]. unfold exchange_inv. cbn [ex_phase set_phase]. by rewrite <- Happ.
    + eexists _, _, _. split; [done|]. apply queued_inv; [by left|by apply not_elem_of_nil].
  - destruct Hi' as (r & p & f0 & Hpar & Hf0 & s' & f' & pr & Hph & Hl & Hnf & Hpush & Hc & Hcons).
    rewrite Hp in Hph. injection Hph as <- <-.
    pose proof (push_app (RequestHeadParser_new head_limits) data b eq_refl) as Happ.
    unfold parsed in Hpar. rewrite Hpar in Happ.
    destruct (ingest_body_traced now h log e s f f0 (remainder p) pr b Hp Hl Hnf
      (from_head_wf _ _ _ _ _ Hpar Hf0) Hpush Hcons) as (h' & log' & e' & -> & Hcase).
    eexists _, _, _. split; [done|]. eapply open_or_ended_inv; [exact Happ|done|done].
  - eexists _, _, _. split; [done|]. destruct Hi' as (? & ? & ?). by apply answered_inv.
  - eexists _, _, _. split; [done|]. destruct Hi' as (? & ?). unfold exchange_inv. by rewrite Hp.
Qed.

(** Aborting, whatever the phase. *)
Lemma abort_inv h log e data seen : exchange_inv data seen log e ->
  exists h' log' e', abort_session (h, log) e = ((h', log'), e') /\ resolved log' /\
    close_after_response e' = close_after_response e /\
    (forall e2 data', (close_after_response e = true -> close_after_response e2 = true) ->
       finished (seen_after e data' seen) log' e2).
Proof.
  assert (Hkeep : forall log e, finished seen log e -> forall e2 : Exchange S,
    (close_after_response e = true -> close_after_response e2 = true) -> finished seen log e2).
  { clear. intros log e Hf e2 Hc Hin.
    destruct (Hf Hin) as (r & p & f0 & ? & ? & f & pr & ? & ? & Hcl).
    exists r, p, f0. split_and!; [done..|]. exists f, pr. split_and!; auto. }
  unfold seen_after, is_reading.
  intros Hi. pose proof Hi as Hi'. unfold exchange_inv in Hi'. destruct (ex_phase e) as [p|s f| |] eqn:Hp.
  - exists h, log, e. unfold abort_session. rewrite Hp. destruct Hi' as [-> _]. split_and!; [done|by left|done|].
    intros e2 data' _ Hin. by apply elem_of_nil in Hin.
  - destruct Hi' as (r & p & f0 & Hpar & Hf0 & s' & f' & pr & Hph & Hl & Hnf & _).
    destruct (abort_session_traced h log e s f Hp Hl Hnf) as (h' & e' & Ha & Hl' & Hnf').
    rewrite Ha. eexists _, _, _. split; [done|]. split_and!; [by right| |by intros ? ? ? ?].
    unfold abort_session in Ha. rewrite Hp in Ha. destruct (abort_body _ _) in Ha. by injection Ha as _ <-.
  - exists h, log, e. unfold abort_session. rewrite Hp. destruct Hi' as (_ & ? & Hf). split_and!; eauto.
  - exists h, log, e. unfold abort_session. rewrite Hp. destruct Hi' as (? & Hf). split_and!; eauto.
Qed.

(** Aborting and then queueing an error response. *)
Lemma abort_queue_inv h log e data seen (g : Exchange S -> Exchange S) r : exchange_inv data seen log e ->
  (forall e, close_after_response (g e) = close_after_response e) ->
  exists h' log' e', abort_session (h, log) e = ((h', log'), e') /\
    exchange_inv data (seen_after e data seen) log' (queue_response r (g e')).
Proof.
  intros Hi Hg. destruct (abort_inv h log e data seen Hi) as (h' & log' & e' & Ha & Hr & Hc & Hf).
  exists h', log', e'. split; [done|]. destruct (queue_answered r (g e')) as [Hq Hcl].
  apply answered_inv; [done|done|]. apply Hf. intros He. apply Hcl. by rewrite Hg, Hc.
Qed.

Lemma exchange_step_inv h log e data seen i : exchange_inv data seen log e ->
  exists h' log' e', step (h, log) e i = Some ((h', log'), e') /\
    exchange_inv (data ++ input_bytes i) (seen_after e (data ++ input_bytes i) seen) log' e'.
Proof.
  intros Hi. destruct i as [now b|now|now|now|]; cbn [step input_bytes]; rewrite ?app_nil_r.
  - by apply ingest_inv.
  - unfold eof. destruct (ex_phase e) as [p|s f| |] eqn:Hp.
    + eexists _, _, _. split; [done|]. unfold exchange_inv in Hi. rewrite Hp in Hi. destruct Hi as [-> _].
      apply queued_inv; [by left|by apply not_elem_of_nil].
    + edestruct (abort_queue_inv h log e data seen id) as (h' & log' & e' & -> & Hq); [done|done|].
      eexists _, _, _. split; [done|]. apply Hq.
    + eexists _, _, _. split; [done|]. unfold seen_after, is_reading. by rewrite Hp.
    + eexists _, _, _. split; [done|]. unfold seen_after, is_reading. by rewrite Hp.
  - unfold timeout. destruct (ex_phase e) as [p|s f| |] eqn:Hp;
      [..|eexists _, _, _; split; [done|]; unfold seen_after, is_reading; by rewrite Hp
         |eexists _, _, _; split; [done|]; unfold seen_after, is_reading; by rewrite Hp];
      (edestruct (abort_queue_inv h log e data seen id) as (h' & log' & e' & -> & Hq); [done|done|];
       eexists _, _, _; split; [done|]; apply Hq).
  - edestruct (abort_queue_inv h log e data seen (set_continue false)) as (h' & log' & e' & -> & Hq); [done|done|].
    eexists _, _, _. split; [done|]. apply Hq.
  - destruct (abort_inv h log e data seen Hi) as (h' & log' & e' & -> & Hr & Hc & Hf).
    eexists _, _, _. split; [done|]. unfold exchange_inv. cbn [close set_phase ex_phase]. split; [done|].
    apply Hf. unfold close. cbn [set_phase close_after_response]. by rewrite Hc.
Qed.

Lemma queue_phase r e : ex_phase (queue_response r e) = Responding.
Proof. apply (queue_answered r e). Qed.

Lemma new_inv : exchange_inv [] [] [] Exchange_new.
Proof. unfold exchange_inv. cbn [Exchange_new ex_phase]. split; [done|]. reflexivity. Qed.

(** The invariant, whatever was seen. *)
Definition exchange_ok (data : bytes) log e : Prop := exists seen, exchange_inv data seen log e.

Lemma ingest_ok now h log e data b : exchange_ok data log e ->
  exists h' log' e', ingest now (h, log) e b = Some ((h', log'), e') /\ exchange_ok (data ++ b) log' e'.
Proof. intros [seen (h' & log' & e' & Hs & Hi)%(ingest_inv now h _ _ _ _ b)]. unfold exchange_ok. eauto 10. Qed.

Lemma exchange_step_ok h log e data i : exchange_ok data log e ->
  exists h' log' e', step (h, log) e i = Some ((h', log'), e') /\ exchange_ok (data ++ input_bytes i) log' e'.
Proof. intros [seen (h' & log' & e' & Hs & Hi)%(exchange_step_inv h _ _ _ _ i)]. unfold exchange_ok. eauto 10. Qed.

Lemma new_ok : exchange_ok [] [] Exchange_new.
Proof. exists []. apply new_inv. Qed.

(** The input up to the one at which a run stopped reading. *)
Definition stopped_at h log e (inputs : list Input) (data seen : bytes) : Prop :=
  exists before i after h1 log1 e1, inputs = before ++ i :: after /\
    run (h, log) e before = Some ((h1, log1), e1) /\ is_reading e1 = true /\
    seen = data ++ concat (map input_bytes (before ++ [i])).

Lemma run_inv inputs : forall h log e data seen, exchange_inv data seen log e ->
  exists h' log' e' seen', run (h, log) e inputs = Some ((h', log'), e') /\
    exchange_inv (data ++ concat (map input_bytes inputs)) seen' log' e' /\
    (if is_reading e then is_reading e' = true \/ stopped_at h log e inputs data seen' else seen' = seen).
Proof.
  induction inputs as [|i rest IH]; intros h log e data seen Hi; cbn [run map concat].
  - rewrite app_nil_r. exists h, log, e, seen. split_and!; [done..|]. destruct (is_reading e); auto.
  - destruct (exchange_step_inv h log e data seen i Hi) as (h1 & log1 & e1 & Es & H1). rewrite Es, app_assoc.
    destruct (IH h1 log1 e1 _ _ H1) as (h' & log' & e' & seen' & -> & Hinv & Hs).
    exists h', log', e', seen'. split_and!; [done..|]. unfold seen_after in Hs. destruct (is_reading e) eqn:Er.
    + destruct (is_reading e1) eqn:Er1.
      * destruct Hs as [Hs|(before & j & after & h2 & log2 & e2 & -> & Hb & Hr2 & ->)]; [by left|]. right.
        exists (i :: before), j, after, h2, log2, e2. cbn [run app map concat]. rewrite Es, app_assoc. done.
      * right. exists [], i, rest, h, log, e. subst seen'. cbn [app map concat]. by rewrite app_nil_r.
    + destruct (is_reading e1) eqn:Er1; [|done]. exfalso. revert Es Er Er1. clear. unfold is_reading.
      destruct (ex_phase e) as [p|s f| |] eqn:Hp; [done..| |]; intros Es _;
        destruct i as [now b|now|now|now|]; cbn [step] in Es;
        unfold ingest, eof, timeout, abort_session, force_internal_error, close in Es; rewrite ?Hp in Es;
        injection Es as _ _ <-; rewrite ?queue_phase; cbn [ex_phase set_phase]; by rewrite ?Hp.
Qed.

(** The run of a fresh exchange. *)
Lemma run_new h inputs : exists h' log e seen, run (h, []) Exchange_new inputs = Some ((h', log), e) /\
  exchange_inv (concat (map input_bytes inputs)) seen log e /\
  (is_reading e = true \/ stopped_at h [] Exchange_new inputs [] seen).
Proof. exact (run_inv inputs h [] Exchange_new [] [] new_inv). Qed.

Lemma life_of_inv data seen log e : exchange_inv data seen log e ->
  exists l, life log = Some l /\ (l = Open <-> exists s f, ex_phase e = Body s f).
Proof.
  unfold exchange_inv. destruct (ex_phase e) as [p|s f| |].
  - intros [-> _]. exists NotStarted. split; [done|]. split; [done|by intros (? & ? & ?)].
  - intros (r & p & f0 & _ & _ & s' & f' & pr & Hp & Hl & _). exists Open. split; [done|]. split; eauto.
  - intros (_ & [Hl|Hl] & _); eexists; (split; [exact Hl|]); split; try done; by intros (? & ? & ?).
  - intros ([Hl|Hl] & _); eexists; (split; [exact Hl|]); split; try done; by intros (? & ? & ?).
Qed.

Lemma step_not_reading h log e i h' log' e' : (match i with Read _ _ => False | _ => True end) ->
  step (h, log) e i = Some ((h', log'), e') -> is_reading e' = false.
Proof.
  intros Hi. unfold is_reading. destruct i as [now b|now|now|now|]; [done|..]; cbn [step].
  - unfold eof. destruct (ex_phase e) eqn:Hp; [| |by intros [= <- <- <-]; rewrite Hp..].
    + intros [= <- <- <-]. by rewrite queue_phase.
    + destruct (abort_session _ _). intros [= _ <-]. by rewrite queue_phase.
  - unfold timeout. destruct (ex_phase e) eqn:Hp; [| |by intros [= <- <- <-]; rewrite Hp..];
      (destruct (abort_session _ _); intros [= _ <-]; by rewrite queue_phase).
  - destruct (abort_session _ _). intros [= _ <-]. unfold force_internal_error. by rewrite queue_phase.
  - destruct (abort_session _ _). by intros [= _ <-].
Qed.

(** * Claims *)

(** C19: Whatever the handler does and however reads, the end of the stream,
    timeouts and failures interleave, an exchange never gets stuck, and its
    calls on the handler are in order: at most one request head, body bytes
    only for an open session, and each session resolved at most once, by
    finishing it, aborting it or a refused push.  A session is open exactly
    while the exchange is reading its body. *)
Theorem exchange_lifecycle (h : H) (inputs : list Input) :
  exists h' log e l, run (h, []) Exchange_new inputs = Some ((h', log), e) /\
    life log = Some l /\ (l = Open <-> exists s f, ex_phase e = Body s f).
Proof.
  destruct (run_new h inputs) as (h' & log & e & seen & Hr & Hi & _).
  destruct (life_of_inv _ _ _ _ Hi) as (l & Hl & Hiff). eauto 10.
Qed.

(** C20: End to end, the handler is given exactly the framed body.  When a
    session was finished, the exchange was reading up to some input, and the
    bytes read up to and including that input are a request head and a complete
    body after it, which is what was pushed, whatever the reads; and when bytes
    after the body were among them, the connection is closed after the response.
    While a session is open, what was pushed is what the framing yields of all
    bytes read so far. *)
Theorem exchange_delivers (h h' : H) (inputs : list Input) (log : list Call) (e : Exchange S)
    (Hr : run (h, []) Exchange_new inputs = Some ((h', log), e)) :
  (CallFinish ∈ log ->
   exists before i after h1 log1 e1 r p f0 f pr,
     inputs = before ++ i :: after /\
     run (h, []) Exchange_new before = Some ((h1, log1), e1) /\ is_reading e1 = true /\
     parsed (concat (map input_bytes (before ++ [i]))) r p /\ BodyFraming_from_head r = Ok f0 /\
     BodyFraming_push f0 (remainder p) = Some (Ok (f, pr, delivered log)) /\ BodyFraming_is_complete f = true /\
     (Z.of_nat (consumed pr) < len (remainder p) -> close_after_response e = true)) /\
  (forall s f, ex_phase e = Body s f ->
   exists r p f0 pr, parsed (concat (map input_bytes inputs)) r p /\ BodyFraming_from_head r = Ok f0 /\
     BodyFraming_push f0 (remainder p) = Some (Ok (f, pr, delivered log)) /\ BodyFraming_is_complete f = false).
Proof.
  destruct (run_new h inputs) as (h2 & log2 & e2 & seen & Hr2 & Hi & Hs). rewrite Hr in Hr2. injection Hr2 as <- <- <-.
  split.
  - intros Hin. assert (Hf : finished seen log e /\ is_reading e = false).
    { unfold exchange_inv in Hi. unfold is_reading. destruct (ex_phase e) as [p|s f| |].
      + destruct Hi as [-> _]. by apply elem_of_nil in Hin.
      + by destruct Hi as (r & p & f0 & _ & _ & s' & f' & pr & _ & _ & Hnf & _).
      + by destruct Hi as (_ & _ & Hf).
      + by destruct Hi as (_ & Hf). }
    destruct Hf as [Hf Hre]. destruct Hs as [Hs|(before & i & after & h1 & log1 & e1 & -> & Hb & Hr1 & ->)]; [congruence|].
    destruct (Hf Hin) as (r & p & f0 & ? & ? & f & pr & ? & ? & ?).
    exists before, i, after, h1, log1, e1, r, p, f0, f, pr. by split_and!.
  - intros s f Hp. unfold exchange_inv in Hi. rewrite Hp in Hi.
    destruct Hi as (r & p & f0 & ? & ? & s' & f' & pr & Hp' & _ & _ & ? & ? & _).
    rewrite Hp in Hp'. injection Hp' as <- <-. eauto 10.
Qed.

(** An exchange in its response phase has a complete serialized response
    for the socket; an error status always closes the connection, and a
    response after which the connection closes says so. *)
Theorem exchange_answers (h h' : H) (inputs : list Input) (log : list Call) (e : Exchange S)
    (Hr : run (h, []) Exchange_new inputs = Some ((h', log), e)) (Hw : is_writing e = true) :
  exists st, ex_status e = Some st /\ (400 <= st -> close_after_response e = true) /\
    ((exists r, status r = st /\
        serialize_response r (close_after_response e) = Ok (response e)) \/
     (st = 500 /\ response e = fallback_internal_response)).
Proof.
  destruct (run_new h inputs) as (h2 & log2 & e2 & seen & Hr2 & Hi & _). rewrite Hr in Hr2. injection Hr2 as <- <- <-.
  unfold is_writing in Hw. unfold exchange_inv in Hi. destruct (ex_phase e); try done.
  destruct Hi as ([_ (st & Hs & Hc & [(r & Hst & Hsend & Hresp)|Hfb])] & _); exists st; split_and!; auto.
  left. exists r. split; [done|]. by rewrite serialize_response_eq, Hsend, Hresp.
Qed.

(** No exchange waits for ever: at the end of the stream, at the idle
    timeout, when recovering from a failure or when abandoned, it stops reading
    and leaves no session open. *)
Theorem exchange_stops (h : H) (inputs : list Input) (i : Input)
    (Hi : match i with Read _ _ => False | _ => True end) :
  exists h' log e, run (h, []) Exchange_new (inputs ++ [i]) = Some ((h', log), e) /\
    is_reading e = false /\ (life log = Some NotStarted \/ life log = Some Ended).
Proof.
  destruct (run_new h (inputs ++ [i])) as (h' & log & e & seen & Hr & Hinv & _). exists h', log, e. split; [done|].
  assert (Hread : is_reading e = false).
  { revert Hr. clear Hinv. generalize (@Exchange_new S) as e0. generalize (@nil Call) as log0. revert h.
    induction inputs as [|j js IH]; intros h log0 e0 Hr.
    - cbn [app run] in Hr. destruct (step (h, log0) e0 i) as [[[h1 log1] e1]|] eqn:E; [|done]. injection Hr as <- <- <-.
      revert E. apply step_not_reading; done.
    - cbn [app run] in Hr. destruct (step (h, log0) e0 j) as [[[h1 log1] e1]|]; [|done]. by eapply IH. }
  split; [done|]. eapply inv_resolved; [done|]. unfold is_reading in Hread. by destruct (ex_phase e).
Qed.
End Traced.

(** * Witnesses: a handler that stores PUT bodies *)

Definition storing_handler : S3Handler (list bytes) bytes := {|
  operation_name := fun _ r => method r;
  handle_head := fun h r => (h, if method r ==b bs "PUT" then ReceiveBody []
                                else Immediate (ServiceResponse_empty 204));
  push_body := fun h s b => (h, s ++ b, Ok tt);
  handler_finish := fun h s => (h ++ [s], s, ServiceResponse_empty 200);
  abort_body := fun h s => (h, s)
|}.

Definition sample_now : Clock := {| timestamp := 1700000000000000000; sequence := 1 |}.

Definition sample_reads : list Input :=
  [Read sample_now (join crlf [bs "PUT /b/k HTTP/1.1"; bs "Host: h"; bs "Content-Length: 3"; []; bs "ab"]);
   Read sample_now (bs "cGET")].

Definition sample_run : option (list bytes * list Call * Exchange bytes) :=
  @run _ _ (traced storing_handler) ([], []) Exchange_new sample_reads.

Lemma exchange_delivers_witness : exists h' log e, sample_run = Some ((h', log), e) /\
  delivered log = bs "abc" /\ CallFinish ∈ log /\
  exists before i after r p, sample_reads = before ++ i :: after /\
    parsed (concat (map input_bytes (before ++ [i]))) r p.
Proof.
  destruct sample_run as [[[h' log] e]|] eqn:E; [|vm_compute in E; discriminate].
  exists h', log, e. split; [reflexivity|].
  assert (Hl : delivered log = bs "abc" /\ CallFinish ∈ log).
  { vm_compute in E. injection E as _ <- _. split; [reflexivity|]. right. right. right. left. }
  destruct Hl as [Hd Hf]. split; [exact Hd|]. split; [exact Hf|].
  destruct (proj1 (exchange_delivers storing_handler [] h' sample_reads log e E) Hf)
    as (before & i & after & h1 & log1 & e1 & r & p & f0 & f & pr & Hi & _ & _ & Hp & _).
  exists before, i, after, r, p. split; [exact Hi|exact Hp].
Defined.

Lemma exchange_answers_witness : exists h' log e st, sample_run = Some ((h', log), e) /\
  ex_status e = Some st /\ (400 <= st -> close_after_response e = true).
Proof.
  destruct sample_run as [[[h' log] e]|] eqn:E; [|vm_compute in E; discriminate].
  destruct (exchange_answers storing_handler [] h' sample_reads log e E) as (st & Hs & Hc & _).
  - vm_compute in E. injection E as _ _ <-. reflexivity.
  - exists h', log, e, st. split_and!; auto.
Defined.

Lemma exchange_stops_witness :
  exists h' log e, @run _ _ (traced storing_handler) ([], []) Exchange_new
    ([Read sample_now (join crlf [bs "PUT /b/k HTTP/1.1"; bs "Host: h"; bs "Content-Length: 3"; []; bs "ab"])]
     ++ [Eof sample_now]) = Some ((h', log), e) /\
    is_reading e = false /\ (life log = Some NotStarted \/ life log = Some Ended).
Proof. apply (exchange_stops storing_handler). exact I. Defined.
