(* ===== verification/Metrics.v ===== *)
(** Worker metrics, from [src/src/workers/mod.rs] ([MetricDelta], the packed
    child argument) and the metric helpers of [src/src/workers/http.rs].  The
    theorems say what the buffered counters add up to. *)
From stdpp Require Import gmap.
From S2P Require Import Prelude.

#[export] Instance byte_countable : Countable byte :=
  inj_countable Byte.to_N Byte.of_N Byte.of_to_N.

(** * The child argument *)

(** [as u32] and [as i32]. *)
Definition as_u32 (z : Z) : Z := z mod 2 ^ 32.
Definition as_i32 (z : Z) : Z := let u := as_u32 z in if u <? 2 ^ 31 then u else u - 2 ^ 32.

Definition pack_child_argument (launcher_pid slot : Z) : Z :=
  Z.lor (Z.shiftl (as_u32 launcher_pid) 32) (as_u32 slot).

Definition unpack_child_argument (argument : Z) : Z * Z :=
  (as_i32 (Z.shiftr argument 32), as_i32 argument).

(** * Deltas *)

Record MetricDelta := {
  requests : Z;
  errors : Z;
  d_bytes_in : Z;
  d_bytes_out : Z;
  in_flight_delta : Z;
  latency_us : Z;
  latency_le_1ms : Z;
  latency_le_5ms : Z;
  latency_le_10ms : Z;
  latency_le_50ms : Z;
  latency_le_100ms : Z;
  latency_le_500ms : Z;
  latency_le_1s : Z
}.

Definition default_delta : MetricDelta :=
  {| requests := 0; errors := 0; d_bytes_in := 0; d_bytes_out := 0; in_flight_delta := 0; latency_us := 0;
     latency_le_1ms := 0; latency_le_5ms := 0; latency_le_10ms := 0; latency_le_50ms := 0;
     latency_le_100ms := 0; latency_le_500ms := 0; latency_le_1s := 0 |}.

#[export] Instance MetricDelta_eq_decision : EqDecision MetricDelta.
Proof. solve_decision. Defined.

Definition MetricDelta_is_empty (d : MetricDelta) : bool := d ==b default_delta.

Definition set_in_flight (n : Z) (d : MetricDelta) : MetricDelta :=
  {| requests := requests d; errors := errors d; d_bytes_in := d_bytes_in d; d_bytes_out := d_bytes_out d;
     in_flight_delta := n; latency_us := latency_us d;
     latency_le_1ms := latency_le_1ms d; latency_le_5ms := latency_le_5ms d; latency_le_10ms := latency_le_10ms d;
     latency_le_50ms := latency_le_50ms d; latency_le_100ms := latency_le_100ms d;
     latency_le_500ms := latency_le_500ms d; latency_le_1s := latency_le_1s d |}.

Definition begin_in_flight (d : MetricDelta) : MetricDelta :=
  set_in_flight (saturating_add_i64 (in_flight_delta d) 1) d.

Definition end_in_flight (d : MetricDelta) : MetricDelta :=
  set_in_flight (saturating_sub_i64 (in_flight_delta d) 1) d.

(** [i64::try_from(x).unwrap_or(i64::MAX)] for an unsigned [x]. *)
Definition to_i64 (x : Z) : Z := if x <=? i64_max then x else i64_max.

(** [Duration::as_micros]; a duration is its nanoseconds. *)
Definition as_micros (elapsed : Z) : Z := elapsed / 1000.

Definition flag (b : bool) : Z := if b then 1 else 0.

Definition observe_completion (d : MetricDelta) (is_error : bool) (bytes_in bytes_out elapsed : Z) : MetricDelta :=
  let us := to_i64 (as_micros elapsed) in
  {| requests := saturating_add_i64 (requests d) 1;
     errors := saturating_add_i64 (errors d) (flag is_error);
     d_bytes_in := saturating_add_i64 (d_bytes_in d) (to_i64 bytes_in);
     d_bytes_out := saturating_add_i64 (d_bytes_out d) (to_i64 bytes_out);
     in_flight_delta := in_flight_delta d;
     latency_us := saturating_add_i64 (latency_us d) us;
     latency_le_1ms := saturating_add_i64 (latency_le_1ms d) (flag (us <=? 1000));
     latency_le_5ms := saturating_add_i64 (latency_le_5ms d) (flag (us <=? 5000));
     latency_le_10ms := saturating_add_i64 (latency_le_10ms d) (flag (us <=? 10000));
     latency_le_50ms := saturating_add_i64 (latency_le_50ms d) (flag (us <=? 50000));
     latency_le_100ms := saturating_add_i64 (latency_le_100ms d) (flag (us <=? 100000));
     latency_le_500ms := saturating_add_i64 (latency_le_500ms d) (flag (us <=? 500000));
     latency_le_1s := saturating_add_i64 (latency_le_1s d) (flag (us <=? 1000000)) |}.

(** * The buffer of an HTTP worker, by operation *)

Abbreviation Metrics := (gmap bytes MetricDelta).

(** [entry(operation).or_default()] *)
Definition entry (m : Metrics) (operation : bytes) : MetricDelta := default default_delta (m !! operation).

Record CompletedIo := { is_error : bool; bytes_in : Z; bytes_out : Z; elapsed : Z }.

Definition track_in_flight_start (m : Metrics) (operation : bytes) : Metrics :=
  <[operation := begin_in_flight (entry m operation)]> m.

(** The metrics and the new value of [current]. *)
Definition reclassify_in_flight (m : Metrics) (current operation : bytes) : Metrics * bytes :=
  if operation ==b current then (m, current)
  else
    let m := <[current := end_in_flight (entry m current)]> m in
    let m := <[operation := begin_in_flight (entry m operation)]> m in
    (m, operation).

Definition track_completion (m : Metrics) (operation : bytes) (c : CompletedIo) : Metrics :=
  <[operation := end_in_flight
      (observe_completion (entry m operation) (is_error c) (bytes_in c) (bytes_out c) (elapsed c))]> m.

Definition track_immediate_error (m : Metrics) (operation : bytes) (bytes_out elapsed : Z) : Metrics :=
  track_completion (track_in_flight_start m operation) operation
    {| is_error := true; bytes_in := 0; bytes_out := bytes_out; elapsed := elapsed |}.

(** [flush_metrics]: [store] tells which deltas [add_worker_metric] has taken. *)
Definition flush_metrics (store : bytes -> MetricDelta -> bool) (m : Metrics) : Metrics * bool :=
  (base.filter (fun p => store (fst p) (snd p) = false) m,
   bool_decide (map_Forall (fun operation d => store operation d = true) m)).

(** * The child argument round trip *)

Lemma as_i32_as_u32 z : i32_min <= z <= i32_max -> as_i32 (as_u32 z) = z.
Proof.
  unfold as_i32, as_u32, i32_min, i32_max. intros Hz. rewrite Z.mod_mod by lia.
  destruct (Z.ltb_spec (z mod 2 ^ 32) (2 ^ 31)); Z.to_euclidean_division_equations; lia.
Qed.

Lemma as_i32_low a b : as_u32 a = as_u32 b -> as_i32 a = as_i32 b.
Proof. unfold as_i32. by intros ->. Qed.

Lemma as_u32_idem z : as_u32 (as_u32 z) = as_u32 z.
Proof. apply Z.mod_mod. lia. Qed.

Lemma shiftr_pack a b : 0 <= b < 2 ^ 32 -> Z.shiftr (Z.lor (Z.shiftl a 32) b) 32 = a.
Proof.
  intros Hb. rewrite Z.shiftr_lor, Z.shiftr_shiftl_l, Z.sub_diag, Z.shiftl_0_r by lia.
  rewrite (Z.shiftr_div_pow2 b), (Z.div_small b) by lia. apply Z.lor_0_r.
Qed.

Lemma low_pack a b : 0 <= b < 2 ^ 32 -> as_u32 (Z.lor (Z.shiftl a 32) b) = b.
Proof.
  intros Hb. unfold as_u32. apply Z.bits_inj'. intros n Hn.
  destruct (Z.lt_ge_cases n 32) as [Hlt|Hge].
  - rewrite Z.mod_pow2_bits_low, Z.lor_spec, Z.shiftl_spec_low by lia. done.
  - rewrite Z.mod_pow2_bits_high by lia. rewrite <- (Z.mod_small b (2 ^ 32)) by lia.
    by rewrite Z.mod_pow2_bits_high by lia.
Qed.

Lemma pack_sum a b : 0 <= b < 2 ^ 32 -> Z.lor (Z.shiftl a 32) b = 2 ^ 32 * a + b.
Proof.
  intros Hb. rewrite (Z.div_mod (Z.lor _ _) (2 ^ 32)) by lia. f_equal; [f_equal|exact (low_pack a b Hb)].
  rewrite <- Z.shiftr_div_pow2 by lia. by apply shiftr_pack.
Qed.

(** The launcher's process id and the slot survive the packed argument of
    a child worker, for every pair of 32-bit integers. *)
Theorem child_argument_roundtrip (launcher_pid slot : Z) :
  i32_min <= launcher_pid <= i32_max -> i32_min <= slot <= i32_max ->
  unpack_child_argument (pack_child_argument launcher_pid slot) = (launcher_pid, slot) /\
  0 <= pack_child_argument launcher_pid slot <= u64_max.
Proof.
  intros Hp Hs. assert (Hu : forall z, 0 <= as_u32 z < 2 ^ 32) by (intros z; apply Z.mod_pos_bound; lia).
  unfold unpack_child_argument, pack_child_argument. split.
  - rewrite shiftr_pack by done. f_equal; [by apply as_i32_as_u32|].
    rewrite <- (as_i32_as_u32 slot Hs) at 2. apply as_i32_low. by rewrite low_pack, as_u32_idem.
  - rewrite pack_sum by done.
    pose proof (Hu launcher_pid). pose proof (Hu slot). unfold u64_max. lia.
Qed.

Lemma child_argument_roundtrip_witness :
  unpack_child_argument (pack_child_argument 42001 (-1)) = (42001, -1) /\
  0 <= pack_child_argument 42001 (-1) <= u64_max.
Proof. apply (child_argument_roundtrip 42001 (-1)); vm_compute; split; discriminate. Defined.

(** * Counters *)

Definition count {A} (f : A -> bool) (l : list A) : Z := len (List.filter f l).

Definition total {A} (f : A -> Z) (l : list A) : Z := foldr (fun x n => f x + n) 0 l.

Definition observe (d : MetricDelta) (c : CompletedIo) : MetricDelta :=
  observe_completion d (is_error c) (bytes_in c) (bytes_out c) (elapsed c).

Definition observe_all (d : MetricDelta) (cs : list CompletedIo) : MetricDelta := foldl observe d cs.

Definition micros (c : CompletedIo) : Z := as_micros (elapsed c).

(** What the counters hold after some completions. *)
Record tallies (d : MetricDelta) (cs : list CompletedIo) : Prop := {
  tally_requests : requests d = len cs;
  tally_errors : errors d = count is_error cs;
  tally_bytes_in : d_bytes_in d = Z.min i64_max (total bytes_in cs);
  tally_bytes_out : d_bytes_out d = Z.min i64_max (total bytes_out cs);
  tally_latency : latency_us d = Z.min i64_max (total micros cs);
  tally_1ms : latency_le_1ms d = count (fun c => micros c <=? 1000) cs;
  tally_5ms : latency_le_5ms d = count (fun c => micros c <=? 5000) cs;
  tally_10ms : latency_le_10ms d = count (fun c => micros c <=? 10000) cs;
  tally_50ms : latency_le_50ms d = count (fun c => micros c <=? 50000) cs;
  tally_100ms : latency_le_100ms d = count (fun c => micros c <=? 100000) cs;
  tally_500ms : latency_le_500ms d = count (fun c => micros c <=? 500000) cs;
  tally_1s : latency_le_1s d = count (fun c => micros c <=? 1000000) cs
}.

Definition measured (c : CompletedIo) : Prop := 0 <= bytes_in c /\ 0 <= bytes_out c /\ 0 <= elapsed c.

Lemma count_snoc {A} (f : A -> bool) l x : count f (l ++ [x]) = count f l + flag (f x).
Proof. unfold count. rewrite List.filter_app, len_app. simpl. by destruct (f x). Qed.

Lemma count_bounds {A} (f : A -> bool) l : 0 <= count f l <= len l.
Proof.
  unfold count. split; [apply len_nonneg|]. induction l as [|x l IH]; simpl; [done|].
  destruct (f x); rewrite !len_cons; lia.
Qed.

Lemma total_snoc {A} (f : A -> Z) l x : total f (l ++ [x]) = total f l + f x.
Proof. unfold total. induction l as [|y l IH]; simpl; [lia|]. rewrite IH. lia. Qed.

Lemma total_nonneg {A} (f : A -> Z) l : Forall (fun x => 0 <= f x) l -> 0 <= total f l.
Proof. induction 1; simpl; [done|]. fold (total f l). lia. Qed.

Lemma saturating_count n b : 0 <= n < i64_max -> saturating_add_i64 n (flag b) = n + flag b.
Proof. intros Hn. unfold saturating_add_i64, clamp_i64, i64_min in *. destruct b; simpl in *; lia. Qed.

Lemma saturating_total n x : 0 <= n -> 0 <= x ->
  saturating_add_i64 (Z.min i64_max n) (to_i64 x) = Z.min i64_max (n + x).
Proof.
  intros Hn Hx. unfold saturating_add_i64, clamp_i64, to_i64, i64_min, i64_max.
  destruct (Z.leb_spec x 9223372036854775807); lia.
Qed.

Lemma micros_capped bound c : bound < i64_max -> (to_i64 (micros c) <=? bound) = (micros c <=? bound).
Proof.
  intros Hb. unfold to_i64. destruct (Z.leb_spec (micros c) i64_max); [done|].
  destruct (Z.leb_spec i64_max bound), (Z.leb_spec (micros c) bound); lia.
Qed.

Lemma tallies_observe d cs c : tallies d cs -> Forall measured (cs ++ [c]) -> len cs < i64_max ->
  tallies (observe d c) (cs ++ [c]).
Proof.
  intros T Hm Hl. apply Forall_app in Hm as [Hm Hc]. apply Forall_inv in Hc as (C1 & C2 & C3).
  assert (C4 : 0 <= micros c) by (unfold micros, as_micros; apply Z.div_pos; lia).
  assert (Hcount : forall f, 0 <= count f cs < i64_max) by (intros f; pose proof (count_bounds f cs); lia).
  assert (T1 : 0 <= total bytes_in cs) by (eapply total_nonneg, Forall_impl; [done|by intros ? (?&?&?)]).
  assert (T2 : 0 <= total bytes_out cs) by (eapply total_nonneg, Forall_impl; [done|by intros ? (?&?&?)]).
  assert (T3 : 0 <= total micros cs).
  { eapply total_nonneg, Forall_impl; [done|]. intros ? (?&?&?). apply Z.div_pos; lia. }
  assert (Hf : forall bound, bound < i64_max -> flag (to_i64 (as_micros (elapsed c)) <=? bound) = flag (micros c <=? bound)).
  { intros bound Hb. f_equal. by apply micros_capped. }
  destruct T. constructor; cbn [observe observe_completion requests errors d_bytes_in d_bytes_out latency_us
    latency_le_1ms latency_le_5ms latency_le_10ms latency_le_50ms latency_le_100ms latency_le_500ms latency_le_1s];
    rewrite ?count_snoc, ?total_snoc, ?Hf by (unfold i64_max; lia).
  - rewrite tally_requests0, len_app, len_cons, len_nil. pose proof (len_nonneg cs).
    apply (saturating_count (len cs) true). lia.
  - rewrite tally_errors0. by apply saturating_count.
  - rewrite tally_bytes_in0. by apply saturating_total.
  - rewrite tally_bytes_out0. by apply saturating_total.
  - rewrite tally_latency0. by apply (saturating_total _ (micros c)).
  - rewrite tally_1ms0. by apply saturating_count.
  - rewrite tally_5ms0. by apply saturating_count.
  - rewrite tally_10ms0. by apply saturating_count.
  - rewrite tally_50ms0. by apply saturating_count.
  - rewrite tally_100ms0. by apply saturating_count.
  - rewrite tally_500ms0. by apply saturating_count.
  - rewrite tally_1s0. by apply saturating_count.
Qed.

(** After any sequence of completions the buffered counters are exact: the
    requests and errors, the cumulative latency buckets, and the byte and
    latency totals up to saturation at the largest 64-bit integer. *)
Theorem metric_totals (cs : list CompletedIo) : Forall measured cs -> len cs <= i64_max ->
  tallies (observe_all default_delta cs) cs.
Proof.
  induction cs as [|c cs IH] using rev_ind; intros Hm Hl; [by constructor|].
  unfold observe_all. rewrite foldl_app. cbn [foldl]. rewrite len_app, len_cons, len_nil in Hl.
  apply tallies_observe; [|done|lia]. apply IH; [|lia]. by apply Forall_app in Hm as [? _].
Qed.

Lemma metric_totals_witness :
  let cs := [{| is_error := true; bytes_in := 17; bytes_out := 29; elapsed := 7500000 |};
             {| is_error := false; bytes_in := u64_max; bytes_out := 1; elapsed := 900000 |}] in
  tallies (observe_all default_delta cs) cs /\ latency_le_5ms (observe_all default_delta cs) = 1.
Proof.
  intros cs. split; [|vm_compute; reflexivity].
  apply (metric_totals cs); [repeat constructor; vm_compute; discriminate|vm_compute; discriminate].
Defined.
