(* ===== verification/Connection.v ===== *)
(** One connection of the HTTP worker, from [src/src/workers/http.rs]:
    [Connection] drives an exchange over a non-blocking socket, a bounded
    number of reads and writes at a time.  The socket and the clock are the
    environment: what the next reads and writes return is a script, and the
    theorems are about every script.  They say what a peer is sent on a
    connection and that every exchange is driven by the rules of its own
    state machine. *)
From S2P Require Import Prelude Text Http XmlWrite Types Framing Response Exchange Metrics.

Definition IO_CHUNK_BYTES : Z := 64 * 1024.
Definition MAX_IO_STEPS_PER_TICK : nat := 8.
Definition CONTINUE_RESPONSE : bytes := bs "HTTP/1.1 100 Continue" ++ [x0d; x0a; x0d; x0a].

(** * The socket *)

Inductive IoError := WouldBlock | Interrupted | OtherError.

(** What the coming reads return (no bytes at the end of the stream), how many bytes the coming writes take, the bytes sent,
    whether it was shut down, and how often the clock was read.  A script that
    has run out would block. *)
Record TcpStream := {
  arriving : list (result IoError bytes);
  accepting : list (result IoError nat);
  sent : bytes;
  shut_down : bool;
  ticks : nat
}.

Definition set_arriving (l : list (result IoError bytes)) (s : TcpStream) : TcpStream :=
  {| arriving := l; accepting := accepting s; sent := sent s; shut_down := shut_down s; ticks := ticks s |}.

(** A read into the scratch buffer: what does not fit stays for the next. *)
Definition stream_read (s : TcpStream) : TcpStream * result IoError bytes :=
  match arriving s with
  | [] => (s, Err WouldBlock)
  | Err e :: rest => (set_arriving rest s, Err e)
  | Ok data :: rest =>
      let size := Z.to_nat IO_CHUNK_BYTES in
      (set_arriving (match drop size data with [] => rest | more => Ok more :: rest end) s, Ok (take size data))
  end.

(** A write takes a prefix of what it is given. *)
Definition stream_write (s : TcpStream) (buffer : bytes) : TcpStream * result IoError nat :=
  match accepting s with
  | [] => (s, Err WouldBlock)
  | Err e :: rest =>
      ({| arriving := arriving s; accepting := rest; sent := sent s; shut_down := shut_down s; ticks := ticks s |}, Err e)
  | Ok n :: rest =>
      let n := Nat.min n (length buffer) in
      ({| arriving := arriving s; accepting := rest; sent := sent s ++ take n buffer; shut_down := shut_down s;
          ticks := ticks s |}, Ok n)
  end.

Definition stream_shutdown (s : TcpStream) : TcpStream :=
  {| arriving := arriving s; accepting := accepting s; sent := sent s; shut_down := true; ticks := ticks s |}.

Definition stream_tick (s : TcpStream) : TcpStream :=
  {| arriving := arriving s; accepting := accepting s; sent := sent s; shut_down := shut_down s; ticks := S (ticks s) |}.

(** * State *)

Inductive DriveResult :=
| Pending
| RequestComplete (completed : CompletedIo) (close_connection : bool) (operation : bytes)
| ConnectionClosed.

Record Connection (S : Type) := {
  stream : TcpStream;
  exchange : Exchange S;
  continue_written : nat;
  response_written : nat;
  bytes_written : Z;
  accepted_at : Z;
  last_activity : Z;
  bytes_read : Z;
  metric_operation : bytes;
  request_active : bool;
  request_started : bool
}.
Arguments stream {S}.
Arguments exchange {S}.
Arguments continue_written {S}.
Arguments response_written {S}.
Arguments bytes_written {S}.
Arguments accepted_at {S}.
Arguments last_activity {S}.
Arguments bytes_read {S}.
Arguments metric_operation {S}.
Arguments request_active {S}.
Arguments request_started {S}.

Definition saturating_add_usize (a b : Z) : Z := Z.min usize_max (a + b).

(** [Instant::duration_since]; instants and durations are in nanoseconds. *)
Definition duration_since (later earlier : Z) : Z := Z.max 0 (later - earlier).

Definition from_secs (s : Z) : Z := s * 1000000000.

Section Connection.
Context {H S : Type} `{S3Handler H S}.
(** [Instant::now()] and the request ids of protocol errors, by the number of
    clock readings so far. *)
Context (instant : nat -> Z) (stamp : nat -> Clock).
Implicit Types (h : H) (c : Connection S).

Definition set_stream (s : TcpStream) c : Connection S :=
  {| stream := s; exchange := exchange c; continue_written := continue_written c;
     response_written := response_written c; bytes_written := bytes_written c; accepted_at := accepted_at c;
     last_activity := last_activity c; bytes_read := bytes_read c; metric_operation := metric_operation c;
     request_active := request_active c; request_started := request_started c |}.

Definition set_exchange (e : Exchange S) c : Connection S :=
  {| stream := stream c; exchange := e; continue_written := continue_written c;
     response_written := response_written c; bytes_written := bytes_written c; accepted_at := accepted_at c;
     last_activity := last_activity c; bytes_read := bytes_read c; metric_operation := metric_operation c;
     request_active := request_active c; request_started := request_started c |}.

(** [Instant::now()] *)
Definition now_of c : Z * Connection S :=
  (instant (ticks (stream c)), set_stream (stream_tick (stream c)) c).

Definition stamp_of c : Clock := stamp (ticks (stream c)).

Definition Connection_new (s : TcpStream) : Connection S :=
  let now := instant (ticks s) in
  {| stream := stream_tick s; exchange := Exchange_new; continue_written := 0; response_written := 0;
     bytes_written := 0; accepted_at := now; last_activity := now; bytes_read := 0;
     metric_operation := bs "InvalidRequest"; request_active := false; request_started := false |}.

Definition completed c (now : Z) (transport_error : bool) : CompletedIo :=
  {| is_error := transport_error || (400 <=? default 500 (ex_status (exchange c)));
     bytes_in := bytes_read c; bytes_out := bytes_written c; elapsed := duration_since now (accepted_at c) |}.

Definition reset_exchange (now : Z) c : Connection S :=
  {| stream := stream c; exchange := reset (exchange c); continue_written := 0; response_written := 0;
     bytes_written := 0; accepted_at := accepted_at c; last_activity := now; bytes_read := 0;
     metric_operation := metric_operation c; request_active := request_active c;
     request_started := request_started c |}.

Definition take_request_started c : bool * Connection S :=
  (request_started c,
   {| stream := stream c; exchange := exchange c; continue_written := continue_written c;
      response_written := response_written c; bytes_written := bytes_written c; accepted_at := accepted_at c;
      last_activity := last_activity c; bytes_read := bytes_read c; metric_operation := metric_operation c;
      request_active := request_active c; request_started := false |}).

Definition finish_request_cycle c : Connection S :=
  {| stream := stream c; exchange := exchange c; continue_written := continue_written c;
     response_written := response_written c; bytes_written := bytes_written c; accepted_at := accepted_at c;
     last_activity := last_activity c; bytes_read := bytes_read c; metric_operation := bs "InvalidRequest";
     request_active := false; request_started := request_started c |}.

(** The bookkeeping of a read of [n] bytes at [now]. *)
Definition note_read (now n : Z) c : Connection S :=
  {| stream := stream c; exchange := exchange c; continue_written := continue_written c;
     response_written := response_written c; bytes_written := bytes_written c;
     accepted_at := if request_active c then accepted_at c else now;
     last_activity := now; bytes_read := saturating_add_usize (bytes_read c) n;
     metric_operation := metric_operation c; request_active := true;
     request_started := if request_active c then request_started c else true |}.

(** Returns true only when an idle peer closed without starting a request;
    [steps] reads are left. *)
Fixpoint drive_read_loop (steps : nat) h c : option (H * Connection S * result unit bool) :=
  match steps with
  | O => Some (h, c, Ok false)
  | Datatypes.S steps =>
      let (s, r) := stream_read (stream c) in
      let c := set_stream s c in
      match r with
      | Ok [] =>
          if request_active c then
            let (h, e) := eof (stamp_of c) h (exchange c) in Some (h, set_exchange e c, Ok false)
          else Some (h, set_exchange (close (exchange c)) c, Ok true)
      | Ok data =>
          let (now, c) := now_of c in
          let c := note_read now (len data) c in
          match ingest (stamp_of c) h (exchange c) data with
          | None => None
          | Some (h, e) =>
              let c := set_exchange e c in
              if send_continue e || negb (is_reading e) then Some (h, c, Ok false)
              else drive_read_loop steps h c
          end
      | Err WouldBlock => Some (h, c, Ok false)
      | Err Interrupted => drive_read_loop steps h c
      | Err OtherError => Some (h, c, Err tt)
      end
  end.

Definition drive_read h c : option (H * Connection S * result unit bool) :=
  drive_read_loop MAX_IO_STEPS_PER_TICK h c.

Definition note_continue (now : Z) (n : nat) c : Connection S :=
  {| stream := stream c; exchange := exchange c; continue_written := continue_written c + n;
     response_written := response_written c; bytes_written := saturating_add_usize (bytes_written c) (Z.of_nat n);
     accepted_at := accepted_at c; last_activity := now; bytes_read := bytes_read c;
     metric_operation := metric_operation c; request_active := request_active c;
     request_started := request_started c |}.

(** Every round uses up an answer of the socket, so the loop is structural on
    the answers that are left. *)
Fixpoint drive_continue_loop (answers : list (result IoError nat)) c : Connection S * result unit bool :=
  if Nat.leb (length CONTINUE_RESPONSE) (continue_written c) then
    (set_exchange (set_continue false (exchange c)) c, Ok true)
  else
    let (s, r) := stream_write (stream c) (drop (continue_written c) CONTINUE_RESPONSE) in
    let c := set_stream s c in
    let again c := match answers with [] => (c, Ok false) | _ :: rest => drive_continue_loop rest c end in
    match r with
    | Ok O => (c, Ok false)
    | Ok n => let (now, c) := now_of c in again (note_continue now n c)
    | Err WouldBlock => (c, Ok false)
    | Err Interrupted => again c
    | Err OtherError => (c, Err tt)
    end.

Definition drive_continue c : Connection S * result unit bool :=
  drive_continue_loop (accepting (stream c)) c.

Definition note_written (now : Z) (n : nat) c : Connection S :=
  {| stream := stream c; exchange := exchange c; continue_written := continue_written c;
     response_written := response_written c + n; bytes_written := saturating_add_usize (bytes_written c) (Z.of_nat n);
     accepted_at := accepted_at c; last_activity := now; bytes_read := bytes_read c;
     metric_operation := metric_operation c; request_active := request_active c;
     request_started := request_started c |}.

Fixpoint drive_write_loop (steps : nat) c : Connection S * result unit DriveResult :=
  match steps with
  | O => (c, Ok Pending)
  | Datatypes.S steps =>
      if Nat.eqb (response_written c) (length (response (exchange c))) then
        let (now, c) := now_of c in
        let done := completed c now false in
        let close_connection := close_after_response (exchange c) in
        let operation := operation (exchange c) in
        let c :=
          if close_connection then
            set_exchange (close (exchange c)) (set_stream (stream_shutdown (stream c)) c)
          else reset_exchange now c in
        (c, Ok (RequestComplete done close_connection operation))
      else
        let (s, r) := stream_write (stream c) (drop (response_written c) (response (exchange c))) in
        let c := set_stream s c in
        match r with
        | Ok O =>
            let c := set_exchange (close (exchange c)) c in
            let (now, c) := now_of c in
            (c, Ok (RequestComplete (completed c now true) true (operation (exchange c))))
        | Ok n => let (now, c) := now_of c in drive_write_loop steps (note_written now n c)
        | Err WouldBlock => (c, Ok Pending)
        | Err Interrupted => drive_write_loop steps c
        | Err OtherError => (c, Err tt)
        end
  end.

Definition drive_write c : Connection S * result unit DriveResult := drive_write_loop MAX_IO_STEPS_PER_TICK c.

Definition is_idle (now : Z) c : bool :=
  from_secs (idle_timeout (exchange c)) <=? duration_since now (last_activity c).

(** [if self.exchange.send_continue && !self.drive_continue()? { return Pending }] *)
Definition pass_continue c : Connection S * result unit bool :=
  if send_continue (exchange c) then drive_continue c else (c, Ok true).

(** [drive] after the idle timeouts. *)
Definition drive_io h c : option (H * Connection S * result unit DriveResult) :=
  match pass_continue c with
  | (c, Err e) => Some (h, c, Err e)
  | (c, Ok false) => Some (h, c, Ok Pending)
  | (c, Ok true) =>
      match (if is_reading (exchange c) then drive_read h c else Some (h, c, Ok false)) with
      | None => None
      | Some (h, c, Err e) => Some (h, c, Err e)
      | Some (h, c, Ok true) => Some (h, c, Ok ConnectionClosed)
      | Some (h, c, Ok false) =>
          match pass_continue c with
          | (c, Err e) => Some (h, c, Err e)
          | (c, Ok false) => Some (h, c, Ok Pending)
          | (c, Ok true) =>
              if is_writing (exchange c) then let (c, r) := drive_write c in Some (h, c, r)
              else Some (h, c, Ok Pending)
          end
      end
  end.

(** [None] when the body decoder runs out of fuel. *)
Definition drive (now : Z) h c : option (H * Connection S * result unit DriveResult) :=
  if negb (request_active c) && is_idle now c then
    Some (h, set_exchange (close (exchange c)) (set_stream (stream_shutdown (stream c)) c), Ok ConnectionClosed)
  else if request_active c && is_idle now c then
    if is_writing (exchange c) then
      let c := set_exchange (close (exchange c)) c in
      let (now, c) := now_of c in
      Some (h, c, Ok (RequestComplete (completed c now true) true (operation (exchange c))))
    else
      let (h, e) := timeout (stamp_of c) h (exchange c) in
      drive_io h (set_exchange e c)
  else drive_io h c.
End Connection.

(** * The exchange under its connection *)

Section ContinueFlag.
Context {H S : Type} `{S3Handler H S}.
Implicit Types (h : H) (e : Exchange S).

Definition in_head e : bool := match ex_phase e with Head _ => true | _ => false end.

(** After the head and before the end. *)
Definition late e : bool := match ex_phase e with Body _ _ | Responding => true | _ => false end.

Lemma late_not_head e : late e = true -> in_head e = false.
Proof. unfold late, in_head. by destruct (ex_phase e). Qed.

Lemma queue_continue r e : send_continue (queue_response r e) = send_continue e /\ late (queue_response r e) = true.
Proof. unfold queue_response. by destruct (serialize_response _ _). Qed.

Lemma abort_continue h e : send_continue (snd (abort_session h e)) = send_continue e.
Proof. unfold abort_session. destruct (ex_phase e); [done| |done..]. by destruct (abort_body _ _). Qed.

Lemma finish_continue h e : late e = true ->
  send_continue (snd (finish_body h e)) = send_continue e /\ late (snd (finish_body h e)) = true.
Proof.
  intros Hl. unfold finish_body. destruct (ex_phase e); [done| |done..].
  destruct (handler_finish _ _) as [[? ?] r]. apply queue_continue.
Qed.

Lemma finish_if h e (b : bool) h' e' : (if b then finish_body h e else (h, e)) = (h', e') -> late e = true ->
  send_continue e' = send_continue e /\ late e' = true.
Proof.
  intros E Hl. change e' with (snd (h', e')). rewrite <- E. destruct b; [by apply finish_continue|done].
Qed.

Lemma ingest_body_continue now h e input h' e' : ingest_body now h e input = Some (h', e') -> late e = true ->
  send_continue e' = send_continue e /\ late e' = true.
Proof.
  unfold ingest_body. intros Hi Hl. revert Hi.
  destruct (ex_phase e) as [|session framing| |] eqn:Hp; [by intros [= <- <-]| |by intros [= <- <-]..].
  destruct (BodyFraming_push framing input) as [[[[f pr] decoded]|err]|]; [| |done].
  - cbv zeta. match goal with |- context [if ?b then set_close true ?x else ?y] =>
      set (e1 := if b then set_close true x else y) end.
    assert (He1 : send_continue e1 = send_continue e /\ late e1 = true) by (unfold e1; by destruct (_ <? _)).
    destruct He1 as [He1 Hl1]. rewrite <- He1. destruct (is_empty decoded).
    + intros [= Hi]. by eapply finish_if.
    + destruct (push_body h session decoded) as [[h2 session2] [?|r]].
      * intros [= Hi]. by apply finish_if in Hi.
      * intros [= <- <-]. apply (queue_continue r (set_phase (Body session2 f) e1)).
  - pose proof (abort_continue h e) as Ha. destruct (abort_session h e) as [h1 e1]. intros [= <- <-].
    rewrite <- Ha. apply queue_continue.
Qed.

Lemma start_request_continue now h e request rest h' e' : start_request now h e request rest = Some (h', e') ->
  late e' = true.
Proof.
  unfold start_request. destruct (expect_continue request); [|intros [= <- <-]; apply queue_continue].
  destruct (BodyFraming_from_head request) as [framing|]; [|intros [= <- <-]; apply queue_continue].
  destruct (handle_head h request) as [h1 [r|session]]; [intros [= <- <-]; apply queue_continue|].
  destruct (is_empty rest).
  - intros [= Hi]. by apply finish_if in Hi as [_ ?].
  - destruct (ingest_body _ _ _ _) as [[h2 e2]|] eqn:E; [|done].
    apply ingest_body_continue in E as [_ E]; [|done]. intros [= Hi]. by apply finish_if in Hi as [_ ?].
Qed.

(** Reading: the flag changes only with the head. *)
Lemma ingest_continue now h e input h' e' : ingest now h e input = Some (h', e') ->
  (late e = true -> send_continue e' = send_continue e /\ late e' = true) /\
  (in_head e = true -> late e' = true \/ (in_head e' = true /\ send_continue e' = send_continue e)).
Proof.
  unfold ingest. intros Hi. split; intros Hl.
  - destruct (ex_phase e) as [p|s f| |] eqn:Hp; [unfold late in Hl; by rewrite Hp in Hl| |by injection Hi as <- <-..].
    by apply (ingest_body_continue _ _ _ _ _ _ Hi).
  - unfold in_head in Hl. destruct (ex_phase e) as [p|s f| |]; [|done..]. revert Hi.
    destruct (RequestHeadParser_push p input) as [p1 [[r|]|err]].
    + cbn [take_remainder]. intros Hs%start_request_continue. by left.
    + intros [= <- <-]. by right.
    + intros [= <- <-]. left. apply queue_continue.
Qed.

Lemma eof_continue now h e : is_reading e = true ->
  send_continue (snd (eof now h e)) = send_continue e /\ is_writing (snd (eof now h e)) = true.
Proof.
  unfold eof, is_reading, is_writing. destruct (ex_phase e); try done; intros _.
  - cbn [snd]. by rewrite (proj1 (queue_continue _ _)), queue_phase.
  - pose proof (abort_continue h e) as Ha. destruct (abort_session h e) as [h1 e1]. cbn [snd] in *.
    by rewrite (proj1 (queue_continue _ _)), queue_phase.
Qed.

Lemma timeout_continue now h e : is_reading e = true ->
  send_continue (snd (timeout now h e)) = send_continue e /\ is_writing (snd (timeout now h e)) = true.
Proof.
  unfold timeout, is_reading, is_writing.
  destruct (ex_phase e); try done; intros _; pose proof (abort_continue h e) as Ha;
    destruct (abort_session h e) as [h1 e1]; cbn [snd] in *; by rewrite (proj1 (queue_continue _ _)), queue_phase.
Qed.
End ContinueFlag.

(** * The invariant of a connection *)

Section Driving.
Context {H S : Type} (handler : S3Handler H S) (instant : nat -> Z) (stamp : nat -> Clock).
Implicit Types (h : H) (log : list Call) (c : Connection S) (before : bytes).
#[local] Abbreviation interim := (length CONTINUE_RESPONSE).

(** The wire: after what was sent [before] this request, the part written of
    the interim response and the part written of the response; the response is
    not begun before the interim one is complete or dropped untouched. *)
Record wire (bound : nat) before c : Prop := {
  wire_sent : sent (stream c) =
    before ++ take (continue_written c) CONTINUE_RESPONSE ++ take (response_written c) (response (exchange c));
  wire_continue : (continue_written c <= interim)%nat;
  wire_response : (response_written c <= length (response (exchange c)))%nat;
  wire_count : bytes_written c = Z.min usize_max (Z.of_nat (continue_written c + response_written c));
  wire_reading : is_writing (exchange c) = false -> response_written c = O;
  wire_head : in_head (exchange c) = true -> continue_written c = O /\ send_continue (exchange c) = false;
  wire_flag : if send_continue (exchange c) then (continue_written c < bound)%nat /\ response_written c = O
              else continue_written c = O \/ continue_written c = interim
}.

Definition is_open c : bool := is_reading (exchange c) || is_writing (exchange c).

Record conn_inv before log c : Prop := {
  conn_exchange : exists data, exchange_ok data log (exchange c) /\ bytes_read c = Z.min usize_max (len data) /\
    (request_active c = false -> data = []);
  conn_wire : wire interim before c;
  conn_open : is_open c = true;
  conn_inactive : request_active c = false -> in_head (exchange c) = true;
  conn_started : request_started c = true -> request_active c = true
}.

Definition advances (e e' : Exchange S) : Prop :=
  (late e = true -> send_continue e' = send_continue e /\ late e' = true) /\
  (in_head e = true -> late e' = true \/ (in_head e' = true /\ send_continue e' = send_continue e)).

Lemma reading_phase (e : Exchange S) : is_reading e = true -> in_head e = true \/ late e = true.
Proof. unfold is_reading, in_head, late. destruct (ex_phase e); auto. Qed.

Lemma late_open (e : Exchange S) : late e = true -> is_reading e || is_writing e = true.
Proof. unfold is_reading, is_writing, late. by destruct (ex_phase e). Qed.

Lemma head_open (e : Exchange S) : in_head e = true -> is_reading e || is_writing e = true.
Proof. unfold is_reading, is_writing, in_head. by destruct (ex_phase e). Qed.

Lemma advances_open (e e' : Exchange S) : advances e e' -> is_reading e = true -> is_reading e' || is_writing e' = true.
Proof.
  intros [A1 A2] [Hh|Hl]%reading_phase; [|by apply late_open, A1].
  destruct (A2 Hh) as [?|[? _]]; [by apply late_open|by apply head_open].
Qed.

Lemma wire_exchange bound before c e : wire bound before c -> is_reading (exchange c) = true ->
  advances (exchange c) e -> (0 < bound)%nat -> wire bound before (set_exchange e c).
Proof.
  intros [W1 W2 W3 W4 W5 W6 W7] Hr [A1 A2] Hbound.
  assert (Hrw : response_written c = O).
  { apply W5. unfold is_reading, is_writing in *. by destruct (ex_phase (exchange c)). }
  constructor; cbn [set_exchange stream exchange continue_written response_written bytes_written]; rewrite ?Hrw in *;
    try done; try lia.
  - intros He. destruct (reading_phase _ Hr) as [Hh|Hl].
    + destruct (W6 Hh) as [? Hs]. split; [done|]. destruct (A2 Hh) as [Hl|[_ ->]]; [|done].
      apply late_not_head in Hl. congruence.
    + destruct (A1 Hl) as [_ Hl']. apply late_not_head in Hl'. congruence.
  - destruct (reading_phase _ Hr) as [Hh|Hl].
    + destruct (W6 Hh) as [-> _]. destruct (send_continue e); [done|by left].
    + by destruct (A1 Hl) as [-> _].
Qed.

Lemma take_more {A} (l : list A) k n : take (k + Nat.min n (length (drop k l))) l = take k l ++ take (Nat.min n (length (drop k l))) (drop k l).
Proof. symmetry. apply take_take_drop. Qed.

(** The state of a connection apart from its stream, its exchange and its
    counters. *)
Definition same_request c c' : Prop :=
  request_active c' = request_active c /\ request_started c' = request_started c /\
  metric_operation c' = metric_operation c /\ bytes_read c' = bytes_read c /\ accepted_at c' = accepted_at c /\
  arriving (stream c') = arriving (stream c).

Lemma same_request_refl c : same_request c c.
Proof. by unfold same_request. Qed.

Lemma same_request_trans a b c : same_request a b -> same_request b c -> same_request a c.
Proof. unfold same_request. intuition congruence. Qed.

Lemma saturating_more a n m : a = Z.min usize_max (Z.of_nat n) ->
  saturating_add_usize a (Z.of_nat m) = Z.min usize_max (Z.of_nat (n + m)).
Proof. intros ->. unfold saturating_add_usize, usize_max, u64_max. lia. Qed.

Lemma stream_write_spec s buffer s' r : stream_write s buffer = (s', r) ->
  arriving s' = arriving s /\
  match accepting s with
  | [] => s' = s /\ r = Err WouldBlock
  | a :: rest => accepting s' = rest /\
      match a with
      | Err e => r = Err e /\ sent s' = sent s
      | Ok n => r = Ok (Nat.min n (length buffer)) /\ sent s' = sent s ++ take (Nat.min n (length buffer)) buffer
      end
  end.
Proof. unfold stream_write. destruct (accepting s) as [|[n|e] rest]; by intros [= <- <-]. Qed.

Lemma stream_read_sent s s' r : stream_read s = (s', r) -> sent s' = sent s.
Proof. unfold stream_read. destruct (arriving s) as [|[] ?]; by intros [= <- <-]. Qed.

(** Nothing but the stream's scripts and the clock moved. *)
Lemma wire_stream bound before c s : wire bound before c -> sent s = sent (stream c) -> wire bound before (set_stream s c).
Proof. intros [] Hs. constructor; cbn; rewrite ?Hs; done. Qed.

Lemma wire_weaken bound before c : wire bound before c -> (bound <= interim)%nat -> wire (Datatypes.S interim) before c.
Proof. intros [] Hb. constructor; try done. destruct (send_continue _); [|done]. lia. Qed.

Lemma wire_note_continue before c s now n : wire (Datatypes.S interim) before c -> send_continue (exchange c) = true ->
  let k := Nat.min n (length (drop (continue_written c) CONTINUE_RESPONSE)) in
  sent s = sent (stream c) ++ take k (drop (continue_written c) CONTINUE_RESPONSE) ->
  wire (Datatypes.S interim) before (note_continue now k (set_stream s c)).
Proof.
  intros [W1 W2 W3 W4 W5 W6 W7] Hs k Hsent. rewrite Hs in W7. destruct W7 as [_ Hrw].
  assert (Hk : (continue_written c + k <= interim)%nat) by (unfold k; rewrite length_drop; lia).
  constructor; cbn [note_continue set_stream stream exchange continue_written response_written bytes_written].
  - rewrite Hsent, W1, Hrw. cbn [take]. rewrite !app_nil_r, <- app_assoc. unfold k. by rewrite take_more.
  - done.
  - done.
  - rewrite Hrw in *. rewrite (saturating_more _ _ k W4). f_equal. lia.
  - done.
  - intros Hh. destruct (W6 Hh). congruence.
  - rewrite Hs. split; [lia|done].
Qed.

Lemma drive_continue_loop_wire before answers : forall c c' r,
  wire (Datatypes.S interim) before c -> answers = accepting (stream c) -> send_continue (exchange c) = true ->
  drive_continue_loop instant answers c = (c', r) ->
  wire interim before c' /\ same_request c c' /\
  exchange c' = (match r with Ok true => set_continue false (exchange c) | _ => exchange c end).
Proof.
  induction answers as [|a rest IH]; intros c c' r Hw Ha Hs; cbn [drive_continue_loop];
    (destruct (Nat.leb_spec interim (continue_written c)) as [Hle|Hlt];
     [intros [= <- <-]; split; [|by split]; destruct Hw as [W1 W2 W3 W4 W5 W6 W7];
      constructor; cbn [set_exchange set_continue exchange stream continue_written response_written bytes_written response send_continue]; try done; [by intros Hh; destruct (W6 Hh)|right; lia]|]).
  - assert (Hd : wire interim before c).
    { destruct Hw as [W1 W2 W3 W4 W5 W6 W7]. constructor; try done. rewrite Hs in *. by destruct W7. }
    unfold stream_write. rewrite <- Ha. intros [= <- <-].
    split; [by apply wire_stream|]. by split.
  - assert (Hd : wire interim before c).
    { destruct Hw as [W1 W2 W3 W4 W5 W6 W7]. constructor; try done. rewrite Hs in *. by destruct W7. }
    destruct (stream_write (stream c) _) as [s r0] eqn:E. apply stream_write_spec in E as [Harr E].
    rewrite <- Ha in E. destruct E as [Hacc E]. destruct a as [n|e].
    + destruct E as [-> Hsent].
      pose proof (wire_note_continue before c s (instant (ticks s)) n Hw Hs Hsent) as Hw'.
      destruct (Nat.min n (length (drop (continue_written c) CONTINUE_RESPONSE))) as [|k] eqn:Ek.
      * intros [= <- <-]. split; [|by split]. apply wire_stream; [done|]. rewrite Hsent. by rewrite app_nil_r.
      * cbn [now_of stream set_stream]. intros Hl. apply IH in Hl as (H1 & H2 & H3); [|exact (wire_stream _ _ _ (stream_tick s) Hw' eq_refl)|done|done].
        split; [done|]. split; [|done]. eapply same_request_trans; [|exact H2]. by unfold same_request.
    + destruct E as [-> Hsent]. destruct e.
      * intros [= <- <-]. split; [by apply wire_stream|by split].
      * intros Hl. apply IH in Hl as (H1 & H2 & H3); [|by apply wire_stream|done|done].
        split; [done|]. split; [|done]. eapply same_request_trans; [|exact H2]. by unfold same_request.
      * intros [= <- <-]. split; [by apply wire_stream|by split].
Qed.

Lemma exchange_ok_continue data log (e : Exchange S) b : exchange_ok data log e -> exchange_ok data log (set_continue b e).
Proof. intros Hi. exact Hi. Qed.

Lemma pass_continue_inv before log c c' r : conn_inv before log c -> pass_continue instant c = (c', r) ->
  conn_inv before log c' /\ same_request c c' /\ is_reading (exchange c') = is_reading (exchange c) /\
  (r = Ok true -> send_continue (exchange c') = false).
Proof.
  intros [C1 C2 C3 C4 C5]. unfold pass_continue. destruct (send_continue (exchange c)) eqn:Es.
  - unfold drive_continue. intros Hd.
    apply (drive_continue_loop_wire before) in Hd as (Hw & Hsame & He); [|by eapply wire_weaken|done|done].
    pose proof Hsame as (S1 & S2 & S3 & S4 & S5 & S6).
    assert (Hx : exchange c' = exchange c \/ exchange c' = set_continue false (exchange c)).
    { rewrite He. destruct r as [[]|]; auto. }
    split; [|split; [done|split]].
    + constructor; rewrite ?S1, ?S2, ?S4; [|done|..|done].
      * destruct C1 as (data & Hi & Hb). exists data. split; [|done]. by destruct Hx as [-> | ->].
      * unfold is_open. by destruct Hx as [-> | ->].
      * by destruct Hx as [-> | ->].
    + by destruct Hx as [-> | ->].
    + intros ->. by rewrite He.
  - intros [= <- <-]. split; [done|]. by split.
Qed.

(** What a drive leaves of the request's identity. *)
Definition keeps c c' : Prop :=
  metric_operation c' = metric_operation c /\
  ((request_active c' = request_active c /\ request_started c' = request_started c) \/
   (request_active c = false /\ request_active c' = true /\ request_started c' = true)).

Lemma keeps_refl c : keeps c c.
Proof. unfold keeps. auto. Qed.

Lemma same_keeps c c' : same_request c c' -> keeps c c'.
Proof. unfold same_request, keeps. intuition. Qed.

Lemma keeps_trans a b c : keeps a b -> keeps b c -> keeps a c.
Proof. unfold keeps. intuition congruence. Qed.

(** A read of data: the exchange takes it and the counter counts it. *)
Lemma read_inv before h log c s now data : conn_inv before log c -> is_reading (exchange c) = true -> data <> [] ->
  sent s = sent (stream c) ->
  exists h' log' e, @ingest _ _ (traced handler) now (h, log) (exchange c) data = Some ((h', log'), e) /\
    forall t, conn_inv before log' (set_exchange e (note_read t (len data) (set_stream s c))).
Proof.
  intros [(d & Hi & Hb & Hd) C2 C3 C4 C5] Hr Hne Hs.
  destruct (ingest_ok handler now h log (exchange c) d data Hi) as (h' & log' & e & Hin & Hi').
  exists h', log', e. split; [done|]. intros t.
  pose proof (ingest_continue _ _ _ _ _ _ Hin) as Hadv. fold (advances (exchange c) e) in Hadv.
  constructor; cbn [set_exchange note_read set_stream exchange bytes_read request_active request_started].
  - exists (d ++ data). split_and!; [done| |done]. rewrite Hb, len_app. unfold saturating_add_usize, usize_max, u64_max.
    pose proof (len_nonneg d). pose proof (len_nonneg data). lia.
  - apply (wire_exchange interim before c e) in C2; [|done|done|unfold CONTINUE_RESPONSE; simpl; lia].
    destruct C2. constructor; cbn in *; by rewrite ?Hs.
  - unfold is_open. cbn [set_exchange exchange]. by eapply advances_open.
  - done.
  - done.
Qed.

Lemma drive_read_loop_inv before steps : forall h log c,
  conn_inv before log c -> is_reading (exchange c) = true ->
  exists h' log' c' r, @drive_read_loop _ _ (traced handler) instant stamp steps (h, log) c = Some ((h', log'), c', r) /\
    keeps c c' /\
    match r with
    | Ok true => sent (stream c') = before /\ log' = [] /\ request_active c' = false /\ request_started c' = false
    | _ => conn_inv before log' c'
    end.
Proof.
  induction steps as [|steps IH]; intros h log c Hc Hr; cbn [drive_read_loop].
  { eexists _, _, _, _. split; [done|]. by split; [apply keeps_refl|]. }
  destruct (stream_read (stream c)) as [s r] eqn:E.
  assert (Hs : sent s = sent (stream c)) by (by apply stream_read_sent in E).
  assert (Hset : conn_inv before log (set_stream s c)).
  { destruct Hc as [C1 C2 C3 C4 C5]. constructor; try done. by apply wire_stream. }
  assert (Hkeep : keeps c (set_stream s c)) by (unfold keeps; auto).
  destruct r as [[|b data]|[]].
  - cbn [set_stream request_active exchange]. destruct (request_active c) eqn:Ea.
    + destruct Hset as [(d & Hi & Hb & Hd) C2 C3 C4 C5].
      pose proof (eof_continue (H0 := traced handler) (stamp_of stamp (set_stream s c)) (h, log) (exchange c) Hr) as He.
      destruct (exchange_step_ok handler h log (exchange c) d (Eof (stamp_of stamp (set_stream s c))) Hi)
        as (h' & log' & e & Hstep & Hi'). cbn [step] in Hstep. injection Hstep as Hstep.
      rewrite Hstep in *. cbn [snd] in He. rewrite app_nil_r in Hi'.
      eexists _, _, _, _. split; [done|]. split; [done|].
      assert (Hl : late e = true) by (unfold late; destruct He as [_ He]; unfold is_writing in He; by destruct (ex_phase e)).
      constructor; cbn [set_exchange set_stream exchange bytes_read request_active request_started].
      * exists d. by split_and!.
      * apply (wire_exchange interim before (set_stream s c)); [done|done| |unfold CONTINUE_RESPONSE; simpl; lia].
        split; [intros _; split; [apply He|done]|by left].
      * unfold is_open. cbn [set_exchange exchange]. by apply late_open.
      * by rewrite Ea.
      * done.
    + eexists _, _, _, _. split; [done|]. split; [done|].
      destruct Hc as [(d & Hi & Hb & Hd) [W1 W2 W3 W4 W5 W6 W7] C3 C4 C5]. specialize (C4 Ea).
      cbn [set_exchange set_stream stream request_active request_started]. split_and!; [|..|done|].
      * rewrite Hs, W1. destruct (W6 C4) as [-> _]. rewrite W5; [by rewrite !app_nil_r|].
        unfold is_writing, in_head in *. by destruct (ex_phase (exchange c)).
      * destruct Hi as [seen Hi]. unfold exchange_inv, in_head in *.
        destruct (ex_phase (exchange c)); [|done..]. by destruct Hi.
      * destruct (request_started c); [|done]. specialize (C5 eq_refl). congruence.
  - cbn [now_of stream set_stream]. set (c1 := note_read _ _ _).
    destruct (read_inv before h log c (stream_tick s) (stamp_of stamp c1) (b :: data) Hc Hr ltac:(done) Hs)
      as (h' & log' & e & Hin & Hinv).
    assert (Hk : keeps c (set_exchange e c1)).
    { unfold keeps, c1. cbn. destruct (request_active c); auto. }
    change (exchange c1) with (exchange c). rewrite Hin. specialize (Hinv (instant (ticks s))).
    destruct (send_continue e || negb (is_reading e)) eqn:Eb.
    + eexists _, _, _, _. split; [done|]. by split.
    + apply orb_false_iff in Eb as [_ Er%negb_false_iff].
      destruct (IH h' log' (set_exchange e c1) Hinv Er) as (h2 & log2 & c2 & r2 & -> & Hk2 & Hr2).
      eexists _, _, _, _. split; [done|]. split; [by eapply keeps_trans|]. done.
  - eexists _, _, _, _. split; [done|]. by split.
  - destruct (IH h log (set_stream s c) Hset Hr) as (h2 & log2 & c2 & r2 & -> & Hk2 & Hr2).
    eexists _, _, _, _. split; [done|]. split; [exact (keeps_trans _ _ _ Hkeep Hk2)|]. done.
  - eexists _, _, _, _. split; [done|]. by split.
Qed.

(** The bytes of one answered request: the response as serialized, after the
    interim response or nothing. *)
Definition answer_message (close : bool) (msg : bytes) : Prop :=
  exists before_response wire_response, msg = before_response ++ wire_response /\
    (before_response = [] \/ before_response = CONTINUE_RESPONSE) /\
    ((exists r, serialize_response r close = Ok wire_response /\ (400 <= status r -> close = true)) \/
     (close = true /\ wire_response = fallback_internal_response)).

(** The connection after a request is accounted for. *)
Definition next_cycle c : Connection S := finish_request_cycle (snd (take_request_started c)).

(** What a drive that completes a request has done. *)
Record completion before log c' (done : CompletedIo) (close : bool) : Prop := {
  completion_resolved : resolved log;
  completion_active : request_active c' = true;
  completion_sent : exists msg, sent (stream c') = before ++ msg /\ bytes_out done = Z.min usize_max (len msg) /\
    (if close then is_error done = true \/ answer_message true msg
     else is_error done = false /\ answer_message false msg /\ conn_inv (before ++ msg) [] (next_cycle c'))
}.

Definition outcome before log c c' (r : result unit DriveResult) : Prop :=
  keeps c c' /\
  match r with
  | Ok Pending | Err _ => conn_inv before log c'
  | Ok (RequestComplete done close op) => completion before log c' done close
  | Ok ConnectionClosed => sent (stream c') = before /\ log = [] /\ request_active c' = false /\ request_started c' = false
  end.

Lemma wire_note_written before c s now n : wire interim before c -> is_writing (exchange c) = true ->
  send_continue (exchange c) = false ->
  let k := Nat.min n (length (drop (response_written c) (response (exchange c)))) in
  sent s = sent (stream c) ++ take k (drop (response_written c) (response (exchange c))) ->
  wire interim before (note_written now k (set_stream s c)).
Proof.
  intros [W1 W2 W3 W4 W5 W6 W7] Hw Hs k Hsent. rewrite Hs in W7.
  assert (Hk : (response_written c + k <= length (response (exchange c)))%nat) by (unfold k; rewrite length_drop; lia).
  constructor; cbn [note_written set_stream stream exchange continue_written response_written bytes_written].
  - rewrite Hsent, W1. rewrite <- !app_assoc. unfold k. by rewrite take_more.
  - done.
  - done.
  - rewrite (saturating_more _ _ k W4). f_equal. lia.
  - intros Hw'. congruence.
  - done.
  - by rewrite Hs.
Qed.

Lemma writing_active before log c : conn_inv before log c -> is_writing (exchange c) = true -> request_active c = true.
Proof.
  intros [_ _ _ C4 _] Hw. destruct (request_active c); [done|]. specialize (C4 eq_refl).
  unfold is_writing, in_head in *. by destruct (ex_phase (exchange c)).
Qed.

Lemma writing_answered before log c : conn_inv before log c -> is_writing (exchange c) = true ->
  answered (exchange c) /\ resolved log.
Proof.
  intros [(d & [seen Hi] & _) _ _ _ _] Hw. unfold exchange_inv, is_writing in *.
  destruct (ex_phase (exchange c)); try done. by destruct Hi as (? & ? & _).
Qed.

(** Giving up on the peer while writing. *)
Lemma write_failed before log c c' done op : conn_inv before log c -> is_writing (exchange c) = true ->
  request_active c' = request_active c -> request_started c' = request_started c ->
  metric_operation c' = metric_operation c -> sent (stream c') = sent (stream c) ->
  is_error done = true -> bytes_out done = bytes_written c ->
  outcome before log c c' (Ok (RequestComplete done true op)).
Proof.
  intros Hc Hw Ha Hst Hm Hs He Hb. split; [unfold keeps; auto|]. constructor.
  - by apply (writing_answered before log c).
  - rewrite Ha. by eapply writing_active.
  - destruct Hc as [_ [W1 W2 W3 W4 W5 W6 W7] _ _ _]. eexists. split; [by rewrite Hs, W1|]. split; [|by left].
    rewrite Hb, W4. unfold len. rewrite length_app, !length_take. do 2 f_equal. lia.
Qed.

(** The whole response was written. *)
Lemma write_complete before log c now : conn_inv before log c -> is_writing (exchange c) = true ->
  send_continue (exchange c) = false -> response_written c = length (response (exchange c)) ->
  let c1 := set_stream (stream_tick (stream c)) c in
  let close_connection := close_after_response (exchange c) in
  outcome before log c
    (if close_connection then set_exchange (close (exchange c)) (set_stream (stream_shutdown (stream c1)) c1)
     else reset_exchange now c1)
    (Ok (RequestComplete (completed c1 now false) close_connection (operation (exchange c)))).
Proof.
  intros Hc Hw Hs Hrw c1 cl. pose proof (writing_active _ _ _ Hc Hw) as Ha.
  destruct (writing_answered _ _ _ Hc Hw) as [(_ & st & Hst & H400 & Hresp) Hres].
  split; [unfold keeps; destruct cl; auto|]. constructor; [done|by destruct cl|].
  destruct Hc as [(d & Hi & Hb & Hd) [W1 W2 W3 W4 W5 W6 W7] C3 C4 C5].
  rewrite Hs in W7. rewrite Hrw, firstn_all in W1. eexists.
  split; [destruct cl; exact W1|]. split.
  { cbn [completed bytes_out c1 bytes_written set_stream]. rewrite W4. unfold len.
    rewrite length_app, length_take. do 2 f_equal. lia. }
  assert (Hm : answer_message cl (take (continue_written c) CONTINUE_RESPONSE ++ response (exchange c))).
  { eexists _, _. split; [done|]. split.
    - destruct W7 as [-> | ->]; [by left|right]. by rewrite firstn_all.
    - destruct Hresp as [(r & Hr1 & Hr2 & Hr3)|[-> Hr2]]; [left; exists r|right; by split; [apply H400|]].
      split; [|by rewrite Hr1]. by rewrite serialize_response_eq; fold cl in Hr2, Hr3; rewrite Hr2, Hr3. }
  destruct cl eqn:Ecl; [by right|]. split_and!; [|done|].
  - cbn [completed is_error c1 exchange set_stream]. rewrite Hst. change (default 500 (Some st)) with st.
    apply Z.leb_gt. destruct (Z.le_gt_cases 400 st) as [Hle|]; [|done]. specialize (H400 Hle).
    unfold cl in Ecl. congruence.
  - constructor; cbn [next_cycle take_request_started snd finish_request_cycle reset_exchange exchange bytes_read
      request_active request_started c1 set_stream]; [|..|done|done|done].
    + exists []. split_and!; [apply new_ok|done|done].
    + constructor; cbn; [by rewrite app_nil_r, W1|lia|lia|done|done|done|by left].
Qed.

Lemma conn_stream before log c s : conn_inv before log c -> sent s = sent (stream c) -> conn_inv before log (set_stream s c).
Proof. intros [C1 C2 C3 C4 C5] Hs. constructor; try done. by apply wire_stream. Qed.

Lemma keeps_outcome before log a c c' r : keeps a c -> outcome before log c c' r -> outcome before log a c' r.
Proof. intros Hk [Hk' Ho]. split; [by eapply keeps_trans|done]. Qed.

Lemma drive_write_loop_inv before log steps : forall c c' r,
  conn_inv before log c -> is_writing (exchange c) = true -> send_continue (exchange c) = false ->
  drive_write_loop instant steps c = (c', r) -> outcome before log c c' r.
Proof.
  induction steps as [|steps IH]; intros c c' r Hc Hw Hs; cbn [drive_write_loop].
  { intros [= <- <-]. by split; [apply keeps_refl|]. }
  destruct (Nat.eqb_spec (response_written c) (length (response (exchange c)))) as [Heq|Hne].
  { cbn [now_of]. intros [= <- <-]. by apply write_complete. }
  destruct (stream_write (stream c) _) as [s r0] eqn:E. apply stream_write_spec in E as [Harr E].
  assert (Hk : keeps c (set_stream s c)) by (unfold keeps; auto).
  destruct (accepting (stream c)) as [|[n|e] rest].
  - destruct E as [-> ->]. intros [= <- <-]. split; [done|]. by apply conn_stream.
  - destruct E as (_ & -> & Hsent).
    assert (Hw' : forall now, wire interim before (note_written now _ (set_stream s c)))
      by (intros now; apply (wire_note_written before c s now n); [apply Hc|done..]).
    destruct (Nat.min n _) as [|k] eqn:Ek.
    + cbn [take] in Hsent. rewrite app_nil_r in Hsent.
      cbn [now_of]. intros [= <- <-]. by apply write_failed.
    + cbn [now_of stream set_stream]. intros Hl. apply IH in Hl; [| |done|done].
      * eapply keeps_outcome; [|exact Hl]. unfold keeps. auto.
      * destruct Hc as [C1 C2 C3 C4 C5]. constructor; try done.
        exact (wire_stream _ _ _ (stream_tick s) (Hw' (instant (ticks s))) eq_refl).
  - destruct E as (_ & -> & Hsent). destruct e.
    + intros [= <- <-]. split; [done|]. by apply conn_stream.
    + intros Hl. apply IH in Hl; [|by apply conn_stream|done|done]. by eapply keeps_outcome.
    + intros [= <- <-]. split; [done|]. by apply conn_stream.
Qed.

Lemma pending_outcome before log c c' : conn_inv before log c' -> keeps c c' -> outcome before log c c' (Ok Pending).
Proof. by split. Qed.

Lemma drive_io_inv before h log c : conn_inv before log c ->
  exists h' log' c' r, @drive_io _ _ (traced handler) instant stamp (h, log) c = Some ((h', log'), c', r) /\
    outcome before log' c c' r.
Proof.
  intros Hc. unfold drive_io. destruct (pass_continue instant c) as [c1 r1] eqn:E1.
  destruct (pass_continue_inv _ _ _ _ _ Hc E1) as (Hc1 & Hk1%same_keeps & Hr1 & Hf1).
  destruct r1 as [[]|[]]; [|by eexists _, _, _, _; split..].
  assert (Hread : exists h2 log2 c2 r2,
    (if is_reading (exchange c1) then @drive_read _ _ (traced handler) instant stamp (h, log) c1
     else Some ((h, log), c1, Ok false)) = Some ((h2, log2), c2, r2) /\ keeps c1 c2 /\
    match r2 with
    | Ok true => sent (stream c2) = before /\ log2 = [] /\ request_active c2 = false /\ request_started c2 = false
    | _ => conn_inv before log2 c2
    end).
  { destruct (is_reading (exchange c1)) eqn:Er; [by apply drive_read_loop_inv|].
    eexists _, _, _, _. split; [done|]. by split; [apply keeps_refl|]. }
  destruct Hread as (h2 & log2 & c2 & r2 & -> & Hk2 & Hc2).
  assert (Hk12 : keeps c c2) by (by eapply keeps_trans).
  destruct r2 as [[]|[]]; [by eexists _, _, _, _; split..| |by eexists _, _, _, _; split].
  destruct (pass_continue instant c2) as [c3 r3] eqn:E3.
  destruct (pass_continue_inv _ _ _ _ _ Hc2 E3) as (Hc3 & Hk3%same_keeps & Hr3 & Hf3).
  assert (Hk13 : keeps c c3) by (by eapply keeps_trans).
  destruct r3 as [[]|[]]; [|by eexists _, _, _, _; split..].
  destruct (is_writing (exchange c3)) eqn:Ew; [|by eexists _, _, _, _; split].
  destruct (drive_write instant c3) as [c4 r4] eqn:E4. eexists _, _, _, _. split; [done|].
  eapply keeps_outcome; [done|]. eapply drive_write_loop_inv; [done|done|by apply Hf3|done].
Qed.

Lemma drive_inv before now h log c : conn_inv before log c ->
  exists h' log' c' r, @drive _ _ (traced handler) instant stamp now (h, log) c = Some ((h', log'), c', r) /\
    outcome before log' c c' r.
Proof.
  intros Hc. unfold drive. destruct (is_idle now c); rewrite ?andb_false_r; [|by apply drive_io_inv].
  rewrite !andb_true_r. destruct (request_active c) eqn:Ea; cbn [negb].
  - destruct (is_writing (exchange c)) eqn:Ew.
    + cbn [now_of]. eexists _, _, _, _. split; [done|]. by apply write_failed.
    + pose proof Hc as [(d & Hi & Hb & Hd) C2 C3 C4 C5]. unfold is_open in C3. rewrite Ew, orb_false_r in C3.
      pose proof (timeout_continue (H0 := traced handler) (stamp_of stamp c) (h, log) (exchange c) C3) as He.
      destruct (exchange_step_ok handler h log (exchange c) d (Timeout (stamp_of stamp c)) Hi)
        as (h' & log' & e & Hstep & Hi'). cbn [step] in Hstep. injection Hstep as Hstep.
      rewrite Hstep in *. cbn [snd] in He. rewrite app_nil_r in Hi'.
      assert (Hl : late e = true) by (unfold late; destruct He as [_ He]; unfold is_writing in He; by destruct (ex_phase e)).
      assert (Hc' : conn_inv before log' (set_exchange e c)).
      { constructor; cbn [set_exchange exchange bytes_read request_active request_started]; [|..|done].
        - by exists d.
        - apply (wire_exchange interim before c); [done|done| |unfold CONTINUE_RESPONSE; simpl; lia].
          split; [intros _; split; [apply He|done]|by left].
        - unfold is_open. cbn [set_exchange exchange]. by apply late_open.
        - by rewrite Ea. }
      destruct (drive_io_inv before h' log' (set_exchange e c) Hc') as (h2 & log2 & c2 & r2 & -> & Ho).
      eexists _, _, _, _. split; [done|]. exact Ho.
  - eexists _, _, _, _. split; [done|]. split; [unfold keeps; auto|].
    destruct Hc as [(d & Hi & Hb & Hd) [W1 W2 W3 W4 W5 W6 W7] C3 C4 C5]. specialize (C4 Ea).
    cbn [set_exchange set_stream stream request_active request_started]. split_and!; [|..|done|].
    + cbn [stream_shutdown sent]. rewrite W1. destruct (W6 C4) as [-> _]. rewrite W5; [by rewrite !app_nil_r|].
      unfold is_writing, in_head in *. by destruct (ex_phase (exchange c)).
    + destruct Hi as [seen Hi]. unfold exchange_inv, in_head in *.
        destruct (ex_phase (exchange c)); [|done..]. by destruct Hi.
    + destruct (request_started c); [|done]. specialize (C5 eq_refl). congruence.
Qed.

(** * A connection over time *)

(** The connection is driven at the given times until it is over, as the worker
    drives it; [past] collects the handler calls of each answered request, and
    the log of the current request starts afresh. *)
Fixpoint serve (times : list Z) h log c (past : list (list Call))
  : option (H * list Call * Connection S * list (list Call) * option (result unit DriveResult)) :=
  match times with
  | [] => Some (h, log, c, past, None)
  | now :: rest =>
      match @drive _ _ (traced handler) instant stamp now (h, log) c with
      | None => None
      | Some ((h, log), c, Ok Pending) => serve rest h log (snd (take_request_started c)) past
      | Some ((h, log), c, Ok (RequestComplete done false operation)) =>
          serve rest h [] (next_cycle c) (past ++ [log])
      | Some ((h, log), c, r) => Some (h, log, c, past, Some r)
      end
  end.

(** What the peer has been sent at the end, after complete answers. *)
Definition wire_end (answers : bytes) c (fin : option (result unit DriveResult)) : Prop :=
  match fin with
  | None | Some (Err _) | Some (Ok Pending) =>
      exists interim_part part rest,
        sent (stream c) = answers ++ interim_part ++ part /\ part ++ rest = response (exchange c) /\
        (interim_part `prefix_of` CONTINUE_RESPONSE) /\
        (part <> [] -> interim_part = [] \/ interim_part = CONTINUE_RESPONSE)
  | Some (Ok (RequestComplete done _ _)) =>
      exists msg, sent (stream c) = answers ++ msg /\ bytes_out done = Z.min usize_max (len msg) /\
        (is_error done = true \/ answer_message true msg)
  | Some (Ok ConnectionClosed) => sent (stream c) = answers
  end.

Lemma conn_taken before log c : conn_inv before log c -> conn_inv before log (snd (take_request_started c)).
Proof. intros [C1 C2 C3 C4 C5]. constructor; try done. by destruct C2. Qed.

Lemma conn_wire_end before log c : conn_inv before log c -> wire_end before c None.
Proof.
  intros [_ [W1 W2 W3 W4 W5 W6 W7] _ _ _]. cbn [wire_end].
  exists (take (continue_written c) CONTINUE_RESPONSE), (take (response_written c) (response (exchange c))),
    (drop (response_written c) (response (exchange c))).
  split_and!; [done|apply take_drop|by exists (drop (continue_written c) CONTINUE_RESPONSE); rewrite take_drop|].
  intros Hne. destruct (send_continue (exchange c)).
  - destruct W7 as [_ E]. rewrite E in Hne. by destruct Hne.
  - destruct W7 as [-> | ->]; [by left|right]. by rewrite firstn_all.
Qed.

Lemma conn_life before log c : conn_inv before log c -> exists l, life log = Some l.
Proof.
  intros [(d & [seen Hi] & _) _ _ _ _]. destruct (life_of_inv _ _ _ _ Hi) as (l & Hl & _). eauto.
Qed.

(** What holds when [serve] stops. *)
Definition served log c (past : list (list Call)) (fin : option (result unit DriveResult)) : Prop :=
  Forall resolved past /\ (exists l, life log = Some l) /\
  (match fin with Some (Ok _) => resolved log | _ => True end) /\
  exists msgs, length msgs = length past /\ Forall (answer_message false) msgs /\ wire_end (concat msgs) c fin.

Lemma resolved_life log : resolved log -> exists l, life log = Some l.
Proof. intros [?|?]; eauto. Qed.

Lemma served_open log c past msgs fin : conn_inv (concat msgs) log c -> Forall resolved past ->
  length msgs = length past -> Forall (answer_message false) msgs ->
  fin = None \/ fin = Some (Err tt) -> served log c past fin.
Proof.
  intros Hc Hp Hl Hm Hf. split; [done|]. split; [by eapply conn_life|]. split; [by destruct Hf as [-> | ->]|].
  exists msgs. split_and!; [done..|]. apply conn_wire_end in Hc. by destruct Hf as [-> | ->].
Qed.

Lemma serve_inv times : forall h log c past msgs, conn_inv (concat msgs) log c -> Forall resolved past ->
  length msgs = length past -> Forall (answer_message false) msgs ->
  exists h' log' c' past' fin, serve times h log c past = Some (h', log', c', past', fin) /\ served log' c' past' fin.
Proof.
  induction times as [|now rest IH]; intros h log c past msgs Hc Hp Hl Hm; cbn [serve].
  { eexists _, _, _, _, _. split; [done|]. eapply served_open; eauto. }
  destruct (drive_inv _ now h log c Hc) as (h1 & log1 & c1 & r & -> & _ & Ho).
  destruct r as [[|done_io close op|]|[]].
  - apply (IH h1 log1 _ past msgs); [by apply conn_taken|done..].
  - destruct Ho as [O1 O2 (msg & Hs & Hb & Ho)]. destruct close.
    + eexists _, _, _, _, _. split; [done|]. split; [done|]. split; [by apply resolved_life|]. split; [done|].
      exists msgs. split_and!; [done..|]. by exists msg.
    + destruct Ho as (_ & Ha & Hn). apply (IH h1 [] _ (past ++ [log1]) (msgs ++ [msg])).
      * by rewrite concat_app, concat_cons, concat_nil, app_nil_r.
      * apply Forall_app_2; [done|by apply Forall_singleton].
      * by rewrite !length_app, Hl.
      * apply Forall_app_2; [done|by apply Forall_singleton].
  - destruct Ho as (Hs & -> & _). eexists _, _, _, _, _. split; [done|]. split; [done|]. split; [by exists NotStarted|].
    split; [by left|]. exists msgs. by split_and!.
  - eexists _, _, _, _, _. split; [done|]. eapply served_open; eauto.
Qed.

Lemma new_conn s : sent s = [] -> conn_inv [] [] (Connection_new instant s).
Proof.
  intros Hs. constructor; cbn [Connection_new exchange bytes_read request_active request_started]; [|..|done|done|done].
  - exists []. split_and!; [apply new_ok|done|done].
  - constructor; cbn; [by rewrite Hs|lia|lia|done|done|done|by left].
Qed.

(** C21: Whatever the peer, the handler and the clock do, a connection never
    gets stuck, and the peer is sent a sequence of complete serialized
    responses, one for every request answered while the connection is kept,
    each alone or right after one complete interim response, and then a prefix
    of the current answer: no response is started inside an interim one, none
    is repeated, cut or mixed with the next. *)
Theorem connection_wire (h : H) (s : TcpStream) (times : list Z) (Hs : sent s = []) :
  exists h' log c past fin msgs,
    serve times h [] (Connection_new instant s) [] = Some (h', log, c, past, fin) /\
    length msgs = length past /\ Forall (answer_message false) msgs /\ wire_end (concat msgs) c fin.
Proof.
  destruct (serve_inv times h [] _ [] [] (new_conn s Hs)) as (h' & log & c & past & fin & -> & _ & _ & _ & msgs & Hm);
    [done..|]. eauto 10.
Qed.

(** On a connection, too, the handler's sessions are well managed: the
    calls for every request are in order, a request that has been answered, or
    whose connection is over, has no session left open. *)
Theorem connection_sessions (h : H) (s : TcpStream) (times : list Z) (Hs : sent s = []) :
  exists h' log c past fin l,
    serve times h [] (Connection_new instant s) [] = Some (h', log, c, past, fin) /\
    Forall resolved past /\ life log = Some l /\
    (match fin with Some (Ok _) => resolved log | _ => True end).
Proof.
  destruct (serve_inv times h [] _ [] [] (new_conn s Hs)) as (h' & log & c & past & fin & -> & Hp & [l Hl] & Hf & _);
    [done..|]. eauto 10.
Qed.
End Driving.

(** * What the worker relies on, for any handler *)

Section Tracking.
Context {H S : Type} `{S3Handler H S} (instant : nat -> Z) (stamp : nat -> Clock).
Implicit Types (h : H) (e : Exchange S) (c : Connection S).

Definition wf_exchange e : Prop :=
  match ex_phase e with Body _ framing => wf_framing_state framing | _ => True end.

Lemma wf_queue r e : wf_exchange (queue_response r e).
Proof. unfold wf_exchange. by rewrite queue_phase. Qed.

Lemma wf_finish_if h e (b : bool) : wf_exchange e -> wf_exchange (snd (if b then finish_body h e else (h, e))).
Proof.
  intros Hw. destruct b; [|done]. unfold finish_body. destruct (ex_phase e); [done| |done..].
  destruct (handler_finish _ _) as [[? ?] ?]. apply wf_queue.
Qed.

Lemma ingest_body_total now h e input : wf_exchange e ->
  exists h' e', ingest_body now h e input = Some (h', e') /\ wf_exchange e'.
Proof.
  intros Hw. unfold ingest_body. unfold wf_exchange in Hw. destruct (ex_phase e) as [|session framing| |] eqn:Hp;
    [by eexists _, _; split; [done|]; unfold wf_exchange; rewrite Hp| |
     by eexists _, _; split; [done|]; unfold wf_exchange; rewrite Hp..].
  pose proof (framing_push_total framing input Hw) as Ht.
  destruct (BodyFraming_push framing input) as [[[[f pr] decoded]|err]|] eqn:E; [| |done].
  - cbv zeta. pose proof (proj1 (framing_push_wf _ _ _ _ _ Hw E)) as Hf.
    match goal with |- context [if ?b then set_close true ?x else ?y] => set (e1 := if b then set_close true x else y) end.
    assert (He1 : wf_exchange e1) by (unfold e1, wf_exchange; by destruct (_ <? _)).
    destruct (is_empty decoded).
    + eexists _, _. split; [by rewrite <- surjective_pairing|]. by apply wf_finish_if.
    + destruct (push_body h session decoded) as [[h2 s2] [?|r]].
      * eexists _, _. split; [by rewrite <- surjective_pairing|]. by apply wf_finish_if.
      * eexists _, _. split; [done|]. apply wf_queue.
  - destruct (abort_session h e). eexists _, _. split; [done|]. apply wf_queue.
Qed.

Lemma ingest_total now h e input : wf_exchange e ->
  exists h' e', ingest now h e input = Some (h', e') /\ wf_exchange e'.
Proof.
  intros Hw. unfold ingest. destruct (ex_phase e) as [p|s f| |] eqn:Hp; [|by apply ingest_body_total|
    by eexists _, _; split; [done|]; unfold wf_exchange; rewrite Hp..].
  destruct (RequestHeadParser_push p input) as [p1 [[r|]|err]] eqn:E; cbn [take_remainder];
    [|by eexists _, _|eexists _, _; split; [done|]; apply wf_queue].
  unfold start_request. destruct (expect_continue r); [|eexists _, _; split; [done|]; apply wf_queue].
  destruct (BodyFraming_from_head r) as [framing|] eqn:Ef; [|eexists _, _; split; [done|]; apply wf_queue].
  pose proof (from_head_wf _ _ _ _ _ E Ef) as Hf.
  destruct (handle_head h r) as [h1 [resp|session]]; [eexists _, _; split; [done|]; apply wf_queue|].
  match goal with |- context [ingest_body now h1 ?x _] => set (e1 := x) end.
  assert (He1 : wf_exchange e1) by done. destruct (is_empty _).
  - eexists _, _. split; [by rewrite <- surjective_pairing|]. by apply wf_finish_if.
  - destruct (ingest_body_total now h1 e1 (remainder p1) He1) as (h2 & e2 & -> & He2).
    eexists _, _. split; [by rewrite <- surjective_pairing|]. by apply wf_finish_if.
Qed.

Record tracked c : Prop := {
  tracked_wf : wf_exchange (exchange c);
  tracked_inactive : request_active c = false -> in_head (exchange c) = true;
  tracked_started : request_started c = true -> request_active c = true
}.

(** Only the stream, the flag and the counters move. *)
Definition same_tracking c c' : Prop :=
  request_active c' = request_active c /\ request_started c' = request_started c /\
  metric_operation c' = metric_operation c /\
  (exchange c' = exchange c \/ exchange c' = set_continue false (exchange c)).

Lemma same_tracked c c' : same_tracking c c' -> tracked c -> keeps c c' /\ tracked c'.
Proof.
  intros (S1 & S2 & S3 & S4) [T1 T2 T3]. split; [by unfold keeps; auto|].
  constructor; rewrite ?S1, ?S2; [|..|done]; by destruct S4 as [-> | ->].
Qed.

Lemma same_tracking_trans a b c : same_tracking a b -> exchange b = exchange a -> same_tracking b c -> same_tracking a c.
Proof. unfold same_tracking. intuition congruence. Qed.

Lemma drive_continue_same answers : forall c, same_tracking c (fst (drive_continue_loop instant answers c)).
Proof.
  induction answers as [|a rest IH]; intros c; cbn [drive_continue_loop];
    (destruct (Nat.leb _ _); [by unfold same_tracking; cbn; auto|]);
    destruct (stream_write _ _) as [s [[|n]|[]]]; cbn [fst now_of]; try (by unfold same_tracking; cbn; auto);
    (eapply same_tracking_trans; [..|apply IH]; [by unfold same_tracking; cbn; auto|done]).
Qed.

Lemma pass_continue_tracks c c' r : pass_continue instant c = (c', r) -> tracked c -> keeps c c' /\ tracked c'.
Proof.
  intros E. apply same_tracked. unfold pass_continue in E. destruct (send_continue _).
  - change c' with (fst (c', r)). rewrite <- E. apply drive_continue_same.
  - injection E as <- <-. unfold same_tracking. auto.
Qed.

Lemma tracked_late c e : tracked c -> wf_exchange e -> in_head e = in_head (exchange c) \/ request_active c = true ->
  tracked (set_exchange e c).
Proof.
  intros [T1 T2 T3] Hw He. constructor; cbn [set_exchange exchange request_active request_started]; [done| |done].
  destruct He as [-> | ->]; [auto|done].
Qed.

Lemma wf_eof now h e : wf_exchange e -> wf_exchange (snd (eof now h e)).
Proof.
  unfold eof. destruct (ex_phase e); [..|done|done]; intros _; [apply wf_queue|]. destruct (abort_session _ _). apply wf_queue.
Qed.

Lemma wf_timeout now h e : wf_exchange e -> wf_exchange (snd (timeout now h e)).
Proof. unfold timeout. destruct (ex_phase e); [..|done|done]; intros _; destruct (abort_session _ _); apply wf_queue. Qed.

Lemma drive_read_tracks steps : forall h c, tracked c ->
  exists h' c' r, drive_read_loop instant stamp steps h c = Some (h', c', r) /\ keeps c c' /\
    match r with Ok true => request_active c' = false /\ request_started c' = false | _ => tracked c' end.
Proof.
  induction steps as [|steps IH]; intros h c Hc; cbn [drive_read_loop].
  { eexists _, _, _. split; [done|]. by split; [apply keeps_refl|]. }
  destruct (stream_read (stream c)) as [s r]. pose proof Hc as [T1 T2 T3].
  assert (Hk : keeps c (set_stream s c)) by (unfold keeps; auto).
  assert (Hs : tracked (set_stream s c)) by (by constructor).
  destruct r as [[|b data]|[]]; [..|by eexists _, _, _| |by eexists _, _, _].
  - cbn [set_stream request_active exchange]. destruct (request_active c) eqn:Ea.
    + pose proof (wf_eof (stamp_of stamp (set_stream s c)) h (exchange c) T1) as He.
      destruct (eof _ _ _) as [h' e]. eexists _, _, _. split; [done|]. split; [done|]. apply (tracked_late (set_stream s c)); auto.
    + eexists _, _, _. split; [done|]. split; [done|]. split; [done|]. cbn.
      destruct (request_started c); [|done]. specialize (T3 eq_refl). congruence.
  - cbn [now_of stream set_stream]. set (c1 := note_read _ _ _).
    destruct (ingest_total (stamp_of stamp c1) h (exchange c1) (b :: data) T1) as (h' & e & -> & He).
    assert (Hk1 : keeps c (set_exchange e c1)) by (unfold keeps, c1; cbn; destruct (request_active c); auto).
    assert (H1 : tracked (set_exchange e c1)) by (by constructor).
    destruct (send_continue e || negb (is_reading e)); [by eexists _, _, _|].
    destruct (IH h' _ H1) as (h2 & c2 & r2 & -> & Hk2 & Hr2). eexists _, _, _. split; [done|].
    split; [exact (keeps_trans _ _ _ Hk1 Hk2)|done].
  - destruct (IH h _ Hs) as (h2 & c2 & r2 & -> & Hk2 & Hr2). eexists _, _, _. split; [done|].
    split; [exact (keeps_trans _ _ _ Hk Hk2)|done].
Qed.

Definition tracks c c' (r : result unit DriveResult) : Prop :=
  keeps c c' /\
  match r with
  | Ok Pending | Err _ => tracked c'
  | Ok (RequestComplete _ close _) =>
      request_active c' = true /\ (close = false -> wf_exchange (exchange c') /\ in_head (exchange c') = true)
  | Ok ConnectionClosed => request_active c' = false /\ request_started c' = false
  end.

Lemma keeps_tracks a c c' r : keeps a c -> tracks c c' r -> tracks a c' r.
Proof. intros Hk [Hk' Ho]. split; [by eapply keeps_trans|done]. Qed.

Lemma drive_write_tracks steps : forall c c' r, tracked c -> request_active c = true ->
  drive_write_loop instant steps c = (c', r) -> tracks c c' r.
Proof.
  induction steps as [|steps IH]; intros c c' r Hc Ha; cbn [drive_write_loop].
  { intros [= <- <-]. by split; [apply keeps_refl|]. }
  destruct (Nat.eqb _ _).
  { cbn [now_of]. intros [= <- <-]. split; [unfold keeps; destruct (close_after_response _); auto|].
    split; [by destruct (close_after_response _)|]. by intros ->. }
  pose proof Hc as [T1 T2 T3]. destruct (stream_write _ _) as [s [[|n]|[]]]; cbn [now_of].
  - intros [= <- <-]. split; [unfold keeps; auto|]. by split.
  - intros Hl. apply IH in Hl; [|by constructor|done]. eapply keeps_tracks; [|exact Hl]. unfold keeps. auto.
  - intros [= <- <-]. split; [unfold keeps; auto|by constructor].
  - intros Hl. apply IH in Hl; [|by constructor|done]. eapply keeps_tracks; [|exact Hl]. unfold keeps. auto.
  - intros [= <- <-]. split; [unfold keeps; auto|by constructor].
Qed.

Lemma tracked_writing c : tracked c -> is_writing (exchange c) = true -> request_active c = true.
Proof.
  intros [_ T2 _] Hw. destruct (request_active c); [done|]. specialize (T2 eq_refl).
  unfold is_writing, in_head in *. by destruct (ex_phase (exchange c)).
Qed.

Lemma drive_io_tracks h c : tracked c ->
  exists h' c' r, drive_io instant stamp h c = Some (h', c', r) /\ tracks c c' r.
Proof.
  intros Hc. unfold drive_io. destruct (pass_continue instant c) as [c1 r1] eqn:E1.
  destruct (pass_continue_tracks _ _ _ E1 Hc) as [Hk1 Hc1].
  destruct r1 as [[]|[]]; [|by eexists _, _, _; split..].
  assert (Hread : exists h2 c2 r2,
    (if is_reading (exchange c1) then drive_read instant stamp h c1 else Some (h, c1, Ok false)) = Some (h2, c2, r2) /\
    keeps c1 c2 /\ match r2 with Ok true => request_active c2 = false /\ request_started c2 = false | _ => tracked c2 end).
  { destruct (is_reading (exchange c1)); [by apply drive_read_tracks|].
    eexists _, _, _. split; [done|]. by split; [apply keeps_refl|]. }
  destruct Hread as (h2 & c2 & r2 & -> & Hk2 & Hc2). assert (Hk12 : keeps c c2) by (by eapply keeps_trans).
  destruct r2 as [[]|[]]; [by eexists _, _, _; split..| |by eexists _, _, _; split].
  destruct (pass_continue instant c2) as [c3 r3] eqn:E3.
  destruct (pass_continue_tracks _ _ _ E3 Hc2) as [Hk3 Hc3]. assert (Hk13 : keeps c c3) by (by eapply keeps_trans).
  destruct r3 as [[]|[]]; [|by eexists _, _, _; split..].
  destruct (is_writing (exchange c3)) eqn:Ew; [|by eexists _, _, _; split].
  destruct (drive_write instant c3) as [c4 r4] eqn:E4. eexists _, _, _. split; [done|].
  eapply keeps_tracks; [done|]. eapply drive_write_tracks; [done| |done]. by apply tracked_writing.
Qed.

Lemma drive_tracks now h c : tracked c ->
  exists h' c' r, drive instant stamp now h c = Some (h', c', r) /\ tracks c c' r.
Proof.
  intros Hc. unfold drive. pose proof Hc as [T1 T2 T3].
  destruct (is_idle now c); rewrite ?andb_false_r; [|by apply drive_io_tracks].
  rewrite !andb_true_r. destruct (request_active c) eqn:Ea; cbn [negb].
  - destruct (is_writing (exchange c)).
    + cbn [now_of]. eexists _, _, _. split; [done|]. split; [unfold keeps; auto|]. by split.
    + pose proof (wf_timeout (stamp_of stamp c) h (exchange c) T1) as He. destruct (timeout _ _ _) as [h' e].
      destruct (drive_io_tracks h' (set_exchange e c)) as (h2 & c2 & r2 & -> & Ho); [by apply tracked_late; auto|].
      eexists _, _, _. split; [done|]. exact Ho.
  - eexists _, _, _. split; [done|]. split; [unfold keeps; auto|]. split; [done|]. cbn.
    destruct (request_started c); [|done]. specialize (T3 eq_refl). congruence.
Qed.
End Tracking.

(** * Examples: two uploads on one connection, the first in two parts with an
    interim response *)

Definition sample_stream : TcpStream :=
  {| arriving :=
       [Ok (join crlf [bs "PUT /b/k HTTP/1.1"; bs "Host: h"; bs "Content-Length: 3"; bs "Expect: 100-continue"; []; []]);
        Err Interrupted; Ok (bs "abc"); Err WouldBlock;
        Ok (join crlf [bs "PUT /b/l HTTP/1.1"; bs "Host: h"; bs "Content-Length: 2"; []; bs "de"]); Ok []];
     accepting := [Ok 7%nat; Err WouldBlock; Ok 18%nat; Ok 1000%nat; Ok 10%nat; Err WouldBlock; Ok 1000%nat];
     sent := []; shut_down := false; ticks := O |}.

Definition sample_serve : option (list bytes * list Call * Connection bytes * list (list Call) * option (result unit DriveResult)) :=
  serve storing_handler (fun n => Z.of_nat n) (fun _ => sample_now) [0; 0; 0; 0; 0; 0; 0] [] []
    (Connection_new (fun n => Z.of_nat n) sample_stream) [].

Example sample_serve_stores :
  match sample_serve with
  | Some (stored, _, c, past, Some (Ok ConnectionClosed)) => stored = [bs "abc"; bs "de"] /\ length past = 2%nat
  | _ => False
  end.
Proof. vm_compute. by split. Qed.

Lemma connection_wire_witness : exists h' log c past fin msgs,
  sample_serve = Some (h', log, c, past, fin) /\
  length msgs = length past /\ Forall (answer_message false) msgs /\ wire_end (concat msgs) c fin.
Proof.
  apply (connection_wire storing_handler (fun n => Z.of_nat n) (fun _ => sample_now) [] sample_stream
    [0; 0; 0; 0; 0; 0; 0]). reflexivity.
Defined.

Lemma connection_sessions_witness : exists h' log c past fin l,
  sample_serve = Some (h', log, c, past, fin) /\
  Forall resolved past /\ life log = Some l /\ (match fin with Some (Ok _) => resolved log | _ => True end).
Proof.
  apply (connection_sessions storing_handler (fun n => Z.of_nat n) (fun _ => sample_now) [] sample_stream
    [0; 0; 0; 0; 0; 0; 0]). reflexivity.
Defined.
