(* ===== verification/Reactor.v ===== *)
(** The connections of an HTTP worker, from [src/src/workers/http.rs]:
    accepting them up to the limit, driving each of them in turn with recovery
    from panics, abandoning them at shutdown, and the metrics kept on the way.
    The theorems say that the in-flight gauge is exact and that the limit is
    kept, for every sequence of these steps. *)
From stdpp Require Import gmap.
From S2P Require Import Prelude Text Http XmlWrite Types Framing Response Exchange Metrics Connection.

Definition MAX_CONNECTIONS : nat := 256.

Definition overload_response_bytes (now : Clock) : bytes :=
  let r := header
    (protocol_error now 503 (bs "ServiceUnavailable")
       (bs "The pgs3 HTTP worker has reached its connection limit")) (bs "retry-after") (bs "1") in
  match serialize_response r true with Ok wire => wire | Err _ => fallback_internal_response end.

(** What the listener's next [accept] returns: a stream, with whether it could
    be configured, or an error. *)
Inductive Accepted :=
| Incoming (stream : TcpStream) (configured : bool)
| AcceptError (error : IoError).

Section Reactor.
Context {H S : Type} `{S3Handler H S} (instant : nat -> Z) (stamp : nat -> Clock).
(** The panics that [catch_unwind] stops: the handler and the connection a
    panicking [drive] leaves, and those a panicking [abort_session] leaves. *)
Context (drive_unwinds : Z -> H -> Connection S -> option (H * Connection S))
        (abort_unwinds : H -> Exchange S -> option (H * Exchange S)).
Implicit Types (h : H) (m : Metrics) (c : Connection S) (conns : list (Connection S)).

Definition set_metric_operation (op : bytes) c : Connection S :=
  {| stream := stream c; exchange := exchange c; continue_written := continue_written c;
     response_written := response_written c; bytes_written := bytes_written c; accepted_at := accepted_at c;
     last_activity := last_activity c; bytes_read := bytes_read c; metric_operation := op;
     request_active := request_active c; request_started := request_started c |}.

(** [reclassify_in_flight(metrics, &mut connection.metric_operation, operation)] *)
Definition reclassify_connection m c (operation : bytes) : Metrics * Connection S :=
  let (m, current) := reclassify_in_flight m (metric_operation c) operation in (m, set_metric_operation current c).

Definition track_operation_change m c : Metrics * Connection S :=
  reclassify_connection m c (operation (exchange c)).

(** One answer of the listener; the flag tells whether the loop goes on. *)
Definition accept_one (overload_response : bytes) m conns (a : Accepted) : Metrics * list (Connection S) * bool :=
  match a with
  | Incoming s configured =>
      if Nat.ltb (length conns) MAX_CONNECTIONS then
        let accepted_at := instant (ticks s) in
        let s := stream_tick s in
        if configured then (m, conns ++ [Connection_new instant s], true)
        else (track_immediate_error m (bs "InvalidRequest") 0 (duration_since (instant (ticks s)) accepted_at), conns, true)
      else
        let accepted_at := instant (ticks s) in
        let s := stream_tick s in
        let (s, r) := stream_write s overload_response in
        let written := match r with Ok n => n | Err _ => O end in
        let s := stream_shutdown s in
        (track_immediate_error m (bs "ServiceUnavailable") (Z.of_nat written)
           (duration_since (instant (ticks s)) accepted_at), conns, true)
  | AcceptError Interrupted => (m, conns, true)
  | AcceptError _ => (m, conns, false)
  end.

Fixpoint accept_connections (overload_response : bytes) m conns (answers : list Accepted)
  : Metrics * list (Connection S) :=
  match answers with
  | [] => (m, conns)
  | a :: rest =>
      let '(m, conns, again) := accept_one overload_response m conns a in
      if again then accept_connections overload_response m conns rest else (m, conns)
  end.

Definition caught_abort h (e : Exchange S) : H * Exchange S :=
  match abort_unwinds h e with Some after => after | None => abort_session h e end.

(** A request that ends with its connection, in error. *)
Definition fail_request h c : H * Connection S * DriveResult :=
  let (h, e) := caught_abort h (exchange c) in
  let c := set_exchange e c in
  let (now, c) := now_of instant c in
  (h, c, RequestComplete (completed c now true) true (operation (exchange c))).

Definition drive_outcome (now : Z) h c : option (H * Connection S * DriveResult) :=
  match drive_unwinds now h c with
  | Some (h, c) =>
      if negb (request_active c) then Some (h, c, ConnectionClosed)
      else if bytes_written c =? 0 then
        let (h, e) := caught_abort h (exchange c) in
        Some (h, set_exchange (force_internal_error (stamp_of stamp c) e) c, Pending)
      else Some (fail_request h c)
  | None =>
      match drive instant stamp now h c with
      | None => None
      | Some (h, c, Ok outcome) => Some (h, c, outcome)
      | Some (h, c, Err _) =>
          if request_active c then Some (fail_request h c) else Some (h, c, ConnectionClosed)
      end
  end.

(** One round of the loop: the connection that stays, if it does. *)
Definition drive_one (now : Z) h m c : option (H * Metrics * option (Connection S)) :=
  match drive_outcome now h c with
  | None => None
  | Some (h, c, outcome) =>
      let (started, c) := take_request_started c in
      let m := if started then track_in_flight_start m (bs "InvalidRequest") else m in
      match outcome with
      | Pending =>
          if request_active c then let (m, c) := track_operation_change m c in Some (h, m, Some c)
          else Some (h, m, Some c)
      | ConnectionClosed => Some (h, m, None)
      | RequestComplete completed close_connection operation =>
          let (m, c) := reclassify_connection m c operation in
          let m := track_completion m (metric_operation c) completed in
          if close_connection then Some (h, m, None) else Some (h, m, Some (finish_request_cycle c))
      end
  end.

(** Every round moves on or drops a connection, so as many rounds as there are
    connections suffice. *)
Fixpoint drive_loop (rounds : nat) (now : Z) h m conns (index : nat) : option (H * Metrics * list (Connection S)) :=
  match conns !! index with
  | None => Some (h, m, conns)
  | Some c =>
      match rounds with
      | O => None
      | Datatypes.S rounds =>
          match drive_one now h m c with
          | None => None
          | Some (h, m, Some c) => drive_loop rounds now h m (<[index := c]> conns) (Datatypes.S index)
          | Some (h, m, None) => drive_loop rounds now h m (swap_remove index conns) index
          end
      end
  end.

Definition drive_connections (now : Z) h m conns : option (H * Metrics * list (Connection S)) :=
  drive_loop (length conns) now h m conns 0.

Definition abandon_one (hm : H * Metrics) c : H * Metrics :=
  let (h, m) := hm in
  let (started, c) := take_request_started c in
  let m := if started then track_in_flight_start m (bs "InvalidRequest") else m in
  if negb (request_active c) then (h, m)
  else
    let (h, e) := caught_abort h (exchange c) in
    let c := set_exchange e c in
    let (m, c) := track_operation_change m c in
    let (now, c) := now_of instant c in
    (h, track_completion m (metric_operation c) (completed c now true)).

(** The connections are drained: none is left. *)
Definition abandon_connections h m conns : H * Metrics := foldl abandon_one (h, m) conns.

(** One turn of the worker's loop before its heartbeat: accept and drive. *)
Definition worker_tick (overload_response : bytes) (answers : list Accepted) (now : Z) h m conns
  : option (H * Metrics * list (Connection S)) :=
  let (m, conns) := accept_connections overload_response m conns answers in drive_connections now h m conns.

(** After the loop. *)
Definition worker_shutdown (store : bytes -> MetricDelta -> bool) h m conns : H * Metrics :=
  let (h, m) := abandon_connections h m conns in (h, fst (flush_metrics store m)).
End Reactor.

(** * The in-flight gauge *)

(** The buffered delta of an operation. *)
Definition in_flight (m : Metrics) (op : bytes) : Z := in_flight_delta (entry m op).

(** A delta far from saturation. *)
Definition small (n : Z) : Prop := -1000 <= n <= 1000.

Lemma entry_insert (m : Metrics) op d op' : entry (<[op := d]> m) op' = if decide (op = op') then d else entry m op'.
Proof. unfold entry. case_decide as E; [subst; by rewrite lookup_insert_eq|by rewrite lookup_insert_ne]. Qed.

Lemma in_flight_insert (m : Metrics) op d op' :
  in_flight (<[op := d]> m) op' = if decide (op = op') then in_flight_delta d else in_flight m op'.
Proof. unfold in_flight. rewrite entry_insert. by case_decide. Qed.

Definition here (op op' : bytes) : Z := flag (bool_decide (op = op')).

Lemma here_eq op : here op op = 1.
Proof. unfold here. by rewrite bool_decide_eq_true_2. Qed.

Lemma here_ne op op' : op <> op' -> here op op' = 0.
Proof. intros. unfold here. by rewrite bool_decide_eq_false_2. Qed.

Lemma saturating_add_small n : small n -> saturating_add_i64 n 1 = n + 1.
Proof. unfold small, saturating_add_i64, clamp_i64, i64_min, i64_max. lia. Qed.

Lemma saturating_sub_small n : small n -> saturating_sub_i64 n 1 = n - 1.
Proof. unfold small, saturating_sub_i64, clamp_i64, i64_min, i64_max. lia. Qed.

Lemma start_in_flight m op op' : small (in_flight m op) ->
  in_flight (track_in_flight_start m op) op' = in_flight m op' + here op op'.
Proof.
  intros Hs. unfold track_in_flight_start, here. rewrite in_flight_insert.
  case_decide as E; [subst; rewrite bool_decide_eq_true_2 by done|rewrite bool_decide_eq_false_2 by done; simpl; lia].
  cbn [begin_in_flight set_in_flight in_flight_delta]. fold (in_flight m op'). by rewrite saturating_add_small.
Qed.

Lemma completion_in_flight m op io op' : small (in_flight m op) ->
  in_flight (track_completion m op io) op' = in_flight m op' - here op op'.
Proof.
  intros Hs. unfold track_completion, here. rewrite in_flight_insert.
  case_decide as E; [subst; rewrite bool_decide_eq_true_2 by done|rewrite bool_decide_eq_false_2 by done; simpl; lia].
  cbn [end_in_flight set_in_flight in_flight_delta observe_completion]. fold (in_flight m op').
  by rewrite saturating_sub_small.
Qed.

Lemma reclassify_in_flight_spec m current op m' current' op' :
  reclassify_in_flight m current op = (m', current') -> (forall o, small (in_flight m o)) ->
  current' = op /\ in_flight m' op' = in_flight m op' - here current op' + here op op'.
Proof.
  intros E Hs. unfold reclassify_in_flight in E. destruct (bool_decide_reflect (op = current)) as [->|Hne].
  - injection E as <- <-. split; [done|lia].
  - injection E as <- <-. split; [done|]. rewrite in_flight_insert.
    assert (Hop : entry (<[current := end_in_flight (entry m current)]> m) op = entry m op)
      by (rewrite entry_insert, decide_False by done; done).
    rewrite Hop, in_flight_insert. pose proof (Hs op) as H1. pose proof (Hs current) as H2.
    case_decide as E1; [|case_decide as E2]; subst; rewrite ?here_eq, ?here_ne by done;
      cbn [begin_in_flight end_in_flight set_in_flight in_flight_delta].
    + fold (in_flight m op'). rewrite saturating_add_small by done. lia.
    + fold (in_flight m op'). rewrite saturating_sub_small by done. lia.
    + lia.
Qed.

Lemma immediate_in_flight m op out t op' : small (in_flight m op + 1) -> small (in_flight m op) ->
  in_flight (track_immediate_error m op out t) op' = in_flight m op'.
Proof.
  intros H1 H2. unfold track_immediate_error. rewrite completion_in_flight.
  - rewrite start_in_flight by done. lia.
  - rewrite start_in_flight by done. unfold here. by rewrite bool_decide_eq_true_2.
Qed.

(** ** Sums over lists *)

Lemma total_cons {A} (f : A -> Z) x l : total f (x :: l) = f x + total f l.
Proof. done. Qed.

Lemma total_app {A} (f : A -> Z) l k : total f (l ++ k) = total f l + total f k.
Proof. induction l as [|x l IH]; simpl; [done|]. unfold total in *. rewrite IH. lia. Qed.

Lemma total_perm {A} (f : A -> Z) l k : Permutation l k -> total f l = total f k.
Proof. induction 1; rewrite ?total_cons in *; lia. Qed.

Lemma total_insert {A} (f : A -> Z) l i x y : l !! i = Some x -> total f (<[i := y]> l) = total f l - f x + f y.
Proof.
  revert i. induction l as [|z l IH]; intros [|i]; simpl; intros E; simplify_eq; rewrite ?total_cons.
  - lia.
  - rewrite (IH i E). lia.
Qed.

(** * The gauge of a worker *)

Section Gauge.
Context {H S : Type} `{S3Handler H S} (instant : nat -> Z) (stamp : nat -> Clock).
Context (drive_unwinds : Z -> H -> Connection S -> option (H * Connection S))
        (abort_unwinds : H -> Exchange S -> option (H * Exchange S)).
Implicit Types (h : H) (m : Metrics) (c : Connection S) (conns : list (Connection S)) (op : bytes).

(** A panic comes out of a call on the handler: the connection is left with
    its request and its metrics label as they were, or as a read has started
    them. *)
Hypothesis unwinds_tracked : forall now h c h' c', drive_unwinds now h c = Some (h', c') -> tracked c ->
  keeps c c' /\ tracked c'.

(** A connection between two rounds. *)
Record ready c : Prop := {
  ready_tracked : tracked c;
  ready_started : request_started c = false;
  ready_inactive : request_active c = false -> metric_operation c = bs "InvalidRequest"
}.

Definition counted op c : Z := if request_active c then here (metric_operation c) op else 0.

(** The requests in flight under an operation. *)
Definition active op conns : Z := total (counted op) conns.

Definition tight (m : Metrics) : Prop := forall op, -600 <= in_flight m op <= 600.

Lemma tight_small m : tight m -> forall op, small (in_flight m op).
Proof. intros Ht op. specialize (Ht op). unfold small. lia. Qed.

Lemma here_bounds a b : 0 <= here a b <= 1.
Proof. unfold here, flag. destruct (bool_decide _); lia. Qed.

Lemma fail_request_tracks h c c0 : request_active c = true -> keeps c0 c ->
  let '(_, c', r) := fail_request instant abort_unwinds h c in tracks c0 c' (Ok r).
Proof.
  intros Ha Hk. unfold fail_request. destruct (caught_abort _ _ _) as [h' e]. cbn [now_of]. by split; [|split].
Qed.

Lemma drive_outcome_tracks now h c : tracked c ->
  exists h' c' r, drive_outcome instant stamp drive_unwinds abort_unwinds now h c = Some (h', c', r) /\ tracks c c' (Ok r).
Proof.
  intros Hc. unfold drive_outcome. destruct (drive_unwinds now h c) as [[h1 c1]|] eqn:E.
  - destruct (unwinds_tracked _ _ _ _ _ E Hc) as [Hk Ht].
    destruct (request_active c1) eqn:Ea; cbn [negb].
    + destruct (bytes_written c1 =? 0).
      * destruct (caught_abort _ _ _) as [h2 e]. eexists _, _, _. split; [done|]. split; [exact Hk|].
        apply tracked_late; [done|apply wf_queue|by right].
      * pose proof (fail_request_tracks h1 c1 c Ea Hk) as Hf.
        destruct (fail_request _ _ _ _) as [[h2 c2] r2]. eauto 10.
    + eexists _, _, _. split; [done|]. split; [done|]. split; [done|].
      destruct Ht as [_ _ T3]. destruct (request_started c1); [|done]. specialize (T3 eq_refl). congruence.
  - destruct (drive_tracks instant stamp now h c Hc) as (h1 & c1 & [r|e] & -> & Ht); [eauto 10|].
    destruct Ht as [Hk Ht]. destruct (request_active c1) eqn:Ea.
    + pose proof (fail_request_tracks h1 c1 c Ea Hk) as Hf.
      destruct (fail_request _ _ _ _) as [[h2 c2] r2]. eauto 10.
    + eexists _, _, _. split; [done|]. split; [done|]. split; [done|].
      destruct Ht as [_ _ T3]. destruct (request_started c1); [|done]. specialize (T3 eq_refl). congruence.
Qed.

(** Starting a request adds it under its label. *)
Lemma started_gauge m c c' op : ready c -> keeps c c' -> tight m ->
  let m' := if request_started c' then track_in_flight_start m (bs "InvalidRequest") else m in
  in_flight m' op = in_flight m op - counted op c + counted op c'.
Proof.
  intros [_ Hs Hi] [Hm Hk] Ht m'. unfold m', counted. destruct Hk as [[-> ->]|(Ha & -> & ->)].
  - rewrite Hs, Hm. lia.
  - rewrite start_in_flight by (by apply tight_small). rewrite Ha, Hm, (Hi Ha). lia.
Qed.

(** Moving a request to another label. *)
Lemma reclassified_gauge m c target m' c' op : (forall o, small (in_flight m o)) -> request_active c = true ->
  reclassify_connection m c target = (m', c') ->
  c' = set_metric_operation target c /\ in_flight m' op = in_flight m op - counted op c + here target op.
Proof.
  intros Hs Ha E. unfold reclassify_connection in E.
  destruct (reclassify_in_flight m (metric_operation c) target) as [m1 cur] eqn:E1. injection E as <- <-.
  destruct (reclassify_in_flight_spec _ _ _ _ _ op E1 Hs) as [-> ->]. split; [done|].
  unfold counted. by rewrite Ha.
Qed.

Definition stays (oc : option (Connection S)) op : Z := match oc with Some c => counted op c | None => 0 end.

Lemma drive_one_gauge now h m c : ready c -> tight m ->
  exists h' m' oc, drive_one instant stamp drive_unwinds abort_unwinds now h m c = Some (h', m', oc) /\
    (forall op, in_flight m' op = in_flight m op - counted op c + stays oc op) /\
    (match oc with Some c' => ready c' | None => True end).
Proof.
  intros Hr Ht. unfold drive_one.
  destruct (drive_outcome_tracks now h c (ready_tracked _ Hr)) as (h1 & c1 & r & -> & Hk & Ho).
  cbn [take_request_started]. pose proof (fun op => started_gauge m c c1 op Hr Hk Ht) as Hg. cbv zeta in Hg.
  set (m1 := if request_started c1 then _ else m) in *. set (c2 := {| stream := _ |}).
  assert (Hs1 : forall o, small (in_flight m1 o)).
  { intros o. rewrite Hg. specialize (Ht o). unfold small, counted.
    pose proof (here_bounds (metric_operation c) o). pose proof (here_bounds (metric_operation c1) o).
    destruct (request_active c), (request_active c1); lia. }
  destruct r as [|io close target|].
  - change (request_active c2) with (request_active c1). destruct (request_active c1) eqn:Ea.
    + unfold track_operation_change. destruct (reclassify_connection m1 c2 _) as [m2 c3] eqn:E.
      eexists _, _, _. split; [done|].
      pose proof (fun op => reclassified_gauge m1 c2 _ m2 c3 op Hs1 eq_refl E) as Hc. destruct Ho as [T1 T2 T3]. split.
      * intros op. destruct (Hc op) as [-> ->]. rewrite Hg. unfold stays, counted. cbn. rewrite Ea. lia.
      * destruct (Hc []) as [-> _]. constructor; cbn; [by constructor|done|congruence].
    + eexists _, _, _. split; [done|]. destruct Ho as [T1 T2 T3]. split; [intros op; rewrite Hg; unfold stays, counted; cbn; by rewrite Ea|].
      constructor; cbn; [constructor; cbn; [done|intros _; by apply T2|done]|done|]. intros _. destruct Hk as [Hm [[Hka _]|(_ & Hka & _)]]; [|congruence].
      rewrite Hm. apply (ready_inactive _ Hr). congruence.
  - destruct Ho as [Ha Ho]. destruct (reclassify_connection m1 c2 target) as [m2 c3] eqn:E.
    pose proof (fun op => reclassified_gauge m1 c2 _ m2 c3 op Hs1 Ha E) as Hc. destruct (Hc []) as [-> _].
    assert (Hs2 : forall o, small (in_flight m2 o)).
    { intros o. destruct (Hc o) as [_ ->]. rewrite Hg. specialize (Ht o). unfold small, counted.
      pose proof (here_bounds (metric_operation c) o). pose proof (here_bounds (metric_operation c1) o).
      pose proof (here_bounds target o). cbn. rewrite Ha. destruct (request_active c); lia. }
    assert (Hdone : forall op, in_flight (track_completion m2 target io) op = in_flight m op - counted op c).
    { intros op. rewrite completion_in_flight by apply Hs2. destruct (Hc op) as [_ ->]. rewrite Hg.
      unfold counted. cbn. rewrite Ha. lia. }
    cbn [set_metric_operation metric_operation]. destruct close.
    + eexists _, _, _. split; [done|]. split; [|done]. intros op. rewrite Hdone. cbn. lia.
    + eexists _, _, _. split; [done|]. destruct (Ho eq_refl) as [Hw Hh].
      split; [intros op; rewrite Hdone; unfold stays, counted; cbn; lia|]. constructor; cbn; [|done|done].
      by constructor.
  - eexists _, _, _. split; [done|]. split; [|done]. intros op. rewrite Hg. destruct Ho as [Ha _].
    unfold stays, counted at 2. rewrite Ha. lia.
Qed.

Lemma counted_bounds op c : 0 <= counted op c <= 1.
Proof. unfold counted. destruct (request_active c); [apply here_bounds|lia]. Qed.

Lemma active_bounds op conns : 0 <= active op conns <= len conns.
Proof.
  unfold active. induction conns as [|c conns IH]; [done|]. rewrite total_cons, len_cons.
  pose proof (counted_bounds op c). lia.
Qed.

(** The books of a worker: what is buffered and what has been handed over add
    up to the requests in flight. *)
Record books (settled : bytes -> Z) m conns : Prop := {
  books_ready : Forall ready conns;
  books_limit : (length conns <= MAX_CONNECTIONS)%nat;
  books_settled : forall op, 0 <= settled op <= Z.of_nat MAX_CONNECTIONS;
  books_gauge : forall op, settled op + in_flight m op = active op conns
}.

Lemma books_tight settled m conns : books settled m conns -> tight m.
Proof.
  intros [_ Hl Hs Hg] op. specialize (Hs op). specialize (Hg op). pose proof (active_bounds op conns) as Ha.
  unfold len, MAX_CONNECTIONS in *. lia.
Qed.

Lemma drive_loop_books rounds now : forall h m conns index settled, books settled m conns ->
  (length conns <= rounds + index)%nat ->
  exists h' m' conns', drive_loop instant stamp drive_unwinds abort_unwinds rounds now h m conns index = Some (h', m', conns') /\
    books settled m' conns'.
Proof.
  induction rounds as [|rounds IH]; intros h m conns index settled Hb Hr; cbn [drive_loop];
    destruct (conns !! index) as [c|] eqn:E; [|by eexists _, _, _| |by eexists _, _, _].
  - apply lookup_lt_Some in E. lia.
  - pose proof (books_tight _ _ _ Hb) as Ht. destruct Hb as [B1 B2 B3 B4].
    pose proof (Forall_lookup_1 _ _ _ _ B1 E) as Hc.
    destruct (drive_one_gauge now h m c Hc Ht) as (h1 & m1 & [c1|] & -> & Hg & Hc1).
    + apply IH; [|rewrite length_insert; lia]. constructor; [by apply Forall_insert|by rewrite length_insert|done|].
      intros op. specialize (B4 op). unfold active in *. rewrite (total_insert _ _ _ _ _ E), Hg. cbn [stays]. lia.
    + pose proof (swap_remove_perm _ _ _ E) as Hp. pose proof (Permutation_length Hp) as Hl. cbn [length] in Hl.
      apply IH; [|lia]. constructor; [|lia|done|].
      * rewrite <- Hp in B1. by apply Forall_cons in B1 as [_ ?].
      * intros op. specialize (B4 op). unfold active in *. rewrite <- (total_perm _ _ _ Hp), total_cons in B4.
        rewrite Hg. cbn [stays]. lia.
Qed.

Lemma new_ready s : ready (Connection_new instant s).
Proof. by constructor; [constructor|..]. Qed.

Lemma immediate_books settled m conns op out t : books settled m conns -> books settled (track_immediate_error m op out t) conns.
Proof.
  intros Hb. pose proof (books_tight _ _ _ Hb op) as Ht. destruct Hb as [B1 B2 B3 B4]. constructor; try done.
  intros op'. rewrite immediate_in_flight by (unfold small; lia). apply B4.
Qed.

Lemma accept_books overload answers : forall settled m conns, books settled m conns ->
  let (m', conns') := accept_connections instant overload m conns answers in books settled m' conns'.
Proof.
  induction answers as [|a rest IH]; intros settled m conns Hb; cbn [accept_connections]; [done|].
  assert (Ho : let '(m', conns', _) := accept_one instant overload m conns a in books settled m' conns').
  { unfold accept_one. destruct a as [s configured|[]]; [|done..].
    destruct (Nat.ltb_spec (length conns) MAX_CONNECTIONS) as [Hlt|_].
    - destruct configured; [|by apply immediate_books]. destruct Hb as [B1 B2 B3 B4]. constructor; [..|done|].
      + apply Forall_app_2; [done|]. apply Forall_singleton, new_ready.
      + rewrite length_app. cbn [length]. lia.
      + intros op. unfold active in *. rewrite total_app, B4. cbn. lia.
    - destruct (stream_write _ _) as [s' r]. by apply immediate_books. }
  destruct (accept_one instant overload m conns a) as [[m' conns'] []]; [by apply IH|done].
Qed.

Lemma abandon_one_gauge h m c : ready c -> tight m ->
  forall op, in_flight (snd (abandon_one instant abort_unwinds (h, m) c)) op = in_flight m op - counted op c.
Proof.
  intros [Hc Hs Hi] Ht op. unfold abandon_one. cbn [take_request_started]. rewrite Hs. cbn [request_active].
  unfold counted. destruct (request_active c) eqn:Ea; cbn [negb]; [|cbn; lia].
  destruct (caught_abort _ _ _) as [h' e]. unfold track_operation_change.
  destruct (reclassify_connection m _ _) as [m2 c3] eqn:E. cbn [now_of snd].
  match type of E with reclassify_connection _ ?x ?t = _ =>
    pose proof (fun op => reclassified_gauge m x t m2 c3 op (tight_small m Ht) eq_refl E) as Hr end.
  destruct (Hr op) as [-> Hop]. cbn [set_stream set_metric_operation metric_operation].
  rewrite completion_in_flight.
  - rewrite Hop. unfold counted. cbn. lia.
  - match goal with |- small (in_flight m2 ?o) => destruct (Hr o) as [_ ->]; specialize (Ht o);
      pose proof (here_bounds o o) end. unfold small, counted. cbn [set_exchange request_active metric_operation].
    match goal with |- context [here (metric_operation c) ?o] => pose proof (here_bounds (metric_operation c) o) end. lia.
Qed.

Lemma abandon_books conns : forall settled h m, books settled m conns ->
  books settled (snd (abandon_connections instant abort_unwinds h m conns)) [].
Proof.
  induction conns as [|c conns IH]; intros settled h m Hb; [done|].
  unfold abandon_connections in *. cbn [foldl]. pose proof (books_tight _ _ _ Hb) as Ht.
  destruct Hb as [B1 B2 B3 B4]. apply Forall_cons in B1 as [Hc B1]. pose proof (abandon_one_gauge h m c Hc Ht) as Hg.
  destruct (abandon_one instant abort_unwinds (h, m) c) as [h1 m1]. cbn [snd] in Hg. apply IH.
  constructor; [done|cbn [length] in B2; lia|done|]. intros op. rewrite Hg. specialize (B4 op).
  unfold active in *. rewrite total_cons in B4. lia.
Qed.

(** What a flush hands over. *)
Definition handed (store : bytes -> MetricDelta -> bool) m op : Z :=
  in_flight m op - in_flight (fst (flush_metrics store m)) op.

Lemma flush_in_flight store m op :
  in_flight (fst (flush_metrics store m)) op = if store op (entry m op) then 0 else in_flight m op.
Proof.
  unfold in_flight, entry, flush_metrics. cbn [fst]. rewrite map_lookup_filter.
  destruct (m !! op) as [d|]; simpl; [|by destruct (store _ _)].
  destruct (store op d) eqn:E; [rewrite option_guard_False|rewrite option_guard_True]; simpl; rewrite ?E; done.
Qed.

Lemma flush_books settled store m conns : books settled m conns ->
  books (fun op => settled op + handed store m op) (fst (flush_metrics store m)) conns.
Proof.
  intros [B1 B2 B3 B4]. constructor; [done|done| |].
  - intros op. unfold handed. rewrite flush_in_flight. specialize (B3 op). specialize (B4 op).
    pose proof (active_bounds op conns) as Ha. unfold len in Ha. destruct (store _ _); lia.
  - intros op. unfold handed. specialize (B4 op). lia.
Qed.

(** * A worker over time *)

Definition Turn : Type := list Accepted * Z * option (bytes -> MetricDelta -> bool).

(** The turns of the loop, and what has been handed over so far. *)
Fixpoint worker (overload : bytes) (turns : list Turn) h m conns (settled : bytes -> Z)
  : option (H * Metrics * list (Connection S) * (bytes -> Z)) :=
  match turns with
  | [] => Some (h, m, conns, settled)
  | (answers, now, heartbeat) :: rest =>
      match worker_tick instant stamp drive_unwinds abort_unwinds overload answers now h m conns with
      | None => None
      | Some (h1, m1, conns1) =>
          match heartbeat with
          | None => worker overload rest h1 m1 conns1 settled
          | Some store =>
              worker overload rest h1 (fst (flush_metrics store m1)) conns1 (fun op => settled op + handed store m1 op)
          end
      end
  end.

Lemma tick_books overload answers now h m conns settled : books settled m conns ->
  exists h' m' conns', worker_tick instant stamp drive_unwinds abort_unwinds overload answers now h m conns = Some (h', m', conns') /\
    books settled m' conns'.
Proof.
  intros Hb. unfold worker_tick. pose proof (accept_books overload answers settled m conns Hb) as Ha.
  destruct (accept_connections _ _ _ _ _) as [m1 conns1]. unfold drive_connections.
  apply drive_loop_books; [done|lia].
Qed.

Lemma worker_books overload turns : forall h m conns settled, books settled m conns ->
  exists h' m' conns' settled', worker overload turns h m conns settled = Some (h', m', conns', settled') /\
    books settled' m' conns'.
Proof.
  induction turns as [|[[answers now] heartbeat] rest IH]; intros h m conns settled Hb; cbn [worker]; [eauto 10|].
  destruct (tick_books overload answers now h m conns settled Hb) as (h1 & m1 & conns1 & -> & H1).
  destruct heartbeat as [store|]; apply IH; [by apply flush_books|done].
Qed.

Lemma no_books : books (fun _ => 0) ∅ [].
Proof. constructor; [done|cbn; unfold MAX_CONNECTIONS; lia|unfold MAX_CONNECTIONS; lia|]. intros op. reflexivity. Qed.

(** C22: However connections come and go, reads, writes, timeouts and panics
    interleave and metrics are flushed, the loop never gets stuck, a worker has
    at most [MAX_CONNECTIONS] connections, and for every operation what is
    buffered and what was handed over add up to exactly the requests in flight
    under it. *)
Theorem worker_gauge (overload : bytes) (turns : list Turn) (h : H) :
  exists h' m conns settled,
    worker overload turns h ∅ [] (fun _ => 0) = Some (h', m, conns, settled) /\
    (length conns <= MAX_CONNECTIONS)%nat /\
    forall op, settled op + in_flight m op = active op conns.
Proof.
  destruct (worker_books overload turns h ∅ [] (fun _ => 0) no_books) as (h' & m & conns & settled & -> & [B1 B2 B3 B4]).
  eauto 10.
Qed.

(** A graceful shutdown leaves no in-flight count behind: when the last
    flush hands everything over, all that was ever handed over for an operation
    adds up to zero. *)
Theorem shutdown_closes_gauges (overload : bytes) (turns : list Turn) (h : H) :
  exists h' m conns settled,
    worker overload turns h ∅ [] (fun _ => 0) = Some (h', m, conns, settled) /\
    let (_, left) := worker_shutdown instant abort_unwinds (fun _ _ => true) h' m conns in
    forall op, in_flight left op = 0 /\
      settled op + handed (fun _ _ => true) (snd (abandon_connections instant abort_unwinds h' m conns)) op = 0.
Proof.
  destruct (worker_books overload turns h ∅ [] (fun _ => 0) no_books) as (h' & m & conns & settled & -> & Hb).
  exists h', m, conns, settled. split; [done|]. unfold worker_shutdown.
  pose proof (abandon_books conns settled h' m Hb) as Ha.
  destruct (abandon_connections instant abort_unwinds h' m conns) as [h2 m2]. cbn [snd] in *. intros op.
  pose proof (books_gauge _ _ _ Ha op) as Hg. unfold handed. rewrite flush_in_flight. split; [done|].
  unfold active in Hg. simpl in Hg. lia.
Qed.
End Gauge.

(** * Examples *)

(** A drive that panics, before anything is done, at one moment. *)
Definition panics_at (t : Z) {H S} (now : Z) (h : H) (c : Connection S) : option (H * Connection S) :=
  if now =? t then Some (h, c) else None.

Lemma panics_tracked t {H S} (now : Z) (h : H) (c : Connection S) h' c' :
  panics_at t now h c = Some (h', c') -> tracked c -> keeps c c' /\ tracked c'.
Proof. unfold panics_at. destruct (now =? t); [|done]. intros [= <- <-] Hc. split; [apply keeps_refl|done]. Qed.

Definition sample_turns : list Turn :=
  [([Incoming sample_stream true; AcceptError Interrupted; Incoming sample_stream true; AcceptError WouldBlock], 0, None);
   ([], 1, Some (fun _ _ => true)); ([Incoming sample_stream false], 2, None); ([], 3, None)].

Definition sample_worker : option (list bytes * Metrics * list (Connection bytes) * (bytes -> Z)) :=
  @worker _ _ storing_handler (fun n => Z.of_nat n) (fun _ => sample_now) (panics_at 2) (fun _ _ => None)
    [] sample_turns [] ∅ [] (fun _ => 0).

Lemma worker_gauge_witness : exists h' m conns settled, sample_worker = Some (h', m, conns, settled) /\
  (length conns <= MAX_CONNECTIONS)%nat /\ forall op, settled op + in_flight m op = active op conns.
Proof.
  apply (worker_gauge (H0 := storing_handler) (fun n => Z.of_nat n) (fun _ => sample_now) (panics_at 2) (fun _ _ => None)
    (panics_tracked 2) [] sample_turns []).
Defined.

Lemma shutdown_closes_gauges_witness : exists h' m conns settled, sample_worker = Some (h', m, conns, settled) /\
  let (_, left) := worker_shutdown (H0 := storing_handler) (fun n => Z.of_nat n) (fun _ _ => None) (fun _ _ => true) h' m conns in
  forall op, in_flight left op = 0 /\
    settled op + handed (fun _ _ => true)
      (snd (abandon_connections (H0 := storing_handler) (fun n => Z.of_nat n) (fun _ _ => None) h' m conns)) op = 0.
Proof.
  apply (shutdown_closes_gauges (H0 := storing_handler) (fun n => Z.of_nat n) (fun _ => sample_now) (panics_at 2)
    (fun _ _ => None) (panics_tracked 2) [] sample_turns []).
Defined.
