(* ===== verification/XmlParse.v ===== *)
(** XML request bodies, from [src/src/protocol/xml.rs]: [parse_tree] builds a
    bounded tree from the events of the quick-xml reader, and
    [parse_complete_multipart] and [parse_delete_objects] read it.  The reader
    is a parameter: a function from a document to its events.  The theorems
    give the limits every accepted document respects, that the tree built is
    the tree the events spell, and exactly which requests are accepted. *)
From Stdlib Require Import Sorted.
From S2P Require Import Prelude Text.

(** * Limits and errors *)

Record XmlLimits := {
  max_document_bytes : Z;
  max_depth : Z;
  max_nodes : Z;
  max_text_bytes : Z;
  max_complete_parts : Z;
  max_delete_objects : Z
}.

Definition default_xml_limits : XmlLimits :=
  {| max_document_bytes := 1024 * 1024; max_depth := 16; max_nodes := 32000;
     max_text_bytes := 1024 * 1024; max_complete_parts := 10000; max_delete_objects := 1000 |}.

Inductive XmlError :=
| DocumentTooLarge
| TooDeep
| TooManyNodes
| TextTooLarge
| Malformed (error : bytes)
| ForbiddenConstruct
| MissingRoot
| MultipleRoots
| UnexpectedRoot (expected actual : bytes)
| UnexpectedElement (element : bytes)
| MissingField (field : bytes)
| DuplicateField (field : bytes)
| InvalidField (field : bytes)
| TooManyItems
| PartNumbersNotIncreasing.

Definition XmlError_display (e : XmlError) : bytes :=
  match e with
  | DocumentTooLarge => bs "XML document exceeds its size limit"
  | TooDeep => bs "XML nesting exceeds its depth limit"
  | TooManyNodes => bs "XML document has too many elements"
  | TextTooLarge => bs "XML text exceeds its size limit"
  | Malformed error => bs "malformed XML: " ++ error
  | ForbiddenConstruct => bs "DTD and processing instructions are forbidden"
  | MissingRoot => bs "XML document has no root element"
  | MultipleRoots => bs "XML document has multiple root elements"
  | UnexpectedRoot expected actual => bs "expected XML root " ++ expected ++ bs ", got " ++ actual
  | UnexpectedElement element => bs "unexpected XML element " ++ element
  | MissingField field => bs "missing XML field " ++ field
  | DuplicateField field => bs "duplicate XML field " ++ field
  | InvalidField field => bs "invalid XML field " ++ field
  | TooManyItems => bs "XML request contains too many items"
  | PartNumbersNotIncreasing => bs "multipart part numbers must be strictly increasing"
  end.

(** * The reader *)

(** The events of quick-xml with [expand_empty_elements] (so there is no empty
    element) and [check_end_names].  A failing accessor carries its error
    text. *)
Inductive Event :=
| EStart (attributes : list (result bytes unit)) (local_name : bytes)
| EEnd (local_name : bytes)
| EText (xml10_content : result bytes bytes)
| ECData (xml10_content : result bytes bytes)
| EComment
| EDecl
| EGeneralRef (xml10_content : result bytes bytes) (resolve_char_ref : result bytes (option bytes))
| EPI
| EDocType.

(** [read_events] gives the results of [read_event] up to the end of the
    document; [unescape] and [resolve_xml_entity] are quick-xml's. *)
Class XmlReader := {
  read_events : bytes -> list (result bytes Event);
  unescape : bytes -> result bytes bytes;
  resolve_xml_entity : bytes -> option bytes
}.

(** * UTF-8 errors *)

(** Where [str::from_utf8] stops: the index and, unless the input ends there,
    the length of the invalid sequence. *)
Fixpoint utf8_error_at (index : Z) (l : bytes) : option (Z * option Z) :=
  match l with
  | [] => None
  | b0 :: r0 =>
      let v := bval b0 in
      if v <? 128 then utf8_error_at (index + 1) r0
      else if in_range 194 223 v then
        match r0 with
        | [] => Some (index, None)
        | b1 :: r1 => if is_continuation b1 then utf8_error_at (index + 2) r1 else Some (index, Some 1)
        end
      else if in_range 224 239 v then
        match r0 with
        | [] => Some (index, None)
        | b1 :: r1 =>
            if (if v =? 224 then in_range 160 191 (bval b1)
                else if v =? 237 then in_range 128 159 (bval b1) else is_continuation b1)
            then match r1 with
                 | [] => Some (index, None)
                 | b2 :: r2 => if is_continuation b2 then utf8_error_at (index + 3) r2 else Some (index, Some 2)
                 end
            else Some (index, Some 1)
        end
      else if in_range 240 244 v then
        match r0 with
        | [] => Some (index, None)
        | b1 :: r1 =>
            if (if v =? 240 then in_range 144 191 (bval b1)
                else if v =? 244 then in_range 128 143 (bval b1) else is_continuation b1)
            then match r1 with
                 | [] => Some (index, None)
                 | b2 :: r2 =>
                     if is_continuation b2 then
                       match r2 with
                       | [] => Some (index, None)
                       | b3 :: r3 => if is_continuation b3 then utf8_error_at (index + 4) r3
                                     else Some (index, Some 3)
                       end
                     else Some (index, Some 2)
                 end
            else Some (index, Some 1)
        end
      else Some (index, Some 1)
  end.

(** [Utf8Error::to_string]. *)
Definition utf8_error_text (l : bytes) : bytes :=
  match utf8_error_at 0 l with
  | Some (index, Some n) => bs "invalid utf-8 sequence of " ++ show_Z n ++ bs " bytes from index " ++ show_Z index
  | Some (index, None) => bs "incomplete utf-8 byte sequence from index " ++ show_Z index
  | None => []
  end.

(** * The tree *)

#[warnings="-register-all"]
Inductive Node := MkNode (name text : bytes) (children : list Node).

Definition node_name (n : Node) : bytes := match n with MkNode name _ _ => name end.
Definition node_text (n : Node) : bytes := match n with MkNode _ text _ => text end.
Definition node_children (n : Node) : list Node := match n with MkNode _ _ children => children end.

Definition push_child (child parent : Node) : Node :=
  match parent with MkNode name text children => MkNode name text (children ++ [child]) end.

Definition push_text (t : bytes) (n : Node) : Node :=
  match n with MkNode name text children => MkNode name (text ++ t) children end.

(** The locals of [parse_tree]; the top of the stack comes first. *)
Record TreeState := {
  stack : list Node;
  root : option Node;
  nodes : Z;
  text_bytes : Z;
  saw_declaration : bool
}.

Definition initial_state : TreeState :=
  {| stack := []; root := None; nodes := 0; text_bytes := 0; saw_declaration := false |}.

Definition malformed {A} (r : result bytes A) : result XmlError A := map_err Malformed r.

(** [append_text]: the new stack and text count. *)
Definition append_text (s : TreeState) (limits : XmlLimits) (text : bytes) : result XmlError TreeState :=
  let* total := ok_or (checked_add_u64 (text_bytes s) (len text)) TextTooLarge in
  if max_text_bytes limits <? total then Err TextTooLarge
  else
    match stack s with
    | node :: rest =>
        Ok {| stack := push_text text node :: rest; root := root s; nodes := nodes s; text_bytes := total;
              saw_declaration := saw_declaration s |}
    | [] =>
        if negb (is_empty (str_trim text)) then
          Err (match root s with Some _ => MultipleRoots | None => Malformed (bs "text outside root element") end)
        else
          Ok {| stack := []; root := root s; nodes := nodes s; text_bytes := total;
                saw_declaration := saw_declaration s |}
    end.

Section Parse.
Context `{XmlReader}.

(** The [Event::Start] arm. *)
Definition start_element (limits : XmlLimits) (s : TreeState) (attributes : list (result bytes unit))
    (local_name : bytes) : result XmlError TreeState :=
  if max_depth limits <=? len (stack s) then Err TooDeep
  else
    let* nodes := ok_or (checked_add_u64 (nodes s) 1) TooManyNodes in
    if max_nodes limits <? nodes then Err TooManyNodes
    else
      let* _ := traverse malformed attributes in
      let* name := ok_or (from_utf8 local_name) (Malformed (utf8_error_text local_name)) in
      Ok {| stack := MkNode name [] [] :: stack s; root := root s; nodes := nodes;
            text_bytes := text_bytes s; saw_declaration := saw_declaration s |}.

(** The [Event::End] arm. *)
Definition end_element (s : TreeState) : result XmlError TreeState :=
  match stack s with
  | [] => Err (Malformed (bs "unmatched end tag"))
  | node :: parent :: rest =>
      Ok {| stack := push_child node parent :: rest; root := root s; nodes := nodes s;
            text_bytes := text_bytes s; saw_declaration := saw_declaration s |}
  | [node] =>
      match root s with
      | Some _ => Err MultipleRoots
      | None => Ok {| stack := []; root := Some node; nodes := nodes s; text_bytes := text_bytes s;
                      saw_declaration := saw_declaration s |}
      end
  end.

(** One round of the loop. *)
Definition tree_event (limits : XmlLimits) (s : TreeState) (event : result bytes Event)
  : result XmlError TreeState :=
  let* event := malformed event in
  match event with
  | EStart attributes local_name => start_element limits s attributes local_name
  | EEnd _ => end_element s
  | EText content =>
      let* decoded := malformed content in
      let* decoded := malformed (unescape decoded) in
      append_text s limits decoded
  | ECData content =>
      let* decoded := malformed content in
      append_text s limits decoded
  | EComment => Ok s
  | EDecl =>
      if negb (saw_declaration s) && negb (match root s with Some _ => true | None => false end)
         && is_empty (stack s)
      then Ok {| stack := stack s; root := root s; nodes := nodes s; text_bytes := text_bytes s;
                 saw_declaration := true |}
      else Err ForbiddenConstruct
  | EGeneralRef content char_ref =>
      let* decoded := malformed content in
      let* character := malformed char_ref in
      let* resolved :=
        match character with
        | Some c => Ok c
        | None => ok_or (resolve_xml_entity decoded) ForbiddenConstruct
        end in
      append_text s limits resolved
  | EPI | EDocType => Err ForbiddenConstruct
  end.

Definition parse_tree (input : bytes) (limits : XmlLimits) : result XmlError Node :=
  if max_document_bytes limits <? len input then Err DocumentTooLarge
  else
    let* s := fold_result (tree_event limits) initial_state (read_events input) in
    if negb (is_empty (stack s)) then Err (Malformed (bs "unclosed element"))
    else ok_or (root s) MissingRoot.

(** * Fields *)

Definition expect_root (root : Node) (expected : bytes) : result XmlError unit :=
  if node_name root ==b expected then Ok tt else Err (UnexpectedRoot expected (node_name root)).

Definition named (name : bytes) (n : Node) : bool := node_name n ==b name.

Definition required_once (node : Node) (name : bytes) : result XmlError Node :=
  match List.filter (named name) (node_children node) with
  | [] => Err (MissingField name)
  | _ :: _ :: _ => Err (DuplicateField name)
  | [value] => if negb (is_empty (node_children value)) then Err (InvalidField name) else Ok value
  end.

Definition optional_text_untrimmed (node : Node) (name : bytes) : result XmlError (option bytes) :=
  match List.filter (named name) (node_children node) with
  | [] => Ok None
  | _ :: _ :: _ => Err (DuplicateField name)
  | [value] => if negb (is_empty (node_children value)) then Err (InvalidField name)
               else Ok (Some (node_text value))
  end.

Definition optional_text (node : Node) (name : bytes) : result XmlError (option bytes) :=
  let* value := optional_text_untrimmed node name in Ok (option_map str_trim value).

Definition reject_unknown_children (node : Node) (allowed : list bytes) : result XmlError unit :=
  match find (fun child => negb (existsb (fun a => a ==b node_name child) allowed)) (node_children node) with
  | Some child => Err (UnexpectedElement (node_name child))
  | None => Ok tt
  end.

(** * Requests *)

Record PartChecksums := {
  crc32 : option bytes;
  crc32c : option bytes;
  sha1 : option bytes;
  part_sha256 : option bytes
}.

Record CompletedPart := { part_number : Z; etag : bytes; checksums : PartChecksums }.

Record CompleteMultipartUpload := { parts : list CompletedPart }.

Record DeleteObjectIdentifier := { object_key : bytes; version_id : option bytes }.

Record DeleteObjectsRequest := { objects : list DeleteObjectIdentifier; quiet : bool }.

Definition part_fields : list bytes :=
  [bs "PartNumber"; bs "ETag"; bs "ChecksumCRC32"; bs "ChecksumCRC32C"; bs "ChecksumSHA1"; bs "ChecksumSHA256"].

(** One child of a CompleteMultipartUpload: the parts and the previous part
    number, in the loop's state. *)
Definition complete_part (limits : XmlLimits) (s : list CompletedPart * Z) (child : Node)
  : result XmlError (list CompletedPart * Z) :=
  let (parts, previous) := s in
  if negb (node_name child ==b bs "Part") then Err (UnexpectedElement (node_name child))
  else if max_complete_parts limits <=? len parts then Err TooManyItems
  else
    let* number := required_once child (bs "PartNumber") in
    let* part_number :=
      ok_or (match parse_u16 (str_trim (node_text number)) with
             | Some n => if in_range 1 10000 n then Some n else None
             | None => None
             end) (InvalidField (bs "PartNumber")) in
    if part_number <=? previous then Err PartNumbersNotIncreasing
    else
      let* etag := required_once child (bs "ETag") in
      let etag := str_trim (node_text etag) in
      if is_empty etag then Err (InvalidField (bs "ETag"))
      else
        let* crc32 := optional_text child (bs "ChecksumCRC32") in
        let* crc32c := optional_text child (bs "ChecksumCRC32C") in
        let* sha1 := optional_text child (bs "ChecksumSHA1") in
        let* sha256 := optional_text child (bs "ChecksumSHA256") in
        let* _ := reject_unknown_children child part_fields in
        Ok (parts ++ [{| part_number := part_number; etag := etag;
                         checksums := {| crc32 := crc32; crc32c := crc32c; sha1 := sha1;
                                         part_sha256 := sha256 |} |}], part_number).

Definition parse_complete_multipart (input : bytes) (limits : XmlLimits)
  : result XmlError CompleteMultipartUpload :=
  let* root := parse_tree input limits in
  let* _ := expect_root root (bs "CompleteMultipartUpload") in
  let* (parts, _) := fold_result (complete_part limits) ([], 0) (node_children root) in
  if is_empty parts then Err (MissingField (bs "Part")) else Ok {| parts := parts |}.

(** One child of a Delete: the objects, the flag and whether it was seen. *)
Definition delete_child (limits : XmlLimits) (s : list DeleteObjectIdentifier * bool * bool) (child : Node)
  : result XmlError (list DeleteObjectIdentifier * bool * bool) :=
  let '(objects, quiet, saw_quiet) := s in
  if node_name child ==b bs "Object" then
    if max_delete_objects limits <=? len objects then Err TooManyItems
    else
      let* _ := reject_unknown_children child [bs "Key"; bs "VersionId"] in
      let* key_node := required_once child (bs "Key") in
      if is_empty (node_text key_node) then Err (InvalidField (bs "Key"))
      else
        let* version_id := optional_text_untrimmed child (bs "VersionId") in
        Ok (objects ++ [{| object_key := node_text key_node; version_id := version_id |}], quiet, saw_quiet)
  else if node_name child ==b bs "Quiet" then
    if saw_quiet then Err (DuplicateField (bs "Quiet"))
    else
      let value := str_trim (node_text child) in
      let* quiet :=
        if eq_ignore_ascii_case value (bs "true") then Ok true
        else if eq_ignore_ascii_case value (bs "false") then Ok false
        else Err (InvalidField (bs "Quiet")) in
      Ok (objects, quiet, true)
  else Err (UnexpectedElement (node_name child)).

Definition parse_delete_objects (input : bytes) (limits : XmlLimits) : result XmlError DeleteObjectsRequest :=
  let* root := parse_tree input limits in
  let* _ := expect_root root (bs "Delete") in
  let* (objects, quiet, _) := fold_result (delete_child limits) ([], false, false) (node_children root) in
  if is_empty objects then Err (MissingField (bs "Object")) else Ok {| objects := objects; quiet := quiet |}.
End Parse.

(** * Specification: the documents that are accepted *)

Section Grammar.
Context `{XmlReader}.

Abbreviation events := (list (result bytes Event)).

(** The text an event adds. *)
Definition text_of (e : Event) : option bytes :=
  match e with
  | EText (Ok c) => match unescape c with Ok t => Some t | Err _ => None end
  | ECData (Ok c) => Some c
  | EGeneralRef (Ok c) (Ok (Some t)) => Some t
  | EGeneralRef (Ok c) (Ok None) => resolve_xml_entity c
  | _ => None
  end.

(** Content between two tags: its events, its text and its child elements. *)
Inductive content : events -> bytes -> list Node -> Prop :=
| content_nil : content [] [] []
| content_text e t evs text cs : text_of e = Some t -> content evs text cs -> content (Ok e :: evs) (t ++ text) cs
| content_comment evs text cs : content evs text cs -> content (Ok EComment :: evs) text cs
| content_child mid evs n text cs :
    element mid n -> content evs text cs -> content (mid ++ evs) text (n :: cs)
with element : events -> Node -> Prop :=
| element_node attributes name close_name evs text cs :
    Forall (fun a => is_ok a = true) attributes -> utf8_valid name = true -> content evs text cs ->
    element (Ok (EStart attributes name) :: evs ++ [Ok (EEnd close_name)]) (MkNode name text cs).

Scheme content_mind := Minimality for content Sort Prop
with element_mind := Minimality for element Sort Prop.
Combined Scheme content_element_ind from content_mind, element_mind.

(** What may stand outside the root: comments, blank text and at most one
    declaration; [misc d evs d'] uses up the allowance [d] for it. *)
Inductive misc : bool -> events -> bool -> Prop :=
| misc_nil d : misc d [] d
| misc_comment d evs d' : misc d evs d' -> misc d (Ok EComment :: evs) d'
| misc_blank d e t evs d' :
    text_of e = Some t -> str_trim t = [] -> misc d evs d' -> misc d (Ok e :: evs) d'
| misc_decl evs d' : misc false evs d' -> misc true (Ok EDecl :: evs) d'.

Definition event_text (e : result bytes Event) : Z :=
  match e with Ok e => match text_of e with Some t => len t | None => 0 end | Err _ => 0 end.

Definition total_text (evs : events) : Z := foldr (fun e n => event_text e + n) 0 evs.

Definition event_starts (e : result bytes Event) : Z := match e with Ok (EStart _ _) => 1 | _ => 0 end.

Definition total_starts (evs : events) : Z := foldr (fun e n => event_starts e + n) 0 evs.

Fixpoint depth (n : Node) : Z :=
  match n with MkNode _ _ cs => 1 + foldr (fun c m => Z.max (depth c) m) 0 cs end.

(** A document spells the tree [t] within the limits. *)
Definition spells (limits : XmlLimits) (evs : events) (t : Node) : Prop :=
  exists before mid after d, evs = before ++ mid ++ after /\ misc true before d /\ element mid t /\
    misc false after false /\
    depth t <= max_depth limits /\ total_starts evs <= max_nodes limits /\ total_text evs <= max_text_bytes limits.

Definition usize_limits (limits : XmlLimits) : Prop :=
  0 <= max_nodes limits <= u64_max /\ 0 <= max_text_bytes limits <= u64_max.

(** ** Lemmas *)

Lemma total_text_app a b : total_text (a ++ b) = total_text a + total_text b.
Proof. induction a as [|x a IH]; simpl; [done|]. rewrite IH. lia. Qed.

Lemma total_starts_app a b : total_starts (a ++ b) = total_starts a + total_starts b.
Proof. induction a as [|x a IH]; simpl; [done|]. rewrite IH. lia. Qed.

Lemma event_text_nonneg e : 0 <= event_text e.
Proof. destruct e as [e|]; simpl; [|done]. destruct (text_of e); [apply len_nonneg|done]. Qed.

Lemma total_text_nonneg evs : 0 <= total_text evs.
Proof. induction evs as [|e evs IH]; simpl; [done|]. pose proof (event_text_nonneg e). lia. Qed.

Lemma total_starts_nonneg evs : 0 <= total_starts evs.
Proof. induction evs as [|e evs IH]; simpl; [done|]. destruct e as [[]|]; simpl; lia. Qed.

Lemma content_app a t cs b t' cs' : content a t cs -> content b t' cs' -> content (a ++ b) (t ++ t') (cs ++ cs').
Proof.
  intros Ha Hb. induction Ha as [|e u evs text cs He _ IH|evs text cs _ IH|mid evs n text cs Hm _ IH]; simpl.
  - done.
  - rewrite <- app_assoc. by constructor.
  - by constructor.
  - rewrite <- app_assoc. by constructor.
Qed.

(** A text event in the loop. *)
Lemma tree_event_text limits s e t : text_of e = Some t -> tree_event limits s (Ok e) = append_text s limits t.
Proof.
  unfold tree_event, malformed. cbn [map_err].
  destruct e as [| |[c|]|[c|]| | |[c|] [[x|]|]| |]; simpl; try done.
  - destruct (unescape c); simpl; [|done]. by intros [= ->].
  - by intros [= ->].
  - by intros [= ->].
  - destruct (resolve_xml_entity c); simpl; [|done]. by intros [= ->].
Qed.

Definition add_text (s : TreeState) (st : list Node) (n : Z) : TreeState :=
  {| stack := st; root := root s; nodes := nodes s; text_bytes := text_bytes s + n;
     saw_declaration := saw_declaration s |}.

Lemma append_text_Ok s limits t s' : append_text s limits t = Ok s' ->
  text_bytes s + len t <= max_text_bytes limits /\
  match stack s with
  | node :: rest => s' = add_text s (push_text t node :: rest) (len t)
  | [] => s' = add_text s [] (len t) /\ str_trim t = []
  end.
Proof.
  unfold append_text. destruct (checked_add_u64 _ _) as [n|] eqn:E; [|done]. cbn [ok_or].
  apply checked_Some in E as [-> E]. destruct (Z.ltb_spec (max_text_bytes limits) (text_bytes s + len t)); [done|].
  destruct (stack s) as [|node rest].
  - destruct (is_empty (str_trim t)) eqn:Et; [|done]. intros [= <-]. apply is_empty_true in Et. by split_and!.
  - intros [= <-]. by split.
Qed.

Lemma append_text_fits s limits t : usize_limits limits -> 0 <= text_bytes s ->
  text_bytes s + len t <= max_text_bytes limits ->
  append_text s limits t =
  match stack s with
  | node :: rest => Ok (add_text s (push_text t node :: rest) (len t))
  | [] => if negb (is_empty (str_trim t)) then
            Err (match root s with Some _ => MultipleRoots | None => Malformed (bs "text outside root element") end)
          else Ok (add_text s [] (len t))
  end.
Proof.
  intros [_ Hu] H0 Hl. pose proof (len_nonneg t). unfold append_text, checked_add_u64. rewrite checked_in by lia.
  cbn [ok_or]. rewrite (proj2 (Z.ltb_ge _ _)) by lia. by destruct (stack s).
Qed.

(** *** Every spelled document is accepted *)

Definition bump (s : TreeState) (st : list Node) (evs : events) : TreeState :=
  {| stack := st; root := root s; nodes := nodes s + total_starts evs; text_bytes := text_bytes s + total_text evs;
     saw_declaration := saw_declaration s |}.

Definition depths (cs : list Node) : Z := foldr (fun c m => Z.max (depth c) m) 0 cs.

Lemma depths_nonneg cs : 0 <= depths cs.
Proof. induction cs as [|c cs IH]; simpl; [done|]. fold (depths cs). lia. Qed.

(** Room for some events at some depth. *)
Definition room (limits : XmlLimits) (s : TreeState) (d : Z) (evs : events) : Prop :=
  0 <= nodes s /\ 0 <= text_bytes s /\ len (stack s) + d <= max_depth limits /\
  nodes s + total_starts evs <= max_nodes limits /\ text_bytes s + total_text evs <= max_text_bytes limits.

Lemma bump_nil s : bump s (stack s) [] = s.
Proof. destruct s. unfold bump. simpl. by rewrite !Z.add_0_r. Qed.

Lemma bump_bump s st a st' b : bump (bump s st a) st' b = bump s st' (a ++ b).
Proof. unfold bump. simpl. rewrite total_starts_app, total_text_app. f_equal; lia. Qed.

Lemma traverse_attributes (attributes : list (result bytes unit)) :
  Forall (fun a => is_ok a = true) attributes -> is_ok (traverse (@malformed unit) attributes) = true.
Proof.
  induction 1 as [|[a|] l Ha _ IH]; simpl in *; try done. by destruct (traverse _ l).
Qed.

Lemma fold_event limits s e evs s' : tree_event limits s e = Ok s' ->
  fold_result (tree_event limits) s (e :: evs) = fold_result (tree_event limits) s' evs.
Proof. intros Hs. simpl. by rewrite Hs. Qed.

Lemma start_element_room limits s attributes name d evs :
  usize_limits limits -> Forall (fun a => is_ok a = true) attributes -> utf8_valid name = true ->
  room limits s (1 + d) (Ok (EStart attributes name) :: evs) -> 0 <= d ->
  tree_event limits s (Ok (EStart attributes name)) = Ok (bump s (MkNode name [] [] :: stack s) [Ok (EStart attributes name)]).
Proof.
  intros [[_ Hu] _] Ha Hn (R1 & R2 & R3 & R4 & R5) Hd. simpl in R4, R5.
  pose proof (total_starts_nonneg evs). unfold tree_event. cbn [malformed map_err]. unfold start_element.
  rewrite (proj2 (Z.leb_gt _ _)) by lia. unfold checked_add_u64. rewrite checked_in by lia. cbn [ok_or].
  rewrite (proj2 (Z.ltb_ge _ _)) by lia. pose proof (traverse_attributes attributes Ha) as Ht.
  destruct (traverse _ attributes); [|done]. rewrite (proj2 (from_utf8_Some name name)) by done. cbn [ok_or].
  unfold bump. simpl. f_equal. f_equal; lia.
Qed.

Lemma spelled_fold limits : usize_limits limits ->
  (forall evs text cs, content evs text cs -> forall s nm tx ch st, stack s = MkNode nm tx ch :: st ->
     room limits s (depths cs) evs ->
     fold_result (tree_event limits) s evs = Ok (bump s (MkNode nm (tx ++ text) (ch ++ cs) :: st) evs)) /\
  (forall evs n, element evs n -> forall s, room limits s (depth n) evs ->
     fold_result (tree_event limits) s evs = end_element (bump s (n :: stack s) evs)).
Proof.
  intros Hu. apply content_element_ind.
  - intros s nm tx ch st Hs _. simpl. rewrite !app_nil_r, <- Hs. by rewrite bump_nil.
  - intros e t evs text cs He _ IH s nm tx ch st Hs (R1 & R2 & R3 & R4 & R5). simpl in R4, R5. rewrite He in R5.
    pose proof (total_text_nonneg evs). pose proof (len_nonneg t).
    erewrite fold_event by (rewrite (tree_event_text _ _ _ t He), append_text_fits by (done || lia); by rewrite Hs).
    assert (Hst : total_starts (Ok e :: evs) = total_starts evs) by (by destruct e).
    assert (Htt : total_text (Ok e :: evs) = len t + total_text evs) by (simpl; by rewrite He).
    change (match e with EStart _ _ => 1 | _ => 0 end + total_starts evs) with (total_starts (Ok e :: evs)) in R4.
    rewrite Hst in R4.
    rewrite (IH _ nm (tx ++ t) ch st); [|done|].
    + f_equal. unfold bump, add_text. cbn [stack root nodes text_bytes saw_declaration].
      rewrite Hst, Htt, <- app_assoc. f_equal; lia.
    + rewrite Hs in R3. unfold room, add_text. cbn [stack nodes text_bytes]. rewrite len_cons in *. split_and!; lia.
  - intros evs text cs _ IH s nm tx ch st Hs R. simpl.
    rewrite (IH s nm tx ch st); [done|done|exact R].
  - intros mid evs n text cs _ IHm _ IH s nm tx ch st Hs (R1 & R2 & R3 & R4 & R5).
    rewrite total_starts_app in R4. rewrite total_text_app in R5.
    change (depths (n :: cs)) with (Z.max (depth n) (depths cs)) in R3.
    pose proof (total_text_nonneg evs). pose proof (total_starts_nonneg evs).
    pose proof (total_text_nonneg mid). pose proof (total_starts_nonneg mid).
    rewrite fold_result_app, IHm by (split_and!; try done; lia).
    unfold end_element, bump at 1. cbn [stack]. rewrite Hs. cbn [push_child].
    rewrite (IH _ nm tx (ch ++ [n]) st); [|done|].
    + f_equal. unfold bump. simpl. rewrite total_starts_app, total_text_app, <- app_assoc. f_equal; lia.
    + rewrite Hs in R3. unfold room, bump. cbn [stack nodes text_bytes]. rewrite len_cons in *. split_and!; lia.
  - intros attributes name close_name evs text cs Ha Hn _ IH s R.
    pose proof (depths_nonneg cs) as Hd. pose proof R as (R1 & R2 & R3 & R4 & R5).
    change (depth (MkNode name text cs)) with (1 + depths cs) in R, R3.
    erewrite fold_event by (by eapply start_element_room).
    rewrite fold_result_app. simpl in R4, R5. rewrite total_starts_app in R4. rewrite total_text_app in R5. simpl in R4, R5.
    rewrite (IH _ name [] [] (stack s)); [|done|].
    + rewrite bump_bump. cbn [fold_result]. rewrite !app_nil_l.
      replace (bump s (MkNode name text cs :: stack s) ([Ok (EStart attributes name)] ++ evs))
        with (bump s (MkNode name text cs :: stack s) (Ok (EStart attributes name) :: evs ++ [Ok (EEnd close_name)])).
      * change (tree_event limits ?x (Ok (EEnd close_name))) with (end_element x). by destruct (end_element _).
      * unfold bump. simpl. rewrite total_starts_app, total_text_app. simpl. f_equal; lia.
    + unfold room, bump. cbn [stack nodes text_bytes]. simpl. rewrite len_cons. split_and!; lia.
Qed.

Lemma misc_app a x b y c : misc a x b -> misc b y c -> misc a (x ++ y) c.
Proof. intros Hx Hy. induction Hx; simpl; eauto using misc. Qed.

Lemma misc_starts a x b : misc a x b -> total_starts x = 0.
Proof.
  induction 1 as [|d evs d' _ IH|d e t evs d' He _ _ IH|evs d' _ IH]; simpl; try done.
  rewrite IH. by destruct e.
Qed.

Definition declared (s : TreeState) (evs : events) (d : bool) : TreeState :=
  {| stack := stack s; root := root s; nodes := nodes s; text_bytes := text_bytes s + total_text evs;
     saw_declaration := negb d |}.

Lemma misc_fold limits a x b : misc a x b -> usize_limits limits -> forall s, stack s = [] ->
  saw_declaration s = negb a \/ (a = false /\ b = false) -> (a = true -> root s = None) -> 0 <= text_bytes s ->
  text_bytes s + total_text x <= max_text_bytes limits ->
  exists s', fold_result (tree_event limits) s x = Ok s' /\ stack s' = [] /\ root s' = root s /\
    nodes s' = nodes s /\ text_bytes s' = text_bytes s + total_text x.
Proof.
  intros Hm Hu. induction Hm as [d|d evs d' Hm IH|d e t evs d' He Ht Hm IH|evs d' Hm IH]; intros s Hs Hd Hr H0 Hl;
    simpl in Hl.
  - exists s. simpl. split_and!; try done. lia.
  - destruct (IH s) as (s' & Hf & ?); [done|naive_solver|done|done|lia|]. exists s'. simpl. split; [exact Hf|]. naive_solver lia.
  - rewrite He in Hl. pose proof (total_text_nonneg evs). pose proof (len_nonneg t).
    destruct (IH (add_text s [] (len t))) as (s' & Hf & Q1 & Q2 & Q3 & Q4); [done|naive_solver|done|simpl; lia|simpl; lia|].
    exists s'. erewrite fold_event; [|rewrite (tree_event_text _ _ _ t He), append_text_fits by (done || lia);
      rewrite Hs, Ht; reflexivity]. simpl in *. rewrite He. split_and!; try done. lia.
  - destruct Hd as [Hd|[? ?]]; [|done]. simpl in Hd.
    destruct (IH {| stack := []; root := root s; nodes := nodes s; text_bytes := text_bytes s; saw_declaration := true |})
      as (s' & Hf & Q1 & Q2 & Q3 & Q4); [done|by left|done|done|simpl; lia|].
    exists s'. erewrite fold_event; [|unfold tree_event; cbn [malformed map_err]; rewrite Hd, Hs, (Hr eq_refl); reflexivity].
    rewrite (Hr eq_refl) in Hf, Q2. simpl in *. split_and!; try done; first [by rewrite Q2, Hr|lia].
Qed.

Lemma spells_parse input limits t : usize_limits limits -> len input <= max_document_bytes limits ->
  spells limits (read_events input) t -> parse_tree input limits = Ok t.
Proof.
  intros Hu Hlen (before & mid & after & d & E & Hb & Hm & Ha & Hdep & Hst & Htx). unfold parse_tree.
  rewrite (proj2 (Z.ltb_ge _ _)) by done. rewrite E in *.
  rewrite !total_starts_app in Hst. rewrite !total_text_app in Htx.
  pose proof (total_text_nonneg before). pose proof (total_text_nonneg mid). pose proof (total_text_nonneg after).
  pose proof (total_starts_nonneg mid). pose proof (misc_starts _ _ _ Hb). pose proof (misc_starts _ _ _ Ha).
  destruct (misc_fold limits _ _ _ Hb Hu initial_state) as (s1 & F1 & S1 & R1 & N1 & T1);
    [done|by left|done|done|simpl; lia|]. simpl in N1, T1, R1.
  rewrite fold_result_app, F1. cbv iota. rewrite fold_result_app, (proj2 (spelled_fold limits Hu) mid t Hm)
    by (unfold room; rewrite S1; unfold len in *; simpl in *; split_and!; lia).
  unfold end_element, bump. cbn [stack root]. rewrite S1, R1. cbn [nodes text_bytes saw_declaration].
  edestruct (misc_fold limits _ _ _ Ha Hu) as (s2 & F2 & S2 & R2 & _); [| | | |..|rewrite F2];
    cbn [stack root text_bytes] in *; [done|by right|done|lia|lia|].
  rewrite S2, R2. done.
Qed.

(** *** Every accepted document is spelled *)

Inductive partial : events -> list Node -> bool -> Prop :=
| partial_root before d : misc true before d -> partial before [] d
| partial_node evs st d attributes name inner text cs :
    partial evs st d -> Forall (fun a => is_ok a = true) attributes -> utf8_valid name = true ->
    content inner text cs -> partial (evs ++ Ok (EStart attributes name) :: inner) (MkNode name text cs :: st) d.

Fixpoint fits (limits : XmlLimits) (st : list Node) : Prop :=
  match st with [] => True | n :: st' => len st' + depth n <= max_depth limits /\ fits limits st' end.

(** The state after some events. *)
Definition sound (limits : XmlLimits) (evs : events) (s : TreeState) : Prop :=
  nodes s = total_starts evs /\ text_bytes s = total_text evs /\
  total_starts evs <= max_nodes limits /\ total_text evs <= max_text_bytes limits /\
  match root s with
  | None => partial evs (stack s) (negb (saw_declaration s)) /\ fits limits (stack s)
  | Some t => stack s = [] -> spells limits evs t
  end.

Definition textual (e : Event) : bool :=
  match e with EText _ | ECData _ | EGeneralRef _ _ => true | _ => false end.

Lemma textual_Ok limits s e s' : textual e = true -> tree_event limits s (Ok e) = Ok s' ->
  exists t, text_of e = Some t /\ append_text s limits t = Ok s'.
Proof.
  unfold tree_event, malformed. cbn [map_err].
  destruct e as [| |[c|]|[c|]| | |[c|] [[x|]|]| |]; simpl; try done; intros _.
  - destruct (unescape c); simpl; [eauto|done].
  - eauto.
  - eauto.
  - destruct (resolve_xml_entity c); simpl; [eauto|done].
Qed.

Lemma partial_content evs nm tx ch st d inner t cs :
  partial evs (MkNode nm tx ch :: st) d -> content inner t cs ->
  partial (evs ++ inner) (MkNode nm (tx ++ t) (ch ++ cs) :: st) d.
Proof.
  intros Hp Hc. inversion Hp as [|evs0 st0 d0 attributes name inner0 text cs0 Hp0 Ha Hn Hc0]; subst.
  rewrite <- app_assoc. cbn [app]. constructor; [done..|]. by apply content_app.
Qed.

(** The innermost open element, once closed. *)
Lemma partial_close close_name evs n st d : partial evs (n :: st) d ->
  exists evs0 mid, evs ++ [Ok (EEnd close_name)] = evs0 ++ mid /\ partial evs0 st d /\ element mid n.
Proof.
  intros Hp. inversion Hp as [|evs0 st0 d0 attributes name inner0 text cs0 Hp0 Ha Hn Hc0]; subst.
  exists evs0, (Ok (EStart attributes name) :: inner0 ++ [Ok (EEnd close_name)]).
  split; [by rewrite <- app_assoc|]. split; [done|by constructor].
Qed.

Lemma depth_push_child n p : depth (push_child n p) = Z.max (depth p) (1 + depth n).
Proof.
  destruct p as [nm tx ch]. cbn [push_child depth]. fold (depths ch). fold (depths (ch ++ [n])).
  assert (Hd : depths (ch ++ [n]) = Z.max (depths ch) (depth n)); [|lia].
  unfold depths. rewrite foldr_app. simpl. generalize (depth n). intros z.
  assert (Hz : forall a, 0 <= a -> foldr (fun c m => Z.max (depth c) m) a ch = Z.max (foldr (fun c m => Z.max (depth c) m) 0 ch) a).
  { intros a Ha. induction ch as [|c ch IH]; simpl; [lia|]. rewrite IH. lia. }
  destruct (Z.le_gt_cases 0 z).
  - rewrite Z.max_l by lia. by apply Hz.
  - rewrite Z.max_r, Hz by lia. fold (depths ch). pose proof (depths_nonneg ch). lia.
Qed.

Lemma depth_push_text t n : depth (push_text t n) = depth n.
Proof. by destruct n. Qed.

Lemma single_starts e : (match e with Ok (EStart _ _) => False | _ => True end) -> total_starts [e] = 0.
Proof. by destruct e as [[]|]. Qed.

Lemma single_text e t : text_of e = Some t -> total_text [Ok e] = len t.
Proof. intros E. simpl. rewrite E. lia. Qed.

Lemma sound_text limits evs s e t s' : sound limits evs s -> textual e = true -> text_of e = Some t ->
  append_text s limits t = Ok s' -> sound limits (evs ++ [Ok e]) s'.
Proof.
  intros (S1 & S2 & S3 & S4 & S5) Htx Ht [Hl Hs']%append_text_Ok.
  assert (Hst : total_starts [Ok e] = 0) by (by destruct e).
  unfold sound. rewrite total_starts_app, total_text_app, Hst, (single_text e t Ht), Z.add_0_r.
  destruct (stack s) as [|[nm tx ch] rest] eqn:Es.
  - destruct Hs' as [-> Hb]. cbn [add_text nodes text_bytes root stack saw_declaration].
    split_and!; try done; try lia. destruct (root s) as [r|].
    + intros _. destruct (S5 eq_refl) as (before & mid & after & d & -> & ? & ? & ? & ? & ? & ?).
      exists before, mid, (after ++ [Ok e]), d. rewrite <- !app_assoc. split_and!; try done.
      * eapply misc_app; [done|]. eapply misc_blank; [done..|constructor].
      * rewrite !total_starts_app in *. lia.
      * rewrite !total_text_app in *. rewrite (single_text e t Ht). lia.
    + destruct S5 as [Hp _]. split; [|done]. inversion Hp; subst. constructor. eapply misc_app; [done|].
      eapply misc_blank; [done..|constructor].
  - subst s'. cbn [add_text nodes text_bytes root stack saw_declaration]. split_and!; try done; try lia.
    destruct (root s); [done|]. destruct S5 as [Hp [Hf1 Hf2]]. split; [|by split].
    assert (Hc : content [Ok e] t []) by (rewrite <- (app_nil_r t); econstructor; [done|constructor]).
    pose proof (partial_content _ _ _ _ _ _ _ _ _ Hp Hc) as Hq. by rewrite app_nil_r in Hq.
Qed.

Lemma sound_start limits evs s attributes name s' : usize_limits limits -> sound limits evs s ->
  start_element limits s attributes name = Ok s' -> sound limits (evs ++ [Ok (EStart attributes name)]) s'.
Proof.
  intros [[Hu _] _] (S1 & S2 & S3 & S4 & S5). unfold start_element.
  destruct (Z.leb_spec (max_depth limits) (len (stack s))); [done|].
  destruct (checked_add_u64 (nodes s) 1) as [k|] eqn:Ek; [|done]. cbn [ok_or]. apply checked_Some in Ek as [-> _].
  destruct (Z.ltb_spec (max_nodes limits) (nodes s + 1)); [done|].
  destruct (traverse malformed attributes) as [us|] eqn:Et; [|done].
  destruct (from_utf8 name) as [n|] eqn:En; [|done]. apply from_utf8_Some in En as [Hn ->]. cbn [ok_or].
  intros [= <-]. unfold sound. cbn [nodes text_bytes root stack saw_declaration].
  rewrite total_starts_app, total_text_app. simpl (total_starts [_]). simpl (total_text [_]). split_and!; try lia.
  destruct (root s); [done|]. destruct S5 as [Hp Hf]. split; [|split; [simpl; lia|done]].
  constructor; [done| |done|constructor]. clear -Et. apply traverse_Ok in Et.
  induction Et as [|a u l us' Ha _ IH]; constructor; [|done]. by destruct a.
Qed.

Lemma sound_end limits close_name evs s s' : sound limits evs s -> end_element s = Ok s' ->
  sound limits (evs ++ [Ok (EEnd close_name)]) s'.
Proof.
  intros (S1 & S2 & S3 & S4 & S5). unfold end_element, sound. rewrite total_starts_app, total_text_app.
  simpl (total_starts [_]). simpl (total_text [_]). rewrite !Z.add_0_r.
  destruct (stack s) as [|n [|p rest]] eqn:Es; [done| |].
  - destruct (root s) as [r|] eqn:Er; [done|]. intros [= <-]. cbn [nodes text_bytes root stack].
    split_and!; try done. intros _. destruct S5 as [Hp [Hf _]].
    destruct (partial_close close_name _ _ _ _ Hp) as (evs0 & mid & E & Hp0 & Hm). inversion Hp0; subst.
    exists evs0, mid, [], (negb (saw_declaration s)). rewrite app_nil_r, E. split_and!; try done; [constructor|..].
    + rewrite <- E, total_starts_app. simpl. lia.
    + rewrite <- E, total_text_app. simpl. lia.
  - intros [= <-]. cbn [nodes text_bytes root stack saw_declaration]. split_and!; try done.
    destruct (root s); [done|]. destruct S5 as [Hp (Hf1 & Hf2 & Hf3)].
    destruct (partial_close close_name _ _ _ _ Hp) as (evs0 & mid & -> & Hp0 & Hm). destruct p as [nm tx ch]. split.
    + cbn [push_child]. rewrite <- (app_nil_r tx). eapply partial_content; [done|].
      rewrite <- (app_nil_r mid). constructor; [done|constructor].
    + split; [|done]. rewrite depth_push_child. rewrite len_cons in Hf1. lia.
Qed.

Lemma sound_misc limits evs s e s' : sound limits evs s -> tree_event limits s (Ok e) = Ok s' ->
  e = EComment \/ e = EDecl -> sound limits (evs ++ [Ok e]) s'.
Proof.
  intros (S1 & S2 & S3 & S4 & S5) Hs' He. unfold sound.
  assert (Ht : total_starts [Ok e] = 0 /\ total_text [Ok e] = 0) by (by destruct He as [-> | ->]).
  rewrite total_starts_app, total_text_app, !(proj1 Ht), !(proj2 Ht), !Z.add_0_r.
  destruct He as [-> | ->]; unfold tree_event in Hs'; cbn [malformed map_err] in Hs'.
  - injection Hs' as <-. split_and!; try done. destruct (root s) as [r|].
    + intros Hs. destruct (S5 Hs) as (before & mid & after & d & -> & ? & ? & ? & ? & ? & ?).
      exists before, mid, (after ++ [Ok EComment]), d. rewrite <- !app_assoc. split_and!; try done.
      * eapply misc_app; [done|]. repeat constructor.
      * rewrite !total_starts_app in *. simpl (total_starts [_]). lia.
      * rewrite !total_text_app in *. simpl (total_text [_]). lia.
    + destruct S5 as [Hp Hf]. split; [|done]. destruct (stack s) as [|[nm tx ch] rest].
      * inversion Hp; subst. constructor. eapply misc_app; [done|]. repeat constructor.
      * pose proof (partial_content _ _ _ _ _ _ [Ok EComment] [] [] Hp) as Hq.
        rewrite !app_nil_r in Hq. apply Hq. repeat constructor.
  - destruct (saw_declaration s) eqn:Ed; [done|]. destruct (root s); [done|].
    destruct (stack s); [|done]. injection Hs' as <-. cbn [nodes text_bytes root stack saw_declaration].
    split_and!; try done. destruct S5 as [Hp _]. inversion Hp; subst. constructor.
    eapply misc_app; [done|]. repeat constructor.
Qed.

Lemma sound_step limits evs s e s' : usize_limits limits -> sound limits evs s ->
  tree_event limits s e = Ok s' -> sound limits (evs ++ [e]) s'.
Proof.
  intros Hu Hs He. destruct e as [e|]; [|done].
  destruct (textual e) eqn:Ht.
  - destruct (textual_Ok _ _ _ _ Ht He) as (t & E & Ha). by eapply sound_text.
  - destruct e; try done.
    + by eapply sound_start.
    + by eapply sound_end.
    + eapply sound_misc; eauto.
    + eapply sound_misc; eauto.
Qed.

Lemma sound_fold limits more : usize_limits limits -> forall evs s s', sound limits evs s ->
  fold_result (tree_event limits) s more = Ok s' -> sound limits (evs ++ more) s'.
Proof.
  intros Hu. induction more as [|e more IH]; intros evs s s' Hs Hf; simpl in Hf.
  - injection Hf as <-. by rewrite app_nil_r.
  - destruct (tree_event limits s e) as [s1|] eqn:E; [|done].
    rewrite cons_middle, app_assoc. eapply IH; [by eapply sound_step|done].
Qed.

(** C40: [parse_tree] accepts exactly the documents within the size limit whose
    events spell one element, within the depth, element and text limits,
    between comments, blank text and one optional declaration, and it returns
    that element's tree. *)
Theorem parse_tree_accepts (input : bytes) (limits : XmlLimits) (t : Node) : usize_limits limits ->
  parse_tree input limits = Ok t <->
  len input <= max_document_bytes limits /\ spells limits (read_events input) t.
Proof.
  intros Hu. split; [|intros [Hl Hs]; by apply spells_parse].
  unfold parse_tree. destruct (Z.ltb_spec (max_document_bytes limits) (len input)); [done|].
  destruct (fold_result _ _ _) as [s|] eqn:Hf; [|done].
  eapply (sound_fold _ _ Hu []) in Hf.
  - destruct Hf as (_ & _ & _ & _ & Hr). destruct (stack s); [|done]. simpl.
    destruct (root s) as [r|]; [|done]. intros [= <-]. split; [done|]. by apply Hr.
  - destruct Hu as [[? _] [? _]]. unfold sound. simpl. split_and!; try done. repeat constructor.
Qed.
End Grammar.

(** * Specification: the requests that are accepted *)

(** The element of that name, when the node has one: a single one, without
    children. *)
Definition field (node : Node) (name : bytes) (value : option bytes) : Prop :=
  List.filter (named name) (node_children node) =
  match value with Some text => [MkNode name text []] | None => [] end.

Definition only_children (node : Node) (allowed : list bytes) : Prop :=
  Forall (fun child => node_name child ∈ allowed) (node_children node).

Definition trimmed_field (node : Node) (name : bytes) (value : option bytes) : Prop :=
  exists text, field node name text /\ value = option_map str_trim text.

(** A Part element and the part it describes. *)
Record part_node (node : Node) (p : CompletedPart) : Prop := {
  part_is_part : node_name node = bs "Part";
  part_known : only_children node part_fields;
  part_has_number : exists text, field node (bs "PartNumber") (Some text) /\
    parse_u16 (str_trim text) = Some (part_number p);
  part_has_etag : trimmed_field node (bs "ETag") (Some (etag p));
  part_etag_text : etag p <> [];
  part_crc32 : trimmed_field node (bs "ChecksumCRC32") (crc32 (checksums p));
  part_crc32c : trimmed_field node (bs "ChecksumCRC32C") (crc32c (checksums p));
  part_sha1 : trimmed_field node (bs "ChecksumSHA1") (sha1 (checksums p));
  part_has_sha256 : trimmed_field node (bs "ChecksumSHA256") (part_sha256 (checksums p))
}.

Record object_node (node : Node) (o : DeleteObjectIdentifier) : Prop := {
  object_known : only_children node [bs "Key"; bs "VersionId"];
  object_has_key : field node (bs "Key") (Some (object_key o));
  object_key_text : object_key o <> [];
  object_version : field node (bs "VersionId") (version_id o)
}.

Definition quiet_nodes (l : list Node) (q : bool) : Prop :=
  match l with
  | [] => q = false
  | [n] => eq_ignore_ascii_case (str_trim (node_text n)) (if q then bs "true" else bs "false") = true
  | _ => False
  end.

(** ** Lemmas *)

Lemma filter_named (name : bytes) l n : n ∈ List.filter (named name) l -> node_name n = name.
Proof. rewrite list_elem_of_In, filter_In. intros [_ E]. by apply bool_decide_eq_true in E. Qed.

Lemma filter_field (node : Node) (name text : bytes) v :
  List.filter (named name) (node_children node) = [v] ->
  field node name (Some text) <-> node_text v = text /\ node_children v = [].
Proof.
  intros E. assert (Hn : node_name v = name) by (apply (filter_named _ (node_children node)); rewrite E; constructor).
  unfold field. rewrite E. destruct v as [nm tx ch]. simpl in *. subst nm. split; [by intros [= -> ->]|by intros [-> ->]].
Qed.

Lemma optional_text_untrimmed_Ok node name v : optional_text_untrimmed node name = Ok v <-> field node name v.
Proof.
  unfold optional_text_untrimmed. destruct (List.filter _ _) as [|x [|y l]] eqn:E.
  - unfold field. rewrite E. by destruct v; split.
  - destruct v as [t|].
    + rewrite (filter_field _ _ t _ E). destruct x as [nm tx [|c ch]]; simpl; split; naive_solver.
    + unfold field. rewrite E. by destruct (negb _).
  - unfold field. rewrite E. by destruct v; split.
Qed.

Lemma optional_text_Ok node name v : optional_text node name = Ok v <-> trimmed_field node name v.
Proof.
  unfold optional_text, trimmed_field. destruct (optional_text_untrimmed node name) as [o|e] eqn:E.
  - apply optional_text_untrimmed_Ok in E. split; [intros [= <-]; by exists o|].
    intros (o' & Ho & ->). do 2 f_equal. unfold field in *. rewrite Ho in E. destruct o, o'; simplify_eq; done.
  - split; [done|]. intros (o' & Ho%optional_text_untrimmed_Ok & _). by rewrite Ho in E.
Qed.

Lemma required_once_Ok node name v : required_once node name = Ok v <->
  exists text, v = MkNode name text [] /\ field node name (Some text).
Proof.
  unfold required_once, field. destruct (List.filter _ _) as [|x [|y l]] eqn:E; [naive_solver| |naive_solver].
  assert (Hn : node_name x = name) by (apply (filter_named _ (node_children node)); rewrite E; constructor).
  destruct x as [nm tx [|c ch]]; simpl in *; subst; naive_solver.
Qed.

Lemma reject_unknown_children_Ok node allowed u : reject_unknown_children node allowed = Ok u <-> only_children node allowed.
Proof.
  unfold reject_unknown_children, only_children. destruct u. induction (node_children node) as [|c l IH]; simpl; [done|].
  rewrite Forall_cons. destruct (existsb _ allowed) eqn:E; simpl.
  - apply contains_true' in E. naive_solver.
  - split; [done|]. intros [Hc _]. apply (contains_true' (node_name c)) in Hc. congruence.
Qed.

Lemma complete_part_Ok limits parts previous child s : complete_part limits (parts, previous) child = Ok s <->
  exists p, s = (parts ++ [p], part_number p) /\ part_node child p /\ previous < part_number p /\
    1 <= part_number p <= 10000 /\ len parts < max_complete_parts limits.
Proof.
  unfold complete_part. destruct (bool_decide_reflect (node_name child = bs "Part")) as [Hp|Hp]; simpl;
    [|split; [done|by intros (p & _ & [] & _)]].
  destruct (Z.leb_spec (max_complete_parts limits) (len parts)); [split; [done|naive_solver lia]|].
  setoid_rewrite Ok_bind. setoid_rewrite required_once_Ok. setoid_rewrite Ok_bind. setoid_rewrite ok_or_Ok.
  split.
  - intros (number & (text & -> & Ht) & n & Hn & Hs). simpl in Hn.
    destruct (parse_u16 (str_trim text)) as [n'|] eqn:Eu; [|done].
    destruct (in_range 1 10000 n') eqn:Er; [|done]. injection Hn as ->. unfold in_range in Er. apply andb_true_iff in Er as [?%Z.leb_le ?%Z.leb_le].
    destruct (Z.leb_spec n previous); [done|]. apply Ok_bind in Hs as (et & (etext & -> & He)%required_once_Ok & Hs).
    cbn [node_text] in Hs. destruct (is_empty (str_trim etext)) eqn:Ee; [done|].
    apply Ok_bind in Hs as (c1 & K1%optional_text_Ok & Hs).
    apply Ok_bind in Hs as (c2 & K2%optional_text_Ok & Hs).
    apply Ok_bind in Hs as (c3 & K3%optional_text_Ok & Hs).
    apply Ok_bind in Hs as (c4 & K4%optional_text_Ok & Hs).
    apply Ok_bind in Hs as ([] & K5%reject_unknown_children_Ok & [= <-]).
    exists {| part_number := n; etag := str_trim etext;
              checksums := {| crc32 := c1; crc32c := c2; sha1 := c3; part_sha256 := c4 |} |}.
    cbn [part_number]. split_and!; try done. constructor; simpl; eauto.
    + by exists (Some etext).
    + by apply is_empty_false.
  - intros (p & -> & [] & Hprev & Hr & _).
    destruct part_has_number0 as (text & Ht & Hu). destruct part_has_etag0 as ([etext|] & He & [= E]).
    exists (MkNode (bs "PartNumber") text []). split; [by exists text|]. exists (part_number p). cbn [node_text].
    rewrite Hu. unfold in_range. rewrite !(proj2 (Z.leb_le _ _)) by lia. split; [done|].
    rewrite (proj2 (Z.leb_gt _ _)) by done. apply Ok_bind.
    eexists. split; [apply required_once_Ok; by exists etext|]. cbn [node_text]. rewrite <- E.
    rewrite (proj2 (is_empty_false _)) by done.
    apply Ok_bind. eexists. split; [by apply optional_text_Ok|].
    apply Ok_bind. eexists. split; [by apply optional_text_Ok|].
    apply Ok_bind. eexists. split; [by apply optional_text_Ok|].
    apply Ok_bind. eexists. split; [by apply optional_text_Ok|].
    apply Ok_bind. exists tt. split; [by apply reject_unknown_children_Ok|]. by destruct p as [? ? []].
Qed.

Lemma complete_parts_Ok limits cs : forall parts previous parts',
  len parts <= max_complete_parts limits ->
  (exists last, fold_result (complete_part limits) (parts, previous) cs = Ok (parts', last)) <->
  exists more, parts' = parts ++ more /\ Forall2 part_node cs more /\
    Sorted Z.lt (previous :: map part_number more) /\ Forall (fun p => 1 <= part_number p <= 10000) more /\
    len parts' <= max_complete_parts limits.
Proof.
  induction cs as [|c cs IH]; intros parts previous parts' Hm; cbn [fold_result].
  - split.
    + intros (last & [= <- <-]). exists []. rewrite app_nil_r. simpl. split_and!; try done; by repeat constructor.
    + intros (more & -> & Hf & _). inversion Hf; subst. rewrite app_nil_r. eauto.
  - split.
    + destruct (complete_part limits (parts, previous) c) as [s|e] eqn:E; cycle 1.
      { by intros [? ?]. }
      apply complete_part_Ok in E as (p & -> & Hp & Hlt & Hr & Hl).
      rewrite IH by (rewrite len_app, len_cons, len_nil; lia).
      intros (more & -> & Hf & Hs & Hb & Hc). exists (p :: more). rewrite <- app_assoc in *.
      split_and!; try done; constructor; try done. by constructor.
    + intros (more & -> & Hf & Hs & Hb & Hc). inversion Hf as [|? q ? more' Hq Hf']; subst.
      simpl in Hs. apply Sorted_inv in Hs as [Hs Hlt]. inversion Hlt; subst. apply Forall_cons in Hb as [Hb1 Hb].
      rewrite len_app, len_cons in Hc. pose proof (len_nonneg more').
      rewrite (proj2 (complete_part_Ok limits parts previous c (parts ++ [q], part_number q)))
        by (exists q; split_and!; try done; lia).
      rewrite (cons_middle q parts more'), app_assoc. apply IH; [rewrite len_app, len_cons, len_nil; lia|].
      exists more'. split_and!; try done. rewrite !len_app, len_cons, len_nil. lia.
Qed.

Lemma delete_object_Ok limits objects quiet saw child s : node_name child = bs "Object" ->
  delete_child limits (objects, quiet, saw) child = Ok s <->
  exists o, s = (objects ++ [o], quiet, saw) /\ object_node child o /\ len objects < max_delete_objects limits.
Proof.
  intros Hn. unfold delete_child. rewrite bool_decide_eq_true_2 by done.
  destruct (Z.leb_spec (max_delete_objects limits) (len objects)); [split; [done|naive_solver lia]|].
  split.
  - intros Hs. apply Ok_bind in Hs as ([] & K1%reject_unknown_children_Ok & Hs).
    apply Ok_bind in Hs as (k & (text & -> & Hk)%required_once_Ok & Hs). cbn [node_text] in Hs.
    destruct (is_empty text) eqn:Ee; [done|]. apply is_empty_false in Ee.
    apply Ok_bind in Hs as (v & Hv%optional_text_untrimmed_Ok & [= <-]).
    eexists; split; [reflexivity|]. by split.
  - intros (o & -> & [] & _). apply Ok_bind. exists tt. split; [by apply reject_unknown_children_Ok|].
    apply Ok_bind. eexists. split; [apply required_once_Ok; by exists (object_key o)|]. cbn [node_text].
    rewrite (proj2 (is_empty_false _)) by done. apply Ok_bind. eexists.
    split; [by apply optional_text_untrimmed_Ok|]. by destruct o.
Qed.

Lemma delete_quiet_Ok limits objects quiet saw child s : node_name child = bs "Quiet" ->
  delete_child limits (objects, quiet, saw) child = Ok s <->
  exists q, s = (objects, q, true) /\ saw = false /\ quiet_nodes [child] q.
Proof.
  intros Hn. unfold delete_child. rewrite Hn. rewrite bool_decide_eq_false_2, bool_decide_eq_true_2 by done.
  destruct saw; [naive_solver|]. cbn [quiet_nodes]. unfold eq_ignore_ascii_case.
  destruct (bool_decide_reflect (lowercase (str_trim (node_text child)) = lowercase (bs "true"))) as [E|E].
  - split; [intros [= <-]; exists true; split_and!; try done; by apply bool_decide_eq_true_2|].
    intros ([] & -> & _ & Hq); [done|]. apply bool_decide_eq_true in Hq. by rewrite Hq in E.
  - destruct (bool_decide_reflect (lowercase (str_trim (node_text child)) = lowercase (bs "false"))) as [E'|E'].
    + split; [intros [= <-]; exists false; split_and!; try done; by apply bool_decide_eq_true_2|].
      intros ([] & -> & _ & Hq); [|done]. by apply bool_decide_eq_true in Hq.
    + split; [done|]. intros ([] & -> & _ & Hq); by apply bool_decide_eq_true in Hq.
Qed.

Lemma delete_children_Ok limits cs : forall objects quiet saw objects' quiet',
  len objects <= max_delete_objects limits ->
  (exists saw', fold_result (delete_child limits) (objects, quiet, saw) cs = Ok (objects', quiet', saw')) <->
  Forall (fun c => node_name c ∈ [bs "Object"; bs "Quiet"]) cs /\
  (exists more, objects' = objects ++ more /\ Forall2 object_node (List.filter (named (bs "Object")) cs) more) /\
  len objects' <= max_delete_objects limits /\
  match List.filter (named (bs "Quiet")) cs with
  | [] => quiet' = quiet
  | l => saw = false /\ quiet_nodes l quiet'
  end.
Proof.
  induction cs as [|c cs IH]; intros objects quiet saw objects' quiet' Hm.
  - simpl. split.
    + intros (saw' & [= <- <- <-]). split_and!; try done. exists []. by rewrite app_nil_r.
    + intros (_ & (more & -> & Hf) & _ & ->). inversion Hf. rewrite app_nil_r. eauto.
  - rewrite Forall_cons. cbn [fold_result List.filter].
    change (named (bs "Object") c) with (node_name c ==b bs "Object").
    change (named (bs "Quiet") c) with (node_name c ==b bs "Quiet").
    destruct (bool_decide_reflect (node_name c = bs "Object")) as [Eo|Eo].
    + rewrite Eo. rewrite (bool_decide_eq_false_2 (bs "Object" = bs "Quiet")) by done. split.
      * destruct (delete_child limits (objects, quiet, saw) c) as [s|e] eqn:E; cycle 1.
      { by intros [? ?]. }
        apply (delete_object_Ok limits objects quiet saw c s Eo) in E as (o & -> & Ho & Hl).
        rewrite IH by (rewrite len_app, len_cons, len_nil; lia). intros (Hn & (more & -> & Hf) & Hc & Hq).
        split_and!; try done; [by constructor|]. exists (o :: more). rewrite <- app_assoc. split; [done|by constructor].
      * intros ([_ Hn] & (more & -> & Hf) & Hc & Hq). inversion Hf as [|? o ? more' Ho Hf']; subst.
        rewrite len_app, len_cons in Hc. pose proof (len_nonneg more').
        rewrite (proj2 (delete_object_Ok limits objects quiet saw c (objects ++ [o], quiet, saw) Eo))
          by (exists o; split_and!; try done; lia).
        rewrite (cons_middle o objects more'), app_assoc. apply IH; [rewrite len_app, len_cons, len_nil; lia|].
        split_and!; try done; [eauto|]. rewrite !len_app, len_cons, len_nil. lia.
    + destruct (bool_decide_reflect (node_name c = bs "Quiet")) as [Eq|Eq].
      * split.
        -- destruct (delete_child limits (objects, quiet, saw) c) as [s|e] eqn:E; cycle 1.
      { by intros [? ?]. }
           apply (delete_quiet_Ok limits objects quiet saw c s Eq) in E as (q & -> & -> & Hq).
           rewrite IH by done. intros (Hn & Hf & Hc & Hr). split_and!; try done; [rewrite Eq; by do 2 constructor|].
           destruct (List.filter (named (bs "Quiet")) cs); [by subst|by destruct Hr].
        -- intros ([_ Hn] & Hf & Hc & -> & Hq). destruct (List.filter (named (bs "Quiet")) cs) eqn:El; [|done].
           rewrite (proj2 (delete_quiet_Ok limits objects quiet false c (objects, quiet', true) Eq)) by eauto.
           apply IH; [done|]. by split_and!.
      * split; [|intros [[Hc%list_elem_of_In _] _]; by destruct Hc as [Hc|[Hc|[]]]; simpl in Hc].
        unfold delete_child. rewrite !bool_decide_eq_false_2 by done. by intros [? ?].
Qed.

Section Requests.
Context `{XmlReader}.

(** [parse_complete_multipart] accepts exactly the CompleteMultipartUpload
    documents of between one and [max_complete_parts] Part elements and nothing
    else, where every part has one number, one entity tag that is not blank and
    at most one of each checksum, all parts and the order of the elements are
    kept, and the part numbers rise strictly from at least 1 to at most
    10000. *)
Theorem complete_multipart_accepts (input : bytes) (limits : XmlLimits) (r : CompleteMultipartUpload) :
  0 <= max_complete_parts limits ->
  parse_complete_multipart input limits = Ok r <->
  exists root, parse_tree input limits = Ok root /\ node_name root = bs "CompleteMultipartUpload" /\
    Forall2 part_node (node_children root) (parts r) /\
    StronglySorted Z.lt (map part_number (parts r)) /\
    Forall (fun p => 1 <= part_number p <= 10000) (parts r) /\
    1 <= len (parts r) <= max_complete_parts limits.
Proof.
  intros Hm. unfold parse_complete_multipart. rewrite Ok_bind. split.
  - intros (root & Hr & Hs). exists root. split; [done|]. unfold expect_root in Hs.
    destruct (bool_decide_reflect (node_name root = bs "CompleteMultipartUpload")) as [Hn|]; [|done]. split; [done|].
    destruct (fold_result _ _ _) as [[ps last]|] eqn:Hf; [|done].
    destruct (proj1 (complete_parts_Ok limits _ [] 0 ps Hm) (ex_intro _ last Hf)) as (more & -> & Hp & Hst & Hb & Hl).
    simpl in *. destruct more as [|p more]; [done|]. injection Hs as <-. cbn [parts].
    split_and!; try done; [|rewrite len_cons; pose proof (len_nonneg more); lia].
    apply Sorted_StronglySorted in Hst; [by inversion Hst|]. intros ???. apply Z.lt_trans.
  - intros (root & Hr & Hn & Hp & Hst & Hb & Hl). exists root. split; [done|]. unfold expect_root.
    rewrite bool_decide_eq_true_2 by done.
    destruct (proj2 (complete_parts_Ok limits (node_children root) [] 0 (parts r) Hm)) as (last & ->).
    + exists (parts r). split_and!; try done; [|lia]. apply StronglySorted_Sorted. constructor; [done|].
      apply Forall_map. eapply Forall_impl; [done|]. simpl. intros. lia.
    + destruct r as [ps]. simpl in *. destruct ps; [rewrite len_nil in Hl; lia|done].
Qed.

(** [parse_delete_objects] accepts exactly the Delete documents of between
    one and [max_delete_objects] Object elements and at most one Quiet flag, in
    any order: every object gives its key, as written and not empty, and its
    version when it has one; the objects stay in order; the flag reads true or
    false in any case and is false when left out. *)
Theorem delete_objects_accepts (input : bytes) (limits : XmlLimits) (r : DeleteObjectsRequest) :
  0 <= max_delete_objects limits ->
  parse_delete_objects input limits = Ok r <->
  exists root, parse_tree input limits = Ok root /\ node_name root = bs "Delete" /\
    Forall (fun c => node_name c ∈ [bs "Object"; bs "Quiet"]) (node_children root) /\
    Forall2 object_node (List.filter (named (bs "Object")) (node_children root)) (objects r) /\
    quiet_nodes (List.filter (named (bs "Quiet")) (node_children root)) (quiet r) /\
    1 <= len (objects r) <= max_delete_objects limits.
Proof.
  intros Hm. unfold parse_delete_objects. rewrite Ok_bind. split.
  - intros (root & Hr & Hs). exists root. split; [done|]. unfold expect_root in Hs.
    destruct (bool_decide_reflect (node_name root = bs "Delete")) as [Hn|]; [|done]. split; [done|].
    destruct (fold_result _ _ _) as [[[os q] saw]|] eqn:Hf; [|done].
    destruct (proj1 (delete_children_Ok limits _ [] false false os q Hm) (ex_intro _ saw Hf))
      as (Hc & (more & -> & Ho) & Hl & Hq).
    simpl in *. destruct more as [|o more]; [done|]. injection Hs as <-. cbn [objects quiet].
    split_and!; try done; [|rewrite len_cons; pose proof (len_nonneg more); lia].
    destruct (List.filter (named (bs "Quiet")) (node_children root)); [done|by destruct Hq].
  - intros (root & Hr & Hn & Hc & Ho & Hq & Hl). exists root. split; [done|]. unfold expect_root.
    rewrite bool_decide_eq_true_2 by done.
    destruct (proj2 (delete_children_Ok limits (node_children root) [] false false (objects r) (quiet r) Hm)) as (saw & ->).
    + split_and!; try done; [by exists (objects r)|lia|].
      destruct (List.filter (named (bs "Quiet")) (node_children root)); [done|by split].
    + destruct r as [os q]. simpl in *. destruct os; [rewrite len_nil in Hl; lia|done].
Qed.
End Requests.

(** * Examples *)

(** A reader that has one document. *)
Definition one_document (evs : list (result bytes Event)) : XmlReader :=
  {| read_events := fun _ => evs; unescape := Ok; resolve_xml_entity := fun _ => None |}.

Definition leaf (name text : bytes) : list (result bytes Event) :=
  [Ok (EStart [] name); Ok (EText (Ok text)); Ok (EEnd name)].

Definition sample_complete : list (result bytes Event) :=
  [Ok EDecl; Ok (EStart [Ok tt] (bs "CompleteMultipartUpload"))] ++
  [Ok (EStart [] (bs "Part"))] ++ leaf (bs "PartNumber") (bs " 2 ") ++ leaf (bs "ETag") (bs "abc") ++
  leaf (bs "ChecksumSHA1") (bs "x") ++ [Ok (EEnd (bs "Part")); Ok EComment] ++
  [Ok (EStart [] (bs "Part"))] ++ leaf (bs "PartNumber") (bs "10000") ++ leaf (bs "ETag") (bs "d") ++
  [Ok (EEnd (bs "Part")); Ok (EEnd (bs "CompleteMultipartUpload"))].

Definition sample_parts : CompleteMultipartUpload :=
  let none := {| crc32 := None; crc32c := None; sha1 := None; part_sha256 := None |} in
  {| parts := [{| part_number := 2; etag := bs "abc";
                  checksums := {| crc32 := None; crc32c := None; sha1 := Some (bs "x"); part_sha256 := None |} |};
               {| part_number := 10000; etag := bs "d"; checksums := none |}] |}.

Definition sample_delete : list (result bytes Event) :=
  [Ok (EStart [] (bs "Delete"))] ++ [Ok (EStart [] (bs "Object"))] ++ leaf (bs "Key") (bs " a ") ++ [Ok (EEnd (bs "Object"))] ++
  leaf (bs "Quiet") (bs " TRUE ") ++
  [Ok (EStart [] (bs "Object"))] ++ leaf (bs "Key") (bs "b") ++ leaf (bs "VersionId") (bs "v") ++ [Ok (EEnd (bs "Object")); Ok (EEnd (bs "Delete"))].

Definition sample_objects : DeleteObjectsRequest :=
  {| objects := [{| object_key := bs " a "; version_id := None |}; {| object_key := bs "b"; version_id := Some (bs "v") |}];
     quiet := true |}.

Lemma parse_tree_accepts_witness :
  let reader := one_document (leaf (bs "Quiet") (bs "true")) in
  usize_limits default_xml_limits /\
  @spells reader default_xml_limits (@read_events reader []) (MkNode (bs "Quiet") (bs "true") []).
Proof.
  intros reader. assert (Hu : usize_limits default_xml_limits) by (vm_compute; repeat split; discriminate).
  split; [exact Hu|].
  apply (proj1 (@parse_tree_accepts reader [] default_xml_limits (MkNode (bs "Quiet") (bs "true") []) Hu)).
  vm_compute. reflexivity.
Defined.

Lemma complete_multipart_accepts_witness :
  0 <= max_complete_parts default_xml_limits /\
  exists root, @parse_tree (one_document sample_complete) [] default_xml_limits = Ok root /\
    node_name root = bs "CompleteMultipartUpload" /\
    Forall2 part_node (node_children root) (parts sample_parts) /\
    StronglySorted Z.lt (map part_number (parts sample_parts)) /\
    Forall (fun p => 1 <= part_number p <= 10000) (parts sample_parts) /\
    1 <= len (parts sample_parts) <= max_complete_parts default_xml_limits.
Proof.
  assert (Hm : 0 <= max_complete_parts default_xml_limits) by (vm_compute; discriminate). split; [exact Hm|].
  apply (proj1 (@complete_multipart_accepts (one_document sample_complete) [] default_xml_limits sample_parts Hm)).
  vm_compute. reflexivity.
Defined.

Lemma delete_objects_accepts_witness :
  0 <= max_delete_objects default_xml_limits /\
  exists root, @parse_tree (one_document sample_delete) [] default_xml_limits = Ok root /\
    node_name root = bs "Delete" /\
    Forall (fun c => node_name c ∈ [bs "Object"; bs "Quiet"]) (node_children root) /\
    Forall2 object_node (List.filter (named (bs "Object")) (node_children root)) (objects sample_objects) /\
    quiet_nodes (List.filter (named (bs "Quiet")) (node_children root)) (quiet sample_objects) /\
    1 <= len (objects sample_objects) <= max_delete_objects default_xml_limits.
Proof.
  assert (Hm : 0 <= max_delete_objects default_xml_limits) by (vm_compute; discriminate). split; [exact Hm|].
  apply (proj1 (@delete_objects_accepts (one_document sample_delete) [] default_xml_limits sample_objects Hm)).
  vm_compute. reflexivity.
Defined.
