(* ===== verification/Checksums.v ===== *)
(** Body checksums of the S3 service, from [src/src/s3/service.rs]: the
    checksum headers of a request, the digests kept while its body streams,
    their comparison, checksum trailers and the composite SHA-256 of a
    multipart upload.  The theorems say that a body passes exactly when every
    checksum the client gave is the checksum of that body. *)
From S2P Require Import Prelude Text Http Canonical SigV4 Base64 Chunked Types XmlParse.

(** [md5] is the value of the md-5 crate. *)
Class BodyHash := {
  body_hash :: Digests;
  md5 : bytes -> bytes;
  md5_length : forall m, length (md5 m) = 16%nat
}.

(** * Algorithms *)

Inductive ChecksumAlgorithm := Crc32 | Crc32c | Sha1 | Sha256 | Crc64Nvme.

#[export] Instance ChecksumAlgorithm_eq_decision : EqDecision ChecksumAlgorithm.
Proof. solve_decision. Defined.

Definition ChecksumAlgorithm_ALL : list ChecksumAlgorithm := [Crc32; Crc32c; Sha1; Sha256; Crc64Nvme].

Definition ChecksumAlgorithm_parse (value header_name : bytes) : result S3Error ChecksumAlgorithm :=
  let v := uppercase (str_trim value) in
  if v ==b bs "CRC32" then Ok Crc32
  else if v ==b bs "CRC32C" then Ok Crc32c
  else if v ==b bs "SHA1" then Ok Sha1
  else if v ==b bs "SHA256" then Ok Sha256
  else if v ==b bs "CRC64NVME" then Ok Crc64Nvme
  else Err (S3Error_new 400 (bs "InvalidArgument") (header_name ++ bs " names an unsupported checksum algorithm")).

Definition checksum_header_of (a : ChecksumAlgorithm) : bytes :=
  match a with
  | Crc32 => bs "x-amz-checksum-crc32"
  | Crc32c => bs "x-amz-checksum-crc32c"
  | Sha1 => bs "x-amz-checksum-sha1"
  | Sha256 => bs "x-amz-checksum-sha256"
  | Crc64Nvme => bs "x-amz-checksum-crc64nvme"
  end.

Definition algorithm_name (a : ChecksumAlgorithm) : bytes :=
  match a with
  | Crc32 => bs "CRC32"
  | Crc32c => bs "CRC32C"
  | Sha1 => bs "SHA1"
  | Sha256 => bs "SHA256"
  | Crc64Nvme => bs "CRC64NVME"
  end.

Definition decoded_length (a : ChecksumAlgorithm) : Z :=
  match a with Crc32 | Crc32c => 4 | Sha1 => 20 | Sha256 => 32 | Crc64Nvme => 8 end.

Definition from_checksum_header (name : bytes) : option ChecksumAlgorithm :=
  if name ==b bs "x-amz-checksum-crc32" then Some Crc32
  else if name ==b bs "x-amz-checksum-crc32c" then Some Crc32c
  else if name ==b bs "x-amz-checksum-sha1" then Some Sha1
  else if name ==b bs "x-amz-checksum-sha256" then Some Sha256
  else if name ==b bs "x-amz-checksum-crc64nvme" then Some Crc64Nvme
  else None.

Definition stored_meta_key (a : ChecksumAlgorithm) : bytes :=
  match a with
  | Crc32 => bs "@pgs3:checksum-crc32"
  | Crc32c => bs "@pgs3:checksum-crc32c"
  | Sha1 => bs "@pgs3:checksum-sha1"
  | Sha256 => bs "@pgs3:checksum-sha256"
  | Crc64Nvme => bs "@pgs3:checksum-crc64nvme"
  end.

Definition from_stored_meta_key (name : bytes) : option ChecksumAlgorithm :=
  find (fun a => stored_meta_key a ==b name) ChecksumAlgorithm_ALL.

(** * Headers *)

Definition one_header (headers : HeaderMap) (name : bytes) : result S3Error (option bytes) :=
  match HeaderMap_get_all headers name with
  | _ :: _ :: _ => Err (invalid_request (bs "duplicate header " ++ name))
  | [] => Ok None
  | [value] =>
      match from_utf8 value with
      | Some text => Ok (Some text)
      | None => Err (invalid_request (name ++ bs " is not UTF-8"))
      end
  end.

Record ExpectedChecksums := {
  e_content_md5 : option bytes;
  e_sha256 : option bytes;
  e_sha1 : option bytes;
  e_crc32 : option bytes;
  e_crc32c : option bytes;
  e_crc64nvme : option bytes;
  declared_trailer_algorithms : list ChecksumAlgorithm
}.

Definition default_expected : ExpectedChecksums :=
  {| e_content_md5 := None; e_sha256 := None; e_sha1 := None; e_crc32 := None; e_crc32c := None;
     e_crc64nvme := None; declared_trailer_algorithms := [] |}.

Definition expected_get (e : ExpectedChecksums) (a : ChecksumAlgorithm) : option bytes :=
  match a with
  | Crc32 => e_crc32 e
  | Crc32c => e_crc32c e
  | Sha1 => e_sha1 e
  | Sha256 => e_sha256 e
  | Crc64Nvme => e_crc64nvme e
  end.

Definition is_some {A} (o : option A) : bool := match o with Some _ => true | None => false end.

Definition expected_any (e : ExpectedChecksums) : bool :=
  is_some (e_sha256 e) || is_some (e_sha1 e) || is_some (e_crc32 e) || is_some (e_crc32c e)
  || is_some (e_crc64nvme e).

Definition requires_digest (e : ExpectedChecksums) (a : ChecksumAlgorithm) : bool :=
  is_some (expected_get e a) || existsb (fun x => x ==b a) (declared_trailer_algorithms e).

Definition put_slot (e : ExpectedChecksums) (a : ChecksumAlgorithm) (value : bytes) : ExpectedChecksums :=
  {| e_content_md5 := e_content_md5 e;
     e_sha256 := match a with Sha256 => Some value | _ => e_sha256 e end;
     e_sha1 := match a with Sha1 => Some value | _ => e_sha1 e end;
     e_crc32 := match a with Crc32 => Some value | _ => e_crc32 e end;
     e_crc32c := match a with Crc32c => Some value | _ => e_crc32c e end;
     e_crc64nvme := match a with Crc64Nvme => Some value | _ => e_crc64nvme e end;
     declared_trailer_algorithms := declared_trailer_algorithms e |}.

Definition expected_set (e : ExpectedChecksums) (a : ChecksumAlgorithm) (value : bytes)
  : result S3Error ExpectedChecksums :=
  if match expected_get e a with Some h => negb (constant_time_eq h value) | None => false end
  then Err (S3Error_new 400 (bs "BadDigest") (bs "The checksum header and trailer did not match"))
  else Ok (put_slot e a value).

Section Checksums.
Context `{BodyHash}.

Definition decode_checksum_value (name encoded : bytes) (length : Z) : result S3Error bytes :=
  let error_code := if starts_with name (bs "x-amz-checksum-") then bs "BadDigest" else bs "InvalidDigest" in
  let* decoded := ok_or (base64_decode encoded)
    (S3Error_new 400 error_code (name ++ bs " is not valid base64")) in
  if negb (len decoded =? length)
  then Err (S3Error_new 400 error_code (name ++ bs " has the wrong length"))
  else Ok decoded.

Definition checksum_header (headers : HeaderMap) (name : bytes) (length : Z) : result S3Error (option bytes) :=
  let* value := one_header headers name in
  transpose_map (fun encoded => decode_checksum_value name encoded length) value.

Definition checksum_algorithm_header (headers : HeaderMap) (name : bytes)
  : result S3Error (option ChecksumAlgorithm) :=
  let* value := one_header headers name in
  transpose_map (fun v => ChecksumAlgorithm_parse v name) value.

Definition multipart_checksum_algorithm (headers : HeaderMap) : result S3Error (option ChecksumAlgorithm) :=
  let* selected := checksum_algorithm_header headers (bs "x-amz-checksum-algorithm") in
  match selected with
  | Some Sha256 => Ok (Some Sha256)
  | Some _ | None => Ok None
  end.

Definition require_declared_checksum (expected : ExpectedChecksums) (trailer_names : list bytes)
    (algorithm : ChecksumAlgorithm) (declaration : bytes) : result S3Error unit :=
  if is_some (expected_get expected algorithm)
     || existsb (fun name => name ==b checksum_header_of algorithm) trailer_names
  then Ok tt
  else if expected_any expected || existsb (fun name => is_some (from_checksum_header name)) trailer_names
  then Err (S3Error_new 400 (bs "BadDigest")
              (declaration ++ bs " does not match the provided checksum algorithm"))
  else Err (S3Error_new 400 (bs "InvalidRequest")
              (declaration ++ bs " requires " ++ checksum_header_of algorithm
               ++ bs " in a header or declared trailer")).

(** [split(',')], trimmed, in lower case, without the empty names. *)
Definition comma_names (value : bytes) : list bytes :=
  List.filter (fun name => negb (is_empty name))
    (map (fun name => lowercase (str_trim name)) (split_on (fun b => b ==b x2c) value)).

(** The loop that collects the declared trailer algorithms. *)
Definition declare_trailer (declared : list ChecksumAlgorithm) (name : bytes) : list ChecksumAlgorithm :=
  match from_checksum_header name with
  | Some a => if existsb (fun x => x ==b a) declared then declared else declared ++ [a]
  | None => declared
  end.

Definition expected_checksums (headers : HeaderMap) (mode : PayloadMode) : result S3Error ExpectedChecksums :=
  let* content_md5 := checksum_header headers (bs "content-md5") 16 in
  let* sha256 := checksum_header headers (bs "x-amz-checksum-sha256") 32 in
  let* sha1 := checksum_header headers (bs "x-amz-checksum-sha1") 20 in
  let* crc32 := checksum_header headers (bs "x-amz-checksum-crc32") 4 in
  let* crc32c := checksum_header headers (bs "x-amz-checksum-crc32c") 4 in
  let* crc64nvme := checksum_header headers (bs "x-amz-checksum-crc64nvme") 8 in
  let* sdk_algorithm := checksum_algorithm_header headers (bs "x-amz-sdk-checksum-algorithm") in
  let* _selected := checksum_algorithm_header headers (bs "x-amz-checksum-algorithm") in
  let* trailer_names :=
    match mode with
    | StreamingUnsignedTrailer =>
        let* value := one_header headers (bs "x-amz-trailer") in
        Ok (match value with Some value => comma_names value | None => [] end)
    | _ => Ok []
    end in
  let expected :=
    {| e_content_md5 := content_md5; e_sha256 := sha256; e_sha1 := sha1; e_crc32 := crc32; e_crc32c := crc32c;
       e_crc64nvme := crc64nvme; declared_trailer_algorithms := foldl declare_trailer [] trailer_names |} in
  let* _ :=
    match sdk_algorithm with
    | Some a => require_declared_checksum expected trailer_names a (bs "x-amz-sdk-checksum-algorithm")
    | None => Ok tt
    end in
  Ok expected.

(** * Digests of a body *)

(** A hasher holds the bytes it has absorbed. *)
Record BodyDigests := {
  h_sha256 : bytes;
  h_md5 : bytes;
  h_sha1 : option bytes;
  h_crc32 : option bytes;
  h_crc32c : option bytes;
  h_crc64nvme : option bytes
}.

Definition then_some (b : bool) : option bytes := if b then Some [] else None.

Definition BodyDigests_for_expected (e : ExpectedChecksums) : BodyDigests :=
  {| h_sha256 := []; h_md5 := []; h_sha1 := then_some (requires_digest e Sha1);
     h_crc32 := then_some (requires_digest e Crc32); h_crc32c := then_some (requires_digest e Crc32c);
     h_crc64nvme := then_some (requires_digest e Crc64Nvme) |}.

Definition BodyDigests_update (d : BodyDigests) (b : bytes) : BodyDigests :=
  let absorb := option_map (fun h => h ++ b) in
  {| h_sha256 := h_sha256 d ++ b; h_md5 := h_md5 d ++ b; h_sha1 := absorb (h_sha1 d);
     h_crc32 := absorb (h_crc32 d); h_crc32c := absorb (h_crc32c d); h_crc64nvme := absorb (h_crc64nvme d) |}.

Record DigestValues := {
  v_sha256 : bytes;
  v_md5 : bytes;
  v_sha1 : option bytes;
  v_crc32 : option bytes;
  v_crc32c : option bytes;
  v_crc64nvme : option bytes
}.

Definition BodyDigests_values (d : BodyDigests) : DigestValues :=
  {| v_sha256 := sha256 (h_sha256 d); v_md5 := md5 (h_md5 d); v_sha1 := option_map Chunked.sha1 (h_sha1 d);
     v_crc32 := option_map (fun h => be_bytes 4 (Chunked.crc32 h)) (h_crc32 d);
     v_crc32c := option_map (fun h => be_bytes 4 (Chunked.crc32c h)) (h_crc32c d);
     v_crc64nvme := option_map (fun h => be_bytes 8 (crc64nvme h)) (h_crc64nvme d) |}.

Definition verify_checksum (actual expected : option bytes) : result S3Error unit :=
  match expected with
  | None => Ok tt
  | Some expected =>
      match actual with
      | None => Err internal
      | Some actual =>
          if negb (constant_time_eq actual expected)
          then Err (S3Error_new 400 (bs "BadDigest") (bs "A body checksum did not match"))
          else Ok tt
      end
  end.

Definition verify_digest_values (mode : PayloadMode) (actual : DigestValues) (expected : ExpectedChecksums)
  : result S3Error unit :=
  if match mode with FullHash hash => negb (constant_time_eq hash (v_sha256 actual)) | _ => false end
  then Err (S3Error_new 400 (bs "XAmzContentSHA256Mismatch")
              (bs "The x-amz-content-sha256 value did not match the body"))
  else
    let* _ := verify_checksum (Some (v_md5 actual)) (e_content_md5 expected) in
    let* _ := verify_checksum (Some (v_sha256 actual)) (e_sha256 expected) in
    let* _ := verify_checksum (v_sha1 actual) (e_sha1 expected) in
    let* _ := verify_checksum (v_crc32 actual) (e_crc32 expected) in
    let* _ := verify_checksum (v_crc32c actual) (e_crc32c expected) in
    verify_checksum (v_crc64nvme actual) (e_crc64nvme expected).

Definition verify_digests (mode : PayloadMode) (digests : BodyDigests) (expected : ExpectedChecksums)
  : result S3Error unit := verify_digest_values mode (BodyDigests_values digests) expected.

Definition apply_trailer (expected : ExpectedChecksums) (trailer : DecodedTrailer)
  : result S3Error ExpectedChecksums :=
  let* algorithm := ok_or (from_checksum_header (trailer_name trailer))
    (invalid_request (bs "unsupported checksum trailer")) in
  let* value := decode_checksum_value (trailer_name trailer) (trailer_value trailer) (decoded_length algorithm) in
  expected_set expected algorithm value.

Definition apply_verified_trailers (expected : ExpectedChecksums) (trailers : list DecodedTrailer)
  : result S3Error ExpectedChecksums := fold_result apply_trailer expected trailers.

Definition digest_value (v : DigestValues) (a : ChecksumAlgorithm) : option bytes :=
  match a with
  | Crc32 => v_crc32 v
  | Crc32c => v_crc32c v
  | Sha1 => v_sha1 v
  | Sha256 => Some (v_sha256 v)
  | Crc64Nvme => v_crc64nvme v
  end.

(** One round of the loop; [None] is the panic of [expect]. *)
Definition add_provided_checksum (expected : ExpectedChecksums) (actual : DigestValues)
    (r : option ServiceResponse) (a : ChecksumAlgorithm) : option ServiceResponse :=
  match r with
  | None => None
  | Some r =>
      match expected_get expected a with
      | None => Some r
      | Some _ =>
          match digest_value actual a with
          | None => None
          | Some checksum =>
              let name := checksum_header_of a in
              Some {| status := status r;
                      resp_headers :=
                        List.filter (fun h => negb (eq_ignore_ascii_case (fst h) name)) (resp_headers r)
                        ++ [(name, base64_encode checksum)];
                      body := body r |}
          end
      end
  end.

Definition add_provided_checksum_headers (r : ServiceResponse) (expected : ExpectedChecksums)
    (actual : DigestValues) : option ServiceResponse :=
  foldl (add_provided_checksum expected actual) (Some r) ChecksumAlgorithm_ALL.

(** * Multipart SHA-256 *)

Record PartRecord := {
  pr_part_number : Z;
  pr_size : Z;
  pr_etag : bytes;
  pr_sha256 : bytes;
  pr_completed_ms : Z
}.

Record MultipartSha256Completion := { part_sha256s : list bytes; composite : bytes }.

Definition multipart_bad_digest : S3Error :=
  S3Error_new 400 (bs "BadDigest") (bs "The multipart SHA256 checksum did not match").

(** [rsplit_once('-')] *)
Definition rsplit_dash (value : bytes) : option (bytes * bytes) :=
  option_map (fun '(a, b) => (reverse b, reverse a)) (split_once x2d (reverse value)).

Definition decode_multipart_sha256 (value : bytes) : result S3Error bytes :=
  let* decoded := ok_or (base64_decode value) multipart_bad_digest in
  if negb (len decoded =? 32) then Err multipart_bad_digest else Ok decoded.

Definition decode_composite_sha256 (value : bytes) (expected_parts : Z) : result S3Error bytes :=
  let* (digest, count) := ok_or (rsplit_dash value) multipart_bad_digest in
  if negb (parse_usize count ==b Some expected_parts) || (expected_parts =? 0) then Err multipart_bad_digest
  else decode_multipart_sha256 digest.

(** The map built from the stored parts: a later part replaces an earlier one
    with its number. *)
Definition stored_part (stored_parts : list PartRecord) (number : Z) : option PartRecord :=
  find (fun p => pr_part_number p =? number) (reverse stored_parts).

(** One part: the digests so far, whose concatenation the composite has
    absorbed. *)
Definition complete_sha256_part (stored_parts : list PartRecord) (s : list bytes * bytes) (part : CompletedPart)
  : result S3Error (list bytes * bytes) :=
  let* stored := ok_or (stored_part stored_parts (part_number part))
    (S3Error_new 400 (bs "InvalidPart") (bs "A requested multipart part is missing")) in
  if negb (len (pr_sha256 stored) =? 32) then Err internal
  else
    let* supplied := ok_or (part_sha256 (checksums part)) multipart_bad_digest in
    let* supplied := decode_multipart_sha256 supplied in
    if negb (constant_time_eq supplied (pr_sha256 stored)) then Err multipart_bad_digest
    else Ok (fst s ++ [supplied], snd s ++ pr_sha256 stored).

Definition validate_multipart_sha256_completion (completed : CompleteMultipartUpload)
    (stored_parts : list PartRecord) (supplied_composite : option bytes)
  : result S3Error MultipartSha256Completion :=
  let* (sha256s, absorbed) := fold_result (complete_sha256_part stored_parts) ([], []) (parts completed) in
  let actual := sha256 absorbed in
  let* supplied := ok_or supplied_composite multipart_bad_digest in
  let* supplied_digest := decode_composite_sha256 supplied (len (parts completed)) in
  if negb (constant_time_eq actual supplied_digest) then Err multipart_bad_digest
  else Ok {| part_sha256s := sha256s;
             composite := base64_encode actual ++ bs "-" ++ show_Z (len (parts completed)) |}.

Definition valid_stored_checksum (algorithm : ChecksumAlgorithm) (value : bytes) : bool :=
  if is_ok (decode_checksum_value (checksum_header_of algorithm) value (decoded_length algorithm)) then true
  else if negb (algorithm ==b Sha256) then false
  else
    match rsplit_dash value with
    | None => false
    | Some (_, count) =>
        match parse_usize count with
        | Some count => if 0 <? count then is_ok (decode_composite_sha256 value count) else false
        | None => false
        end
    end.
End Checksums.

(** * Specification *)

Section Bodies.
Context `{BodyHash}.

Definition checksum (a : ChecksumAlgorithm) (m : bytes) : bytes :=
  match a with
  | Crc32 => be_bytes 4 (Chunked.crc32 m)
  | Crc32c => be_bytes 4 (Chunked.crc32c m)
  | Sha1 => Chunked.sha1 m
  | Sha256 => sha256 m
  | Crc64Nvme => be_bytes 8 (Chunked.crc64nvme m)
  end.

(** The body has every checksum that is expected of it. *)
Record passes (mode : PayloadMode) (e : ExpectedChecksums) (m : bytes) : Prop := {
  passes_hash : forall h, mode = FullHash h -> h = sha256 m;
  passes_md5 : forall v, e_content_md5 e = Some v -> v = md5 m;
  passes_checksum : forall a v, expected_get e a = Some v -> v = checksum a m
}.

(** The digests of a body that arrives in pieces. *)
Definition digests_of (e : ExpectedChecksums) (pieces : list bytes) : BodyDigests :=
  foldl BodyDigests_update (BodyDigests_for_expected e) pieces.

(** ** Lemmas *)

Lemma digests_of_concat e pieces :
  digests_of e pieces = BodyDigests_update (BodyDigests_for_expected e) (concat pieces).
Proof.
  unfold digests_of. induction pieces as [|p pieces IH] using rev_ind.
  - unfold BodyDigests_update, BodyDigests_for_expected, then_some. simpl. by repeat case_match.
  - rewrite foldl_app, IH, concat_app, concat_cons, concat_nil, app_nil_r. unfold BodyDigests_update, BodyDigests_for_expected. cbn.
    unfold then_some. by repeat case_match.
Qed.

Lemma digest_value_of e m a : requires_digest e a = true ->
  digest_value (BodyDigests_values (BodyDigests_update (BodyDigests_for_expected e) m)) a = Some (checksum a m).
Proof. intros Hr. destruct a; cbn; rewrite ?Hr; done. Qed.

Lemma verify_checksum_Ok actual expected : verify_checksum (Some actual) expected = Ok tt <->
  forall v, expected = Some v -> v = actual.
Proof.
  unfold verify_checksum. destruct expected as [v|]; [|naive_solver].
  destruct (constant_time_eq actual v) eqn:E; simpl.
  - apply constant_time_eq_true in E. naive_solver.
  - split; [done|]. intros Hv. rewrite (Hv v eq_refl) in E. by rewrite (proj2 (constant_time_eq_true actual actual)) in E.
Qed.

(** The six comparisons, by algorithm. *)
Lemma verify_digest_values_Ok mode e0 e m :
  (forall a, expected_get e a <> None -> requires_digest e0 a = true) ->
  verify_digest_values mode (BodyDigests_values (BodyDigests_update (BodyDigests_for_expected e0) m)) e = Ok tt <->
  passes mode e m.
Proof.
  intros Hr.
  assert (Hv : forall a, verify_checksum
      (digest_value (BodyDigests_values (BodyDigests_update (BodyDigests_for_expected e0) m)) a) (expected_get e a) = Ok tt <->
      forall v, expected_get e a = Some v -> v = checksum a m).
  { intros a. destruct (expected_get e a) as [v|] eqn:E; [|by split].
    rewrite digest_value_of by (apply Hr; by rewrite E). rewrite verify_checksum_Ok. done. }
  pose proof (Hv Crc32) as V1. pose proof (Hv Crc32c) as V2. pose proof (Hv Sha1) as V3.
  pose proof (Hv Sha256) as V4. pose proof (Hv Crc64Nvme) as V5. clear Hv. cbn [digest_value expected_get] in *.
  set (vals := BodyDigests_values _) in *.
  assert (Hm : v_md5 vals = md5 m) by done. assert (Hs : v_sha256 vals = sha256 m) by done.
  assert (Hd : verify_checksum (Some (v_md5 vals)) (e_content_md5 e) = Ok tt <->
    forall v, e_content_md5 e = Some v -> v = md5 m) by (rewrite verify_checksum_Ok, Hm; done).
  unfold verify_digest_values. rewrite Hs.
  set (wrong := match mode with FullHash hash => negb (constant_time_eq hash (sha256 m)) | _ => false end).
  assert (Hh : wrong = false <-> forall h, mode = FullHash h -> h = sha256 m).
  { unfold wrong. clear. destruct mode as [h| | |]; [|by split..]. rewrite negb_false_iff, constant_time_eq_true.
    split; [by intros -> ? [= ->]|]. intros Hh. by apply Hh. }
  split.
  - destruct wrong; [done|].
    intros Q0. apply Ok_bind in Q0 as ([] & Q1 & Q2). apply Ok_bind in Q2 as ([] & Q2 & Q3).
    apply Ok_bind in Q3 as ([] & Q3 & Q4). apply Ok_bind in Q4 as ([] & Q4 & Q5). apply Ok_bind in Q5 as ([] & Q5 & Q6).
    rewrite <- Hs in Q2.
    constructor; [by apply Hh|by apply Hd|].
    intros []; [by apply V1|by apply V2|by apply V3|by apply V4|by apply V5].
  - intros [P1 P2 P3]. rewrite (proj2 Hh P1), (proj2 Hd P2). rewrite <- Hs.
    rewrite (proj2 V4 (P3 Sha256)), (proj2 V3 (P3 Sha1)), (proj2 V1 (P3 Crc32)), (proj2 V2 (P3 Crc32c)).
    exact (proj2 V5 (P3 Crc64Nvme)).
Qed.

Lemma expected_set_get e a v e' b : expected_set e a v = Ok e' ->
  expected_get e' b = (if decide (a = b) then Some v else expected_get e b) /\
  (forall h, expected_get e a = Some h -> h = v) /\ e_content_md5 e' = e_content_md5 e /\
  declared_trailer_algorithms e' = declared_trailer_algorithms e.
Proof.
  unfold expected_set. destruct (expected_get e a) as [h|] eqn:E.
  - destruct (constant_time_eq h v) eqn:Ec; [|done]. apply constant_time_eq_true in Ec as ->. intros [= <-].
    split_and!; [by destruct a, b|naive_solver|done|done].
  - intros [= <-]. split_and!; [by destruct a, b|done|done|done].
Qed.

(** A decoded checksum, from a header or a trailer. *)
Definition states (name text : bytes) (a : ChecksumAlgorithm) (v : bytes) : Prop :=
  from_checksum_header name = Some a /\ base64_decode text = Some v /\ len v = decoded_length a.

Lemma decode_checksum_value_Ok name text n v : decode_checksum_value name text n = Ok v <->
  base64_decode text = Some v /\ len v = n.
Proof.
  unfold decode_checksum_value. destruct (base64_decode text) as [w|]; simpl; [|naive_solver].
  destruct (Z.eqb_spec (len w) n); simpl; naive_solver.
Qed.

(** What the trailers add: each states a checksum, and the headers keep theirs. *)
Lemma apply_trailers_get trailers : forall e e', apply_verified_trailers e trailers = Ok e' ->
  (forall t, t ∈ trailers -> exists a v, states (trailer_name t) (trailer_value t) a v /\ expected_get e' a = Some v) /\
  (forall a v, expected_get e a = Some v -> expected_get e' a = Some v) /\
  (forall a v, expected_get e' a = Some v -> expected_get e a = Some v \/
     exists t, t ∈ trailers /\ from_checksum_header (trailer_name t) = Some a) /\
  e_content_md5 e' = e_content_md5 e.
Proof.
  induction trailers as [|t trailers IH]; intros e e' Ha; simpl in Ha.
  { injection Ha as <-. split_and!; [by intros t ?%elem_of_nil|done|by left|done]. }
  unfold apply_verified_trailers in *. simpl in Ha.
  destruct (apply_trailer e t) as [e1|] eqn:E1; [|done].
  destruct (IH e1 e' Ha) as (I1 & I2 & I3 & I4). clear IH Ha.
  unfold apply_trailer in E1. apply Ok_bind in E1 as (a & Ea%ok_or_Ok & E1). apply Ok_bind in E1 as (v & Ev & E1).
  apply decode_checksum_value_Ok in Ev as [Ev El].
  pose proof (fun b => expected_set_get e a v e1 b E1) as Hg.
  assert (Hget : expected_get e1 a = Some v) by (destruct (Hg a) as [-> _]; by rewrite decide_True).
  split_and!.
  - intros t' [->|Hin]%elem_of_cons; [|by apply I1]. exists a, v. split; [by split_and!|by apply I2].
  - intros b w Hw. apply I2. destruct (Hg b) as [-> [Hh _]]. case_decide as Eb; [|done]. subst b.
    by rewrite (Hh w Hw).
  - intros b w Hw. destruct (I3 b w Hw) as [Hb|(t' & Hin & Hf)].
    + destruct (Hg b) as [Eb _]. rewrite Eb in Hb. case_decide as Eab; [subst b|by left].
      right. exists t. split; [left|done].
    + right. exists t'. split; [by right|done].
  - rewrite I4. apply (Hg Crc32).
Qed.

Lemma checksum_header_Ok headers name n v : checksum_header headers name n = Ok v <->
  exists text, one_header headers name = Ok text /\
    match text with
    | None => v = None
    | Some text => exists w, v = Some w /\ base64_decode text = Some w /\ len w = n
    end.
Proof.
  unfold checksum_header. rewrite Ok_bind. split; intros (text & E & Ht); exists text; (split; [done|]);
    destruct text as [text|]; simpl in *; [|naive_solver| |naive_solver].
  - destruct (decode_checksum_value _ _ _) as [w|] eqn:Ew; [|done]. injection Ht as <-.
    apply decode_checksum_value_Ok in Ew. naive_solver.
  - destruct Ht as (w & -> & Hd & Hl). by rewrite (proj2 (decode_checksum_value_Ok _ _ _ _) (conj Hd Hl)).
Qed.

Lemma declared_trailers names : forall declared a, a ∈ foldl declare_trailer declared names <->
  a ∈ declared \/ exists name, name ∈ names /\ from_checksum_header name = Some a.
Proof.
  induction names as [|name names IH]; intros declared a; simpl.
  { split; [by left|]. intros [?|(? & ?%elem_of_nil & _)]; done. }
  rewrite IH. unfold declare_trailer.
  assert (Hc : (exists n, n ∈ name :: names /\ from_checksum_header n = Some a) <->
    from_checksum_header name = Some a \/ exists n, n ∈ names /\ from_checksum_header n = Some a).
  { setoid_rewrite elem_of_cons. naive_solver. }
  rewrite Hc. clear Hc IH. destruct (from_checksum_header name) as [b|]; [|naive_solver].
  destruct (existsb _ declared) eqn:E; [apply contains_true' in E; naive_solver|].
  rewrite elem_of_app, list_elem_of_singleton. naive_solver.
Qed.

(** The checksum the headers state for an algorithm. *)
Definition header_states (headers : HeaderMap) (name : bytes) (n : Z) (v : option bytes) : Prop :=
  exists text, one_header headers name = Ok text /\
    match text with
    | None => v = None
    | Some text => exists w, v = Some w /\ base64_decode text = Some w /\ len w = n
    end.

Lemma expected_checksums_Ok headers mode e : expected_checksums headers mode = Ok e ->
  header_states headers (bs "content-md5") 16 (e_content_md5 e) /\
  (forall a, header_states headers (checksum_header_of a) (decoded_length a) (expected_get e a)) /\
  (forall a, a ∈ declared_trailer_algorithms e -> mode = StreamingUnsignedTrailer /\
     exists value name, one_header headers (bs "x-amz-trailer") = Ok (Some value) /\ name ∈ comma_names value /\
       from_checksum_header name = Some a).
Proof.
  unfold expected_checksums. intros E.
  apply Ok_bind in E as (md5' & E1%checksum_header_Ok & E). apply Ok_bind in E as (v1 & E2%checksum_header_Ok & E).
  apply Ok_bind in E as (v2 & E3%checksum_header_Ok & E). apply Ok_bind in E as (v3 & E4%checksum_header_Ok & E).
  apply Ok_bind in E as (v4 & E5%checksum_header_Ok & E). apply Ok_bind in E as (v5 & E6%checksum_header_Ok & E).
  apply Ok_bind in E as (sdk & _ & E). apply Ok_bind in E as (sel & _ & E). apply Ok_bind in E as (names & En & E).
  apply Ok_bind in E as ([] & _ & [= <-]). cbn [e_content_md5 declared_trailer_algorithms].
  split; [done|]. split; [by intros []|]. intros a [?%elem_of_nil|(name & Hn & Ha)]%declared_trailers; [done|].
  destruct mode; try (injection En as <-; by apply elem_of_nil in Hn). split; [done|].
  apply Ok_bind in En as ([value|] & Ev & [= <-]); [|by apply elem_of_nil in Hn]. eauto.
Qed.

Lemma from_checksum_header_of a : from_checksum_header (checksum_header_of a) = Some a.
Proof. by destruct a. Qed.

(** C23: The body checks of a request, over headers, checksum trailers and a
    body in any pieces: they succeed exactly when the body has the signed
    SHA-256, the Content-MD5 and every checksum the client stated in a header
    or a declared trailer; no checksum is skipped because its digest was not
    computed. *)
Theorem body_checksums_hold (headers : HeaderMap) (mode : PayloadMode) (e0 e : ExpectedChecksums)
    (trailers : list DecodedTrailer) (pieces : list bytes) :
  expected_checksums headers mode = Ok e0 -> apply_verified_trailers e0 trailers = Ok e ->
  (forall t, t ∈ trailers -> exists a, from_checksum_header (trailer_name t) = Some a /\
     a ∈ declared_trailer_algorithms e0) ->
  verify_digests mode (digests_of e0 pieces) e = Ok tt <->
  (forall h, mode = FullHash h -> h = sha256 (concat pieces)) /\
  (forall text, one_header headers (bs "content-md5") = Ok (Some text) -> base64_decode text = Some (md5 (concat pieces))) /\
  (forall a text, one_header headers (checksum_header_of a) = Ok (Some text) ->
     base64_decode text = Some (checksum a (concat pieces))) /\
  (forall t, t ∈ trailers -> exists a, from_checksum_header (trailer_name t) = Some a /\
     base64_decode (trailer_value t) = Some (checksum a (concat pieces))).
Proof.
  intros He Ht Hd. apply expected_checksums_Ok in He as (Hm & Hh & _).
  destruct (apply_trailers_get _ _ _ Ht) as (T1 & T2 & T3 & T4). unfold verify_digests. rewrite digests_of_concat.
  rewrite verify_digest_values_Ok.
  2:{ intros a Ha. destruct (expected_get e a) as [v|] eqn:Ea; [|done]. unfold requires_digest.
      destruct (T3 a v Ea) as [->|(t & Hin & Hf)]; [done|]. destruct (Hd t Hin) as (b & Hb & Hdecl).
      rewrite Hf in Hb. injection Hb as <-. apply contains_true' in Hdecl. rewrite Hdecl. apply orb_true_r. }
  split.
  - intros [P1 P2 P3]. split; [done|]. split; [|split].
    + intros text Et. destruct Hm as (x & Hx & Hc). rewrite Et in Hx. injection Hx as <-.
      destruct Hc as (w & Hw & -> & _). f_equal. apply P2. by rewrite T4.
    + intros a text Et. destruct (Hh a) as (x & Hx & Hc). rewrite Et in Hx. injection Hx as <-.
      destruct Hc as (w & Hw & -> & _). f_equal. by apply P3, T2.
    + intros t Hin. destruct (T1 t Hin) as (a & v & (Hf & -> & _) & Hg). exists a. split; [done|]. f_equal. by apply P3.
  - intros (Q1 & Q2 & Q3 & Q4). constructor; [done| |].
    + intros v Hv. rewrite T4 in Hv. destruct Hm as ([x|] & Hx & Hc); [|congruence].
      destruct Hc as (w & Hw & Hb & _). rewrite (Q2 x Hx) in Hb. congruence.
    + intros a v Hv. destruct (T3 a v Hv) as [Hg|(t & Hin & Hf)].
      * destruct (Hh a) as ([x|] & Hx & Hc); [|congruence]. destruct Hc as (w & Hw & Hb & _).
        rewrite (Q3 a x Hx) in Hb. congruence.
      * destruct (T1 t Hin) as (b & w & (Hf' & Hb & _) & Hg). destruct (Q4 t Hin) as (b' & Hf'' & Hb').
        assert (b = a /\ b' = a) as [-> ->] by (split; congruence). congruence.
Qed.
End Bodies.

(** * The composite checksum of a multipart upload *)

Section Composite.
Context `{BodyHash}.

(** A part of the request, and its stored digest, which the client repeats. *)
Definition part_digest (stored_parts : list PartRecord) (part : CompletedPart) (digest : bytes) : Prop :=
  exists stored text, stored_part stored_parts (part_number part) = Some stored /\ pr_sha256 stored = digest /\
    len digest = 32 /\ part_sha256 (checksums part) = Some text /\ base64_decode text = Some digest.

Lemma decode_multipart_sha256_Ok text v : decode_multipart_sha256 text = Ok v <-> base64_decode text = Some v /\ len v = 32.
Proof.
  unfold decode_multipart_sha256. destruct (base64_decode text) as [w|]; simpl; [|naive_solver].
  destruct (Z.eqb_spec (len w) 32); simpl; naive_solver.
Qed.

Lemma complete_sha256_part_Ok stored s part s' : complete_sha256_part stored s part = Ok s' <->
  exists d, part_digest stored part d /\ s' = (fst s ++ [d], snd s ++ d).
Proof.
  unfold complete_sha256_part, part_digest. rewrite Ok_bind. split.
  - intros (p & Hp%ok_or_Ok & E). destruct (Z.eqb_spec (len (pr_sha256 p)) 32) as [Hl|]; [|done]. simpl in E.
    apply Ok_bind in E as (text & Ht%ok_or_Ok & E). apply Ok_bind in E as (v & Hv%decode_multipart_sha256_Ok & E).
    destruct (constant_time_eq v (pr_sha256 p)) eqn:Ec; [|done]. apply constant_time_eq_true in Ec as ->.
    injection E as <-. destruct Hv. exists (pr_sha256 p). split; [|done]. exists p, text. by split_and!.
  - intros (d & (p & text & Hp & <- & Hl & Ht & Hd) & ->). exists p. split; [by apply ok_or_Ok|].
    rewrite Hl. simpl. apply Ok_bind. exists text. split; [by apply ok_or_Ok|]. apply Ok_bind.
    exists (pr_sha256 p). split; [by apply decode_multipart_sha256_Ok|].
    by rewrite (proj2 (constant_time_eq_true (pr_sha256 p) (pr_sha256 p))).
Qed.

Lemma complete_sha256_parts_Ok stored l : forall s s', fold_result (complete_sha256_part stored) s l = Ok s' <->
  exists ds, Forall2 (part_digest stored) l ds /\ s' = (fst s ++ ds, snd s ++ concat ds).
Proof.
  induction l as [|part l IH]; intros s s'; simpl.
  - split.
    + intros [= <-]. exists []. rewrite !app_nil_r. destruct s. by split.
    + intros (ds & Hf & ->). inversion Hf; subst. simpl. rewrite !app_nil_r. by destruct s.
  - split.
    + destruct (complete_sha256_part stored s part) as [s1|] eqn:E; [|done].
      apply complete_sha256_part_Ok in E as (d & Hd & ->). rewrite IH. intros (ds & Hf & ->). exists (d :: ds).
      split; [by constructor|]. simpl. by rewrite <- !app_assoc.
    + intros (ds & Hf & ->). inversion Hf as [|? d ? ds' Hd Hf']; subst.
      rewrite (proj2 (complete_sha256_part_Ok stored s part (fst s ++ [d], snd s ++ d))) by eauto.
      apply IH. exists ds'. split; [done|]. simpl. by rewrite <- !app_assoc.
Qed.

Definition composite_text (digest : bytes) (count : Z) : bytes := base64_encode digest ++ bs "-" ++ show_Z count.

Lemma rsplit_dash_app a b : x2d ∉ b -> rsplit_dash (a ++ bs "-" ++ b) = Some (a, b).
Proof.
  intros Hb. unfold rsplit_dash. rewrite !reverse_app. change (reverse (bs "-")) with [x2d].
  assert (Hs : split_once x2d (reverse b ++ x2d :: reverse a) = Some (reverse b, reverse a)).
  { apply split_once_Some. split; [done|]. by rewrite elem_of_reverse. }
  rewrite <- app_assoc. cbn [app]. rewrite Hs. simpl. by rewrite !reverse_involutive.
Qed.

Lemma composite_roundtrip digest count : len digest = 32 -> 1 <= count <= usize_max ->
  decode_composite_sha256 (composite_text digest count) count = Ok digest /\
  valid_stored_checksum Sha256 (composite_text digest count) = true.
Proof.
  intros Hd Hc.
  assert (Hdash : x2d ∉ show_Z count).
  { intros Hin. destruct (show_Z_digits count) as [Hf _]; [lia|]. rewrite forallb_forall in Hf.
    apply list_elem_of_In in Hin. by apply Hf in Hin. }
  assert (Hp : parse_usize (show_Z count) = Some count).
  { unfold parse_usize. rewrite parse_unsigned_show, checked_in by lia. done. }
  assert (Hdec : decode_composite_sha256 (composite_text digest count) count = Ok digest).
  { unfold decode_composite_sha256, composite_text. rewrite rsplit_dash_app by done. cbn [ok_or].
    rewrite Hp, bool_decide_eq_true_2 by done. rewrite (proj2 (Z.eqb_neq _ _)) by lia. simpl.
    apply decode_multipart_sha256_Ok. by rewrite base64_roundtrip. }
  split; [done|]. unfold valid_stored_checksum. destruct (is_ok _); [done|]. rewrite bool_decide_eq_true_2 by done.
  cbn [negb]. unfold composite_text in *. rewrite rsplit_dash_app, Hp by done.
  rewrite (proj2 (Z.ltb_lt _ _)) by lia. by rewrite Hdec.
Qed.

Lemma decode_composite_count text n v : decode_composite_sha256 text n = Ok v -> n <> 0.
Proof.
  unfold decode_composite_sha256. destruct (rsplit_dash text) as [[? ?]|]; [|done]. cbn [ok_or].
  destruct (Z.eqb_spec n 0); [by rewrite orb_true_r|done].
Qed.

(** A multipart upload with SHA-256 checksums completes exactly when every
    listed part is stored with the digest the client repeats for it and the
    client's composite is the SHA-256 of those digests in order, with their
    number; the composite returned is that value, and it reads back both as a
    client's composite and as a stored checksum. *)
Theorem multipart_sha256_completion (completed : CompleteMultipartUpload) (stored : list PartRecord)
    (supplied : option bytes) (c : MultipartSha256Completion) :
  len (parts completed) <= usize_max ->
  validate_multipart_sha256_completion completed stored supplied = Ok c <->
  exists digests text, Forall2 (part_digest stored) (parts completed) digests /\ supplied = Some text /\
    decode_composite_sha256 text (len (parts completed)) = Ok (sha256 (concat digests)) /\
    part_sha256s c = digests /\ composite c = composite_text (sha256 (concat digests)) (len (parts completed)) /\
    decode_composite_sha256 (composite c) (len (parts completed)) = Ok (sha256 (concat digests)) /\
    valid_stored_checksum Sha256 (composite c) = true.
Proof.
  intros Hl. unfold validate_multipart_sha256_completion. rewrite Ok_bind. split.
  - intros ((ds & absorbed) & Hf & E). apply complete_sha256_parts_Ok in Hf as (ds' & Hf & [= -> ->]). simpl in E.
    apply Ok_bind in E as (text & Ht%ok_or_Ok & E). apply Ok_bind in E as (v & Hv & E).
    destruct (constant_time_eq _ v) eqn:Ec; [|done]. apply constant_time_eq_true in Ec as <-. injection E as <-.
    exists ds', text. split_and!; try done; apply composite_roundtrip.
    1, 3: unfold len; by rewrite sha256_length.
    all: apply decode_composite_count in Hv; pose proof (len_nonneg (parts completed)); lia.
  - intros (ds & text & Hf & -> & Hd & <- & Hc & _). exists (part_sha256s c, concat (part_sha256s c)).
    split; [by apply complete_sha256_parts_Ok; exists (part_sha256s c)|]. cbn [ok_or].
    rewrite Hd, (proj2 (constant_time_eq_true _ _)) by done. simpl. destruct c as [ds cc]. simpl in *. by rewrite Hc.
Qed.
End Composite.

(** * Examples *)

#[local] Instance sample_hash : BodyHash.
Proof.
  refine {| body_hash := sample_digests; md5 := fun m => take 16 (sample_digest m) |}.
  intros m. unfold sample_digest. by rewrite length_take, fold_block_length.
Defined.

Definition sample_headers : HeaderMap :=
  {| fields := [{| header_name := bs "x-amz-trailer"; header_value := bs "x-amz-checksum-crc32, other" |};
                {| header_name := bs "content-md5"; header_value := b64_encode (md5 (bs "hello")) |};
                {| header_name := bs "x-amz-checksum-sha1"; header_value := b64_encode (Chunked.sha1 (bs "hello")) |}] |}.

Definition sample_trailer : DecodedTrailer :=
  {| trailer_name := bs "x-amz-checksum-crc32"; trailer_value := b64_encode (checksum Crc32 (bs "hello")) |}.

Lemma body_checksums_hold_witness : exists e0 e,
  expected_checksums sample_headers StreamingUnsignedTrailer = Ok e0 /\
  apply_verified_trailers e0 [sample_trailer] = Ok e /\
  (verify_digests StreamingUnsignedTrailer (digests_of e0 [bs "he"; bs "llo"]) e = Ok tt ->
   base64_decode (trailer_value sample_trailer) = Some (checksum Crc32 (bs "hello"))).
Proof.
  destruct (expected_checksums sample_headers StreamingUnsignedTrailer) as [e0|] eqn:E0; [|vm_compute in E0; discriminate].
  destruct (apply_verified_trailers e0 [sample_trailer]) as [e|] eqn:E1;
    [|vm_compute in E0; injection E0 as <-; vm_compute in E1; discriminate].
  exists e0, e. split; [reflexivity|]. split; [exact E1|].
  intros Hv. apply (body_checksums_hold sample_headers StreamingUnsignedTrailer e0 e [sample_trailer] [bs "he"; bs "llo"] E0 E1) in Hv.
  - destruct Hv as (_ & _ & _ & Ht). destruct (Ht sample_trailer) as (a & Ha & Hb); [left|].
    vm_compute in Ha. injection Ha as <-. exact Hb.
  - intros t Ht. apply list_elem_of_singleton in Ht as ->. exists Crc32. split; [reflexivity|].
    vm_compute in E0. injection E0 as <-. left.
Defined.

Definition sample_stored : list PartRecord :=
  [{| pr_part_number := 1; pr_size := 5; pr_etag := bs "a"; pr_sha256 := sha256 (bs "hello"); pr_completed_ms := 0 |};
   {| pr_part_number := 7; pr_size := 5; pr_etag := bs "b"; pr_sha256 := sha256 (bs "world"); pr_completed_ms := 0 |}].

Definition sample_part (number : Z) (data : bytes) : CompletedPart :=
  {| part_number := number; etag := bs "e";
     checksums := {| XmlParse.crc32 := None; XmlParse.crc32c := None; XmlParse.sha1 := None;
                     part_sha256 := Some (b64_encode (sha256 data)) |} |}.

Definition sample_completed : CompleteMultipartUpload :=
  {| parts := [sample_part 1 (bs "hello"); sample_part 7 (bs "world")] |}.

Lemma multipart_sha256_completion_witness : exists c digests,
  len (parts sample_completed) <= usize_max /\
  validate_multipart_sha256_completion sample_completed sample_stored
    (Some (composite_text (sha256 (sha256 (bs "hello") ++ sha256 (bs "world"))) 2)) = Ok c /\
  part_sha256s c = digests /\ Forall2 (part_digest sample_stored) (parts sample_completed) digests.
Proof.
  assert (Hl : len (parts sample_completed) <= usize_max) by (vm_compute; discriminate).
  destruct (validate_multipart_sha256_completion _ _ _) as [c|] eqn:E; [|vm_compute in E; discriminate].
  destruct (proj1 (multipart_sha256_completion _ _ _ _ Hl) E) as (ds & text & Hf & _ & _ & Hd & _).
  exists c, ds. split_and!; [exact Hl|reflexivity|exact Hd|exact Hf].
Defined.
