(* ===== verification/Database.v ===== *)
(** The boundary between the S3 service and its surroundings: the records and
    the [Database] trait of [src/src/s3/db.rs], the clock and the request ids,
    and the mapping of database errors to S3 errors in
    [src/src/s3/service.rs].

    The methods of the trait are the constructors of [DbOp], indexed by the
    type each returns.  A run of the service is a function of a [World], which
    says what each call answers after a given history of calls; a theorem over
    every world is a theorem over every database and clock. *)
From S2P Require Import Prelude Text Effects XmlWrite Types Route Checksums.

(** * Records *)

Record Credential := { secret : bytes; cred_role : bytes }.

Record BucketRecord := { bucket_name : bytes; owner : bytes; bucket_created_ms : Z }.

Record ObjectRecord := {
  obj_bucket : bytes;
  obj_key : bytes;
  obj_version_id : Z;
  obj_size : Z;
  obj_etag : bytes;
  obj_sha256 : bytes;
  obj_content_type : option bytes;
  meta_json : bytes;
  obj_created_ms : Z
}.

Record ObjectData := { info : ObjectRecord; data_body : bytes }.

Record DeleteMarkerRecord := { marker_version_id : Z }.

Record DeleteRecord := {
  deleted_key : bytes;
  deleted_version_id : Z;
  deleted_marker : bool;
  was_deleted : bool
}.

Record DeleteTarget := { target_key : bytes; target_version_id : option Z }.

Record ListRecord := {
  lr_key : option bytes;
  lr_common_prefix : option bytes;
  lr_version_id : option Z;
  lr_size : option Z;
  lr_etag : option bytes;
  lr_last_modified_ms : option Z;
  lr_continuation_token : option bytes
}.

Record VersionRecord := {
  vr_key : option bytes;
  vr_common_prefix : option bytes;
  vr_version_id : option Z;
  vr_is_latest : option bool;
  vr_delete_marker : option bool;
  vr_size : option Z;
  vr_etag : option bytes;
  vr_last_modified_ms : option Z;
  vr_next_key_marker : option bytes;
  vr_next_version_id_marker : option Z
}.

Record ChunkRecord := { blob_id : bytes; chunk_size : Z }.

Record DbError := { db_message : bytes; sqlstate : option bytes; detail : option bytes }.

Definition DbError_internal (message : bytes) : DbError :=
  {| db_message := message; sqlstate := None; detail := None |}.

(** PostgreSQL packs each character of a SQLSTATE into six bits, the first
    one lowest. *)
Fixpoint unpack_chars (n : nat) (code : Z) : bytes :=
  match n with
  | O => []
  | S n' => mkb (Z.land code 63 + 48) :: unpack_chars n' (Z.shiftr code 6)
  end.

Definition unpack_sqlstate (code : Z) : bytes := unpack_chars 5 code.

(** * Database errors *)

Definition semantic_database_error (code : bytes) : option S3Error :=
  if code ==b bs "NoSuchBucket" then
    Some (S3Error_new 404 (bs "NoSuchBucket") (bs "The specified bucket does not exist"))
  else if code ==b bs "NoSuchUpload" then
    Some (S3Error_new 404 (bs "NoSuchUpload") (bs "The specified upload does not exist"))
  else if code ==b bs "NoSuchKey" then
    Some (S3Error_new 404 (bs "NoSuchKey") (bs "The specified key does not exist"))
  else if code ==b bs "NoSuchVersion" then
    Some (S3Error_new 404 (bs "NoSuchVersion") (bs "The specified version does not exist"))
  else if code ==b bs "BucketAlreadyExists" then
    Some (S3Error_new 409 (bs "BucketAlreadyExists") (bs "The requested bucket name is unavailable"))
  else if code ==b bs "InvalidBucketName" then
    Some (S3Error_new 400 (bs "InvalidBucketName") (bs "The specified bucket name is not valid"))
  else if code ==b bs "BucketNotEmpty" then
    Some (S3Error_new 409 (bs "BucketNotEmpty") (bs "The bucket is not empty"))
  else if code ==b bs "PreconditionFailed" then
    Some (S3Error_new 412 (bs "PreconditionFailed") (bs "At least one precondition failed"))
  else if code ==b bs "NotModified" then Some (S3Error_new 304 (bs "NotModified") (bs "Not Modified"))
  else if code ==b bs "BadDigest" then
    Some (S3Error_new 400 (bs "BadDigest") (bs "The supplied checksum did not match"))
  else if code ==b bs "InvalidPartOrder" then
    Some (S3Error_new 400 (bs "InvalidPartOrder") (bs "The list of parts was not in ascending order"))
  else if code ==b bs "EntityTooSmall" then
    Some (S3Error_new 400 (bs "EntityTooSmall") (bs "A multipart part was too small"))
  else if code ==b bs "InvalidPart" then
    Some (S3Error_new 400 (bs "InvalidPart") (bs "One or more specified parts could not be found"))
  else if code ==b bs "InvalidRange" then
    Some (S3Error_new 416 (bs "InvalidRange") (bs "The requested range is not satisfiable"))
  else if code ==b bs "EntityTooLarge" then
    Some (S3Error_new 400 (bs "EntityTooLarge") (bs "The request entity is too large"))
  else if code ==b bs "CredentialError" then Some access_denied
  else None.

Definition sqlstate_error (state : bytes) : S3Error :=
  if state ==b bs "42501" then access_denied
  else if state ==b bs "25006" then
    S3Error_new 503 (bs "ServiceUnavailable")
      (bs "This endpoint is a read-only standby and cannot accept writes")
  else if state ==b bs "57014" then
    S3Error_new 503 (bs "SlowDown") (bs "The request exceeded the statement time limit")
  else if state ==b bs "0A000" then
    S3Error_new 501 (bs "NotImplemented") (bs "The requested operation is not available")
  else if state ==b bs "P3B01" then
    S3Error_new 404 (bs "NoSuchBucket") (bs "The specified bucket does not exist")
  else if state ==b bs "P3U01" then
    S3Error_new 404 (bs "NoSuchUpload") (bs "The specified upload does not exist")
  else if state ==b bs "P3K01" then
    S3Error_new 404 (bs "NoSuchKey") (bs "The specified key does not exist")
  else if state ==b bs "P3E01" then
    S3Error_new 409 (bs "BucketAlreadyExists") (bs "The requested bucket name is unavailable")
  else if state ==b bs "P3F01" then S3Error_new 409 (bs "BucketNotEmpty") (bs "The bucket is not empty")
  else if state ==b bs "P3C01" then
    S3Error_new 412 (bs "PreconditionFailed") (bs "At least one precondition failed")
  else if state ==b bs "P3N01" then S3Error_new 304 (bs "NotModified") (bs "Not Modified")
  else if state ==b bs "P3H01" then
    S3Error_new 400 (bs "BadDigest") (bs "The supplied checksum did not match")
  else if state ==b bs "P3P01" then
    S3Error_new 400 (bs "InvalidPart") (bs "One or more specified parts could not be found")
  else if state ==b bs "P3R01" then
    S3Error_new 416 (bs "InvalidRange") (bs "The requested range is not satisfiable")
  else if state ==b bs "P3S01" then
    S3Error_new 400 (bs "EntityTooLarge") (bs "The request entity is too large")
  else if starts_with state (bs "22") then
    S3Error_new 400 (bs "InvalidArgument") (bs "An argument was invalid")
  else internal.

(** [find_map(|field| field.strip_prefix("pgs3.error="))] over the
    whitespace-separated fields of the detail. *)
Fixpoint find_code (fields : list bytes) : option bytes :=
  match fields with
  | [] => None
  | field :: fields' =>
      match strip_prefix (bs "pgs3.error=") field with
      | Some code => Some code
      | None => find_code fields'
      end
  end.

Definition split_ascii_whitespace (text : bytes) : list bytes :=
  List.filter (fun field => negb (is_empty field)) (split_on is_ascii_whitespace text).

Definition map_database_error (sqlstate detail : option bytes) : S3Error :=
  let semantic_code :=
    match detail with Some detail => find_code (split_ascii_whitespace detail) | None => None end in
  match match semantic_code with Some code => semantic_database_error code | None => None end with
  | Some error => error
  | None => match sqlstate with Some state => sqlstate_error state | None => internal end
  end.

Definition to_s3 (error : DbError) : S3Error := map_database_error (sqlstate error) (detail error).

(** * The trait *)

Inductive DbOp : Type -> Type :=
| lookup_credential (access_key : bytes) : DbOp (option Credential)
| list_buckets (role : bytes) : DbOp (list BucketRecord)
| create_bucket (role bucket region : bytes) : DbOp unit
| delete_bucket (role bucket : bytes) : DbOp unit
| head_bucket (role bucket : bytes) : DbOp unit
| bucket_location (role bucket : bytes) : DbOp bytes
| put_object (role bucket key body content_type meta_json : bytes) (if_none_match if_match : option bytes)
    (expected_sha256 : option bytes) : DbOp ObjectRecord
| head_object (role bucket key : bytes) (version_id : option Z) : DbOp ObjectRecord
| current_delete_marker (role bucket key : bytes) : DbOp (option DeleteMarkerRecord)
| get_object (role bucket key : bytes) (version_id : option Z) : DbOp ObjectData
| get_range (role bucket key : bytes) (version_id start finish : Z) : DbOp bytes
| delete_object (role bucket key : bytes) (version_id : option Z) : DbOp DeleteRecord
| delete_many (role bucket : bytes) (objects : list DeleteTarget) : DbOp (list (result DbError DeleteRecord))
| copy_object (role source_bucket source_key destination_bucket destination_key : bytes)
    (source_version_id : option Z) (content_type meta_json : option bytes)
    (if_none_match if_match source_if_match : option bytes) : DbOp ObjectRecord
| restore_object (role bucket key : bytes) (version_id : Z) (if_match : option bytes) : DbOp ObjectRecord
| list_objects (role bucket : bytes) (params : ListParams) (v2 : bool) : DbOp (list ListRecord)
| list_versions (role bucket : bytes) (params : VersionListParams) : DbOp (list VersionRecord)
| begin_upload (role bucket key content_type meta_json : bytes) (multipart : bool)
    (if_none_match if_match expected_sha256 : option bytes) : DbOp bytes
| renew_upload (role bucket key upload_id : bytes) (require_multipart : bool) : DbOp unit
| put_chunk (role bucket key upload_id : bytes) (seq : Z) (data : bytes) (part_number : Z) : DbOp unit
| put_chunk_sealed (role bucket key upload_id : bytes) (seq : Z) (data server_sha256 : bytes) : DbOp ChunkRecord
| complete_upload (role bucket key upload_id : bytes) (expected_sha256 : option bytes) : DbOp ObjectRecord
| complete_upload_sealed (role bucket key upload_id : bytes) (expected_sha256 : option bytes)
    (server_sha256 server_md5 : bytes) (server_size : Z) (chunk_blob_ids : list bytes)
    (chunk_sizes : list Z) : DbOp ObjectRecord
| finish_upload_sealed (role bucket key upload_id : bytes) (expected_sha256 : option bytes)
    (server_sha256 server_md5 : bytes) (server_size : Z) (chunk_blob_ids : list bytes)
    (chunk_sizes : list Z) (final_seq : Z) (final_data final_sha256 : bytes) : DbOp ObjectRecord
| abort_upload (role bucket key upload_id : bytes) (multipart : bool) : DbOp unit
| begin_part (role bucket key upload_id : bytes) (part_number : Z) : DbOp unit
| abort_part (role bucket key upload_id : bytes) (part_number : Z) : DbOp unit
| complete_part (role bucket key upload_id : bytes) (part_number : Z) (expected_sha256 : option bytes)
    : DbOp PartRecord
| list_parts (role bucket key upload_id : bytes) : DbOp (list PartRecord)
| stored_checksum_algorithm (role bucket key upload_id : bytes) : DbOp (option bytes)
| complete_multipart (role bucket key upload_id : bytes) (parts : list Z) (etags : list bytes)
    (expected_sha256 : option bytes) (part_sha256s : option (list bytes)) (composite_sha256 : option bytes)
    : DbOp ObjectRecord.

(** The tenant role a call is made for; only the credential lookup is made
    for none. *)
Definition role_of {A} (op : DbOp A) : option bytes :=
  match op with
  | lookup_credential _ => None
  | list_buckets role | create_bucket role _ _ | delete_bucket role _ | head_bucket role _
  | bucket_location role _ | put_object role _ _ _ _ _ _ _ _ | head_object role _ _ _
  | current_delete_marker role _ _ | get_object role _ _ _ | get_range role _ _ _ _ _
  | delete_object role _ _ _ | delete_many role _ _ | copy_object role _ _ _ _ _ _ _ _ _ _
  | restore_object role _ _ _ _ | list_objects role _ _ _ | list_versions role _ _
  | begin_upload role _ _ _ _ _ _ _ _ | renew_upload role _ _ _ _ | put_chunk role _ _ _ _ _ _
  | put_chunk_sealed role _ _ _ _ _ _ | complete_upload role _ _ _ _
  | complete_upload_sealed role _ _ _ _ _ _ _ _ _ | finish_upload_sealed role _ _ _ _ _ _ _ _ _ _ _ _
  | abort_upload role _ _ _ _ | begin_part role _ _ _ _ | abort_part role _ _ _ _
  | complete_part role _ _ _ _ _ | list_parts role _ _ _ | stored_checksum_algorithm role _ _ _
  | complete_multipart role _ _ _ _ _ _ _ _ => Some role
  end.

(** ** The transactions of [PgDatabase] *)

(** The role its transaction assumes: the sealed upload calls run as the
    server and pass the tenant role on. *)
Definition transaction_role {A} (op : DbOp A) : option bytes :=
  match op with
  | put_chunk_sealed _ _ _ _ _ _ _ | complete_upload_sealed _ _ _ _ _ _ _ _ _ _
  | finish_upload_sealed _ _ _ _ _ _ _ _ _ _ _ _ _ => None
  | _ => role_of op
  end.

Definition writable {A} (op : DbOp A) : bool :=
  match op with
  | lookup_credential _ | list_buckets _ | head_bucket _ _ | bucket_location _ _ | head_object _ _ _ _
  | current_delete_marker _ _ _ | get_object _ _ _ _ | get_range _ _ _ _ _ _ | list_objects _ _ _ _
  | list_versions _ _ _ => false
  | _ => true
  end.

(** The check before a writable transaction on a standby. *)
Definition standby_error : DbError :=
  {| db_message := bs "the pgs3 endpoint is a read-only standby"; sqlstate := Some (bs "25006"); detail := None |}.

Definition with_request_context {A} (recovery_in_progress writable : bool) (transaction : result DbError A)
  : result DbError A :=
  if writable && recovery_in_progress then Err standby_error else transaction.

(** * Worlds *)

(** What the service asks of its surroundings: database calls,
    [Instant::now], [SystemTime::now] and [request_id]. *)
Inductive Effect : Type -> Type :=
| Call (A : Type) (op : DbOp A) : Effect (result DbError A)
| InstantNow : Effect Z
| SystemTimeNow : Effect Z
| RequestId : Effect bytes.
Arguments Call {A} op.

(** The latest call is last. *)
Abbreviation Happened := (Interaction Effect).
Abbreviation history := (list Happened).
Abbreviation World := (Answers Effect).
Abbreviation Run := (Eff Effect).

Section World.
Context `{World}.

Definition call {A} (op : DbOp A) : Run (result DbError A) := ask (Call op).

(** [self.database.op(…).map_err(|error| error.to_s3())] *)
Definition db {A} (op : DbOp A) : Run (result S3Error A) :=
  let! r := call op in ret (map_err to_s3 r).
End World.

Lemma db_Ok `{World} {A} (op : DbOp A) h h' a : db op h = (h', Ok a) ->
  answers _ h (Call op) = Ok a /\ h' = h ++ [Happens (Call op) (Ok a)].
Proof.
  unfold db, bind, call, ask, ret. destruct (answers _ h (Call op)) as [x|e] eqn:E; [|done]. by intros [= <- <-].
Qed.

Section Runs.
Context `{World}.

Lemma runs_db {A} (op : DbOp A) (P : history -> history -> result S3Error A -> Prop) :
  (forall h r, P h [Happens (Call op) r] (map_err to_s3 r)) -> runs (db op) P.
Proof.
  intros HP. eapply runs_bind; [apply runs_ask with (P := fun h t a => t = [Happens (Call op) a]); done|].
  intros r. apply runs_ret. intros h' h t -> ->. rewrite app_nil_r. apply HP.
Qed.
End Runs.
