(* ===== verification/Metadata.v ===== *)
(** Object metadata, from [src/src/s3/service.rs]: the JSON text a PUT stores
    for its [x-amz-meta-*], [Cache-Control], [Expires], [Content-Encoding] and
    checksum headers, the parser of the text the database gives back, and the
    headers a GET or HEAD answers with.  The theorem is the round trip: a
    response carries the metadata of the request that stored the object,
    whatever order and spacing the database renders the JSON with, and
    whichever escapes but surrogate pairs. *)
From stdpp Require Import sorting.
From S2P Require Import Prelude Text Http Headers Canonical SigV4 Base64 Chunked XmlWrite Types XmlParse Checksums Database.

Definition STORED_CACHE_CONTROL : bytes := bs "@pgs3:cache-control".
Definition STORED_EXPIRES : bytes := bs "@pgs3:expires".
Definition STORED_CONTENT_ENCODING : bytes := bs "@pgs3:content-encoding".
Definition STORED_CHECKSUM_ALGORITHM : bytes := bs "@pgs3:checksum-algorithm".
Definition STORED_CHECKSUM_TYPE : bytes := bs "@pgs3:checksum-type".
Definition CHECKSUM_TYPE_COMPOSITE : bytes := bs "COMPOSITE".

(** * [BTreeMap<String, String>]: an association list sorted by key *)

Fixpoint btree_insert (key value : bytes) (m : list (bytes * bytes)) : list (bytes * bytes) :=
  match m with
  | [] => [(key, value)]
  | (k, v) :: m' =>
      match bytes_cmp key k with
      | Lt => (key, value) :: m
      | Eq => (key, value) :: m'
      | Gt => (k, v) :: btree_insert key value m'
      end
  end.

Definition contains_key (key : bytes) (m : list (bytes * bytes)) : bool := existsb (fun p => p.1 ==b key) m.

(** * Writing *)

(** [{:04x}] of a character below 256. *)
Definition json_escape (code : Z) : bytes := x5c :: bs "u00" ++ hex_lower [mkb code].

(** [value] is UTF-8, where C2 80 to C2 9F are the control characters above
    ASCII. *)
Fixpoint json_chars (value : bytes) : bytes :=
  match value with
  | [] => []
  | b :: r =>
      if b ==b QUOTE then x5c :: QUOTE :: json_chars r
      else if b ==b x5c then x5c :: x5c :: json_chars r
      else if b ==b x0a then x5c :: x6e :: json_chars r
      else if b ==b x0d then x5c :: x72 :: json_chars r
      else if b ==b x09 then x5c :: x74 :: json_chars r
      else if is_ascii_control b then json_escape (bval b) ++ json_chars r
      else if b ==b xc2 then
        match r with
        | c :: r' =>
            if in_range 128 159 (bval c) then json_escape (bval c) ++ json_chars r' else b :: json_chars r
        | [] => [b]
        end
      else b :: json_chars r
  end.

Definition json_string (value : bytes) : bytes := QUOTE :: json_chars value ++ [QUOTE].

Definition render_metadata (m : list (bytes * bytes)) : bytes :=
  x7b :: join [x2c] (map (fun p => json_string p.1 ++ x3a :: json_string p.2) m) ++ [x7d].

Definition user_metadata (m : list (bytes * bytes)) (h : Header) : result S3Error (list (bytes * bytes)) :=
  match strip_prefix (bs "x-amz-meta-") (header_name h) with
  | None => Ok m
  | Some name =>
      if is_empty name || contains_key name m then Err (invalid_request (bs "duplicate or empty metadata name"))
      else
        let* value := ok_or (from_utf8 (header_value h)) (invalid_request (bs "metadata value is not UTF-8")) in
        Ok (btree_insert name value m)
  end.

Definition insert_some (key : bytes) (value : option bytes) (m : list (bytes * bytes)) : list (bytes * bytes) :=
  match value with Some value => btree_insert key value m | None => m end.

Definition application_encodings (value : bytes) : list bytes :=
  List.filter (fun e => negb (is_empty e) && negb (eq_ignore_ascii_case e (bs "aws-chunked")))
    (map str_trim (split_on (fun b => b ==b x2c) value)).

Definition stored_content_encoding (headers : HeaderMap) : result S3Error (option bytes) :=
  let* value := one_header headers (bs "content-encoding") in
  match value with
  | None => Ok None
  | Some value =>
      let encodings := application_encodings value in
      Ok (if is_empty encodings then None else Some (join (bs ", ") encodings))
  end.

Section Writing.
Context `{BodyHash}.

Definition store_checksum (checksums : ExpectedChecksums) (m : list (bytes * bytes)) (a : ChecksumAlgorithm)
  : list (bytes * bytes) :=
  insert_some (stored_meta_key a) (option_map base64_encode (expected_get checksums a)) m.

(** The map [metadata_json_inner] builds. *)
Definition metadata_map (headers : HeaderMap) (header_checksums : option ExpectedChecksums)
    (multipart_algorithm : option ChecksumAlgorithm) : result S3Error (list (bytes * bytes)) :=
  let* m := fold_result user_metadata [] (fields headers) in
  let* cache_control := one_header headers (bs "cache-control") in
  let m := insert_some STORED_CACHE_CONTROL cache_control m in
  let* expires := one_header headers (bs "expires") in
  let m := insert_some STORED_EXPIRES expires m in
  let* encoding := stored_content_encoding headers in
  let m := insert_some STORED_CONTENT_ENCODING encoding m in
  let m := match header_checksums with
           | Some checksums => foldl (store_checksum checksums) m ChecksumAlgorithm_ALL
           | None => m
           end in
  Ok (match multipart_algorithm with
      | Some algorithm =>
          btree_insert STORED_CHECKSUM_TYPE CHECKSUM_TYPE_COMPOSITE
            (btree_insert STORED_CHECKSUM_ALGORITHM (algorithm_name algorithm) m)
      | None => m
      end).

Definition metadata_json_inner (headers : HeaderMap) (header_checksums : option ExpectedChecksums)
    (multipart_algorithm : option ChecksumAlgorithm) : result S3Error bytes :=
  let* m := metadata_map headers header_checksums multipart_algorithm in Ok (render_metadata m).

Definition metadata_json (headers : HeaderMap) : result S3Error bytes := metadata_json_inner headers None None.

Definition put_metadata_json (headers : HeaderMap) (header_checksums : ExpectedChecksums)
  : result S3Error bytes := metadata_json_inner headers (Some header_checksums) None.

Definition multipart_metadata_json (headers : HeaderMap) (algorithm : option ChecksumAlgorithm)
  : result S3Error bytes := metadata_json_inner headers None algorithm.
End Writing.

(** * Reading *)

Definition skip_space (l : bytes) : bytes := drop_while is_ascii_whitespace l.

(** [char::from_u32(value)] pushed on a [String], for a [u16]: the UTF-8
    encoding, unless the value is a surrogate. *)
Definition push_code_unit (value : Z) : option bytes :=
  if in_range 55296 57343 value then None
  else if value <? 128 then Some [mkb value]
  else if value <? 2048 then Some [mkb (192 + value / 64); mkb (128 + value mod 64)]
  else Some [mkb (224 + value / 4096); mkb (128 + value / 64 mod 64); mkb (128 + value mod 64)].

Definition hex_step (acc : option Z) (b : byte) : option Z :=
  match acc, hex_digit b with Some n, Some d => Some (n * 16 + d) | _, _ => None end.

(** [u16::from_str_radix(hex, 16)] on four bytes, which may start with a
    plus sign and cannot overflow. *)
Definition from_str_radix_16 (hex : bytes) : option Z :=
  let digits := match strip_prefix (bs "+") hex with Some r => r | None => hex end in
  if is_empty digits then None else foldl hex_step (Some 0) digits.

Definition short_escape (e : byte) : option byte :=
  if e ==b QUOTE then Some QUOTE
  else if e ==b x5c then Some x5c
  else if e ==b x2f then Some x2f
  else if e ==b x62 then Some x08
  else if e ==b x66 then Some x0c
  else if e ==b x6e then Some x0a
  else if e ==b x72 then Some x0d
  else if e ==b x74 then Some x09
  else None.

(** The body of a string, after its opening quote: the text and the input
    after the closing quote. *)
Fixpoint json_string_loop (l output : bytes) : option (bytes * bytes) :=
  match l with
  | [] => None
  | b :: r =>
      if b ==b QUOTE then Some (output, r)
      else if b ==b x5c then
        match r with
        | [] => None
        | e :: r1 =>
            if e ==b x75 then
              match r1 with
              | h1 :: h2 :: h3 :: h4 :: r2 =>
                  match from_utf8 [h1; h2; h3; h4] with
                  | None => None
                  | Some hex =>
                      match from_str_radix_16 hex with
                      | None => None
                      | Some value =>
                          match push_code_unit value with
                          | None => None
                          | Some c => json_string_loop r2 (output ++ c)
                          end
                      end
                  end
              | _ => None
              end
            else match short_escape e with
                 | Some c => json_string_loop r1 (output ++ [c])
                 | None => None
                 end
        end
      else if bval b <? 32 then None
      else if bval b <? 128 then json_string_loop r (output ++ [b])
      else if utf8_valid l then
        match r with
        | c1 :: r1 =>
            if bval b <? 224 then json_string_loop r1 (output ++ [b; c1])
            else
              match r1 with
              | c2 :: r2 =>
                  if bval b <? 240 then json_string_loop r2 (output ++ [b; c1; c2])
                  else match r2 with
                       | c3 :: r3 => json_string_loop r3 (output ++ [b; c1; c2; c3])
                       | [] => None
                       end
              | [] => None
              end
        | [] => None
        end
      else None
  end.

Definition parse_json_string (l : bytes) : option (bytes * bytes) :=
  match l with
  | b :: r => if b ==b QUOTE then json_string_loop r [] else None
  | [] => None
  end.

(** The member loop; the outer [None] is exhausted fuel. *)
Fixpoint metadata_loop (fuel : nat) (l : bytes) (result : list (bytes * bytes))
  : option (list (bytes * bytes)) :=
  match fuel with
  | O => None
  | S fuel =>
      let l := skip_space l in
      if match l with b :: _ => b ==b x7d | [] => false end then Some result
      else
        match parse_json_string l with
        | None => Some []
        | Some (name, next) =>
            match skip_space next with
            | b :: l =>
                if b ==b x3a then
                  match parse_json_string (skip_space l) with
                  | None => Some []
                  | Some (value, next) =>
                      let result := result ++ [(name, value)] in
                      match skip_space next with
                      | b :: l =>
                          if b ==b x2c then metadata_loop fuel l result
                          else if b ==b x7d then Some result
                          else Some []
                      | [] => Some []
                      end
                  end
                else Some []
            | [] => Some []
            end
        end
  end.

(** Every round consumes a byte, so [length input] rounds suffice. *)
Definition parse_metadata_json (input : bytes) : list (bytes * bytes) :=
  match skip_space input with
  | b :: l => if b ==b x7b then default [] (metadata_loop (S (length input)) l []) else []
  | [] => []
  end.

(** * Response headers *)

(** Milliseconds since the epoch as nanoseconds. *)
Definition system_time (milliseconds : Z) : SystemTime :=
  if 0 <=? milliseconds then 0 + milliseconds * 1000000 else 0 - Z.abs milliseconds * 1000000.

Section Reading.
Context `{BodyHash} (fmt_http_date : SystemTime -> bytes).

(** The header of one stored pair, [None] for a pair that is not shown. *)
Definition stored_header (include_stored_checksums : bool) (p : bytes * bytes) : option (bytes * bytes) :=
  let (name, value) := p in
  if name ==b STORED_CACHE_CONTROL then Some (bs "cache-control", value)
  else if name ==b STORED_EXPIRES then Some (bs "expires", value)
  else if name ==b STORED_CONTENT_ENCODING then Some (bs "content-encoding", value)
  else if name ==b STORED_CHECKSUM_TYPE then
    if include_stored_checksums && (value ==b CHECKSUM_TYPE_COMPOSITE)
    then Some (bs "x-amz-checksum-type", value) else None
  else
    match from_stored_meta_key name with
    | Some algorithm =>
        if include_stored_checksums && valid_stored_checksum algorithm value
        then Some (checksum_header_of algorithm, value) else None
    | None => if starts_with name (bs "@pgs3:") then None else Some (bs "x-amz-meta-" ++ name, value)
    end.

Definition quoted (value : bytes) : bytes := QUOTE :: value ++ [QUOTE].

Definition object_headers (r : ServiceResponse) (info : ObjectRecord) (checksum_mode : bool) : ServiceResponse :=
  let include_stored_checksums := checksum_mode && (status r =? 200) in
  {| status := status r;
     resp_headers :=
       resp_headers r
       ++ [(bs "etag", quoted (obj_etag info));
           (bs "last-modified", fmt_http_date (system_time (obj_created_ms info)));
           (bs "x-amz-version-id", show_Z (obj_version_id info));
           (bs "content-type", default (bs "application/octet-stream") (obj_content_type info));
           (bs "accept-ranges", bs "bytes")]
       ++ omap (stored_header include_stored_checksums) (parse_metadata_json (meta_json info));
     body := body r |}.
End Reading.

(** * JSON objects of strings *)

(** A character outside ASCII. *)
Definition wide_char (c : bytes) : Prop :=
  utf8_valid c = true /\
  match c with
  | [b; _] => bval b < 224
  | [b; _; _] => 224 <= bval b < 240
  | [b; _; _; _] => 240 <= bval b
  | _ => False
  end /\
  match c with b :: _ => 128 <= bval b | [] => False end.

(** The two-character escapes of JSON (RFC 8259, section 7), as the character
    after the backslash and the one it stands for. *)
Definition json_escapes : list (byte * byte) :=
  [(x22, x22); (x5c, x5c); (x2f, x2f); (x62, x08); (x66, x0c); (x6e, x0a); (x72, x0d); (x74, x09)].

(** [c] is the UTF-8 encoding of a code point below 65536 that is not a
    surrogate (RFC 3629, section 3). *)
Inductive utf8_of : Z -> bytes -> Prop :=
| utf8_one b : bval b < 128 -> utf8_of (bval b) [b]
| utf8_two b1 b2 h l : bval b1 = 192 + h -> bval b2 = 128 + l -> 2 <= h < 32 -> 0 <= l < 64 ->
    utf8_of (64 * h + l) [b1; b2]
| utf8_three b1 b2 b3 h m l : bval b1 = 224 + h -> bval b2 = 128 + m -> bval b3 = 128 + l ->
    0 <= h < 16 -> 0 <= m < 64 -> 0 <= l < 64 ->
    2048 <= 4096 * h + 64 * m + l -> ~ (55296 <= 4096 * h + 64 * m + l <= 57343) ->
    utf8_of (4096 * h + 64 * m + l) [b1; b2; b3].

(** The spellings JSON gives a character: itself, a short escape, or the four
    digits of its code. A character beyond the first 65536 is spelt as itself;
    its other spelling, a pair of surrogate escapes, is left out
    ([surrogate_escape_drops]). *)
Inductive json_char : bytes -> bytes -> Prop :=
| raw_ascii b : 32 <= bval b < 128 -> b <> QUOTE -> b <> x5c -> json_char [b] [b]
| raw_wide c : wide_char c -> json_char c c
| escaped_short e c : (e, c) ∈ json_escapes -> json_char [c] [x5c; e]
| escaped_code h1 h2 h3 h4 v1 v2 v3 v4 c :
    hex_of h1 v1 -> hex_of h2 v2 -> hex_of h3 v3 -> hex_of h4 v4 ->
    utf8_of (4096 * v1 + 256 * v2 + 16 * v3 + v4) c ->
    json_char c [x5c; x75; h1; h2; h3; h4].

Inductive json_body : bytes -> bytes -> Prop :=
| json_nil : json_body [] []
| json_cons c t s u : json_char c t -> json_body s u -> json_body (c ++ s) (t ++ u).

Definition json_quoted (s t : bytes) : Prop := exists u, t = QUOTE :: u ++ [QUOTE] /\ json_body s u.

(** White space of JSON. *)
Definition spaces (w : bytes) : Prop := Forall (fun b => b ∈ [x20; x09; x0a; x0d]) w.

Definition json_member (p : bytes * bytes) (t : bytes) : Prop :=
  exists w1 tn w2 w3 tv w4, spaces w1 /\ spaces w2 /\ spaces w3 /\ spaces w4 /\
    json_quoted p.1 tn /\ json_quoted p.2 tv /\
    t = w1 ++ tn ++ w2 ++ x3a :: w3 ++ tv ++ w4.

Inductive json_members : list (bytes * bytes) -> bytes -> Prop :=
| last_member p t : json_member p t -> json_members [p] t
| more_members p t l u : json_member p t -> json_members l u -> json_members (p :: l) (t ++ x2c :: u).

(** [text] is a JSON object whose members, in order, are the strings [l]. *)
Definition json_object (l : list (bytes * bytes)) (text : bytes) : Prop :=
  exists w inner w', spaces w /\ spaces w' /\ text = w ++ x7b :: inner ++ x7d :: w' /\
    ((l = [] /\ spaces inner) \/ json_members l inner).

(** ** Parsing them *)

Lemma spaces_whitespace w : spaces w -> forallb is_ascii_whitespace w = true.
Proof.
  induction 1 as [|b w Hb _ IH]; [done|]. cbn [forallb]. rewrite IH, andb_true_r.
  repeat (apply elem_of_cons in Hb as [-> | Hb]; [done|]). by apply elem_of_nil in Hb.
Qed.

Lemma skip_space_app w x r : spaces w -> is_ascii_whitespace x = false -> skip_space (w ++ x :: r) = x :: r.
Proof.
  intros Hw%spaces_whitespace Hx. unfold skip_space. induction w as [|b w IH]; cbn [app drop_while].
  - by rewrite Hx.
  - cbn [forallb] in Hw. apply andb_true_iff in Hw as [-> Hw]. by apply IH.
Qed.

Lemma spaces_utf8 w : spaces w -> utf8_valid w = true.
Proof.
  intros Hw%spaces_whitespace. apply ascii_utf8_valid. rewrite forallb_forall in Hw.
  apply List.Forall_forall. intros b Hb. specialize (Hw b Hb). revert Hw.
  unfold is_ascii_whitespace. rewrite !orb_true_iff, !Z.eqb_eq. lia.
Qed.

Lemma hexdigits_utf8 l : forallb is_ascii_hexdigit l = true -> utf8_valid l = true.
Proof.
  intros Hl. apply ascii_utf8_valid. rewrite forallb_forall in Hl.
  apply List.Forall_forall. intros b Hb. specialize (Hl b Hb). revert Hl.
  unfold is_ascii_hexdigit, is_ascii_digit, in_range. rewrite !orb_true_iff, !andb_true_iff, !Z.leb_le. lia.
Qed.

Lemma json_escapes_short e c : (e, c) ∈ json_escapes -> e <> x75 /\ short_escape e = Some c /\ bval e < 128.
Proof.
  intros He. repeat (apply elem_of_cons in He as [[= -> ->] | He]; [by repeat split|]). by apply elem_of_nil in He.
Qed.

(** Dividing a number written in base 64. *)
Lemma base64_split h l : 0 <= l < 64 -> (64 * h + l) / 64 = h /\ (64 * h + l) mod 64 = l.
Proof.
  intros Hl. split; [symmetry; apply (Z.div_unique _ _ _ l)|symmetry; apply (Z.mod_unique _ _ h)]; lia.
Qed.

Lemma utf8_of_code v c : utf8_of v c -> push_code_unit v = Some c.
Proof.
  unfold push_code_unit, in_range.
  destruct 1 as [b Hb|b1 b2 h l E1 E2 Hh Hl|b1 b2 b3 h m l E1 E2 E3 Hh Hm Hl H1 H2].
  - pose proof (bval_range b). destruct (Z.leb_spec 55296 (bval b)); [lia|]. cbn [andb].
    destruct (Z.ltb_spec (bval b) 128); [|lia]. by rewrite mkb_bval.
  - destruct (Z.leb_spec 55296 (64 * h + l)); [lia|]. cbn [andb].
    destruct (Z.ltb_spec (64 * h + l) 128); [lia|]. destruct (Z.ltb_spec (64 * h + l) 2048); [|lia].
    destruct (base64_split h l Hl) as [-> ->]. by rewrite <- E1, <- E2, !mkb_bval.
  - replace (4096 * h + 64 * m + l) with (64 * (64 * h + m) + l) in * by lia.
    set (v := 64 * (64 * h + m) + l) in *.
    assert (Hs : ((55296 <=? v) && (v <=? 57343)) = false).
    { apply andb_false_iff. rewrite !Z.leb_gt. lia. }
    rewrite Hs. destruct (Z.ltb_spec v 128); [lia|]. destruct (Z.ltb_spec v 2048); [lia|].
    replace (v / 4096) with (v / 64 / 64) by (by rewrite Z.div_div).
    destruct (base64_split (64 * h + m) l Hl) as [Hd Hr]. fold v in Hd, Hr. rewrite Hd, Hr.
    destruct (base64_split h m Hm) as [-> ->]. by rewrite <- E1, <- E2, <- E3, !mkb_bval.
Qed.

Lemma hex_of_ascii b v : hex_of b v -> is_ascii_hexdigit b = true.
Proof.
  intros Hb%hex_of_digit. revert Hb.
  by_bytes (fun b => negb (is_some (hex_digit b)) || is_ascii_hexdigit b) b.
  by destruct (hex_digit b).
Qed.

Lemma hex_of_quad h1 h2 h3 h4 v1 v2 v3 v4 : hex_of h1 v1 -> hex_of h2 v2 -> hex_of h3 v3 -> hex_of h4 v4 ->
  forallb is_ascii_hexdigit [h1; h2; h3; h4] = true /\
  from_str_radix_16 [h1; h2; h3; h4] = Some (4096 * v1 + 256 * v2 + 16 * v3 + v4).
Proof.
  intros H1 H2 H3 H4. split; [cbn [forallb]; by rewrite !(hex_of_ascii _ _ H1), !(hex_of_ascii _ _ H2), !(hex_of_ascii _ _ H3), !(hex_of_ascii _ _ H4)|].
  apply hex_of_digit in H1, H2, H3, H4. unfold from_str_radix_16.
  assert (Hp : strip_prefix (bs "+") [h1; h2; h3; h4] = None).
  { cbn. case_bool_decide; [|done]. by subst h1. }
  rewrite Hp. cbn [foldl hex_step]. unfold hex_step. rewrite H1, H2, H3, H4. f_equal. lia.
Qed.

Lemma json_char_utf8 c t : json_char c t -> utf8_valid t = true.
Proof.
  intros [b Hb _ _|c' [Hc _]|e c' He|h1 h2 h3 h4 v1 v2 v3 v4 c' H1 H2 H3 H4 _].
  - apply ascii_utf8_valid. repeat constructor. lia.
  - done.
  - apply ascii_utf8_valid. apply json_escapes_short in He as (_ & _ & He). by repeat constructor.
  - change (utf8_valid ([x5c; x75] ++ [h1; h2; h3; h4]) = true). rewrite utf8_valid_app by done.
    apply hexdigits_utf8. by eapply hex_of_quad.
Qed.

Lemma json_body_utf8 s t : json_body s t -> utf8_valid t = true.
Proof. induction 1; [done|]. rewrite utf8_valid_app by (by eapply json_char_utf8). done. Qed.

Lemma json_loop_char c t rest output : json_char c t -> utf8_valid rest = true ->
  json_string_loop (t ++ rest) output = json_string_loop rest (output ++ c).
Proof.
  intros [b [Hb1 Hb2] Hq Hs|c' (Hv & Hn & Hb)|e c' He|h1 h2 h3 h4 v1 v2 v3 v4 c' H1 H2 H3 H4 Hc] Hrest.
  - cbn [app json_string_loop]. rewrite !bool_decide_eq_false_2 by done.
    destruct (Z.ltb_spec (bval b) 32); [lia|]. by destruct (Z.ltb_spec (bval b) 128); [|lia].
  - assert (Hva : utf8_valid (c' ++ rest) = true) by (by rewrite utf8_valid_app).
    destruct c' as [|b r]; [done|]. cbn [app] in *. cbn [json_string_loop].
    rewrite !bool_decide_eq_false_2 by (intros ->; by vm_compute in Hb). rewrite Hva.
    destruct (Z.ltb_spec (bval b) 32); [lia|]. destruct (Z.ltb_spec (bval b) 128); [lia|].
    destruct r as [|c1 [|c2 [|c3 [|c4 r]]]]; try done; cbn [app].
    + by destruct (Z.ltb_spec (bval b) 224); [|lia].
    + destruct (Z.ltb_spec (bval b) 224); [lia|]. by destruct (Z.ltb_spec (bval b) 240); [|lia].
    + destruct (Z.ltb_spec (bval b) 224); [lia|]. by destruct (Z.ltb_spec (bval b) 240); [lia|].
  - apply json_escapes_short in He as (Hu & He & _).
    cbn [app json_string_loop]. rewrite (bool_decide_eq_false_2 (e = x75)) by done. simpl. by rewrite He.
  - destruct (hex_of_quad h1 h2 h3 h4 v1 v2 v3 v4) as [Hh Hr]; [done..|]. apply utf8_of_code in Hc as Hp.
    cbn [app json_string_loop]. simpl (bool_decide (x5c = QUOTE)). simpl (bool_decide (x5c = x5c)).
    simpl (bool_decide (x75 = x75)). unfold from_utf8. rewrite hexdigits_utf8 by done. by rewrite Hr, Hp.
Qed.

Lemma json_loop_body s t : json_body s t -> forall rest output, utf8_valid rest = true ->
  json_string_loop (t ++ QUOTE :: rest) output = Some (output ++ s, rest).
Proof.
  induction 1 as [|c t s u Hc Hb IH]; intros rest output Hrest.
  - cbn [app json_string_loop]. simpl. by rewrite app_nil_r.
  - rewrite <- app_assoc, json_loop_char with (c := c); [|done|].
    + rewrite IH by done. by rewrite <- app_assoc.
    + rewrite utf8_valid_app by (by eapply json_body_utf8). done.
Qed.

Lemma parse_json_quoted s t rest : json_quoted s t -> utf8_valid rest = true ->
  parse_json_string (t ++ rest) = Some (s, rest).
Proof.
  intros (u & -> & Hb) Hrest. unfold parse_json_string. cbn [app]. simpl (bool_decide (QUOTE = QUOTE)).
  rewrite <- app_assoc. cbn [app]. by rewrite json_loop_body with (s := s).
Qed.

Lemma json_quoted_utf8 s t : json_quoted s t -> utf8_valid t = true.
Proof.
  intros (u & -> & Hb). change (utf8_valid ([QUOTE] ++ u ++ [QUOTE]) = true).
  rewrite utf8_valid_app by done. by rewrite utf8_valid_app by (by eapply json_body_utf8).
Qed.

Lemma utf8_valid_ascii_cons b r : bval b < 128 -> utf8_valid (b :: r) = utf8_valid r.
Proof. intros. cbn [utf8_valid]. by destruct (Z.ltb_spec (bval b) 128); [|lia]. Qed.

Lemma json_member_utf8 p t : json_member p t -> utf8_valid t = true.
Proof.
  intros (w1 & tn & w2 & w3 & tv & w4 & H1 & H2 & H3 & H4 & Hn & Hv & ->).
  rewrite !utf8_valid_app by (first [by apply spaces_utf8 | by eapply json_quoted_utf8]).
  rewrite utf8_valid_ascii_cons by done.
  rewrite !utf8_valid_app by (first [by apply spaces_utf8 | by eapply json_quoted_utf8]). by apply spaces_utf8.
Qed.

Lemma json_members_utf8 l t : json_members l t -> utf8_valid t = true.
Proof.
  induction 1; [by eapply json_member_utf8|]. rewrite utf8_valid_app by (by eapply json_member_utf8).
  by rewrite utf8_valid_ascii_cons.
Qed.

Lemma skip_space_quoted w s t r : spaces w -> json_quoted s t -> skip_space (w ++ t ++ r) = t ++ r.
Proof. intros Hw (u & -> & _). cbn [app]. by apply skip_space_app. Qed.

Lemma quoted_not_brace s t r : json_quoted s t -> match t ++ r with b :: _ => b ==b x7d | [] => false end = false.
Proof. by intros (u & -> & _). Qed.

(** One round of the loop, on a member and the byte that follows it. *)
Lemma metadata_loop_member p t b rest fuel out : json_member p t -> (b = x2c \/ b = x7d) ->
  utf8_valid rest = true ->
  metadata_loop (S fuel) (t ++ b :: rest) out =
    if b ==b x2c then metadata_loop fuel rest (out ++ [p]) else Some (out ++ [p]).
Proof.
  intros (w1 & tn & w2 & w3 & tv & w4 & H1 & H2 & H3 & H4 & Hn & Hv & ->) Hb Hrest.
  assert (Hbr : utf8_valid (b :: rest) = true) by (destruct Hb as [-> | ->]; by rewrite utf8_valid_ascii_cons).
  assert (Hu : utf8_valid (w4 ++ b :: rest) = true) by (rewrite utf8_valid_app by (by apply spaces_utf8); done).
  assert (Ht : utf8_valid (w2 ++ x3a :: w3 ++ tv ++ w4 ++ b :: rest) = true).
  { rewrite utf8_valid_app by (by apply spaces_utf8). rewrite utf8_valid_ascii_cons by done.
    by rewrite !utf8_valid_app by (first [by apply spaces_utf8 | by eapply json_quoted_utf8]). }
  replace ((w1 ++ tn ++ w2 ++ x3a :: w3 ++ tv ++ w4) ++ b :: rest)
    with (w1 ++ tn ++ w2 ++ x3a :: w3 ++ tv ++ w4 ++ b :: rest)
    by (rewrite <- !app_assoc; cbn [app]; by rewrite <- !app_assoc).
  cbn [metadata_loop]. rewrite (skip_space_quoted _ p.1), (quoted_not_brace p.1), (parse_json_quoted p.1) by done.
  rewrite skip_space_app by done. simpl (bool_decide (x3a = x3a)). cbv iota.
  rewrite (skip_space_quoted _ p.2), (parse_json_quoted p.2) by done. rewrite <- surjective_pairing.
  destruct Hb as [-> | ->]; by rewrite skip_space_app.
Qed.

Lemma metadata_loop_members l t : json_members l t -> forall fuel out rest, (length l <= fuel)%nat ->
  utf8_valid rest = true -> metadata_loop fuel (t ++ x7d :: rest) out = Some (out ++ l).
Proof.
  induction 1 as [p t Hp|p t l u Hp Hl IH]; intros fuel out rest Hf Hrest; simpl in Hf;
    (destruct fuel as [|fuel]; [lia|]).
  - rewrite metadata_loop_member with (p := p) by eauto. done.
  - rewrite <- app_assoc. cbn [app]. rewrite metadata_loop_member with (p := p); eauto.
    + simpl (bool_decide (x2c = x2c)). cbv iota. rewrite IH by (done || lia). by rewrite <- app_assoc.
    + rewrite utf8_valid_app by (by eapply json_members_utf8). by rewrite utf8_valid_ascii_cons.
Qed.

Lemma json_members_length l t : json_members l t -> (length l <= length t)%nat.
Proof.
  induction 1 as [p t Hp|p t l u Hp Hl IH]; simpl.
  - destruct Hp as (w1 & tn & w2 & w3 & tv & w4 & _ & _ & _ & _ & _ & _ & ->). rewrite !length_app. simpl. lia.
  - rewrite length_app. simpl. lia.
Qed.

(** Every JSON object of strings is read back, whatever its spacing and
    escapes. *)
Lemma parse_metadata_object l text : json_object l text -> parse_metadata_json text = l.
Proof.
  intros (w & inner & w' & Hw & Hw' & -> & Hl). unfold parse_metadata_json.
  rewrite skip_space_app by done. simpl (bool_decide (x7b = x7b)). cbv iota.
  destruct Hl as [[-> Hi]|Hl].
  - rewrite length_app. cbn [length]. rewrite Nat.add_succ_r. cbn [metadata_loop].
    by rewrite skip_space_app.
  - rewrite metadata_loop_members with (l := l); [done|done| |by apply spaces_utf8].
    apply json_members_length in Hl. rewrite length_app. simpl. rewrite length_app. simpl. lia.
Qed.

(** ** Termination *)

Lemma json_string_loop_rest l : forall output s r, json_string_loop l output = Some (s, r) ->
  (length r < length l)%nat.
Proof.
  revert l. refine (length_ind _ _). intros l IH output s r. destruct l as [|b l]; [done|].
  cbn [json_string_loop]. case_bool_decide; [intros [= <- <-]; simpl; lia|].
  repeat case_match; try done; intros Hr; apply IH in Hr; simpl in *; lia.
Qed.

Lemma parse_json_string_rest l s r : parse_json_string l = Some (s, r) -> (length r < length l)%nat.
Proof.
  unfold parse_json_string. destruct l as [|b l]; [done|]. case_bool_decide; [|done].
  intros Hr. apply json_string_loop_rest in Hr. simpl. lia.
Qed.

Lemma skip_space_length l : (length (skip_space l) <= length l)%nat.
Proof.
  unfold skip_space. destruct (drop_while_spec is_ascii_whitespace l) as (p & E & _).
  rewrite E at 2. rewrite length_app. lia.
Qed.

Lemma metadata_loop_total fuel : forall l out, (length l < fuel)%nat -> metadata_loop fuel l out <> None.
Proof.
  induction fuel as [|fuel IH]; intros l out Hf; [lia|]. cbn [metadata_loop].
  pose proof (skip_space_length l).
  destruct (match skip_space l with b :: _ => b ==b x7d | [] => false end); [done|].
  destruct (parse_json_string (skip_space l)) as [[name next]|] eqn:E1; [|done].
  apply parse_json_string_rest in E1. pose proof (skip_space_length next).
  destruct (skip_space next) as [|b l2]; [done|]. case_bool_decide; [|done].
  pose proof (skip_space_length l2).
  destruct (parse_json_string (skip_space l2)) as [[value next2]|] eqn:E2; [|done].
  apply parse_json_string_rest in E2. pose proof (skip_space_length next2).
  destruct (skip_space next2) as [|b3 l3]; [done|]. repeat case_bool_decide; try done.
  apply IH. simpl in *. lia.
Qed.

(** ** Writing them *)

(** The two digits of a byte. *)
Definition low_digits (b : byte) : bool :=
  match hex_lower [b] with
  | [h; l] => (hex_digit h ==b Some (bval b / 16)) && (hex_digit l ==b Some (bval b mod 16))
  | _ => false
  end.

Lemma json_escape_char b c : utf8_of (bval b) c -> json_char c (json_escape (bval b)).
Proof.
  intros Hc. unfold json_escape. rewrite mkb_bval. by_bytes low_digits b. unfold low_digits in H.
  destruct (hex_lower [b]) as [|h [|l [|? ?]]]; try done.
  apply andb_true_iff in H as [Hh%bool_decide_eq_true Hl%bool_decide_eq_true].
  apply (escaped_code x30 x30 h l 0 0 (bval b / 16) (bval b mod 16)); [by apply hex_of_digit..|].
  pose proof (Z.div_mod (bval b) 16 ltac:(lia)). by replace (4096 * 0 + 256 * 0 + 16 * (bval b / 16) + bval b mod 16) with (bval b) by lia.
Qed.

Lemma upper_control_utf8 c : in_range 128 159 (bval c) = true -> utf8_of (bval c) [xc2; c].
Proof.
  unfold in_range. rewrite andb_true_iff, !Z.leb_le. intros Hc.
  replace (bval c) with (64 * 2 + (bval c - 128)) by lia. apply utf8_two; try lia. done.
Qed.

Lemma json_chars_plain b r : 128 <= bval b -> b <> xc2 -> json_chars (b :: r) = b :: json_chars r.
Proof.
  intros Hb Hc. cbn [json_chars]. rewrite !bool_decide_eq_false_2 by (done || (intros ->; by vm_compute in Hb)).
  unfold is_ascii_control. destruct (Z.ltb_spec (bval b) 32); [lia|]. by destruct (Z.eqb_spec (bval b) 127); [lia|].
Qed.

Lemma continuation_plain b r : is_continuation b = true -> json_chars (b :: r) = b :: json_chars r.
Proof.
  unfold is_continuation, in_range. rewrite andb_true_iff, !Z.leb_le. intros Hb.
  apply json_chars_plain; [lia|]. intros ->. vm_compute in Hb. by destruct Hb.
Qed.

Lemma json_cons_byte c t s u : json_char [c] t -> json_body s u -> json_body (c :: s) (t ++ u).
Proof. apply (json_cons [c]). Qed.

Lemma ascii_body b r : bval b < 128 -> json_body r (json_chars r) -> json_body (b :: r) (json_chars (b :: r)).
Proof.
  intros Hb Hr. cbn [json_chars].
  destruct (bool_decide_reflect (b = QUOTE)) as [->|Hq]; [apply (json_cons_byte _ [_; _]), Hr; apply escaped_short, (bool_decide_unpack _); by vm_compute|].
  destruct (bool_decide_reflect (b = x5c)) as [->|Hs]; [apply (json_cons_byte _ [_; _]), Hr; apply escaped_short, (bool_decide_unpack _); by vm_compute|].
  destruct (bool_decide_reflect (b = x0a)) as [->|_]; [apply (json_cons_byte _ [_; _]), Hr; apply escaped_short, (bool_decide_unpack _); by vm_compute|].
  destruct (bool_decide_reflect (b = x0d)) as [->|_]; [apply (json_cons_byte _ [_; _]), Hr; apply escaped_short, (bool_decide_unpack _); by vm_compute|].
  destruct (bool_decide_reflect (b = x09)) as [->|_]; [apply (json_cons_byte _ [_; _]), Hr; apply escaped_short, (bool_decide_unpack _); by vm_compute|].
  destruct (is_ascii_control b) eqn:Hc.
  { apply json_cons_byte; [|done]. by apply json_escape_char, utf8_one. }
  rewrite bool_decide_eq_false_2 by (intros ->; by vm_compute in Hb).
  apply (json_cons_byte b [b]); [|done]. apply raw_ascii; [|done|done].
  unfold is_ascii_control in Hc. apply orb_false_iff in Hc as [Hc%Z.ltb_ge _]. lia.
Qed.

Lemma json_chars_c2 c r : json_chars (xc2 :: c :: r) =
  if in_range 128 159 (bval c) then json_escape (bval c) ++ json_chars r else xc2 :: json_chars (c :: r).
Proof. done. Qed.

Lemma in_range_true lo hi z : in_range lo hi z = true <-> lo <= z <= hi.
Proof. unfold in_range. by rewrite andb_true_iff, !Z.leb_le. Qed.

(** What [json_string] writes for a text spells that text. *)
Lemma json_chars_body value : utf8_valid value = true -> json_body value (json_chars value).
Proof.
  revert value. refine (length_ind _ _). intros value IH Hv. destruct value as [|b r]; [apply json_nil|].
  revert Hv. cbn [utf8_valid]. destruct (bval b <? 128) eqn:R1.
  { intros Hr. apply ascii_body; [lia|]. apply IH; [simpl; lia|done]. }
  destruct (in_range 194 223 (bval b)) eqn:R2.
  { destruct r as [|c1 r]; [done|]. intros [Hc Hr]%andb_true_iff. apply IH in Hr; [|simpl; lia].
    assert (Hw : wide_char [b; c1]).
    { apply in_range_true in R2 as Hb. repeat split; [cbn [utf8_valid]; by rewrite R1, R2, Hc|lia|lia]. }
    destruct (bool_decide_reflect (b = xc2)) as [->|Hn].
    - rewrite json_chars_c2. destruct (in_range 128 159 (bval c1)) eqn:Hr1.
      + apply (json_cons [xc2; c1]); [|done]. by apply json_escape_char, upper_control_utf8.
      + rewrite continuation_plain by done. apply (json_cons [xc2; c1] [xc2; c1]); [|done]. by apply raw_wide.
    - rewrite json_chars_plain, continuation_plain by (done || lia).
      apply (json_cons [b; c1] [b; c1]); [|done]. by apply raw_wide. }
  destruct (in_range 224 239 (bval b)) eqn:R3.
  { destruct r as [|c1 [|c2 r]]; [done|done|]. intros [[H1 H2]%andb_true_iff Hr]%andb_true_iff.
    apply IH in Hr; [|simpl; lia]. apply in_range_true in R3 as Hb.
    assert (Hc1 : is_continuation c1 = true).
    { revert H1. unfold is_continuation. repeat case_match; rewrite !in_range_true; lia. }
    rewrite json_chars_plain, !continuation_plain by (done || lia || (intros ->; by vm_compute in Hb)).
    apply (json_cons [b; c1; c2] [b; c1; c2]); [|done]. apply raw_wide.
    repeat split; [cbn [utf8_valid]; by rewrite R1, R2, R3, H1, H2|lia|lia|lia]. }
  destruct (in_range 240 244 (bval b)) eqn:R4; [|done].
  destruct r as [|c1 [|c2 [|c3 r]]]; [done|done|done|].
  intros [[[H1 H2]%andb_true_iff H3]%andb_true_iff Hr]%andb_true_iff.
  apply IH in Hr; [|simpl; lia]. apply in_range_true in R4 as Hb.
  assert (Hc1 : is_continuation c1 = true).
  { revert H1. unfold is_continuation. repeat case_match; rewrite !in_range_true; lia. }
  rewrite json_chars_plain, !continuation_plain by (done || lia || (intros ->; by vm_compute in Hb)).
  apply (json_cons [b; c1; c2; c3] [b; c1; c2; c3]); [|done]. apply raw_wide.
  repeat split; [cbn [utf8_valid]; by rewrite R1, R2, R3, R4, H1, H2, H3|lia|lia].
Qed.

Lemma json_string_quoted value : utf8_valid value = true -> json_quoted value (json_string value).
Proof. intros Hv. exists (json_chars value). split; [done|]. by apply json_chars_body. Qed.

Definition text_pair (p : bytes * bytes) : Prop := utf8_valid p.1 = true /\ utf8_valid p.2 = true.

Lemma render_metadata_object m : Forall text_pair m -> json_object m (render_metadata m).
Proof.
  intros Hm. exists [], (join [x2c] (map (fun p => json_string p.1 ++ x3a :: json_string p.2) m)), [].
  do 2 (split; [by apply List.Forall_nil|]). split; [done|]. destruct Hm as [|p m Hp Hm]; [left; split; [done|by apply List.Forall_nil]|]. right.
  assert (Hj : forall q, text_pair q -> json_member q (json_string q.1 ++ x3a :: json_string q.2)).
  { intros q [H1 H2]. exists [], (json_string q.1), [], [], (json_string q.2), [].
    do 4 (split; [by apply List.Forall_nil|]). split; [by apply json_string_quoted|]. split; [by apply json_string_quoted|].
    cbn [app]. by rewrite app_nil_r. }
  revert p Hp. induction Hm as [|q m Hq Hm IH]; intros p Hp; [by apply last_member, Hj|].
  cbn [map join]. apply more_members; [by apply Hj|]. by apply IH.
Qed.

(** * The stored map *)

Definition btree_lookup (key : bytes) (m : list (bytes * bytes)) : option bytes :=
  option_map snd (find (fun p => p.1 ==b key) m).

Definition key_lt (p q : bytes * bytes) : Prop := bytes_cmp p.1 q.1 = Lt.

Record btree (m : list (bytes * bytes)) : Prop := {
  btree_sorted : StronglySorted key_lt m;
  btree_text : Forall text_pair m
}.

Lemma lookup_btree_insert k v key m :
  btree_lookup key (btree_insert k v m) = if k ==b key then Some v else btree_lookup key m.
Proof.
  unfold btree_lookup. induction m as [|[k' v'] m IH]; cbn [btree_insert find fst].
  - by case_bool_decide.
  - destruct (bytes_cmp k k') eqn:E; cbn [find fst].
    + apply bytes_cmp_eq in E as ->. by case_bool_decide.
    + by case_bool_decide.
    + destruct (bool_decide_reflect (k' = key)) as [->|].
      * rewrite bool_decide_eq_false_2; [done|]. intros ->.
        by rewrite (proj2 (bytes_cmp_eq key key) eq_refl) in E.
      * apply IH.
Qed.

Lemma lookup_insert_some k o key m :
  btree_lookup key (insert_some k o m) =
    if k ==b key then match o with Some v => Some v | None => btree_lookup key m end else btree_lookup key m.
Proof. destruct o; simpl; [apply lookup_btree_insert|by case_bool_decide]. Qed.

Lemma contains_key_lookup k m : contains_key k m = is_some (btree_lookup k m).
Proof.
  unfold contains_key, btree_lookup. induction m as [|p m IH]; [done|]. cbn [existsb find].
  by destruct (p.1 ==b k).
Qed.

Lemma btree_insert_elem k v m p : p ∈ btree_insert k v m -> p = (k, v) \/ p ∈ m.
Proof.
  induction m as [|[k' v'] m IH]; cbn [btree_insert].
  - rewrite list_elem_of_singleton. by left.
  - destruct (bytes_cmp k k'); rewrite !elem_of_cons; naive_solver.
Qed.

Lemma btree_insert_btree k v m : text_pair (k, v) -> btree m -> btree (btree_insert k v m).
Proof.
  intros Hp [Hs Ht]. split.
  - clear Ht Hp. induction Hs as [|[k' v'] m Hs IH Hf]; cbn [btree_insert]; [repeat constructor|].
    destruct (bytes_cmp k k') eqn:E.
    + apply bytes_cmp_eq in E as ->. by constructor.
    + constructor; [by constructor|]. constructor; [done|].
      eapply Forall_impl; [exact Hf|]. intros q Hq. by eapply bytes_cmp_lt_trans.
    + constructor; [done|]. apply Forall_forall. intros q Hq. apply btree_insert_elem in Hq as [->|Hq].
      * unfold key_lt. simpl. by rewrite bytes_cmp_opp, E.
      * rewrite Forall_forall in Hf. by apply Hf.
  - apply Forall_forall. intros q Hq. apply btree_insert_elem in Hq as [->|Hq]; [done|].
    rewrite Forall_forall in Ht. by apply Ht.
Qed.

Lemma insert_some_btree k o m : utf8_valid k = true -> (forall v, o = Some v -> utf8_valid v = true) ->
  btree m -> btree (insert_some k o m).
Proof. intros Hk Ho Hm. destruct o as [v|]; [|done]. simpl. apply btree_insert_btree; [split; auto|done]. Qed.

Lemma btree_nodup m : btree m -> NoDup m.*1.
Proof.
  intros [Hs _]. induction Hs as [|p m Hs IH Hf]; simpl; constructor; [|done].
  rewrite list_elem_of_fmap. intros (q & E & Hq). rewrite Forall_forall in Hf. specialize (Hf q Hq).
  unfold key_lt in Hf. by rewrite E, (proj2 (bytes_cmp_eq _ _) eq_refl) in Hf.
Qed.

Lemma nodup_lookup m k v : NoDup m.*1 -> (k, v) ∈ m <-> btree_lookup k m = Some v.
Proof.
  unfold btree_lookup. induction m as [|[k' v'] m IH]; simpl; [rewrite elem_of_nil; done|].
  intros [Hn Hd]%NoDup_cons. specialize (IH Hd). rewrite elem_of_cons.
  destruct (bool_decide_reflect (k' = k)) as [->|Hk]; simpl; [|rewrite <- IH; naive_solver].
  split; [|intros [= ->]; by left]. intros [[= ->]|Hin]; [done|]. exfalso. apply Hn.
  apply list_elem_of_fmap. by exists (k, v).
Qed.

Lemma elem_of_permuted_lookup m m' k v : btree m -> Permutation m m' ->
  (k, v) ∈ m' <-> btree_lookup k m = Some v.
Proof. intros Hm Hp. rewrite <- nodup_lookup by (by apply btree_nodup). by rewrite Hp. Qed.

(** ** The user's pairs *)

Definition meta_header (name value : bytes) : Header :=
  {| header_name := bs "x-amz-meta-" ++ name; header_value := value |}.

Lemma user_metadata_Ok l : forall m m', fold_result user_metadata m l = Ok m' ->
  Forall (fun f => utf8_valid (header_name f) = true) l -> btree m ->
  btree m' /\
  forall n v, btree_lookup n m' = Some v <-> btree_lookup n m = Some v \/ meta_header n v ∈ l.
Proof.
  induction l as [|h l IH]; intros m m' Hf Hn Hm.
  { injection Hf as <-. split; [done|]. intros n v. rewrite elem_of_nil. tauto. }
  apply Forall_cons in Hn as [Hh Hn]. cbn [fold_result] in Hf.
  destruct (user_metadata m h) as [m1|] eqn:E; [|done]. unfold user_metadata in E.
  destruct (strip_prefix (bs "x-amz-meta-") (header_name h)) as [name|] eqn:Es.
  - apply strip_prefix_Some in Es. destruct (is_empty name || contains_key name m) eqn:Ec; [done|].
    apply orb_false_iff in Ec as [_ Ec]. rewrite contains_key_lookup in Ec.
    apply Ok_bind in E as (v0 & [Hv0 ->]%ok_or_Ok%from_utf8_Some & [= <-]).
    assert (Hname : utf8_valid name = true) by (rewrite Es, utf8_valid_app in Hh by done; done).
    destruct (IH _ _ Hf Hn) as [Hb Hl]; [by apply btree_insert_btree|]. split; [done|].
    intros n v. rewrite Hl, lookup_btree_insert, elem_of_cons.
    assert (Hhd : h = meta_header name (header_value h)) by (destruct h; simpl in *; by rewrite Es).
    destruct (bool_decide_reflect (name = n)) as [<-|Hne].
    + destruct (btree_lookup name m); [done|]. split.
      * intros [[= <-]|?]; [right; left; done|right; by right].
      * intros [?|[E|?]]; [done| |by right]. left. rewrite Hhd in E. unfold meta_header in E. by injection E as <-.
    + split; [intros [?|?]; [by left|right; by right]|].
      intros [?|[E|?]]; [by left| |by right]. rewrite Hhd in E. unfold meta_header in E.
      injection E as E _. by subst.
  - injection E as <-. destruct (IH _ _ Hf Hn Hm) as [Hb Hl]. split; [done|].
    intros n v. rewrite Hl, elem_of_cons. split; [naive_solver|]. intros [?|[E|?]]; [by left| |by right].
    exfalso. assert (Hx : strip_prefix (bs "x-amz-meta-") (header_name h) = Some n)
      by (apply strip_prefix_Some; by rewrite <- E). by rewrite Hx in Es.
Qed.

(** ** The whole map *)

Lemma token_utf8 name : forallb is_tchar name = true -> utf8_valid name = true.
Proof.
  intros Hn. apply ascii_utf8_valid. rewrite forallb_forall in Hn. apply List.Forall_forall. intros b Hb.
  specialize (Hn b Hb). revert Hn. clear.
  by_bytes (fun b => negb (is_tchar b) || (bval b <? 128)) b.
  intros Ht. rewrite Ht in H. simpl in H. by apply Z.ltb_lt.
Qed.

(** [@] is not a token character, so no header names a reserved key. *)
Lemma meta_header_not_reserved l n v : Forall (fun f => forallb is_tchar (header_name f) = true) l ->
  meta_header n v ∈ l -> starts_with n (bs "@pgs3:") = false.
Proof.
  rewrite Forall_forall. intros Hl Hin. specialize (Hl _ Hin). cbn [meta_header header_name] in Hl.
  rewrite forallb_app in Hl. apply andb_true_iff in Hl as [_ Hl].
  destruct (starts_with n (bs "@pgs3:")) eqn:E; [|done]. apply starts_with_true in E as (r & ->).
  by vm_compute in Hl.
Qed.

Lemma one_header_utf8 headers n v : one_header headers n = Ok (Some v) -> utf8_valid v = true.
Proof.
  unfold one_header. destruct (HeaderMap_get_all headers n) as [|x [|]]; try done.
  destruct (from_utf8 x) eqn:E; [|done]. apply from_utf8_Some in E as [Hu ->]. by intros [= <-].
Qed.

Lemma stored_content_encoding_utf8 headers v : stored_content_encoding headers = Ok (Some v) ->
  utf8_valid v = true.
Proof.
  unfold stored_content_encoding. intros (o & Ho & H)%Ok_bind. destruct o as [t|]; [|done].
  destruct (is_empty (application_encodings t)); [done|]. injection H as <-.
  apply join_utf8; [done|]. apply one_header_utf8 in Ho. unfold application_encodings.
  apply Forall_forall. intros e [He _]%elem_of_filter_list. apply list_elem_of_fmap in He as (p & -> & Hp).
  apply str_trim_utf8. pose proof (split_on_utf8 x2c t ltac:(by vm_compute) Ho) as Hf.
  rewrite Forall_forall in Hf. by apply Hf.
Qed.

Section Stored.
Context `{BodyHash}.
Implicit Types (headers : HeaderMap).

Lemma base64_utf8 m : utf8_valid (base64_encode m) = true.
Proof.
  apply ascii_utf8_valid. pose proof (base64_graphic m) as Hg. rewrite forallb_forall in Hg.
  apply List.Forall_forall. intros b Hb. specialize (Hg b Hb). revert Hg.
  unfold is_ascii_graphic. rewrite in_range_true. lia.
Qed.

(** The pairs a PUT stores. *)
Record stores headers (e : ExpectedChecksums) (m : list (bytes * bytes)) : Prop := {
  stores_btree : btree m;
  stores_user n v : starts_with n (bs "@pgs3:") = false -> btree_lookup n m = Some v <-> meta_header n v ∈ fields headers;
  stores_cache : one_header headers (bs "cache-control") = Ok (btree_lookup STORED_CACHE_CONTROL m);
  stores_expires : one_header headers (bs "expires") = Ok (btree_lookup STORED_EXPIRES m);
  stores_encoding : stored_content_encoding headers = Ok (btree_lookup STORED_CONTENT_ENCODING m);
  stores_checksum a : btree_lookup (stored_meta_key a) m = option_map base64_encode (expected_get e a)
}.

Lemma metadata_map_stores headers e m : metadata_map headers (Some e) None = Ok m ->
  Forall (fun f => forallb is_tchar (header_name f) = true) (fields headers) -> stores headers e m.
Proof.
  intros Hm Ht. unfold metadata_map in Hm.
  apply Ok_bind in Hm as (m0 & Hu & Hm). apply Ok_bind in Hm as (cc & Hcc & Hm).
  apply Ok_bind in Hm as (ex & Hex & Hm). apply Ok_bind in Hm as (ce & Hce & Hm). injection Hm as <-.
  apply user_metadata_Ok in Hu as [Hb Hl];
    [|eapply Forall_impl; [exact Ht|]; intros; by apply token_utf8|by repeat constructor].
  assert (Hr : forall k, starts_with k (bs "@pgs3:") = true -> btree_lookup k m0 = None).
  { intros k Hk. destruct (btree_lookup k m0) as [v|] eqn:E; [|done]. apply Hl in E as [?|Hin]; [done|].
    by rewrite (meta_header_not_reserved _ _ _ Ht Hin) in Hk. }
  cbn [foldl ChecksumAlgorithm_ALL]. unfold store_checksum. split.
  - repeat (apply insert_some_btree; [by vm_compute| |]); [..|done];
      try (intros v Hv; destruct (expected_get e _); [|done]; injection Hv as <-; apply base64_utf8);
      intros v ->; first [by eapply stored_content_encoding_utf8 | by eapply one_header_utf8].
  - intros n v Hn. rewrite !lookup_insert_some, !bool_decide_eq_false_2 by (by intros <-).
    rewrite Hl. split; [|by right]. by intros [?|?].
  - rewrite !lookup_insert_some. simpl (bool_decide _). rewrite Hr by done. rewrite Hcc. by destruct cc.
  - rewrite !lookup_insert_some. simpl (bool_decide _). rewrite Hr by done. rewrite Hex. by destruct ex.
  - rewrite !lookup_insert_some. simpl (bool_decide _). rewrite Hr by done. rewrite Hce. by destruct ce.
  - intros a. rewrite !lookup_insert_some.
    destruct a; simpl (bool_decide _); cbv iota; rewrite Hr by done; by destruct (expected_get e _).
Qed.

(** ** The headers of a response *)

Lemma from_stored_meta_key_Some name a : from_stored_meta_key name = Some a <-> name = stored_meta_key a.
Proof.
  unfold from_stored_meta_key. split; [|intros ->; by destruct a].
  intros E. apply find_some in E as [_ E%bool_decide_eq_true]. done.
Qed.

Lemma stored_header_user inc k w n v :
  stored_header inc (k, w) = Some (bs "x-amz-meta-" ++ n, v) <->
  k = n /\ w = v /\ starts_with n (bs "@pgs3:") = false.
Proof.
  unfold stored_header. split.
  - repeat case_bool_decide; try done; try by case_match.
    destruct (from_stored_meta_key k) as [[]|]; try by case_match.
    destruct (starts_with k (bs "@pgs3:")) eqn:E; [done|]. by intros [= -> ->].
  - intros (-> & -> & Hn). rewrite !bool_decide_eq_false_2 by (by intros ->).
    destruct (from_stored_meta_key n) as [a|] eqn:E.
    + apply from_stored_meta_key_Some in E as ->. by destruct a.
    + by rewrite Hn.
Qed.

(** A header that stands for one reserved key. *)
Lemma stored_header_reserved inc k w name v : name ∈ [bs "cache-control"; bs "expires"; bs "content-encoding"] ->
  stored_header inc (k, w) = Some (name, v) <-> k = bs "@pgs3:" ++ name /\ w = v.
Proof.
  rewrite !elem_of_cons, elem_of_nil. unfold stored_header. intros Hname. split.
  - destruct Hname as [->|[->|[->|[]]]]; repeat case_bool_decide; subst;
      first [ by intros [= ->]; split; reflexivity | by intros [=]
            | by case_match | by destruct (from_stored_meta_key k) as [[]|]; case_match ].
  - intros [-> ->]. by destruct Hname as [->|[->|[->|[]]]].
Qed.

Lemma stored_header_checksum inc k w a v :
  stored_header inc (k, w) = Some (checksum_header_of a, v) <->
  k = stored_meta_key a /\ w = v /\ inc = true /\ valid_stored_checksum a w = true.
Proof.
  unfold stored_header. split.
  - repeat case_bool_decide; try by destruct inc, a.
    destruct (from_stored_meta_key k) as [b|] eqn:E; [|case_match; [done|by destruct a]].
    apply from_stored_meta_key_Some in E as ->. destruct (inc && _) eqn:Ei; [|done].
    apply andb_true_iff in Ei as [-> Hv]. intros [= Ec <-].
    assert (b = a) as -> by (by destruct a, b). done.
  - intros (-> & -> & -> & Hv).
    rewrite !bool_decide_eq_false_2 by (by destruct a).
    rewrite (proj2 (from_stored_meta_key_Some _ a) eq_refl). by rewrite Hv.
Qed.

Lemma valid_stored_base64 a d : len d = decoded_length a -> valid_stored_checksum a (base64_encode d) = true.
Proof.
  intros Hd. unfold valid_stored_checksum.
  rewrite (proj2 (decode_checksum_value_Ok _ _ _ d)); [done|]. by rewrite base64_roundtrip.
Qed.

Lemma elem_of_shown inc (md : list (bytes * bytes)) n v :
  (n, v) ∈ omap (stored_header inc) md <-> exists k w, (k, w) ∈ md /\ stored_header inc (k, w) = Some (n, v).
Proof.
  rewrite list_elem_of_omap. split; [intros ([k w] & Hin & E)|intros (k & w & Hin & E)]; eauto.
Qed.

(** C24: Object metadata makes the round trip: the JSON text a PUT stores is an
    object of distinct names, and when the database renders those pairs in
    any order, with any JSON white space and each character spelt as itself,
    by a short escape or by the four digits of its code (a pair of surrogate
    escapes is not among the spellings: the parser refuses it and the response
    has no stored header at all, [surrogate_escape_drops]), a response carries
    after the object's own headers exactly the request's [x-amz-meta-*] headers, its
    [Cache-Control], [Expires] and application [Content-Encoding], and, on a
    status of 200 with checksums asked for, the checksums of its headers. *)
Theorem metadata_roundtrip (head : bytes) (lim : HeadLimits) (r : RequestHead) (mode : PayloadMode)
    (e : ExpectedChecksums) (json : bytes) (fmt_http_date : SystemTime -> bytes) :
  parse_complete_head head lim = Ok r -> expected_checksums (headers r) mode = Ok e ->
  put_metadata_json (headers r) e = Ok json ->
  exists md, json_object md json /\ NoDup md.*1 /\
  forall md' response info checksum_mode, Permutation md md' -> json_object md' (meta_json info) ->
  exists shown,
    resp_headers (object_headers fmt_http_date response info checksum_mode)
    = resp_headers response
      ++ [(bs "etag", quoted (obj_etag info));
          (bs "last-modified", fmt_http_date (system_time (obj_created_ms info)));
          (bs "x-amz-version-id", show_Z (obj_version_id info));
          (bs "content-type", default (bs "application/octet-stream") (obj_content_type info));
          (bs "accept-ranges", bs "bytes")] ++ shown /\
    forall v,
      (forall n, (bs "x-amz-meta-" ++ n, v) ∈ shown <-> meta_header n v ∈ fields (headers r)) /\
      ((bs "cache-control", v) ∈ shown <-> one_header (headers r) (bs "cache-control") = Ok (Some v)) /\
      ((bs "expires", v) ∈ shown <-> one_header (headers r) (bs "expires") = Ok (Some v)) /\
      ((bs "content-encoding", v) ∈ shown <-> stored_content_encoding (headers r) = Ok (Some v)) /\
      (forall a, (checksum_header_of a, v) ∈ shown <->
         checksum_mode = true /\ status response = 200 /\
         exists d, expected_get e a = Some d /\ v = base64_encode d).
Proof.
  intros Hp He Hj. apply Ok_bind in Hj as (md & Hm & [= <-]). apply parse_complete_head_wf in Hp.
  assert (Ht : Forall (fun f => forallb is_tchar (header_name f) = true) (fields (headers r))).
  { eapply Forall_impl; [exact (wf_fields _ _ Hp)|]. by intros f []. }
  pose proof (metadata_map_stores _ _ _ Hm Ht) as [Hb Hu Hc Hx Hn Hs].
  exists md. split; [by apply render_metadata_object, btree_text|]. split; [by apply btree_nodup|].
  intros md' response info checksum_mode Hperm Hobj. eexists. split.
  { cbn [object_headers resp_headers]. rewrite (parse_metadata_object _ _ Hobj). reflexivity. }
  assert (Hl : forall k w, (k, w) ∈ md' <-> btree_lookup k md = Some w) by (intros; by apply elem_of_permuted_lookup).
  assert (Hres : forall name v inc, name ∈ [bs "cache-control"; bs "expires"; bs "content-encoding"] ->
    (name, v) ∈ omap (stored_header inc) md' <-> btree_lookup (bs "@pgs3:" ++ name) md = Some v).
  { intros name v inc Hname. rewrite elem_of_shown. setoid_rewrite Hl.
    setoid_rewrite stored_header_reserved; [|done]. naive_solver. }
  intros v. split; [|split; [|split; [|split]]].
  - intros n. rewrite elem_of_shown. setoid_rewrite Hl. setoid_rewrite stored_header_user. split.
    + intros (k & w & Hk & -> & -> & Hr). by apply Hu.
    + intros Hin. pose proof (meta_header_not_reserved _ _ _ Ht Hin) as Hr.
      exists n, v. split; [by apply Hu|done].
  - rewrite Hres by (by left). rewrite Hc. split; [intros E; f_equal; exact E|intros [= E]; exact E].
  - rewrite Hres by (right; by left). rewrite Hx. split; [intros E; f_equal; exact E|intros [= E]; exact E].
  - rewrite Hres by (right; right; by left). rewrite Hn. split; [intros E; f_equal; exact E|intros [= E]; exact E].
  - intros a. rewrite elem_of_shown. setoid_rewrite Hl. setoid_rewrite stored_header_checksum. split.
    + intros (k & w & Hk & -> & -> & [-> Hst%Z.eqb_eq]%andb_true_iff & _). rewrite Hs in Hk.
      destruct (expected_get e a) as [d|]; [|done]. injection Hk as <-. eauto.
    + intros (-> & -> & d & Hd & ->). exists (stored_meta_key a), (base64_encode d).
      rewrite Hs, Hd. repeat split. apply valid_stored_base64.
      apply expected_checksums_Ok in He as (_ & Hst & _). destruct (Hst a) as ([t|] & _ & Hv); rewrite Hd in Hv; [|done].
      by destruct Hv as (w & [= <-] & _ & Hlen).
Qed.
End Stored.

(** * Examples *)

Definition sample_put : bytes :=
  join crlf [bs "PUT /photos/cat HTTP/1.1"; bs "Host: s3.example"; bs "X-Amz-Meta-Color: red";
             bs "Cache-Control: no-cache"; bs "Content-Encoding: gzip,aws-chunked"].

Definition sample_stored : list (bytes * bytes) :=
  [(bs "@pgs3:cache-control", bs "no-cache"); (bs "@pgs3:content-encoding", bs "gzip"); (bs "color", bs "red")].

(** The same pairs as a database may render them: in its own order and
    spacing, one character spelt by its code. *)
Definition sample_rendered : bytes :=
  bs "{" ++ json_string (bs "color") ++ bs ": " ++ (QUOTE :: bs "r\u0065d" ++ [QUOTE])
  ++ bs ", " ++ json_string (bs "@pgs3:cache-control") ++ bs ": " ++ json_string (bs "no-cache")
  ++ bs ", " ++ json_string (bs "@pgs3:content-encoding") ++ bs ": " ++ json_string (bs "gzip") ++ bs "}".

Lemma one_space : spaces [x20].
Proof. repeat constructor. Qed.

Lemma red_escaped : json_quoted (bs "red") (QUOTE :: bs "r\u0065d" ++ [QUOTE]).
Proof.
  exists (bs "r\u0065d"). split; [done|].
  assert (Hraw : forall b, 97 <= bval b < 123 -> json_char [b] [b]).
  { intros b Hb. apply raw_ascii; [lia|intros ->; vm_compute in Hb; by destruct Hb..]. }
  apply (json_cons [x72] [x72]); [by apply Hraw|].
  apply (json_cons [x65] [x5c; x75; x30; x30; x36; x35]).
  - by apply (escaped_code x30 x30 x36 x35 0 0 6 5); [apply hex_of_digit..|apply (utf8_one x65)].
  - apply (json_cons [x64] [x64]); [by apply Hraw|apply json_nil].
Qed.

Lemma sample_rendered_object :
  json_object [(bs "color", bs "red"); (bs "@pgs3:cache-control", bs "no-cache");
               (bs "@pgs3:content-encoding", bs "gzip")] sample_rendered.
Proof.
  assert (Hn : spaces []) by apply List.Forall_nil. pose proof one_space as Hs.
  assert (Hm : forall w1 (p : bytes * bytes) tv, spaces w1 -> utf8_valid p.1 = true -> json_quoted p.2 tv ->
    json_member p (w1 ++ json_string p.1 ++ x3a :: x20 :: tv)).
  { intros w1 p tv H1 Hp Hv. exists w1, (json_string p.1), [], [x20], tv, [].
    do 4 (split; [done|]). split; [by apply json_string_quoted|]. split; [done|]. by rewrite app_nil_r. }
  eexists [], _, []. split; [done|]. split; [done|]. split; cycle 1.
  - right. apply more_members; [apply (Hm []); [done|done|exact red_escaped]|].
    apply more_members; [apply (Hm [x20]); [done|done|by apply json_string_quoted]|].
    apply last_member, (Hm [x20]); [done|done|by apply json_string_quoted].
  - by vm_compute.
Qed.

Lemma surrogate_escape_drops :
  parse_metadata_json (bs "{" ++ json_string (bs "color") ++ bs ":" ++ json_string (bs "red") ++ bs ","
    ++ json_string (bs "face") ++ bs ":" ++ (QUOTE :: bs "\ud83d\ude00" ++ [QUOTE]) ++ bs "}") = [].
Proof. by vm_compute. Qed.

Definition sample_record : ObjectRecord :=
  {| obj_bucket := bs "photos"; obj_key := bs "cat"; obj_version_id := 7; obj_size := 3;
     obj_etag := bs "0123456789abcdef"; obj_sha256 := []; obj_content_type := None;
     meta_json := sample_rendered; obj_created_ms := 0 |}.

Lemma metadata_roundtrip_witness : exists r shown,
  parse_complete_head sample_put default_head_limits = Ok r /\
  put_metadata_json (H := sample_hash) (headers r) default_expected = Ok (render_metadata sample_stored) /\
  resp_headers (object_headers (H := sample_hash) (fun _ => []) (ServiceResponse_empty 200) sample_record false)
  = [(bs "etag", quoted (bs "0123456789abcdef")); (bs "last-modified", []); (bs "x-amz-version-id", bs "7");
     (bs "content-type", bs "application/octet-stream"); (bs "accept-ranges", bs "bytes")] ++ shown /\
  (bs "x-amz-meta-color", bs "red") ∈ shown /\ (bs "cache-control", bs "no-cache") ∈ shown /\
  (bs "content-encoding", bs "gzip") ∈ shown /\ (bs "expires", []) ∉ shown.
Proof.
  destruct (parse_complete_head sample_put default_head_limits) as [r|] eqn:E; [|by vm_compute in E].
  assert (Hput : put_metadata_json (H := sample_hash) (headers r) default_expected = Ok (render_metadata sample_stored))
    by (vm_compute in E; injection E as <-; by vm_compute).
  destruct (@metadata_roundtrip sample_hash sample_put default_head_limits r UnsignedPayload default_expected
              (render_metadata sample_stored) (fun _ => [])) as (md & Hj & _ & Hres).
  - done.
  - vm_compute in E. injection E as <-. by vm_compute.
  - done.
  - apply parse_metadata_object in Hj.
    assert (md = sample_stored) as -> by (rewrite <- Hj; by vm_compute).
    assert (Hperm : Permutation sample_stored
      [(bs "color", bs "red"); (bs "@pgs3:cache-control", bs "no-cache"); (bs "@pgs3:content-encoding", bs "gzip")]).
    { symmetry. apply (Permutation_cons_append [_; _]). }
    destruct (Hres _ (ServiceResponse_empty 200) sample_record false Hperm sample_rendered_object)
      as (shown & Hshown & Hv).
    exists r, shown. split; [done|]. split; [done|]. split; [exact Hshown|].
    vm_compute in E. injection E as <-.
    split; [apply (Hv (bs "red")); repeat constructor|]. split; [by apply (Hv (bs "no-cache"))|].
    split; [by apply (Hv (bs "gzip"))|]. intros Hx. by apply (Hv []) in Hx.
Defined.
