(* ===== verification/ListXml.v ===== *)
(** The list documents of [src/src/s3/xml.rs]: objects (both versions of the
    operation), versions and parts.  The theorems read the documents back with
    the scanner of [XmlWrite], decode the encoded keys, and follow the markers
    of a part listing from page to page. *)
From stdpp Require Import sorting.
From S2P Require Import Prelude Text Http Canonical Calendar XmlWrite Route Checksums Database.

(** * The writer of this module *)

(** The [String] a document grows in. *)
Definition push_str (text : bytes) (out : XmlWriter) : XmlWriter := {| xml_bytes := xml_bytes out ++ text |}.

Definition list_escape_byte (b : byte) : bytes :=
  if b ==b x26 then bs "&amp;"
  else if b ==b x3c then bs "&lt;"
  else if b ==b x3e then bs "&gt;"
  else if b ==b QUOTE then bs "&quot;"
  else if b ==b x27 then bs "&apos;"
  else [b].

Definition list_escape (out : XmlWriter) (value : bytes) : XmlWriter :=
  push_str (concat (map list_escape_byte value)) out.

Definition list_element (out : XmlWriter) (name value : bytes) : XmlWriter :=
  let out := push_str (bs ">") (push_str name (push_str (bs "<") out)) in
  let out := list_escape out value in
  push_str (bs ">") (push_str name (push_str (bs "</") out)).

Definition list_document (root : bytes) : XmlWriter :=
  {| xml_bytes := bs "<?xml version=" ++ [QUOTE] ++ bs "1.0" ++ [QUOTE] ++ bs " encoding=" ++ [QUOTE] ++ bs "UTF-8"
       ++ [QUOTE] ++ bs "?><" ++ root ++ bs " xmlns=" ++ [QUOTE] ++ S3_XMLNS ++ [QUOTE] ++ bs ">" |}.

Definition close (out : XmlWriter) (root : bytes) : bytes :=
  xml_bytes (push_str (bs ">") (push_str root (push_str (bs "</") out))).

Definition hex (nibble : Z) : byte := mkb (if nibble <? 10 then 48 + nibble else 65 + nibble - 10).

Definition url_encode_byte (preserve_slashes : bool) (b : byte) : bytes :=
  if is_ascii_alphanumeric b || contains b (bs "-_.~") || (preserve_slashes && (b ==b x2f)) then [b]
  else [x25; hex (Z.shiftr (bval b) 4); hex (Z.land (bval b) 15)].

Definition url_encode_bytes (value : bytes) (preserve_slashes : bool) : bytes :=
  concat (map (url_encode_byte preserve_slashes) value).

Definition url_encode (value : bytes) : bytes := url_encode_bytes value false.

Definition url_encode_preserving_slashes (value : bytes) : bytes := url_encode_bytes value true.

Definition encoded_element (out : XmlWriter) (name value : bytes) (encode : bool) : XmlWriter :=
  if encode then list_element out name (url_encode value) else list_element out name value.

Definition encoded_common_prefix (out : XmlWriter) (value : bytes) (encode : bool) : XmlWriter :=
  if encode then list_element out (bs "Prefix") (url_encode_preserving_slashes value)
  else list_element out (bs "Prefix") value.

Definition bool_text (value : bool) : bytes := if value then bs "true" else bs "false".

Definition write_owner (out : XmlWriter) : XmlWriter :=
  let out := push_str (bs "<Owner>") out in
  let out := list_element out (bs "ID") (bs "pgs3") in
  let out := list_element out (bs "DisplayName") (bs "pgs3") in
  push_str (bs "</Owner>") out.

(** [if let Some(value) = …] around an element. *)
Definition element_if (out : XmlWriter) (name : bytes) (value : option bytes) : XmlWriter :=
  match value with Some value => list_element out name value | None => out end.

(** [as usize] of an [i32]. *)
Definition as_usize (n : Z) : Z := n mod 2 ^ 64.

(** [format!] with quotes around a value. *)
Definition in_quotes (value : bytes) : bytes := QUOTE :: value ++ [QUOTE].

(** * Objects *)

Definition is_list_truncated (max_keys : Z) (records : list ListRecord) : bool :=
  (0 <? max_keys) && (len records =? as_usize max_keys)
  && match last records with Some record => is_some (lr_continuation_token record) | None => false end.

Definition write_common_prefix (out : XmlWriter) (prefix : bytes) (encode : bool) : XmlWriter :=
  let out := push_str (bs "<CommonPrefixes>") out in
  let out := encoded_common_prefix out prefix encode in
  push_str (bs "</CommonPrefixes>") out.

Definition append_list_record (encode : bool) (out : XmlWriter) (record : ListRecord) : XmlWriter :=
  match lr_common_prefix record with
  | Some prefix => write_common_prefix out prefix encode
  | None =>
      let out := push_str (bs "<Contents>") out in
      let out := encoded_element out (bs "Key") (default [] (lr_key record)) encode in
      let out := element_if out (bs "LastModified") (option_map iso8601 (lr_last_modified_ms record)) in
      let out := list_element out (bs "ETag") (in_quotes (default [] (lr_etag record))) in
      let out := list_element out (bs "Size") (show_Z (default 0 (lr_size record))) in
      let out := list_element out (bs "StorageClass") (bs "STANDARD") in
      push_str (bs "</Contents>") out
  end.

Definition append_list_records (out : XmlWriter) (records : list ListRecord) (encode : bool) : XmlWriter :=
  foldl (append_list_record encode) out records.

(** [record.key.as_deref().or(record.common_prefix.as_deref())] *)
Definition record_name (record : ListRecord) : option bytes :=
  match lr_key record with Some key => Some key | None => lr_common_prefix record end.

Definition list_objects_v1 (bucket : bytes) (params : ListParams) (records : list ListRecord) : bytes :=
  let truncated := is_list_truncated (list_max_keys params) records in
  let out := list_document (bs "ListBucketResult") in
  let out := list_element out (bs "Name") bucket in
  let out := list_element out (bs "Prefix") (prefix params) in
  let out := encoded_element out (bs "Marker") (default [] (marker params)) (encoding_type_url params) in
  let out :=
    if truncated
    then encoded_element out (bs "NextMarker")
           (default [] (match last records with Some record => record_name record | None => None end))
           (encoding_type_url params)
    else out in
  let out := list_element out (bs "MaxKeys") (show_Z (list_max_keys params)) in
  let out := element_if out (bs "Delimiter") (delimiter params) in
  let out := if encoding_type_url params then list_element out (bs "EncodingType") (bs "url") else out in
  let out := list_element out (bs "IsTruncated") (bool_text truncated) in
  let out := append_list_records out records (encoding_type_url params) in
  close out (bs "ListBucketResult").

Definition list_objects_v2 (bucket : bytes) (params : ListParams) (records : list ListRecord) : bytes :=
  let truncated := is_list_truncated (list_max_keys params) records in
  let out := list_document (bs "ListBucketResult") in
  let out := list_element out (bs "Name") bucket in
  let out := list_element out (bs "Prefix") (prefix params) in
  let out := list_element out (bs "MaxKeys") (show_Z (list_max_keys params)) in
  let out := list_element out (bs "KeyCount") (show_Z (len records)) in
  let out := element_if out (bs "Delimiter") (delimiter params) in
  let out := element_if out (bs "ContinuationToken") (requested_continuation_token params) in
  let out :=
    match requested_start_after params with
    | Some start_after => encoded_element out (bs "StartAfter") start_after (encoding_type_url params)
    | None => out
    end in
  let out := if encoding_type_url params then list_element out (bs "EncodingType") (bs "url") else out in
  let out := list_element out (bs "IsTruncated") (bool_text truncated) in
  let out :=
    if truncated
    then element_if out (bs "NextContinuationToken")
           (match last records with Some record => lr_continuation_token record | None => None end)
    else out in
  let out := append_list_records out records (encoding_type_url params) in
  close out (bs "ListBucketResult").

(** * Versions *)

Definition versions_truncated (params : VersionListParams) (records : list VersionRecord) : bool :=
  (0 <? v_max_keys params) && (len records =? as_usize (v_max_keys params))
  && match last records with Some record => is_some (vr_next_key_marker record) | None => false end.

Definition write_version (encode : bool) (out : XmlWriter) (record : VersionRecord) : XmlWriter :=
  match vr_common_prefix record with
  | Some prefix => write_common_prefix out prefix encode
  | None =>
      let is_marker := match vr_delete_marker record with Some true => true | _ => false end in
      let tag := if is_marker then bs "DeleteMarker" else bs "Version" in
      let out := push_str (bs ">") (push_str tag (push_str (bs "<") out)) in
      let out := encoded_element out (bs "Key") (default [] (vr_key record)) encode in
      let out := list_element out (bs "VersionId") (show_Z (default 0 (vr_version_id record))) in
      let out := list_element out (bs "IsLatest") (bool_text (default false (vr_is_latest record))) in
      let out := element_if out (bs "LastModified") (option_map iso8601 (vr_last_modified_ms record)) in
      let out :=
        if tag ==b bs "Version" then
          let out := list_element out (bs "ETag") (in_quotes (default [] (vr_etag record))) in
          let out := list_element out (bs "Size") (show_Z (default 0 (vr_size record))) in
          let out := write_owner out in
          list_element out (bs "StorageClass") (bs "STANDARD")
        else write_owner out in
      push_str (bs ">") (push_str tag (push_str (bs "</") out))
  end.

Definition write_next_markers (encode : bool) (out : XmlWriter) (record : VersionRecord) : XmlWriter :=
  let out :=
    match vr_next_key_marker record with
    | Some marker => encoded_element out (bs "NextKeyMarker") marker encode
    | None => out
    end in
  element_if out (bs "NextVersionIdMarker") (option_map show_Z (vr_next_version_id_marker record)).

Definition list_versions (bucket : bytes) (params : VersionListParams) (records : list VersionRecord) : bytes :=
  let truncated := versions_truncated params records in
  let out := list_document (bs "ListVersionsResult") in
  let out := list_element out (bs "Name") bucket in
  let out := list_element out (bs "Prefix") (v_prefix params) in
  let out := encoded_element out (bs "KeyMarker") (default [] (key_marker params)) (v_encoding_type_url params) in
  let out := element_if out (bs "VersionIdMarker") (option_map show_Z (version_id_marker params)) in
  let out :=
    match (if truncated then last records else None) with
    | Some record => write_next_markers (v_encoding_type_url params) out record
    | None => out
    end in
  let out := list_element out (bs "MaxKeys") (show_Z (v_max_keys params)) in
  let out := element_if out (bs "Delimiter") (v_delimiter params) in
  let out := if v_encoding_type_url params then list_element out (bs "EncodingType") (bs "url") else out in
  let out := list_element out (bs "IsTruncated") (bool_text truncated) in
  let out := foldl (write_version (v_encoding_type_url params)) out records in
  close out (bs "ListVersionsResult").

(** * Parts *)

(** The page of a listing, whether more follow, and the next marker. *)
Definition parts_page (marker max_parts : Z) (parts : list PartRecord) : list PartRecord * bool * Z :=
  let eligible := List.filter (fun part => marker <? pr_part_number part) parts in
  let truncated := as_usize max_parts <? len eligible in
  let page := take (Z.to_nat (as_usize max_parts)) eligible in
  (page, truncated, match last page with Some part => pr_part_number part | None => marker end).

Definition write_part (out : XmlWriter) (part : PartRecord) : XmlWriter :=
  let out := push_str (bs "<Part>") out in
  let out := list_element out (bs "PartNumber") (show_Z (pr_part_number part)) in
  let out := list_element out (bs "LastModified") (iso8601 (pr_completed_ms part)) in
  let out := list_element out (bs "ETag") (in_quotes (pr_etag part)) in
  let out := list_element out (bs "Size") (show_Z (pr_size part)) in
  push_str (bs "</Part>") out.

Definition list_parts (bucket key upload_id : bytes) (marker max_parts : Z) (parts : list PartRecord) : bytes :=
  let '(page, truncated, next_marker) := parts_page marker max_parts parts in
  let out := list_document (bs "ListPartsResult") in
  let out := list_element out (bs "Bucket") bucket in
  let out := list_element out (bs "Key") key in
  let out := list_element out (bs "UploadId") upload_id in
  let out := list_element out (bs "PartNumberMarker") (show_Z marker) in
  let out := if truncated then list_element out (bs "NextPartNumberMarker") (show_Z next_marker) else out in
  let out := list_element out (bs "MaxParts") (show_Z max_parts) in
  let out := list_element out (bs "IsTruncated") (bool_text truncated) in
  let out := foldl write_part out page in
  close out (bs "ListPartsResult").

(** * What the documents say *)

Definition shown_key (encode : bool) (value : bytes) : bytes := if encode then url_encode value else value.

Definition shown_prefix (encode : bool) (value : bytes) : bytes :=
  if encode then url_encode_preserving_slashes value else value.

Definition prefix_tokens (encode : bool) (prefix : bytes) : list token :=
  branch (bs "CommonPrefixes") (leaf (bs "Prefix") (shown_prefix encode prefix)).

Definition record_tokens (encode : bool) (r : ListRecord) : list token :=
  match lr_common_prefix r with
  | Some prefix => prefix_tokens encode prefix
  | None =>
      branch (bs "Contents")
        (leaf (bs "Key") (shown_key encode (default [] (lr_key r)))
         ++ optional_leaf (bs "LastModified") (option_map iso8601 (lr_last_modified_ms r))
         ++ leaf (bs "ETag") (in_quotes (default [] (lr_etag r)))
         ++ leaf (bs "Size") (show_Z (default 0 (lr_size r)))
         ++ leaf (bs "StorageClass") (bs "STANDARD"))
  end.

Definition owner_tokens : list token :=
  branch (bs "Owner") (leaf (bs "ID") (bs "pgs3") ++ leaf (bs "DisplayName") (bs "pgs3")).

Definition version_tokens (encode : bool) (r : VersionRecord) : list token :=
  match vr_common_prefix r with
  | Some prefix => prefix_tokens encode prefix
  | None =>
      let common :=
        leaf (bs "Key") (shown_key encode (default [] (vr_key r)))
        ++ leaf (bs "VersionId") (show_Z (default 0 (vr_version_id r)))
        ++ leaf (bs "IsLatest") (bool_text (default false (vr_is_latest r)))
        ++ optional_leaf (bs "LastModified") (option_map iso8601 (vr_last_modified_ms r)) in
      match vr_delete_marker r with
      | Some true => branch (bs "DeleteMarker") (common ++ owner_tokens)
      | _ =>
          branch (bs "Version")
            (common ++ leaf (bs "ETag") (in_quotes (default [] (vr_etag r)))
             ++ leaf (bs "Size") (show_Z (default 0 (vr_size r))) ++ owner_tokens
             ++ leaf (bs "StorageClass") (bs "STANDARD"))
      end
  end.

Definition part_tokens (p : PartRecord) : list token :=
  branch (bs "Part")
    (leaf (bs "PartNumber") (show_Z (pr_part_number p)) ++ leaf (bs "LastModified") (iso8601 (pr_completed_ms p))
     ++ leaf (bs "ETag") (in_quotes (pr_etag p)) ++ leaf (bs "Size") (show_Z (pr_size p))).

(** Tokens present under a condition. *)
Definition when (b : bool) (ts : list token) : list token := if b then ts else [].

(** ** Reading back *)

Lemma list_escape_byte_escape b : list_escape_byte b = escape_byte b.
Proof. unfold list_escape_byte, escape_byte. by repeat case_bool_decide; subst. Qed.

Lemma list_element_element out name value : list_element out name value = element name value out.
Proof.
  unfold list_element, list_escape, push_str, element, end_, escaped, start, extend_from_slice, escape.
  cbn [xml_bytes]. f_equal. rewrite (map_ext _ _ list_escape_byte_escape), <- !app_assoc. done.
Qed.

Lemma writes_list_element w name v : plain_name name = true -> writes w (list_element w name v) (leaf name v).
Proof. rewrite list_element_element. apply writes_element. Qed.

Lemma writes_encoded w name v e : plain_name name = true ->
  writes w (encoded_element w name v e) (leaf name (shown_key e v)).
Proof. intros. by destruct e; apply writes_list_element. Qed.

Lemma writes_encoded_prefix w v e :
  writes w (encoded_common_prefix w v e) (leaf (bs "Prefix") (shown_prefix e v)).
Proof. by destruct e; apply writes_list_element. Qed.

Lemma writes_element_if w name v : plain_name name = true -> writes w (element_if w name v) (optional_leaf name v).
Proof. destruct v; [apply writes_list_element|intros _; apply writes_refl]. Qed.

Lemma writes_if (b : bool) w w' ts : writes w w' ts -> writes w (if b then w' else w) (when b ts).
Proof. destruct b; [done|intros _; apply writes_refl]. Qed.

Lemma writes_open w text name : text = bs "<" ++ name ++ bs ">" -> plain_name name = true ->
  writes w (push_str text w) [TOpen name []].
Proof. intros -> ?. eexists. split; [done|by apply open_produces]. Qed.

Lemma writes_close w text name : text = bs "</" ++ name ++ bs ">" -> plain_name name = true ->
  writes w (push_str text w) [TClose name].
Proof. intros -> ?. eexists. split; [done|by apply close_produces]. Qed.

Lemma push_str_app a b w : push_str a (push_str b w) = push_str (b ++ a) w.
Proof. unfold push_str. simpl. by rewrite app_assoc. Qed.

Lemma list_document_writes root : plain_name root = true ->
  writes {| xml_bytes := [] |} (list_document root) [TDecl; TOpen root xmlns].
Proof.
  intros Hr. destruct (document_ns_writes root Hr) as (b & E & P). exists b. split; [|done].
  rewrite <- E, document_ns_bytes. unfold list_document. cbn [xml_bytes]. change (bs " xmlns=") with (x20 :: bs "xmlns=").
  rewrite <- !app_assoc. done.
Qed.

Lemma close_tokens root w ts us : plain_name root = true -> writes {| xml_bytes := [] |} w ts ->
  ts ++ [TClose root] = us -> tokens (close w root) = Some us.
Proof.
  intros Hr Hw <-. unfold close. rewrite !push_str_app. apply tokens_of.
  eapply writes_trans; [exact Hw|]. by eapply writes_close.
Qed.

(** One call on the writer, by its head. *)
Ltac list_step :=
  lazymatch goal with
  | |- writes _ (list_element _ _ _) _ => apply writes_list_element; reflexivity
  | |- writes _ (encoded_element _ _ _ _) _ => apply writes_encoded; reflexivity
  | |- writes _ (encoded_common_prefix _ _ _) _ => apply writes_encoded_prefix
  | |- writes _ (element_if _ _ _) _ => apply writes_element_if; reflexivity
  | |- writes _ (push_str (bs ?t) _) _ =>
      first [ apply (writes_open _ (bs t) (take (length (bs t) - 2) (drop 1 (bs t)))); reflexivity
            | apply (writes_close _ (bs t) (take (length (bs t) - 3) (drop 2 (bs t)))); reflexivity ]
  | |- writes _ (if _ then _ else _) _ => apply writes_if; list_step
  | |- writes _ _ _ => solve [eauto with pgs3_xml]
  end.

(** Follows the calls, the last one first. *)
Ltac list_chain :=
  lazymatch goal with
  | |- writes ?w ?w _ => apply writes_refl
  | |- writes _ (list_document _) _ => apply list_document_writes; reflexivity
  | |- writes _ _ _ => eapply writes_trans; [|list_step]; list_chain
  end.

Lemma writes_common_prefix w prefix e : writes w (write_common_prefix w prefix e) (prefix_tokens e prefix).
Proof. unfold write_common_prefix. cbn zeta. eapply writes_eq; [list_chain|]. unfold prefix_tokens. same_tokens. Qed.

Lemma writes_owner w : writes w (write_owner w) owner_tokens.
Proof. unfold write_owner. cbn zeta. eapply writes_eq; [list_chain|]. unfold owner_tokens. same_tokens. Qed.

#[local] Hint Resolve writes_common_prefix writes_owner : pgs3_xml.

Lemma writes_records w l e : writes w (append_list_records w l e) (concat (map (record_tokens e) l)).
Proof.
  apply writes_fold. intros w' r. unfold append_list_record, record_tokens.
  destruct (lr_common_prefix r); [apply writes_common_prefix|]. cbn zeta. eapply writes_eq; [list_chain|]. same_tokens.
Qed.

Lemma writes_tagged w w' tag ts : plain_name tag = true ->
  writes (push_str (bs ">") (push_str tag (push_str (bs "<") w))) w' ts ->
  writes w (push_str (bs ">") (push_str tag (push_str (bs "</") w'))) (branch tag ts).
Proof.
  intros Ht Hw. rewrite !push_str_app in *. rewrite <- ?app_assoc in *.
  apply (writes_trans _ (push_str (bs "<" ++ tag ++ bs ">") w) _ [TOpen tag []]); [by eapply writes_open|].
  eapply writes_trans; [exact Hw|]. by eapply writes_close.
Qed.

Lemma writes_version w e r : writes w (write_version e w r) (version_tokens e r).
Proof.
  unfold write_version, version_tokens. destruct (vr_common_prefix r); [apply writes_common_prefix|]. cbn zeta.
  destruct (vr_delete_marker r) as [[]|]; apply writes_tagged; try reflexivity; simpl (bool_decide _); cbv iota;
    (eapply writes_eq; [list_chain|same_tokens]).
Qed.

Lemma writes_versions w l e : writes w (foldl (write_version e) w l) (concat (map (version_tokens e) l)).
Proof. apply writes_fold. intros. apply writes_version. Qed.

Definition next_marker_tokens (e : bool) (r : VersionRecord) : list token :=
  optional_leaf (bs "NextKeyMarker") (option_map (shown_key e) (vr_next_key_marker r))
  ++ optional_leaf (bs "NextVersionIdMarker") (option_map show_Z (vr_next_version_id_marker r)).

Lemma writes_next_markers w e o :
  writes w (match o with Some r => write_next_markers e w r | None => w end)
    (match o with Some r => next_marker_tokens e r | None => [] end).
Proof.
  destruct o as [r|]; [|apply writes_refl]. unfold write_next_markers, next_marker_tokens. cbn zeta.
  destruct (vr_next_key_marker r); (eapply writes_eq; [list_chain|same_tokens]).
Qed.

Lemma writes_start_after w e o :
  writes w (match o with Some v => encoded_element w (bs "StartAfter") v e | None => w end)
    (optional_leaf (bs "StartAfter") (option_map (shown_key e) o)).
Proof. destruct o; [by apply writes_encoded|apply writes_refl]. Qed.

Lemma writes_parts w l : writes w (foldl write_part w l) (concat (map part_tokens l)).
Proof.
  apply writes_fold. intros w' p. unfold write_part, part_tokens. cbn zeta. eapply writes_eq; [list_chain|same_tokens].
Qed.

#[local] Hint Resolve writes_records writes_versions writes_next_markers writes_start_after writes_parts : pgs3_xml.

Lemma truncated_last max records : is_list_truncated max records = true ->
  exists r t, last records = Some r /\ lr_continuation_token r = Some t.
Proof.
  unfold is_list_truncated. intros [_ H]%andb_true_iff. destruct (last records) as [r|]; [|done].
  destruct (lr_continuation_token r) as [t|] eqn:E; [eauto|done].
Qed.

(** ** Keys *)

Lemma hex_upper n : 0 <= n < 16 -> hex n = hex_char HEX_UPPER n.
Proof.
  intros Hn. assert (Hall : Forall (fun n => hex n = hex_char HEX_UPPER n) (map Z.of_nat (seq 0 16))).
  { by vm_compute; repeat constructor. }
  rewrite Forall_forall in Hall. apply Hall. apply list_elem_of_fmap. exists (Z.to_nat n).
  split; [lia|]. apply list_elem_of_In, in_seq. lia.
Qed.

(** The encoding of keys is the one request targets decode, so a listed key
    can be taken back as it is. *)
Lemma url_encode_byte_aws s b : url_encode_byte s b = aws_encode_byte (negb s) b.
Proof.
  destruct s; [by_bytes (fun b => bool_decide (url_encode_byte true b = aws_encode_byte false b)) b
              |by_bytes (fun b => bool_decide (url_encode_byte false b = aws_encode_byte true b)) b];
    by apply bool_decide_eq_true in H.
Qed.

Lemma url_encode_decodes s v : percent_decode (url_encode_bytes v s) = Ok v.
Proof.
  unfold url_encode_bytes. rewrite (map_ext _ _ (url_encode_byte_aws s)). apply (aws_encode_decodes v (negb s)).
Qed.

(** C26: The listings of objects and versions are read back as the parameters
    of the request, whether the page is truncated with the markers of its last
    row, and one element per row in order, holding what the database returned;
    a truncated page always has a continuation, and keys and prefixes written
    under [encoding-type=url] decode to themselves. *)
Theorem object_listings (bucket : bytes) (p : ListParams) (records : list ListRecord)
    (q : VersionListParams) (versions : list VersionRecord) :
  let e := encoding_type_url p in
  let truncated := is_list_truncated (list_max_keys p) records in
  let f := v_encoding_type_url q in
  let more := versions_truncated q versions in
  tokens (list_objects_v1 bucket p records) =
    Some (namespaced (bs "ListBucketResult")
      (leaf (bs "Name") bucket ++ leaf (bs "Prefix") (prefix p)
       ++ leaf (bs "Marker") (shown_key e (default [] (marker p)))
       ++ when truncated (leaf (bs "NextMarker")
            (shown_key e (default [] (match last records with Some r => record_name r | None => None end))))
       ++ leaf (bs "MaxKeys") (show_Z (list_max_keys p)) ++ optional_leaf (bs "Delimiter") (delimiter p)
       ++ when e (leaf (bs "EncodingType") (bs "url")) ++ leaf (bs "IsTruncated") (bool_text truncated)
       ++ concat (map (record_tokens e) records))) /\
  tokens (list_objects_v2 bucket p records) =
    Some (namespaced (bs "ListBucketResult")
      (leaf (bs "Name") bucket ++ leaf (bs "Prefix") (prefix p) ++ leaf (bs "MaxKeys") (show_Z (list_max_keys p))
       ++ leaf (bs "KeyCount") (show_Z (len records)) ++ optional_leaf (bs "Delimiter") (delimiter p)
       ++ optional_leaf (bs "ContinuationToken") (requested_continuation_token p)
       ++ optional_leaf (bs "StartAfter") (option_map (shown_key e) (requested_start_after p))
       ++ when e (leaf (bs "EncodingType") (bs "url")) ++ leaf (bs "IsTruncated") (bool_text truncated)
       ++ when truncated (optional_leaf (bs "NextContinuationToken")
            (match last records with Some r => lr_continuation_token r | None => None end))
       ++ concat (map (record_tokens e) records))) /\
  (truncated = true -> exists r t, last records = Some r /\ lr_continuation_token r = Some t) /\
  (forall v, percent_decode (shown_key true v) = Ok v /\ percent_decode (shown_prefix true v) = Ok v) /\
  tokens (list_versions bucket q versions) =
    Some (namespaced (bs "ListVersionsResult")
      (leaf (bs "Name") bucket ++ leaf (bs "Prefix") (v_prefix q)
       ++ leaf (bs "KeyMarker") (shown_key f (default [] (key_marker q)))
       ++ optional_leaf (bs "VersionIdMarker") (option_map show_Z (version_id_marker q))
       ++ match (if more then last versions else None) with Some r => next_marker_tokens f r | None => [] end
       ++ leaf (bs "MaxKeys") (show_Z (v_max_keys q)) ++ optional_leaf (bs "Delimiter") (v_delimiter q)
       ++ when f (leaf (bs "EncodingType") (bs "url")) ++ leaf (bs "IsTruncated") (bool_text more)
       ++ concat (map (version_tokens f) versions))).
Proof.
  cbn zeta. split; [|split; [|split; [|split]]].
  - unfold list_objects_v1. cbn zeta. eapply close_tokens; [reflexivity|list_chain|same_tokens].
  - unfold list_objects_v2. cbn zeta. eapply close_tokens; [reflexivity|list_chain|same_tokens].
  - apply truncated_last.
  - intros v. split; apply url_encode_decodes.
  - unfold list_versions. cbn zeta. eapply close_tokens; [reflexivity|list_chain|same_tokens].
Qed.

(** * Pages of parts *)

Definition above (marker : Z) (parts : list PartRecord) : list PartRecord :=
  List.filter (fun part => marker <? pr_part_number part) parts.

(** A client that follows the markers until a page is not truncated. *)
Fixpoint follow_pages (fuel : nat) (marker max_parts : Z) (parts : list PartRecord) : option (list PartRecord) :=
  match fuel with
  | O => None
  | S fuel =>
      let '(page, truncated, next_marker) := parts_page marker max_parts parts in
      if truncated then option_map (app page) (follow_pages fuel next_marker max_parts parts) else Some page
  end.

Definition part_lt (p q : PartRecord) : Prop := pr_part_number p < pr_part_number q.

Lemma above_above m n parts : m <= n -> above n (above m parts) = above n parts.
Proof.
  intros Hmn. unfold above. induction parts as [|p parts IH]; [done|]. simpl.
  destruct (Z.ltb_spec m (pr_part_number p)); simpl; rewrite IH; [done|].
  by destruct (Z.ltb_spec n (pr_part_number p)); [lia|].
Qed.

Lemma above_all m l : Forall (fun p => m < pr_part_number p) l -> above m l = l.
Proof.
  induction 1 as [|p l Hp _ IH]; [done|]. unfold above in *. simpl. by destruct (Z.ltb_spec m (pr_part_number p)); [rewrite IH|lia].
Qed.

Lemma above_sorted m parts : StronglySorted part_lt parts -> StronglySorted part_lt (above m parts).
Proof.
  unfold above. induction 1 as [|p l Hs IH Hf]; [constructor|]. simpl. destruct (m <? pr_part_number p); [|done].
  constructor; [done|]. rewrite Forall_forall in *. intros q [Hq _]%elem_of_filter_list. by apply Hf.
Qed.

Lemma above_last l x d : StronglySorted part_lt (l ++ x :: d) -> above (pr_part_number x) (l ++ x :: d) = d.
Proof.
  induction l as [|p l IH]; simpl; intros Hs; apply StronglySorted_inv in Hs as [Hs Hf].
  - unfold above. simpl. rewrite Z.ltb_irrefl. by apply above_all.
  - assert (part_lt p x) by (rewrite Forall_forall in Hf; apply Hf, elem_of_app; right; by left).
    unfold part_lt in *. unfold above in *. simpl. destruct (Z.ltb_spec (pr_part_number x) (pr_part_number p)); [lia|].
    by apply IH.
Qed.

Lemma as_usize_id n : 0 <= n <= i32_max -> as_usize n = n.
Proof. unfold as_usize, i32_max. intros. apply Z.mod_small. lia. Qed.

Lemma follow_pages_all fuel : forall marker max_parts parts, StronglySorted part_lt parts ->
  1 <= max_parts <= i32_max -> (length (above marker parts) < fuel)%nat ->
  follow_pages fuel marker max_parts parts = Some (above marker parts).
Proof.
  induction fuel as [|fuel IH]; intros marker max_parts parts Hs Hm Hf; [lia|]. cbn [follow_pages].
  unfold parts_page. fold (above marker parts). rewrite as_usize_id by lia.
  set (l := above marker parts) in *. destruct (Z.ltb_spec max_parts (len l)) as [Ht|Ht].
  - destruct (last (take (Z.to_nat max_parts) l)) as [x|] eqn:Hx.
    + apply last_Some in Hx as (p & Hp).
      assert (El : l = p ++ x :: drop (Z.to_nat max_parts) l).
      { rewrite <- (take_drop (Z.to_nat max_parts) l) at 1. rewrite Hp, <- app_assoc. done. }
      assert (Hn : above (pr_part_number x) parts = drop (Z.to_nat max_parts) l).
      { rewrite <- (above_above marker).
        - fold l. pose proof (above_sorted marker parts Hs) as Hl. fold l in Hl. rewrite El in Hl.
          rewrite El at 1. by apply above_last.
        - assert (Hin : x ∈ l) by (rewrite El; apply elem_of_app; right; by left).
          apply elem_of_filter_list in Hin as [_ Hin%Z.ltb_lt]. lia. }
      rewrite IH; [|done|done|].
      * rewrite Hn. simpl. by rewrite take_drop.
      * rewrite Hn, length_drop. unfold len in Ht. lia.
    + apply last_None in Hx. apply (f_equal length) in Hx. rewrite length_take in Hx. simpl in Hx. unfold len in Ht. lia.
  - rewrite take_ge; [done|]. unfold len in Ht. lia.
Qed.

(** A page of no part moves the marker nowhere. *)
Lemma follow_pages_stuck marker parts part : part ∈ parts -> marker < pr_part_number part ->
  forall fuel, follow_pages fuel marker 0 parts = None.
Proof.
  intros Hin Hp. assert (Hl : 0 < len (above marker parts)).
  { unfold len. destruct (above marker parts) eqn:E; simpl; [|lia].
    assert (Ha : part ∈ above marker parts) by (apply elem_of_filter_list; by split; [|apply Z.ltb_lt]).
    rewrite E in Ha. by apply elem_of_nil in Ha. }
  induction fuel as [|fuel IH]; [done|]. cbn [follow_pages]. unfold parts_page. fold (above marker parts).
  change (as_usize 0) with 0. rewrite (proj2 (Z.ltb_lt _ _) Hl).
  change (option_map (app []) (follow_pages fuel marker 0 parts) = None). by rewrite IH.
Qed.

(** C25: The parts of an upload, which the database lists in ascending order,
    are read back page by page: for every [max-parts] from 0 the document
    holds at most that many parts with what the database returned. When
    [max-parts] is at least 1, a client that follows the markers from any part
    number receives every later part once, in order, within one request per
    part and one more. When it is 0 the page is empty, [NextPartNumberMarker]
    repeats the marker of the request, and the listing is called truncated
    whenever a later part exists, so such a client never ends: no number of
    requests is enough. *)
Theorem part_listing (bucket key upload_id : bytes) (marker max_parts : Z) (parts : list PartRecord) :
  StronglySorted part_lt parts -> 0 <= max_parts <= i32_max ->
  (let '(page, truncated, next_marker) := parts_page marker max_parts parts in
   len page <= max_parts /\
   tokens (list_parts bucket key upload_id marker max_parts parts) =
     Some (namespaced (bs "ListPartsResult")
       (leaf (bs "Bucket") bucket ++ leaf (bs "Key") key ++ leaf (bs "UploadId") upload_id
        ++ leaf (bs "PartNumberMarker") (show_Z marker)
        ++ when truncated (leaf (bs "NextPartNumberMarker") (show_Z next_marker))
        ++ leaf (bs "MaxParts") (show_Z max_parts) ++ leaf (bs "IsTruncated") (bool_text truncated)
        ++ concat (map part_tokens page)))) /\
  (1 <= max_parts ->
   follow_pages (S (length parts)) marker max_parts parts
   = Some (List.filter (fun part => marker <? pr_part_number part) parts)) /\
  (max_parts = 0 ->
   (exists truncated, parts_page marker max_parts parts = ([], truncated, marker)) /\
   ((exists part, part ∈ parts /\ marker < pr_part_number part) ->
    forall fuel, follow_pages fuel marker max_parts parts = None)).
Proof.
  intros Hs Hm. split; [|split].
  - unfold list_parts. destruct (parts_page marker max_parts parts) as [[page truncated] next] eqn:E. split.
    + injection E as <- _ _. rewrite as_usize_id by lia. unfold len. rewrite length_take. lia.
    + cbn zeta. eapply close_tokens; [reflexivity|list_chain|same_tokens].
  - intros H1. apply follow_pages_all; [done|lia|]. unfold above.
    pose proof (List.filter_length_le (fun part => marker <? pr_part_number part) parts). lia.
  - intros ->. split; [by eexists|]. intros (part & Hin & Hp) fuel. by eapply follow_pages_stuck.
Qed.

Definition sample_parts : list PartRecord :=
  map (fun n => {| pr_part_number := n; pr_size := 5; pr_etag := bs "e"; pr_sha256 := []; pr_completed_ms := 0 |}) [1; 2; 5].

Lemma part_listing_witness :
  follow_pages 4 1 1 sample_parts = Some (drop 1 sample_parts) /\
  (forall fuel, follow_pages fuel 1 0 sample_parts = None).
Proof.
  assert (Hs : StronglySorted part_lt sample_parts) by (repeat constructor).
  split.
  - by apply (part_listing (bs "b") (bs "k") (bs "u") 1 1 sample_parts); [|unfold i32_max; lia|].
  - apply (part_listing (bs "b") (bs "k") (bs "u") 1 0 sample_parts); [done|unfold i32_max; lia|done|].
    eexists. split; [right; by left|by vm_compute].
Defined.
