(* ===== verification/PgDatabase.v ===== *)
(** [PgDatabase], the implementation of the [Database] trait in
    [src/src/s3/db.rs]: every method as the transaction it runs, with its
    statements, their arguments and the decoding of their rows.

    What the methods ask of PostgreSQL are the effects [Spi]: statements, the
    boundaries of transactions and the statement timer.  A PostgreSQL ERROR
    leaves the body of a transaction at once; [catch_others] is where it
    arrives.

    The theorems: every method keeps the rules of a request, that is one
    transaction, under the role of the call, with the timer armed, closed
    whatever happens, and none on a standby that would write; rows are decoded
    to the records they came from; and a listing is truncated exactly when
    there is more. *)
From S2P Require Import Prelude Text Effects XmlWrite Types Route Checksums ListXml Database.

(** * Statements and rows *)

(** A value of a statement, as an argument or in a row. *)
Inductive Datum :=
| DText (text : bytes)
| DBytea (data : bytes)
| DBigint (n : Z)
| DInteger (n : Z)
| DBoolean (b : bool)
| DTexts (texts : list bytes)
| DByteas (datas : list bytes)
| DBigints (ns : list (option Z))
| DIntegers (ns : list Z)
| DNull.

#[export] Instance Datum_eq_decision : EqDecision Datum.
Proof. solve_decision. Defined.

Abbreviation Row := (list Datum).

(** [Option::into] *)
Definition nullable {A} (datum : A -> Datum) (value : option A) : Datum :=
  match value with Some a => datum a | None => DNull end.

(** An error report of PostgreSQL. *)
Record Report := { report_message : bytes; sql_error_code : Z; report_detail : option bytes }.

Inductive Reply :=
| Rows (rows : list Row)
| SpiFailure (error : bytes)
| Raised (report : Report).

(** [client.select] and [client.update] are [Query false] and [Query true]. *)
Inductive Spi : Type -> Type :=
| RecoveryInProgress : Spi bool
| StatementTimeoutMs : Spi Z
| DisableTimeout : Spi unit
| EnableTimeoutAfter (delay_ms : Z) : Spi unit
| StartTransaction : Spi unit
| CommitTransaction : Spi (option Report)
| AbortCurrentTransaction : Spi unit
| Query (update : bool) (sql : bytes) (limit : option Z) (args : list Datum) : Spi Reply.

Abbreviation InSpi := (Eff Spi).

(** What leaves a transaction's body without a value. *)
Inductive Failure :=
| Failed (error : DbError)
| Threw (report : Report).

Definition DbError_spi (error : bytes) : DbError :=
  {| db_message := bs "SPI failure: " ++ error; sqlstate := None; detail := None |}.

Definition caught_error (report : Report) : DbError :=
  {| db_message := report_message report; sqlstate := Some (unpack_sqlstate (sql_error_code report));
     detail := report_detail report |}.

(** ** Columns *)

(** The types a column is read as: [String], [Vec<u8>], [i64], [i32], [bool]. *)
Inductive Column : Type -> Type :=
| AsText : Column bytes
| AsBytea : Column bytes
| AsBigint : Column Z
| AsInteger : Column Z
| AsBoolean : Column bool.

(** [None] for a datum of another type, [Some None] for a null. *)
Definition from_datum {T} (c : Column T) (d : Datum) : option (option T) :=
  match d with
  | DNull => Some None
  | d =>
      match c in Column T return option (option T) with
      | AsText => match d with DText t => Some (Some t) | _ => None end
      | AsBytea => match d with DBytea t => Some (Some t) | _ => None end
      | AsBigint => match d with DBigint n => Some (Some n) | _ => None end
      | AsInteger => match d with DInteger n => Some (Some n) | _ => None end
      | AsBoolean => match d with DBoolean b => Some (Some b) | _ => None end
      end
  end.

(** Why a column cannot be read. *)
Inductive ColumnProblem := NoRow | NoColumn | WrongType.

Section PgDatabase.
(** The texts of these errors of the SPI layer. *)
Context (spi_error : ColumnProblem -> bytes).

(** [row.value(ordinal)] on the current row, if there is one. *)
Definition value {T} (c : Column T) (row : option Row) (ordinal : nat) : result DbError (option T) :=
  match row with
  | None => Err (DbError_spi (spi_error NoRow))
  | Some columns =>
      match columns !! (ordinal - 1)%nat with
      | None => Err (DbError_spi (spi_error NoColumn))
      | Some d => match from_datum c d with Some v => Ok v | None => Err (DbError_spi (spi_error WrongType)) end
      end
  end.

Definition optional {T} (c : Column T) (row : option Row) (ordinal : nat) : result DbError (option T) := value c row ordinal.

Definition required {T} (c : Column T) (row : option Row) (ordinal : nat) : result DbError T :=
  let* v := value c row ordinal in
  match v with
  | Some t => Ok t
  | None =>
      Err (DbError_internal (bs "semantic SQL unexpectedly returned NULL at column " ++ show_Z (Z.of_nat ordinal)))
  end.

Definition object_record (row : option Row) (offset : nat) : result DbError ObjectRecord :=
  let* bucket := required AsText row (offset + 1) in
  let* key := required AsText row (offset + 2) in
  let* version_id := required AsBigint row (offset + 3) in
  let* size := required AsBigint row (offset + 4) in
  let* etag := required AsText row (offset + 5) in
  let* sha256 := required AsBytea row (offset + 6) in
  let* content_type := optional AsText row (offset + 7) in
  let* meta := required AsText row (offset + 8) in
  let* created_ms := required AsBigint row (offset + 9) in
  Ok {| obj_bucket := bucket; obj_key := key; obj_version_id := version_id; obj_size := size; obj_etag := etag;
        obj_sha256 := sha256; obj_content_type := content_type; meta_json := meta; obj_created_ms := created_ms |}.

Definition delete_record (row : option Row) : result DbError DeleteRecord :=
  let* key := required AsText row 1 in
  let* version_id := required AsBigint row 2 in
  let* delete_marker := required AsBoolean row 3 in
  let* deleted := required AsBoolean row 4 in
  Ok {| deleted_key := key; deleted_version_id := version_id; deleted_marker := delete_marker; was_deleted := deleted |}.

Definition part_record (row : option Row) : result DbError PartRecord :=
  let* part_number := required AsInteger row 1 in
  let* size := required AsBigint row 2 in
  let* etag := required AsText row 3 in
  let* sha256 := required AsBytea row 4 in
  let* completed_ms := required AsBigint row 5 in
  Ok {| pr_part_number := part_number; pr_size := size; pr_etag := etag; pr_sha256 := sha256;
        pr_completed_ms := completed_ms |}.

Definition bucket_record (row : option Row) : result DbError BucketRecord :=
  let* name := required AsText row 1 in
  let* owner := required AsText row 2 in
  let* created_ms := required AsBigint row 3 in
  Ok {| bucket_name := name; owner := owner; bucket_created_ms := created_ms |}.

Definition list_record (row : option Row) : result DbError ListRecord :=
  let* key := optional AsText row 1 in
  let* common_prefix := optional AsText row 2 in
  let* version_id := optional AsBigint row 3 in
  let* size := optional AsBigint row 4 in
  let* etag := optional AsText row 5 in
  let* last_modified_ms := optional AsBigint row 6 in
  let* token := optional AsText row 7 in
  Ok {| lr_key := key; lr_common_prefix := common_prefix; lr_version_id := version_id; lr_size := size;
        lr_etag := etag; lr_last_modified_ms := last_modified_ms; lr_continuation_token := token |}.

Definition version_record (row : option Row) : result DbError VersionRecord :=
  let* key := optional AsText row 1 in
  let* common_prefix := optional AsText row 2 in
  let* version_id := optional AsBigint row 3 in
  let* is_latest := optional AsBoolean row 4 in
  let* delete_marker := optional AsBoolean row 5 in
  let* size := optional AsBigint row 6 in
  let* etag := optional AsText row 7 in
  let* last_modified_ms := optional AsBigint row 8 in
  let* next_key_marker := optional AsText row 9 in
  let* next_version_id_marker := optional AsBigint row 10 in
  Ok {| vr_key := key; vr_common_prefix := common_prefix; vr_version_id := version_id; vr_is_latest := is_latest;
        vr_delete_marker := delete_marker; vr_size := size; vr_etag := etag; vr_last_modified_ms := last_modified_ms;
        vr_next_key_marker := next_key_marker; vr_next_version_id_marker := next_version_id_marker |}.

(** [for row in table { rows.push(decode(row)?) }] *)
Fixpoint decode_rows {T} (decode : option Row -> result DbError T) (rows : list Row) : result DbError (list T) :=
  match rows with
  | [] => Ok []
  | row :: rows =>
      let* t := decode (Some row) in
      let* ts := decode_rows decode rows in
      Ok (t :: ts)
  end.
End PgDatabase.

(** ** Texts *)

Definition timeouts_sql : bytes :=
  bs "SELECT pg_catalog.set_config( 'statement_timeout', pg_catalog.current_setting('pgs3.statement_timeout_ms'), true ), pg_catalog.set_config( 'lock_timeout', pg_catalog.current_setting('pgs3.statement_timeout_ms'), true )".
Definition SERVER_REQUEST_CONTEXT_SQL : bytes := timeouts_sql.
Definition TENANT_REQUEST_CONTEXT_SQL : bytes := timeouts_sql ++ bs ", pg_catalog.set_config('role', $1, true)".

Definition request_context_sql (role : option bytes) : bytes :=
  match role with Some _ => TENANT_REQUEST_CONTEXT_SQL | None => SERVER_REQUEST_CONTEXT_SQL end.

Definition object_columns (prefix : bytes) : bytes :=
  prefix ++ bs ".bucket, " ++ prefix ++ bs ".key, " ++ prefix ++ bs ".version_id, " ++ prefix ++ bs ".size, "
    ++ prefix ++ bs ".etag, " ++ prefix ++ bs ".sha256, " ++ prefix ++ bs ".content_type, "
    ++ prefix ++ bs ".meta::text, (extract(epoch FROM " ++ prefix ++ bs ".created_at) * 1000)::bigint".

(** [SELECT {object_columns("i")} FROM call AS i] *)
Definition object_query (call : bytes) : bytes := bs "SELECT " ++ object_columns (bs "i") ++ bs " FROM " ++ call ++ bs " AS i".

Definition part_columns : bytes :=
  bs "SELECT p.part_number, p.size, p.etag, p.sha256, (extract(epoch FROM p.completed_at) * 1000)::bigint FROM ".
Definition put_chunk_sql : bytes :=
  bs "SELECT c.blob_id, c.size FROM pgs3._worker_put_chunk($1::name,$2,$3,$4::uuid,$5,$6,$7) AS c".
Definition complete_upload_sql : bytes :=
  object_query (bs "pgs3._worker_complete_upload($1::name,$2,$3,$4::uuid,$5,$6,$7,$8,$9::bytea[],$10::bigint[])").

(** * Transactions *)

Section Methods.
Context `{Answers Spi} (spi_error : ColumnProblem -> bytes).

(** [client.select(…).map_err(DbError::spi)?], or [update]. *)
Definition query (update : bool) (sql : bytes) (limit : option Z) (args : list Datum)
  : InSpi (result Failure (list Row)) :=
  let! reply := ask (Query update sql limit args) in
  ret (match reply with
       | Rows rows => Ok rows
       | SpiFailure error => Err (Failed (DbError_spi error))
       | Raised report => Err (Threw report)
       end).

(** [PgDatabase::transaction]: [BackgroundWorker::transaction] commits what
    returns, an error value too; a PostgreSQL ERROR is caught and aborts. *)
Definition transaction {A} (body : InSpi (result Failure A)) : InSpi (result DbError A) :=
  let! configured := ask StatementTimeoutMs in
  let! _ := ask DisableTimeout in
  let! _ := ask (EnableTimeoutAfter (Z.max configured 1)) in
  let! _ := ask StartTransaction in
  let! outcome := body in
  let! outcome :=
    match outcome with
    | Err (Threw report) => ret (Err (Threw report))
    | outcome =>
        let! raised := ask CommitTransaction in
        ret (match raised with Some report => Err (Threw report) | None => outcome end)
    end in
  let! _ := ask DisableTimeout in
  match outcome with
  | Ok a => ret (Ok a)
  | Err (Failed error) => ret (Err error)
  | Err (Threw report) => let! _ := ask AbortCurrentTransaction in ret (Err (caught_error report))
  end.

Definition in_request_context {A} (role : option bytes) (writable : bool) (body : InSpi (result Failure A))
  : InSpi (result DbError A) :=
  let! standby := (if writable then ask RecoveryInProgress else ret false) in
  if standby then ret (Err standby_error)
  else
    transaction
      (let? _ :=
         match role with
         | Some r => query writable (request_context_sql role) (Some 1) [DText r]
         | None => query false (request_context_sql role) (Some 1) []
         end in
       body).

(** ** Shapes of methods *)

(** [?] on a decoded value. *)
Definition decoded {A} (r : result DbError A) : InSpi (result Failure A) := ret (map_err Failed r).

(** One statement, of which the first row is decoded. *)
Definition first_row {A} (update : bool) (sql : bytes) (args : list Datum) (decode : option Row -> result DbError A)
  : InSpi (result Failure A) :=
  let? rows := query update sql (Some 1) args in decoded (decode (head rows)).

(** One statement, of which every row is decoded. *)
Definition all_rows {A} (update : bool) (sql : bytes) (args : list Datum) (decode : option Row -> result DbError A)
  : InSpi (result Failure (list A)) :=
  let? rows := query update sql None args in decoded (decode_rows decode rows).

(** One statement that returns nothing. *)
Definition no_rows (update : bool) (sql : bytes) (args : list Datum) : InSpi (result Failure unit) :=
  let? _ := query update sql (Some 1) args in ret (Ok tt).

Definition object_row (update : bool) (call : bytes) (args : list Datum) : InSpi (result Failure ObjectRecord) :=
  first_row update (object_query call) args (fun row => object_record spi_error row 0).

(** ** Credentials and objects *)

Definition lookup_sql : bytes :=
  bs "SELECT c.secret, c.role_name::text FROM pgs3.credential AS c JOIN pg_catalog.pg_roles AS r ON r.rolname = c.role_name WHERE c.access_key = $1 AND c.enabled AND NOT r.rolsuper AND NOT r.rolbypassrls AND pg_catalog.pg_has_role(session_user, c.role_name, 'SET')".

Definition credential (row : option Row) : result DbError (option Credential) :=
  match row with
  | None => Ok None
  | Some _ =>
      let* secret := required spi_error AsText row 1 in
      let* role := required spi_error AsText row 2 in
      Ok (Some {| secret := secret; cred_role := role |})
  end.

Definition delete_marker (row : option Row) : result DbError (option DeleteMarkerRecord) :=
  match row with
  | None => Ok None
  | Some _ => let* version_id := required spi_error AsBigint row 1 in Ok (Some {| marker_version_id := version_id |})
  end.

Definition delete_marker_sql : bytes :=
  bs "SELECT v.version_id FROM pgs3.list_versions($1,$2,NULL,NULL,NULL,1) AS v WHERE v.key = $2 COLLATE "
    ++ [x22] ++ bs "C" ++ [x22] ++ bs " AND v.is_latest AND v.delete_marker LIMIT 1".

Definition object_data (row : option Row) : result DbError ObjectData :=
  let* i := object_record spi_error row 0 in
  let* body := required spi_error AsBytea row 10 in
  Ok {| info := i; data_body := body |}.

Definition chunk_record (row : option Row) : result DbError ChunkRecord :=
  let* id := required spi_error AsBytea row 1 in
  let* size := required spi_error AsBigint row 2 in
  Ok {| blob_id := id; chunk_size := size |}.

Definition delete_many_rows (targets : nat) (rows : list Row) : result DbError (list (result DbError DeleteRecord)) :=
  let* records := decode_rows (delete_record spi_error) rows in
  if (length records =? targets)%nat then Ok (map Ok records)
  else
    Err (DbError_internal (bs "delete_many returned " ++ show_Z (Z.of_nat (length records)) ++ bs " rows for "
                             ++ show_Z (Z.of_nat targets) ++ bs " targets")).

(** ** Listings *)

Definition set_token (token : option bytes) (r : ListRecord) : ListRecord :=
  {| lr_key := lr_key r; lr_common_prefix := lr_common_prefix r; lr_version_id := lr_version_id r;
     lr_size := lr_size r; lr_etag := lr_etag r; lr_last_modified_ms := lr_last_modified_ms r;
     lr_continuation_token := token |}.
Definition clear_markers (r : VersionRecord) : VersionRecord :=
  {| vr_key := vr_key r; vr_common_prefix := vr_common_prefix r; vr_version_id := vr_version_id r;
     vr_is_latest := vr_is_latest r; vr_delete_marker := vr_delete_marker r; vr_size := vr_size r; vr_etag := vr_etag r;
     vr_last_modified_ms := vr_last_modified_ms r; vr_next_key_marker := None; vr_next_version_id_marker := None |}.

(** [rows.last_mut()] *)
Definition update_last {A} (f : A -> A) (rows : list A) : list A :=
  match last rows with Some r => take (length rows - 1) rows ++ [f r] | None => rows end.

Definition list_sql (v2 : bool) : bytes :=
  bs "SELECT l.key, l.common_prefix, l.version_id, l.size, l.etag, (extract(epoch FROM l.last_modified) * 1000)::bigint, l.continuation_token FROM pgs3."
    ++ (if v2 then bs "list_objects_v2" else bs "list") ++ bs "($1,$2,$3,$4,$5,$6) AS l".
Definition list_probe_sql : bytes := bs "SELECT 1 FROM pgs3.list($1,$2,$3,NULL,$4,1) LIMIT 1".

(** A full page is followed by a probe for more. *)
Definition list_objects_body (bucket : bytes) (params : ListParams) (v2 : bool)
  : InSpi (result Failure (list ListRecord)) :=
  let? rows := all_rows false (list_sql v2)
    [DText bucket; DText (prefix params); nullable DText (delimiter params);
     nullable DText (if v2 then start_after params else marker params);
     nullable DText (continuation_token params); DInteger (list_max_keys params)] (list_record spi_error) in
  if (0 <? list_max_keys params) && (Z.of_nat (length rows) =? list_max_keys params) then
    match last rows ≫= lr_continuation_token with
    | Some token =>
        let? probe := query false list_probe_sql (Some 1)
          [DText bucket; DText (prefix params); nullable DText (delimiter params); DText token] in
        ret (Ok (if is_empty probe then update_last (set_token None) rows else rows))
    | None => ret (Ok rows)
    end
  else ret (Ok rows).

Definition list_versions_sql : bytes :=
  bs "SELECT v.key, v.common_prefix, v.version_id, v.is_latest, v.delete_marker, v.size, v.etag, (extract(epoch FROM v.last_modified) * 1000)::bigint, v.next_key_marker, v.next_version_id_marker FROM pgs3.list_versions($1,$2,$3,$4,$5,$6) AS v".
Definition versions_probe_sql : bytes := bs "SELECT 1 FROM pgs3.list_versions($1,$2,$3,$4,$5,1) LIMIT 1".

Definition list_versions_body (bucket : bytes) (params : VersionListParams)
  : InSpi (result Failure (list VersionRecord)) :=
  let? rows := all_rows false list_versions_sql
    [DText bucket; DText (v_prefix params); nullable DText (v_delimiter params); nullable DText (key_marker params);
     nullable DBigint (version_id_marker params); DInteger (v_max_keys params)] (version_record spi_error) in
  if (0 <? v_max_keys params) && (Z.of_nat (length rows) =? v_max_keys params) then
    match last rows ≫= vr_next_key_marker with
    | Some marker =>
        let? probe := query false versions_probe_sql (Some 1)
          [DText bucket; DText (v_prefix params); nullable DText (v_delimiter params); DText marker;
           nullable DBigint (last rows ≫= vr_next_version_id_marker)] in
        ret (Ok (if is_empty probe then update_last clear_markers rows else rows))
    | None => ret (Ok rows)
    end
  else ret (Ok rows).

(** ** Sealed uploads *)

Definition sealed_chunk (role bucket key upload_id : bytes) (seq : Z) (data server_sha256 : bytes)
  : InSpi (result Failure ChunkRecord) :=
  first_row true put_chunk_sql
    [DText role; DText bucket; DText key; DText upload_id; DInteger seq; DBytea data; DBytea server_sha256] chunk_record.

Definition sealed_completion (role bucket key upload_id : bytes) (expected_sha256 : option bytes)
    (server_sha256 server_md5 : bytes) (server_size : Z) (ids : list bytes) (sizes : list Z)
  : InSpi (result Failure ObjectRecord) :=
  first_row true complete_upload_sql
    [DText role; DText bucket; DText key; DText upload_id; nullable DBytea expected_sha256; DBytea server_sha256;
     DText server_md5; DBigint server_size; DByteas ids; DBigints (map Some sizes)]
    (fun row => object_record spi_error row 0).

Definition finish_sealed (role bucket key upload_id : bytes) (expected_sha256 : option bytes)
    (server_sha256 server_md5 : bytes) (server_size : Z) (ids : list bytes) (sizes : list Z)
    (final_seq : Z) (final_data final_sha256 : bytes) : InSpi (result Failure ObjectRecord) :=
  let? chunk := sealed_chunk role bucket key upload_id final_seq final_data final_sha256 in
  sealed_completion role bucket key upload_id expected_sha256 server_sha256 server_md5 server_size
    (ids ++ [blob_id chunk]) (sizes ++ [chunk_size chunk]).

(** * [impl Database for PgDatabase] *)

(** The transaction's body of each method. *)
Definition lookup_credential_body (access_key : bytes) : InSpi (result Failure (option Credential)) :=
  first_row false lookup_sql [DText access_key] credential.

Definition list_buckets_body : InSpi (result Failure (list BucketRecord)) :=
  all_rows false
    (bs "SELECT b.name, b.owner::text, (extract(epoch FROM b.created_at) * 1000)::bigint FROM pgs3.list_buckets() AS b")
    [] (bucket_record spi_error).

Definition create_bucket_body (bucket region : bytes) : InSpi (result Failure unit) :=
  no_rows true (bs "SELECT pgs3.create_bucket($1, pg_catalog.jsonb_build_object('region', $2))")
    [DText bucket; DText region].

Definition delete_bucket_body (bucket : bytes) : InSpi (result Failure unit) :=
  no_rows true (bs "SELECT pgs3.delete_bucket($1)") [DText bucket].

Definition head_bucket_body (bucket : bytes) : InSpi (result Failure unit) :=
  no_rows false (bs "SELECT pgs3.head_bucket($1)") [DText bucket].

Definition bucket_location_body (bucket : bytes) : InSpi (result Failure bytes) :=
  first_row false (bs "SELECT pgs3.get_bucket_location($1)") [DText bucket] (fun row => required spi_error AsText row 1).

Definition put_object_body (bucket key body content_type meta_json : bytes)
    (if_none_match if_match expected_sha256 : option bytes)
  : InSpi (result Failure ObjectRecord) :=
  object_row true (bs "pgs3.put($1,$2,$3,$4,$5::jsonb,$6,$7,$8)")
    [DText bucket; DText key; DBytea body; DText content_type; DText meta_json; nullable DText if_none_match;
     nullable DText if_match; nullable DBytea expected_sha256].

Definition head_object_body (bucket key : bytes) (version_id : option Z) : InSpi (result Failure ObjectRecord) :=
  object_row false (bs "pgs3.head($1, $2, $3)") [DText bucket; DText key; nullable DBigint version_id].

Definition current_delete_marker_body (bucket key : bytes) : InSpi (result Failure (option DeleteMarkerRecord)) :=
  first_row false delete_marker_sql [DText bucket; DText key] delete_marker.

Definition get_object_body (bucket key : bytes) (version_id : option Z) : InSpi (result Failure ObjectData) :=
  first_row false
    (bs "SELECT " ++ object_columns (bs "(d.info)") ++ bs ", d.body FROM pgs3.get($1, $2, $3) AS d")
    [DText bucket; DText key; nullable DBigint version_id] object_data.

Definition get_range_body (bucket key : bytes) (version_id start finish : Z) : InSpi (result Failure bytes) :=
  first_row false (bs "SELECT pgs3.get_range($1, $2, $3, $4, $5)")
    [DText bucket; DText key; DBigint start; DBigint finish; DBigint version_id] (fun row => required spi_error AsBytea row 1).

Definition delete_object_body (bucket key : bytes) (version_id : option Z) : InSpi (result Failure DeleteRecord) :=
  first_row true (bs "SELECT d.key, d.version_id, d.delete_marker, d.deleted FROM pgs3.delete($1, $2, $3) AS d")
    [DText bucket; DText key; nullable DBigint version_id] (delete_record spi_error).

Definition delete_many_body (bucket : bytes) (objects : list DeleteTarget)
  : InSpi (result Failure (list (result DbError DeleteRecord))) :=
  let? rows :=
    query true (bs "SELECT d.key, d.version_id, d.delete_marker, d.deleted FROM pgs3.delete_many($1, $2, $3) AS d") None
      [DText bucket; DTexts (map target_key objects); DBigints (map target_version_id objects)] in
  decoded (delete_many_rows (length objects) rows).

Definition copy_object_body (source_bucket source_key bucket key : bytes) (source_version_id : option Z)
    (content_type meta_json if_none_match if_match source_if_match : option bytes)
  : InSpi (result Failure ObjectRecord) :=
  object_row true (bs "pgs3.copy($1,$2,$3,$4,$5,$6,$7::jsonb,$8,$9,$10)")
    [DText source_bucket; DText source_key; DText bucket; DText key; nullable DBigint source_version_id;
     nullable DText content_type; nullable DText meta_json; nullable DText if_none_match; nullable DText if_match;
     nullable DText source_if_match].

Definition restore_object_body (bucket key : bytes) (version_id : Z) (if_match : option bytes)
  : InSpi (result Failure ObjectRecord) :=
  object_row true (bs "pgs3.restore($1,$2,$3,$4)")
    [DText bucket; DText key; DBigint version_id; nullable DText if_match].

Definition begin_upload_body (bucket key content_type meta_json : bytes) (multipart : bool)
    (if_none_match if_match expected_sha256 : option bytes)
  : InSpi (result Failure bytes) :=
  first_row true (bs "SELECT pgs3.begin_upload($1,$2,$3,$4::jsonb,$5,$6,$7,$8)::text")
    [DText bucket; DText key; DText content_type; DText meta_json; DBoolean multipart; nullable DText if_none_match;
     nullable DText if_match; nullable DBytea expected_sha256] (fun row => required spi_error AsText row 1).

Definition renew_upload_body (bucket key upload_id : bytes) (require_multipart : bool)
  : InSpi (result Failure unit) :=
  no_rows true (bs "SELECT pgs3.renew_upload($1,$2,$3::uuid,$4)")
    [DText bucket; DText key; DText upload_id; DBoolean require_multipart].

Definition put_chunk_body (bucket key upload_id : bytes) (seq : Z) (data : bytes) (part_number : Z)
  : InSpi (result Failure unit) :=
  no_rows true (bs "SELECT pgs3.put_chunk($1,$2,$3::uuid,$4,$5,$6,NULL)")
    [DText bucket; DText key; DText upload_id; DInteger seq; DBytea data; DInteger part_number].

Definition complete_upload_body (bucket key upload_id : bytes) (expected_sha256 : option bytes)
  : InSpi (result Failure ObjectRecord) :=
  object_row true (bs "pgs3.complete_upload($1,$2,$3::uuid,$4)")
    [DText bucket; DText key; DText upload_id; nullable DBytea expected_sha256].

Definition abort_upload_body (bucket key upload_id : bytes) (multipart : bool) : InSpi (result Failure unit) :=
  no_rows true (bs "SELECT pgs3.abort_upload($1,$2,$3::uuid,$4)")
    [DText bucket; DText key; DText upload_id; DBoolean multipart].

Definition upload_action (function bucket key upload_id : bytes) (part_number : Z) : InSpi (result Failure unit) :=
  no_rows true (bs "SELECT pgs3." ++ function ++ bs "($1,$2,$3::uuid,$4)")
    [DText bucket; DText key; DText upload_id; DInteger part_number].

Definition begin_part_body : bytes -> bytes -> bytes -> Z -> InSpi (result Failure unit) := upload_action (bs "begin_part").

Definition abort_part_body : bytes -> bytes -> bytes -> Z -> InSpi (result Failure unit) := upload_action (bs "abort_part").

Definition complete_part_body (bucket key upload_id : bytes) (part_number : Z) (expected_sha256 : option bytes)
  : InSpi (result Failure PartRecord) :=
  first_row true (part_columns ++ bs "pgs3.complete_part($1,$2,$3::uuid,$4,$5) AS p")
    [DText bucket; DText key; DText upload_id; DInteger part_number; nullable DBytea expected_sha256]
    (part_record spi_error).

Definition list_parts_body (bucket key upload_id : bytes) : InSpi (result Failure (list PartRecord)) :=
  all_rows true (part_columns ++ bs "pgs3.list_parts($1,$2,$3::uuid) AS p")
    [DText bucket; DText key; DText upload_id] (part_record spi_error).

Definition stored_checksum_algorithm_body (bucket key upload_id : bytes) : InSpi (result Failure (option bytes)) :=
  first_row true (bs "SELECT pgs3.multipart_checksum_algorithm($1,$2,$3::uuid)")
    [DText bucket; DText key; DText upload_id] (fun row => optional spi_error AsText row 1).

Definition complete_multipart_body (bucket key upload_id : bytes) (parts : list Z) (etags : list bytes)
    (expected_sha256 : option bytes) (part_sha256s : option (list bytes)) (composite_sha256 : option bytes)
  : InSpi (result Failure ObjectRecord) :=
  object_row true (bs "pgs3.complete_multipart_upload($1,$2,$3::uuid,$4,$5,$6,$7::bytea[],$8)")
    [DText bucket; DText key; DText upload_id; DIntegers parts; DTexts etags; nullable DBytea expected_sha256;
     nullable DByteas part_sha256s; nullable DText composite_sha256].

Definition method {A} (op : DbOp A) : InSpi (result Failure A) :=
  match op in DbOp A return InSpi (result Failure A) with
  | lookup_credential access_key => lookup_credential_body access_key
  | list_buckets _ => list_buckets_body 
  | create_bucket _ bucket region => create_bucket_body bucket region
  | delete_bucket _ bucket => delete_bucket_body bucket
  | head_bucket _ bucket => head_bucket_body bucket
  | bucket_location _ bucket => bucket_location_body bucket
  | put_object _ bucket key body content_type meta_json if_none_match if_match expected_sha256 => put_object_body bucket key body content_type meta_json if_none_match if_match expected_sha256
  | head_object _ bucket key version_id => head_object_body bucket key version_id
  | current_delete_marker _ bucket key => current_delete_marker_body bucket key
  | get_object _ bucket key version_id => get_object_body bucket key version_id
  | get_range _ bucket key version_id start finish => get_range_body bucket key version_id start finish
  | delete_object _ bucket key version_id => delete_object_body bucket key version_id
  | delete_many _ bucket objects => delete_many_body bucket objects
  | copy_object _ source_bucket source_key bucket key source_version_id content_type meta_json if_none_match if_match source_if_match => copy_object_body source_bucket source_key bucket key source_version_id content_type meta_json if_none_match if_match source_if_match
  | restore_object _ bucket key version_id if_match => restore_object_body bucket key version_id if_match
  | list_objects _ bucket params v2 => list_objects_body bucket params v2
  | list_versions _ bucket params => list_versions_body bucket params
  | begin_upload _ bucket key content_type meta_json multipart if_none_match if_match expected_sha256 => begin_upload_body bucket key content_type meta_json multipart if_none_match if_match expected_sha256
  | renew_upload _ bucket key upload_id require_multipart => renew_upload_body bucket key upload_id require_multipart
  | put_chunk _ bucket key upload_id seq data part_number => put_chunk_body bucket key upload_id seq data part_number
  | put_chunk_sealed role bucket key upload_id seq data server_sha256 => sealed_chunk role bucket key upload_id seq data server_sha256
  | complete_upload _ bucket key upload_id expected_sha256 => complete_upload_body bucket key upload_id expected_sha256
  | complete_upload_sealed role bucket key upload_id expected_sha256 server_sha256 server_md5 server_size ids sizes => sealed_completion role bucket key upload_id expected_sha256 server_sha256 server_md5 server_size ids sizes
  | finish_upload_sealed role bucket key upload_id expected_sha256 server_sha256 server_md5 server_size ids sizes final_seq final_data final_sha256 => finish_sealed role bucket key upload_id expected_sha256 server_sha256 server_md5 server_size ids sizes final_seq final_data final_sha256
  | abort_upload _ bucket key upload_id multipart => abort_upload_body bucket key upload_id multipart
  | begin_part _ bucket key upload_id part_number => begin_part_body bucket key upload_id part_number
  | abort_part _ bucket key upload_id part_number => abort_part_body bucket key upload_id part_number
  | complete_part _ bucket key upload_id part_number expected_sha256 => complete_part_body bucket key upload_id part_number expected_sha256
  | list_parts _ bucket key upload_id => list_parts_body bucket key upload_id
  | stored_checksum_algorithm _ bucket key upload_id => stored_checksum_algorithm_body bucket key upload_id
  | complete_multipart _ bucket key upload_id parts etags expected_sha256 part_sha256s composite_sha256 => complete_multipart_body bucket key upload_id parts etags expected_sha256 part_sha256s composite_sha256
  end.

Definition pg_call {A} (op : DbOp A) : InSpi (result DbError A) :=
  in_request_context (transaction_role op) (writable op) (method op).
End Methods.

(** * Properties: the rules of a request *)

(** The statement timer, the transaction, the role it has assumed, whether a
    statement has failed in it, and whether the server was found not to be a
    standby. *)
Record Request := {
  armed : bool;
  opened : bool;
  assumed : option (option bytes);
  aborted : bool;
  primary : bool
}.

Definition idle : Request := {| armed := false; opened := false; assumed := None; aborted := false; primary := false |}.

Definition set_armed (b : bool) (s : Request) : Request :=
  {| armed := b; opened := opened s; assumed := assumed s; aborted := aborted s; primary := primary s |}.
Definition set_opened (b : bool) (s : Request) : Request :=
  {| armed := armed s; opened := b; assumed := None; aborted := false; primary := primary s |}.
Definition set_assumed (role : option bytes) (s : Request) : Request :=
  {| armed := armed s; opened := opened s; assumed := Some role; aborted := aborted s; primary := primary s |}.
Definition set_aborted (b : bool) (s : Request) : Request :=
  {| armed := armed s; opened := opened s; assumed := assumed s; aborted := b; primary := primary s |}.
Definition set_primary (b : bool) (s : Request) : Request :=
  {| armed := armed s; opened := opened s; assumed := assumed s; aborted := aborted s; primary := b |}.

(** The statement that sets the context of a request: both timeouts for the
    transaction and, for a tenant, its role, the one argument. *)
Definition context_text (role : option bytes) : bytes :=
  bs "SELECT pg_catalog.set_config( 'statement_timeout', pg_catalog.current_setting('pgs3.statement_timeout_ms'), true )"
    ++ bs ", pg_catalog.set_config( 'lock_timeout', pg_catalog.current_setting('pgs3.statement_timeout_ms'), true )"
    ++ match role with Some _ => bs ", pg_catalog.set_config('role', $1, true)" | None => [] end.

Definition context_args (role : option bytes) : list Datum := match role with Some r => [DText r] | None => [] end.

(** As the server's own role, a statement for a tenant names the tenant
    first. *)
Definition names_tenant (role tenant : option bytes) (args : list Datum) : bool :=
  match role, tenant with
  | None, Some t => match args with d :: _ => d ==b DText t | [] => false end
  | _, _ => true
  end.

(** A statement runs with the timer armed, in an open transaction without an
    error; the first one sets the role; one that may write runs on a server
    that is no standby. *)
Definition statement (role tenant : option bytes) (update : bool) (sql : bytes) (args : list Datum) (s : Request)
  : option Request :=
  if armed s && opened s && negb (aborted s) && (negb update || primary s) then
    match assumed s with
    | None =>
        if (sql ==b context_text role) && (args ==b context_args role) then Some (set_assumed role s) else None
    | Some _ => if names_tenant role tenant args then Some s else None
    end
  else None.

Definition request_rules (role tenant : option bytes) (s : Request) (e : Interaction Spi) : option Request :=
  match e with
  | Happens effect answer =>
      match effect in Spi A return A -> option Request with
      | RecoveryInProgress => fun standby => Some (set_primary (negb standby) s)
      | StatementTimeoutMs => fun _ => Some s
      | DisableTimeout => fun _ => Some (set_armed false s)
      | EnableTimeoutAfter ms => fun _ => if (1 <=? ms) && negb (armed s) then Some (set_armed true s) else None
      | StartTransaction => fun _ => if armed s && negb (opened s) then Some (set_opened true s) else None
      | Query update sql limit args => fun reply =>
          match statement role tenant update sql args s with
          | Some s' => Some (match reply with Raised _ => set_aborted true s' | _ => s' end)
          | None => None
          end
      | CommitTransaction => fun raised =>
          if opened s && negb (aborted s) then
            Some (match raised with Some _ => set_aborted true s | None => set_opened false s end)
          else None
      | AbortCurrentTransaction => fun _ =>
          if opened s && aborted s && negb (armed s) then Some (set_opened false s) else None
      end answer
  end.

(** Inside the transaction, after an outcome of its body. *)
Definition threw {A} (r : result Failure A) : bool := match r with Err (Threw _) => true | _ => false end.
Definition inside {A} (role : option bytes) (is_primary : bool) (s : Request) (r : result Failure A) : Prop :=
  s = {| armed := true; opened := true; assumed := Some role; aborted := threw r; primary := is_primary |}.

Section Rules.
Context `{Answers Spi} (spi_error : ColumnProblem -> bytes) (role tenant : option bytes) (is_primary : bool).
#[local] Abbreviation obeys := (Effects.obeys (request_rules role tenant)).
#[local] Abbreviation within := (inside (A := unit) role is_primary).

Lemma query_inside s update sql limit args :
  within s (Ok tt) -> (update = true -> is_primary = true) -> names_tenant role tenant args = true ->
  obeys s (query update sql limit args) (inside role is_primary).
Proof.
  intros -> Hu Hn. eapply obeys_bind.
  { apply obeys_ask. intros h. simpl. unfold statement. simpl. rewrite Hn.
    replace (negb update || is_primary) with true by (destruct update; [by rewrite Hu|done]).
    eexists. split; [done|]. instantiate (1 := fun s' reply => inside role is_primary s'
      (match reply with Rows rows => Ok rows | SpiFailure e => Err (Failed (DbError_spi e)) | Raised r => Err (Threw r) end)).
    by destruct (answers Reply h (Query update sql limit args)). }
  intros s' reply Hs. apply obeys_ret. exact Hs.
Qed.

Lemma inside_Ok {A} s (a : A) : inside role is_primary s (Ok a) -> within s (Ok tt).
Proof. done. Qed.

Lemma inside_Err {A B} s (e : Failure) : inside (A := A) role is_primary s (Err e) -> inside (A := B) role is_primary s (Err e).
Proof. done. Qed.

Lemma decoded_inside {A} s (r : result DbError A) : within s (Ok tt) -> obeys s (decoded r) (inside role is_primary).
Proof. intros ->. apply obeys_ret. by destruct r. Qed.

Lemma try_inside {A B} s (c : InSpi (result Failure A)) (k : A -> InSpi (result Failure B)) :
  obeys s c (inside role is_primary) -> (forall s' a, within s' (Ok tt) -> obeys s' (k a) (inside role is_primary)) ->
  obeys s (bind c (fun r => match r with Ok a => k a | Err e => ret (Err e) end)) (inside role is_primary).
Proof. intros Hc Hk. eapply obeys_try; [exact Hc|intros s' a Ha; by apply Hk|by intros s' e He]. Qed.

Lemma first_row_inside {A} s update sql args (decode : option Row -> result DbError A) :
  within s (Ok tt) -> (update = true -> is_primary = true) -> names_tenant role tenant args = true ->
  obeys s (first_row update sql args decode) (inside role is_primary).
Proof. intros Hs Hu Hn. apply try_inside; [by apply query_inside|]. intros s' rows Hs'. by apply decoded_inside. Qed.

Lemma all_rows_inside {A} s update sql args (decode : option Row -> result DbError A) :
  within s (Ok tt) -> (update = true -> is_primary = true) -> names_tenant role tenant args = true ->
  obeys s (all_rows update sql args decode) (inside role is_primary).
Proof. intros Hs Hu Hn. apply try_inside; [by apply query_inside|]. intros s' rows Hs'. by apply decoded_inside. Qed.

Lemma no_rows_inside s update sql args :
  within s (Ok tt) -> (update = true -> is_primary = true) -> names_tenant role tenant args = true ->
  obeys s (no_rows update sql args) (inside role is_primary).
Proof. intros Hs Hu Hn. apply try_inside; [by apply query_inside|]. intros s' rows ->. by apply obeys_ret. Qed.

(** The page is read, and then perhaps probed. *)
Lemma list_objects_inside s bucket params v2 :
  within s (Ok tt) -> (forall args, names_tenant role tenant args = true) ->
  obeys s (list_objects_body spi_error bucket params v2) (inside role is_primary).
Proof.
  intros Hs Hn. apply try_inside; [by apply all_rows_inside|]. intros s1 rows H1.
  destruct (_ && _); [|rewrite H1; by apply obeys_ret]. destruct (_ ≫= _) as [token|]; [|rewrite H1; by apply obeys_ret].
  apply try_inside; [by apply query_inside|]. intros s2 probe ->. by apply obeys_ret.
Qed.

Lemma list_versions_inside s bucket params :
  within s (Ok tt) -> (forall args, names_tenant role tenant args = true) ->
  obeys s (list_versions_body spi_error bucket params) (inside role is_primary).
Proof.
  intros Hs Hn. apply try_inside; [by apply all_rows_inside|]. intros s1 rows H1.
  destruct (_ && _); [|rewrite H1; by apply obeys_ret]. destruct (_ ≫= _) as [marker|]; [|rewrite H1; by apply obeys_ret].
  apply try_inside; [by apply query_inside|]. intros s2 probe ->. by apply obeys_ret.
Qed.
End Rules.

Section Requests.
Context `{Answers Spi} (spi_error : ColumnProblem -> bytes).

Lemma names_tenant_self tenant args : names_tenant None (Some tenant) (DText tenant :: args) = true.
Proof. simpl. by rewrite bool_decide_eq_true_2. Qed.

(** Every method stays inside its transaction. *)
Lemma method_inside {A} (op : DbOp A) is_primary s :
  inside (A := unit) (transaction_role op) is_primary s (Ok tt) -> (writable op = true -> is_primary = true) ->
  obeys (request_rules (transaction_role op) (role_of op)) s (method spi_error op) (inside (transaction_role op) is_primary).
Proof.
  intros Hs Hw. destruct op; simpl in *; unfold object_row, sealed_chunk, sealed_completion;
    first [apply first_row_inside | apply all_rows_inside | apply no_rows_inside | apply list_objects_inside
          | apply list_versions_inside | idtac]; auto using names_tenant_self.
  - apply try_inside; [by apply query_inside; auto|]. intros s' rows Hs'. by apply decoded_inside.
  - apply try_inside; [apply first_row_inside; auto using names_tenant_self|]. intros s' chunk Hs'.
    apply first_row_inside; auto using names_tenant_self.
Qed.

Lemma context_sql role : request_context_sql role = context_text role.
Proof. by destruct role. Qed.

Lemma context_inside {A} role tenant writable is_primary (body : InSpi (result Failure A)) s :
  s = {| armed := true; opened := true; assumed := None; aborted := false; primary := is_primary |} ->
  (writable = true -> is_primary = true) ->
  (forall s', inside (A := unit) role is_primary s' (Ok tt) ->
    obeys (request_rules role tenant) s' body (inside role is_primary)) ->
  obeys (request_rules role tenant) s
    (let? _ := match role with
               | Some r => query writable (request_context_sql role) (Some 1) [DText r]
               | None => query false (request_context_sql role) (Some 1) []
               end in body) (inside role is_primary).
Proof.
  intros -> Hw Hb. apply try_inside; [|intros s' _ Hs'; by apply Hb].
  assert (Hq : forall update, (update = true -> is_primary = true) ->
    obeys (request_rules role tenant)
      {| armed := true; opened := true; assumed := None; aborted := false; primary := is_primary |}
      (query update (request_context_sql role) (Some 1) (context_args role)) (inside role is_primary)).
  { intros update Hu. eapply obeys_bind.
    { apply obeys_ask. intros h. simpl. unfold statement. simpl.
      replace (negb update || is_primary) with true by (destruct update; [by rewrite Hu|done]).
      rewrite context_sql, !bool_decide_eq_true_2 by done. simpl. eexists. split; [done|].
      instantiate (1 := fun s' reply => inside role is_primary s'
        (match reply with Rows rows => Ok rows | SpiFailure e => Err (Failed (DbError_spi e)) | Raised r => Err (Threw r) end)).
      by destruct (answers Reply h _). }
    intros s' reply Hs. apply obeys_ret. exact Hs. }
  destruct role as [r|]; [by apply (Hq writable)|by apply (Hq false)].
Qed.

(** The timer is disarmed and the transaction closed, whatever the outcome. *)
Lemma transaction_closes {A} role tenant is_primary (body : InSpi (result Failure A)) s :
  s = {| armed := false; opened := false; assumed := None; aborted := false; primary := is_primary |} ->
  (forall s', s' = {| armed := true; opened := true; assumed := None; aborted := false; primary := is_primary |} ->
    obeys (request_rules role tenant) s' body (inside role is_primary)) ->
  obeys (request_rules role tenant) s (transaction body)
    (fun s' _ => armed s' = false /\ opened s' = false /\ primary s' = is_primary).
Proof.
  intros -> Hb. unfold transaction. eapply obeys_bind; [by apply obeys_steady|]. intros ? configured ->.
  eapply obeys_bind; [by apply obeys_steady|]. intros ? ? ->.
  eapply obeys_bind.
  { apply obeys_ask. intros h. simpl. replace (1 <=? Z.max configured 1) with true by lia. simpl.
    eexists. split; [done|]. by instantiate (1 := fun s' _ => s' = set_armed true
      {| armed := false; opened := false; assumed := None; aborted := false; primary := is_primary |}). }
  intros ? ? ->. eapply obeys_bind.
  { apply obeys_ask. intros h. simpl. eexists. split; [done|]. by instantiate (1 := fun s' _ => s' =
      {| armed := true; opened := true; assumed := None; aborted := false; primary := is_primary |}). }
  intros ? ? ->. eapply obeys_bind; [by apply Hb|]. intros s1 outcome Hin.
  eapply obeys_bind.
  { instantiate (1 := fun s' (r : result Failure A) => armed s' = true /\ opened s' = threw r /\ aborted s' = threw r /\
      primary s' = is_primary).
    rewrite Hin. destruct outcome as [x|[e|r]]; [| |by apply obeys_ret].
    - eapply obeys_bind; [apply obeys_ask; intros h; eexists; split; [done|]; by instantiate (1 := fun s' c =>
        s' = match c with Some _ => _ | None => _ end)|]. intros ? [r|] ->; by apply obeys_ret.
    - eapply obeys_bind; [apply obeys_ask; intros h; eexists; split; [done|]; by instantiate (1 := fun s' c =>
        s' = match c with Some _ => _ | None => _ end)|]. intros ? [r|] ->; by apply obeys_ret. }
  intros s2 r (Ha & Ho & Hb2 & Hp). eapply obeys_bind.
  { apply obeys_ask. intros h. eexists. split; [done|]. by instantiate (1 := fun s' _ => s' = set_armed false s2). }
  intros ? ? ->. destruct r as [x|[e|rep]]; [by apply obeys_ret..|]. eapply obeys_bind.
  - apply obeys_ask. intros h. simpl. rewrite Ho, Hb2. simpl. eexists. split; [done|].
    by instantiate (1 := fun s' _ => s' = set_opened false (set_armed false s2)).
  - intros ? ? ->. by apply obeys_ret.
Qed.
End Requests.

(** Every call, from its check for a standby to its end. *)
Lemma pg_call_obeys `{Answers Spi} {A} (spi_error : ColumnProblem -> bytes) (op : DbOp A) :
  obeys (request_rules (transaction_role op) (role_of op)) idle (pg_call spi_error op) (fun s r =>
    armed s = false /\ opened s = false /\
    (writable op = true -> primary s = false -> r = Err standby_error)).
Proof.
  unfold pg_call, in_request_context. eapply obeys_bind.
  { instantiate (1 := fun s standby => s = set_primary (writable op && negb standby) idle /\
      (writable op = false -> standby = false)). destruct (writable op).
    - apply obeys_ask. intros h. eexists. by split.
    - by apply obeys_ret. }
  intros s [] [-> Hw]; [by apply obeys_ret; destruct (writable op); [|specialize (Hw eq_refl)]|].
  eapply obeys_weaken; [apply (transaction_closes _ _ (writable op && true)); [done|]|].
  - intros s' Hs'. apply (context_inside _ _ _ (writable op && true)); [done|by rewrite andb_true_r|].
    intros s2 Hs2. apply method_inside; [done|by rewrite andb_true_r].
  - intros s' r (Ha & Ho & Hp). split_and!; [done..|]. intros Hwr Hpr. rewrite Hp, Hwr in Hpr. done.
Qed.

(** * Properties: the timer *)

(** The statement timer of one setting: it is only ever armed for [ms]
    milliseconds, and a transaction starts, runs its statements and commits
    while it is. *)
Definition timer_rules (ms : Z) (running : bool) (e : Interaction Spi) : option bool :=
  match e with
  | Happens effect _ =>
      match effect with
      | EnableTimeoutAfter delay_ms => if delay_ms =? ms then Some true else None
      | DisableTimeout => Some false
      | StartTransaction | CommitTransaction | Query _ _ _ _ => if running then Some true else None
      | AbortCurrentTransaction => if running then None else Some false
      | RecoveryInProgress | StatementTimeoutMs => Some running
      end
  end.

Section Timer.
Context `{Answers Spi} (spi_error : ColumnProblem -> bytes) (ms : Z).

(** [c] leaves the timer running. *)
Definition keeps_running {A} (c : InSpi A) : Prop := obeys (timer_rules ms) true c (fun running _ => running = true).

Lemma keeps_ret {A} (a : A) : keeps_running (ret a).
Proof. by apply obeys_ret. Qed.

Lemma keeps_bind {A B} (c : InSpi A) (k : A -> InSpi B) :
  keeps_running c -> (forall a, keeps_running (k a)) -> keeps_running (bind c k).
Proof. intros Hc Hk. eapply obeys_bind; [exact Hc|]. intros ? a ->. apply Hk. Qed.

Lemma keeps_query update sql limit args : keeps_running (query update sql limit args).
Proof. apply keeps_bind; [by apply obeys_steady|]. intros a. apply keeps_ret. Qed.

Ltac keep_running :=
  repeat first
    [ apply keeps_ret
    | apply keeps_query
    | apply keeps_bind; [|intros ?]
    | match goal with |- keeps_running (match ?x with _ => _ end) => destruct x end ].

Lemma method_keeps {A} (op : DbOp A) : keeps_running (method spi_error op).
Proof.
  destruct op; cbn [method]; unfold object_row, sealed_chunk, sealed_completion, first_row, all_rows, no_rows, decoded;
    keep_running.
Qed.

Lemma transaction_timed {A} (body : InSpi (result Failure A)) :
  (forall h, answers Z h StatementTimeoutMs = ms) -> 1 <= ms -> keeps_running body ->
  obeys (timer_rules ms) false (transaction body) (fun running _ => running = false).
Proof.
  intros Hms H1 Hb. unfold transaction. eapply obeys_bind.
  { apply obeys_ask. intros h. exists false. split; [done|].
    by instantiate (1 := fun running configured => running = false /\ configured = ms). }
  intros ? ? [-> ->]. eapply obeys_bind; [by apply obeys_steady|]. intros ? ? ->. eapply obeys_bind.
  { apply obeys_ask. intros h. exists true. simpl. replace (Z.max ms 1 =? ms) with true by lia. split; [done|].
    by instantiate (1 := fun running _ => running = true). }
  intros ? ? ->. eapply obeys_bind; [by apply obeys_steady|]. intros ? ? ->.
  eapply obeys_bind; [exact Hb|]. intros ? outcome ->.
  eapply obeys_bind.
  { instantiate (1 := fun running _ => running = true). destruct outcome as [x|[e|r]]; [| |by apply obeys_ret];
      (eapply obeys_bind; [by apply obeys_steady|]; intros ? ? ->; by apply obeys_ret). }
  intros ? result ->. eapply obeys_bind.
  { apply obeys_ask. intros h. exists false. split; [done|]. by instantiate (1 := fun running _ => running = false). }
  intros ? ? ->. destruct result as [x|[e|r]]; [by apply obeys_ret..|].
  eapply obeys_bind; [by apply obeys_steady|]. intros ? ? ->. by apply obeys_ret.
Qed.

(** Every call runs under the configured timeout. *)
Lemma pg_call_timed {A} (op : DbOp A) : (forall h, answers Z h StatementTimeoutMs = ms) -> 1 <= ms ->
  obeys (timer_rules ms) false (pg_call spi_error op) (fun running _ => running = false).
Proof.
  intros Hms H1. unfold pg_call, in_request_context. eapply obeys_bind.
  { instantiate (1 := fun running _ => running = false).
    destruct (writable op); [by apply obeys_steady|by apply obeys_ret]. }
  intros ? [] ->; [by apply obeys_ret|]. apply transaction_timed; [done|done|].
  apply keeps_bind; [destruct (transaction_role op); apply keeps_query|]. intros [rows|e]; [apply method_keeps|apply keeps_ret].
Qed.
End Timer.

(** * Properties: rows *)

(** The rows the statements return for records. *)
Definition row_of_object (r : ObjectRecord) : Row :=
  [DText (obj_bucket r); DText (obj_key r); DBigint (obj_version_id r); DBigint (obj_size r); DText (obj_etag r);
   DBytea (obj_sha256 r); nullable DText (obj_content_type r); DText (meta_json r); DBigint (obj_created_ms r)].
Definition row_of_delete (r : DeleteRecord) : Row :=
  [DText (deleted_key r); DBigint (deleted_version_id r); DBoolean (deleted_marker r); DBoolean (was_deleted r)].
Definition row_of_part (r : PartRecord) : Row :=
  [DInteger (pr_part_number r); DBigint (pr_size r); DText (pr_etag r); DBytea (pr_sha256 r); DBigint (pr_completed_ms r)].
Definition row_of_bucket (r : BucketRecord) : Row :=
  [DText (bucket_name r); DText (owner r); DBigint (bucket_created_ms r)].
Definition row_of_list (r : ListRecord) : Row :=
  [nullable DText (lr_key r); nullable DText (lr_common_prefix r); nullable DBigint (lr_version_id r);
   nullable DBigint (lr_size r); nullable DText (lr_etag r); nullable DBigint (lr_last_modified_ms r);
   nullable DText (lr_continuation_token r)].
Definition row_of_version (r : VersionRecord) : Row :=
  [nullable DText (vr_key r); nullable DText (vr_common_prefix r); nullable DBigint (vr_version_id r);
   nullable DBoolean (vr_is_latest r); nullable DBoolean (vr_delete_marker r); nullable DBigint (vr_size r);
   nullable DText (vr_etag r); nullable DBigint (vr_last_modified_ms r); nullable DText (vr_next_key_marker r);
   nullable DBigint (vr_next_version_id_marker r)].

Lemma nullable_text (v : option bytes) : from_datum AsText (nullable DText v) = Some v.
Proof. by destruct v. Qed.
Lemma nullable_bigint (v : option Z) : from_datum AsBigint (nullable DBigint v) = Some v.
Proof. by destruct v. Qed.
Lemma nullable_boolean (v : option bool) : from_datum AsBoolean (nullable DBoolean v) = Some v.
Proof. by destruct v. Qed.

Section Rows.
Context (spi_error : ColumnProblem -> bytes).

Lemma decode_object r tail : object_record spi_error (Some (row_of_object r ++ tail)) 0 = Ok r.
Proof.
  unfold object_record, required, optional, value. simpl. rewrite nullable_text. by destruct r.
Qed.
Lemma decode_delete r : delete_record spi_error (Some (row_of_delete r)) = Ok r.
Proof. by destruct r. Qed.
Lemma decode_part r : part_record spi_error (Some (row_of_part r)) = Ok r.
Proof. by destruct r. Qed.
Lemma decode_bucket r : bucket_record spi_error (Some (row_of_bucket r)) = Ok r.
Proof. by destruct r. Qed.
Lemma decode_list r : list_record spi_error (Some (row_of_list r)) = Ok r.
Proof.
  unfold list_record, optional, value. simpl. rewrite !nullable_text, !nullable_bigint. by destruct r.
Qed.
Lemma decode_version r : version_record spi_error (Some (row_of_version r)) = Ok r.
Proof.
  unfold version_record, optional, value. simpl. rewrite !nullable_text, !nullable_bigint, !nullable_boolean. by destruct r.
Qed.

Lemma decode_rows_map {T} decode (row_of : T -> Row) ts :
  (forall t, decode (Some (row_of t)) = Ok t) -> decode_rows decode (map row_of ts) = Ok ts.
Proof. intros Hd. induction ts as [|t ts IH]; simpl; [done|]. by rewrite Hd, IH. Qed.
End Rows.

(** * Properties: listings *)

Lemma returns_unit `{Answers Spi} (effect : Spi unit) : returns (ask effect) tt.
Proof. intros h. simpl. by destruct (answers unit h effect). Qed.

(** A server that runs a body to its commit. *)
Lemma returns_transaction `{Answers Spi} {A} ms (body : InSpi (result Failure A)) a :
  (forall h, answers Z h StatementTimeoutMs = ms) -> (forall h, answers _ h CommitTransaction = None) ->
  returns body (Ok a) -> returns (transaction body) (Ok a).
Proof.
  intros Hms Hc Hb. eapply returns_bind; [by apply returns_ask|].
  do 3 (eapply returns_bind; [apply returns_unit|]). eapply returns_bind; [exact Hb|].
  eapply returns_bind; [eapply returns_bind; [by apply returns_ask|apply returns_ret]|]. simpl.
  eapply returns_bind; [apply returns_unit|apply returns_ret].
Qed.

(** A bucket's entries after a position, as the database lists them
    ([pgs3.list], [src/sql/bootstrap.sql], line 2467): in order, a page at a
    time, with a token on the row whose ordinal is [max_keys] alone, and there
    only when the position after it has a key ([_prefix_end] of the last
    common prefix has none past the end of the key space). *)
Section Listing.
Context `{Answers Spi} (spi_error : ColumnProblem -> bytes) (role bucket : bytes) (params : ListParams) (v2 : bool).
(** What follows the position of the request, the token of a full page, and
    what follows a token. *)
Context (entries : list ListRecord) (token : option bytes) (after : bytes -> list ListRecord).
#[local] Abbreviation page_size := (Z.to_nat (list_max_keys params)).

Definition page_rows : list ListRecord :=
  imap (fun i r => set_token (if (S i =? page_size)%nat then token else None) r) (take page_size entries).

Record listing : Prop := {
  timeout_set : exists ms, forall h, answers Z h StatementTimeoutMs = ms;
  context_set : exists rows, forall h,
    answers Reply h (Query false TENANT_REQUEST_CONTEXT_SQL (Some 1) [DText role]) = Rows rows;
  commits : forall h, answers _ h CommitTransaction = None;
  page_of_entries : forall h,
    answers Reply h (Query false (list_sql v2) None
      [DText bucket; DText (prefix params); nullable DText (delimiter params);
       nullable DText (if v2 then start_after params else marker params);
       nullable DText (continuation_token params); DInteger (list_max_keys params)]) =
    Rows (map row_of_list page_rows);
  probe_of_token : forall h t,
    answers Reply h (Query false list_probe_sql (Some 1)
      [DText bucket; DText (prefix params); nullable DText (delimiter params); DText t]) =
    Rows (map (fun _ => [DInteger 1]) (take 1 (after t)));
  token_continues : match token with
    | Some t => after t = drop page_size entries
    | None => (length entries <= page_size)%nat
    end
}.

Lemma returns_query update sql limit args rows :
  (forall h, answers Reply h (Query update sql limit args) = Rows rows) -> returns (query update sql limit args) (Ok rows).
Proof. intros Hq. eapply returns_bind; [by apply returns_ask|apply returns_ret]. Qed.

(** The page, without a token when nothing follows. *)
Definition listed : list ListRecord :=
  if (page_size <? length entries)%nat then page_rows else map (set_token None) entries.

Lemma map_imap_const {A B} (f : A -> B) l : map f l = imap (fun _ => f) l.
Proof. symmetry. apply imap_const. Qed.

Lemma page_rows_entries : map (set_token None) page_rows = map (set_token None) (take page_size entries).
Proof.
  unfold page_rows. rewrite !map_imap_const. generalize (take page_size entries) as l. intros l.
  apply list_eq. intros i. rewrite !list_lookup_imap. by destruct (l !! i).
Qed.

Lemma page_rows_length : length page_rows = (page_size `min` length entries)%nat.
Proof. unfold page_rows. by rewrite length_imap, length_take. Qed.

Lemma page_rows_full : (0 < page_size <= length entries)%nat ->
  exists r, page_rows = map (set_token None) (take (page_size - 1) entries) ++ [set_token token r] /\
    take page_size entries = take (page_size - 1) entries ++ [r].
Proof.
  intros Hn. destruct (lookup_lt_is_Some_2 entries (page_size - 1)) as [r Hr]; [lia|]. exists r.
  assert (Ht : take page_size entries = take (page_size - 1) entries ++ [r]).
  { apply take_S_r in Hr. by replace (S (page_size - 1)) with page_size in Hr by lia. }
  split; [|done]. unfold page_rows. rewrite Ht, imap_app. f_equal.
  - rewrite map_imap_const. apply imap_ext. intros i x Hx%lookup_lt_Some. rewrite length_take in Hx.
    by destruct (Nat.eqb_spec (S i) page_size); [lia|].
  - cbn [imap]. unfold compose. rewrite length_take. cbv beta.
    by destruct (Nat.eqb_spec (S ((page_size - 1) `min` length entries + 0)) page_size); [|lia].
Qed.

Lemma page_rows_short : (length entries < page_size)%nat -> page_rows = map (set_token None) entries.
Proof.
  intros Hn. unfold page_rows. rewrite take_ge by lia. rewrite map_imap_const. apply imap_ext.
  intros i x Hx%lookup_lt_Some. by destruct (Nat.eqb_spec (S i) page_size); [lia|].
Qed.

Lemma update_last_snoc {A} (f : A -> A) l x : update_last f (l ++ [x]) = l ++ [f x].
Proof. unfold update_last. rewrite last_snoc, length_app, Nat.add_sub. by rewrite take_app_length. Qed.

(** A page that is the rest of the entries loses the token of its last row. *)
Lemma page_rows_last : (0 < page_size)%nat -> length entries = page_size ->
  update_last (set_token None) page_rows = map (set_token None) entries.
Proof.
  intros Hn He. destruct page_rows_full as (r & -> & Ht); [lia|]. rewrite update_last_snoc.
  rewrite take_ge in Ht by lia. rewrite Ht at 2. by rewrite map_app.
Qed.

Lemma list_objects_returns : listing -> 0 <= list_max_keys params ->
  returns (list_objects_body spi_error bucket params v2) (Ok listed).
Proof.
  intros [_ _ _ Hp Hq Ht] Hpos. eapply returns_bind.
  { eapply returns_bind; [by apply returns_query|]. simpl. unfold decoded.
    rewrite (decode_rows_map (list_record spi_error) row_of_list) by apply decode_list. apply returns_ret. }
  cbv iota beta. unfold listed. destruct (Z.ltb_spec 0 (list_max_keys params)) as [H0|H0]; cbn [andb]; cycle 1.
  { replace page_rows with (@nil ListRecord) by (unfold page_rows; by replace page_size with 0%nat by lia).
    destruct entries; [|replace page_size with 0%nat by lia]; apply returns_ret. }
  cbn [map_err]. rewrite page_rows_length.
  destruct (Z.eqb_spec (Z.of_nat (page_size `min` length entries)) (list_max_keys params)) as [E|E]; cycle 1.
  { destruct (Nat.ltb_spec page_size (length entries)); [lia|].
    rewrite page_rows_short by lia. apply returns_ret. }
  destruct page_rows_full as (r & Er & _); [lia|]. rewrite Er at 1. rewrite last_snoc. simpl.
  destruct token as [t|]; cycle 1.
  { destruct (Nat.ltb_spec page_size (length entries)); [lia|].
    rewrite <- (page_rows_last) by lia. rewrite Er, update_last_snoc. apply returns_ret. }
  eapply returns_bind; [by apply returns_query|]. simpl. rewrite Ht.
  destruct (Nat.ltb_spec page_size (length entries)) as [En|En].
  - destruct (drop page_size entries) eqn:Ed; [apply (f_equal length) in Ed; rewrite length_drop in Ed; simpl in Ed; lia|apply returns_ret].
  - rewrite drop_ge by lia. simpl. rewrite page_rows_last by lia. apply returns_ret.
Qed.

(** Only a token may be missing from a page. *)
Lemma listed_entries : map (set_token None) listed = map (set_token None) (take page_size entries).
Proof.
  unfold listed. destruct (Nat.ltb_spec page_size (length entries)); [apply page_rows_entries|].
  rewrite map_map. by rewrite take_ge by lia.
Qed.

Lemma listed_length : length listed = (page_size `min` length entries)%nat.
Proof. pose proof (f_equal length listed_entries) as E. by rewrite !length_map, length_take in E. Qed.

Lemma listed_continues : listing -> (0 < page_size < length entries)%nat ->
  exists r t, last listed = Some r /\ lr_continuation_token r = Some t /\ after t = drop page_size entries.
Proof.
  intros [_ _ _ _ _ Ht] Hlt. unfold listed. destruct (Nat.ltb_spec page_size (length entries)); [|lia].
  destruct page_rows_full as (r & -> & _); [lia|]. rewrite last_snoc.
  destruct token as [t|]; [|lia]. by exists (set_token (Some t) r), t.
Qed.

Lemma listed_truncated : listing -> 0 <= list_max_keys params <= 1000 ->
  is_list_truncated (list_max_keys params) listed
  = (0 <? list_max_keys params) && (page_size <? length entries)%nat.
Proof.
  intros Hl Hm. unfold is_list_truncated, len, as_usize. rewrite listed_length, Z.mod_small by lia.
  destruct (Z.ltb_spec 0 (list_max_keys params)) as [H0|H0]; [|done]. cbn [andb].
  destruct (Nat.ltb_spec page_size (length entries)) as [Hlt|Hge].
  - destruct listed_continues as (r & t & -> & E & _); [done|lia|]. simpl. rewrite E.
    rewrite Nat.min_l by lia. apply andb_true_iff. rewrite Z.eqb_eq. split; [lia|done].
  - apply andb_false_iff. right. unfold listed. destruct (Nat.ltb_spec page_size (length entries)); [lia|].
    destruct entries as [|x l _] using rev_ind; [done|]. rewrite map_app. cbn [map]. by rewrite last_snoc.
Qed.

Lemma list_call_returns : listing -> 0 <= list_max_keys params ->
  returns (pg_call spi_error (list_objects role bucket params v2)) (Ok listed).
Proof.
  intros Hl Hm. destruct (timeout_set Hl) as [ms Hms], (context_set Hl) as [rows Hc].
  eapply returns_bind; [apply returns_ret|]. simpl. eapply returns_transaction; [exact Hms|by apply Hl|].
  eapply returns_bind; [by apply returns_query|]. simpl. by apply list_objects_returns.
Qed.
End Listing.

(** * Main theorems *)

(** C28: Every method of the database runs by the rules of a request: statements
    only inside one transaction with the statement timer armed, the first of
    them setting the timeouts and the role of the call; as the server's own
    role a statement for a tenant names the tenant first; a statement that may
    write only after the server was found not to be a standby, and a call that
    writes is refused on one; none after an error in the transaction; and when
    the call returns, whether the statements succeeded, failed or raised, the
    timer is disarmed and the transaction is closed, by its commit or its
    abort. *)
Theorem pg_requests `{Answers Spi} {A} (spi_error : ColumnProblem -> bytes) (op : DbOp A) :
  obeys (request_rules (transaction_role op) (role_of op)) idle (pg_call spi_error op) (fun s r =>
    armed s = false /\ opened s = false /\
    (writable op = true -> primary s = false -> r = Err standby_error)).
Proof. apply pg_call_obeys. Qed.

(** Rows are decoded to the records they stand for: objects, alone or
    before the body of a read, deletions, parts, buckets, and the rows of
    listings with their optional columns, one record for each row in order. *)
Theorem rows_decode spi_error :
  (forall r body, object_data spi_error (Some (row_of_object r ++ [DBytea body])) = Ok {| info := r; data_body := body |}) /\
  (forall r, object_record spi_error (Some (row_of_object r)) 0 = Ok r) /\
  (forall rs, delete_many_rows spi_error (length rs) (map row_of_delete rs) = Ok (map Ok rs)) /\
  (forall rs, decode_rows (part_record spi_error) (map row_of_part rs) = Ok rs) /\
  (forall rs, decode_rows (bucket_record spi_error) (map row_of_bucket rs) = Ok rs) /\
  (forall rs, decode_rows (list_record spi_error) (map row_of_list rs) = Ok rs) /\
  (forall rs, decode_rows (version_record spi_error) (map row_of_version rs) = Ok rs).
Proof.
  split_and!; intros.
  - unfold object_data. by rewrite decode_object.
  - rewrite <- (app_nil_r (row_of_object r)). apply decode_object.
  - unfold delete_many_rows. rewrite decode_rows_map by apply decode_delete. simpl. by rewrite Nat.eqb_refl.
  - apply decode_rows_map, decode_part.
  - apply decode_rows_map, decode_bucket.
  - apply decode_rows_map, decode_list.
  - apply decode_rows_map, decode_version.
Qed.

(** C29: A listing says it is truncated exactly when there is more: over a
    database that lists the entries after a position in order, at most
    [max_keys] of them, with a token only on the row that fills the page, and
    on that row whenever entries are left, the call returns the first
    [max_keys] entries, unchanged but for that token. For [max_keys] from 1 to
    1000 the page counts as truncated exactly when entries are left, and then
    the token of its last entry continues with precisely those; for 0 the page
    is empty and never counts as truncated. *)
Theorem listing_pages `{Answers Spi} spi_error role bucket params v2 entries token after :
  listing role bucket params v2 entries token after -> 0 <= list_max_keys params <= 1000 ->
  exists page, (forall h, (pg_call spi_error (list_objects role bucket params v2) h).2 = Ok page) /\
    map (set_token None) page = map (set_token None) (take (Z.to_nat (list_max_keys params)) entries) /\
    is_list_truncated (list_max_keys params) page
    = (0 <? list_max_keys params) && (Z.to_nat (list_max_keys params) <? length entries)%nat /\
    (is_list_truncated (list_max_keys params) page = true ->
     exists r t, last page = Some r /\ lr_continuation_token r = Some t /\
       after t = drop (Z.to_nat (list_max_keys params)) entries).
Proof.
  intros Hl Hm. exists (listed params entries token). split_and!.
  - intros h. apply (list_call_returns spi_error role bucket params v2 entries token after Hl). lia.
  - apply listed_entries.
  - by eapply listed_truncated.
  - erewrite listed_truncated by done. intros [H0%Z.ltb_lt Hlt%Nat.ltb_lt]%andb_true_iff.
    eapply listed_continues; [done|lia].
Qed.

(** ** Witness *)

(** Three entries, two to a page. *)
Definition sample_entry (name : bytes) : ListRecord :=
  {| lr_key := Some name; lr_common_prefix := None; lr_version_id := Some 1; lr_size := Some 3; lr_etag := Some (bs "e");
     lr_last_modified_ms := Some 0; lr_continuation_token := None |}.
Definition sample_entries : list ListRecord := map sample_entry [bs "a"; bs "b"; bs "c"].
Definition sample_after (token : bytes) : list ListRecord :=
  if token ==b bs "after b" then drop 2 sample_entries else [].
Definition sample_params : ListParams :=
  {| prefix := []; delimiter := None; marker := None; start_after := None; continuation_token := None;
     requested_start_after := None; requested_continuation_token := None; list_max_keys := 2; encoding_type_url := false |}.

Definition sample_server : Answers Spi :=
  fun A h effect =>
    match effect in Spi B return B with
    | RecoveryInProgress => false
    | StatementTimeoutMs => 30000
    | CommitTransaction => None
    | Query _ sql _ args =>
        if sql ==b list_sql true then Rows (map row_of_list (page_rows sample_params sample_entries (Some (bs "after b"))))
        else
          match args with
          | [_; _; _; DText token] => Rows (map (fun _ => [DInteger 1]) (take 1 (sample_after token)))
          | _ => Rows []
          end
    | _ => tt
    end.

Lemma sample_listing : listing (H := sample_server) (bs "role") (bs "bucket") sample_params true sample_entries
  (Some (bs "after b")) sample_after.
Proof.
  split.
  - exists 30000. done.
  - exists []. intros h. vm_compute. reflexivity.
  - done.
  - intros h. vm_compute. reflexivity.
  - intros h token. unfold answers, sample_server. rewrite bool_decide_eq_false_2 by (vm_compute; discriminate). done.
  - vm_compute. reflexivity.
Qed.

Lemma listing_pages_witness :
  exists page,
    (forall h, (pg_call (H := sample_server) (fun _ => []) (list_objects (bs "role") (bs "bucket") sample_params true) h).2 = Ok page) /\
    map lr_key page = [Some (bs "a"); Some (bs "b")] /\ is_list_truncated 2 page = true.
Proof.
  destruct (listing_pages (H := sample_server) (fun _ => []) (bs "role") (bs "bucket") sample_params true sample_entries
    (Some (bs "after b")) sample_after sample_listing ltac:(done)) as (page & Hr & Hk & Ht & _).
  exists page. split; [exact Hr|]. split; [|exact Ht].
  apply (f_equal (map lr_key)) in Hk. rewrite !map_map in Hk. exact Hk.
Defined.
