(* ===== verification/Dispatch.v ===== *)
(** The operations of the S3 service, from [src/src/s3/service.rs]:
    [dispatch] with [get_or_head], [delete_objects] and the helpers they use.
    An operation is a [Run]: it asks its [World] for database calls and returns
    a response or an error.

    The theorems are about every world: which calls an operation makes, under
    which role, and what its response says of the answers. *)
From S2P Require Import Prelude Text Http Headers Canonical SigV4 Base64 Chunked XmlWrite Types XmlParse Checksums Calendar.
From S2P Require Import ListXml Route Effects Database Metadata.

(** The functions of the httpdate crate. *)
Class HttpDates := {
  parse_date : bytes -> option SystemTime;
  fmt_http_date : SystemTime -> bytes
}.

Record ServiceConfig := {
  config_region : option bytes;
  config_clock_skew : Z;
  max_object_bytes : Z;
  max_control_body_bytes : Z;
  staging_chunk_bytes : Z;
  direct_put_bytes : Z;
  xml_limits : XmlLimits
}.

Definition default_service_config : ServiceConfig :=
  {| config_region := None; config_clock_skew := 15 * 60 * nanos_per_sec;
     max_object_bytes := 5 * 1024 * 1024 * 1024; max_control_body_bytes := 1024 * 1024;
     staging_chunk_bytes := 4 * 1024 * 1024; direct_put_bytes := 64 * 1024; xml_limits := default_xml_limits |}.

(** [as u64] and [as i64]. *)
Definition as_u64 (n : Z) : Z := n mod 2 ^ 64.
Definition as_i64 (n : Z) : Z := (n + 2 ^ 63) mod 2 ^ 64 - 2 ^ 63.

Definition malformed_xml (message : bytes) : S3Error := S3Error_new 400 (bs "MalformedXML") message.

(** * Creating buckets *)

Section Region.
Context `{XmlReader}.

(** One event: whether the reader is inside LocationConstraint, and the text
    read there. *)
Definition region_event (s : bool * option bytes) (event : result bytes Event)
  : result S3Error (bool * option bytes) :=
  let (in_location, location) := s in
  match event with
  | Ok (EStart _ local_name) => Ok (local_name ==b bs "LocationConstraint", location)
  | Ok (EText content) =>
      if in_location then
        let* decoded := map_err malformed_xml content in
        let* text := map_err malformed_xml (XmlParse.unescape decoded) in
        Ok (in_location, Some text)
      else Ok s
  | Ok (EEnd local_name) =>
      if local_name ==b bs "LocationConstraint" then Ok (false, location) else Ok s
  | Ok EDocType | Ok EPI => Err (malformed_xml (bs "forbidden XML construct"))
  | Ok _ => Ok s
  | Err error => Err (malformed_xml error)
  end.

Definition parse_create_bucket_region (body : bytes) : result S3Error bytes :=
  if is_empty body then Ok (bs "us-east-1")
  else if 64 * 1024 <? len body then Err (malformed_xml (bs "CreateBucket XML is too large"))
  else
    let* (_, location) := fold_result region_event (false, None) (read_events body) in
    ok_or (non_empty location) (malformed_xml (bs "LocationConstraint is required")).
End Region.

(** * Small helpers *)

Definition content_type (headers : HeaderMap) : result S3Error (option bytes) :=
  one_header headers (bs "content-type").

Section Responses.
Context `{BodyHash}.

Definition put_response (info : ObjectRecord) : ServiceResponse :=
  header (header (header (ServiceResponse_empty 200)
    (bs "etag") (quoted (obj_etag info)))
    (bs "x-amz-version-id") (show_Z (obj_version_id info)))
    (bs "x-amz-checksum-sha256") (base64_encode (obj_sha256 info)).

Definition initiate_multipart_response (bucket key upload_id : bytes) (algorithm : option ChecksumAlgorithm)
  : ServiceResponse :=
  let response :=
    ServiceResponse_xml 200
      (serialize_initiate_multipart bucket key upload_id (option_map algorithm_name algorithm)
         (option_map (fun _ => CHECKSUM_TYPE_COMPOSITE) algorithm)) in
  match algorithm with
  | Some algorithm =>
      header (header response (bs "x-amz-checksum-algorithm") (algorithm_name algorithm))
        (bs "x-amz-checksum-type") CHECKSUM_TYPE_COMPOSITE
  | None => response
  end.
End Responses.

Definition unconditional_get_fast_path (headers : HeaderMap) (head_only : bool) : bool :=
  negb head_only
  && forallb (fun name => negb (is_some (HeaderMap_get headers name)))
       [bs "if-match"; bs "if-none-match"; bs "if-modified-since"; bs "if-unmodified-since"; bs "range";
        bs "if-range"; bs "x-amz-checksum-mode"].

Definition should_probe_current_delete_marker (head_only : bool) (version_id : option Z) (error : S3Error) : bool :=
  head_only && negb (is_some version_id) && (code error ==b bs "NoSuchKey").

Definition delete_marker_head_response (marker : DeleteMarkerRecord) : ServiceResponse :=
  header (header (ServiceResponse_empty 404) (bs "x-amz-delete-marker") (bs "true"))
    (bs "x-amz-version-id") (show_Z (marker_version_id marker)).

Definition checksum_mode_enabled (headers : HeaderMap) : result S3Error bool :=
  let* value := one_header headers (bs "x-amz-checksum-mode") in
  match value with
  | None => Ok false
  | Some value =>
      if eq_ignore_ascii_case value (bs "ENABLED") then Ok true
      else Err (S3Error_new 400 (bs "InvalidArgument") (bs "x-amz-checksum-mode must be ENABLED"))
  end.

Definition copy_source_names : list (bytes * bytes) :=
  [(bs "x-amz-copy-source-if-match", bs "if-match");
   (bs "x-amz-copy-source-if-none-match", bs "if-none-match");
   (bs "x-amz-copy-source-if-modified-since", bs "if-modified-since");
   (bs "x-amz-copy-source-if-unmodified-since", bs "if-unmodified-since")].

Definition has_copy_source_conditions (headers : HeaderMap) : bool :=
  existsb (fun name => is_some (HeaderMap_get headers name.1)) copy_source_names.

Definition validate_copy_destination (source_bucket source_key destination_bucket destination_key : bytes)
    (replaces_metadata : bool) : result S3Error unit :=
  if (source_bucket ==b destination_bucket) && (source_key ==b destination_key) && negb replaces_metadata
  then Err (invalid_request (bs "CopyObject to itself requires REPLACE metadata"))
  else Ok tt.

Definition parse_optional_version (value : option bytes) : result S3Error (option Z) :=
  transpose_map
    (fun value =>
       ok_or (match parse_i64 value with
              | Some version => if 0 <? version then Some version else None
              | None => None
              end)
         (S3Error_new 400 (bs "InvalidArgument") (bs "VersionId must be a positive integer"))) value.

Definition deleted_response_fields (target : DeleteTarget) (deleted : DeleteRecord)
  : option bytes * bool * option bytes :=
  (option_map show_Z (target_version_id target), deleted_marker deleted,
   if deleted_marker deleted then Some (show_Z (deleted_version_id deleted)) else None).

Definition object_tag (etag : bytes) : EntityTag := {| weak := false; opaque := etag |}.

Definition conditional_error (e : ConditionalError) : S3Error := invalid_request (ConditionalError_display e).

Definition range_error (e : RangeError) : S3Error := S3Error_new 416 (bs "InvalidRange") (RangeError_display e).

Section Copying.
Context `{HttpDates}.

(** The pairs of the loop: each source condition under its standard name. *)
Definition mapped_conditions (headers : HeaderMap) : result S3Error (list (bytes * bytes)) :=
  let* values := traverse (fun '(source_name, standard_name) =>
    let* value := one_header headers source_name in
    Ok (option_map (fun value => (standard_name, value)) value)) copy_source_names in
  Ok (omap id values).

Definition evaluate_copy_source_conditions (headers : HeaderMap) (source : ObjectRecord) : result S3Error unit :=
  let* mapped := mapped_conditions headers in
  let* mapped := map_err http_error (HeaderMap_from_pairs mapped) in
  let* conditions := map_err conditional_error (ConditionalHeaders_parse parse_date mapped) in
  match evaluate conditions (Some (object_tag (obj_etag source))) (Some (system_time (obj_created_ms source))) false with
  | Proceed => Ok tt
  | _ => Err (S3Error_new 412 (bs "PreconditionFailed") (bs "A CopyObject source precondition failed"))
  end.
End Copying.

(** * Operations *)

Section Dispatch.
Context `{World} `{BodyHash} `{XmlReader} `{HttpDates}.
Context (config : ServiceConfig).

(** The resolved range of a request, before If-Range. *)
Definition requested_range (headers : HeaderMap) (size : Z) : result S3Error (option ResolvedRange) :=
  match HeaderMap_get_all headers (bs "range") with
  | _ :: _ :: _ => Err (invalid_request (bs "Range must appear once"))
  | [] => Ok None
  | [value] =>
      let* spec := map_err range_error (ByteRangeSpec_parse value) in
      let* range := map_err range_error (ByteRangeSpec_resolve spec (as_u64 size)) in
      Ok (Some range)
  end.

(** If-Range drops the range unless the object is the one it names. *)
Definition effective_range (headers : HeaderMap) (resolved : option ResolvedRange) (etag : EntityTag)
    (last_modified : SystemTime) : result S3Error (option ResolvedRange) :=
  match HeaderMap_get_all headers (bs "if-range") with
  | _ :: _ :: _ => Err (invalid_request (bs "If-Range must appear once"))
  | [] => Ok resolved
  | [value] =>
      match resolved with
      | None => Ok None
      | Some range =>
          let* condition := map_err conditional_error (IfRange_parse parse_date value) in
          Ok (if permits_range condition etag last_modified then Some range else None)
      end
  end.

Definition object_response (status : Z) (headers : list (bytes * bytes)) (body : bytes) : ServiceResponse :=
  {| status := status; resp_headers := headers; body := body |}.

Definition content_range (range : ResolvedRange) (size : Z) : bytes :=
  bs "bytes " ++ show_Z (Headers.start range) ++ bs "-" ++ show_Z (Headers.end_ range) ++ bs "/" ++ show_Z size.

(** The rest of a read whose preconditions hold: the range, then the bytes. *)
Definition send_object (role bucket key : bytes) (info : ObjectRecord) (headers : HeaderMap) (head_only checksum_mode : bool)
    (etag : EntityTag) (last_modified : SystemTime) : Run (result S3Error ServiceResponse) :=
  let? resolved := ret (requested_range headers (obj_size info)) in
  let? resolved := ret (effective_range headers resolved etag last_modified) in
  match resolved with
  | Some range =>
      let? body :=
        (if head_only then ret (Ok [])
         else db (get_range role bucket key (obj_version_id info)
                    (as_i64 (Headers.start range)) (as_i64 (Headers.end_ range)))) in
      ret (Ok (object_headers fmt_http_date
        (object_response 206
           [(bs "content-range", content_range range (obj_size info));
            (bs "content-length", show_Z (ResolvedRange_len range))] body)
        info checksum_mode))
  | None =>
      if head_only then
        ret (Ok (object_headers fmt_http_date
          (header (ServiceResponse_empty 200) (bs "content-length") (show_Z (obj_size info)))
          info checksum_mode))
      else
        let? data := db (get_object role bucket key (Some (obj_version_id info))) in
        ret (Ok (object_headers fmt_http_date (object_response 200 [] (data_body data))
                   (Database.info data) checksum_mode))
  end.

Definition get_or_head (role bucket key : bytes) (version_id : option Z) (headers : HeaderMap) (head_only : bool)
  : Run (result S3Error ServiceResponse) :=
  if unconditional_get_fast_path headers head_only then
    let? data := db (get_object role bucket key version_id) in
    ret (Ok (object_headers fmt_http_date (object_response 200 [] (data_body data)) (info data) false))
  else
    let! found := call (head_object role bucket key version_id) in
    match found with
    | Err database_error =>
        let error := to_s3 database_error in
        if should_probe_current_delete_marker head_only version_id error then
          let? marker := db (current_delete_marker role bucket key) in
          ret (match marker with
               | Some marker => Ok (delete_marker_head_response marker)
               | None => Err error
               end)
        else ret (Err error)
    | Ok info =>
        let? checksum_mode := ret (checksum_mode_enabled headers) in
        let etag := object_tag (obj_etag info) in
        let last_modified := system_time (obj_created_ms info) in
        let? conditions := ret (map_err conditional_error (ConditionalHeaders_parse parse_date headers)) in
        match evaluate conditions (Some etag) (Some last_modified) true with
        | NotModified => ret (Ok (object_headers fmt_http_date (ServiceResponse_empty 304) info checksum_mode))
        | PreconditionFailed =>
            ret (Err (S3Error_new 412 (bs "PreconditionFailed") (bs "A retrieval precondition failed")))
        | Proceed => send_object role bucket key info headers head_only checksum_mode etag last_modified
        end
    end.

(** ** Deleting several objects *)

Definition delete_target (object : DeleteObjectIdentifier) : result S3Error DeleteTarget :=
  let* version_id := parse_optional_version (XmlParse.version_id object) in
  Ok {| target_key := object_key object; target_version_id := version_id |}.

(** One round of the loop over the targets and their results. *)
Definition delete_outcome (quiet : bool) (s : list DeletedObject * list DeleteObjectError)
    (p : DeleteTarget * result DbError DeleteRecord) : list DeletedObject * list DeleteObjectError :=
  let (deleted_owned, errors_owned) := s in
  let (target, result) := p in
  match result with
  | Ok deleted =>
      if negb quiet then
        let '(version, marker, marker_version) := deleted_response_fields target deleted in
        (deleted_owned ++ [{| del_key := target_key target; del_version_id := version; delete_marker := marker;
                              delete_marker_version_id := marker_version |}], errors_owned)
      else s
  | Err error =>
      let mapped := to_s3 error in
      (deleted_owned,
       errors_owned ++ [{| fail_key := target_key target;
                           fail_version_id := option_map show_Z (target_version_id target);
                           fail_code := code mapped; fail_message := message mapped |}])
  end.

Definition xml_error (e : XmlError) : S3Error := malformed_xml (XmlError_display e).

Definition delete_objects (role bucket body : bytes) : Run (result S3Error ServiceResponse) :=
  let? request := ret (map_err xml_error (parse_delete_objects body (xml_limits config))) in
  let? targets := ret (traverse delete_target (objects request)) in
  let? results := db (delete_many role bucket targets) in
  let (deleted, errors) := foldl (delete_outcome (quiet request)) ([], []) (zip targets results) in
  ret (Ok (ServiceResponse_xml 200 (serialize_delete_result deleted errors))).

(** ** Copying *)

Definition metadata_directive (headers : HeaderMap) : result S3Error bool :=
  let* value := one_header headers (bs "x-amz-metadata-directive") in
  match value with
  | None => Ok false
  | Some value =>
      if value ==b bs "COPY" then Ok false
      else if value ==b bs "REPLACE" then Ok true
      else Err (S3Error_new 400 (bs "InvalidArgument") (bs "x-amz-metadata-directive must be COPY or REPLACE"))
  end.

Definition copy_operation (role bucket key : bytes) (source : CopySource) (headers : HeaderMap)
  : Run (result S3Error ServiceResponse) :=
  let? replace := ret (metadata_directive headers) in
  let? _ := ret (validate_copy_destination (src_bucket source) (src_key source) bucket key replace) in
  let? meta := ret (if replace then let* m := metadata_json headers in Ok (Some m) else Ok None) in
  let? content_type := ret (if replace then content_type headers else Ok None) in
  let? guarded_source_etag := ret (one_header headers (bs "x-amz-copy-source-if-match")) in
  let? (source_version_id, guarded_source_etag) :=
    (if has_copy_source_conditions headers then
       let? source_info := db (head_object role (src_bucket source) (src_key source) (src_version_id source)) in
       let? _ := ret (evaluate_copy_source_conditions headers source_info) in
       ret (Ok (Some (obj_version_id source_info), Some (obj_etag source_info)))
     else ret (Ok (src_version_id source, guarded_source_etag))) in
  let? if_none_match := ret (one_header headers (bs "if-none-match")) in
  let? if_match := ret (one_header headers (bs "if-match")) in
  let? copied := db (copy_object role (src_bucket source) (src_key source) bucket key source_version_id
                       content_type meta if_none_match if_match guarded_source_etag) in
  ret (Ok (header
    (ServiceResponse_xml 200
       (serialize_copy_result (iso8601 (obj_created_ms copied)) (quoted (obj_etag copied))
          (Some (base64_encode (obj_sha256 copied)))))
    (bs "x-amz-version-id") (show_Z (obj_version_id copied)))).

(** ** Multipart uploads *)

Definition create_multipart (role bucket key : bytes) (headers : HeaderMap) : Run (result S3Error ServiceResponse) :=
  let? algorithm := ret (multipart_checksum_algorithm headers) in
  let? content_type := ret (content_type headers) in
  let? meta := ret (multipart_metadata_json headers algorithm) in
  let? if_none_match := ret (one_header headers (bs "if-none-match")) in
  let? if_match := ret (one_header headers (bs "if-match")) in
  let? upload_id := db (begin_upload role bucket key (default (bs "application/octet-stream") content_type) meta true
                          if_none_match if_match None) in
  ret (Ok (initiate_multipart_response bucket key upload_id algorithm)).

(** The SHA-256 check of a completion, by the algorithm stored with the
    upload. *)
Definition completion_checksum (role bucket key upload_id : bytes) (headers : HeaderMap)
    (completed : XmlParse.CompleteMultipartUpload) (stored_algorithm : option bytes)
  : Run (result S3Error (option MultipartSha256Completion)) :=
  match stored_algorithm with
  | Some algorithm =>
      if algorithm ==b bs "SHA256" then
        let? stored_parts := db (list_parts role bucket key upload_id) in
        let? supplied := ret (one_header headers (bs "x-amz-checksum-sha256")) in
        let? completion := ret (validate_multipart_sha256_completion completed stored_parts supplied) in
        ret (Ok (Some completion))
      else ret (Err (S3Error_new 501 (bs "NotImplemented")
                       (bs "The stored multipart checksum algorithm is not implemented")))
  | None =>
      ret (if is_some (HeaderMap_get headers (bs "x-amz-checksum-sha256"))
              || existsb (fun part => is_some (part_sha256 (checksums part))) (parts completed)
           then Err multipart_bad_digest else Ok None)
  end.

Definition complete_multipart_operation (role bucket key upload_id : bytes) (headers : HeaderMap) (body : bytes)
  : Run (result S3Error ServiceResponse) :=
  let? completed := ret (map_err xml_error (parse_complete_multipart body (xml_limits config))) in
  let numbers := map part_number (parts completed) in
  let etags := map etag (parts completed) in
  let? stored_algorithm := db (stored_checksum_algorithm role bucket key upload_id) in
  let? sha256_completion := completion_checksum role bucket key upload_id headers completed stored_algorithm in
  let? info := db (complete_multipart role bucket key upload_id numbers etags None
                     (option_map part_sha256s sha256_completion) (option_map composite sha256_completion)) in
  let response :=
    header (ServiceResponse_xml 200
      (serialize_complete_multipart (bs "/" ++ bucket ++ bs "/" ++ key) bucket key (quoted (obj_etag info))
         (option_map composite sha256_completion)
         (option_map (fun _ => CHECKSUM_TYPE_COMPOSITE) sha256_completion)))
      (bs "x-amz-version-id") (show_Z (obj_version_id info)) in
  ret (Ok (match sha256_completion with
           | Some completion =>
               header (header response (bs "x-amz-checksum-sha256") (composite completion))
                 (bs "x-amz-checksum-type") CHECKSUM_TYPE_COMPOSITE
           | None => response
           end)).

(** ** Dispatch *)

Definition describe_bucket (bucket : BucketRecord) : BucketDescription :=
  {| desc_name := bucket_name bucket; desc_creation_date := iso8601 (bucket_created_ms bucket) |}.

Definition restore_operation (role bucket key : bytes) (version_id : Z) (headers : HeaderMap)
  : Run (result S3Error ServiceResponse) :=
  let? if_match := ret (one_header headers (bs "if-match")) in
  let? restored := db (restore_object role bucket key version_id if_match) in
  ret (Ok (put_response restored)).

Definition abort_multipart_operation (role bucket key upload_id : bytes) : Run (result S3Error ServiceResponse) :=
  let? _ := db (abort_upload role bucket key upload_id true) in
  ret (Ok (ServiceResponse_empty 204)).

Definition list_parts_operation (role bucket key upload_id : bytes) (params : ListPartsParams)
  : Run (result S3Error ServiceResponse) :=
  let? stored := db (list_parts role bucket key upload_id) in
  ret (Ok (ServiceResponse_xml 200
    (ListXml.list_parts bucket key upload_id (part_number_marker params) (max_parts params) stored))).

Definition dispatch (role : bytes) (operation : Operation) (headers : HeaderMap) (body : bytes)
  : Run (result S3Error ServiceResponse) :=
  match operation with
  | ListBuckets =>
      let? buckets := db (list_buckets role) in
      ret (Ok (ServiceResponse_xml 200 (serialize_list_buckets role role (map describe_bucket buckets))))
  | CreateBucket bucket =>
      let? region := ret (parse_create_bucket_region body) in
      let? _ := db (create_bucket role bucket region) in
      ret (Ok (header (ServiceResponse_empty 200) (bs "location") (bs "/" ++ bucket)))
  | DeleteBucket bucket =>
      let? _ := db (delete_bucket role bucket) in
      ret (Ok (ServiceResponse_empty 204))
  | HeadBucket bucket =>
      let? _ := db (head_bucket role bucket) in
      ret (Ok (ServiceResponse_empty 200))
  | GetBucketLocation bucket =>
      let? region := db (bucket_location role bucket) in
      ret (Ok (ServiceResponse_xml 200
        (serialize_bucket_location (if region ==b bs "us-east-1" then None else Some region))))
  | GetBucketVersioning bucket =>
      let? _ := db (head_bucket role bucket) in
      ret (Ok (ServiceResponse_xml 200 serialize_versioning_enabled))
  | ListObjectsV1 bucket params =>
      let? records := db (list_objects role bucket params false) in
      ret (Ok (ServiceResponse_xml 200 (list_objects_v1 bucket params records)))
  | ListObjectsV2 bucket params =>
      let? records := db (list_objects role bucket params true) in
      ret (Ok (ServiceResponse_xml 200 (list_objects_v2 bucket params records)))
  | ListObjectVersions bucket params =>
      let? records := db (list_versions role bucket params) in
      ret (Ok (ServiceResponse_xml 200 (ListXml.list_versions bucket params records)))
  | GetObject bucket key version_id => get_or_head role bucket key version_id headers false
  | HeadObject bucket key version_id => get_or_head role bucket key version_id headers true
  | DeleteObject bucket key version_id =>
      let? deleted := db (delete_object role bucket key version_id) in
      ret (Ok (header (header (ServiceResponse_empty 204)
        (bs "x-amz-version-id") (show_Z (deleted_version_id deleted)))
        (bs "x-amz-delete-marker") (bool_text (deleted_marker deleted))))
  | DeleteObjects bucket => delete_objects role bucket body
  | CopyObject bucket key source => copy_operation role bucket key source headers
  | RestoreObject bucket key version_id => restore_operation role bucket key version_id headers
  | CreateMultipartUpload bucket key => create_multipart role bucket key headers
  | CompleteMultipartUpload bucket key upload_id =>
      complete_multipart_operation role bucket key upload_id headers body
  | AbortMultipartUpload bucket key upload_id => abort_multipart_operation role bucket key upload_id
  | ListParts bucket key upload_id params => list_parts_operation role bucket key upload_id params
  | PutObject _ _ | UploadPart _ _ _ _ => ret (Err internal)
  end.
End Dispatch.

(** * The calls of an operation *)

Definition made_call (P : forall A, DbOp A -> Prop) (e : Happened) : Prop :=
  match e with Happens effect _ => match effect with Call op => P _ op | _ => False end end.

Definition calls {B} (P : forall A, DbOp A -> Prop) (c : Run B) : Prop := runs c (fun _ t _ => Forall (made_call P) t).

Section Calls.
Context `{World} (P : forall A, DbOp A -> Prop).

Lemma calls_ret {B} (b : B) : calls P (ret b).
Proof. apply runs_ret. intros. constructor. Qed.

Lemma calls_call {A} (op : DbOp A) : P A op -> calls P (call op).
Proof. intros Hp. apply runs_ask. intros. by repeat constructor. Qed.

Lemma calls_db {A} (op : DbOp A) : P A op -> calls P (db op).
Proof. intros Hp. apply runs_db. intros. by repeat constructor. Qed.

Lemma calls_bind {A B} (c : Run A) (k : A -> Run B) : calls P c -> (forall a, calls P (k a)) -> calls P (bind c k).
Proof.
  intros Hc Hk. eapply runs_bind; [exact Hc|]. intros a. eapply runs_weaken; [apply Hk|].
  intros h2 t2 b Ht2 h t _ Ht. by apply Forall_app.
Qed.
End Calls.

(** Walks through a computation, leaving the condition of each call. *)
Ltac walk_calls :=
  repeat first
    [ apply calls_ret
    | apply calls_db
    | apply calls_call
    | apply calls_bind; [|intros ?]
    | match goal with |- calls _ (match ?x with _ => _ end) => destruct x end ].

(** The bucket and key a call addresses; a copy, its destination. *)
Definition call_address {A} (op : DbOp A) : option bytes * option bytes :=
  match op with
  | lookup_credential _ | list_buckets _ => (None, None)
  | create_bucket _ bucket _ | delete_bucket _ bucket | head_bucket _ bucket | bucket_location _ bucket
  | delete_many _ bucket _ | list_objects _ bucket _ _ | list_versions _ bucket _ => (Some bucket, None)
  | put_object _ bucket key _ _ _ _ _ _ | head_object _ bucket key _ | current_delete_marker _ bucket key
  | get_object _ bucket key _ | get_range _ bucket key _ _ _ | delete_object _ bucket key _
  | copy_object _ _ _ bucket key _ _ _ _ _ _ | restore_object _ bucket key _ _
  | begin_upload _ bucket key _ _ _ _ _ _ | renew_upload _ bucket key _ _ | put_chunk _ bucket key _ _ _ _
  | put_chunk_sealed _ bucket key _ _ _ _ | complete_upload _ bucket key _ _
  | complete_upload_sealed _ bucket key _ _ _ _ _ _ _ | finish_upload_sealed _ bucket key _ _ _ _ _ _ _ _ _ _
  | abort_upload _ bucket key _ _ | begin_part _ bucket key _ _ | abort_part _ bucket key _ _
  | complete_part _ bucket key _ _ _ | list_parts _ bucket key _ | stored_checksum_algorithm _ bucket key _
  | complete_multipart _ bucket key _ _ _ _ _ _ => (Some bucket, Some key)
  end.

(** The calls that change what is stored; the two that look at an upload run
    in a writable transaction and change nothing. *)
Definition mutates {A} (op : DbOp A) : bool :=
  match op with
  | list_parts _ _ _ _ | stored_checksum_algorithm _ _ _ _ => false
  | _ => writable op
  end.

(** A call an operation may make for [role]: for that role, on the bucket and
    key it addresses or, to look, on the source of a copy; and, for an
    operation that reads, none that changes anything. *)
Definition permitted (role : bytes) (operation : Operation) (A : Type) (op : DbOp A) : Prop :=
  role_of op = Some role /\
  (call_address op = addressed operation
   \/ match operation with
      | CopyObject _ _ source =>
          call_address op = (Some (src_bucket source), Some (src_key source)) /\ mutates op = false
      | _ => False
      end) /\
  (reading operation = true -> mutates op = false).

Section Claims.
Context `{World} `{BodyHash} `{XmlReader} `{HttpDates}.
Context (config : ServiceConfig).

Lemma dispatch_calls (role : bytes) (operation : Operation) (headers : HeaderMap) (body : bytes) :
  calls (permitted role operation) (dispatch config role operation headers body).
Proof.
  destruct operation; cbn [dispatch];
    unfold get_or_head, delete_objects, copy_operation, create_multipart, complete_multipart_operation,
      completion_checksum, restore_operation, abort_multipart_operation, list_parts_operation; walk_calls;
    (split; [done|split; [first [by left | by right]|by intros [=]]]).
Qed.

(** C27: Whatever the database answers, an operation only makes calls for the
    role it was given, on the bucket and key its request addresses, apart from
    looking up the source of a copy; and an operation that reads makes none
    that changes anything. *)
Theorem dispatch_confined (role : bytes) (operation : Operation) (headers : HeaderMap) (body : bytes) (h : history) :
  exists t, (dispatch config role operation headers body h).1 = h ++ t /\
    Forall (made_call (permitted role operation)) t.
Proof.
  destruct (dispatch_calls role operation headers body h) as (t & E & Ht). by exists t.
Qed.

(** ** Reading objects *)


















End Claims.

(** * Standbys *)

Section Standby.
Context `{World} `{BodyHash} `{XmlReader} `{HttpDates}.
Context (config : ServiceConfig).

(** [PgDatabase] on a server in recovery: every call is its request context
    around some transaction. *)
Definition standby : Prop :=
  forall A h (op : DbOp A), exists r, answers _ h (Call op) = with_request_context true (writable op) r.

Definition fails {A} (c : Run (result S3Error A)) : Prop := forall h, exists e, (c h).2 = Err e.

Lemma fails_db {A} (op : DbOp A) : standby -> writable op = true -> fails (db op).
Proof.
  intros Hs Hw h. destruct (Hs A h op) as [r Hr]. unfold db, bind, call, ask, ret. rewrite Hr, Hw. simpl. eauto.
Qed.

Lemma fails_here {A B} (c : Run (result S3Error A)) (k : A -> Run (result S3Error B)) :
  fails c -> fails (bind c (fun r => match r with Ok a => k a | Err e => ret (Err e) end)).
Proof.
  intros Hc h. unfold bind, ret. destruct (Hc h) as [e He]. destruct (c h) as [h1 r]. simpl in He. subst. simpl. eauto.
Qed.

Lemma fails_later {A B} (c : Run (result S3Error A)) (k : A -> Run (result S3Error B)) :
  (forall a, fails (k a)) -> fails (bind c (fun r => match r with Ok a => k a | Err e => ret (Err e) end)).
Proof.
  intros Hk h. unfold bind, ret. destruct (c h) as [h1 [a|e]]; [apply Hk|simpl; eauto].
Qed.

(** A standby refuses writes: on a server in recovery no operation that
    creates, changes, restores, copies or deletes anything reports success,
    whatever else the database answers. *)
Theorem standby_refuses (role : bytes) (operation : Operation) (headers : HeaderMap) (body : bytes) (h : history) :
  standby -> reading operation = false ->
  exists e, (dispatch config role operation headers body h).2 = Err e.
Proof.
  intros Hs Hr. enough (Hf : fails (dispatch config role operation headers body)) by apply Hf.
  destruct operation; try done; cbn [dispatch];
    unfold delete_objects, copy_operation, create_multipart, complete_multipart_operation, restore_operation,
      abort_multipart_operation;
    repeat first [ apply fails_here; by apply fails_db | apply fails_later; intros []
                 | apply fails_later; intros ? | by intros h0; eexists ].
Qed.
End Standby.

Section Copies.
Context `{World} `{BodyHash} `{HttpDates}.

(** The condition [o] that the header [name] of a request states. *)
Definition stated {A} (headers : HeaderMap) (name : bytes) (parse : bytes -> result ConditionalError A) (o : option A) : Prop :=
  exists value, one_header headers name = Ok value /\ transpose_map parse (option_map trim_ows value) = Ok o.

(** What a source has to satisfy: the match or, without one, not to be
    modified since a date; and not to match. *)
Definition source_satisfies (c : ConditionalHeaders) (tag : EntityTag) (modified : SystemTime) : Prop :=
  match if_match c with
  | Some condition => condition_holds strong_same condition (Some tag)
  | None => forall since, if_unmodified_since c = Some since -> second_precision modified <= second_precision since
  end /\
  (forall condition, if_none_match c = Some condition -> ~ condition_holds weak_same condition (Some tag)).

Lemma evaluate_source c tag modified : evaluate c (Some tag) (Some modified) false = Proceed ->
  source_satisfies c tag modified.
Proof.
  unfold evaluate, source_satisfies. intros E.
  destruct (match if_match c with Some _ => _ | None => _ end) eqn:Hf in E; [done|]. split.
  - destruct (if_match c) as [condition|].
    + apply negb_false_iff in Hf. by apply (condition_matches_spec strong_eq), Hf; apply strong_eq_spec.
    + intros since Hs. rewrite Hs in Hf. by apply Z.ltb_ge in Hf.
  - intros condition Hc. rewrite Hc in E. rewrite <- (condition_matches_spec weak_eq weak_same) by apply weak_eq_spec.
    by destruct (condition_matches weak_eq condition (Some tag)).
Qed.

(** The value a header list gives one of its distinct names. *)
Lemma header_of_pair_Ok name value f : header_of_pair (name, value) = Ok f ->
  f = {| header_name := lowercase name; header_value := trim_ows value |}.
Proof.
  unfold header_of_pair. destruct (_ || _); [done|]. destruct (negb _); [done|]. by intros [= <-].
Qed.

(** The four source headers are the conditions of the request. *)
Lemma mapped_conditions_stated headers pairs mapped c :
  mapped_conditions headers = Ok pairs -> HeaderMap_from_pairs pairs = Ok mapped ->
  ConditionalHeaders_parse parse_date mapped = Ok c ->
  stated headers (bs "x-amz-copy-source-if-match") TagCondition_parse (if_match c) /\
  stated headers (bs "x-amz-copy-source-if-none-match") TagCondition_parse (if_none_match c) /\
  stated headers (bs "x-amz-copy-source-if-modified-since") (parse_http_date parse_date) (if_modified_since c) /\
  stated headers (bs "x-amz-copy-source-if-unmodified-since") (parse_http_date parse_date) (if_unmodified_since c).
Proof.
  unfold mapped_conditions, copy_source_names, stated. cbn [traverse].
  destruct (one_header headers (bs "x-amz-copy-source-if-match")) as [m|]; [|done].
  destruct (one_header headers (bs "x-amz-copy-source-if-none-match")) as [n|]; [|done].
  destruct (one_header headers (bs "x-amz-copy-source-if-modified-since")) as [s|]; [|done].
  destruct (one_header headers (bs "x-amz-copy-source-if-unmodified-since")) as [u|]; [|done].
  intros [= <-] (fs & Ht & [= <-])%Ok_bind Hc.
  assert (Hone : one {| fields := fs |} (bs "if-match") = Ok (option_map trim_ows m) /\
    one {| fields := fs |} (bs "if-none-match") = Ok (option_map trim_ows n) /\
    one {| fields := fs |} (bs "if-modified-since") = Ok (option_map trim_ows s) /\
    one {| fields := fs |} (bs "if-unmodified-since") = Ok (option_map trim_ows u)).
  { destruct m, n, s, u; cbn -[header_of_pair] in Ht;
      repeat (match type of Ht with context [header_of_pair ?p] =>
        let E := fresh "E" in destruct (header_of_pair p) eqn:E; [|done]; apply header_of_pair_Ok in E as -> end);
      injection Ht as <-; done. }
  destruct Hone as (Om & On & Os & Ou). unfold ConditionalHeaders_parse in Hc. rewrite Om, On, Os, Ou in Hc.
  repeat (apply Ok_bind in Hc as (? & ? & Hc)). injection Hc as <-. cbn. eauto 12.
Qed.

(** C31: A conditional copy is pinned: when a CopyObject with any of the four
    [x-amz-copy-source-if-*] headers succeeds, the source was looked up, and
    what was found satisfies the stated [x-amz-copy-source-if-match] or, when
    there is none, [x-amz-copy-source-if-unmodified-since], and does not match
    the stated [x-amz-copy-source-if-none-match]; the one copy that was made
    names the version and the entity tag that were found, so a source replaced
    in between is not copied; an object is copied to itself only with new
    metadata. An [x-amz-copy-source-if-modified-since] has to parse and pins
    the copy likewise, but is not enforced: a source that was not modified
    since is copied ([copy_modified_since_ignored]). *)
Theorem copy_pinned (role b k : bytes) (source : CopySource) (headers : HeaderMap) (h h' : history)
    (r : ServiceResponse) :
  copy_operation role b k source headers h = (h', Ok r) ->
  has_copy_source_conditions headers = true ->
  exists i copied t m n y,
    let look := head_object role (src_bucket source) (src_key source) (src_version_id source) in
    let copy := copy_object role (src_bucket source) (src_key source) b k (Some (obj_version_id i)) t m n y
                  (Some (obj_etag i)) in
    h' = h ++ [Happens (Call look) (Ok i); Happens (Call copy) (Ok copied)] /\
    (exists c,
       stated headers (bs "x-amz-copy-source-if-match") TagCondition_parse (if_match c) /\
       stated headers (bs "x-amz-copy-source-if-none-match") TagCondition_parse (if_none_match c) /\
       stated headers (bs "x-amz-copy-source-if-modified-since") (parse_http_date parse_date) (if_modified_since c) /\
       stated headers (bs "x-amz-copy-source-if-unmodified-since") (parse_http_date parse_date) (if_unmodified_since c) /\
       source_satisfies c {| weak := false; opaque := obj_etag i |} (system_time (obj_created_ms i))) /\
    (src_bucket source = b -> src_key source = k -> exists json, m = Some json) /\
    (bs "x-amz-version-id", show_Z (obj_version_id copied)) ∈ resp_headers r.
Proof.
  unfold copy_operation. intros E Hc. rewrite Hc in E.
  apply try_Ok in E as (h1 & replace & E1 & E). apply ret_inv in E1 as [-> _].
  apply try_Ok in E as (h1 & [] & E1 & E). apply ret_inv in E1 as [-> Hself%eq_sym].
  apply try_Ok in E as (h1 & m & E1 & E). apply ret_inv in E1 as [-> Hm%eq_sym].
  apply try_Ok in E as (h1 & t & E1 & E). apply ret_inv in E1 as [-> _].
  apply try_Ok in E as (h1 & g & E1 & E). apply ret_inv in E1 as [-> _].
  apply try_Ok in E as (h1 & [sv se] & E1 & E).
  apply try_Ok in E1 as (h2 & i & E2 & E1). apply db_Ok in E2 as [_ ->].
  apply try_Ok in E1 as (h2 & [] & E2 & E1). apply ret_inv in E2 as [-> Hev%eq_sym].
  apply ret_inv in E1 as [-> [= -> ->]].
  apply try_Ok in E as (h2 & n & E1 & E). apply ret_inv in E1 as [-> _].
  apply try_Ok in E as (h2 & y & E1 & E). apply ret_inv in E1 as [-> _].
  apply try_Ok in E as (h2 & copied & E1 & E). apply db_Ok in E1 as [_ ->]. apply ret_inv in E as [-> [= ->]].
  exists i, copied, t, m, n, y. cbn zeta. split; [by rewrite <- app_assoc|]. split; [|split].
  - unfold evaluate_copy_source_conditions in Hev. apply Ok_bind in Hev as (pairs & Hp & Hev).
    apply Ok_bind in Hev as (mapped & Hf%map_err_Ok & Hev). apply Ok_bind in Hev as (c & Hq%map_err_Ok & Hev).
    exists c. destruct (mapped_conditions_stated _ _ _ _ Hp Hf Hq) as (H1' & H2' & H3' & H4').
    do 4 (split; [done|]). apply evaluate_source. by destruct (evaluate c _ _ false).
  - intros <- <-. unfold validate_copy_destination in Hself. rewrite !bool_decide_eq_true_2 in Hself by done.
    destruct replace; [|done]. apply Ok_bind in Hm as (json & _ & [= <-]). by exists json.
  - simpl. right. by left.
Qed.
End Copies.

(** * Examples *)

Definition sample_object : ObjectRecord :=
  {| obj_bucket := bs "photos"; obj_key := bs "cat"; obj_version_id := 7; obj_size := 11; obj_etag := bs "abc";
     obj_sha256 := []; obj_content_type := None; meta_json := bs "{}"; obj_created_ms := 0 |}.


(** A database that holds one object of one version. *)
Definition sample_world : World := fun A h effect =>
  match effect in Effect A return A with
  | Call op =>
      match op in DbOp B return result DbError B with
      | head_object _ _ _ _ => Ok sample_object
      | get_object _ _ _ (Some v) =>
          if v =? 7 then Ok {| info := sample_object; data_body := bs "hello world" |}
          else Err (DbError_internal (bs "no such version"))
      | get_object _ _ _ None => Ok {| info := sample_object; data_body := bs "hello world" |}
      | get_range _ _ _ _ s e => Ok (take (Z.to_nat (e - s + 1)) (drop (Z.to_nat s) (bs "hello world")))
      | copy_object _ _ _ _ _ _ _ _ _ _ _ => Ok sample_object
      | _ => Err (DbError_internal (bs "not provided"))
      end
  | InstantNow | SystemTimeNow => 0
  | RequestId => bs "id"
  end.

#[local] Instance sample_dates : HttpDates := {| parse_date := fun _ => Some 0; fmt_http_date := fun _ => bs "date" |}.






Definition sample_copy_headers : HeaderMap :=
  {| fields := [{| header_name := bs "x-amz-copy-source-if-match"; header_value := bs "abc" |}] |}.

Definition sample_source : CopySource := {| src_bucket := bs "photos"; src_key := bs "cat"; src_version_id := None |}.

Lemma copy_pinned_witness : exists h' r, @copy_operation sample_world sample_hash sample_dates (bs "role") (bs "b") (bs "k")
    sample_source sample_copy_headers [] = (h', Ok r) /\
  exists i copied, (bs "x-amz-version-id", show_Z (obj_version_id copied)) ∈ resp_headers r /\
    condition_holds strong_same (Tags [object_tag (bs "abc")]) (Some (object_tag (obj_etag i))).
Proof.
  eexists _, _. split; [vm_compute; reflexivity|].
  destruct (@copy_pinned sample_world sample_hash sample_dates (bs "role") (bs "b") (bs "k") sample_source sample_copy_headers
              [] _ _ eq_refl eq_refl) as (i & copied & t & m & n & y & Hh & (c & (v & [= <-] & Hm) & _ & _ & _ & Hs & _) & _ & Hv).
  exists i, copied. split; [done|].
  assert (Hc : if_match c = Some (Tags [object_tag (bs "abc")])).
  { transitivity (match transpose_map TagCondition_parse (Some (bs "abc")) with Ok o => o | Err _ => None end);
      [|by vm_compute]. by rewrite (Hm : transpose_map TagCondition_parse (Some (bs "abc")) = Ok (if_match c)). }
  rewrite Hc in Hs. exact Hs.
Defined.

Definition sample_since_headers : HeaderMap :=
  {| fields := [{| header_name := bs "x-amz-copy-source-if-modified-since";
                   header_value := bs "Thu, 01 Jan 1970 00:00:00 GMT" |}] |}.

(** The sample object was last modified at the epoch, not since, and is
    copied. *)
Lemma copy_modified_since_ignored :
  (exists c, ConditionalHeaders_parse parse_date {| fields := [{| header_name := bs "if-modified-since";
       header_value := bs "Thu, 01 Jan 1970 00:00:00 GMT" |}] |} = Ok c /\
     copy_is_current c (Some (object_tag (obj_etag sample_object))) (Some (system_time (obj_created_ms sample_object)))) /\
  exists h' r, @copy_operation sample_world sample_hash sample_dates (bs "role") (bs "b") (bs "k")
    sample_source sample_since_headers [] = (h', Ok r).
Proof.
  split.
  - eexists. split; [vm_compute; reflexivity|]. exists 0, 0. by vm_compute.
  - eexists _, _. vm_compute. reflexivity.
Qed.

(** A database in recovery. *)
Definition standby_world : World := fun A h effect =>
  match effect in Effect A return A with
  | Call op => with_request_context true (writable op) (Err (DbError_internal (bs "no rows")))
  | InstantNow | SystemTimeNow => 0
  | RequestId => bs "id"
  end.

Lemma standby_refuses_witness : exists e,
  (@dispatch standby_world sample_hash (one_document []) sample_dates default_service_config (bs "role")
     (DeleteBucket (bs "photos")) {| fields := [] |} [] []).2 = Err e.
Proof.
  apply (@standby_refuses standby_world sample_hash (one_document []) sample_dates default_service_config); [|reflexivity].
  intros A h op. by eexists.
Defined.
