(* ===== verification/Session.v ===== *)
(** Requests and body sessions of the S3 service, from
    [src/src/s3/service.rs]: authorization, the choice of a sink for the body,
    receiving it, and the commit or the abort at its end.  [PgS3Service] is an
    instance of the [S3Handler] of [Exchange].

    The theorems follow the calls to the database: a role acts only after the
    signature of the request was verified with the secret stored for it; the
    chunks staged for an upload are the body, cut evenly and numbered from
    zero; and an object is published only after the whole body was received
    and every checksum holds. *)
From S2P Require Import Prelude Text Http Headers Canonical SigV4 Base64 Chunked XmlWrite Types Framing Response.
From S2P Require Import Exchange XmlParse Checksums Calendar ListXml Route Effects Database Metadata Dispatch.

Definition MAX_DIRECT_PUT_BYTES : Z := 64 * 1024.
Definition MIN_STAGING_CHUNK_BYTES : Z := 64 * 1024.
Definition MAX_STAGING_CHUNK_BYTES : Z := 16 * 1024 * 1024.

(** [PgS3Service::new] *)
Definition service_config (config : ServiceConfig) : ServiceConfig :=
  let control := Z.max (max_control_body_bytes config) 1 in
  {| config_region := config_region config; config_clock_skew := config_clock_skew config;
     max_object_bytes := max_object_bytes config; max_control_body_bytes := control;
     staging_chunk_bytes :=
       Z.max MIN_STAGING_CHUNK_BYTES (Z.min MAX_STAGING_CHUNK_BYTES (staging_chunk_bytes config));
     direct_put_bytes :=
       Z.min (Z.min (Z.min (direct_put_bytes config) control) MAX_DIRECT_PUT_BYTES)
         (default usize_max (checked 0 usize_max (max_object_bytes config)));
     xml_limits := xml_limits config |}.

(** * Leases: instants are nanoseconds of a monotonic clock *)

Definition UPLOAD_LEASE_HEARTBEAT_INTERVAL : Z := 60 * nanos_per_sec.

Record UploadLeaseHeartbeat := { next_beat : Z }.

Definition heartbeat_new (now : Z) : UploadLeaseHeartbeat := {| next_beat := now + UPLOAD_LEASE_HEARTBEAT_INTERVAL |}.

Definition touched (now : Z) (heartbeat : UploadLeaseHeartbeat) : UploadLeaseHeartbeat :=
  {| next_beat := now + UPLOAD_LEASE_HEARTBEAT_INTERVAL |}.

Definition renew_if_due {E} (now : Z) (heartbeat : UploadLeaseHeartbeat) (renew : Run (result E unit))
  : Run (UploadLeaseHeartbeat * result E bool) :=
  if now <? next_beat heartbeat then ret (heartbeat, Ok false)
  else
    let! renewed := renew in
    ret (match renewed with
         | Ok _ => (touched now heartbeat, Ok true)
         | Err error => (heartbeat, Err error)
         end).

(** * Sessions *)

Record DirectPutSink := {
  direct_bucket : bytes;
  direct_key : bytes;
  direct_content_type : bytes;
  direct_meta_json : bytes;
  direct_if_none_match : option bytes;
  direct_if_match : option bytes;
  direct_expected_sha256 : option bytes;
  max_body_bytes : Z;
  direct_body : bytes
}.

Record StagedSink := {
  staged_bucket : bytes;
  staged_key : bytes;
  upload_id : bytes;
  staged_part_number : Z;
  sequence : Z;
  chunk_bytes : Z;
  buffer : bytes;
  chunk_blob_ids : list bytes;
  chunk_sizes : list Z
}.

Inductive BodySink :=
| DirectPut (sink : DirectPutSink)
| Staged (sink : StagedSink)
| Buffered (body : bytes).

Record BodySession := {
  request_id : bytes;
  resource : bytes;
  role : bytes;
  s_operation : Operation;
  s_headers : HeaderMap;
  s_payload_mode : PayloadMode;
  decoder : option Decoder;
  sink : BodySink;
  digests : BodyDigests;
  expected : ExpectedChecksums;
  expected_wire_bytes : option Z;
  wire_bytes : Z;
  s_decoded_bytes : Z;
  s_max_decoded_bytes : Z;
  lease_heartbeat : option UploadLeaseHeartbeat;
  active : bool
}.

Definition update_session (s : BodySession) (d : option Decoder) (k : BodySink) (g : BodyDigests)
    (e : ExpectedChecksums) (wire decoded : Z) (lease : option UploadLeaseHeartbeat) (a : bool) : BodySession :=
  {| request_id := request_id s; resource := resource s; role := role s; s_operation := s_operation s;
     s_headers := s_headers s; s_payload_mode := s_payload_mode s; decoder := d; sink := k; digests := g;
     expected := e; expected_wire_bytes := expected_wire_bytes s; wire_bytes := wire; s_decoded_bytes := decoded;
     s_max_decoded_bytes := s_max_decoded_bytes s; lease_heartbeat := lease; active := a |}.

Definition set_active (a : bool) (s : BodySession) : BodySession :=
  update_session s (decoder s) (sink s) (digests s) (expected s) (wire_bytes s) (s_decoded_bytes s) (lease_heartbeat s) a.
Definition set_sink (k : BodySink) (s : BodySession) : BodySession :=
  update_session s (decoder s) k (digests s) (expected s) (wire_bytes s) (s_decoded_bytes s) (lease_heartbeat s) (active s).
Definition set_wire (n : Z) (s : BodySession) : BodySession :=
  update_session s (decoder s) (sink s) (digests s) (expected s) n (s_decoded_bytes s) (lease_heartbeat s) (active s).
Definition set_decoder (d : option Decoder) (s : BodySession) : BodySession :=
  update_session s d (sink s) (digests s) (expected s) (wire_bytes s) (s_decoded_bytes s) (lease_heartbeat s) (active s).
Definition set_expected (e : ExpectedChecksums) (s : BodySession) : BodySession :=
  update_session s (decoder s) (sink s) (digests s) e (wire_bytes s) (s_decoded_bytes s) (lease_heartbeat s) (active s).
Definition set_lease (l : option UploadLeaseHeartbeat) (s : BodySession) : BodySession :=
  update_session s (decoder s) (sink s) (digests s) (expected s) (wire_bytes s) (s_decoded_bytes s) l (active s).
Definition set_received (decoded : Z) (g : BodyDigests) (s : BodySession) : BodySession :=
  update_session s (decoder s) (sink s) g (expected s) (wire_bytes s) decoded (lease_heartbeat s) (active s).

Definition set_buffered (b : bytes) (k : StagedSink) : StagedSink :=
  {| staged_bucket := staged_bucket k; staged_key := staged_key k; upload_id := upload_id k;
     staged_part_number := staged_part_number k; sequence := sequence k; chunk_bytes := chunk_bytes k; buffer := b;
     chunk_blob_ids := chunk_blob_ids k; chunk_sizes := chunk_sizes k |}.
Definition set_sequence (n : Z) (k : StagedSink) : StagedSink :=
  {| staged_bucket := staged_bucket k; staged_key := staged_key k; upload_id := upload_id k;
     staged_part_number := staged_part_number k; sequence := n; chunk_bytes := chunk_bytes k; buffer := buffer k;
     chunk_blob_ids := chunk_blob_ids k; chunk_sizes := chunk_sizes k |}.
Definition push_chunk (c : ChunkRecord) (k : StagedSink) : StagedSink :=
  {| staged_bucket := staged_bucket k; staged_key := staged_key k; upload_id := upload_id k;
     staged_part_number := staged_part_number k; sequence := sequence k; chunk_bytes := chunk_bytes k;
     buffer := buffer k; chunk_blob_ids := chunk_blob_ids k ++ [blob_id c];
     chunk_sizes := chunk_sizes k ++ [Database.chunk_size c] |}.

(** * Errors *)

Definition too_large (message : bytes) : S3Error := S3Error_new 400 (bs "EntityTooLarge") message.

Definition chunked_error (error : ChunkedError) : S3Error :=
  match error with
  | ChunkedError.ChecksumMismatch name =>
      S3Error_new 400 (bs "BadDigest") (bs "The " ++ name ++ bs " trailer did not match the body")
  | ChunkedError.InvalidChecksumEncoding name =>
      S3Error_new 400 (bs "InvalidDigest") (name ++ bs " is not a valid S3 checksum")
  | ChunkedError.DecodedBodyTooLarge | ChunkedError.ChunkTooLarge => too_large (bs "Decoded body is too large")
  | ChunkedError.DecodedLengthMismatch _ _ | ChunkedError.MissingChunkTerminator | ChunkedError.MissingTrailer _ =>
      S3Error_new 400 (bs "IncompleteBody") (ChunkedError_display error)
  | _ => S3Error_new 400 (bs "InvalidRequest") (ChunkedError_display error)
  end.

Definition sigv4_error (error : SigV4Error) : S3Error :=
  match error with
  | SigV4Error.SignatureMismatch =>
      S3Error_new 403 (bs "SignatureDoesNotMatch") (bs "The request signature we calculated does not match")
  | SigV4Error.PresignedUrlExpired => S3Error_new 403 (bs "AccessDenied") (bs "Request has expired")
  | SigV4Error.PresignedUrlNotYetValid | SigV4Error.RequestTimeTooSkewed =>
      S3Error_new 403 (bs "RequestTimeTooSkewed")
        (bs "The difference between request time and server time is too large")
  | SigV4Error.PayloadHashMismatch =>
      S3Error_new 400 (bs "XAmzContentSHA256Mismatch") (bs "The x-amz-content-sha256 value did not match the body")
  | SigV4Error.RegionMismatch | SigV4Error.ServiceMismatch =>
      S3Error_new 400 (bs "AuthorizationHeaderMalformed") (SigV4Error_display error)
  | _ => S3Error_new 403 (bs "AccessDenied") (SigV4Error_display error)
  end.

(** * Sinks *)

Definition direct_put_eligible (content_length : option Z) (transfer_chunked has_aws_decoder has_expect : bool)
    (max_body_bytes : Z) : bool :=
  negb transfer_chunked && negb has_aws_decoder && negb has_expect
  && match content_length with Some length => length <=? max_body_bytes | None => false end.

(** Lengths of slices are below [usize_max], so the sum does not saturate. *)
Definition append_direct_body (body decoded : bytes) (max_body_bytes : Z) : result S3Error bytes :=
  if max_body_bytes <? len body + len decoded
  then Err (too_large (bs "Direct object body exceeded its bounded buffer"))
  else Ok (body ++ decoded).

(** The buffer, what is left, and whether the buffer is full. *)
Definition append_staged_slice (buffer remaining : bytes) (staging_chunk_bytes : Z) : bytes * bytes * bool :=
  let capacity := staging_chunk_bytes - len buffer in
  let count := Z.to_nat (Z.min capacity (len remaining)) in
  let buffer := buffer ++ take count remaining in
  (buffer, drop count remaining, len buffer =? staging_chunk_bytes).

Section Session.
Context `{World} `{BodyHash} `{XmlReader} `{HttpDates}.
Context (config : ServiceConfig).

(** A full chunk goes to the database. *)
Definition store_chunk (role : bytes) (k : StagedSink) (data : bytes) : Run (StagedSink * result S3Error unit) :=
  if staged_part_number k =? 0 then
    let! stored := db (put_chunk_sealed role (staged_bucket k) (staged_key k) (upload_id k) (sequence k) data
                         (sha256 data)) in
    ret (match stored with Ok chunk => (push_chunk chunk k, Ok tt) | Err error => (k, Err error) end)
  else
    let! stored := db (put_chunk role (staged_bucket k) (staged_key k) (upload_id k) (sequence k) data
                         (staged_part_number k)) in
    ret (k, stored).

(** The loop over the decoded bytes. Every round but the first takes a byte,
    so [S (S (length remaining))] rounds suffice. *)
Fixpoint stage_loop (fuel : nat) (role : bytes) (fixed_body_complete : bool) (k : StagedSink)
    (lease : option UploadLeaseHeartbeat) (remaining : bytes)
  : Run (StagedSink * option UploadLeaseHeartbeat * result S3Error unit) :=
  match fuel with
  | O => ret (k, lease, Ok tt)
  | S fuel =>
      if is_empty remaining then ret (k, lease, Ok tt)
      else
        let '(buffered, remaining, full) := append_staged_slice (buffer k) remaining (chunk_bytes k) in
        if negb full then stage_loop fuel role fixed_body_complete (set_buffered buffered k) lease remaining
        else if (staged_part_number k =? 0) && fixed_body_complete && is_empty remaining
        then ret (set_buffered buffered k, lease, Ok tt)
        else
          let! (k, stored) := store_chunk role (set_buffered [] k) buffered in
          match stored with
          | Err error => ret (k, lease, Err error)
          | Ok _ =>
              let! lease :=
                match lease with
                | Some heartbeat => let! now := ask InstantNow in ret (Some (touched now heartbeat))
                | None => ret None
                end in
              match checked i32_min i32_max (sequence k + 1) with
              | None => ret (k, lease, Err (too_large (bs "Object has too many chunks")))
              | Some sequence => stage_loop fuel role fixed_body_complete (set_sequence sequence k) lease remaining
              end
          end
  end.

Definition session_accept (s : BodySession) (decoded : bytes) : Run (BodySession * result S3Error unit) :=
  match checked_add_u64 (s_decoded_bytes s) (len decoded) with
  | None => ret (s, Err (too_large (bs "Decoded body is too large")))
  | Some total =>
      if s_max_decoded_bytes s <? total
      then ret (set_received total (digests s) s, Err (too_large (bs "Decoded body is too large")))
      else
        let s := set_received total (BodyDigests_update (digests s) decoded) s in
        let fixed_body_complete :=
          negb (is_some (decoder s)) && (expected_wire_bytes s ==b Some (wire_bytes s)) in
        match sink s with
        | DirectPut k =>
            ret (match append_direct_body (direct_body k) decoded (max_body_bytes k) with
                 | Err error => (s, Err error)
                 | Ok body =>
                     (set_sink (DirectPut
                        {| direct_bucket := direct_bucket k; direct_key := direct_key k;
                           direct_content_type := direct_content_type k; direct_meta_json := direct_meta_json k;
                           direct_if_none_match := direct_if_none_match k; direct_if_match := direct_if_match k;
                           direct_expected_sha256 := direct_expected_sha256 k; max_body_bytes := max_body_bytes k;
                           direct_body := body |}) s, Ok tt)
                 end)
        | Buffered body =>
            ret (if max_control_body_bytes config <? len body + len decoded
                 then (s, Err (too_large (bs "Control request body is too large")))
                 else (set_sink (Buffered (body ++ decoded)) s, Ok tt))
        | Staged k =>
            let! (k, lease, result) :=
              stage_loop (S (S (length decoded))) (role s) fixed_body_complete k (lease_heartbeat s) decoded in
            ret (set_lease lease (set_sink (Staged k) s), result)
        end
  end.

(** * Ends of sessions *)

Definition session_error (s : BodySession) (error : S3Error) : ServiceResponse :=
  finalize (S3Error_response error (resource s) (request_id s)) (request_id s) (is_head (s_operation s)).

Definition cleanup (s : BodySession) : Run unit :=
  match sink s with
  | Staged k =>
      if staged_part_number k =? 0 then
        let! _ := call (abort_upload (role s) (staged_bucket k) (staged_key k) (upload_id k) false) in ret tt
      else
        let! _ := call (abort_part (role s) (staged_bucket k) (staged_key k) (upload_id k) (staged_part_number k)) in
        ret tt
  | _ => ret tt
  end.

Definition fail_session (s : BodySession) (error : S3Error) : Run (BodySession * ServiceResponse) :=
  let! _ := cleanup s in
  ret (set_active false s, session_error s error).

Definition inactive_error : S3Error := invalid_request (bs "request body session is no longer active").

Definition session_abort (s : BodySession) : Run BodySession :=
  let! _ := cleanup s in ret (set_active false s).

Definition renew_upload_lease_if_due (s : BodySession) (now : Z) : Run (BodySession * result DbError unit) :=
  match lease_heartbeat s, sink s with
  | None, _ => ret (s, Ok tt)
  | Some heartbeat, Staged k =>
      let! (heartbeat, renewed) :=
        renew_if_due now heartbeat
          (call (renew_upload (role s) (staged_bucket k) (staged_key k) (upload_id k)
                   (negb (staged_part_number k =? 0)))) in
      ret (set_lease (Some heartbeat) s, match renewed with Ok _ => Ok tt | Err error => Err error end)
  | Some _, _ => ret (s, Ok tt)
  end.

(** * Receiving a body *)

(** A push on the decoder that neither succeeds nor fails would be a panic;
    [Chunked.push_waiting] excludes it. *)
Definition session_push (s : BodySession) (input : bytes) : Run (BodySession * result ServiceResponse unit) :=
  let failing s error := let! (s, response) := fail_session s error in ret (s, Err response) in
  if negb (active s) then ret (s, Err (session_error s inactive_error))
  else
    match checked_add_u64 (wire_bytes s) (len input) with
    | None => failing s (too_large (bs "Request entity is too large"))
    | Some total =>
        let s := set_wire total s in
        if match expected_wire_bytes s with Some expected => expected <? wire_bytes s | None => false end
        then failing s (S3Error_new 400 (bs "IncompleteBody") (bs "More bytes were received than Content-Length"))
        else
          let! (s, accepted) :=
            match decoder s with
            | Some d =>
                let '(d, decoded, outcome) := push d input in
                let s := set_decoder (Some d) s in
                match outcome with
                | Some (Ok _) => session_accept s decoded
                | Some (Err (Fail error)) => ret (s, Err (chunked_error error))
                | Some (Err Panic) | None => ret (s, Err internal)
                end
            | None => session_accept s input
            end in
          match accepted with
          | Err error => failing s error
          | Ok _ =>
              let! now := ask InstantNow in
              let! (s, renewed) := renew_upload_lease_if_due s now in
              match renewed with
              | Err error => failing s (to_s3 error)
              | Ok _ => ret (s, Ok tt)
              end
          end
    end.

(** * Finishing *)

(** The trailers of a finished decoder join the expected checksums. *)
Definition finish_decoder (s : BodySession) : result S3Error ExpectedChecksums :=
  match decoder s with
  | None => Ok (expected s)
  | Some d =>
      let* _ := map_err chunked_error (Decoder_finish d) in
      apply_verified_trailers (expected s) (Chunked.trailers d)
  end.

Definition part_response (part : PartRecord) : ServiceResponse :=
  header (header (ServiceResponse_empty 200) (bs "etag") (quoted (pr_etag part)))
    (bs "x-amz-checksum-sha256") (base64_encode (pr_sha256 part)).

Definition commit_object (s : BodySession) (k : StagedSink) (actual : DigestValues) (server_size : Z)
  : Run (result S3Error ServiceResponse) :=
  let server_md5 := hex_lower (v_md5 actual) in
  let? info :=
    (if negb (is_empty (buffer k)) || (sequence k =? 0) then
       let chunk_sha256 :=
         if (sequence k =? 0) && (len (buffer k) =? s_decoded_bytes s) then v_sha256 actual
         else sha256 (buffer k) in
       db (finish_upload_sealed (role s) (staged_bucket k) (staged_key k) (upload_id k) (e_sha256 (expected s))
             (v_sha256 actual) server_md5 server_size (chunk_blob_ids k) (chunk_sizes k) (sequence k) (buffer k)
             chunk_sha256)
     else
       db (complete_upload_sealed (role s) (staged_bucket k) (staged_key k) (upload_id k) (e_sha256 (expected s))
             (v_sha256 actual) server_md5 server_size (chunk_blob_ids k) (chunk_sizes k))) in
  ret (Ok (put_response info)).

Definition commit_part (s : BodySession) (k : StagedSink) : Run (result S3Error ServiceResponse) :=
  let? _ :=
    (if negb (is_empty (buffer k)) || (sequence k =? 0) then
       db (put_chunk (role s) (staged_bucket k) (staged_key k) (upload_id k) (sequence k) (buffer k)
             (staged_part_number k))
     else ret (Ok tt)) in
  let? part := db (complete_part (role s) (staged_bucket k) (staged_key k) (upload_id k) (staged_part_number k)
                     (e_sha256 (expected s))) in
  ret (Ok (part_response part)).

Definition commit (s : BodySession) (actual : DigestValues) (server_size : Z) : Run (result S3Error ServiceResponse) :=
  match sink s with
  | DirectPut k =>
      let? info := db (put_object (role s) (direct_bucket k) (direct_key k) (direct_body k) (direct_content_type k)
                         (direct_meta_json k) (direct_if_none_match k) (direct_if_match k)
                         (direct_expected_sha256 k)) in
      ret (Ok (put_response info))
  | Staged k => if staged_part_number k =? 0 then commit_object s k actual server_size else commit_part s k
  | Buffered body => dispatch config (role s) (s_operation s) (s_headers s) body
  end.

(** [add_provided_checksum_headers] would panic for a checksum whose digest
    was not computed; [verified_digests_present] excludes it. *)
Definition session_finish (s : BodySession) : Run (BodySession * ServiceResponse) :=
  if negb (active s) then ret (s, session_error s inactive_error)
  else if match expected_wire_bytes s with Some expected => negb (wire_bytes s =? expected) | None => false end
  then fail_session s (S3Error_new 400 (bs "IncompleteBody") (bs "Content-Length did not match the received body"))
  else
    match finish_decoder s with
    | Err error => fail_session s error
    | Ok e =>
        let s := set_expected e s in
        let actual := BodyDigests_values (digests s) in
        match verify_digest_values (s_payload_mode s) actual (expected s) with
        | Err error => fail_session s error
        | Ok _ =>
            match checked i64_min i64_max (s_decoded_bytes s) with
            | None => fail_session s (too_large (bs "Decoded body is too large"))
            | Some server_size =>
                let! outcome := commit s actual server_size in
                match outcome with
                | Err error => fail_session s error
                | Ok response =>
                    let response :=
                      if streams_object_body (s_operation s)
                      then default response (add_provided_checksum_headers response (expected s) actual)
                      else response in
                    ret (set_active false s, finalize response (request_id s) (is_head (s_operation s)))
                end
            end
        end
    end.

(** * Request heads *)

Definition authorize (request : RequestHead) : Run (result S3Error (bytes * VerifiedSignature)) :=
  let has_header := is_some (HeaderMap_get (headers request) (bs "authorization")) in
  let has_query := is_some (QueryParams_get (query (target request)) (bs "X-Amz-Algorithm")) in
  if eqb has_header has_query then
    ret (Err (if has_header then invalid_request (bs "header and query authentication cannot be combined")
              else access_denied))
  else
    let? access_key :=
      ret (map_err sigv4_error
             (if has_header
              then let* authorization := parse_header_authorization (headers request) in
                   Ok (access_key (ha_credential authorization))
              else let* authorization := parse_presigned_authorization (query (target request)) in
                   Ok (access_key (pa_credential authorization)))) in
    let? found := db (lookup_credential access_key) in
    let? credential :=
      ret (ok_or found (S3Error_new 403 (bs "InvalidAccessKeyId") (bs "The AWS access key does not exist"))) in
    let! now := ask SystemTimeNow in
    let verification :=
      {| now := now; max_clock_skew := config_clock_skew config; expected_region := config_region config;
         expected_service := bs "s3" |} in
    let wire_request := SigV4Request_from request in
    let? verified :=
      ret (map_err sigv4_error
             (if has_header then verify_header wire_request (secret credential) verification
              else verify_presigned wire_request (secret credential) verification)) in
    ret (match security_token verified with
         | Some _ => Err (S3Error_new 403 (bs "InvalidToken")
                            (bs "Session credentials are not configured for this access key"))
         | None => Ok (cred_role credential, verified)
         end).

Definition make_decoder (request_headers : HeaderMap) (verified : VerifiedSignature) : result S3Error (option Decoder) :=
  let* mode :=
    match payload_mode verified with
    | StreamingSigned =>
        let* context := ok_or (streaming_context verified) internal in Ok (Some (Signed context))
    | StreamingUnsignedTrailer =>
        let* value := one_header request_headers (bs "x-amz-trailer") in
        let* value := ok_or value (invalid_request (bs "x-amz-trailer is required")) in
        Ok (Some (UnsignedTrailer (comma_names value)))
    | _ => Ok None
    end in
  match mode with
  | None => Ok None
  | Some mode =>
      let* content_encoding := one_header request_headers (bs "content-encoding") in
      if negb (existsb (fun value => eq_ignore_ascii_case (str_trim value) (bs "aws-chunked"))
                 (split_on (fun b => b ==b x2c) (default [] content_encoding)))
      then Err (invalid_request (bs "a streaming payload requires Content-Encoding: aws-chunked"))
      else
        let* declared := one_header request_headers (bs "x-amz-decoded-content-length") in
        let* expected_decoded_length :=
          transpose_map (fun value =>
            ok_or (parse_u64 value) (invalid_request (bs "invalid x-amz-decoded-content-length"))) declared in
        let limits :=
          {| max_chunk_header_bytes := max_chunk_header_bytes default_chunked_limits;
             max_chunk_bytes := max_chunk_bytes default_chunked_limits;
             max_decoded_bytes := max_object_bytes config;
             max_trailer_bytes := max_trailer_bytes default_chunked_limits;
             max_trailers := max_trailers default_chunked_limits;
             expected_decoded_length := expected_decoded_length |} in
        map_err (fun error => invalid_request (ChunkedError_display error))
          (let* d := Decoder_new mode limits in Ok (Some d))
  end.

(** The sink of an operation with a body. *)
Definition choose_sink (request : RequestHead) (operation : Operation) (tenant : bytes) (verified : VerifiedSignature)
    (e : ExpectedChecksums) (has_decoder : bool) : Run (result S3Error BodySink) :=
  let expected_sha256 :=
    match e_sha256 e with
    | Some hash => Some hash
    | None => match payload_mode verified with FullHash hash => Some hash | _ => None end
    end in
  let direct_put :=
    direct_put_eligible (content_length request) (transfer_chunked request) has_decoder
      (is_some (HeaderMap_get (headers request) (bs "expect"))) (direct_put_bytes config) in
  match operation with
  | PutObject bucket key =>
      let? found := ret (content_type (headers request)) in
      let content_type := default (bs "application/octet-stream") found in
      let? meta := ret (put_metadata_json (headers request) e) in
      let? if_none_match := ret (one_header (headers request) (bs "if-none-match")) in
      let? if_match := ret (one_header (headers request) (bs "if-match")) in
      if direct_put then
        ret (Ok (DirectPut
          {| direct_bucket := bucket; direct_key := key; direct_content_type := content_type;
             direct_meta_json := meta; direct_if_none_match := if_none_match; direct_if_match := if_match;
             direct_expected_sha256 := expected_sha256; max_body_bytes := direct_put_bytes config;
             direct_body := [] |}))
      else
        let? id := db (begin_upload tenant bucket key content_type meta false if_none_match if_match expected_sha256) in
        ret (Ok (Staged
          {| staged_bucket := bucket; staged_key := key; upload_id := id; staged_part_number := 0; sequence := 0;
             chunk_bytes := staging_chunk_bytes config; buffer := []; chunk_blob_ids := []; chunk_sizes := [] |}))
  | UploadPart bucket key id part_number =>
      let? _ := db (begin_part tenant bucket key id part_number) in
      ret (Ok (Staged
        {| staged_bucket := bucket; staged_key := key; upload_id := id; staged_part_number := part_number;
           sequence := 0; chunk_bytes := staging_chunk_bytes config; buffer := []; chunk_blob_ids := [];
           chunk_sizes := [] |}))
  | _ => ret (Ok (Buffered []))
  end.

Definition has_body (request : RequestHead) (operation : Operation) (mode : PayloadMode) : bool :=
  streams_object_body operation || requires_xml_body operation
  || (0 <? default 0 (content_length request)) || transfer_chunked request
  || match mode with StreamingSigned | StreamingUnsignedTrailer => true | _ => false end.

Definition prepare (request : RequestHead) (operation : Operation) (tenant : bytes) (verified : VerifiedSignature)
    (id path : bytes) : Run (result S3Error (HandlerOutcome BodySession)) :=
  if match content_length request with Some length => max_object_bytes config <? length | None => false end
  then ret (Err (too_large (bs "Request entity is too large")))
  else
    let? e :=
      ret (match operation with
           | CompleteMultipartUpload _ _ _ => Ok default_expected
           | _ => expected_checksums (headers request) (payload_mode verified)
           end) in
    if negb (has_body request operation (payload_mode verified)) then
      let? _ := ret (verify_digests (payload_mode verified) (BodyDigests_for_expected e) e) in
      let? response := dispatch config tenant operation (headers request) [] in
      ret (Ok (Immediate (finalize response id (is_head operation))))
    else
      let? d := ret (make_decoder (headers request) verified) in
      let? k := choose_sink request operation tenant verified e (is_some d) in
      let! lease :=
        match k with
        | Staged _ => let! now := ask InstantNow in ret (Some (heartbeat_new now))
        | _ => ret None
        end in
      ret (Ok (ReceiveBody
        {| request_id := id; resource := path; role := tenant; s_operation := operation;
           s_headers := headers request; s_payload_mode := payload_mode verified; decoder := d; sink := k;
           digests := BodyDigests_for_expected e; expected := e; expected_wire_bytes := content_length request;
           wire_bytes := 0; s_decoded_bytes := 0; s_max_decoded_bytes := max_object_bytes config;
           lease_heartbeat := lease; active := true |})).

Definition service_head (request : RequestHead) : Run (HandlerOutcome BodySession) :=
  let! id := ask RequestId in
  let path := raw_path (target request) in
  let head_only := method request ==b bs "HEAD" in
  let! result :=
    (let? (tenant, verified) := authorize request in
     let? operation := ret (classify request) in
     prepare request operation tenant verified id path) in
  ret (match result with
       | Ok outcome => outcome
       | Err error => Immediate (finalize (S3Error_response error path id) id head_only)
       end).

Definition service_operation_name (request : RequestHead) : bytes :=
  match classify request with Ok operation => Route.name operation | Err _ => bs "InvalidRequest" end.

(** [impl S3Handler for PgS3Service]: the handler's state is the history of
    its calls. *)
#[export] Instance PgS3Service : S3Handler history BodySession := {
  operation_name _ request := service_operation_name request;
  handle_head h request := service_head request h;
  push_body h s input := let '(h, (s, r)) := session_push s input h in (h, s, r);
  handler_finish h s := let '(h, (s, r)) := session_finish s h in (h, s, r);
  abort_body h s := session_abort s h
}.
End Session.

(** * Who acts *)

(** A call satisfies [P]; reading a clock is no call. *)
Definition asked (P : forall A, DbOp A -> Prop) (e : Happened) : Prop :=
  match e with Happens effect _ => match effect with Call op => P _ op | _ => True end end.

Definition asks {B} (P : forall A, DbOp A -> Prop) (Q : B -> Prop) (c : Run B) : Prop :=
  runs c (fun _ t b => Forall (asked P) t /\ Q b).

Section Asks.
Context `{World} (P : forall A, DbOp A -> Prop).

Lemma asks_ret {B} (Q : B -> Prop) (b : B) : Q b -> asks P Q (ret b).
Proof. intros Hq. apply runs_ret. intros. by split. Qed.

Lemma asks_clock {A} (effect : Effect A) (Q : A -> Prop) : match effect with Call _ => False | _ => True end ->
  (forall a, Q a) -> asks P Q (ask effect).
Proof.
  intros Hc Hq. apply runs_ask. intros h a. split; [|done]. constructor; [|constructor]. by destruct effect.
Qed.

Lemma asks_call {A} (op : DbOp A) (Q : result DbError A -> Prop) : P A op -> (forall r, Q r) -> asks P Q (call op).
Proof. intros Hp Hq. apply runs_ask. intros. split; [by repeat constructor|done]. Qed.

Lemma asks_db {A} (op : DbOp A) (Q : result S3Error A -> Prop) : P A op -> (forall r, Q r) -> asks P Q (db op).
Proof. intros Hp Hq. apply runs_db. intros. split; [by repeat constructor|done]. Qed.

Lemma asks_bind {A B} (c : Run A) (k : A -> Run B) (R : A -> Prop) (Q : B -> Prop) :
  asks P R c -> (forall a, R a -> asks P Q (k a)) -> asks P Q (bind c k).
Proof.
  intros Hc Hk h. destruct (Hc h) as (t & E & Ht & Hr). unfold bind. destruct (c h) as [h1 a]. simpl in *. subst h1.
  destruct (Hk a Hr (h ++ t)) as (t2 & E2 & Ht2 & Hq). exists (t ++ t2). rewrite E2, app_assoc.
  split; [done|]. split; [by apply Forall_app|done].
Qed.

Lemma asks_mono {A} (P' : forall A, DbOp A -> Prop) (c : Run A) (Q : A -> Prop) :
  (forall A op, P A op -> P' A op) -> asks P Q c -> asks P' Q c.
Proof.
  intros HP Hc. eapply runs_weaken; [exact Hc|]. intros h t a [Ht Hq]. split; [|done].
  eapply Forall_impl; [exact Ht|]. intros [B effect b] He. destruct effect; try done. by apply HP.
Qed.

Lemma asks_weaken {A} (c : Run A) (R Q : A -> Prop) : asks P R c -> (forall a, R a -> Q a) -> asks P Q c.
Proof. intros Hc Hq. eapply runs_weaken; [exact Hc|]. intros h t a [Ht Hr]. split; [done|by apply Hq]. Qed.

Lemma asks_calls {A} (c : Run A) (Q : A -> Prop) : calls P c -> (forall a, Q a) -> asks P Q c.
Proof.
  intros Hc Hq. eapply runs_weaken; [exact Hc|]. intros h t a Ht. split; [|done].
  eapply Forall_impl; [exact Ht|]. intros [B effect b] He. simpl in *. by destruct effect.
Qed.

Lemma asks_try {E A B} (c : Run (result E A)) (k : A -> Run (result E B)) (R : result E A -> Prop)
    (Q : result E B -> Prop) :
  asks P R c -> (forall a, R (Ok a) -> asks P Q (k a)) -> (forall e, Q (Err e)) ->
  asks P Q (bind c (fun r => match r with Ok a => k a | Err e => ret (Err e) end)).
Proof.
  intros Hc Hk He. eapply asks_bind; [exact Hc|]. intros [a|e] Hr; [by apply Hk|]. by apply asks_ret.
Qed.
End Asks.

(** A session and what it may touch: its sink is the object or the part its
    operation addresses. *)
Definition own_sink (s : BodySession) : Prop :=
  match sink s with
  | DirectPut k => s_operation s = PutObject (direct_bucket k) (direct_key k)
  | Staged k => (staged_part_number k = 0 /\ s_operation s = PutObject (staged_bucket k) (staged_key k))
                \/ s_operation s = UploadPart (staged_bucket k) (staged_key k) (upload_id k) (staged_part_number k)
  | Buffered _ => streams_object_body (s_operation s) = false
  end.

Definition follows (s s' : BodySession) : Prop :=
  role s' = role s /\ s_operation s' = s_operation s /\ own_sink s'.

(** A staged sink after further chunks. *)
Definition same_upload (k k' : StagedSink) : Prop :=
  staged_bucket k' = staged_bucket k /\ staged_key k' = staged_key k /\ upload_id k' = upload_id k /\
  staged_part_number k' = staged_part_number k /\ chunk_bytes k' = chunk_bytes k.

(** The data a call adds when it makes an object or a part visible. *)
Definition publishes {A} (op : DbOp A) : option bytes :=
  match op with
  | put_object _ _ _ data _ _ _ _ _ => Some data
  | finish_upload_sealed _ _ _ _ _ _ _ _ _ _ _ data _ => Some data
  | complete_upload_sealed _ _ _ _ _ _ _ _ _ _ | complete_part _ _ _ _ _ _ => Some []
  | _ => None
  end.

(** What a session may call before its commit. *)
Definition tame (s : BodySession) (A : Type) (op : DbOp A) : Prop :=
  permitted (role s) (s_operation s) A op /\ publishes op = None.

Section Confined.
Context `{World} `{BodyHash} `{XmlReader} `{HttpDates}.
Context (config : ServiceConfig).

(** A call of a staged upload. *)
Lemma staged_permitted s k {A} (op : DbOp A) : own_sink s -> sink s = Staged k -> role_of op = Some (role s) ->
  call_address op = (Some (staged_bucket k), Some (staged_key k)) -> permitted (role s) (s_operation s) A op.
Proof.
  unfold own_sink. intros Hs E Hr Ha. rewrite E in Hs. split; [done|].
  destruct Hs as [[_ ->]| ->]; (split; [left; done|done]).
Qed.

Lemma staged_tame s k {A} (op : DbOp A) : own_sink s -> sink s = Staged k -> role_of op = Some (role s) ->
  call_address op = (Some (staged_bucket k), Some (staged_key k)) -> publishes op = None -> tame s A op.
Proof. intros. split; [by eapply staged_permitted|done]. Qed.

Lemma tame_permitted {B} s (Q : B -> Prop) c : asks (tame s) Q c -> asks (permitted (role s) (s_operation s)) Q c.
Proof. apply asks_mono. by intros A op []. Qed.

Lemma cleanup_asks s : own_sink s -> asks (tame s) (fun _ => True) (cleanup s).
Proof.
  intros Hs. unfold cleanup. destruct (sink s) as [k|k|b] eqn:E; [by apply asks_ret| |by apply asks_ret].
  destruct (staged_part_number k =? 0);
    (eapply (asks_bind _ _ _ (fun _ => True)); [|intros; by apply asks_ret]; apply asks_call; [|done];
     by eapply staged_tame).
Qed.

Lemma follows_refl s : own_sink s -> follows s s.
Proof. intros Hs. split; [done|by split]. Qed.

Lemma fail_session_asks s e : own_sink s ->
  asks (tame s) (fun p => follows s p.1) (fail_session s e).
Proof.
  intros Hs. unfold fail_session. eapply asks_bind; [by apply cleanup_asks|]. intros _ _. by apply asks_ret.
Qed.

Lemma store_chunk_asks s k data : own_sink s -> forall k0, sink s = Staged k0 -> same_upload k0 k ->
  asks (tame s) (fun p => same_upload k0 p.1) (store_chunk (role s) k data).
Proof.
  intros Hs k0 E (E1 & E2 & E3 & E4 & E5). unfold store_chunk.
  destruct (staged_part_number k =? 0);
    (eapply (asks_bind _ _ _ (fun _ => True));
     [apply asks_db; [eapply staged_tame; [done|exact E|done|simpl; by rewrite E1, E2|done]|done]|
      intros [c|e] _; by apply asks_ret]).
Qed.

Lemma stage_loop_asks fuel s fixed k0 : own_sink s -> sink s = Staged k0 -> forall k lease remaining,
  same_upload k0 k ->
  asks (tame s) (fun p => same_upload k0 p.1.1) (stage_loop fuel (role s) fixed k lease remaining).
Proof.
  intros Hs E. induction fuel as [|fuel IH]; intros k lease remaining Hk; cbn [stage_loop]; [by apply asks_ret|].
  destruct (is_empty remaining); [by apply asks_ret|].
  destruct (append_staged_slice (buffer k) remaining (chunk_bytes k)) as [[buffered rest] full].
  destruct full; simpl; [|by apply IH].
  destruct ((staged_part_number k =? 0) && fixed && is_empty rest); [by apply asks_ret|].
  eapply asks_bind; [by eapply (store_chunk_asks s (set_buffered [] k))|].
  intros [k1 [u|e]] Hk1; simpl in Hk1; [|by apply asks_ret].
  eapply (asks_bind _ _ _ (fun _ => True)).
  { destruct lease; [|by apply asks_ret]. eapply (asks_bind _ _ _ (fun _ => True)); [by apply asks_clock|].
    intros; by apply asks_ret. }
  intros lease' _. destruct (checked i32_min i32_max (sequence k1 + 1)); [|by apply asks_ret]. by apply IH.
Qed.

Lemma own_sink_staged s k k' s' : own_sink s -> sink s = Staged k -> same_upload k k' ->
  s_operation s' = s_operation s -> sink s' = Staged k' -> own_sink s'.
Proof.
  unfold own_sink. intros Hs E (E1 & E2 & E3 & E4 & _) Eo E'. rewrite E in Hs. by rewrite E', Eo, E1, E2, E3, E4.
Qed.

Lemma same_upload_refl k : same_upload k k.
Proof. done. Qed.

Lemma session_accept_asks s decoded : own_sink s ->
  asks (tame s) (fun p => follows s p.1) (session_accept config s decoded).
Proof.
  intros Hs. unfold session_accept. destruct (checked_add_u64 _ _) as [total|]; [|by apply asks_ret].
  destruct (s_max_decoded_bytes s <? total); [by apply asks_ret|]. cbv zeta.
  set (s1 := set_received total (BodyDigests_update (digests s) decoded) s).
  change (sink s1) with (sink s). destruct (sink s) as [k|k|b] eqn:E.
  - apply asks_ret. destruct (append_direct_body _ _ _); [|exact (follows_refl s Hs)].
    split; [done|]. split; [done|]. unfold own_sink in *. rewrite E in Hs. done.
  - eapply asks_bind; [by eapply (stage_loop_asks _ s1 _ k)|]. intros [[k' lease'] r] Hk.
    apply asks_ret. split; [done|]. split; [done|]. by eapply (own_sink_staged s k k').
  - apply asks_ret. destruct (max_control_body_bytes config <? _); [exact (follows_refl s1 Hs)|].
    split; [done|]. split; [done|]. unfold own_sink in *. rewrite E in Hs. done.
Qed.

Lemma renew_asks s now : own_sink s ->
  asks (tame s) (fun p => follows s p.1) (renew_upload_lease_if_due s now).
Proof.
  intros Hs. unfold renew_upload_lease_if_due. destruct (lease_heartbeat s) as [b|]; [|by apply asks_ret, follows_refl].
  destruct (sink s) as [k|k|d] eqn:E; [by apply asks_ret, follows_refl| |by apply asks_ret, follows_refl].
  eapply (asks_bind _ _ _ (fun _ => True)).
  - unfold renew_if_due. destruct (now <? next_beat b); [by apply asks_ret|].
    eapply (asks_bind _ _ _ (fun _ => True)); [|intros; by apply asks_ret].
    apply asks_call; [by eapply staged_tame|done].
  - intros [b' r] _. apply asks_ret. split; [done|]. split; [done|]. by eapply (own_sink_staged s k k).
Qed.

Lemma asks_follow {B} s s' (c : Run (BodySession * B)) : follows s s' ->
  asks (tame s') (fun p => follows s' p.1) c ->
  asks (tame s) (fun p => follows s p.1) c.
Proof.
  intros (Er & Eo & _). unfold tame. rewrite Er, Eo. intros Hc. eapply asks_weaken; [exact Hc|].
  intros p (Hr & Ho & Hk). split; [congruence|]. split; [congruence|done].
Qed.

Lemma failing_asks s s' e : follows s s' ->
  asks (tame s) (fun p => follows s p.1)
    (let! (s, response) := fail_session s' e in ret (s, @Err ServiceResponse unit response)).
Proof.
  intros Hf. eapply asks_follow; [exact Hf|]. destruct Hf as (_ & _ & Hk).
  eapply asks_bind; [by apply fail_session_asks|]. intros [s1 r] Hs1. by apply asks_ret.
Qed.

Lemma session_push_asks s input : own_sink s ->
  asks (tame s) (fun p => follows s p.1) (session_push config s input).
Proof.
  intros Hs. unfold session_push. destruct (active s); simpl; [|by apply asks_ret, follows_refl].
  destruct (checked_add_u64 _ _) as [total|]; [|by apply failing_asks, follows_refl]. cbv zeta.
  set (s1 := set_wire total s). assert (H1f : follows s s1) by done.
  destruct (match expected_wire_bytes s1 with Some _ => _ | None => _ end); [by apply failing_asks|].
  eapply (asks_bind _ _ _ (fun p => follows s p.1)).
  { change (decoder s1) with (decoder s). destruct (decoder s) as [d|].
    - destruct (push d input) as [[d' decoded] outcome].
      set (s2 := set_decoder (Some d') s1). assert (H2f : follows s s2) by done.
      destruct outcome as [[st|[e|]]|]; try (by apply asks_ret). exact (session_accept_asks s2 decoded Hs).
    - exact (session_accept_asks s1 input Hs). }
  intros [s3 [u|e]] H3f; simpl in H3f; [|by apply failing_asks].
  eapply (asks_bind _ _ _ (fun _ => True)); [by apply asks_clock|]. intros now _.
  eapply asks_bind; [eapply asks_follow; [exact H3f|]; apply renew_asks; by destruct H3f as (_ & _ & ?)|].
  intros [s4 [u'|e]] H4f; simpl in H4f; [by apply asks_ret|by apply failing_asks].
Qed.

Lemma commit_asks s actual size : own_sink s ->
  asks (permitted (role s) (s_operation s)) (fun _ => True) (commit config s actual size).
Proof.
  intros Hs. unfold commit. destruct (sink s) as [k|k|b] eqn:E.
  - eapply (asks_try _ _ _ (fun _ => True)); [|intros; by apply asks_ret|done]. apply asks_db; [|done].
    unfold own_sink in Hs. rewrite E in Hs. rewrite Hs. split; [done|split; [by left|done]].
  - assert (Hp : forall A (op : DbOp A), role_of op = Some (role s) ->
      call_address op = (Some (staged_bucket k), Some (staged_key k)) -> permitted (role s) (s_operation s) A op)
      by (intros; by eapply staged_permitted).
    destruct (staged_part_number k =? 0).
    + unfold commit_object. eapply (asks_try _ _ _ (fun _ => True)); [|intros; by apply asks_ret|done].
      destruct (_ || _); (apply asks_db; [by apply Hp|done]).
    + unfold commit_part. eapply (asks_try _ _ _ (fun _ => True)); [|intros|done].
      { destruct (_ || _); [apply asks_db; [by apply Hp|done]|by apply asks_ret]. }
      eapply (asks_try _ _ _ (fun _ => True)); [|intros; by apply asks_ret|done]. apply asks_db; [by apply Hp|done].
  - apply asks_calls; [|done]. intros h.
    destruct (dispatch_calls config (role s) (s_operation s) (s_headers s) b h) as (t & Et & Ht). by exists t.
Qed.

Lemma session_finish_asks s : own_sink s ->
  asks (permitted (role s) (s_operation s)) (fun p => follows s p.1) (session_finish config s).
Proof.
  intros Hs. unfold session_finish. destruct (active s); simpl; [|by apply asks_ret, follows_refl].
  destruct (match expected_wire_bytes s with Some _ => _ | None => _ end); [by apply tame_permitted, fail_session_asks|].
  destruct (finish_decoder s) as [e|e]; [|by apply tame_permitted, fail_session_asks]. cbv zeta.
  set (s1 := set_expected e s). assert (H1f : follows s s1) by done.
  destruct (verify_digest_values _ _ _); [|by apply tame_permitted, (fail_session_asks s1)].
  destruct (checked _ _ _); [|by apply tame_permitted, (fail_session_asks s1)].
  eapply asks_bind; [by apply (commit_asks s1)|]. intros [r|e'] _; [|by apply tame_permitted, (fail_session_asks s1)].
  by apply asks_ret.
Qed.

Lemma session_abort_asks s : own_sink s ->
  asks (tame s) (fun s' => follows s s') (session_abort s).
Proof. intros Hs. unfold session_abort. eapply asks_bind; [by apply cleanup_asks|]. intros. by apply asks_ret. Qed.
End Confined.

(** ** Requests *)

(** What a connection may do with a session. *)
Inductive SessionCall :=
| PushBody (input : bytes)
| FinishBody
| AbortBody.

Section Requests.
Context `{World} `{BodyHash} `{XmlReader} `{HttpDates}.
Context (config : ServiceConfig).

Definition session_call (s : BodySession) (c : SessionCall) : Run BodySession :=
  match c with
  | PushBody input => let! (s, _) := session_push config s input in ret s
  | FinishBody => let! (s, _) := session_finish config s in ret s
  | AbortBody => session_abort s
  end.

Fixpoint drive (s : BodySession) (cs : list SessionCall) : Run BodySession :=
  match cs with
  | [] => ret s
  | c :: cs => let! s := session_call s c in drive s cs
  end.

(** A request from its head on: the calls [cs] reach the session it opens, if
    it opens one. *)
Definition serve (request : RequestHead) (cs : list SessionCall) : Run unit :=
  let! outcome := service_head config request in
  match outcome with
  | Immediate _ => ret tt
  | ReceiveBody s => let! _ := drive s cs in ret tt
  end.

(** The request names [key] and verifies with the secret of [c] at [now]. *)
Definition signed_with (request : RequestHead) (key : bytes) (c : Database.Credential) (now : Z) (v : VerifiedSignature)
  : Prop :=
  let verification :=
    {| now := now; max_clock_skew := config_clock_skew config; expected_region := config_region config;
       expected_service := bs "s3" |} in
  (exists a, parse_header_authorization (headers request) = Ok a /\ access_key (ha_credential a) = key /\
     verify_header (SigV4Request_from request) (secret c) verification = Ok v)
  \/ (exists a, parse_presigned_authorization (query (target request)) = Ok a /\ access_key (pa_credential a) = key /\
        verify_presigned (SigV4Request_from request) (secret c) verification = Ok v).

(** No call of the history is made for a tenant. *)
Definition roleless : forall A, DbOp A -> Prop := fun _ op => role_of op = None.

Lemma session_call_asks s c : own_sink s ->
  asks (permitted (role s) (s_operation s)) (fun s' => follows s s') (session_call s c).
Proof.
  intros Hs. destruct c; simpl; [| |by apply tame_permitted, session_abort_asks].
  - apply tame_permitted. eapply asks_bind; [by apply session_push_asks|]. intros [s' r] Hf. by apply asks_ret.
  - eapply asks_bind; [by apply session_finish_asks|]. intros [s' r] Hf. by apply asks_ret.
Qed.

Lemma drive_asks cs : forall s, own_sink s ->
  asks (permitted (role s) (s_operation s)) (fun _ => True) (drive s cs).
Proof.
  induction cs as [|c cs IH]; intros s Hs; simpl; [by apply asks_ret|].
  eapply asks_bind; [by apply session_call_asks|]. intros s' (<- & <- & Hk). by apply IH.
Qed.

Lemma choose_sink_asks request op tenant v e d :
  asks (permitted tenant op) (fun r => match r with
      | Ok k => forall s, s_operation s = op -> sink s = k -> own_sink s
      | Err _ => True
      end) (choose_sink config request op tenant v e d).
Proof.
  unfold choose_sink. destruct op; try (apply asks_ret; intros s Es Ek; unfold own_sink; by rewrite Ek, Es).
  - do 4 (eapply (asks_try _ _ _ (fun _ => True)); [by apply asks_ret|intros ? _|done]).
    destruct (direct_put_eligible _ _ _ _ _).
    { apply asks_ret. intros s Es Ek. unfold own_sink. by rewrite Ek, Es. }
    eapply (asks_try _ _ _ (fun _ => True)); [apply asks_db; [split; [done|split; [by left|done]]|done]| |done].
    intros id _. apply asks_ret. intros s Es Ek. unfold own_sink. rewrite Ek, Es. by left.
  - eapply (asks_try _ _ _ (fun _ => True)); [apply asks_db; [split; [done|split; [by left|done]]|done]| |done].
    intros id _. apply asks_ret. intros s Es Ek. unfold own_sink. rewrite Ek, Es. by right.
Qed.

(** The session a head opens. *)
Definition opens (tenant : bytes) (op : Operation) (o : HandlerOutcome BodySession) : Prop :=
  match o with
  | Immediate _ => True
  | ReceiveBody s => role s = tenant /\ s_operation s = op /\ own_sink s
  end.

Lemma prepare_asks request op tenant v id path :
  asks (permitted tenant op) (fun r => match r with Ok o => opens tenant op o | Err _ => True end)
    (prepare config request op tenant v id path).
Proof.
  unfold prepare. destruct (match content_length request with Some _ => _ | None => _ end); [by apply asks_ret|].
  eapply (asks_try _ _ _ (fun _ => True)); [by apply asks_ret|intros e _|done].
  destruct (has_body _ _ _); simpl.
  - eapply (asks_try _ _ _ (fun _ => True)); [by apply asks_ret|intros d _|done].
    eapply asks_try; [apply choose_sink_asks|intros k Hk|done].
    eapply (asks_bind _ _ _ (fun _ => True)).
    { destruct k; try (by apply asks_ret). eapply (asks_bind _ _ _ (fun _ => True)); [by apply asks_clock|].
      intros; by apply asks_ret. }
    intros lease _. apply asks_ret. split; [done|]. split; [done|]. by apply Hk.
  - eapply (asks_try _ _ _ (fun _ => True)); [by apply asks_ret|intros ? _|done].
    eapply (asks_try _ _ _ (fun _ => True)); [|intros; by apply asks_ret|done].
    apply asks_calls; [|done]. intros h.
    destruct (dispatch_calls config tenant op (headers request) [] h) as (t & Et & Ht). by exists t.
Qed.

(** Authorization makes no call for a tenant; when it succeeds it looked one
    credential up and read the clock once. *)
Lemma authorize_runs request :
  runs (authorize config request) (fun h t r =>
    match r with
    | Err _ => Forall (asked roleless) t
    | Ok (tenant, v) => exists key c now,
        t = [Happens (Call (lookup_credential key)) (Ok (Some c)); Happens SystemTimeNow now] /\
        answers _ h (Call (lookup_credential key)) = Ok (Some c) /\
        tenant = cred_role c /\ security_token v = None /\ signed_with request key c now v
    end).
Proof.
  intros h. unfold authorize, db, call, ask, bind, ret.
  destruct (eqb _ _) eqn:Eb; [exists []; rewrite app_nil_r; by split; [|constructor]|].
  destruct (map_err sigv4_error _) as [key|e] eqn:Ek; [|exists []; rewrite app_nil_r; by split; [|constructor]].
  apply map_err_Ok in Ek. cbn [map_err].
  remember (answers _ h (Call (lookup_credential key))) as lookup eqn:El. destruct lookup as [[c|]|e]; cbn [map_err ok_or];
    try (eexists; split; [done|by repeat constructor]).
  match goal with |- context [answers ?T ?l SystemTimeNow] => set (clock := answers T l SystemTimeNow) end.
  destruct (map_err sigv4_error _) as [v|e] eqn:Ev; cbn [fst snd];
    [|eexists; split; [by rewrite <- app_assoc|by repeat constructor]].
  apply map_err_Ok in Ev. destruct (security_token v) as [token|] eqn:Et;
    (eexists; split; [by rewrite <- app_assoc|]); [by repeat constructor|].
  exists key, c, clock. do 4 (split; [done|]).
  unfold signed_with. destruct (is_some (HeaderMap_get _ _)).
  - left. destruct (parse_header_authorization _) as [a|]; [|done]. injection Ek as <-. by exists a.
  - right. destruct (parse_presigned_authorization _) as [a|]; [|done]. injection Ek as <-. by exists a.
Qed.

(** What a head does: without a verified signature it makes no call for a
    tenant and opens no session; with one, its calls and the session are those
    of the operation and of the role stored with the key. *)
Definition vetted_head (request : RequestHead) (h t : history) (o : HandlerOutcome BodySession) : Prop :=
  exists id u, t = Happens RequestId id :: u /\
    (Forall (asked roleless) u /\ (match o with Immediate _ => True | ReceiveBody _ => False end)
     \/ exists key c now v op rest,
          u = Happens (Call (lookup_credential key)) (Ok (Some c)) :: Happens SystemTimeNow now :: rest /\
          answers _ (h ++ [Happens RequestId id]) (Call (lookup_credential key)) = Ok (Some c) /\
          signed_with request key c now v /\ security_token v = None /\ classify request = Ok op /\
          Forall (asked (permitted (cred_role c) op)) rest /\ opens (cred_role c) op o).

Lemma service_head_runs request : runs (service_head config request) (vetted_head request).
Proof.
  intros h. destruct (service_head config request h) as [h' o] eqn:Eh. simpl. revert Eh.
  unfold service_head. set (id := answers _ h RequestId).
  destruct (authorize_runs request (h ++ [Happens RequestId id])) as (t & E & Ht).
  unfold bind at 1 2 3, ask at 1. fold id.
  destruct (authorize config request (h ++ [Happens RequestId id])) as [h1 [[tenant v]|e]]; simpl in E, Ht; subst h1.
  2: { intros [= <- <-]. exists (Happens RequestId id :: t). rewrite <- app_assoc. split; [done|]. exists id, t. split; [done|]. by left. }
  destruct Ht as (key & c & now & -> & El & -> & Hv & Hs). rewrite <- app_assoc. simpl.
  destruct (classify request) as [op|e] eqn:Ec.
  2: { intros [= <- <-]. eexists. split; [done|]. exists id. eexists. split; [done|]. left. by split; [repeat constructor|]. }
  set (h1 := h ++ _).
  destruct (prepare_asks request op (cred_role c) v id (raw_path (target request)) h1) as (rest & Er & Hr & Ho).
  unfold bind, ret. destruct (prepare _ _ _ _ _ _ _ h1) as [h2 out]. simpl in Er, Ho. subst h2. intros [= <- <-].
  eexists. split; [unfold h1; by rewrite <- app_assoc|]. exists id. eexists. split; [done|]. right.
  exists key, c, now, v, op, rest. do 6 (split; [done|]). by destruct out.
Qed.

(** C5: Nothing is done in a tenant's name before its signature is verified:
    whatever the request, and whatever a connection then does with the body
    session, either no database call is made for any role, or the history is
    the lookup of the access key the request names, one reading of the clock
    and then calls for exactly the role stored with that key, on what the
    classified operation addresses, where the request verified at that time
    with the secret stored with the key and carries no session token. *)
Theorem role_after_signature request cs h :
  exists id t, (serve request cs h).1 = h ++ Happens RequestId id :: t /\
    (Forall (asked roleless) t
     \/ exists key c now v op rest,
          t = Happens (Call (lookup_credential key)) (Ok (Some c)) :: Happens SystemTimeNow now :: rest /\
          signed_with request key c now v /\ security_token v = None /\ classify request = Ok op /\
          Forall (asked (permitted (cred_role c) op)) rest).
Proof.
  destruct (service_head_runs request h) as (t & E & id & u & -> & Hu). unfold serve, bind.
  destruct (service_head config request h) as [h1 o]. simpl in E, Hu. subst h1. exists id.
  destruct o as [response|s]; [exists u; split; [done|]; destruct Hu as [[Hu _]|Hu]; [by left|right]|].
  { destruct Hu as (key & c & now & v & op & rest & -> & _ & Hs & Ht & Hc & Hr & _). by exists key, c, now, v, op, rest. }
  destruct Hu as [[_ []]|(key & c & now & v & op & rest & -> & _ & Hs & Ht & Hc & Hr & Er & Eo & Hk)].
  destruct (drive_asks cs s Hk (h ++ Happens RequestId id :: Happens (Call (lookup_credential key)) (Ok (Some c))
    :: Happens SystemTimeNow now :: rest)) as (t2 & E2 & Hr2 & _).
  destruct (drive s cs _) as [h2 s2]. simpl in E2 |- *. subst h2. rewrite <- app_assoc. simpl.
  eexists. split; [done|]. right. exists key, c, now, v, (s_operation s), (rest ++ t2). rewrite Eo in *.
  do 4 (split; [done|]). apply Forall_app. split; [done|]. by rewrite <- Er.
Qed.
End Requests.
