(* ===== verification/Upload.v ===== *)
(** Bodies of uploads, over the sessions of [Session]: what reaches the
    database while a body is received, and what a commit publishes.

    A session's history is read through [chunk_of], the chunks the database
    took, and [publication], the calls that make an object or a part visible.
    The specification of a body is [payload]: the received bytes, or what the
    aws-chunked decoder makes of them. *)
From S2P Require Import Prelude Text Http Headers Canonical SigV4 SigV4Correct Base64 Chunked ChunkedWire XmlWrite Types Framing Response.
From S2P Require Import Exchange XmlParse Checksums Calendar ListXml Route Effects Database Metadata Dispatch Session.

(** * What a history stores *)

(** A chunk the database took: of an upload and part, under a number, with
    the digest it was sealed with and the record that came back. *)
Record Stored := {
  st_upload : bytes;
  st_part : Z;
  st_seq : Z;
  st_data : bytes;
  st_seal : option (bytes * ChunkRecord)
}.

Definition chunk_of (e : Happened) : option Stored :=
  match e with
  | Happens effect answer =>
      match effect in Effect A return A -> option Stored with
      | Call op =>
          match op in DbOp B return result DbError B -> option Stored with
          | put_chunk_sealed _ _ _ id seq data hash => fun r =>
              match r with
              | Ok c => Some {| st_upload := id; st_part := 0; st_seq := seq; st_data := data; st_seal := Some (hash, c) |}
              | Err _ => None
              end
          | put_chunk _ _ _ id seq data part => fun r =>
              match r with
              | Ok _ => Some {| st_upload := id; st_part := part; st_seq := seq; st_data := data; st_seal := None |}
              | Err _ => None
              end
          | _ => fun _ => None
          end
      | _ => fun _ => None
      end answer
  end.

Definition stored_in (t : history) : list Stored := omap chunk_of t.
Definition contents (ss : list Stored) : bytes := concat (map st_data ss).
Definition records (ss : list Stored) : list ChunkRecord := omap (fun s => snd <$> st_seal s) ss.

Lemma stored_app t u : stored_in (t ++ u) = stored_in t ++ stored_in u.
Proof. apply omap_app. Qed.

Lemma contents_app ss us : contents (ss ++ us) = contents ss ++ contents us.
Proof. unfold contents. by rewrite map_app, concat_app. Qed.

Lemma records_app ss us : records (ss ++ us) = records ss ++ records us.
Proof. apply omap_app. Qed.

(** * Database calls *)

Lemma yields_db `{World} {A} h (op : DbOp A) (Q : history -> result S3Error A -> Prop) :
  (forall r, Q [Happens (Call op) r] (map_err to_s3 r)) -> yields h (db op) Q.
Proof. intros Hq. eexists. by split; [|apply Hq]. Qed.

Lemma db_event `{World} {A} h (op : DbOp A) :
  yields h (db op) (fun t r => exists answer, t = [Happens (Call op) answer] /\ r = map_err to_s3 answer).
Proof. apply yields_db. eauto. Qed.

Section Upload.
Context `{World} `{BodyHash} `{XmlReader} `{HttpDates}.
Context (config : ServiceConfig).

(** Chunk [n] of the sink's upload: a full chunk, sealed with its own digest
    when it belongs to an object. *)
Definition chunk_for (k : StagedSink) (n : nat) (s : Stored) : Prop :=
  st_upload s = upload_id k /\ st_part s = staged_part_number k /\ st_seq s = Z.of_nat n /\
  len (st_data s) = chunk_bytes k /\
  if staged_part_number k =? 0 then exists c, st_seal s = Some (sha256 (st_data s), c) else st_seal s = None.

(** The sink [k] after the chunks [ss] of the body [body]. *)
Record stages (k : StagedSink) (ss : list Stored) (body : bytes) : Prop := {
  stages_chunks : forall n s, ss !! n = Some s -> chunk_for k n s;
  stages_body : contents ss ++ buffer k = body;
  stages_sequence : sequence k = Z.of_nat (length ss);
  stages_ids : chunk_blob_ids k = map blob_id (records ss);
  stages_sizes : chunk_sizes k = map Database.chunk_size (records ss);
  stages_buffer : len (buffer k) <= chunk_bytes k
}.

Lemma chunk_for_same k k' n s : same_upload k k' -> chunk_for k n s -> chunk_for k' n s.
Proof. intros (_ & _ & E3 & E4 & E5). unfold chunk_for. by rewrite E3, E4, E5. Qed.

Lemma same_upload_trans k1 k2 k3 : same_upload k1 k2 -> same_upload k2 k3 -> same_upload k1 k3.
Proof. unfold same_upload. intros (? & ? & ? & ? & ?) (? & ? & ? & ? & ?). split_and!; congruence. Qed.

(** One round of the loop keeps the body. *)
Lemma slice_spec b remaining n : 0 <= n -> len b <= n ->
  let '(b', rest, full) := append_staged_slice b remaining n in
  b' ++ rest = b ++ remaining /\ len b' <= n /\ (full = true <-> len b' = n) /\
  (full = false -> rest = []) /\ (len b < n -> remaining <> [] -> (length rest < length remaining)%nat) /\
  (length rest <= length remaining)%nat.
Proof.
  intros Hn Hb. unfold append_staged_slice. cbv zeta. set (count := Z.to_nat (Z.min (n - len b) (len remaining))).
  assert (Hc : Z.of_nat count = Z.min (n - len b) (len remaining)) by (unfold count, len in *; lia).
  rewrite len_app, Z.eqb_eq, Z.eqb_neq, length_drop. rewrite <- app_assoc, take_drop.
  assert (Ht : len (take count remaining) = Z.of_nat count).
  { unfold len in *. rewrite length_take. lia. }
  rewrite Ht. split; [done|]. split; [lia|]. split; [done|]. split; [|split].
  - intros Hf. apply drop_ge. unfold len in *. lia.
  - intros Hlt Hne. destruct remaining; [done|]. rewrite len_cons in Hc. pose proof (len_nonneg remaining). simpl. lia.
  - lia.
Qed.

Lemma store_chunk_yields role k data h : 
  yields h (store_chunk role k data) (fun t p => same_upload k p.1 /\ buffer p.1 = buffer k /\ sequence p.1 = sequence k /\
    match p.2 with
    | Ok _ => exists s, stored_in t = [s] /\ st_upload s = upload_id k /\ st_part s = staged_part_number k /\
        st_seq s = sequence k /\ st_data s = data /\
        (if staged_part_number k =? 0 then exists c, st_seal s = Some (sha256 data, c) else st_seal s = None) /\
        chunk_blob_ids p.1 = chunk_blob_ids k ++ map blob_id (records [s]) /\
        chunk_sizes p.1 = chunk_sizes k ++ map Database.chunk_size (records [s])
    | Err _ => stored_in t = []
    end).
Proof.
  unfold store_chunk. destruct (Z.eqb_spec (staged_part_number k) 0) as [E|E].
  - eapply yields_bind; [apply db_event|].
    intros t r ([c|e] & -> & ->); apply yields_ret; simpl; [|done]. split_and!; try done.
    eexists. split; [done|]. simpl. rewrite E. split_and!; try done. by eexists.
  - eapply yields_bind; [apply db_event|].
    intros t r ([c|e] & -> & ->); apply yields_ret; simpl; [|done]. split_and!; try done.
    eexists. split; [done|]. simpl. by rewrite !app_nil_r.
Qed.

(** A full chunk taken off the buffer and stored. *)
Lemma stages_store k ss body buffered k1 s n :
  stages k ss body -> len buffered = chunk_bytes k -> same_upload k k1 -> buffer k1 = [] ->
  n = Z.of_nat (length ss) + 1 ->
  st_upload s = upload_id k -> st_part s = staged_part_number k -> st_seq s = sequence k -> st_data s = buffered ->
  (if staged_part_number k =? 0 then exists c, st_seal s = Some (sha256 buffered, c) else st_seal s = None) ->
  chunk_blob_ids k1 = chunk_blob_ids k ++ map blob_id (records [s]) ->
  chunk_sizes k1 = chunk_sizes k ++ map Database.chunk_size (records [s]) ->
  stages (set_sequence n k1) (ss ++ [s]) (contents ss ++ buffered).
Proof.
  intros [S1 S2 S3 S4 S5 S6] Hb Hk1 E1 En F1 F2 F3 F4 F5 E3 E4.
  assert (Hs : chunk_for k (length ss) s) by (unfold chunk_for; rewrite F4; split_and!; congruence).
  constructor; simpl.
  - intros i x Hx. apply (chunk_for_same k); [by destruct Hk1 as (? & ? & ? & ? & ?)|].
    apply lookup_app_Some in Hx as [Hx|[Hi Hx]]; [by apply S1|].
    destruct (i - length ss)%nat as [|j] eqn:Ej; [|by destruct j]. injection Hx as <-.
    by replace i with (length ss) by lia.
  - rewrite contents_app, E1, app_nil_r. unfold contents at 2. simpl. by rewrite F4, app_nil_r.
  - rewrite length_app. simpl. lia.
  - by rewrite E3, S4, records_app, map_app.
  - by rewrite E4, S5, records_app, map_app.
  - rewrite E1. destruct Hk1 as (_ & _ & _ & _ & ->). rewrite <- Hb. apply len_nonneg.
Qed.

Lemma stages_refill k ss body buffered : stages k ss body -> len buffered <= chunk_bytes k ->
  stages (set_buffered buffered k) ss (contents ss ++ buffered).
Proof. intros [S1 S2 S3 S4 S5 S6] Hb. by constructor. Qed.

(** The rounds the loop may still need: a byte each, and one for a buffer that
    is already full. *)
Definition rounds (k : StagedSink) (remaining : bytes) : nat :=
  (length remaining + if Z.eqb (len (buffer k)) (chunk_bytes k) then 1 else 0)%nat.

Lemma touched_yields lease h :
  yields h (match lease with
            | Some heartbeat => let! now := ask InstantNow in ret (Some (touched now heartbeat))
            | None => ret None
            end) (fun t _ => stored_in t = []).
Proof.
  destruct lease; [|by apply yields_ret]. eapply yields_bind; [by apply yields_ask with (Q := fun t _ => stored_in t = [])|].
  intros t now Ht. apply yields_ret. by rewrite app_nil_r.
Qed.

Lemma stage_loop_yields role fixed fuel : forall k lease remaining h,
  0 < chunk_bytes k -> len (buffer k) <= chunk_bytes k -> (rounds k remaining < fuel)%nat ->
  yields h (stage_loop fuel role fixed k lease remaining) (fun t p => same_upload k p.1.1 /\
    (p.2 = Ok tt -> forall ss body, stages k ss body -> stages p.1.1 (ss ++ stored_in t) (body ++ remaining))).
Proof.
  induction fuel as [|fuel IH]; intros k lease remaining h Hn Hb Hf; [lia|]. cbn [stage_loop].
  destruct (is_empty remaining) eqn:Ee.
  { apply is_empty_true in Ee as ->. apply yields_ret. split; [done|]. intros _ ss body Hs. by rewrite !app_nil_r. }
  apply is_empty_false in Ee. pose proof (slice_spec (buffer k) remaining (chunk_bytes k) ltac:(lia) Hb) as Hsl.
  destruct (append_staged_slice (buffer k) remaining (chunk_bytes k)) as [[buffered rest] full].
  destruct Hsl as (Ecat & Hb' & Hfull & Hrest & Hdec & Hle).
  assert (Hbody : forall ss body, stages k ss body -> body ++ remaining = (contents ss ++ buffered) ++ rest).
  { intros ss body Hs. rewrite <- (stages_body _ _ _ Hs), <- !app_assoc. by rewrite Ecat. }
  assert (Hrounds : (length rest < fuel)%nat).
  { unfold rounds in Hf. destruct (Z.eqb_spec (len (buffer k)) (chunk_bytes k)); [lia|]. specialize (Hdec ltac:(lia) Ee). lia. }
  destruct full; simpl.
  2: { rewrite Hrest in * by done. eapply yields_weaken; [apply (IH (set_buffered buffered k)); simpl; [done|done|]|].
       - unfold rounds. simpl. destruct (Z.eqb_spec (len buffered) (chunk_bytes k)); [|lia].
         by specialize (proj2 Hfull e).
       - intros t [[k' lease'] r] [Hk Hok]. cbn [fst snd] in *. split; [done|]. intros -> ss body Hs. rewrite (Hbody ss body Hs).
         by apply Hok, (stages_refill k ss body). }
  destruct ((staged_part_number k =? 0) && fixed && is_empty rest) eqn:Ebreak.
  { apply andb_true_iff in Ebreak as [_ Er%is_empty_true]. subst rest. apply yields_ret. split; [done|].
    intros _ ss body Hs. rewrite (Hbody ss body Hs), !app_nil_r. by apply (stages_refill k ss body). }
  eapply yields_bind; [apply (store_chunk_yields role (set_buffered [] k))|].
  intros t [k1 [[]|e]] (Hk1 & Eb1 & Es1 & Hst); cbn [fst snd] in *; [|by apply yields_ret].
  destruct Hst as (s & Est & F1 & F2 & F3 & F4 & F5 & E3 & E4).
  eapply yields_bind; [apply touched_yields|]. intros t2 lease' Et2.
  destruct (checked i32_min i32_max (sequence k1 + 1)) as [n|] eqn:En; [|by apply yields_ret].
  apply checked_Some in En as [-> _].
  eapply yields_weaken; [apply (IH (set_sequence (sequence k1 + 1) k1)); simpl|].
  - by destruct Hk1 as (_ & _ & _ & _ & ->).
  - rewrite Eb1. destruct Hk1 as (_ & _ & _ & _ & ->). simpl. unfold len. simpl. lia.
  - unfold rounds. simpl. rewrite Eb1. destruct Hk1 as (_ & _ & _ & _ & ->). simpl. change (len []) with 0.
    destruct (chunk_bytes k); lia.
  - intros t3 [[k' lease''] r] [Hk Hok]. cbn [fst snd] in *. split.
    { exact (same_upload_trans k _ k' Hk1 Hk). }
    intros -> ss body Hs. rewrite !stored_app, Est, Et2, (Hbody ss body Hs), app_assoc. simpl.
    apply Hok; [done|]. apply (stages_store k ss body buffered k1 s); try done; [by apply Hfull|].
    rewrite Es1. simpl. rewrite (stages_sequence _ _ _ Hs). lia.
Qed.

(** * Receiving *)

(** The body a connection sent and the decoder it left: the pieces
    themselves, or what the decoder makes of them. *)
Definition payload (d : option Decoder) (inputs : list bytes) : option (option Decoder * bytes) :=
  match d with
  | None => Some (None, concat inputs)
  | Some d => match feed d inputs with (d, body, Some (Ok _)) => Some (Some d, body) | _ => None end
  end.

(** Pushes, until one fails. *)
Fixpoint receive (s : BodySession) (inputs : list bytes) : Run (BodySession * result ServiceResponse unit) :=
  match inputs with
  | [] => ret (s, Ok tt)
  | input :: inputs =>
      let! (s, pushed) := session_push config s input in
      match pushed with
      | Ok _ => receive s inputs
      | Err response => ret (s, Err response)
      end
  end.

(** The object a direct put is for. *)
Definition direct_target (k : DirectPutSink) : DirectPutSink :=
  {| direct_bucket := direct_bucket k; direct_key := direct_key k; direct_content_type := direct_content_type k;
     direct_meta_json := direct_meta_json k; direct_if_none_match := direct_if_none_match k;
     direct_if_match := direct_if_match k; direct_expected_sha256 := direct_expected_sha256 k;
     max_body_bytes := max_body_bytes k; direct_body := [] |}.

(** The sink [k] holds [body], apart from the chunks [ss], for what [k0] was
    opened for. *)
Definition sink_holds (k0 : BodySink) (ss : list Stored) (body : bytes) (k : BodySink) : Prop :=
  match k0, k with
  | DirectPut k0, DirectPut k => direct_target k = direct_target k0 /\ direct_body k = body /\ ss = []
  | Buffered _, Buffered b => b = body /\ ss = []
  | Staged k0, Staged k => 0 < chunk_bytes k /\ same_upload k0 k /\ stages k ss body
  | _, _ => False
  end.

Definition same_request (s s' : BodySession) : Prop :=
  request_id s' = request_id s /\ resource s' = resource s /\ role s' = role s /\ s_operation s' = s_operation s /\
  s_headers s' = s_headers s /\ s_payload_mode s' = s_payload_mode s /\ expected s' = expected s /\
  expected_wire_bytes s' = expected_wire_bytes s /\ s_max_decoded_bytes s' = s_max_decoded_bytes s.

(** A session opened as [s0] that received [inputs]. *)
Record received (s0 : BodySession) (inputs : list bytes) (ss : list Stored) (body : bytes) (s : BodySession) : Prop := {
  rc_active : active s = true;
  rc_same : same_request s0 s;
  rc_wire : wire_bytes s = len (concat inputs);
  rc_payload : payload (decoder s0) inputs = Some (decoder s, body);
  rc_decoded : s_decoded_bytes s = len body;
  rc_digests : digests s = BodyDigests_update (BodyDigests_for_expected (expected s0)) body;
  rc_sink : sink_holds (sink s0) ss body (sink s)
}.

Lemma update_update d a b : BodyDigests_update (BodyDigests_update d a) b = BodyDigests_update d (a ++ b).
Proof.
  unfold BodyDigests_update. cbn. rewrite !app_assoc. f_equal; [destruct (h_sha1 d)|destruct (h_crc32 d)|
    destruct (h_crc32c d)|destruct (h_crc64nvme d)]; cbn; by rewrite ?app_assoc.
Qed.

Lemma feed_snoc d pieces p d' o st : feed d pieces = (d', o, Some (Ok st)) ->
  feed d (pieces ++ [p]) = let '(d'', o', r) := feed d' [p] in (d'', o ++ o', r).
Proof.
  revert d o. induction pieces as [|q ps IH]; intros d o Hf; cbn [app].
  - cbn [feed] in Hf. simplify_eq. by destruct (feed d' [p]) as [[? ?] ?].
  - cbn [feed] in *. destruct (push d q) as [[d1 o1] [[st1|e1]|]]; [|by simplify_eq..].
    destruct (feed d1 ps) as [[d2 o2] r2] eqn:Ef. simplify_eq. rewrite (IH d1 o2 Ef).
    cbn [feed]. destruct (push d' p) as [[d3 o3] [[?|?]|]]; by rewrite ?app_nil_r, ?app_assoc.
Qed.

Lemma payload_None inputs input body : payload None inputs = Some (None, body) ->
  payload None (inputs ++ [input]) = Some (None, body ++ input).
Proof. intros [= <-]. simpl. by rewrite concat_app, concat_cons, concat_nil, app_nil_r. Qed.

Lemma payload_Some d0 inputs input d body d' o st : payload (Some d0) inputs = Some (Some d, body) ->
  push d input = (d', o, Some (Ok st)) -> payload (Some d0) (inputs ++ [input]) = Some (Some d', body ++ o).
Proof.
  simpl. destruct (feed d0 inputs) as [[d1 b] [[s1|]|]] eqn:Ef; [|done..]. intros [= -> ->] Hp.
  rewrite (feed_snoc _ _ _ _ _ _ Ef). cbn [feed]. rewrite Hp. by rewrite app_nil_r.
Qed.

Lemma session_request_trans s1 s2 s3 : same_request s1 s2 -> same_request s2 s3 -> same_request s1 s3.
Proof.
  unfold same_request. intros (? & ? & ? & ? & ? & ? & ? & ? & ?) (? & ? & ? & ? & ? & ? & ? & ? & ?).
  split_and!; congruence.
Qed.

(** The sink is still for the same upload. *)
Definition keeps (k k' : BodySink) : Prop :=
  match k, k' with
  | Staged k, Staged k' => same_upload k k'
  | DirectPut _, DirectPut _ | Buffered _, Buffered _ => True
  | _, _ => False
  end.

Lemma sink_keeps_refl k : keeps k k.
Proof. by destruct k. Qed.

Lemma sink_keeps_trans k1 k2 k3 : keeps k1 k2 -> keeps k2 k3 -> keeps k1 k3.
Proof. destruct k1, k2, k3; try done. apply same_upload_trans. Qed.

(** Accepting decoded bytes adds them to the body. *)
Definition accepts (k0 : BodySink) (s : BodySession) (ss : list Stored) (body decoded : bytes) (s' : BodySession) : Prop :=
  same_request s s' /\ decoder s' = decoder s /\ wire_bytes s' = wire_bytes s /\ active s' = active s /\
  s_decoded_bytes s' = s_decoded_bytes s + len decoded /\ s_decoded_bytes s' <= s_max_decoded_bytes s /\
  digests s' = BodyDigests_update (digests s) decoded /\ sink_holds k0 ss (body ++ decoded) (sink s').

Lemma session_accept_yields s decoded h : (forall k, sink s = Staged k -> 0 < chunk_bytes k /\ len (buffer k) <= chunk_bytes k) ->
  yields h (session_accept config s decoded) (fun t p =>
    (same_request s p.1 /\ keeps (sink s) (sink p.1)) /\
    (p.2 = Ok tt -> forall k0 ss body, sink_holds k0 ss body (sink s) -> accepts k0 s (ss ++ stored_in t) body decoded p.1)).
Proof.
  intros Hk. unfold session_accept.
  destruct (checked_add_u64 _ _) as [total|] eqn:Et; [|by apply yields_ret; split; [split; [|apply sink_keeps_refl]|]].
  apply checked_Some in Et as [-> _].
  destruct (Z.ltb_spec (s_max_decoded_bytes s) (s_decoded_bytes s + len decoded)) as [|Hmax];
    [by apply yields_ret; split; [split; [|apply sink_keeps_refl]|]|].
  cbv zeta. set (s1 := set_received _ _ s). change (sink s1) with (sink s).
  destruct (sink s) as [k|k|b] eqn:Ek.
  - apply yields_ret. unfold append_direct_body. destruct (_ <? _); simpl; [by rewrite Ek|].
    split; [done|]. intros _ [k0|k0|b0] ss body Hs; try done. destruct Hs as (Hd & <- & ->). done.
  - destruct (Hk k eq_refl) as [Hn Hl]. eapply yields_bind.
    { apply stage_loop_yields; [done|done|]. unfold rounds. destruct (_ =? _); lia. }
    intros t [[k' lease] r] [Hsame Hok]. cbn [fst snd] in *. apply yields_ret. cbn [fst snd].
    split; [done|]. intros -> [k0|k0|b0] ss body Hs; try done. destruct Hs as (_ & Hs & Hst). rewrite app_nil_r.
    repeat (split; [done|]). simpl. split; [|split].
    + by destruct Hsame as (_ & _ & _ & _ & ->).
    + by eapply same_upload_trans.
    + by apply Hok.
  - apply yields_ret. destruct (_ <? _); simpl; [by rewrite Ek|].
    split; [done|]. intros _ [k0|k0|b0] ss body Hs; try done. destruct Hs as (-> & ->). done.
Qed.

Lemma renew_yields s now h : yields h (renew_upload_lease_if_due s now) (fun t p =>
  stored_in t = [] /\ exists lease, p.1 = set_lease lease s).
Proof.
  assert (Hid : set_lease (lease_heartbeat s) s = s) by (by destruct s).
  unfold renew_upload_lease_if_due. destruct (lease_heartbeat s) as [b|]; [|apply yields_ret; eauto].
  destruct (sink s) as [k|k|d]; [apply yields_ret; eauto| |apply yields_ret; eauto].
  eapply (yields_bind _ _ _ (fun t _ => stored_in t = [])).
  - unfold renew_if_due. destruct (now <? next_beat b); [by apply yields_ret|].
    eapply (yields_bind _ _ _ (fun t _ => stored_in t = [])); [by apply yields_ask|].
    intros t r Ht. apply yields_ret. by rewrite app_nil_r.
  - intros t [b' r] Ht. apply yields_ret. rewrite app_nil_r. eauto.
Qed.

(** The last call of [t] takes the upload of a staged session back. *)
Definition aborted (s : BodySession) (t : history) : Prop :=
  match sink s with
  | Staged k =>
      if staged_part_number k =? 0
      then exists t' r, t = t' ++ [Happens (Call (abort_upload (role s) (staged_bucket k) (staged_key k) (upload_id k) false)) r]
      else exists t' r, t = t' ++ [Happens (Call (abort_part (role s) (staged_bucket k) (staged_key k) (upload_id k)
                                                    (staged_part_number k))) r]
  | _ => True
  end.

Lemma aborted_keeps s s' t u : same_request s s' -> keeps (sink s) (sink s') -> aborted s' u -> aborted s (t ++ u).
Proof.
  intros (_ & _ & Er & _) Hk. unfold aborted. destruct (sink s) as [k|k|b], (sink s') as [k'|k'|b']; try done.
  destruct Hk as (-> & -> & -> & -> & _). rewrite Er.
  destruct (_ =? _); intros (t' & r & ->); exists (t ++ t'), r; by rewrite app_assoc.
Qed.

Definition unpublished : forall A, DbOp A -> Prop := fun _ op => publishes op = None.

Lemma fail_session_yields s e h : yields h (fail_session s e) (fun t p =>
  Forall (asked unpublished) t /\ p = (set_active false s, session_error s e) /\ aborted s t).
Proof.
  unfold fail_session, cleanup, aborted. destruct (sink s) as [k|k|b]; [by apply yields_ret; split; [constructor|]| |by apply yields_ret; split; [constructor|]].
  destruct (staged_part_number k =? 0).
  - eapply (yields_bind _ _ _ (fun t _ => exists r, t = [Happens (Call (abort_upload _ _ _ _ _)) r])).
    + eapply (yields_bind _ _ _ (fun t _ => exists r, t = [Happens (Call (abort_upload _ _ _ _ _)) r])); [apply yields_ask; eauto|].
      intros t r Ht. apply yields_ret. by rewrite app_nil_r.
    + intros t u (r & ->). apply yields_ret. rewrite app_nil_r. split; [by repeat constructor|]. split; [done|]. by exists [], r.
  - eapply (yields_bind _ _ _ (fun t _ => exists r, t = [Happens (Call (abort_part _ _ _ _ _)) r])).
    + eapply (yields_bind _ _ _ (fun t _ => exists r, t = [Happens (Call (abort_part _ _ _ _ _)) r])); [apply yields_ask; eauto|].
      intros t r Ht. apply yields_ret. by rewrite app_nil_r.
    + intros t u (r & ->). apply yields_ret. rewrite app_nil_r. split; [by repeat constructor|]. split; [done|]. by exists [], r.
Qed.

Lemma holds_keeps k0 ss body k : sink_holds k0 ss body k -> keeps k0 k.
Proof. destruct k0, k; try done. by intros (_ & ? & _). Qed.

(** A push that fails closes the session. *)
Definition refused (s0 : BodySession) (t : history) (p : BodySession * result ServiceResponse unit) : Prop :=
  active p.1 = false /\ aborted s0 t /\ exists r, p.2 = Err r.

Lemma failing_yields s0 s e h : same_request s0 s -> keeps (sink s0) (sink s) ->
  yields h (let! (s, response) := fail_session s e in ret (s, @Err ServiceResponse unit response)) (refused s0).
Proof.
  intros Hs Hk. eapply yields_bind; [apply fail_session_yields|]. intros t p (_ & -> & Ha). apply yields_ret.
  split; [done|]. rewrite app_nil_r. split; [|by eexists]. by apply (aborted_keeps s0 s []).
Qed.

Lemma refused_app s0 t h c : yields h c (refused s0) -> yields h c (fun u p => refused s0 (t ++ u) p).
Proof.
  intros Hy. eapply yields_weaken; [exact Hy|]. intros u p (Ha & Hb & He). split; [done|]. split; [|done].
  by apply (aborted_keeps s0 s0 t u); [|apply sink_keeps_refl|].
Qed.

Definition pushed (s0 : BodySession) (inputs : list bytes) (ss : list Stored) (body : bytes) (t : history)
    (p : BodySession * result ServiceResponse unit) : Prop :=
  (exists decoded, p.2 = Ok tt /\ received s0 inputs (ss ++ stored_in t) (body ++ decoded) p.1) \/ refused s0 t p.

Lemma session_push_yields s0 inputs ss body s input h : received s0 inputs ss body s ->
  yields h (session_push config s input) (pushed s0 (inputs ++ [input]) ss body).
Proof.
  intros [R1 R2 R3 R4 R5 R6 R7]. unfold session_push. rewrite R1. cbn [negb].
  pose proof (holds_keeps _ _ _ _ R7) as Hk.
  assert (Hfail : forall s' e t h', same_request s s' -> keeps (sink s) (sink s') ->
    yields h' (let! (s, response) := fail_session s' e in ret (s, @Err ServiceResponse unit response))
      (fun u p => pushed s0 (inputs ++ [input]) ss body (t ++ u) p)).
  { intros s' e t h' Hs' Hk'. eapply yields_weaken.
    - apply (refused_app s0 t), (failing_yields s0 s'); [by eapply session_request_trans|by eapply sink_keeps_trans].
    - intros u p Hr. by right. }
  destruct (checked_add_u64 (wire_bytes s) (len input)) as [total|] eqn:Et; [|apply (Hfail s _ []); [done|apply sink_keeps_refl]].
  apply checked_Some in Et as [-> _]. cbv zeta. set (s1 := set_wire _ s).
  destruct (match expected_wire_bytes s1 with Some _ => _ | None => _ end); [apply (Hfail s1 _ []); [done|apply sink_keeps_refl]|].
  set (accepted := fun d decoded s' t => same_request s s' /\ keeps (sink s) (sink s') /\
    payload (decoder s0) (inputs ++ [input]) = Some (d, body ++ decoded) /\
    accepts (sink s0) (set_decoder d s1) (ss ++ stored_in t) body decoded s').
  eapply (yields_bind _ _ _ (fun t p => (same_request s p.1 /\ keeps (sink s) (sink p.1)) /\
    (p.2 = Ok tt -> exists d decoded, accepted d decoded p.1 t))).
  { assert (Hlen : forall k, sink s = Staged k -> 0 < chunk_bytes k /\ len (buffer k) <= chunk_bytes k).
    { intros k Ek. rewrite Ek in R7. destruct (sink s0); try done. destruct R7 as (? & _ & []). done. }
    change (decoder s1) with (decoder s). destruct (decoder s) as [d|] eqn:Ed.
    - destruct (push d input) as [[d' decoded] outcome] eqn:Ep.
      destruct outcome as [[st|[e|]]|]; try (apply yields_ret; split; [split; [done|apply sink_keeps_refl]|done]).
      eapply yields_weaken; [apply (session_accept_yields (set_decoder (Some d') s1) decoded); exact Hlen|].
      intros t p [Hsame Hok]. split; [exact Hsame|]. intros E. exists (Some d'), decoded. destruct Hsame as [? ?].
      destruct (decoder s0) as [d0|] eqn:E0; [|done].
      split; [done|]. split; [done|]. split; [by eapply payload_Some|]. by apply Hok.
    - eapply yields_weaken; [apply (session_accept_yields s1 input); exact Hlen|].
      intros t p [Hsame Hok]. split; [exact Hsame|]. intros E. exists None, input. destruct Hsame as [? ?].
      split; [done|]. split; [done|].
      destruct (decoder s0) as [d0|] eqn:E0.
      { simpl in R4. by destruct (feed d0 inputs) as [[? ?] [[]|]]. }
      split; [by apply payload_None|].
      replace (set_decoder None s1) with s1 by (unfold s1, set_decoder, set_wire, update_session; simpl; by rewrite Ed).
      by apply Hok. }
  intros t [s3 [[]|e]] [[Hs3 Hk3] Hok]; cbn [fst snd] in *; [|by apply (Hfail s3 e t)].
  destruct (Hok eq_refl) as (d & decoded & _ & _ & Hpay & A1 & A2 & A3 & A4 & A5 & A6 & A7 & A8).
  eapply yields_bind; [by apply yields_ask with (Q := fun u _ => stored_in u = [])|]. intros t2 now Et2.
  eapply yields_bind; [apply renew_yields|]. intros t3 [s4 r] (Et3 & lease & Es4). cbn [fst snd] in *. subst s4.
  destruct r as [[]|e].
  2:{ eapply yields_weaken; [by apply (Hfail (set_lease lease s3) (to_s3 e) (t ++ t2 ++ t3))|].
      intros u p. cbv beta. by rewrite <- !app_assoc. }
  apply yields_ret. left. exists decoded. split; [done|].
  rewrite !app_nil_r, !stored_app, Et2, Et3, !app_nil_r. constructor; simpl.
  - by rewrite A4.
  - by eapply session_request_trans.
  - rewrite A3. simpl. rewrite R3, concat_app, len_app. simpl. by rewrite app_nil_r.
  - by rewrite A2.
  - rewrite A5. simpl. by rewrite R5, len_app.
  - rewrite A7. simpl. by rewrite R6, update_update.
  - done.
Qed.

Lemma receive_yields s0 inputs : forall s pre ss body h, received s0 pre ss body s ->
  yields h (receive s inputs) (pushed s0 (pre ++ inputs) ss body).
Proof.
  induction inputs as [|input inputs IH]; intros s pre ss body h Hr; cbn [receive].
  - apply yields_ret. left. exists []. rewrite !app_nil_r. done.
  - eapply yields_bind; [by apply session_push_yields|].
    intros t [s1 r] [(decoded & E & Hr1)|(Ha & Hb & r' & E)]; cbn [fst snd] in *; subst r.
    + eapply yields_weaken; [by apply (IH s1 (pre ++ [input]) (ss ++ stored_in t) (body ++ decoded))|].
      intros u p [(decoded' & E & Hp)|Hp]; [left|right].
      * exists (decoded ++ decoded'). split; [done|]. rewrite stored_app, !app_assoc. by rewrite <- app_assoc in Hp at 1.
      * destruct Hp as (Hp1 & Hp2 & Hp3). split; [done|]. split; [|done].
        by apply (aborted_keeps s0 s0 t u); [|apply sink_keeps_refl|].
    + apply yields_ret. rewrite app_nil_r. right. split; [done|]. split; [done|]. by eexists.
Qed.

(** * Commits *)

(** The digests of a body that pass verification are the body's. *)
Lemma verified_passes mode e0 e m (actual := BodyDigests_values (BodyDigests_update (BodyDigests_for_expected e0) m)) :
  verify_digest_values mode actual e = Ok tt ->
  passes mode e m /\ forall a v, expected_get e a = Some v -> digest_value actual a = Some v.
Proof.
  intros Hv. unfold verify_digest_values in Hv.
  assert (Hd : forall a, digest_value actual a = None \/ digest_value actual a = Some (checksum a m)).
  { intros []; cbn; [destruct (requires_digest e0 Crc32)|destruct (requires_digest e0 Crc32c)|
      destruct (requires_digest e0 Sha1)| |destruct (requires_digest e0 Crc64Nvme)]; cbn; auto. }
  destruct (match mode with FullHash _ => _ | _ => _ end) eqn:Em; [done|].
  apply Ok_bind in Hv as ([] & V0 & Hv). apply Ok_bind in Hv as ([] & V1 & Hv). apply Ok_bind in Hv as ([] & V2 & Hv).
  apply Ok_bind in Hv as ([] & V3 & Hv). apply Ok_bind in Hv as ([] & V4 & V5).
  assert (Hc : forall a v, expected_get e a = Some v -> verify_checksum (digest_value actual a) (Some v) = Ok tt)
    by (intros [] v Ev; cbn [digest_value expected_get] in *; by rewrite <- Ev).
  assert (Hg : forall a v, expected_get e a = Some v -> v = checksum a m /\ digest_value actual a = Some v).
  { intros a v Ev. specialize (Hc a v Ev). destruct (Hd a) as [E|E]; rewrite E in Hc |- *; [done|].
    rewrite verify_checksum_Ok in Hc. by rewrite (Hc v eq_refl). }
  split; [|intros a v Ev; by apply Hg]. constructor.
  - intros h ->. apply negb_false_iff, constant_time_eq_true in Em. done.
  - intros v Ev. rewrite verify_checksum_Ok in V0. by apply V0.
  - intros a v Ev. by apply Hg.
Qed.

(** What makes a received body complete: its length, its decoding, and every
    checksum stated for it in the head and in trailers. *)
Record complete_body (s0 : BodySession) (inputs : list bytes) (body : bytes) : Prop := {
  cb_length : forall n, expected_wire_bytes s0 = Some n -> len (concat inputs) = n;
  cb_plain : decoder s0 = None -> body = concat inputs;
  cb_decoded : forall d0, decoder s0 = Some d0 -> exists d,
    feed d0 inputs = (d, body, Some (Ok Done)) /\
    forall t, t ∈ Chunked.trailers d -> exists a, from_checksum_header (trailer_name t) = Some a /\
      base64_decode (trailer_value t) = Some (checksum a body);
  cb_passes : passes (s_payload_mode s0) (expected s0) body
}.

(** A session as a request head leaves it. *)
Record opened (s : BodySession) : Prop := {
  op_active : active s = true;
  op_wire : wire_bytes s = 0;
  op_decoded : s_decoded_bytes s = 0;
  op_digests : digests s = BodyDigests_for_expected (expected s);
  op_decoder : forall d, decoder s = Some d -> exists m lim, waiting m lim d [];
  op_own : own_sink s;
  op_sink : sink_holds (sink s) [] [] (sink s)
}.

Lemma opened_received s : opened s -> received s [] [] [] s.
Proof.
  intros [O1 O2 O3 O4 O5 O6 O7]. constructor; try done.
  - simpl. destruct (decoder s); done.
  - rewrite O4. exact (digests_of_concat (expected s) []).
Qed.


(** ** What is published *)









(** ** Sessions as heads open them *)

Lemma fresh_staged k : 0 < chunk_bytes k -> buffer k = [] -> sequence k = 0 -> chunk_blob_ids k = [] -> chunk_sizes k = [] ->
  sink_holds (Staged k) [] [] (Staged k).
Proof.
  intros Hn Hb Hs Hi Hz. split; [done|]. split; [done|]. constructor; try done.
  rewrite Hb. by apply Z.lt_le_incl.
Qed.

Lemma choose_sink_empty request op tenant v e d h h' k : 0 < staging_chunk_bytes config ->
  choose_sink config request op tenant v e d h = (h', Ok k) -> sink_holds k [] [] k.
Proof.
  intros Hn. unfold choose_sink. destruct op; try (by intros [= <- <-]); intros Hc.
  - do 4 (apply try_Ok in Hc as (? & ? & _ & Hc)). destruct (direct_put_eligible _ _ _ _ _); [by injection Hc as <- <-|].
    apply try_Ok in Hc as (? & ? & _ & Hc). injection Hc as <- <-. by apply fresh_staged.
  - apply try_Ok in Hc as (? & ? & _ & Hc). injection Hc as <- <-. by apply fresh_staged.
Qed.

(** The decoded length a head declares. *)
Definition declares_length (m : HeaderMap) (lim : ChunkedLimits) : Prop :=
  forall text, HeaderMap_get_all m (bs "x-amz-decoded-content-length") = [text] ->
    exists n, integer_spelling text n /\ expected_decoded_length lim = Some n.

Lemma make_decoder_new m v d : make_decoder config m v = Ok (Some d) ->
  exists mode lim, Decoder_new mode lim = Ok d /\ 0 <= max_chunk_header_bytes lim /\ declares_length m lim /\
    match payload_mode v with
    | StreamingSigned => exists context, streaming_context v = Some context /\ mode = Signed context
    | StreamingUnsignedTrailer => exists declared, mode = UnsignedTrailer declared
    | _ => False
    end.
Proof.
  unfold make_decoder. intros Hm. apply Ok_bind in Hm as ([mode|] & Hmode & Hm); [|done].
  apply Ok_bind in Hm as (ce & _ & Hm). destruct (negb _); [done|].
  apply Ok_bind in Hm as (declared & Ho & Hm). apply Ok_bind in Hm as (n & Hn & Hm).
  apply map_err_Ok in Hm. apply Ok_bind in Hm as (d' & Hd & [= <-]).
  eexists mode, _. split; [exact Hd|]. split; [done|]. split.
  - intros text Ht. unfold Checksums.one_header in Ho. rewrite Ht in Ho. unfold from_utf8 in Ho.
    destruct (utf8_valid text); [|done]. injection Ho as <-. cbn [transpose_map] in Hn.
    destruct (parse_u64 text) as [k|] eqn:Ek; [|done]. injection Hn as <-. exists k. split; [|done].
    apply integer_spec; [|done]. by apply parse_unsigned_range in Ek as [_ ?].
  - destruct (payload_mode v); try done.
    + apply Ok_bind in Hmode as (context & Hc%ok_or_Ok & [= <-]). eauto.
    + apply Ok_bind in Hmode as (value & _ & Hmode). apply Ok_bind in Hmode as (names & _ & [= <-]). eauto.
Qed.

Lemma make_decoder_waiting m v d : make_decoder config m v = Ok (Some d) -> exists mode lim, waiting mode lim d [].
Proof. intros (mode & lim & Hn & Hl & _)%make_decoder_new. exists mode, lim. by apply new_waiting. Qed.







Lemma prepare_opened request op tenant v id path h h' s : 0 < staging_chunk_bytes config ->
  prepare config request op tenant v id path h = (h', Ok (ReceiveBody s)) -> opened s.
Proof.
  intros Hn Hp. pose proof (prepare_asks config request op tenant v id path h) as (t & _ & _ & Hq).
  rewrite Hp in Hq. destruct Hq as (_ & _ & Hown). unfold prepare in Hp.
  destruct (match content_length request with Some _ => _ | None => _ end); [by injection Hp|].
  apply try_Ok in Hp as (? & e & _ & Hp). destruct (negb _).
  { apply try_Ok in Hp as (? & ? & _ & Hp). by apply try_Ok in Hp as (? & ? & _ & [= _ ?]). }
  apply try_Ok in Hp as (h1 & d & [_ Hd]%ret_inv & Hp). apply try_Ok in Hp as (h2 & k & Hk & Hp).
  apply choose_sink_empty in Hk; [|done]. unfold bind in Hp.
  match type of Hp with (match ?c h2 with pair _ _ => _ end = _) => destruct (c h2) as [h3 lease] end.
  injection Hp as <- <-.
  constructor; try done. simpl. intros d' ->. by eapply make_decoder_waiting.
Qed.



Lemma service_head_opened request h h' s : 0 < staging_chunk_bytes config ->
  service_head config request h = (h', ReceiveBody s) -> opened s.
Proof.
  intros Hn. unfold service_head, bind at 1 2. destruct (ask RequestId h) as [h1 id].
  match goal with |- context [match ?c h1 with pair _ _ => _ end] => destruct (c h1) as [h2 [o|e]] eqn:E end.
  2: by intros [= _ ?].
  intros [= <- ->]. apply try_Ok in E as (h3 & [tenant v] & _ & E). apply try_Ok in E as (h4 & op & _ & E).
  by eapply prepare_opened.
Qed.

Lemma receive_asks inputs : forall s, own_sink s -> asks (tame s) (fun p => follows s p.1) (receive s inputs).
Proof.
  induction inputs as [|input inputs IH]; intros s Hs; cbn [receive]; [by apply asks_ret, follows_refl|].
  eapply asks_bind; [by apply session_push_asks|]. intros [s1 [u|r]] Hf; cbn [fst snd] in Hf; [|by apply asks_ret].
  eapply asks_follow; [exact Hf|]. apply IH. by destruct Hf as (_ & _ & ?).
Qed.

(** ** The staging loop ends *)

(** What [store_chunk] leaves of the loop's state. *)
Lemma store_chunk_room role k data h : 0 < chunk_bytes k ->
  let k1 := (store_chunk role (set_buffered [] k) data h).2.1 in buffer k1 = [] /\ chunk_bytes k1 = chunk_bytes k.
Proof.
  intros Hn. destruct (store_chunk_yields role (set_buffered [] k) data h) as (t & _ & (_ & _ & _ & _ & E5) & Eb & _). done.
Qed.

Lemma stage_loop_fuel role fixed fuel : forall fuel' k lease remaining h,
  0 < chunk_bytes k -> len (buffer k) <= chunk_bytes k -> (rounds k remaining < fuel)%nat -> (rounds k remaining < fuel')%nat ->
  stage_loop fuel role fixed k lease remaining h = stage_loop fuel' role fixed k lease remaining h.
Proof.
  induction fuel as [|fuel IH]; intros [|fuel'] k lease remaining h Hn Hb Hf Hf'; [lia..|]. cbn [stage_loop].
  destruct (is_empty remaining) eqn:Ee; [done|]. apply is_empty_false in Ee.
  pose proof (slice_spec (buffer k) remaining (chunk_bytes k) ltac:(lia) Hb) as Hsl.
  destruct (append_staged_slice (buffer k) remaining (chunk_bytes k)) as [[buffered rest] full].
  destruct Hsl as (_ & Hb' & Hfull & Hrest & Hdec & Hle).
  assert (Hrounds : (length rest < fuel /\ length rest < fuel')%nat).
  { unfold rounds in Hf, Hf'. destruct (Z.eqb_spec (len (buffer k)) (chunk_bytes k)); [lia|]. specialize (Hdec ltac:(lia) Ee). lia. }
  destruct full; cbn [negb].
  2: { apply IH; [done|done| |]; rewrite Hrest by done; unfold rounds; simpl;
       (destruct (Z.eqb_spec (len buffered) (chunk_bytes k)) as [e|]; [by specialize (proj2 Hfull e)|lia]). }
  destruct (_ && is_empty rest); [done|]. unfold bind.
  pose proof (store_chunk_room role k buffered h Hn) as [Eb1 En1].
  destruct (store_chunk role (set_buffered [] k) buffered h) as [h1 [k1 [u|e]]]; [|done]. cbn [fst snd] in *.
  match goal with |- (match ?c h1 with pair _ _ => _ end = _) => destruct (c h1) as [h2 lease'] end.
  destruct (checked i32_min i32_max (sequence k1 + 1)) as [n|]; [|done].
  assert (Hr : rounds (set_sequence n k1) rest = length rest).
  { unfold rounds. simpl. rewrite Eb1, En1. change (len []) with 0. destruct (Z.eqb_spec 0 (chunk_bytes k)); lia. }
  apply IH; simpl; rewrite ?Hr, ?En1, ?Eb1; try tauto. by apply Z.lt_le_incl.
Qed.
(** ** A complete body commits *)

(** The checksum headers of the response are never missing their digest:
    whatever was verified was computed. *)
Lemma provided_headers r e actual : (forall a v, expected_get e a = Some v -> digest_value actual a = Some v) ->
  exists r', add_provided_checksum_headers r e actual = Some r' /\ status r' = status r.
Proof.
  intros Hv. unfold add_provided_checksum_headers. revert r. induction ChecksumAlgorithm_ALL as [|a l IH]; intros r; simpl; [eauto|].
  destruct (expected_get e a) as [v|] eqn:E; [|apply IH]. rewrite (Hv a v E). destruct (IH {| status := status r;
    resp_headers := List.filter (fun h => negb (eq_ignore_ascii_case (fst h) (checksum_header_of a))) (resp_headers r)
      ++ [(checksum_header_of a, base64_encode v)]; body := body r |}) as (r' & Hr' & Es). eauto.
Qed.

Lemma finalize_status r id head_only : status (finalize r id head_only) = status r.
Proof. unfold finalize. cbv zeta. destruct (has_header _ _), head_only; done. Qed.

Lemma passes_verify mode e m : passes mode e m ->
  verify_digest_values mode (BodyDigests_values (BodyDigests_update (BodyDigests_for_expected e) m)) e = Ok tt.
Proof.
  intros Hp. apply verify_digest_values_Ok; [|done]. intros a Ha. unfold requires_digest.
  destruct (expected_get e a); done.
Qed.

(** One publishing call, whose answer decides the response. *)
Definition one_commit (t : history) (r : result S3Error ServiceResponse) : Prop :=
  exists A (op : DbOp A) answer, t = [Happens (Call op) answer] /\ publishes op <> None /\ is_ok answer = is_ok r /\
    (forall response, r = Ok response -> status response = 200).

Lemma db_commits (op : DbOp ObjectRecord) h : publishes op <> None ->
  yields h (let? info := db op in ret (Ok (put_response info))) one_commit.
Proof.
  intros Hp. apply (yields_try _ _ _ (fun t r => exists answer, t = [Happens (Call op) answer] /\ is_ok answer = is_ok r)).
  - apply yields_db. intros [a|e]; by eexists.
  - intros t a (answer & -> & Ea). apply yields_ret. exists ObjectRecord, op, answer. split_and!; try done.
    by intros response [= <-].
  - intros t e (answer & -> & Ea). exists ObjectRecord, op, answer. by split_and!.
Qed.

Lemma commit_commits s actual size h bucket key : own_sink s -> s_operation s = PutObject bucket key ->
  yields h (commit config s actual size) one_commit.
Proof.
  intros Ho Eop. unfold own_sink in Ho. rewrite Eop in Ho. unfold commit. destruct (sink s) as [k|k|b]; [| |done].
  - by apply db_commits.
  - destruct Ho as [[-> _]|]; [|done]. simpl. unfold commit_object. cbv zeta. destruct (_ || _); by apply db_commits.
Qed.

Lemma received_own s0 inputs ss body s : own_sink s0 -> received s0 inputs ss body s -> own_sink s.
Proof.
  intros Ho [_ (_ & _ & _ & Eo & _) _ _ _ _ Hk]. unfold own_sink in *. rewrite Eo.
  destruct (sink s0) as [k0|k0|b0], (sink s) as [k|k|b]; try done.
  - destruct Hk as (Ht & _). injection Ht as -> -> _. done.
  - destruct Hk as (_ & (-> & -> & -> & -> & _) & _). done.
Qed.

Lemma finish_commits s0 inputs ss body s h bucket key :
  opened s0 -> received s0 inputs ss body s -> s_operation s0 = PutObject bucket key -> decoder s0 = None ->
  complete_body s0 inputs body -> len body <= i64_max ->
  yields h (session_finish config s) (fun t p => exists A (op : DbOp A) answer u,
    t = Happens (Call op) answer :: u /\ publishes op <> None /\ (is_ok answer = true -> u = [] /\ status p.2 = 200)).
Proof.
  intros Ho Hr Eop Ed [C1 C2 _ C4] Hmax. pose proof Hr as [R1 R2 R3 R4 R5 R6 R7].
  pose proof (received_own _ _ _ _ _ (op_own _ Ho) Hr) as Hown.
  destruct R2 as (_ & _ & _ & Eo & _ & Em & Ee & El & _). rewrite Ed in R4. injection R4 as Eds Eb.
  unfold session_finish. rewrite R1. cbn [negb].
  replace (match expected_wire_bytes s with Some n => negb (wire_bytes s =? n) | None => false end) with false.
  2:{ rewrite El. destruct (expected_wire_bytes s0) as [n|]; [|done]. rewrite R3, (C1 n eq_refl). by rewrite Z.eqb_refl. }
  unfold finish_decoder. rewrite <- Eds. cbv zeta. set (s1 := set_expected (expected s) s).
  change (s_payload_mode s1) with (s_payload_mode s). change (digests s1) with (digests s). change (expected s1) with (expected s).
  rewrite Em, Ee, R6, passes_verify by done.
  change (s_decoded_bytes s1) with (s_decoded_bytes s). rewrite R5, checked_in.
  2:{ pose proof (len_nonneg body). unfold i64_min, i64_max in *. lia. }
  eapply yields_bind; [apply (commit_commits s1 _ _ _ bucket key); [done|]; change (s_operation s1) with (s_operation s); congruence|].
  intros t [response|e] (A & op & answer & -> & Hp & Ea & Hst).
  - apply yields_ret. exists A, op, answer, []. split; [done|]. split; [done|]. intros _. split; [done|]. cbn [snd].
    rewrite finalize_status. destruct (streams_object_body _); [|by apply Hst].
    destruct (provided_headers response (expected s0) (BodyDigests_values (BodyDigests_update (BodyDigests_for_expected (expected s0)) body)))
      as (r' & -> & Es); [|simpl; rewrite Es; by apply Hst].
    apply (verified_passes (s_payload_mode s0)), passes_verify, C4.
  - eapply yields_weaken; [apply fail_session_yields|]. intros u p _. exists A, op, answer, u. split; [done|].
    split; [done|]. simpl in Ea. by rewrite Ea.
Qed.
End Upload.

(** * Theorems *)

Section Claims.
Context `{World} `{BodyHash} `{XmlReader} `{HttpDates}.
Context (config : ServiceConfig).

Lemma service_chunk_bytes : 0 < staging_chunk_bytes (service_config config).
Proof. unfold service_config, MIN_STAGING_CHUNK_BYTES, MAX_STAGING_CHUNK_BYTES. cbn [staging_chunk_bytes]. lia. Qed.

(** The pushes of a session a head opened. *)
Lemma opened_receive request inputs h h1 h2 s0 s r :
  service_head (service_config config) request h = (h1, ReceiveBody s0) ->
  receive (service_config config) s0 inputs h1 = (h2, (s, r)) ->
  opened s0 /\ exists t, h2 = h1 ++ t /\ Forall (asked unpublished) t /\ pushed s0 inputs [] [] t (s, r).
Proof.
  intros Hh Hr. pose proof (service_head_opened _ _ _ _ _ service_chunk_bytes Hh) as Ho. split; [done|].
  destruct (receive_yields (service_config config) s0 inputs s0 [] [] [] h1 (opened_received _ Ho)) as (t & Et & Hp).
  destruct (receive_asks (service_config config) inputs s0 (op_own _ Ho) h1) as (t' & Et' & Hq & _).
  rewrite Hr in *. cbn [fst snd] in *. exists t. split; [done|]. split; [|done].
  assert (t' = t) as -> by (apply (app_inv_head h1); congruence).
  eapply Forall_impl; [exact Hq|]. intros [B effect b] He. destruct effect; try done. by destruct He.
Qed.

(** C7: A body is received whole and stored in order: for every request head
    that opens a session, every cut of the body into pieces, every database
    and every clock, as long as no push fails the session accounts for exactly
    the bytes received, its digests are those of the decoded body, and the
    chunks of the upload the database took are numbered from zero without a
    gap, each of exactly the chunk size and, for an object, sealed with its own
    SHA-256; chunks and buffer together are the decoded body, and the blob ids
    and sizes kept for the commit are those the database returned, in that
    order.  Nothing is published meanwhile. *)
Theorem received_body request inputs h h1 h2 s0 s :
  service_head (service_config config) request h = (h1, ReceiveBody s0) ->
  receive (service_config config) s0 inputs h1 = (h2, (s, Ok tt)) ->
  exists t body, h2 = h1 ++ t /\ received s0 inputs (stored_in t) body s /\ Forall (asked unpublished) t.
Proof.
  intros Hh Hr. destruct (opened_receive _ _ _ _ _ _ _ _ Hh Hr) as (_ & t & -> & Hu & [(body & _ & Hb)|(_ & _ & r & [=])]).
  by exists t, body.
Qed.


(** C8: A complete object is published: when a whole body was received for a
    PUT of an object without aws-chunked framing, with the declared length and
    the right checksums, the end of the body starts with a publishing call, and
    if the database takes it that is the only call and the answer is 200. *)
Theorem complete_put_commits request inputs bucket key h h1 h2 s0 s :
  service_head (service_config config) request h = (h1, ReceiveBody s0) ->
  receive (service_config config) s0 inputs h1 = (h2, (s, Ok tt)) ->
  s_operation s0 = PutObject bucket key -> decoder s0 = None ->
  complete_body s0 inputs (concat inputs) -> len (concat inputs) <= i64_max ->
  exists A (op : DbOp A) answer u,
    (session_finish (service_config config) s h2).1 = h2 ++ Happens (Call op) answer :: u /\ publishes op <> None /\
    (is_ok answer = true -> u = [] /\ status (session_finish (service_config config) s h2).2.2 = 200).
Proof.
  intros Hh Hr Eop Ed Hc Hmax.
  destruct (opened_receive _ _ _ _ _ _ _ _ Hh Hr) as (Ho & t & -> & Hu & [(body & _ & Hb)|(_ & _ & r & [=])]).
  assert (body = concat inputs) as ->.
  { pose proof (rc_payload _ _ _ _ _ Hb) as Hp. rewrite Ed in Hp. by injection Hp. }
  destruct (finish_commits (service_config config) s0 inputs _ _ s (h1 ++ t) bucket key Ho Hb Eop Ed Hc Hmax)
    as (u & Eu & A & op & answer & v & -> & Hp & Hok).
  by exists A, op, answer, v.
Qed.

(** C9: A push that fails closes the session for good: nothing was published,
    the last call takes the staged upload or part back, and whatever is pushed
    or finished afterwards makes no call and is answered with an error. *)
Theorem failed_push request inputs h h1 h2 s0 s response :
  service_head (service_config config) request h = (h1, ReceiveBody s0) ->
  receive (service_config config) s0 inputs h1 = (h2, (s, Err response)) ->
  (exists t, h2 = h1 ++ t /\ aborted s0 t /\ Forall (asked unpublished) t) /\
  (forall input h', session_push (service_config config) s input h' = (h', (s, Err (session_error s inactive_error)))) /\
  (forall h', session_finish (service_config config) s h' = (h', (s, session_error s inactive_error))).
Proof.
  intros Hh Hr. destruct (opened_receive _ _ _ _ _ _ _ _ Hh Hr) as (_ & t & -> & Hu & [(body & [=] & _)|(Ha & Hb & _)]).
  split; [by exists t|]. cbn [fst] in Ha. unfold session_push, session_finish. by rewrite Ha.
Qed.

(** The staging loop ends: from any sink whose buffer is within the chunk
    size, one round for each byte, and one more for a buffer that is full, are
    enough: more rounds change nothing, whatever the database answers. *)
Theorem staging_terminates role fixed k lease remaining h fuel :
  0 < chunk_bytes k -> len (buffer k) <= chunk_bytes k -> (rounds k remaining < fuel)%nat ->
  stage_loop fuel role fixed k lease remaining h =
  stage_loop (S (S (length remaining))) role fixed k lease remaining h.
Proof.
  intros Hn Hb Hf. apply stage_loop_fuel; [done|done|done|]. unfold rounds. destruct (_ =? _); lia.
Qed.
End Claims.

(** * Examples *)

#[local] Existing Instance sample_hash.
#[local] Existing Instance sample_dates.

(** A PUT of five bytes; [Expect] keeps it out of the direct path. *)
Definition put_lines (signature : bytes) : list bytes :=
  [bs "PUT /photos/cat HTTP/1.1"; bs "Host: s3.test"; bs "Content-Length: 5"; bs "Expect: 100-continue";
   bs "X-Amz-Date: 20240506T070809Z"; bs "X-Amz-Content-Sha256: UNSIGNED-PAYLOAD";
   bs "Authorization: AWS4-HMAC-SHA256 Credential=AK/20240506/us-east-1/s3/aws4_request, "
     ++ bs "SignedHeaders=host;x-amz-date, Signature=" ++ signature].

Definition empty_head : RequestHead :=
  {| method := []; target := {| raw_path := []; raw_query := None; query := {| pairs := [] |} |};
     headers := {| fields := [] |}; content_length := None; transfer_chunked := false |}.

Definition put_signature : bytes :=
  Eval vm_compute in
    match parse_complete_head (join crlf (put_lines (repeat x30 64))) default_head_limits with
    | Ok r => match signing_inputs (SigV4Request_from r) sample_secret with
              | Some (k, m, _) => hex_lower (hmac_sha256 k m)
              | None => []
              end
    | Err _ => []
    end.

Definition put_request : RequestHead :=
  Eval vm_compute in
    match parse_complete_head (join crlf (put_lines put_signature)) default_head_limits with
    | Ok r => r
    | Err _ => empty_head
    end.

(** A database with one access key, that takes every upload call. *)
Definition put_world : World := fun A h effect =>
  match effect in Effect A return A with
  | Call op =>
      match op in DbOp B return result DbError B with
      | lookup_credential _ => Ok (Some {| secret := sample_secret; cred_role := bs "tenant" |})
      | begin_upload _ _ _ _ _ _ _ _ _ => Ok (bs "upload")
      | put_chunk_sealed _ _ _ _ _ data hash => Ok {| blob_id := hash; Database.chunk_size := len data |}
      | finish_upload_sealed _ _ _ _ _ _ _ _ _ _ _ _ _ => Ok sample_object
      | _ => Err (DbError_internal (bs "not provided"))
      end
  | InstantNow => 0
  | SystemTimeNow => now sample_config
  | RequestId => bs "id"
  end.

#[local] Existing Instance put_world.
#[local] Instance no_document : XmlReader := one_document [].

Definition put_config : ServiceConfig := service_config default_service_config.

Lemma received_body_witness : exists h1 s0 h2 s,
  service_head put_config put_request [] = (h1, ReceiveBody s0) /\
  receive put_config s0 [bs "he"; bs "llo"] h1 = (h2, (s, Ok tt)) /\
  exists t, received s0 [bs "he"; bs "llo"] (stored_in t) (bs "hello") s.
Proof.
  eexists _, _, _, _. split; [vm_compute; reflexivity|]. split; [vm_compute; reflexivity|].
  edestruct (received_body default_service_config put_request [bs "he"; bs "llo"] [])
    as (t & body & _ & Hr & _); [vm_compute; reflexivity|vm_compute; reflexivity|].
  exists t. pose proof (rc_payload _ _ _ _ _ Hr) as Hp. vm_compute in Hp. injection Hp as <-. exact Hr.
Defined.


(** One byte too many. *)
Lemma failed_push_witness : exists h1 s0 h2 s response,
  service_head put_config put_request [] = (h1, ReceiveBody s0) /\
  receive put_config s0 [bs "hello!"] h1 = (h2, (s, Err response)) /\
  exists t, h2 = h1 ++ t /\ aborted s0 t.
Proof.
  eexists _, _, _, _, _. split; [vm_compute; reflexivity|]. split; [vm_compute; reflexivity|].
  edestruct (failed_push default_service_config put_request [bs "hello!"] [])
    as ((t & Et & Ha & _) & _); [vm_compute; reflexivity..|]. exists t. split; [exact Et|exact Ha].
Defined.

Lemma staging_terminates_witness :
  let k := {| staged_bucket := bs "photos"; staged_key := bs "cat"; upload_id := bs "upload"; staged_part_number := 0;
              sequence := 0; chunk_bytes := 2; buffer := []; chunk_blob_ids := []; chunk_sizes := [] |} in
  stage_loop 9 (bs "tenant") false k None (bs "hello") [] = stage_loop 7 (bs "tenant") false k None (bs "hello") [].
Proof. intros k. apply (staging_terminates (bs "tenant") false k None (bs "hello") [] 9); vm_compute; [done|done|lia]. Defined.

Lemma complete_put_commits_witness : exists h1 s0 h2 s,
  service_head put_config put_request [] = (h1, ReceiveBody s0) /\
  receive put_config s0 [bs "hello"] h1 = (h2, (s, Ok tt)) /\
  exists A (op : DbOp A), publishes op <> None.
Proof.
  eexists _, _, _, _. split; [vm_compute; reflexivity|]. split; [vm_compute; reflexivity|].
  edestruct (complete_put_commits default_service_config put_request [bs "hello"] (bs "photos") (bs "cat") [])
    as (A & op & answer & u & _ & Hp & _); [vm_compute; reflexivity..| | |by exists A, op].
  - constructor.
    + intros n En. vm_compute in En. injection En as <-. reflexivity.
    + reflexivity.
    + intros d0 E. vm_compute in E. discriminate E.
    + constructor.
      * intros h E. vm_compute in E. discriminate E.
      * intros v E. vm_compute in E. discriminate E.
      * intros a v E. destruct a; vm_compute in E; discriminate E.
  - vm_compute. discriminate.
Defined.
