(* ===== verification/Hash.v ===== *)
(** Hashing of stored blobs, from [src/src/hash.rs]: a blob is inline, cut
    into chunks, or composed of extents of other blobs; it is read in blocks of
    at most 1 MiB and hashed incrementally.

    The tables the helpers query are lists of rows, with the constraints of
    the schema in [schema]; a query is its meaning over them, with the columns
    that come back through SPI as options.  [emit] is an argument with its
    state, so that a caller that fails stops the traversal where it does.
    [pgrx::error!] ends the statement: [Err].

    The theorems: the aggregate checks characterise dense layouts; a range is
    read exactly, in bounded blocks, without exceeding the depth limit; and
    the hashes returned for a part or a sequence of blobs are those of
    contents with the recorded ids and sizes. *)
From stdpp Require Import sorting.
From S2P Require Import Prelude Text Http Headers Canonical SigV4 Base64 Chunked Checksums.

Definition READ_BLOCK_BYTES : Z := 1024 * 1024.
Definition MAX_BLOB_DEPTH : nat := 64.

Inductive StorageKind := Inline | ChunkedKind | Composite.

Record BlobMeta := { m_id : bytes; m_size : Z; m_chunk_size : Z; m_kind : StorageKind }.

Record Extent := { logical_offset : Z; source_id : bytes; source_offset : Z; e_length : Z }.

Record LayoutStats := {
  l_count : Z;
  min_seq : option Z;
  max_seq : option Z;
  l_total_size : Z;
  rows_valid : bool
}.

Inductive HashError :=
| Corrupt (message : bytes)
| Invalid (message : bytes)
| SpiFailure (action : bytes).

Definition corrupt {A} (message : bytes) : result HashError A := Err (Corrupt message).
Definition invalid {A} (message : bytes) : result HashError A := Err (Invalid message).

(** [unwrap_or_else(|| corrupt(...))] *)
Definition or_corrupt {A} (o : option A) (message : bytes) : result HashError A := ok_or o (Corrupt message).

(** * Digests *)

Record Digests := { d_sha256 : bytes; d_md5 : bytes; d_total_size : Z }.

Definition Digests_new : Digests := {| d_sha256 := []; d_md5 := []; d_total_size := 0 |}.

Definition Digests_update (d : Digests) (data : bytes) : result HashError Digests :=
  let* amount := or_corrupt (checked i64_min i64_max (len data)) (bs "one hash input block exceeds bigint") in
  let* total := or_corrupt (checked_add_i64 (d_total_size d) amount) (bs "canonical blob size overflows bigint") in
  Ok {| d_sha256 := d_sha256 d ++ data; d_md5 := d_md5 d ++ data; d_total_size := total |}.

Definition Digests_finish `{BodyHash} (d : Digests) : bytes * bytes * Z :=
  (sha256 (d_sha256 d), hex_lower (md5 (d_md5 d)), d_total_size d).

(** * Checks *)

Definition parse_blob_id (raw : bytes) : result HashError bytes :=
  if len raw =? 32 then Ok raw else invalid (bs "blob IDs must contain exactly 32 bytes").

Definition dense_layout_error (stats : LayoutStats) (expected_count expected_size : Z) : option bytes :=
  if (expected_count <? 0) || (expected_size <? 0) || (l_count stats <? 0) || (l_total_size stats <? 0)
  then Some (bs "negative layout cardinality or size")
  else if negb (l_count stats =? expected_count)
  then Some (bs "layout row count does not match its recorded size")
  else if (expected_count =? 0) && (is_some (min_seq stats) || is_some (max_seq stats))
  then Some (bs "empty layout has a sequence number")
  else if negb (expected_count =? 0)
          && (negb (min_seq stats ==b Some 0) || negb (max_seq stats ==b Some (expected_count - 1)))
  then Some (bs "layout sequence numbers are not contiguous from zero")
  else if negb (l_total_size stats =? expected_size)
  then Some (bs "layout byte count does not match the blob size")
  else if negb (rows_valid stats) then Some (bs "layout offsets or element sizes are invalid")
  else None.

Definition range_end (start length size : Z) : result bytes Z :=
  if (start <? 0) || (length <? 0) || (size <? 0) then Err (bs "negative blob range or size")
  else
    let* end_ := ok_or (checked_add_i64 start length) (bs "blob range overflows bigint") in
    if size <? end_ then Err (bs "blob range exceeds its source blob") else Ok end_.

Definition checked_end (start length size : Z) : result HashError Z := map_err Corrupt (range_end start length size).

(** * Tables *)

(** The columns of [pgs3.blob], [pgs3.chunk], [pgs3.blob_extent],
    [pgs3.upload] and [pgs3.upload_chunk] that are queried. *)
Record BlobRow := { b_sha256 : bytes; b_size : Z; b_chunk_size : Z; b_kind : bytes; b_inline : option bytes }.
Record ChunkRow := { c_blob : bytes; c_seq : Z; c_data : bytes }.
Record ExtentRow := { x_final : bytes; x_seq : Z; x_logical : Z; x_source : bytes; x_offset : Z; x_length : Z }.
Record UploadRow := { u_id : bytes; u_multipart : bool; u_state : bytes }.
Record UploadChunkRow := { uc_upload : bytes; uc_part : Z; uc_seq : Z; uc_blob : bytes; uc_size : Z }.

Record Tables := {
  blobs : list BlobRow;
  chunks : list ChunkRow;
  extents : list ExtentRow;
  uploads : list UploadRow;
  upload_chunks : list UploadChunkRow
}.

Definition blob_row (st : Tables) (id : bytes) : option BlobRow := List.find (fun r => b_sha256 r ==b id) (blobs st).
Definition chunk_rows (st : Tables) (id : bytes) : list ChunkRow := List.filter (fun r => c_blob r ==b id) (chunks st).
Definition chunk_row (st : Tables) (id : bytes) (seq : Z) : option ChunkRow :=
  List.find (fun r => c_seq r =? seq) (chunk_rows st id).
Definition extent_rows (st : Tables) (id : bytes) : list ExtentRow := List.filter (fun r => x_final r ==b id) (extents st).
Definition extent_row (st : Tables) (id : bytes) (seq : Z) : option ExtentRow :=
  List.find (fun r => x_seq r =? seq) (extent_rows st id).
Definition upload_row (st : Tables) (id : bytes) : option UploadRow := List.find (fun r => u_id r ==b id) (uploads st).
Definition upload_chunk_rows (st : Tables) (id : bytes) (part : Z) : list UploadChunkRow :=
  List.filter (fun r => (uc_upload r ==b id) && (uc_part r =? part)) (upload_chunks st).
Definition upload_chunk_row (st : Tables) (id : bytes) (part seq : Z) : option UploadChunkRow :=
  List.find (fun r => uc_seq r =? seq) (upload_chunk_rows st id part).

(** [min(seq)] and [max(seq)], NULL without rows; [sum(...)::bigint]. *)
Definition sql_min (l : list Z) : option Z :=
  match l with [] => None | x :: l => Some (foldl Z.min x l) end.
Definition sql_max (l : list Z) : option Z :=
  match l with [] => None | x :: l => Some (foldl Z.max x l) end.
Definition sum (l : list Z) : Z := foldl Z.add 0 l.

(** A row of aggregates: count, minimum and maximum of the numbers, total, and
    [bool_and]. *)
Definition AggregateRow : Type := option Z * option Z * option Z * option Z * option bool.

Definition aggregate (seqs sizes : list Z) (valid : bool) (action : bytes) : result HashError AggregateRow :=
  let* total := ok_or (checked i64_min i64_max (sum sizes)) (SpiFailure action) in
  Ok (Some (len seqs), sql_min seqs, sql_max seqs, Some total, Some valid).

(** [pg_catalog.substring(data, position, length)] *)
Definition substring (data : bytes) (position length : Z) : bytes :=
  take (Z.to_nat length) (drop (Z.to_nat (position - 1)) data).

(** * Rows through SPI *)

Section Load.
Context (st : Tables).

(** The columns of the blob's row: size, chunk size, kind and the length of
    the inline bytes. *)
Definition select_blob (id : bytes) : option (option Z * option Z * option bytes * option Z) :=
  match blob_row st id with
  | None => None
  | Some r => Some (Some (b_size r), Some (b_chunk_size r), Some (b_kind r), option_map len (b_inline r))
  end.

Definition load_kind (kind : bytes) (size : Z) (inline_size : option Z) : result HashError StorageKind :=
  if kind ==b bs "inline" then
    if negb (inline_size ==b Some size) then corrupt (bs "inline bytes do not match the recorded blob size")
    else if i32_max - 1 <? size then corrupt (bs "an inline blob is too large for PostgreSQL substring")
    else Ok Inline
  else if kind ==b bs "chunked" then
    if is_some inline_size then corrupt (bs "a chunked blob also contains inline bytes") else Ok ChunkedKind
  else if kind ==b bs "composite" then
    if is_some inline_size then corrupt (bs "a composite blob also contains inline bytes") else Ok Composite
  else corrupt (bs "a blob has an unknown storage kind").

Definition load_blob (id : bytes) : result HashError BlobMeta :=
  let* row := or_corrupt (select_blob id) (bs "a referenced blob row is missing") in
  match row with
  | (Some size, Some chunk_size, Some kind, inline_size) =>
      if (size <? 0) || (chunk_size <=? 0)
      then corrupt (bs "a blob has a negative size or non-positive chunk size")
      else
        let* kind := load_kind kind size inline_size in
        Ok {| m_id := id; m_size := size; m_chunk_size := chunk_size; m_kind := kind |}
  | _ => corrupt (bs "a blob metadata column is NULL")
  end.

Definition load_layout_stats (row : result HashError AggregateRow) (null : bytes) : result HashError LayoutStats :=
  let* row := row in
  match row with
  | (Some count, min_seq, max_seq, Some total_size, Some rows_valid) =>
      Ok {| l_count := count; min_seq := min_seq; max_seq := max_seq; l_total_size := total_size;
            rows_valid := rows_valid |}
  | _ => corrupt null
  end.

(** The aggregates of the chunks: a chunk starts inside the blob and is full
    unless it is the last. *)
Definition select_chunk_layout (meta : BlobMeta) : result HashError AggregateRow :=
  let rows := chunk_rows st (m_id meta) in
  aggregate (map c_seq rows) (map (fun r => len (c_data r)) rows)
    (forallb (fun r =>
       (c_seq r * m_chunk_size meta <? m_size meta)
       && (len (c_data r) =? Z.min (m_chunk_size meta) (m_size meta - c_seq r * m_chunk_size meta))) rows)
    (bs "validating a chunk layout").

Definition validate_chunk_layout (meta : BlobMeta) : result HashError Z :=
  let expected_count := if m_size meta =? 0 then 0 else (m_size meta - 1) / m_chunk_size meta + 1 in
  let* stats := load_layout_stats (select_chunk_layout meta) (bs "a layout aggregate returned NULL") in
  match dense_layout_error stats expected_count (m_size meta) with
  | Some error => corrupt error
  | None => Ok expected_count
  end.

(** The window [ORDER BY seq ROWS BETWEEN UNBOUNDED PRECEDING AND 1
    PRECEDING]: each row with the sum of the lengths before it. *)
Definition seq_le (a b : ExtentRow) : Prop := x_seq a <= x_seq b.
#[export] Instance seq_le_dec a b : Decision (seq_le a b).
Proof. unfold seq_le. apply _. Defined.

Fixpoint running (offset : Z) (rows : list ExtentRow) : list (ExtentRow * Z) :=
  match rows with
  | [] => []
  | r :: rows => (r, offset) :: running (offset + x_length r) rows
  end.

Definition extent_valid (x : ExtentRow * Z) : bool :=
  let '(e, expected_offset) := x in
  (x_logical e =? expected_offset)
  && match blob_row st (x_source e) with
     | None => false
     | Some source => (x_offset e <=? b_size source) && (x_length e <=? b_size source - x_offset e)
     end.

Definition select_extent_layout (meta : BlobMeta) : result HashError AggregateRow :=
  let rows := extent_rows st (m_id meta) in
  aggregate (map x_seq rows) (map x_length rows) (forallb extent_valid (running 0 (merge_sort seq_le rows)))
    (bs "validating an extent layout").

Definition validate_extent_layout (meta : BlobMeta) : result HashError Z :=
  let* stats := load_layout_stats (select_extent_layout meta) (bs "an extent aggregate returned NULL") in
  match dense_layout_error stats (l_count stats) (m_size meta) with
  | Some error => corrupt error
  | None => Ok (l_count stats)
  end.

(** Offsets are below [i64_max], so [offset + 1] does not overflow. A row that
    is missing ends in an SPI error, a NULL payload in corruption. *)
Definition fetch_inline_slice (id : bytes) (offset length : Z) : result HashError bytes :=
  let* position := or_corrupt (checked i32_min i32_max (offset + 1)) (bs "inline read offset exceeds integer") in
  let* length := or_corrupt (checked i32_min i32_max length) (bs "inline read length exceeds integer") in
  let* row := ok_or (blob_row st id) (SpiFailure (bs "reading bounded inline bytes")) in
  or_corrupt (option_map (fun data => substring data position length) (b_inline row))
    (bs "inline bytes disappeared while hashing").

Definition fetch_chunk_slice (id : bytes) (seq offset length : Z) : result HashError bytes :=
  let* position := or_corrupt (checked i32_min i32_max (offset + 1)) (bs "chunk read offset exceeds integer") in
  let* length := or_corrupt (checked i32_min i32_max length) (bs "chunk read length exceeds integer") in
  let* row := ok_or (chunk_row st id seq) (SpiFailure (bs "reading bounded chunk bytes")) in
  Ok (substring (c_data row) position length).

Definition load_extent (id : bytes) (seq : Z) : result HashError Extent :=
  let* row := or_corrupt (option_map (fun r => (Some (x_logical r), Some (x_source r), Some (x_offset r), Some (x_length r)))
                            (extent_row st id seq)) (bs "an extent disappeared while hashing") in
  match row with
  | (Some logical_offset, Some source, Some source_offset, Some length) =>
      let* source := parse_blob_id source in
      Ok {| logical_offset := logical_offset; source_id := source; source_offset := source_offset; e_length := length |}
  | _ => corrupt (bs "an extent column is NULL")
  end.

(** * Streaming *)

Section Emit.
Context {S : Type} (emit : S -> bytes -> result HashError S).

(** Every round reads a block, so [length / READ_BLOCK_BYTES + 1] rounds
    suffice. *)
Fixpoint emit_bounded_cell (fuel : nat) (id : bytes) (seq : option Z) (offset length : Z) (s : S) : result HashError S :=
  match fuel with
  | O => Ok s
  | Datatypes.S fuel =>
      if length <=? 0 then Ok s
      else
        let amount := Z.min length READ_BLOCK_BYTES in
        let* data :=
          match seq with
          | Some seq => fetch_chunk_slice id seq offset amount
          | None => fetch_inline_slice id offset amount
          end in
        if negb (checked i64_min i64_max (len data) ==b Some amount)
        then corrupt (bs "a bounded payload read returned fewer bytes than requested")
        else
          let* s := emit s data in
          let* offset := or_corrupt (checked_add_i64 offset amount) (bs "payload read offset overflows bigint") in
          emit_bounded_cell fuel id seq offset (length - amount) s
  end.

Definition emit_cell (id : bytes) (seq : option Z) (offset length : Z) (s : S) : result HashError S :=
  emit_bounded_cell (Z.to_nat (length / READ_BLOCK_BYTES) + 1) id seq offset length s.

(** One chunk of the range [start, end_). *)
Definition stream_chunk (id : bytes) (chunk_size start end_ : Z) (s : S) (seq64 : Z) : result HashError S :=
  let* seq := or_corrupt (checked i32_min i32_max seq64) (bs "chunk sequence exceeds integer") in
  let* chunk_start := or_corrupt (checked_mul_i64 seq64 chunk_size) (bs "chunk offset overflows bigint") in
  let from := Z.max start chunk_start in
  let* chunk_end := or_corrupt (checked_add_i64 chunk_start chunk_size) (bs "chunk end overflows bigint") in
  let to := Z.min end_ chunk_end in
  emit_cell id (Some seq) (from - chunk_start) (to - from) s.

(** One extent of the range: [stream] reads its source. *)
Definition stream_extent (stream : bytes -> Z -> Z -> S -> result HashError S) (id : bytes) (size start end_ : Z) (s : S)
    (seq64 : Z) : result HashError S :=
  let* seq := or_corrupt (checked i32_min i32_max seq64) (bs "extent sequence exceeds integer") in
  let* extent := load_extent id seq in
  let* extent_end := checked_end (logical_offset extent) (e_length extent) size in
  if (e_length extent =? 0) || (end_ <=? logical_offset extent) || (extent_end <=? start) then Ok s
  else
    let from := Z.max start (logical_offset extent) in
    let to := Z.min end_ extent_end in
    let* source_start := or_corrupt (checked_add_i64 (source_offset extent) (from - logical_offset extent))
      (bs "source extent offset overflows bigint") in
    stream (source_id extent) source_start (to - from) s.

(** The range [start, end_) of a blob, by its kind. *)
Definition stream_kind (stream : bytes -> Z -> Z -> S -> result HashError S) (id : bytes) (meta : BlobMeta)
    (start length end_ : Z) (s : S) : result HashError S :=
  match m_kind meta with
  | Inline => emit_cell id None start length s
  | ChunkedKind =>
      let* _ := validate_chunk_layout meta in
      if 0 <? length then
        let first := start / m_chunk_size meta in
        let last := (end_ - 1) / m_chunk_size meta in
        fold_result (stream_chunk id (m_chunk_size meta) start end_) s (seqZ first (last - first + 1))
      else Ok s
  | Composite =>
      let* count := validate_extent_layout meta in
      fold_result (stream_extent stream id (m_size meta) start end_) s (seqZ 0 count)
  end.

(** The path holds the blobs being read; [fuel] bounds its growth, and
    [MAX_BLOB_DEPTH] levels are all a path may have. *)
Fixpoint stream_blob_range (fuel : nat) (path : list bytes) (id : bytes) (start length : Z) (s : S)
  : result HashError S :=
  match fuel with
  | O => corrupt (bs "blob extent nesting exceeds 64 levels")
  | Datatypes.S fuel =>
      if (MAX_BLOB_DEPTH <=? Datatypes.length path)%nat then corrupt (bs "blob extent nesting exceeds 64 levels")
      else if existsb (fun p => p ==b id) path then corrupt (bs "blob extent graph contains a cycle")
      else
        let* meta := load_blob id in
        let* end_ := checked_end start length (m_size meta) in
        stream_kind (stream_blob_range fuel (path ++ [id])) id meta start length end_ s
  end.
End Emit.

Definition stream_range {S} (emit : S -> bytes -> result HashError S) (id : bytes) (start length : Z) (s : S) :=
  stream_blob_range emit (MAX_BLOB_DEPTH + 1) [] id start length s.
End Load.

(** * Verified blobs *)

Section Hashing.
Context `{BodyHash} (st : Tables).

(** The closure around [emit]: the verifier, the count and the caller. *)
Definition verify_block {S} (emit : S -> bytes -> result HashError S) (v : bytes * Z * S) (data : bytes)
  : result HashError (bytes * Z * S) :=
  let '(verifier, emitted, s) := v in
  let* amount := or_corrupt (checked i64_min i64_max (len data)) (bs "one verified blob block exceeds bigint") in
  let* emitted := or_corrupt (checked_add_i64 emitted amount) (bs "verified blob size overflows bigint") in
  let* s := emit s data in
  Ok (verifier ++ data, emitted, s).

Definition stream_verified_blob {S} (emit : S -> bytes -> result HashError S) (id : bytes) (s : S)
  : result HashError (S * Z) :=
  let* meta := load_blob st id in
  let* v := stream_range st (verify_block emit) id 0 (m_size meta) ([], 0, s) in
  let '(verifier, emitted, s) := v in
  if negb (emitted =? m_size meta) then corrupt (bs "a blob traversal did not read its complete logical size")
  else if negb (sha256 verifier ==b id)
  then corrupt (bs "canonical payload SHA-256 does not match its blob ID")
  else Ok (s, emitted).

Definition load_upload (upload_id : bytes) : result HashError (bool * bytes) :=
  let* row := ok_or (option_map (fun r => (Some (u_multipart r), Some (u_state r))) (upload_row st upload_id))
    (Invalid (bs "the upload ID does not exist")) in
  match row with
  | (Some multipart, Some state) =>
      if negb (state ==b bs "pending") && negb (state ==b bs "completing")
      then corrupt (bs "an upload has an unknown state")
      else Ok (multipart, state)
  | _ => corrupt (bs "an upload metadata column is NULL")
  end.

Definition upload_layout (upload_id : bytes) (part_number : Z) : result HashError LayoutStats :=
  let rows := upload_chunk_rows st upload_id part_number in
  load_layout_stats
    (aggregate (map uc_seq rows) (map uc_size rows) (forallb (fun r => 0 <=? uc_size r) rows)
       (bs "validating an upload chunk layout"))
    (bs "a layout aggregate returned NULL").

Definition load_upload_chunk (upload_id : bytes) (part_number seq : Z) : result HashError (bytes * Z) :=
  let* row := or_corrupt (option_map (fun r => (Some (uc_blob r), Some (uc_size r)))
                            (upload_chunk_row st upload_id part_number seq))
                (bs "an upload chunk disappeared while hashing") in
  match row with
  | (Some blob_id, Some size) =>
      if size <? 0 then corrupt (bs "an upload chunk has a negative size")
      else let* id := parse_blob_id blob_id in Ok (id, size)
  | _ => corrupt (bs "an upload chunk column is NULL")
  end.

Definition hash_upload_chunk (upload_id : bytes) (part_number : Z) (digests : Digests) (seq64 : Z)
  : result HashError Digests :=
  let* seq := or_corrupt (checked i32_min i32_max seq64) (bs "upload chunk sequence exceeds integer") in
  let* (blob_id, recorded_size) := load_upload_chunk upload_id part_number seq in
  let* (digests, actual_size) := stream_verified_blob Digests_update blob_id digests in
  if negb (actual_size =? recorded_size)
  then corrupt (bs "an upload chunk size does not match its canonical blob") else Ok digests.

Definition hash_upload_part (upload_id : bytes) (part_number : Z) : result HashError (bytes * bytes * Z) :=
  if negb ((0 <=? part_number) && (part_number <=? 10000))
  then invalid (bs "part_number must be between 0 and 10000")
  else
    let* (multipart, _) := load_upload upload_id in
    if eqb multipart (part_number =? 0)
    then invalid (bs "part_number 0 is only valid for a non-multipart streaming PUT")
    else
      let* stats := upload_layout upload_id part_number in
      if (0 <? part_number) && (l_count stats =? 0)
      then invalid (bs "a multipart part must contain at least one staged chunk")
      else
        match dense_layout_error stats (l_count stats) (l_total_size stats) with
        | Some error => corrupt error
        | None =>
            let* digests := fold_result (hash_upload_chunk upload_id part_number) Digests_new
                              (seqZ 0 (l_count stats)) in
            let '(_, _, total) as result := Digests_finish digests in
            if negb (total =? l_total_size stats)
            then corrupt (bs "the streamed upload size changed while hashing") else Ok result
        end.

(** The SHA-256 state absorbs without failing. *)
Definition absorb (m data : bytes) : result HashError bytes := Ok (m ++ data).

Definition hash_blob (v : bytes * Z) (blob_id : bytes) : result HashError (bytes * Z) :=
  let '(absorbed, total) := v in
  let* (absorbed, size) := stream_verified_blob absorb blob_id absorbed in
  let* total := or_corrupt (checked_add_i64 total size) (bs "blob sequence size overflows bigint") in
  Ok (absorbed, total).

(** [blob_ids] may hold NULL. *)
Definition hash_blob_sequence (blob_ids : list (option bytes)) : result HashError (bytes * Z) :=
  let* blob_ids := traverse (fun raw =>
    let* raw := ok_or raw (Invalid (bs "blob ID arrays cannot contain NULL")) in parse_blob_id raw) blob_ids in
  let* (absorbed, total) := fold_result hash_blob ([], 0) blob_ids in
  Ok (sha256 absorbed, total).
End Hashing.

(** * Lemmas *)

(** ** Dense sequences *)

Lemma sum_cons x l : sum (x :: l) = x + sum l.
Proof.
  unfold sum. cbn [foldl]. assert (Hg : forall l a, foldl Z.add a l = a + foldl Z.add 0 l).
  { clear. induction l as [|y l IH]; intros a; cbn [foldl]; [lia|]. rewrite (IH (a + y)), (IH (0 + y)). lia. }
  rewrite Hg. lia.
Qed.

Lemma sum_app l k : sum (l ++ k) = sum l + sum k.
Proof. induction l as [|x l IH]; [done|]. cbn [app]. rewrite !sum_cons, IH. lia. Qed.

Lemma sum_perm l k : l ≡ₚ k -> sum l = sum k.
Proof. induction 1; rewrite ?sum_cons; lia. Qed.

Lemma sql_min_spec l m : sql_min l = Some m <-> m ∈ l /\ forall x, x ∈ l -> m <= x.
Proof.
  destruct l as [|y l]; simpl; [split; [done|by intros [?%elem_of_nil _]]|].
  assert (Hf : forall l a, (foldl Z.min a l = a \/ foldl Z.min a l ∈ l) /\ foldl Z.min a l <= a /\
    forall x, x ∈ l -> foldl Z.min a l <= x).
  { clear. induction l as [|z l IH]; intros a; simpl; [split_and!; [by left|lia|by intros x ?%elem_of_nil]|].
    destruct (IH (Z.min a z)) as (I1 & I2 & I3). split_and!.
    - destruct I1 as [->|I1]; [|right; by right]. destruct (Z.min_spec a z) as [[_ ->]|[_ ->]]; [by left|right; left].
    - lia.
    - intros x [->|Hx]%elem_of_cons; [lia|by apply I3]. }
  destruct (Hf l y) as (F1 & F2 & F3). split.
  - intros [= <-]. split; [destruct F1 as [->|F1]; [left|by right]|]. intros x [->|Hx]%elem_of_cons; [done|by apply F3].
  - intros [Hm Hle]. f_equal. apply Z.le_antisymm.
    + apply elem_of_cons in Hm as [->|Hm]; [done|by apply F3].
    + apply Hle. destruct F1 as [->|F1]; [left|by right].
Qed.

Lemma sql_max_spec l m : sql_max l = Some m <-> m ∈ l /\ forall x, x ∈ l -> x <= m.
Proof.
  destruct l as [|y l]; simpl; [split; [done|by intros [?%elem_of_nil _]]|].
  assert (Hf : forall l a, (foldl Z.max a l = a \/ foldl Z.max a l ∈ l) /\ a <= foldl Z.max a l /\
    forall x, x ∈ l -> x <= foldl Z.max a l).
  { clear. induction l as [|z l IH]; intros a; simpl; [split_and!; [by left|lia|by intros x ?%elem_of_nil]|].
    destruct (IH (Z.max a z)) as (I1 & I2 & I3). split_and!.
    - destruct I1 as [->|I1]; [|right; by right]. destruct (Z.max_spec a z) as [[_ ->]|[_ ->]]; [right; left|by left].
    - lia.
    - intros x [->|Hx]%elem_of_cons; [lia|by apply I3]. }
  destruct (Hf l y) as (F1 & F2 & F3). split.
  - intros [= <-]. split; [destruct F1 as [->|F1]; [left|by right]|]. intros x [->|Hx]%elem_of_cons; [done|by apply F3].
  - intros [Hm Hle]. f_equal. apply Z.le_antisymm.
    + apply Hle. destruct F1 as [->|F1]; [left|by right].
    + apply elem_of_cons in Hm as [->|Hm]; [done|by apply F3].
Qed.

(** Distinct numbers from zero to one below their count are all of them. *)
Lemma dense_perm l : NoDup l -> (forall x, x ∈ l -> 0 <= x < len l) -> l ≡ₚ seqZ 0 (len l).
Proof.
  intros Hn Hr. apply submseteq_length_Permutation.
  - apply NoDup_submseteq; [done|]. intros x Hx%Hr. apply elem_of_seqZ. lia.
  - rewrite length_seqZ. unfold len. lia.
Qed.

Lemma dense_elem l n : l ≡ₚ seqZ 0 n -> forall x, x ∈ l <-> 0 <= x < n.
Proof. intros Hp x. rewrite Hp, elem_of_seqZ. lia. Qed.

(** The aggregate check over distinct numbers is density. *)
Lemma dense_layout_None l sizes total valid n size : NoDup l -> total = sum sizes ->
  dense_layout_error {| l_count := len l; min_seq := sql_min l; max_seq := sql_max l; l_total_size := total; rows_valid := valid |}
    n size = None <->
  n = len l /\ l ≡ₚ seqZ 0 n /\ sum sizes = size /\ 0 <= size /\ valid = true.
Proof.
  intros Hn ->. unfold dense_layout_error. cbn [l_count min_seq max_seq l_total_size rows_valid].
  pose proof (len_nonneg l) as Hl.
  destruct (Z.ltb_spec n 0), (Z.ltb_spec size 0), (Z.ltb_spec (len l) 0), (Z.ltb_spec (sum sizes) 0); simpl;
    try (split; [done|intros (? & ? & ? & ? & ?); lia]).
  destruct (Z.eqb_spec (len l) n) as [<-|]; simpl; [|split; [done|intros (? & _); congruence]].
  destruct (Z.eqb_spec (len l) 0) as [E0|E0]; simpl.
  - apply len_zero in E0 as ->. simpl.
    destruct (Z.eqb_spec (sum sizes) size), valid; simpl; split; try done; by intros (_ & _ & ? & _ & ?).
  - destruct (decide (sql_min l = Some 0)) as [E1|E1]; rewrite ?(bool_decide_eq_true_2 _ E1), ?(bool_decide_eq_false_2 _ E1); simpl.
    2:{ split; [done|]. intros (_ & Hp & _). exfalso. apply E1, sql_min_spec. split.
        - apply (dense_elem _ _ Hp). lia.
        - intros x Hx%(dense_elem _ _ Hp). lia. }
    destruct (decide (sql_max l = Some (len l - 1))) as [E2|E2];
      rewrite ?(bool_decide_eq_true_2 _ E2), ?(bool_decide_eq_false_2 _ E2); simpl.
    2:{ split; [done|]. intros (_ & Hp & _). exfalso. apply E2, sql_max_spec. split.
        - apply (dense_elem _ _ Hp). lia.
        - intros x Hx%(dense_elem _ _ Hp). lia. }
    assert (Hp : l ≡ₚ seqZ 0 (len l)).
    { apply dense_perm; [done|]. intros x Hx. apply sql_min_spec in E1 as [_ E1]. apply sql_max_spec in E2 as [_ E2].
      specialize (E1 x Hx). specialize (E2 x Hx). lia. }
    destruct (Z.eqb_spec (sum sizes) size), valid; simpl; split; try done; by intros (_ & _ & ? & _ & ?).
Qed.

(** ** Keys *)

Lemma find_key {A} (key : A -> Z) (rows : list A) r : NoDup (map key rows) -> r ∈ rows ->
  List.find (fun x => key x =? key r) rows = Some r.
Proof.
  induction rows as [|x rows IH]; simpl; [by intros _ ?%elem_of_nil|].
  intros [Hx Hn]%NoDup_cons [->|Hr]%elem_of_cons; [by rewrite Z.eqb_refl|].
  destruct (Z.eqb_spec (key x) (key r)) as [E|]; [|by apply IH]. destruct Hx. rewrite E. by apply list_elem_of_fmap_2.
Qed.

Lemma find_Some_elem {A} (f : A -> bool) rows r : List.find f rows = Some r -> r ∈ rows /\ f r = true.
Proof. intros [Hin Hf]%List.find_some. split; [by apply list_elem_of_In|done]. Qed.

(** The row of each number of a dense table. *)
Lemma dense_find {A} (key : A -> Z) (rows : list A) n i : NoDup (map key rows) -> map key rows ≡ₚ seqZ 0 n -> 0 <= i < n ->
  exists r, List.find (fun x => key x =? i) rows = Some r /\ r ∈ rows /\ key r = i.
Proof.
  intros Hn Hp Hi. apply (dense_elem _ _ Hp) in Hi. apply list_elem_of_fmap in Hi as (r & -> & Hr).
  exists r. split; [by apply find_key|done].
Qed.

(** A dense table in order. *)
Lemma dense_rows {A} (key : A -> Z) (rows : list A) n : NoDup (map key rows) -> map key rows ≡ₚ seqZ 0 n ->
  rows ≡ₚ omap (fun i => List.find (fun x => key x =? i) rows) (seqZ 0 n).
Proof.
  intros Hn Hp. rewrite <- Hp. clear Hp.
  assert (Hg : forall l, (forall r, r ∈ l -> r ∈ rows) -> omap (fun i => List.find (fun x => key x =? i) rows) (map key l) = l).
  { induction l as [|x l IH]; intros Hl; [done|]. cbn [map omap list_omap]. rewrite (find_key key rows x Hn) by (apply Hl; left).
    f_equal. apply IH. intros r Hr. apply Hl. by right. }
  by rewrite Hg.
Qed.

(** ** Windows: the bytes at the absolute positions from [s] to [e] of a list
    that begins at [o] *)

Definition window {A} (o s e : Z) (l : list A) : list A := drop (Z.to_nat (s - o)) (take (Z.to_nat (e - o)) l).

Lemma window_app {A} o s e (l k : list A) : window o s e (l ++ k) = window o s e l ++ window (o + len l) s e k.
Proof.
  unfold window. rewrite take_app, drop_app, length_take. f_equal.
  destruct (decide (length l <= Z.to_nat (e - o))%nat) as [Hle|Hgt].
  - f_equal; [|f_equal]; unfold len; lia.
  - replace (Z.to_nat (e - o) - length l)%nat with 0%nat by lia. replace (Z.to_nat (e - (o + len l))) with 0%nat by (unfold len; lia).
    by rewrite !take_0, !drop_nil.
Qed.

Lemma window_empty {A} o s e (l : list A) : e <= o \/ o + len l <= s \/ e <= s -> window o s e l = [].
Proof.
  intros Hc. unfold window. apply drop_ge. rewrite length_take. unfold len in Hc. lia.
Qed.

Lemma window_length {A} o s e (l : list A) : o <= s -> s <= e -> e <= o + len l -> len (window o s e l) = e - s.
Proof. intros. unfold window, len in *. rewrite length_drop, length_take. lia. Qed.

Lemma window_clip {A} o s e (l : list A) : window o s e l = window o (Z.max s o) (Z.min e (o + len l)) l.
Proof.
  unfold window. destruct (decide (o + len l <= e)) as [Hl|Hl].
  - rewrite (take_ge l (Z.to_nat (e - o))), (take_ge l (Z.to_nat (Z.min e (o + len l) - o))) by (unfold len in *; lia).
    f_equal. lia.
  - rewrite Z.min_l by lia. f_equal. lia.
Qed.

Lemma window_sub {A} o s e (l : list A) : window 0 (s - o) (e - o) l = window o s e l.
Proof. unfold window. by rewrite !Z.sub_0_r. Qed.

Lemma window_split {A} a m b (l : list A) : 0 <= a <= m -> m <= b -> window 0 a m l ++ window 0 m b l = window 0 a b l.
Proof.
  intros Ha Hm. unfold window. rewrite !Z.sub_0_r.
  rewrite <- (take_drop (Z.to_nat m) (take (Z.to_nat b) l)) at 2. rewrite take_take, Nat.min_l by lia.
  rewrite drop_app, length_take. f_equal. destruct (decide (Z.to_nat m <= length l)%nat).
  - replace (Z.to_nat a - _)%nat with 0%nat by lia. by rewrite drop_0.
  - rewrite (drop_ge (take (Z.to_nat b) l)) by (rewrite length_take; lia). by rewrite drop_nil.
Qed.

(** A window of a window. *)
Lemma window_window {A} s e a b (l : list A) : 0 <= s -> 0 <= a <= b -> b <= e - s ->
  window 0 a b (window 0 s e l) = window 0 (s + a) (s + b) l.
Proof.
  intros Hs Ha Hb. unfold window. rewrite !Z.sub_0_r, take_drop_commute, drop_drop, take_take.
  f_equal; [lia|]. f_equal. lia.
Qed.

(** ** Cells *)

Lemma substring_window data offset length : 0 <= offset -> 0 <= length ->
  substring data (offset + 1) length = window 0 offset (offset + length) data.
Proof.
  intros. unfold substring, window. rewrite take_drop_commute. f_equal; [lia|]. f_equal. lia.
Qed.

(** The blocks of a read: not empty, at most 1 MiB, together [out]. *)
Definition bounded_blocks (blocks : list bytes) (out : bytes) : Prop :=
  concat blocks = out /\ Forall (fun b => 0 < len b <= READ_BLOCK_BYTES) blocks.

Lemma bounded_app bs1 bs2 o1 o2 : bounded_blocks bs1 o1 -> bounded_blocks bs2 o2 -> bounded_blocks (bs1 ++ bs2) (o1 ++ o2).
Proof. intros [<- H1] [<- H2]. split; [apply concat_app|by apply Forall_app]. Qed.

Lemma bounded_nil : bounded_blocks [] [].
Proof. by split. Qed.

(** [f] behaves as [emit] on the blocks of [out]. *)
Definition emits {S} (emit : S -> bytes -> result HashError S) (f : S -> result HashError S) (out : bytes) : Prop :=
  exists blocks, bounded_blocks blocks out /\ forall s, f s = fold_result emit s blocks.

Lemma emits_nil {S} (emit : S -> bytes -> result HashError S) : emits emit Ok [].
Proof. exists []. split; [apply bounded_nil|done]. Qed.

(** A loop that emits piece after piece. *)
Lemma emits_map {S A B} (emit : S -> bytes -> result HashError S) (step : S -> B -> result HashError S) (f : A -> B) (l : list A)
    (piece : A -> bytes) :
  (forall a, a ∈ l -> emits emit (fun s => step s (f a)) (piece a)) ->
  emits emit (fun s => fold_result step s (map f l)) (concat (map piece l)).
Proof.
  induction l as [|a l IH]; intros Hl; [exact (emits_nil emit)|].
  destruct (Hl a ltac:(left)) as (b1 & Hb1 & Hf1). destruct IH as (b2 & Hb2 & Hf2); [intros b Hb; apply Hl; by right|].
  exists (b1 ++ b2). split; [by apply bounded_app|]. intros s. cbn [fold_result map]. rewrite fold_result_app, Hf1.
  destruct (fold_result emit s b1); [apply Hf2|done].
Qed.

Lemma emits_fold {S A} (emit : S -> bytes -> result HashError S) (step : S -> A -> result HashError S) (l : list A)
    (piece : A -> bytes) :
  (forall a, a ∈ l -> emits emit (fun s => step s a) (piece a)) ->
  emits emit (fun s => fold_result step s l) (concat (map piece l)).
Proof. intros Hl. pose proof (emits_map emit step id l piece Hl) as He. by rewrite map_id in He. Qed.

Section Cells.
Context (st : Tables) {S : Type} (emit : S -> bytes -> result HashError S).

Lemma emit_bounded_cell_emits id seq data fuel : forall offset length,
  (forall off amt, 0 <= off -> 0 < amt -> off + amt <= len data ->
     match seq with Some seq => fetch_chunk_slice st id seq off amt | None => fetch_inline_slice st id off amt end
     = Ok (window 0 off (off + amt) data)) ->
  len data <= i32_max -> 0 <= offset -> 0 <= length -> offset + length <= len data ->
  length <= Z.of_nat fuel * READ_BLOCK_BYTES ->
  emits emit (emit_bounded_cell st emit fuel id seq offset length) (window 0 offset (offset + length) data).
Proof.
  induction fuel as [|fuel IH]; intros offset length Hfetch Hd Ho Hl Hol Hf.
  { rewrite window_empty by lia. apply emits_nil. }
  destruct (Z.leb_spec length 0) as [Hz|Hz].
  { rewrite window_empty by lia. destruct (emits_nil emit) as (b & Hb & Hf'). exists b. split; [done|].
    intros s. cbn [emit_bounded_cell]. rewrite (proj2 (Z.leb_le length 0)) by done. apply Hf'. }
  set (amount := Z.min length READ_BLOCK_BYTES).
  assert (Ha : 0 < amount <= READ_BLOCK_BYTES /\ amount <= length /\ length - amount <= Z.of_nat fuel * READ_BLOCK_BYTES)
    by (unfold amount, READ_BLOCK_BYTES in *; lia).
  assert (Hlen : len (window 0 offset (offset + amount) data) = amount) by (rewrite window_length; lia).
  destruct (IH (offset + amount) (length - amount)) as (blocks & [Hb1 Hb2] & Hf'); try done; try lia.
  exists (window 0 offset (offset + amount) data :: blocks). split.
  - split; [|constructor; [lia|done]]. cbn [concat]. rewrite Hb1.
    replace (offset + amount + (length - amount)) with (offset + length) by lia. apply window_split; lia.
  - intros s. cbn [emit_bounded_cell fold_result]. rewrite (proj2 (Z.leb_gt length 0)) by done. cbv zeta. fold amount.
    rewrite Hfetch by lia. rewrite Hlen, checked_in by (unfold i64_min, i64_max, i32_max in *; lia).
    rewrite bool_decide_eq_true_2 by done. cbn [negb]. destruct (emit s _) as [s1|e]; [|done].
    unfold checked_add_i64. rewrite checked_in by (unfold i64_min, i64_max, i32_max in *; lia). apply Hf'.
Qed.

Lemma cell_fuel length : 0 <= length -> length <= Z.of_nat (Z.to_nat (length / READ_BLOCK_BYTES) + 1) * READ_BLOCK_BYTES.
Proof.
  intros Hl. assert (Hb : 0 < READ_BLOCK_BYTES) by (unfold READ_BLOCK_BYTES; lia).
  pose proof (Z.div_mod length READ_BLOCK_BYTES ltac:(lia)). pose proof (Z.mod_pos_bound length READ_BLOCK_BYTES Hb).
  pose proof (Z.div_pos length READ_BLOCK_BYTES Hl Hb). rewrite Nat2Z.inj_add, Z2Nat.id by done. lia.
Qed.

Lemma inline_cell_emits id r data offset length : blob_row st id = Some r -> b_inline r = Some data -> len data <= i32_max ->
  0 <= offset -> 0 <= length -> offset + length <= len data ->
  emits emit (emit_cell st emit id None offset length) (window 0 offset (offset + length) data).
Proof.
  intros Er Ei Hd Ho Hl Hol. apply emit_bounded_cell_emits; try done; [|by apply cell_fuel].
  intros off amt H1 H2 H3. unfold fetch_inline_slice.
  rewrite !checked_in by (unfold i32_min, i32_max in *; lia). cbn [or_corrupt ok_or]. rewrite Er. cbn [ok_or]. rewrite Ei.
  cbn [option_map or_corrupt ok_or]. by rewrite substring_window by lia.
Qed.

Lemma chunk_cell_emits id seq r offset length : chunk_row st id seq = Some r -> len (c_data r) <= i32_max ->
  0 <= offset -> 0 <= length -> offset + length <= len (c_data r) ->
  emits emit (emit_cell st emit id (Some seq) offset length) (window 0 offset (offset + length) (c_data r)).
Proof.
  intros Er Hd Ho Hl Hol. apply emit_bounded_cell_emits; try done; [|by apply cell_fuel].
  intros off amt H1 H2 H3. unfold fetch_chunk_slice.
  rewrite !checked_in by (unfold i32_min, i32_max in *; lia). cbn [or_corrupt ok_or]. rewrite Er. cbn [ok_or].
  by rewrite substring_window by lia.
Qed.
End Cells.

(** * Layouts *)

(** The constraints of the schema: keys, and columns of their types. *)
Record schema (st : Tables) : Prop := {
  chunk_key : forall id, NoDup (map c_seq (chunk_rows st id));
  extent_key : forall id, NoDup (map x_seq (extent_rows st id));
  upload_chunk_key : forall id part, NoDup (map uc_seq (upload_chunk_rows st id part));
  blob_columns : forall r, r ∈ blobs st -> b_size r <= i64_max /\ b_chunk_size r <= i32_max;
  chunk_columns : forall r, r ∈ chunks st -> 0 <= c_seq r <= i32_max;
  extent_columns : forall r, r ∈ extents st ->
    0 <= x_seq r <= i32_max /\ 0 <= x_logical r <= i64_max /\ 0 <= x_offset r <= i64_max /\ 0 <= x_length r <= i64_max /\
    len (x_source r) = 32
}.

Definition chunk_count (meta : BlobMeta) : Z := if m_size meta =? 0 then 0 else (m_size meta - 1) / m_chunk_size meta + 1.
Definition chunk_length (meta : BlobMeta) (i : Z) : Z := Z.min (m_chunk_size meta) (m_size meta - i * m_chunk_size meta).

(** The metadata of a blob that loads. *)
Record sane (meta : BlobMeta) : Prop := {
  sane_size : 0 <= m_size meta <= i64_max;
  sane_chunk : 0 < m_chunk_size meta <= i32_max
}.

Lemma chunk_count_spec meta : sane meta -> 0 <= chunk_count meta /\
  (forall i, 0 <= i < chunk_count meta <-> 0 <= i /\ i * m_chunk_size meta < m_size meta).
Proof.
  intros [Hs Hc]. unfold chunk_count. destruct (Z.eqb_spec (m_size meta) 0) as [E|E]; [split; [lia|intros i; nia]|].
  pose proof (Z.div_pos (m_size meta - 1) (m_chunk_size meta) ltac:(lia) ltac:(lia)).
  pose proof (Z.div_mod (m_size meta - 1) (m_chunk_size meta) ltac:(lia)).
  pose proof (Z.mod_pos_bound (m_size meta - 1) (m_chunk_size meta) ltac:(lia)).
  split; [lia|]. intros i. nia.
Qed.

Lemma sum_chunks meta : sane meta -> sum (map (chunk_length meta) (seqZ 0 (chunk_count meta))) = m_size meta.
Proof.
  intros Hsane. destruct (chunk_count_spec meta Hsane) as [Hn Hi]. destruct Hsane as [Hs Hc].
  assert (Hk : forall k : nat, Z.of_nat k <= chunk_count meta ->
    sum (map (chunk_length meta) (seqZ 0 (Z.of_nat k))) = Z.min (m_size meta) (Z.of_nat k * m_chunk_size meta)).
  { induction k as [|k IH]; intros Hle; [simpl; unfold sum; simpl; lia|].
    rewrite seqZ_S, map_app, sum_app, IH by lia. simpl. rewrite sum_cons. unfold sum. simpl.
    pose proof (proj1 (Hi (Z.of_nat k)) ltac:(lia)) as [_ Hlt]. unfold chunk_length. nia. }
  specialize (Hk (Z.to_nat (chunk_count meta)) ltac:(lia)). rewrite Z2Nat.id in Hk by done. rewrite Hk.
  destruct (decide (chunk_count meta * m_chunk_size meta < m_size meta)) as [Hlt|]; [|lia].
  assert (0 <= chunk_count meta < chunk_count meta) by (apply Hi; lia). lia.
Qed.

Section Layouts.
Context (st : Tables) (Hst : schema st).

Lemma load_blob_Ok id meta : load_blob st id = Ok meta -> exists r,
  blob_row st id = Some r /\ m_id meta = id /\ m_size meta = b_size r /\ m_chunk_size meta = b_chunk_size r /\ sane meta /\
  match m_kind meta with
  | Inline => exists data, b_inline r = Some data /\ len data = m_size meta /\ m_size meta < i32_max
  | _ => True
  end.
Proof.
  unfold load_blob, select_blob. destruct (blob_row st id) as [r|] eqn:Er; cbn [or_corrupt ok_or]; [|done].
  destruct (Z.ltb_spec (b_size r) 0); simpl; [done|]. destruct (Z.leb_spec (b_chunk_size r) 0); simpl; [done|].
  intros Hl. apply Ok_bind in Hl as (kind & Hk & [= <-]). exists r. simpl.
  pose proof (find_Some_elem _ _ _ Er) as [Hin _]. destruct (blob_columns _ Hst r Hin) as [B1 B2].
  split_and!; try done. destruct kind; try done. unfold load_kind in Hk.
  destruct (b_kind r ==b bs "inline").
  - destruct (decide (option_map len (b_inline r) = Some (b_size r))) as [E|E];
      rewrite ?(bool_decide_eq_true_2 _ E), ?(bool_decide_eq_false_2 _ E) in Hk; simpl in Hk; [|done].
    destruct (Z.ltb_spec (i32_max - 1) (b_size r)); [done|].
    destruct (b_inline r) as [data|]; [|done]. injection E as E. exists data. split_and!; [done|done|lia].
  - destruct (b_kind r ==b bs "chunked"); [by destruct (is_some _)|]. destruct (b_kind r ==b bs "composite"); [|done].
    by destruct (is_some _).
Qed.

(** Chunks are dense and of the right sizes. *)
Record chunked_layout (meta : BlobMeta) : Prop := {
  cl_dense : map c_seq (chunk_rows st (m_id meta)) ≡ₚ seqZ 0 (chunk_count meta);
  cl_sizes : forall r, r ∈ chunk_rows st (m_id meta) -> len (c_data r) = chunk_length meta (c_seq r)
}.

Lemma validate_chunk_layout_Ok meta n : sane meta ->
  validate_chunk_layout st meta = Ok n <-> n = chunk_count meta /\ chunked_layout meta.
Proof.
  intros Hsane. destruct (chunk_count_spec meta Hsane) as [Hc0 Hci]. pose proof (sum_chunks meta Hsane) as Hsum.
  pose proof (chunk_key _ Hst (m_id meta)) as Hkey.
  unfold validate_chunk_layout, select_chunk_layout. fold (chunk_count meta).
  set (rows := chunk_rows st (m_id meta)) in *.
  set (sizes := map (fun r => len (c_data r)) rows).
  set (ok := forallb _ rows).
  assert (Hok : ok = true <-> forall r, r ∈ rows -> c_seq r * m_chunk_size meta < m_size meta /\
    len (c_data r) = chunk_length meta (c_seq r)).
  { unfold ok. rewrite forallb_forall. split.
    - intros Hf r Hr%list_elem_of_In. specialize (Hf r Hr). apply andb_true_iff in Hf as [F1%Z.ltb_lt F2%Z.eqb_eq]. done.
    - intros Hf r Hr%list_elem_of_In. destruct (Hf r Hr) as [F1 F2]. apply andb_true_iff.
      split; [by apply Z.ltb_lt|by apply Z.eqb_eq]. }
  split.
  - intros Hv. unfold aggregate in Hv.
    destruct (checked i64_min i64_max (sum sizes)) as [total|] eqn:Et; cbn [ok_or load_layout_stats] in Hv; [|done].
    apply checked_Some in Et as [-> _].
    destruct (dense_layout_error _ _ _) eqn:Ed; [done|]. injection Hv as <-. split; [done|].
    apply (dense_layout_None (map c_seq rows) sizes (sum sizes) ok _ _ Hkey eq_refl) in Ed as (En & Hp & _ & _ & Hv).
    constructor; [done|]. intros r Hr. by apply Hok.
  - intros [-> [Hd Hz]].
    assert (Hall : ok = true).
    { apply Hok. intros r Hr. split; [|by apply Hz]. apply Hci. apply (dense_elem _ _ Hd). by apply list_elem_of_fmap_2. }
    assert (Hs : sum sizes = m_size meta).
    { rewrite <- Hsum. transitivity (sum (map (chunk_length meta) (map c_seq rows))); [|by apply sum_perm, fmap_Permutation].
      unfold sizes. f_equal. rewrite map_map. apply map_ext_in. intros r Hr. by apply Hz, list_elem_of_In. }
    unfold aggregate. rewrite Hs, checked_in by (destruct Hsane; unfold i64_min; lia). cbn [ok_or load_layout_stats].
    assert (Hd0 : len (map c_seq rows) = chunk_count meta).
    { unfold len. etransitivity; [apply inj_eq, (Permutation_length Hd)|]. rewrite length_seqZ. lia. }
    destruct (dense_layout_error _ _ _) eqn:Ed; [|done]. exfalso.
    pose proof (proj2 (dense_layout_None (map c_seq rows) sizes (m_size meta) ok (chunk_count meta) (m_size meta) Hkey (eq_sym Hs))) as Hn.
    rewrite Hn in Ed; [done|]. split_and!; try done. apply Hsane.
Qed.

(** ** Extents in order *)

Definition extents_of (id : bytes) : list ExtentRow := merge_sort seq_le (extent_rows st id).

Lemma sorted_map {A} (f : A -> Z) (R : A -> A -> Prop) l : (forall x y, R x y -> f x <= f y) -> Sorted R l -> Sorted Z.le (map f l).
Proof.
  intros Hf. induction 1 as [|x l Hs IH Hd]; simpl; constructor; [done|]. destruct Hd; simpl; constructor. by apply Hf.
Qed.

Lemma sorted_seqZ m n : StronglySorted Z.le (seqZ m n).
Proof.
  assert (Hk : forall k m, StronglySorted Z.le (seqZ m (Z.of_nat k))).
  { induction k as [|k IH]; intros a; [constructor|]. rewrite seqZ_cons by lia. constructor.
    - replace (Z.pred (Z.of_nat (S k))) with (Z.of_nat k) by lia. apply IH.
    - apply Forall_forall. intros x ?%elem_of_seqZ. lia. }
  destruct (decide (0 <= n)) as [Hn|Hn]; [|rewrite seqZ_nil by lia; constructor].
  rewrite <- (Z2Nat.id n) by done. apply Hk.
Qed.

#[local] Instance seq_le_total : Total seq_le.
Proof. intros a b. unfold seq_le. lia. Qed.

Lemma extents_of_perm id : extents_of id ≡ₚ extent_rows st id.
Proof. apply merge_sort_Permutation. Qed.

Lemma extents_of_elem id e : e ∈ extents_of id <-> e ∈ extent_rows st id.
Proof. by rewrite extents_of_perm. Qed.

Lemma extents_of_seq id n : map x_seq (extent_rows st id) ≡ₚ seqZ 0 n -> map x_seq (extents_of id) = seqZ 0 n.
Proof.
  intros Hp. apply (StronglySorted_unique Z.le); [| apply sorted_seqZ|].
  - apply Sorted_StronglySorted; [intros x y z; lia|]. apply (sorted_map _ seq_le); [done|]. apply Sorted_merge_sort, _.
  - etransitivity; [|exact Hp]. apply (fmap_Permutation x_seq), extents_of_perm.
Qed.

Lemma extents_of_row id e : e ∈ extents_of id -> extent_row st id (x_seq e) = Some e.
Proof. intros He%extents_of_elem. apply (find_key x_seq); [apply (extent_key _ Hst)|done]. Qed.

(** The extents follow each other from zero to the size, each within its
    source. *)
Fixpoint tiled (o : Z) (l : list ExtentRow) : Prop :=
  match l with
  | [] => True
  | e :: l => x_logical e = o /\
              (exists source, blob_row st (x_source e) = Some source /\ x_offset e + x_length e <= b_size source) /\
              tiled (o + x_length e) l
  end.

Lemma extent_valid_tiled l : forall o, forallb (extent_valid st) (running o l) = true -> tiled o l.
Proof.
  induction l as [|e l IH]; intros o; [done|]. cbn [running forallb].
  intros [He Hl]%andb_true_iff. apply andb_true_iff in He as [E1%Z.eqb_eq E2]. split; [done|]. split; [|by apply IH].
  destruct (blob_row st (x_source e)) as [source|]; [|done]. apply andb_true_iff in E2 as [_ E2%Z.leb_le].
  exists source. split; [done|lia].
Qed.

Lemma validate_extent_layout_Ok meta n : validate_extent_layout st meta = Ok n ->
  map x_seq (extents_of (m_id meta)) = seqZ 0 n /\ tiled 0 (extents_of (m_id meta)) /\
  sum (map x_length (extents_of (m_id meta))) = m_size meta.
Proof.
  unfold validate_extent_layout, select_extent_layout. intros Hv. unfold aggregate in Hv.
  set (rows := extent_rows st (m_id meta)) in *.
  destruct (checked i64_min i64_max (sum (map x_length rows))) as [total|] eqn:Et;
    cbn [ok_or load_layout_stats] in Hv; [|done].
  apply checked_Some in Et as [-> _].
  destruct (dense_layout_error _ _ _) eqn:Ed; [done|]. injection Hv as <-. cbn [l_count] in *.
  apply (dense_layout_None (map x_seq rows) (map x_length rows) _ _ _ _ (extent_key _ Hst _) eq_refl) in Ed
    as (_ & Hp & Hs & _ & Hok).
  split; [by apply extents_of_seq|]. split; [by apply extent_valid_tiled|]. rewrite <- Hs.
  apply sum_perm, (fmap_Permutation x_length), extents_of_perm.
Qed.
End Layouts.

(** * Contents *)

(** What a blob stands for: its inline bytes, its chunks in order, or its
    extents in order, each a window of the contents of its source.  [depth]
    bounds the nesting. *)
Fixpoint content (st : Tables) (depth : nat) (id : bytes) : option bytes :=
  match depth with
  | O => None
  | S depth =>
      match load_blob st id with
      | Err _ => None
      | Ok meta =>
          match m_kind meta with
          | Inline => blob_row st id ≫= b_inline
          | ChunkedKind =>
              match validate_chunk_layout st meta with
              | Err _ => None
              | Ok n => @concat byte <$> mapM (fun i => c_data <$> chunk_row st id i) (seqZ 0 n)
              end
          | Composite =>
              match validate_extent_layout st meta with
              | Err _ => None
              | Ok n =>
                  @concat byte <$> mapM (fun i =>
                    extent_row st id i ≫= fun e =>
                    window 0 (x_offset e) (x_offset e + x_length e) <$> content st depth (x_source e)) (seqZ 0 n)
              end
          end
      end
  end.

Section Contents.
Context (st : Tables) (Hst : schema st).

Lemma content_mono d : forall id c, content st d id = Some c -> content st (S d) id = Some c.
Proof.
  induction d as [|d IH]; intros id c; [done|]. set (d1 := S d). cbn [content]. unfold d1 at 1. cbn [content].
  destruct (load_blob st id) as [meta|]; [|done]. destruct (m_kind meta); try done.
  destruct (validate_extent_layout st meta) as [n|]; [|done]. intros Hm. apply fmap_Some in Hm as (ps & Hps & ->).
  apply fmap_Some. exists ps. split; [|done]. apply mapM_Some in Hps. apply mapM_Some.
  eapply Forall2_impl; [exact Hps|]. intros i p Hp. apply bind_Some in Hp as (e & He & Hp). apply fmap_Some in Hp as (src & Hsrc & ->).
  apply bind_Some. exists e. split; [done|]. apply fmap_Some. exists src. split; [by apply IH|done].
Qed.

Lemma content_le d d' id c : (d <= d')%nat -> content st d id = Some c -> content st d' id = Some c.
Proof. induction 1; [done|]. intros. apply content_mono. auto. Qed.

(** The least depth at which a blob has contents. *)
Lemma content_least n id c : content st n id = Some c ->
  exists d, content st d id = None /\ content st (S d) id = Some c /\ (S d <= n)%nat.
Proof.
  induction n as [|n IH]; [done|]. intros Hc. destruct (content st n id) as [c'|] eqn:E.
  - rewrite (content_mono _ _ _ E) in Hc. injection Hc as ->. destruct (IH eq_refl) as (d & ? & ? & ?). exists d. split_and!; [done|done|lia].
  - by exists n.
Qed.

(** The pieces of a blob, with their offsets. *)
Fixpoint laid_out {A} (off : A -> Z) (piece : A -> bytes) (o : Z) (l : list A) : Prop :=
  match l with
  | [] => True
  | a :: l => off a = o /\ laid_out off piece (o + len (piece a)) l
  end.

Lemma window_pieces {A} (off : A -> Z) (piece : A -> bytes) s e l : forall o, laid_out off piece o l ->
  window o s e (concat (map piece l)) = concat (map (fun a => window (off a) s e (piece a)) l).
Proof.
  induction l as [|a l IH]; intros o Hl; [cbn [map concat]; unfold window; by rewrite take_nil, drop_nil|]. destruct Hl as [<- Hl].
  cbn [map concat]. by rewrite window_app, (IH _ Hl).
Qed.

Lemma concat_nil_map {A} (f : A -> bytes) l : (forall a, a ∈ l -> f a = []) -> concat (map f l) = [].
Proof.
  induction l as [|a l IH]; intros Hl; [done|]. cbn [map concat]. rewrite (Hl a) by left. apply IH. intros b Hb. apply Hl. by right.
Qed.

(** ** Chunked blobs *)

Definition chunk_data (id : bytes) (i : Z) : bytes := default [] (c_data <$> chunk_row st id i).

Lemma chunk_data_row id i r : chunk_row st id i = Some r -> chunk_data id i = c_data r.
Proof. intros Hr. unfold chunk_data. by rewrite Hr. Qed.

Lemma chunked_rows meta i : sane meta -> chunked_layout st meta -> 0 <= i < chunk_count meta ->
  exists r, chunk_row st (m_id meta) i = Some r /\ len (c_data r) = chunk_length meta i.
Proof.
  intros Hs [Hd Hz] Hi. destruct (dense_find c_seq _ _ i (chunk_key _ Hst _) Hd Hi) as (r & Hr & Hin & <-).
  exists r. split; [done|by apply Hz].
Qed.

Lemma chunked_laid_out meta : sane meta -> chunked_layout st meta ->
  laid_out (fun i => i * m_chunk_size meta) (chunk_data (m_id meta)) 0 (seqZ 0 (chunk_count meta)).
Proof.
  intros Hs Hl. destruct (chunk_count_spec meta Hs) as [Hn Hi].
  assert (Hk : forall k i, 0 <= i -> i + Z.of_nat k = chunk_count meta ->
    laid_out (fun i => i * m_chunk_size meta) (chunk_data (m_id meta)) (i * m_chunk_size meta) (seqZ i (Z.of_nat k))).
  { induction k as [|k IH]; intros i Hi0 He; [done|]. rewrite seqZ_cons by lia. split; [done|].
    replace (Z.pred (Z.of_nat (S k))) with (Z.of_nat k) by lia. destruct k as [|k]; [done|].
    destruct (chunked_rows meta i Hs Hl ltac:(lia)) as (r & Hr & Hlen).
    replace (len (chunk_data (m_id meta) i)) with (m_chunk_size meta).
    - replace (i * m_chunk_size meta + m_chunk_size meta) with (Z.succ i * m_chunk_size meta) by lia. apply IH; lia.
    - unfold chunk_data. rewrite Hr. simpl. rewrite Hlen. unfold chunk_length.
      destruct (proj1 (Hi (i + 1)) ltac:(lia)) as [_ Hlt]. lia. }
  specialize (Hk (Z.to_nat (chunk_count meta)) 0). rewrite Z2Nat.id in Hk by done. apply Hk; lia.
Qed.

Lemma chunked_content meta : sane meta -> chunked_layout st meta ->
  mapM (fun i => c_data <$> chunk_row st (m_id meta) i) (seqZ 0 (chunk_count meta)) =
  Some (map (chunk_data (m_id meta)) (seqZ 0 (chunk_count meta))).
Proof.
  intros Hs Hl. apply mapM_Some, Forall2_fmap_r, Forall_Forall2_diag, Forall_forall. intros i Hi%elem_of_seqZ.
  destruct (chunked_rows meta i Hs Hl ltac:(lia)) as (r & Hr & _). unfold chunk_data, compose. by rewrite Hr.
Qed.

Section Chunked.
Context {S : Type} (emit : S -> bytes -> result HashError S).

Lemma stream_chunk_emits meta start end_ i : sane meta -> chunked_layout st meta -> 0 <= start -> end_ <= m_size meta ->
  0 <= i < chunk_count meta -> i * m_chunk_size meta < end_ -> start < i * m_chunk_size meta + m_chunk_size meta -> start < end_ ->
  emits emit (fun s => stream_chunk st emit (m_id meta) (m_chunk_size meta) start end_ s i)
    (window (i * m_chunk_size meta) start end_ (chunk_data (m_id meta) i)).
Proof.
  intros Hs Hl H0 He Hi Hie His Hse. destruct (chunked_rows meta i Hs Hl Hi) as (r & Hr & Hlen).
  pose proof (find_Some_elem _ _ _ Hr) as [Hin Eseq%Z.eqb_eq].
  assert (Hseq : 0 <= i <= i32_max).
  { rewrite <- Eseq. apply (chunk_columns _ Hst). apply list_elem_of_In in Hin. apply filter_In in Hin as [Hin _].
    by apply list_elem_of_In. }
  rewrite (chunk_data_row _ _ _ Hr). unfold chunk_length in Hlen.
  destruct Hs as [Hs1 Hs2]. set (o := i * m_chunk_size meta) in *.
  assert (Ho : 0 <= o /\ o + m_chunk_size meta <= i64_max) by (unfold o, i32_max, i64_max in *; nia).
  rewrite window_clip, Hlen. set (from := Z.max start o).
  assert (Eto : Z.min end_ (o + Z.min (m_chunk_size meta) (m_size meta - o)) = Z.min end_ (o + m_chunk_size meta)) by lia.
  rewrite Eto. set (to := Z.min end_ (o + m_chunk_size meta)) in *.
  rewrite <- (window_sub o from to).
  destruct (chunk_cell_emits st emit (m_id meta) i r (from - o) (to - from)) as (blocks & Hb & Hf);
    [done|rewrite Hlen; lia|lia|lia|rewrite Hlen; lia|].
  replace (from - o + (to - from)) with (to - o) in Hb by lia. exists blocks. split; [done|]. intros s.
  unfold stream_chunk. rewrite (checked_in i32_min i32_max i) by (unfold i32_min; lia). cbn [or_corrupt ok_or].
  unfold checked_mul_i64. fold o. rewrite checked_in by (unfold i64_min; lia). cbn [or_corrupt ok_or].
  unfold checked_add_i64. rewrite checked_in by (unfold i64_min; lia). cbn [or_corrupt ok_or].
  fold from. fold to. apply Hf.
Qed.

Lemma chunked_emits meta start end_ : sane meta -> chunked_layout st meta -> 0 <= start < end_ -> end_ <= m_size meta ->
  emits emit (fun s => fold_result (stream_chunk st emit (m_id meta) (m_chunk_size meta) start end_) s
      (seqZ (start / m_chunk_size meta) ((end_ - 1) / m_chunk_size meta - start / m_chunk_size meta + 1)))
    (window 0 start end_ (concat (map (chunk_data (m_id meta)) (seqZ 0 (chunk_count meta))))).
Proof.
  intros Hs Hl Hse He. destruct (chunk_count_spec meta Hs) as [Hn Hi].
  pose proof (chunked_laid_out meta Hs Hl) as Hlaid. pose proof Hs as [Hs1 Hs2].
  set (cs := m_chunk_size meta) in *. set (first := start / cs). set (last := (end_ - 1) / cs).
  pose proof (Z.div_mod start cs ltac:(lia)) as D1. pose proof (Z.mod_pos_bound start cs ltac:(lia)) as M1.
  pose proof (Z.div_mod (end_ - 1) cs ltac:(lia)) as D2. pose proof (Z.mod_pos_bound (end_ - 1) cs ltac:(lia)) as M2.
  fold first in D1. fold last in D2.
  assert (Hfl : 0 <= first <= last) by (split; [apply Z.div_pos; lia|apply Z.div_le_mono; lia]).
  assert (Hln : last < chunk_count meta) by (apply Hi; nia).
  rewrite (window_pieces _ _ _ _ _ _ Hlaid).
  replace (seqZ 0 (chunk_count meta)) with
    (seqZ 0 first ++ seqZ first (last - first + 1) ++ seqZ (last + 1) (chunk_count meta - (last + 1))).
  2:{ replace (chunk_count meta) with (first + ((last - first + 1) + (chunk_count meta - (last + 1)))) at 2 by lia.
      rewrite !seqZ_app by lia. do 2 f_equal. f_equal; lia. }
  rewrite !map_app, !concat_app.
  rewrite (concat_nil_map _ (seqZ 0 first)), (concat_nil_map _ (seqZ (last + 1) _)), app_nil_r; cbn [app].
  - apply emits_fold. intros i Hi'%elem_of_seqZ. apply stream_chunk_emits; try done; fold cs; try lia; nia.
  - intros i Hi'%elem_of_seqZ. apply window_empty. left. nia.
  - intros i Hi'%elem_of_seqZ. destruct (chunked_rows meta i Hs Hl ltac:(lia)) as (r & Hr & Hlen).
    apply window_empty. right; left. rewrite (chunk_data_row _ _ _ Hr), Hlen. unfold chunk_length. fold cs. nia.
Qed.
End Chunked.

(** ** Composite blobs *)

Lemma len_concat (ls : list bytes) : len (concat ls) = sum (map len ls).
Proof. induction ls as [|l ls IH]; [done|]. cbn [concat map]. by rewrite len_app, sum_cons, IH. Qed.

Definition extent_piece (d : nat) (e : ExtentRow) : bytes :=
  window 0 (x_offset e) (x_offset e + x_length e) (default [] (content st d (x_source e))).

Lemma composite_pieces d id l : forall ps, (forall e, e ∈ l -> e ∈ extents_of st id) ->
  mapM (fun i => extent_row st id i ≫= fun e =>
    window 0 (x_offset e) (x_offset e + x_length e) <$> content st d (x_source e)) (map x_seq l) = Some ps ->
  ps = map (extent_piece d) l /\ forall e, e ∈ l -> exists src, content st d (x_source e) = Some src.
Proof.
  induction l as [|e l IH]; intros ps Hin Hm; [injection Hm as <-; by split; [|intros e ?%elem_of_nil]|].
  apply mapM_Some in Hm. inversion Hm as [|? p ? ps' Hp Hps]; subst.
  destruct (IH ps') as [-> Hsrc]; [intros e' He'; apply Hin; by right|by apply mapM_Some|].
  rewrite (extents_of_row st Hst id e) in Hp by (apply Hin; left).
  apply fmap_Some in Hp as (src & Es & ->). split.
  - cbn [map]. f_equal. unfold extent_piece. by rewrite Es.
  - intros e' [->|He']%elem_of_cons; [by exists src|by apply Hsrc].
Qed.

Lemma content_load d id c : content st d id = Some c -> exists meta, load_blob st id = Ok meta.
Proof. destruct d; [done|]. cbn [content]. destruct (load_blob st id) as [meta|]; [by exists meta|done]. Qed.

Lemma extents_columns id e : e ∈ extents_of st id ->
  0 <= x_seq e <= i32_max /\ 0 <= x_logical e <= i64_max /\ 0 <= x_offset e <= i64_max /\ 0 <= x_length e <= i64_max /\
  len (x_source e) = 32.
Proof.
  intros He%extents_of_elem%list_elem_of_In%filter_In. apply (extent_columns _ Hst). apply list_elem_of_In, He.
Qed.

Lemma tiled_elem l : forall o e, tiled st o l -> e ∈ l ->
  exists source, blob_row st (x_source e) = Some source /\ x_offset e + x_length e <= b_size source.
Proof.
  induction l as [|e' l IH]; intros o e; [by intros _ ?%elem_of_nil|].
  intros (_ & Hs & Hl) [->|He]%elem_of_cons; [done|by apply (IH _ _ Hl)].
Qed.

(** The contents of a blob have its size, and an extent the length it has. *)
Lemma content_length d : forall id c meta, content st d id = Some c -> load_blob st id = Ok meta -> len c = m_size meta.
Proof.
  induction d as [|d IH]; intros id c meta Hc Hl; [done|]. cbn [content] in Hc. rewrite Hl in Hc.
  destruct (load_blob_Ok st Hst id meta Hl) as (r & Hr & Hid & _ & _ & Hsane & Hk).
  destruct (m_kind meta).
  - destruct Hk as (data & Hd & Hlen & _). rewrite Hr in Hc. simpl in Hc. congruence.
  - destruct (validate_chunk_layout st meta) as [n|] eqn:Ev; [|done].
    apply validate_chunk_layout_Ok in Ev as [-> Hlay]; [|done|done].
    rewrite <- Hid, chunked_content in Hc by done. injection Hc as <-. rewrite len_concat, map_map, <- (sum_chunks meta Hsane).
    f_equal. apply map_ext_in. intros i Hi%list_elem_of_In%elem_of_seqZ.
    destruct (chunked_rows meta i Hsane Hlay ltac:(lia)) as (r' & Hr' & Hlen). by rewrite (chunk_data_row _ _ _ Hr').
  - destruct (validate_extent_layout st meta) as [n|] eqn:Ev; [|done].
    apply validate_extent_layout_Ok in Ev as (Hseq & Htile & Hsum); [|done].
    rewrite Hid in *. rewrite <- Hseq in Hc. apply fmap_Some in Hc as (ps & Hps & ->).
    apply composite_pieces in Hps as [-> Hsrc]; [|done]. rewrite len_concat, map_map, <- Hsum. f_equal.
    apply map_ext_in. intros e He%list_elem_of_In. destruct (Hsrc e He) as (src & Es).
    destruct (extents_columns _ _ He) as (_ & _ & Hxo & Hxl & _).
    destruct (tiled_elem _ _ _ Htile He) as (row & Erow & Hbound).
    destruct (content_load _ _ _ Es) as (smeta & Esm). pose proof (IH _ _ _ Es Esm) as Hlen.
    destruct (load_blob_Ok st Hst _ _ Esm) as (row' & Erow' & _ & Esz & _). rewrite Erow in Erow'. injection Erow' as <-.
    unfold extent_piece. rewrite Es. simpl. rewrite window_length by lia. lia.
Qed.

(** The extents of a composite blob: their sources and lengths. *)
Lemma composite_extent d id e : tiled st 0 (extents_of st id) -> e ∈ extents_of st id ->
  (exists src, content st d (x_source e) = Some src) ->
  exists src, content st d (x_source e) = Some src /\ extent_piece d e = window 0 (x_offset e) (x_offset e + x_length e) src /\
    x_offset e + x_length e <= len src /\ len (extent_piece d e) = x_length e.
Proof.
  intros Ht He (src & Es). destruct (tiled_elem _ _ _ Ht He) as (row & Erow & Hbound).
  destruct (content_load _ _ _ Es) as (smeta & Esm). pose proof (content_length _ _ _ _ Es Esm) as Hlen.
  destruct (load_blob_Ok st Hst _ _ Esm) as (row' & Erow' & _ & Esz & _). rewrite Erow in Erow'. injection Erow' as <-.
  destruct (extents_columns _ _ He) as (_ & _ & Hxo & Hxl & _).
  exists src. split; [done|]. unfold extent_piece. rewrite Es. simpl.
  split; [done|]. split; [lia|]. rewrite window_length by lia. lia.
Qed.

Lemma tiled_laid_out d l : forall o, tiled st o l -> (forall e, e ∈ l -> len (extent_piece d e) = x_length e) ->
  laid_out x_logical (extent_piece d) o l.
Proof.
  induction l as [|e l IH]; intros o; [done|]. intros (Ho & _ & Hl) He. split; [done|].
  rewrite (He e) by left. apply IH; [done|]. intros e' He'. apply He. by right.
Qed.

Lemma tiled_bound l : forall o e, tiled st o l -> (forall x, x ∈ l -> 0 <= x_length x) -> e ∈ l ->
  o <= x_logical e /\ x_logical e + x_length e <= o + sum (map x_length l).
Proof.
  induction l as [|a l IH]; intros o e; [by intros _ _ ?%elem_of_nil|]. intros (Ho & _ & Hl) Hx He.
  pose proof (Hx a ltac:(left)) as Ha. cbn [map]. rewrite sum_cons.
  assert (Hx' : forall x, x ∈ l -> 0 <= x_length x) by (intros x Hi; apply Hx; by right).
  assert (Hsum : 0 <= sum (map x_length l)).
  { clear IH Hl He. induction l as [|b l IH']; [done|]. cbn [map]. rewrite sum_cons. pose proof (Hx' b ltac:(left)).
    assert (0 <= sum (map x_length l)); [|lia]. apply IH'; intros x Hi; [apply Hx|apply Hx'].
    - apply elem_of_cons in Hi as [->|Hi]; [left|right; by right].
    - by right. }
  apply elem_of_cons in He as [->|He]; [lia|]. destruct (IH _ _ Hl Hx' He). lia.
Qed.

Lemma checked_end_Ok start length size : 0 <= start -> 0 <= length -> start + length <= size -> size <= i64_max ->
  checked_end start length size = Ok (start + length).
Proof.
  intros. unfold checked_end, range_end. rewrite (proj2 (Z.ltb_ge start 0)), (proj2 (Z.ltb_ge length 0)), (proj2 (Z.ltb_ge size 0)) by lia.
  simpl. unfold checked_add_i64. rewrite checked_in by (unfold i64_min; lia). cbn [ok_or].
  by rewrite (proj2 (Z.ltb_ge _ _)) by lia.
Qed.

(** The part of an extent in a range is a range of its source. *)
Lemma extent_window e (piece src : bytes) start end_ : 0 <= x_offset e -> piece = window 0 (x_offset e) (x_offset e + x_length e) src ->
  len piece = x_length e -> x_logical e < end_ -> start < x_logical e + x_length e -> start < end_ -> 0 < x_length e ->
  window (x_logical e) start end_ piece =
  window 0 (x_offset e + (Z.max start (x_logical e) - x_logical e))
    (x_offset e + (Z.max start (x_logical e) - x_logical e) + (Z.min end_ (x_logical e + x_length e) - Z.max start (x_logical e))) src.
Proof.
  intros Ho Ep Hl H1 H2 H3 H4. rewrite window_clip, Hl, <- window_sub, Ep, window_window by lia. f_equal. lia.
Qed.

Section Stream.
Context {S : Type} (emit : S -> bytes -> result HashError S).

(** One extent, when its source is read. *)
Lemma stream_extent_emits stream meta d e start end_ :
  tiled st 0 (extents_of st (m_id meta)) -> sum (map x_length (extents_of st (m_id meta))) = m_size meta -> sane meta ->
  e ∈ extents_of st (m_id meta) -> (exists src, content st d (x_source e) = Some src) -> 0 <= start <= end_ ->
  (forall src s0 n, content st d (x_source e) = Some src -> 0 <= s0 -> 0 <= n -> s0 + n <= len src ->
     emits emit (stream (x_source e) s0 n) (window 0 s0 (s0 + n) src)) ->
  emits emit (fun s => stream_extent st stream (m_id meta) (m_size meta) start end_ s (x_seq e))
    (window (x_logical e) start end_ (extent_piece d e)).
Proof.
  intros Ht Hsum Hsane He Hsrc Hse Hstream.
  destruct (composite_extent d _ e Ht He Hsrc) as (src & Es & Ep & Hb & Hlen).
  destruct (extents_columns _ _ He) as (Hx1 & Hx2 & Hx3 & Hx4 & Hx5).
  destruct (tiled_bound _ _ e Ht) as [_ Htb]; [intros x Hx; destruct (extents_columns _ _ Hx) as (_ & _ & _ & ? & _); lia|done|].
  assert (Hsz : len src <= i64_max).
  { destruct (content_load _ _ _ Es) as (smeta & Esm). rewrite (content_length _ _ _ _ Es Esm).
    destruct (load_blob_Ok st Hst _ _ Esm) as (? & _ & _ & _ & _ & [] & _). lia. }
  assert (Hrun : forall s, stream_extent st stream (m_id meta) (m_size meta) start end_ s (x_seq e) =
    if (x_length e =? 0) || (end_ <=? x_logical e) || (x_logical e + x_length e <=? start) then Ok s
    else
      let from := Z.max start (x_logical e) in
      stream (x_source e) (x_offset e + (from - x_logical e)) (Z.min end_ (x_logical e + x_length e) - from) s).
  { intros s. unfold stream_extent. rewrite checked_in by (unfold i32_min; lia). cbn [or_corrupt ok_or].
    unfold load_extent. rewrite (extents_of_row st Hst _ _ He). cbn [option_map or_corrupt ok_or].
    unfold parse_blob_id. rewrite Hx5. change (32 =? 32) with true. cbn [logical_offset e_length source_offset source_id].
    rewrite checked_end_Ok by (destruct Hsane; lia). destruct (_ || _) eqn:Eskip; [done|].
    apply orb_false_iff in Eskip as [[_ E2%Z.leb_gt]%orb_false_iff E3%Z.leb_gt].
    unfold checked_add_i64. rewrite checked_in by (unfold i64_min; lia). done. }
  destruct ((x_length e =? 0) || (end_ <=? x_logical e) || (x_logical e + x_length e <=? start)) eqn:Eskip.
  - replace (window (x_logical e) start end_ (extent_piece d e)) with ([] : bytes).
    + destruct (emits_nil emit) as (b & Hbb & Hf). exists b. split; [done|]. intros s. rewrite Hrun. apply Hf.
    + symmetry. apply orb_true_iff in Eskip as [[E%Z.eqb_eq|E%Z.leb_le]%orb_true_iff|E%Z.leb_le].
      * rewrite E in Hlen. apply len_zero in Hlen as ->. unfold window. by rewrite take_nil, drop_nil.
      * apply window_empty. by left.
      * apply window_empty. right; left. lia.
  - apply orb_false_iff in Eskip as [[E1%Z.eqb_neq E2%Z.leb_gt]%orb_false_iff E3%Z.leb_gt].
    destruct (decide (start = end_)) as [<-|Hne].
    + (* an empty range reads an empty range *)
      destruct (Hstream src (x_offset e + (Z.max start (x_logical e) - x_logical e)) (Z.min start (x_logical e + x_length e) - Z.max start (x_logical e))
        Es ltac:(lia) ltac:(lia) ltac:(lia)) as (b & Hbb & Hf).
      exists b. split; [|intros s; rewrite Hrun; apply Hf].
      rewrite window_empty in Hbb by lia. by rewrite window_empty by lia.
    + rewrite (extent_window e _ src start end_ ltac:(lia) Ep Hlen ltac:(lia) ltac:(lia) ltac:(lia) ltac:(lia)).
      destruct (Hstream src (x_offset e + (Z.max start (x_logical e) - x_logical e)) (Z.min end_ (x_logical e + x_length e) - Z.max start (x_logical e))
        Es ltac:(lia) ltac:(lia) ltac:(lia)) as (b & Hbb & Hf).
      exists b. split; [done|]. intros s. rewrite Hrun. apply Hf.
Qed.

Lemma stream_emits d : forall fuel path id c start length,
  content st d id = None -> content st (Datatypes.S d) id = Some c ->
  (forall p, p ∈ path -> content st (Datatypes.S d) p = None) ->
  (Datatypes.length path + Datatypes.S d <= MAX_BLOB_DEPTH)%nat -> (Datatypes.S d <= fuel)%nat ->
  0 <= start -> 0 <= length -> start + length <= len c ->
  emits emit (stream_blob_range st emit fuel path id start length) (window 0 start (start + length) c).
Proof.
  induction d as [d IH] using lt_wf_ind.
  intros [|fuel] path id c start length Hnone Hc Hpath Hdepth Hfuel Hs Hl Hsl; [lia|].
  destruct (content_load _ _ _ Hc) as (meta & Em). pose proof (content_length _ _ _ _ Hc Em) as Hlen.
  destruct (load_blob_Ok st Hst id meta Em) as (r & Hr & Hid & _ & _ & Hsane & Hk). subst id. set (id := m_id meta) in *.
  assert (Hrun : forall s, stream_blob_range st emit (Datatypes.S fuel) path id start length s =
    stream_kind st emit (stream_blob_range st emit fuel (path ++ [id])) id meta start length (start + length) s).
  { intros s. cbn [stream_blob_range]. rewrite (proj2 (Nat.leb_gt _ _)) by lia.
    replace (existsb (fun p => p ==b id) path) with false.
    2:{ symmetry. apply not_true_iff_false. intros (p & Hp & E%bool_decide_eq_true)%existsb_exists. subst p.
        rewrite (Hpath id) in Hc by (by apply list_elem_of_In). done. }
    rewrite Em, checked_end_Ok by (destruct Hsane; lia). done. }
  assert (Hgo : forall f out, emits emit f out -> (forall s, stream_blob_range st emit (Datatypes.S fuel) path id start length s = f s) ->
    emits emit (stream_blob_range st emit (Datatypes.S fuel) path id start length) out).
  { intros f out (b & Hb & Hf) E. exists b. split; [done|]. intros s. by rewrite E. }
  unfold stream_kind in Hrun. cbn [content] in Hc. rewrite Em in Hc. destruct (m_kind meta).
  - destruct Hk as (data & Hd & Hdl & Hmax). rewrite Hr in Hc. simpl in Hc. rewrite Hd in Hc. injection Hc as <-.
    eapply Hgo; [|exact Hrun]. by apply (inline_cell_emits st emit id r data); try lia.
  - destruct (validate_chunk_layout st meta) as [n|] eqn:Ev; [|done].
    apply validate_chunk_layout_Ok in Ev as [-> Hlay]; [|done|done].
    unfold id in Hc. rewrite chunked_content in Hc by done. injection Hc as <-.
    destruct (Z.ltb_spec 0 length) as [Hpos|Hz].
    + eapply Hgo; [|exact Hrun]. apply chunked_emits; try done; lia.
    + rewrite window_empty by lia. by eapply Hgo; [apply emits_nil|].
  - destruct (validate_extent_layout st meta) as [n|] eqn:Ev; [|done].
    apply validate_extent_layout_Ok in Ev as (Hseq & Htile & Hsum); [|done].
    rewrite <- Hseq in Hc. apply fmap_Some in Hc as (ps & Hps & ->).
    apply composite_pieces in Hps as [-> Hsrc]; [|done].
    rewrite (window_pieces x_logical (extent_piece d)).
    2:{ apply tiled_laid_out; [done|]. intros e He. by destruct (composite_extent d _ e Htile He (Hsrc e He)) as (? & _ & _ & _ & ?). }
    rewrite <- Hseq in Hrun. eapply Hgo; [|exact Hrun].
    apply emits_map. intros e He. apply stream_extent_emits; try done; [by apply Hsrc|lia|].
    intros src s0 m Es Hs0 Hm Hsm. destruct (content_least _ _ _ Es) as (d' & Hd0 & Hd1 & Hd2).
    apply (IH d' ltac:(lia)); try done; [|rewrite length_app; simpl; lia|lia].
    intros p [Hp|Hp%list_elem_of_singleton]%elem_of_app.
    + destruct (content st (Datatypes.S d') p) as [x|] eqn:Ex; [|done].
      specialize (Hpath p Hp). by rewrite (content_le (Datatypes.S d') (Datatypes.S d) p x ltac:(lia) Ex) in Hpath.
    + subst p. destruct (content st (Datatypes.S d') id) as [x|] eqn:Ex; [|done].
      by rewrite (content_le (Datatypes.S d') d id x ltac:(lia) Ex) in Hnone.
Qed.
End Stream.
End Contents.

(** * Traversals only emit *)

Section Folds.
Context (st : Tables) {S : Type} (emit : S -> bytes -> result HashError S).

(** [s'] is [s] after some blocks. *)
Definition fed (s s' : S) : Prop := exists blocks, fold_result emit s blocks = Ok s'.

Lemma fed_refl s : fed s s.
Proof. by exists []. Qed.

Lemma fed_trans s1 s2 s3 : fed s1 s2 -> fed s2 s3 -> fed s1 s3.
Proof. intros (b1 & H1) (b2 & H2). exists (b1 ++ b2). by rewrite fold_result_app, H1. Qed.

Lemma fed_fold {A} (step : S -> A -> result HashError S) l : (forall a s s', step s a = Ok s' -> fed s s') ->
  forall s s', fold_result step s l = Ok s' -> fed s s'.
Proof.
  intros Hs. induction l as [|a l IH]; intros s s'; cbn [fold_result]; [intros [= ->]; apply fed_refl|].
  destruct (step s a) as [s1|] eqn:E; [|done]. intros Hf. eapply fed_trans; [by eapply Hs|by apply IH].
Qed.

Lemma emit_cell_fed id seq fuel : forall offset length s s',
  emit_bounded_cell st emit fuel id seq offset length s = Ok s' -> fed s s'.
Proof.
  induction fuel as [|fuel IH]; intros offset length s s'; cbn [emit_bounded_cell]; [intros [= ->]; apply fed_refl|].
  destruct (length <=? 0); [intros [= ->]; apply fed_refl|]. cbv zeta. intros (data & _ & Hr)%Ok_bind.
  destruct (negb _); [done|]. apply Ok_bind in Hr as (s1 & He & Hr). apply Ok_bind in Hr as (offset' & _ & Hr).
  eapply fed_trans; [|by eapply IH]. exists [data]. simpl. by rewrite He.
Qed.

Lemma stream_fed fuel : forall path id start length s s', stream_blob_range st emit fuel path id start length s = Ok s' -> fed s s'.
Proof.
  induction fuel as [|fuel IH]; intros path id start length s s'; [done|]. cbn [stream_blob_range].
  destruct (_ <=? _)%nat; [done|]. destruct (existsb _ _); [done|]. intros (meta & _ & Hr)%Ok_bind.
  apply Ok_bind in Hr as (end_ & _ & Hr). unfold stream_kind in Hr. destruct (m_kind meta).
  - by eapply emit_cell_fed.
  - apply Ok_bind in Hr as (n & _ & Hr). destruct (0 <? length); [|injection Hr as ->; apply fed_refl].
    eapply fed_fold; [|exact Hr]. intros i s1 s2 Hi. unfold stream_chunk in Hi.
    apply Ok_bind in Hi as (seq & _ & Hi). apply Ok_bind in Hi as (cs & _ & Hi). apply Ok_bind in Hi as (ce & _ & Hi).
    by eapply emit_cell_fed.
  - apply Ok_bind in Hr as (n & _ & Hr). eapply fed_fold; [|exact Hr]. intros i s1 s2 Hi. unfold stream_extent in Hi.
    apply Ok_bind in Hi as (seq & _ & Hi). apply Ok_bind in Hi as (e & _ & Hi). apply Ok_bind in Hi as (x & _ & Hi).
    destruct (_ || _); [injection Hi as ->; apply fed_refl|]. apply Ok_bind in Hi as (src & _ & Hi). by eapply IH.
Qed.
End Folds.

Section Verified.
Context `{BodyHash} (st : Tables).

(** Blocks through the verifier. *)
Lemma verify_blocks {S} (emit : S -> bytes -> result HashError S) blocks : forall m n s m' n' s',
  fold_result (verify_block emit) (m, n, s) blocks = Ok (m', n', s') ->
  fold_result emit s blocks = Ok s' /\ m' = m ++ concat blocks /\ n' = n + len (concat blocks).
Proof.
  induction blocks as [|b blocks IH]; intros m n s m' n' s'; cbn [fold_result concat].
  - intros [= -> -> ->]. split; [done|]. rewrite app_nil_r. split; [done|]. change (len []) with 0. lia.
  - unfold verify_block at 1. destruct (or_corrupt (checked _ _ _) _) as [amount|] eqn:Ea; [|done].
    apply ok_or_Ok, checked_Some in Ea as [-> _].
    destruct (or_corrupt (checked_add_i64 _ _) _) as [n1|] eqn:En; [|done]. apply ok_or_Ok, checked_Some in En as [-> _].
    destruct (emit s b) as [s1|]; [|done]. intros (Hf & -> & ->)%IH. split; [done|].
    rewrite app_assoc, len_app. split; [done|lia].
Qed.

Lemma stream_verified_Ok {S} (emit : S -> bytes -> result HashError S) id s s' n :
  stream_verified_blob st emit id s = Ok (s', n) ->
  exists blocks, fold_result emit s blocks = Ok s' /\ sha256 (concat blocks) = id /\ len (concat blocks) = n.
Proof.
  unfold stream_verified_blob. intros (meta & _ & Hr)%Ok_bind. apply Ok_bind in Hr as ([[m e] s1] & Hs & Hr).
  destruct (Z.eqb_spec e (m_size meta)) as [_|]; simpl in Hr; [|done].
  destruct (decide (sha256 m = id)) as [Ei|Ei]; rewrite ?(bool_decide_eq_true_2 _ Ei), ?(bool_decide_eq_false_2 _ Ei) in Hr;
    simpl in Hr; [|done]. injection Hr as -> ->.
  apply stream_fed in Hs as (blocks & Hb). apply verify_blocks in Hb as (Hf & -> & ->). by exists blocks.
Qed.

(** Absorbing blocks. *)
Lemma update_blocks blocks : forall d d', fold_result Digests_update d blocks = Ok d' ->
  d_sha256 d' = d_sha256 d ++ concat blocks /\ d_md5 d' = d_md5 d ++ concat blocks /\
  d_total_size d' = d_total_size d + len (concat blocks).
Proof.
  induction blocks as [|b blocks IH]; intros d d'; cbn [fold_result concat].
  - intros [= ->]. rewrite !app_nil_r. change (len []) with 0. split_and!; [done|done|lia].
  - destruct (Digests_update d b) as [d1|] eqn:E; [|done]. intros (E1 & E2 & E3)%IH. unfold Digests_update in E.
    apply Ok_bind in E as (amount & Ha%ok_or_Ok & E). apply checked_Some in Ha as [-> _].
    apply Ok_bind in E as (total & Ht%ok_or_Ok & [= <-]). apply checked_Some in Ht as [-> _]. simpl in *.
    rewrite E1, E2, E3, len_app, <- !app_assoc. split_and!; [done|done|lia].
Qed.

Lemma absorb_blocks blocks : forall m m', fold_result absorb m blocks = Ok m' -> m' = m ++ concat blocks.
Proof.
  induction blocks as [|b blocks IH]; intros m m'; cbn [fold_result concat]; [intros [= ->]; by rewrite app_nil_r|].
  unfold absorb at 1. intros ->%IH. by rewrite <- app_assoc.
Qed.

(** A staged chunk and its contents. *)
Definition chunk_is (upload_id : bytes) (part_number seq : Z) (c : bytes) : Prop :=
  exists row, upload_chunk_row st upload_id part_number seq = Some row /\ sha256 c = uc_blob row /\ len c = uc_size row.

Lemma hash_upload_chunks upload_id part l : forall d d', fold_result (hash_upload_chunk st upload_id part) d l = Ok d' ->
  exists cs, Forall2 (chunk_is upload_id part) l cs /\ d_sha256 d' = d_sha256 d ++ concat cs /\
    d_md5 d' = d_md5 d ++ concat cs /\ d_total_size d' = d_total_size d + len (concat cs).
Proof.
  induction l as [|i l IH]; intros d d'; cbn [fold_result].
  - intros [= ->]. exists []. cbn [concat]. rewrite !app_nil_r. change (len []) with 0. split_and!; [constructor|done|done|lia].
  - destruct (hash_upload_chunk st upload_id part d i) as [d1|] eqn:E; [|done]. intros (cs & Hcs & E1 & E2 & E3)%IH.
    unfold hash_upload_chunk in E. apply Ok_bind in E as (seq & Hseq%ok_or_Ok & E). apply checked_Some in Hseq as [-> _].
    apply Ok_bind in E as ([blob size] & Hrow & E). apply Ok_bind in E as ([d2 actual] & Hs & E).
    destruct (Z.eqb_spec actual size) as [->|]; simpl in E; [|done]. injection E as ->.
    apply stream_verified_Ok in Hs as (blocks & Hb & Hsha & Hlen). apply update_blocks in Hb as (U1 & U2 & U3).
    exists (concat blocks :: cs). split; [|cbn [concat]; rewrite E1, E2, E3, U1, U2, U3, len_app, <- !app_assoc; split_and!; [done|done|lia]].
    constructor; [|done]. unfold load_upload_chunk in Hrow. apply Ok_bind in Hrow as (row & Hr%ok_or_Ok & Hrow).
    destruct (upload_chunk_row st upload_id part i) as [ur|] eqn:Eu; [|done]. injection Hr as <-.
    destruct (uc_size ur <? 0); [done|]. apply Ok_bind in Hrow as (id & Hid & [= -> <-]).
    unfold parse_blob_id in Hid. destruct (_ =? 32); [|done]. injection Hid as <-. by exists ur.
Qed.
End Verified.

(** * Theorems *)

Section Claims.
Context `{BodyHash} (st : Tables) (Hst : schema st).

(** The one-row aggregate check of a chunked blob is exact: for a blob that
    loads, [validate_chunk_layout] accepts precisely when the chunk numbers
    are all of 0, 1, ... up to the number of chunks its size needs, each once,
    and every chunk is full except that the last holds the rest. *)
Theorem chunk_layout_exact id meta n : load_blob st id = Ok meta ->
  validate_chunk_layout st meta = Ok n <-> n = chunk_count meta /\ chunked_layout st meta.
Proof.
  intros Hl. destruct (load_blob_Ok st Hst id meta Hl) as (r & _ & _ & _ & _ & Hs & _).
  by apply validate_chunk_layout_Ok.
Qed.

Lemma range_streamed_blocks {S} (emit : S -> bytes -> result HashError S) depth id c start length s :
  content st depth id = Some c -> (depth <= MAX_BLOB_DEPTH)%nat -> 0 <= start -> 0 <= length -> start + length <= len c ->
  exists blocks, bounded_blocks blocks (take (Z.to_nat length) (drop (Z.to_nat start) c)) /\
    stream_range st emit id start length s = fold_result emit s blocks.
Proof.
  intros Hc Hd Hs Hl Hsl. destruct (content_least _ _ _ _ Hc) as (d & Hn & Hc' & Hle).
  destruct (stream_emits st Hst emit d (MAX_BLOB_DEPTH + 1) [] id c start length) as (blocks & Hb & Hf);
    try done; [by intros p ?%elem_of_nil|simpl; lia|lia|].
  exists blocks. split; [|apply Hf]. replace (take _ (drop _ c)) with (window 0 start (start + length) c); [done|].
  unfold window. rewrite take_drop_commute. f_equal; [lia|]. f_equal. lia.
Qed.

(** C14: A range of a blob is read exactly: for a blob whose contents exist
    within 64 levels of nesting, inline, chunked or composed of extents of
    other blobs, reading [length] bytes from [start] succeeds whenever the
    consumer does, and hands it exactly those bytes in order, in blocks that
    are not empty and at most 1 MiB long.  No cycle or depth error arises. *)
Theorem range_streamed {S} (emit : S -> bytes -> result HashError S) depth id c start length s :
  content st depth id = Some c -> (depth <= MAX_BLOB_DEPTH)%nat -> 0 <= start -> 0 <= length -> start + length <= len c ->
  exists blocks, concat blocks = take (Z.to_nat length) (drop (Z.to_nat start) c) /\
    Forall (fun b => 0 < len b <= READ_BLOCK_BYTES) blocks /\
    stream_range st emit id start length s = fold_result emit s blocks.
Proof.
  intros Hc Hd Hs Hl Hsl. destruct (range_streamed_blocks emit depth id c start length s Hc Hd Hs Hl Hsl) as (blocks & [Hb1 Hb2] & Hr).
  by exists blocks.
Qed.

(** C13: The hashes of an upload part are those of its staged chunks: when
    [hash_upload_part] answers, the chunk numbers of the part are dense from
    zero, a multipart part has a chunk, and there are contents, one for each
    chunk in order, whose SHA-256 is the chunk's blob id and whose length is
    its recorded size, such that the SHA-256, MD5 and size returned are those
    of their concatenation, and the size is also the sum of the recorded ones. *)
Theorem upload_part_hash upload part sha tag total : hash_upload_part st upload part = Ok (sha, tag, total) ->
  let rows := upload_chunk_rows st upload part in
  0 <= part <= 10000 /\ (0 < part -> rows <> []) /\ map uc_seq rows ≡ₚ seqZ 0 (len rows) /\
  exists cs, Forall2 (chunk_is st upload part) (seqZ 0 (len rows)) cs /\
    sha = sha256 (concat cs) /\ tag = hex_lower (md5 (concat cs)) /\ total = len (concat cs) /\
    total = sum (map uc_size rows).
Proof.
  unfold hash_upload_part. destruct (negb _) eqn:Ep; [done|].
  apply negb_false_iff, andb_true_iff in Ep as [P1%Z.leb_le P2%Z.leb_le].
  intros ([multipart state] & _ & Hr)%Ok_bind. destruct (eqb _ _); [done|].
  apply Ok_bind in Hr as (stats & Hs & Hr). unfold upload_layout, aggregate in Hs.
  set (rows := upload_chunk_rows st upload part) in *.
  destruct (checked i64_min i64_max (sum (map uc_size rows))) as [t|] eqn:Et; cbn [ok_or load_layout_stats] in Hs; [|done].
  apply checked_Some in Et as [-> _]. injection Hs as <-. cbn [l_count l_total_size] in Hr.
  destruct ((0 <? part) && _) eqn:Ec; [done|]. destruct (dense_layout_error _ _ _) eqn:Ed; [done|].
  apply (dense_layout_None (map uc_seq rows) (map uc_size rows) _ _ _ _ (upload_chunk_key _ Hst _ _) eq_refl) in Ed
    as (_ & Hp & _ & _ & _).
  assert (El : len (map uc_seq rows) = len rows) by (unfold len; by rewrite length_map). rewrite El in *.
  apply Ok_bind in Hr as (d & Hd & Hr). apply hash_upload_chunks in Hd as (cs & Hcs & E1 & E2 & E3).
  unfold Digests_finish in Hr. rewrite E1, E2, E3 in Hr. cbn [d_sha256 d_md5 d_total_size Digests_new app] in Hr.
  destruct (Z.eqb_spec (0 + len (concat cs)) (sum (map uc_size rows))) as [Esum|]; [|done]. injection Hr as <- <- <-.
  split; [lia|]. split.
  { intros Hpos Hnil. rewrite Hnil in Ec. apply andb_false_iff in Ec as [Ec%Z.ltb_ge|Ec%Z.eqb_neq]; [lia|done]. }
  split; [done|]. exists cs. split_and!; try done.
Qed.

(** Blocks through a verifier that has room. *)
Lemma verify_absorb blocks : forall m n a, 0 <= n -> n + len (concat blocks) <= i64_max ->
  fold_result (verify_block absorb) (m, n, a) blocks = Ok (m ++ concat blocks, n + len (concat blocks), a ++ concat blocks).
Proof.
  induction blocks as [|b blocks IH]; intros m n a Hn Hmax; cbn [fold_result concat] in *.
  - rewrite !app_nil_r. change (len []) with 0. by rewrite Z.add_0_r.
  - rewrite len_app in *. pose proof (len_nonneg b). pose proof (len_nonneg (concat blocks)). unfold verify_block at 1.
    rewrite checked_in by (unfold i64_min; lia). cbn [or_corrupt ok_or].
    unfold checked_add_i64. rewrite checked_in by (unfold i64_min; lia). cbn [or_corrupt ok_or absorb].
    rewrite IH by lia. by rewrite !app_assoc, Z.add_assoc.
Qed.

(** C15: Incremental hashing agrees with hashing at once: for a sequence of
    blobs whose contents exist within 64 levels and match their ids, with a
    total size that fits a bigint, [hash_blob_sequence] answers with the
    SHA-256 and the size of the concatenated contents. *)
Theorem blob_sequence_hash ids cs :
  Forall2 (fun id c => content st MAX_BLOB_DEPTH id = Some c /\ sha256 c = id) ids cs -> len (concat cs) <= i64_max ->
  hash_blob_sequence st (map Some ids) = Ok (sha256 (concat cs), len (concat cs)).
Proof.
  intros Hc Hmax. unfold hash_blob_sequence.
  assert (Ht : traverse (fun raw => let* raw := ok_or raw (Invalid (bs "blob ID arrays cannot contain NULL")) in
    parse_blob_id raw) (map Some ids) = Ok ids).
  { clear Hmax. induction Hc as [|id c ids cs [_ Hs] _ IH]; [done|]. cbn [map traverse ok_or]. unfold parse_blob_id at 1.
    replace (len id) with 32 by (rewrite <- Hs; unfold len; by rewrite sha256_length). change (32 =? 32) with true. by rewrite IH. }
  rewrite Ht.
  assert (Hf : forall a n, 0 <= n -> n + len (concat cs) <= i64_max ->
    fold_result (hash_blob st) (a, n) ids = Ok (a ++ concat cs, n + len (concat cs))).
  { clear Ht Hmax. induction Hc as [|id c ids cs [Hc Hs] _ IH]; intros a n Hn Hmax; cbn [fold_result concat] in *.
    - change (len []) with 0. by rewrite app_nil_r, Z.add_0_r.
    - rewrite len_app in *. pose proof (len_nonneg c) as L1. pose proof (len_nonneg (concat cs)) as L2.
      destruct (content_load _ _ _ _ Hc) as (meta & Em). pose proof (content_length st Hst _ _ _ _ Hc Em) as Hlen.
      destruct (range_streamed_blocks (verify_block absorb) MAX_BLOB_DEPTH id c 0 (m_size meta) ([], 0, a))
        as (blocks & [Hb _] & Hr); [done|lia|lia|lia|lia|].
      unfold hash_blob at 1. unfold stream_verified_blob. rewrite Em, Hr.
      replace (take (Z.to_nat (m_size meta)) (drop (Z.to_nat 0) c)) with c in Hb
        by (rewrite drop_0, take_ge by (unfold len in *; lia); done).
      rewrite verify_absorb by (rewrite ?Hb; lia). rewrite Hb. cbn [app].
      rewrite Hlen, Z.eqb_refl. cbn [negb]. rewrite bool_decide_eq_true_2 by done. cbn [negb].
      unfold checked_add_i64. rewrite checked_in by (unfold i64_min; lia). cbn [or_corrupt ok_or].
      rewrite IH by lia. rewrite <- app_assoc. do 2 f_equal. lia. }
  rewrite Hf by (done || lia). done.
Qed.
End Claims.

(** * Examples *)

#[local] Existing Instance sample_hash.

Lemma filter_key {A} (key : A -> Z) (f : A -> bool) rows : NoDup (map key rows) -> NoDup (map key (List.filter f rows)).
Proof.
  induction rows as [|r rows IH]; [done|]. intros [Hr Hn]%NoDup_cons. simpl. destruct (f r); [|by apply IH].
  simpl. constructor; [|by apply IH]. intros Hin. apply Hr. apply list_elem_of_fmap in Hin as (x & -> & Hx).
  apply list_elem_of_fmap_2. apply list_elem_of_In. apply list_elem_of_In in Hx. by apply filter_In in Hx as [Hx _].
Qed.

(** An inline blob, a blob of two chunks, and a blob of the end of the first
    and the start of the second; a part of two chunks. *)
Definition inline_id : bytes := Eval vm_compute in sample_digest (bs "hello").
Definition chunked_id : bytes := Eval vm_compute in sample_digest (bs "worlds").
Definition composite_id : bytes := Eval vm_compute in sample_digest (bs "lowor").

Definition sample_tables : Tables := {|
  blobs := [
    {| b_sha256 := inline_id; b_size := 5; b_chunk_size := 4; b_kind := bs "inline"; b_inline := Some (bs "hello") |};
    {| b_sha256 := chunked_id; b_size := 6; b_chunk_size := 4; b_kind := bs "chunked"; b_inline := None |};
    {| b_sha256 := composite_id; b_size := 5; b_chunk_size := 4; b_kind := bs "composite"; b_inline := None |}];
  chunks := [
    {| c_blob := chunked_id; c_seq := 1; c_data := bs "ds" |};
    {| c_blob := chunked_id; c_seq := 0; c_data := bs "worl" |}];
  extents := [
    {| x_final := composite_id; x_seq := 1; x_logical := 2; x_source := chunked_id; x_offset := 0; x_length := 3 |};
    {| x_final := composite_id; x_seq := 0; x_logical := 0; x_source := inline_id; x_offset := 3; x_length := 2 |}];
  uploads := [{| u_id := bs "upload"; u_multipart := true; u_state := bs "pending" |}];
  upload_chunks := [
    {| uc_upload := bs "upload"; uc_part := 1; uc_seq := 0; uc_blob := inline_id; uc_size := 5 |};
    {| uc_upload := bs "upload"; uc_part := 1; uc_seq := 1; uc_blob := chunked_id; uc_size := 6 |}]
|}.

Lemma sample_schema : schema sample_tables.
Proof.
  constructor.
  - intros id. apply filter_key. apply (bool_decide_unpack _). vm_compute. exact I.
  - intros id. apply filter_key. apply (bool_decide_unpack _). vm_compute. exact I.
  - intros id part. apply filter_key. apply (bool_decide_unpack _). vm_compute. exact I.
  - intros r Hr. repeat (apply elem_of_cons in Hr as [->|Hr]; [vm_compute; by split|]). by apply elem_of_nil in Hr.
  - intros r Hr. repeat (apply elem_of_cons in Hr as [->|Hr]; [vm_compute; by split|]). by apply elem_of_nil in Hr.
  - intros r Hr. repeat (apply elem_of_cons in Hr as [->|Hr]; [vm_compute; repeat split; discriminate|]). by apply elem_of_nil in Hr.
Qed.

Lemma chunk_layout_exact_witness : exists meta, load_blob sample_tables chunked_id = Ok meta /\ chunked_layout sample_tables meta.
Proof.
  eexists. split; [vm_compute; reflexivity|].
  apply (proj1 (chunk_layout_exact sample_tables sample_schema chunked_id _ 2 eq_refl)). vm_compute. reflexivity.
Defined.

Lemma range_streamed_witness : exists blocks, concat blocks = bs "owo" /\
  stream_range sample_tables absorb composite_id 1 3 [] = fold_result absorb [] blocks.
Proof.
  destruct (range_streamed sample_tables sample_schema absorb 2 composite_id (bs "lowor") 1 3 [])
    as (blocks & Hb & _ & Hr); [vm_compute; reflexivity|unfold MAX_BLOB_DEPTH; lia|lia|lia|vm_compute; discriminate|].
  exists blocks. split; [exact Hb|exact Hr].
Defined.

Lemma upload_part_hash_witness : exists sha tag total,
  hash_upload_part sample_tables (bs "upload") 1 = Ok (sha, tag, total) /\
  exists cs, Forall2 (chunk_is sample_tables (bs "upload") 1) (seqZ 0 2) cs /\ sha = sha256 (concat cs).
Proof.
  eexists _, _, _. split; [vm_compute; reflexivity|].
  edestruct (upload_part_hash sample_tables sample_schema (bs "upload") 1) as (_ & _ & _ & cs & Hcs & Hs & _);
    [vm_compute; reflexivity|]. exists cs. split; [exact Hcs|exact Hs].
Defined.

Lemma blob_sequence_hash_witness :
  hash_blob_sequence sample_tables (map Some [composite_id; inline_id])
  = Ok (sha256 (bs "loworhello"), 10).
Proof.
  apply (blob_sequence_hash sample_tables sample_schema [composite_id; inline_id] [bs "lowor"; bs "hello"]).
  - repeat constructor.
  - vm_compute. discriminate.
Defined.
