(* ===== verification/Host.v ===== *)
(** What the background workers ask of PostgreSQL and of the operating system,
    as effects; the probes of [src/src/workers/mod.rs] and the writes of a
    worker's state and metrics. *)
From stdpp Require Import gmap.
From S2P Require Import Prelude Text Effects Metrics.
From S2P Require Reactor.

#[local] Abbreviation Accepted := Reactor.Accepted.

(** The statements on [pgs3.worker_state]. *)
Inductive Sql :=
| ClaimLauncher (pid : Z) (mode : bytes) (desired : bool)
| HeartbeatLauncher (pid : Z) (status : bytes)
| StaticDesired (pid : Z) (enabled : bool)
| LauncherStopped (pid : Z)
| ChildStarting (kind : bytes) (slot pid launcher_pid : Z)
| ChildError (kind : bytes) (slot launcher_pid : Z) (message : bytes)
| ChildStopped (kind : bytes) (slot launcher_pid : Z) (desired : bool)
| SetLauncherDesired (pid : Z) (mode : bytes) (desired : bool)
| ChildrenStopped
| PoolStopped (pid : option Z) (mode : option bytes)
| WorkerSetState (kind : bytes) (slot launcher_pid : Z) (status : bytes) (listen_addr : option bytes) (port : option Z)
    (error : option bytes)
| WorkerAddMetric (kind : bytes) (slot : Z) (operation : bytes) (delta : MetricDelta).

(** A registration: the function it runs and the argument it gets. *)
Record Builder := { b_name : bytes; b_type : bytes; b_function : bytes; b_database : bytes; b_argument : Z }.

(** Handles are numbered by the host. *)
(** [SockAddrIn] and [SockAddrIn6], less the fields that are zero; the port is
    in network order. *)
Record SockAddr := { sa_family : Z; sa_port : list Z; sa_address : list Z }.

#[export] Instance SockAddr_eq_decision : EqDecision SockAddr.
Proof. solve_decision. Defined.

(** A statement answers with the value it returns, or [None] when it fails or
    returns no row; one that returns nothing answers [Some true] on success.
    A wait answers with the events of the first one that occurred. *)
Inductive Host : Type -> Type :=
| LoadDynamic (builder : Builder) : Host (option Z)
| WaitForStartup (handle : Z) : Host (result bytes Z)
| HandleAlive (handle : Z) : Host bool
| TerminateAndWait (handle : Z) : Host bool
| Statement (sql : Sql) : Host (option bool)
| TerminateBackends (timeout : Z) : Host bool
| TerminatePid (pid timeout : Z) : Host bool
| CurrentDatabase : Host (option bytes)
| ControlLock : Host bool
| ConflictingDatabase : Host (option bytes)
| ActiveLauncher : Host (option (Z * option bytes))
| RuntimeIsWritable : Host bool
| RuntimeSchemaReady : Host bool
| ServerRoleReady (role : bytes) : Host bool
| ServerRole : Host bytes
| Enabled : Host bool
| Workers : Host Z
| SighupReceived : Host bool
| ReloadConfiguration : Host unit
| WaitLatch : Host bool
| SigtermReceived : Host bool
| GcPendingUploads : Host (option Z)
| GcBlobs : Host (option Z)
| Now : Host Z
| ConnectAsService (database role : bytes) : Host unit
| ListenAddr : Host bytes
| Port : Host Z
| InlineThreshold : Host Z
| ChunkSize : Host Z
| CSocket (family : Z) : Host Z
| CSetsockopt (fd level name : Z) : Host Z
| CBind (fd : Z) (address : SockAddr) : Host Z
| CListen (fd backlog : Z) : Host Z
| CClose (fd : Z) : Host unit
| SetNonblocking (fd : Z) : Host bool
| LastOsError : Host bytes
| Accepts (fd : Z) : Host (list Accepted)
| WaitEvents (listener : Z) (connections : list Z) : Host (option Z).

Abbreviation Do := (Eff Host).

Section Host.
Context `{Answers Host}.

Definition runtime_is_writable : Do bool := ask RuntimeIsWritable.
Definition runtime_schema_ready : Do bool := ask RuntimeSchemaReady.
Definition server_role_ready (role : bytes) : Do bool := ask (ServerRoleReady role).
Definition sighup_received : Do bool := ask SighupReceived.
Definition sigterm_received : Do bool := ask SigtermReceived.
Definition wait_latch : Do bool := ask WaitLatch.
Definition enabled : Do bool := ask Enabled.
Definition now : Do Z := ask Now.

(** [handle.pid().is_ok()] *)
Definition is_alive (handle : Z) : Do bool := ask (HandleAlive handle).

Record WorkerState := {
  ws_kind : bytes; ws_slot : Z; ws_launcher_pid : Z; ws_status : bytes;
  ws_listen_addr : option bytes; ws_port : option Z; ws_error : option bytes
}.

Definition set_worker_state (state : WorkerState) : Do bool :=
  let! writable := runtime_is_writable in
  if negb writable then ret true
  else
    let! done := ask (Statement (WorkerSetState (ws_kind state) (ws_slot state) (ws_launcher_pid state)
                        (ws_status state) (ws_listen_addr state) (ws_port state) (ws_error state))) in
    ret (match done with Some _ => true | None => false end).

Definition add_worker_metric (kind : bytes) (slot : Z) (operation : bytes) (delta : MetricDelta) : Do bool :=
  if MetricDelta_is_empty delta then ret true
  else
    let! writable := runtime_is_writable in
    if negb writable then ret true
    else
      let! done := ask (Statement (WorkerAddMetric kind slot operation delta)) in
      ret (match done with Some _ => true | None => false end).
End Host.

(** A monitor that ignores the recovery probe and the state of workers. *)
Section Steady.
Context `{Answers Host} {S : Type} (step : S -> Interaction Host -> option S) (s : S).
Hypothesis probe_steady : forall a, step s (Happens RuntimeIsWritable a) = Some s.

Lemma set_worker_state_steady state :
  (forall kind slot launcher_pid status listen_addr port error a,
    step s (Happens (Statement (WorkerSetState kind slot launcher_pid status listen_addr port error)) a) = Some s) ->
  obeys step s (set_worker_state state) (fun s' _ => s' = s).
Proof.
  intros Hs. eapply obeys_bind; [by apply obeys_steady|]. intros ? [] ->; simpl; [|by apply obeys_ret].
  eapply obeys_bind; [by apply obeys_steady|]. intros ? ? ->. by apply obeys_ret.
Qed.

Lemma add_worker_metric_steady kind slot operation delta :
  (forall a, step s (Happens (Statement (WorkerAddMetric kind slot operation delta)) a) = Some s) ->
  obeys step s (add_worker_metric kind slot operation delta) (fun s' _ => s' = s).
Proof.
  intros Hs. unfold add_worker_metric. destruct (MetricDelta_is_empty delta); [by apply obeys_ret|].
  eapply obeys_bind; [by apply obeys_steady|]. intros ? [] ->; simpl; [|by apply obeys_ret].
  eapply obeys_bind; [by apply obeys_steady|]. intros ? ? ->. by apply obeys_ret.
Qed.
End Steady.
