(* ===== verification/Launcher.v ===== *)
(** The worker pool, from [src/src/workers/launcher.rs], [gc.rs] and the
    runtime probes of [mod.rs]: the launcher's loop, its reconciliation of the
    pool with the configuration, the control functions and the
    garbage-collection worker.

    What the processes ask of PostgreSQL are the effects of [Host]; the
    statements on [pgs3.worker_state] are also executed, by [execute], over a
    table.  Log messages and timestamps are left out.

    The theorems: reconciliation leaves one worker for each configured slot; at
    its exit the launcher has ended every child it started; on a standby
    nothing is written and no garbage collector runs; and at most one launcher
    owns the state row. *)
From stdpp Require Import gmap gmultiset.
From S2P Require Import Prelude Text Effects Metrics Host.

(** * Modes *)

Inductive LauncherMode := Static | Dynamic.

#[export] Instance LauncherMode_eq_decision : EqDecision LauncherMode.
Proof. solve_decision. Defined.

Definition from_argument (argument : Z) : LauncherMode := if argument =? 1 then Dynamic else Static.
Definition mode_str (mode : LauncherMode) : bytes := match mode with Static => bs "static" | Dynamic => bs "dynamic" end.

(** * The pool *)

Record ManagedWorker := { w_kind : bytes; w_slot : Z; w_pid : Z; w_handle : Z }.

Record WorkerPool := {
  p_database : bytes;
  p_launcher_pid : Z;
  p_http : list ManagedWorker;
  p_gc : option ManagedWorker;
  p_server_role : bytes
}.

Definition set_http (http : list ManagedWorker) (p : WorkerPool) : WorkerPool :=
  {| p_database := p_database p; p_launcher_pid := p_launcher_pid p; p_http := http; p_gc := p_gc p;
     p_server_role := p_server_role p |}.
Definition set_gc (gc : option ManagedWorker) (p : WorkerPool) : WorkerPool :=
  {| p_database := p_database p; p_launcher_pid := p_launcher_pid p; p_http := p_http p; p_gc := gc;
     p_server_role := p_server_role p |}.
Definition set_role (role : bytes) (p : WorkerPool) : WorkerPool :=
  {| p_database := p_database p; p_launcher_pid := p_launcher_pid p; p_http := p_http p; p_gc := p_gc p;
     p_server_role := role |}.

(** [chars().take(n)] on the UTF-8 bytes of a string: a continuation byte
    belongs to the character before it. *)
Fixpoint take_chars (n : nat) (text : bytes) : bytes :=
  match text with
  | [] => []
  | b :: text' =>
      if is_continuation b then b :: take_chars n text'
      else match n with O => [] | S n' => b :: take_chars n' text' end
  end.

Definition truncated (message : bytes) : bytes := take_chars 1024 message.

Section Pool.
Context `{Answers Host}.

(** The records of children are written only when the runtime is writable. *)
Definition record (sql : Sql) : Do unit :=
  let! writable := runtime_is_writable in
  if negb writable then ret tt
  else let! _ := ask (Statement sql) in ret tt.

Definition record_child_starting (kind : bytes) (slot pid launcher_pid : Z) : Do unit :=
  record (ChildStarting kind slot pid launcher_pid).
Definition record_child_error (kind : bytes) (slot launcher_pid : Z) (message : bytes) : Do unit :=
  record (ChildError kind slot launcher_pid (truncated message)).
Definition record_child_stopped (kind : bytes) (slot launcher_pid : Z) (desired : bool) : Do unit :=
  record (ChildStopped kind slot launcher_pid desired).

Definition child_builder (name worker_type function database : bytes) (launcher_pid slot : Z) : Builder :=
  {| b_name := name; b_type := worker_type; b_function := function; b_database := database;
     b_argument := pack_child_argument launcher_pid slot |}.

Definition spawn_child (builder : Builder) (kind : bytes) (launcher_pid slot : Z) : Do (option ManagedWorker) :=
  let! loaded := ask (LoadDynamic builder) in
  match loaded with
  | None =>
      let! _ := record_child_error kind slot launcher_pid (bs "dynamic worker registration failed") in ret None
  | Some worker =>
      let! started := ask (WaitForStartup worker) in
      match started with
      | Ok pid =>
          let! _ := record_child_starting kind slot pid launcher_pid in
          ret (Some {| w_kind := kind; w_slot := slot; w_pid := pid; w_handle := worker |})
      | Err status =>
          let! _ := record_child_error kind slot launcher_pid (bs "dynamic worker startup failed: " ++ status) in
          ret None
      end
  end.

Definition spawn_http (database : bytes) (launcher_pid slot : Z) : Do (option ManagedWorker) :=
  spawn_child (child_builder (bs "pgs3 http " ++ show_Z slot) (bs "pgs3 http") (bs "pgs3_http_main") database launcher_pid slot)
    (bs "http") launcher_pid slot.

Definition spawn_gc (database : bytes) (launcher_pid : Z) : Do (option ManagedWorker) :=
  spawn_child (child_builder (bs "pgs3 gc 0") (bs "pgs3 gc") (bs "pgs3_gc_main") database launcher_pid 0)
    (bs "gc") launcher_pid 0.

Definition stop_managed (worker : ManagedWorker) (launcher_pid : Z) (desired_after_stop : bool) : Do unit :=
  let! _ := ask (TerminateAndWait (w_handle worker)) in
  record_child_stopped (w_kind worker) (w_slot worker) launcher_pid desired_after_stop.

(** [drain(..)] *)
Fixpoint stop_each (workers : list ManagedWorker) (launcher_pid : Z) (desired_after_stop : bool) : Do unit :=
  match workers with
  | [] => ret tt
  | w :: workers =>
      let! _ := stop_managed w launcher_pid desired_after_stop in
      stop_each workers launcher_pid desired_after_stop
  end.

Definition stop_http (desired_after_stop : bool) (p : WorkerPool) : Do WorkerPool :=
  let! _ := stop_each (p_http p) (p_launcher_pid p) desired_after_stop in
  ret (set_http [] p).

Definition stop_all (p : WorkerPool) : Do WorkerPool :=
  let! p := stop_http false p in
  match p_gc p with
  | Some worker => let! _ := stop_managed worker (p_launcher_pid p) false in ret (set_gc None p)
  | None => ret p
  end.

(** The loop over the HTTP workers: the index advances or the list shrinks. *)
Fixpoint remove_stopped_http (fuel index : nat) (launcher_pid : Z) (http : list ManagedWorker) : Do (list ManagedWorker) :=
  match fuel with
  | O => ret http
  | S fuel =>
      match http !! index with
      | None => ret http
      | Some w =>
          let! alive := is_alive (w_handle w) in
          if alive then remove_stopped_http fuel (S index) launcher_pid http
          else
            let! _ := record_child_error (bs "http") (w_slot w) launcher_pid
                        (bs "HTTP worker exited; launcher will replace it") in
            remove_stopped_http fuel index launcher_pid (swap_remove index http)
      end
  end.

Definition remove_stopped (p : WorkerPool) : Do WorkerPool :=
  let! http := remove_stopped_http (length (p_http p)) 0 (p_launcher_pid p) (p_http p) in
  let p := set_http http p in
  match p_gc p with
  | None => ret p
  | Some worker =>
      let! alive := is_alive (w_handle worker) in
      if alive then ret p
      else
        let! _ := record_child_error (bs "gc") (w_slot worker) (p_launcher_pid p)
                    (bs "GC worker exited; launcher will replace it") in
        ret (set_gc None p)
  end.

(** Workers of slots that are no longer wanted. *)
Definition surplus (desired_http : Z) (w : ManagedWorker) : bool := (w_slot w <? 0) || (desired_http <=? w_slot w).

Fixpoint stop_surplus (fuel : nat) (desired_http launcher_pid : Z) (http : list ManagedWorker) : Do (list ManagedWorker) :=
  match fuel with
  | O => ret http
  | S fuel =>
      match position (surplus desired_http) http with
      | None => ret http
      | Some index =>
          match http !! index with
          | None => ret http
          | Some worker =>
              let! _ := stop_managed worker launcher_pid false in
              stop_surplus fuel desired_http launcher_pid (swap_remove index http)
          end
      end
  end.

Definition role_message (role : bytes) : bytes :=
  bs "pgs3.server_role " ++ role ++ bs " is missing, privileged, or lacks runtime grants".

Fixpoint record_errors (slots : list Z) (launcher_pid : Z) (message : bytes) : Do unit :=
  match slots with
  | [] => ret tt
  | slot :: slots =>
      let! _ := record_child_error (bs "http") (as_i32 slot) launcher_pid message in
      record_errors slots launcher_pid message
  end.

Fixpoint spawn_missing (slots : list Z) (database : bytes) (launcher_pid : Z) (http : list ManagedWorker)
  : Do (list ManagedWorker) :=
  match slots with
  | [] => ret http
  | slot :: slots =>
      if existsb (fun w => w_slot w =? as_i32 slot) http then spawn_missing slots database launcher_pid http
      else
        let! spawned := spawn_http database launcher_pid (as_i32 slot) in
        match spawned with
        | Some worker => spawn_missing slots database launcher_pid (http ++ [worker])
        | None => spawn_missing slots database launcher_pid http
        end
  end.

Definition reconcile (desired_http : Z) (writable : bool) (p : WorkerPool) : Do WorkerPool :=
  let! p := remove_stopped p in
  let! configured_role := ask ServerRole in
  let! p :=
    (if negb (configured_role ==b p_server_role p) then
       let! p := stop_http true p in ret (set_role configured_role p)
     else ret p) in
  let! http := stop_surplus (length (p_http p)) desired_http (p_launcher_pid p) (p_http p) in
  let p := set_http http p in
  let! ready := server_role_ready (p_server_role p) in
  let! p :=
    (if negb ready then
       let! p := stop_http true p in
       let! _ := record_errors (seqZ 0 desired_http) (p_launcher_pid p) (role_message (p_server_role p)) in
       ret p
     else
       let! http := spawn_missing (seqZ 0 desired_http) (p_database p) (p_launcher_pid p) (p_http p) in
       ret (set_http http p)) in
  if writable then
    match p_gc p with
    | None => let! gc := spawn_gc (p_database p) (p_launcher_pid p) in ret (set_gc gc p)
    | Some _ => ret p
    end
  else
    match p_gc p with
    | Some worker => let! _ := stop_managed worker (p_launcher_pid p) false in ret (set_gc None p)
    | None => ret p
    end.

(** * The launcher's loop *)

Record Launcher := {
  l_mode : LauncherMode;
  l_pid : Z;
  l_schema_ready : bool;
  l_state_owned : bool;
  l_desired : bool;
  l_pool : WorkerPool;
  l_next_reconcile : Z
}.

Definition set_schema_ready (l : Launcher) : Launcher :=
  {| l_mode := l_mode l; l_pid := l_pid l; l_schema_ready := true; l_state_owned := l_state_owned l;
     l_desired := l_desired l; l_pool := l_pool l; l_next_reconcile := l_next_reconcile l |}.
Definition set_owned (l : Launcher) : Launcher :=
  {| l_mode := l_mode l; l_pid := l_pid l; l_schema_ready := l_schema_ready l; l_state_owned := true;
     l_desired := l_desired l; l_pool := l_pool l; l_next_reconcile := l_next_reconcile l |}.
Definition set_desired (desired : bool) (l : Launcher) : Launcher :=
  {| l_mode := l_mode l; l_pid := l_pid l; l_schema_ready := l_schema_ready l; l_state_owned := l_state_owned l;
     l_desired := desired; l_pool := l_pool l; l_next_reconcile := l_next_reconcile l |}.
Definition set_pool (pool : WorkerPool) (l : Launcher) : Launcher :=
  {| l_mode := l_mode l; l_pid := l_pid l; l_schema_ready := l_schema_ready l; l_state_owned := l_state_owned l;
     l_desired := l_desired l; l_pool := pool; l_next_reconcile := l_next_reconcile l |}.
Definition set_next_reconcile (next : Z) (l : Launcher) : Launcher :=
  {| l_mode := l_mode l; l_pid := l_pid l; l_schema_ready := l_schema_ready l; l_state_owned := l_state_owned l;
     l_desired := l_desired l; l_pool := l_pool l; l_next_reconcile := next |}.

(** In nanoseconds, as [Now]. *)
Definition RECONCILE_INTERVAL : Z := 1000000000.

Definition new_pool (database : bytes) (launcher_pid : Z) : Do WorkerPool :=
  let! role := ask ServerRole in
  ret {| p_database := database; p_launcher_pid := launcher_pid; p_http := []; p_gc := None; p_server_role := role |}.

(** Only a warning depends on the answer. *)
Definition cleanup_orphan_children : Do unit :=
  let! _ := ask (TerminateBackends 2000) in ret tt.

Definition claim_launcher_state (mode : LauncherMode) (pid : Z) (desired : bool) : Do (option bool) :=
  ask (Statement (ClaimLauncher pid (mode_str mode) desired)).

Definition heartbeat_launcher (pid : Z) (status : bytes) : Do (option bool) :=
  ask (Statement (HeartbeatLauncher pid status)).

Definition set_static_desired_from_guc (pid : Z) : Do unit :=
  let! on := enabled in
  let! _ := ask (Statement (StaticDesired pid on)) in ret tt.

Definition mark_launcher_stopped (pid : Z) : Do unit :=
  let! _ := ask (Statement (LauncherStopped pid)) in ret tt.

(** On SIGHUP: [pgs3.enabled] decides for a static launcher. *)
Definition on_sighup (l : Launcher) : Do Launcher :=
  let! _ := ask ReloadConfiguration in
  let! l :=
    match l_mode l with
    | Static =>
        let! desired := enabled in
        let l := set_desired desired l in
        if l_state_owned l then
          let! writable := runtime_is_writable in
          if writable then let! _ := set_static_desired_from_guc (l_pid l) in ret l else ret l
        else ret l
    | Dynamic => ret l
    end in
  let! t := now in
  ret (set_next_reconcile t l).

(** The claim of the state row, once it can be written. *)
Definition take_ownership (writable : bool) (l : Launcher) : Do Launcher :=
  if writable && negb (l_state_owned l) then
    let! _ := cleanup_orphan_children in
    let! claimed := claim_launcher_state (l_mode l) (l_pid l) (l_desired l) in
    match claimed with
    | Some database_desired => ret (set_owned (set_desired database_desired l))
    | None => ret l
    end
  else ret l.

(** The heartbeat; [None] when the row belongs to another launcher. *)
Definition beat (writable : bool) (l : Launcher) : Do (option Launcher) :=
  if writable && l_state_owned l then
    let! answer := heartbeat_launcher (l_pid l) (bs "running") in
    match answer with
    | Some database_desired => ret (Some (set_desired database_desired l))
    | None => ret None
    end
  else ret (Some l).

(** The body under [Instant::now() >= next_reconcile]; [false] is [break]. *)
Definition reconcile_phase (l : Launcher) : Do (Launcher * bool) :=
  let! writable := runtime_is_writable in
  let! l := take_ownership writable l in
  let! kept := beat writable l in
  match kept with
  | None => ret (l, false)
  | Some l =>
      let! pool :=
        (if l_desired l then
           let! desired_http := ask Workers in reconcile desired_http writable (l_pool l)
         else stop_all (l_pool l)) in
      let! t := now in
      ret (set_next_reconcile (t + RECONCILE_INTERVAL) (set_pool pool l), true)
  end.

(** An iteration of the loop up to its wait. *)
Definition turn (l : Launcher) : Do (Launcher * bool) :=
  let! hup := sighup_received in
  let! l := (if hup then on_sighup l else ret l) in
  let! l :=
    (if l_schema_ready l then ret l
     else
       let! ready := runtime_schema_ready in
       if ready then let! t := now in ret (set_next_reconcile t (set_schema_ready l)) else ret l) in
  if l_schema_ready l then
    let! t := now in
    if l_next_reconcile l <=? t then reconcile_phase l else ret (l, true)
  else ret (l, true).

Definition iteration (l : Launcher) : Do (Launcher * bool) :=
  let! phase := turn l in
  let (l, go) := phase in
  if go then let! latch := wait_latch in ret (l, latch) else ret (l, false).

(** [None] when the loop has not left after [fuel] iterations. *)
Fixpoint launcher_loop (fuel : nat) (l : Launcher) : Do (option Launcher) :=
  match fuel with
  | O => ret None
  | S fuel =>
      let! next := iteration l in
      let (l, go) := next in
      if go then launcher_loop fuel l else ret (Some l)
  end.

Definition new_launcher (argument : Z) (database : bytes) (launcher_pid : Z) : Do Launcher :=
  let mode := from_argument argument in
  let! desired := (if decide (mode = Dynamic) then ret true else enabled) in
  let! pool := new_pool database launcher_pid in
  let! t := now in
  ret {| l_mode := mode; l_pid := launcher_pid; l_schema_ready := false; l_state_owned := false;
         l_desired := desired; l_pool := pool; l_next_reconcile := t |}.

Definition launcher_exit (l : Launcher) : Do unit :=
  let! _ := stop_all (l_pool l) in
  if l_state_owned l then
    let! writable := runtime_is_writable in
    if writable then mark_launcher_stopped (l_pid l) else ret tt
  else ret tt.

(** [true] when the process has come to its end. *)
Definition pgs3_launcher_main (fuel : nat) (argument : Z) (database : bytes) (launcher_pid : Z) : Do bool :=
  let! l := new_launcher argument database launcher_pid in
  let! outcome := launcher_loop fuel l in
  match outcome with
  | None => ret false
  | Some l => let! _ := launcher_exit l in ret true
  end.

(** * The garbage-collection worker *)

(** In nanoseconds. *)
Definition GC_INTERVAL : Z := 60 * 1000000000.
Definition HEARTBEAT_INTERVAL : Z := 1000000000.

(** One sweep and its metrics; [elapsed] is zero when the clock has not moved. *)
Definition sweep (collect : Do (option Z)) (slot : Z) (operation : bytes) : Do unit :=
  let! writable := runtime_is_writable in
  if negb writable then ret tt
  else
    let! started := now in
    let! collected := collect in
    let! finished := now in
    let failed := match collected with Some _ => false | None => true end in
    let delta := observe_completion default_delta failed 0 0 (Z.max 0 (finished - started)) in
    let! _ := add_worker_metric (bs "gc") slot operation delta in ret tt.

Definition run_pending_gc (slot : Z) : Do unit := sweep (ask GcPendingUploads) slot (bs "gc_pending_uploads").
Definition run_blob_gc (slot : Z) : Do unit := sweep (ask GcBlobs) slot (bs "gc_blobs").

Definition record_state (slot launcher_pid : Z) (status : bytes) (error : option bytes) : Do unit :=
  let! _ := set_worker_state {| ws_kind := bs "gc"; ws_slot := slot; ws_launcher_pid := launcher_pid;
               ws_status := status; ws_listen_addr := None; ws_port := None; ws_error := error |} in
  ret tt.

Definition gc_turn (launcher_pid slot next_gc next_heartbeat : Z) : Do (Z * Z) :=
  let! hup := sighup_received in
  let! _ := (if hup then ask ReloadConfiguration else ret tt) in
  let! t := now in
  let! next_gc :=
    (if next_gc <=? t then
       let! _ := record_state slot launcher_pid (bs "running") None in
       let! _ := run_pending_gc slot in
       let! _ := run_blob_gc slot in
       let! _ := record_state slot launcher_pid (bs "idle") None in
       let! t := now in ret (t + GC_INTERVAL)
     else ret next_gc) in
  let! next_heartbeat :=
    (if next_heartbeat <=? t then
       let! _ := record_state slot launcher_pid (bs "idle") None in
       let! t := now in ret (t + HEARTBEAT_INTERVAL)
     else ret next_heartbeat) in
  ret (next_gc, next_heartbeat).

Fixpoint gc_loop (fuel : nat) (launcher_pid slot next_gc next_heartbeat : Z) : Do bool :=
  match fuel with
  | O => ret false
  | S fuel =>
      let! next := gc_turn launcher_pid slot next_gc next_heartbeat in
      let (next_gc, next_heartbeat) := next in
      let! latch := wait_latch in
      if latch then gc_loop fuel launcher_pid slot next_gc next_heartbeat else ret true
  end.

(** [true] when the process has come to its end. *)
Definition pgs3_gc_main (fuel : nat) (argument : Z) : Do bool :=
  let (launcher_pid, slot) := unpack_child_argument argument in
  let! ready := runtime_schema_ready in
  if negb ready then ret true
  else
    let! _ := record_state slot launcher_pid (bs "idle") None in
    let! t := now in
    let! t' := now in
    let! outcome := gc_loop fuel launcher_pid slot (t + GC_INTERVAL) t' in
    if outcome then let! _ := record_state slot launcher_pid (bs "stopped") None in ret true else ret false.

(** * The control functions *)

Definition launcher_builder (database : bytes) (mode : LauncherMode) : Builder :=
  {| b_name := bs "pgs3 launcher"; b_type := bs "pgs3 launcher"; b_function := bs "pgs3_launcher_main";
     b_database := database; b_argument := match mode with Static => 0 | Dynamic => 1 end |}.

Definition is_ok (answer : option bool) : bool := match answer with Some _ => true | None => false end.

Definition control_lock : Do bool := ask ControlLock.
Definition terminate_live_children : Do bool := ask (TerminateBackends 4000).
Definition terminate_pid (pid timeout : Z) : Do bool := ask (TerminatePid pid timeout).

Definition set_existing_launcher_desired (pid : Z) (mode : bytes) (desired : bool) : Do bool :=
  let! answer := ask (Statement (SetLauncherDesired pid mode desired)) in ret (is_ok answer).

Definition mark_pool_stopped (launcher : option (Z * bytes)) : Do bool :=
  let! answer := ask (Statement ChildrenStopped) in
  if negb (is_ok answer) then ret false
  else
    let! answer := ask (Statement (PoolStopped (option_map fst launcher) (option_map snd launcher))) in
    ret (is_ok answer).

Definition start_dynamic : Do bool :=
  let! database := ask CurrentDatabase in
  match database with
  | None => ret false
  | Some database =>
      let! locked := control_lock in
      if negb locked then ret false
      else
        let! conflict := ask ConflictingDatabase in
        match conflict with
        | Some _ => ret false
        | None =>
            let! active := ask ActiveLauncher in
            match active with
            | Some (pid, mode) =>
                set_existing_launcher_desired pid (default (bs "static") mode) true
            | None =>
                let! loaded := ask (LoadDynamic (launcher_builder database Dynamic)) in
                match loaded with
                | None => ret false
                | Some worker =>
                    let! started := ask (WaitForStartup worker) in
                    ret (match started with Ok _ => true | Err _ => false end)
                end
            end
        end
  end.

Definition stop_dynamic : Do bool :=
  let! database := ask CurrentDatabase in
  match database with
  | None => ret false
  | Some _ =>
      let! locked := control_lock in
      if negb locked then ret false
      else
        let! launcher := ask ActiveLauncher in
        let! children_stopped := terminate_live_children in
        let! launcher_stopped :=
          match launcher with
          | Some (pid, Some mode) => if mode ==b mode_str Dynamic then terminate_pid pid 4000 else ret true
          | _ => ret true
          end in
        let! state_updated :=
          mark_pool_stopped
            (match launcher with Some (pid, Some mode) => Some (pid, mode) | _ => None end) in
        ret (children_stopped && launcher_stopped && state_updated)
  end.
End Pool.

(** * Properties: the events of the workers *)

(** What a run has shown so far: the children that run, by handle; the latest
    answers of the recovery and the role probes; the handles found alive. *)
Record Watch := { live : gmultiset Z; writable_seen : bool; role_seen : bool; confirmed : gset Z }.

Definition no_watch : Watch := {| live := ∅; writable_seen := false; role_seen := false; confirmed := ∅ |}.

Definition set_live (hs : gmultiset Z) (m : Watch) : Watch :=
  {| live := hs; writable_seen := writable_seen m; role_seen := role_seen m; confirmed := confirmed m |}.
Definition confirm (handle : Z) (m : Watch) : Watch :=
  {| live := live m; writable_seen := writable_seen m; role_seen := role_seen m;
     confirmed := {[handle]} ∪ confirmed m |}.
Definition set_writable_seen (b : bool) (m : Watch) : Watch :=
  {| live := live m; writable_seen := b; role_seen := role_seen m; confirmed := confirmed m |}.
Definition set_role_seen (b : bool) (m : Watch) : Watch :=
  {| live := live m; writable_seen := writable_seen m; role_seen := b; confirmed := confirmed m |}.

(** The policy: a write follows a recovery probe that said the server is
    writable; an HTTP worker is registered after the role was found ready; a
    handle is probed or terminated only while its child runs. *)
Definition policy (m : Watch) (e : Interaction Host) : option Watch :=
  match e with
  | Happens effect answer =>
      match effect in Host A return A -> option Watch with
      | LoadDynamic b => fun _ => if (b_function b ==b bs "pgs3_http_main") && negb (role_seen m) then None else Some m
      | WaitForStartup h => fun started =>
          match started with
          | Ok _ => Some (confirm h (set_live ({[+ h +]} ⊎ live m) m))
          | Err _ => Some m
          end
      | HandleAlive h => fun alive =>
          if decide (h ∈ live m) then
            Some (if (alive : bool) then confirm h m else set_live (live m ∖ {[+ h +]}) m)
          else None
      | TerminateAndWait h => fun _ =>
          if decide (h ∈ live m) then Some (set_live (live m ∖ {[+ h +]}) m) else None
      | Statement _ => fun _ => if writable_seen m then Some m else None
      | TerminateBackends _ => fun _ => if writable_seen m then Some m else None
      | GcPendingUploads => fun _ => if writable_seen m then Some m else None
      | GcBlobs => fun _ => if writable_seen m then Some m else None
      | RuntimeIsWritable => fun writable => Some (set_writable_seen writable m)
      | ServerRoleReady _ => fun ready => Some (set_role_seen ready m)
      | _ => fun _ => Some m
      end answer
  end.

(** The handles of workers. *)
Definition held (ws : list ManagedWorker) : gmultiset Z := list_to_set_disj (w_handle <$> ws).
Definition workers_of (p : WorkerPool) : list ManagedWorker := p_http p ++ option_list (p_gc p).

(** What no operation takes back. *)
Definition grows (m m' : Watch) : Prop := role_seen m' = role_seen m /\ confirmed m ⊆ confirmed m'.
Definition preserves (m m' : Watch) : Prop := live m' = live m /\ grows m m'.

Lemma grows_refl m : grows m m.
Proof. by split. Qed.
Lemma grows_trans m1 m2 m3 : grows m1 m2 -> grows m2 m3 -> grows m1 m3.
Proof. unfold grows. intros [-> ?] [-> ?]. split; [done|]. by etrans. Qed.
Lemma preserves_refl m : preserves m m.
Proof. by split. Qed.
Lemma preserves_trans m1 m2 m3 : preserves m1 m2 -> preserves m2 m3 -> preserves m1 m3.
Proof. unfold preserves. intros [-> ?] [-> ?]. split; [done|]. by eapply grows_trans. Qed.

Lemma held_cons w ws : held (w :: ws) = {[+ w_handle w +]} ⊎ held ws.
Proof. unfold held. by rewrite fmap_cons, list_to_set_disj_cons. Qed.
Lemma held_app ws ws' : held (ws ++ ws') = held ws ⊎ held ws'.
Proof. unfold held. by rewrite fmap_app, list_to_set_disj_app. Qed.
Lemma held_perm ws ws' : ws ≡ₚ ws' -> held ws = held ws'.
Proof. intros Hp. unfold held. apply list_to_set_disj_perm. by rewrite Hp. Qed.

Lemma swap_remove_sub {A} i (l : list A) x : l !! i = Some x -> swap_remove i l ⊆+ l.
Proof.
  intros Hi%swap_remove_perm. revert Hi. generalize (swap_remove i l) as l'. intros l' Hp.
  rewrite <- Hp. by apply submseteq_cons.
Qed.

(** Every registration succeeds and every child comes up. *)
Definition can_start `{Answers Host} : Prop :=
  (forall h b, exists x, answers _ h (LoadDynamic b) = Some x) /\
  (forall h x, exists pid, answers _ h (WaitForStartup x) = Ok pid).

Ltac quiet := apply obeys_ask; intros ?; eexists; split; [reflexivity|].
Ltac then_do := eapply obeys_bind.

Create HintDb watch.
#[export] Hint Resolve grows_refl preserves_refl : watch.
#[export] Hint Extern 3 (grows _ _) => (eapply grows_trans; [eassumption|]) : watch.
#[export] Hint Extern 3 (preserves _ _) => (eapply preserves_trans; [eassumption|]) : watch.

Section Watched.
Context `{Answers Host}.
#[local] Abbreviation obeys := (Effects.obeys policy).

Lemma probe_obeys m : obeys m runtime_is_writable (fun m' w => m' = set_writable_seen w m).
Proof. by quiet. Qed.

Lemma statement_obeys m sql : writable_seen m = true -> obeys m (ask (Statement sql)) (fun m' _ => m' = m).
Proof. intros Hw. apply obeys_ask. intros h. simpl. rewrite Hw. eauto. Qed.

(** The records of children probe for themselves. *)
Lemma record_obeys m sql : obeys m (record sql) (fun m' _ => preserves m m').
Proof.
  then_do; [apply probe_obeys|]. intros m1 [] ->; simpl; [|by apply obeys_ret].
  then_do; [by apply statement_obeys|]. intros ? _ ->. by apply obeys_ret.
Qed.

Lemma spawn_child_obeys m b kind launcher_pid slot :
  (b_function b ==b bs "pgs3_http_main") = false \/ role_seen m = true ->
  obeys m (spawn_child b kind launcher_pid slot) (fun m' r =>
    live m' = held (option_list r) ⊎ live m /\ grows m m' /\
    Forall (fun w => w_slot w = slot /\ w_handle w ∈ confirmed m') (option_list r) /\ (can_start -> is_Some r)).
Proof.
  intros Hok. then_do.
  { apply obeys_ask. intros h. simpl. destruct (_ && _) eqn:E.
    - apply andb_true_iff in E as [E1 E2]. destruct Hok as [Hok|Hok]; [congruence|]. by rewrite Hok in E2.
    - eexists. split; [done|].
      instantiate (1 := fun m' r => m' = m /\ (can_start -> is_Some r)). split; [done|].
      intros [Hl _]. destruct (Hl h b) as [x ->]. eauto. }
  intros m1 [x|] [-> Hs]; cycle 1.
  { then_do; [apply record_obeys|]. intros m2 _ [Hl Hg]. apply obeys_ret. repeat split; [|by apply Hg..|done|].
    - rewrite Hl. multiset_solver.
    - intros Hc. by destruct (Hs Hc). }
  then_do.
  { apply obeys_ask. intros h. destruct (answers _ h (WaitForStartup x)) as [pid|st] eqn:E; eexists; (split; [done|]).
    - instantiate (1 := fun m' r => match r with
        | Ok _ => live m' = {[+ x +]} ⊎ live m /\ grows m m' /\ x ∈ confirmed m' | Err _ => m' = m /\ ~ can_start end).
      repeat split; set_solver.
    - split; [done|]. intros [_ Hc]. destruct (Hc h x) as [pid E']. congruence. }
  intros m1 [pid|st].
  - intros (Hl & Hg & Hx). then_do; [apply record_obeys|]. intros m2 _ [Hl2 Hg2]. apply obeys_ret. split_and!.
    + rewrite Hl2, Hl. simpl. rewrite held_cons. simpl. multiset_solver.
    + eauto with watch.
    + constructor; [|done]. split; [done|]. simpl. destruct Hg2 as [_ Hg2]. set_solver.
    + eauto.
  - intros [-> Hc]. then_do; [apply record_obeys|]. intros m2 _ [Hl Hg]. apply obeys_ret.
    split_and!; [rewrite Hl; multiset_solver|done|constructor|done].
Qed.

Lemma stop_managed_obeys m w launcher_pid desired R :
  live m = {[+ w_handle w +]} ⊎ R ->
  obeys m (stop_managed w launcher_pid desired) (fun m' _ => live m' = R /\ grows m m').
Proof.
  intros Hl. then_do.
  { apply obeys_ask. intros h. simpl. rewrite decide_True by multiset_solver. eexists. split; [done|].
    instantiate (1 := fun m' _ => live m' = R /\ grows m m'). split; [|by split]. simpl. rewrite Hl. multiset_solver. }
  intros m1 _ [Hl1 Hg]. eapply obeys_weaken; [apply record_obeys|]. intros m2 _ [Hl2 Hg2].
  split; [congruence|eauto with watch].
Qed.

Lemma stop_each_obeys ws m launcher_pid desired R :
  live m = held ws ⊎ R ->
  obeys m (stop_each ws launcher_pid desired) (fun m' _ => live m' = R /\ grows m m').
Proof.
  revert m. induction ws as [|w ws IH]; intros m Hl; simpl.
  - apply obeys_ret. split; [|by split]. rewrite Hl. unfold held. simpl. multiset_solver.
  - rewrite held_cons in Hl. then_do.
    { apply (stop_managed_obeys m w _ _ (held ws ⊎ R)). rewrite Hl. multiset_solver. }
    intros m1 _ [Hl1 Hg]. eapply obeys_weaken; [by apply IH|]. intros m2 _ [Hl2 Hg2]. eauto with watch.
Qed.

Lemma stop_http_obeys m desired p R :
  live m = held (p_http p) ⊎ R ->
  obeys m (stop_http desired p) (fun m' p' => live m' = R /\ grows m m' /\ p' = set_http [] p).
Proof.
  intros Hl. then_do; [by apply stop_each_obeys|]. intros m1 _ [Hl1 Hg]. by apply obeys_ret.
Qed.

Lemma stop_all_obeys m p :
  live m = held (workers_of p) ->
  obeys m (stop_all p) (fun m' p' => live m' = ∅ /\ grows m m' /\ workers_of p' = []).
Proof.
  unfold workers_of. rewrite held_app. intros Hl. then_do; [by apply stop_http_obeys|].
  intros m1 p1 (Hl1 & Hg & ->). simpl. destruct (p_gc p) as [w|] eqn:Hgc.
  - then_do; [apply (stop_managed_obeys _ _ _ _ ∅); rewrite Hl1; simpl; by rewrite held_cons|].
    intros m2 _ [Hl2 Hg2]. apply obeys_ret. split_and!; [done|eauto with watch|done].
  - apply obeys_ret. unfold workers_of. simpl. by rewrite Hgc.
Qed.

Lemma remove_stopped_http_obeys fuel index m launcher_pid http R :
  (length http <= fuel + index)%nat -> live m = held http ⊎ R ->
  Forall (fun w => w_handle w ∈ confirmed m) (take index http) ->
  obeys m (remove_stopped_http fuel index launcher_pid http) (fun m' http' =>
    live m' = held http' ⊎ R /\ grows m m' /\ http' ⊆+ http /\ Forall (fun w => w_handle w ∈ confirmed m') http').
Proof.
  revert index m http. induction fuel as [|fuel IH]; intros index m http Hf Hl Ht; simpl.
  { apply obeys_ret. rewrite take_ge in Ht by lia. eauto with watch. }
  destruct (http !! index) as [w|] eqn:Hw; cycle 1.
  { apply lookup_ge_None in Hw. apply obeys_ret. rewrite take_ge in Ht by lia. eauto with watch. }
  assert (Hin : w_handle w ∈ live m).
  { rewrite Hl. apply gmultiset_elem_of_disj_union. left. unfold held. apply elem_of_list_to_set_disj.
    apply list_elem_of_fmap_2, list_elem_of_lookup. eauto. }
  then_do.
  { apply obeys_ask. intros h. simpl. rewrite decide_True by done. eexists. split; [done|].
    by instantiate (1 := fun m' (b : bool) => m' = if b then confirm (w_handle w) m else set_live (live m ∖ {[+ w_handle w +]}) m). }
  intros m1 [] ->; simpl.
  - eapply obeys_weaken; [apply IH; [lia|done|]|].
    + erewrite take_S_r by done. apply Forall_app. split; [|by repeat constructor; set_solver].
      eapply Forall_impl; [exact Ht|]. simpl. set_solver.
    + intros m2 http' (? & Hg & ? & ?). split_and!; try done. eapply grows_trans; [|exact Hg]. split; [done|set_solver].
  - pose proof (swap_remove_perm _ _ _ Hw) as Hp.
    then_do; [apply record_obeys|]. intros m2 _ [Hl2 Hg2]. simpl in Hl2.
    eapply obeys_weaken; [apply IH|].
    + apply Permutation_length in Hp. simpl in Hp. lia.
    + rewrite Hl2, Hl, <- (held_perm _ _ Hp), held_cons. multiset_solver.
    + rewrite (swap_remove_take _ _ _ Hw). destruct Hg2 as [_ Hg2]. simpl in Hg2.
      eapply Forall_impl; [exact Ht|]. simpl. set_solver.
    + intros m3 ws (? & Hg & Hsub & ?). split_and!; try done.
      * eapply grows_trans; [|exact Hg]. exact Hg2.
      * etrans; [exact Hsub|]. by eapply swap_remove_sub.
Qed.

#[local] Abbreviation all_confirmed m := (Forall (fun w => w_handle w ∈ confirmed m)).

Lemma all_confirmed_grows m m' ws : grows m m' -> all_confirmed m ws -> all_confirmed m' ws.
Proof. intros [_ Hg] Hc. eapply Forall_impl; [exact Hc|]. simpl. set_solver. Qed.

Lemma remove_stopped_obeys m p :
  live m = held (workers_of p) ->
  obeys m (remove_stopped p) (fun m' p' =>
    live m' = held (workers_of p') /\ grows m m' /\ p_http p' ⊆+ p_http p /\ all_confirmed m' (workers_of p')).
Proof.
  unfold workers_of. rewrite held_app. intros Hl. then_do.
  { apply remove_stopped_http_obeys; [lia|exact Hl|constructor]. }
  intros m1 http (Hl1 & Hg1 & Hs & Hc). simpl. destruct (p_gc p) as [w|] eqn:Hgc; cycle 1.
  { apply obeys_ret. simpl. rewrite Hgc, held_app. split_and!; try done. simpl. by rewrite app_nil_r. }
  assert (Hin : w_handle w ∈ live m1) by (rewrite Hl1; simpl; rewrite held_cons; multiset_solver).
  then_do.
  { apply obeys_ask. intros h. simpl. rewrite decide_True by done. eexists. split; [done|].
    by instantiate (1 := fun m' (b : bool) =>
      m' = if b then confirm (w_handle w) m1 else set_live (live m1 ∖ {[+ w_handle w +]}) m1). }
  intros m2 [] ->.
  - assert (Hg : grows m1 (confirm (w_handle w) m1)) by (split; [done|set_solver]).
    apply obeys_ret. simpl. rewrite Hgc, held_app. split_and!; [done|eauto with watch|done|].
    apply Forall_app. split; [exact (all_confirmed_grows _ _ _ Hg Hc)|]. repeat constructor. set_solver.
  - then_do; [apply record_obeys|]. intros m3 _ [Hl3 Hg3]. apply obeys_ret. simpl. rewrite app_nil_r. split_and!.
    + rewrite Hl3. simpl. rewrite Hl1. simpl. rewrite held_cons. unfold held at 2. simpl. multiset_solver.
    + eapply grows_trans; [exact Hg1|]. exact Hg3.
    + done.
    + by eapply all_confirmed_grows.
Qed.

Lemma stop_surplus_obeys fuel m desired launcher_pid http R :
  (length http <= fuel)%nat -> live m = held http ⊎ R ->
  obeys m (stop_surplus fuel desired launcher_pid http) (fun m' http' =>
    live m' = held http' ⊎ R /\ grows m m' /\ http' ⊆+ http /\ Forall (fun w => surplus desired w = false) http').
Proof.
  revert m http. induction fuel as [|fuel IH]; intros m http Hf Hl; simpl.
  { apply obeys_ret. destruct http; [|simpl in Hf; lia]. eauto with watch. }
  destruct (position (surplus desired) http) as [i|] eqn:Hi; cycle 1.
  { apply obeys_ret. apply position_None in Hi. eauto with watch. }
  assert (exists w, http !! i = Some w) as [w Hw].
  { apply position_Some in Hi as (a & w & b & -> & <- & _). exists w. by apply list_lookup_middle. }
  rewrite Hw. pose proof (swap_remove_perm _ _ _ Hw) as Hp.
  then_do.
  { apply (stop_managed_obeys m w _ _ (held (swap_remove i http) ⊎ R)). rewrite Hl, <- (held_perm _ _ Hp), held_cons. multiset_solver. }
  intros m1 _ [Hl1 Hg1]. eapply obeys_weaken; [apply IH|].
  - apply Permutation_length in Hp. simpl in Hp. lia.
  - done.
  - intros m2 ws (? & ? & Hsub & ?). split_and!; try done; [eauto with watch|]. etrans; [exact Hsub|]. by eapply swap_remove_sub.
Qed.

Lemma record_errors_obeys slots m launcher_pid message :
  obeys m (record_errors slots launcher_pid message) (fun m' _ => preserves m m').
Proof.
  revert m. induction slots as [|slot slots IH]; intros m; simpl; [by apply obeys_ret|].
  then_do; [apply record_obeys|]. intros m1 [] Hk. eapply obeys_weaken; [apply IH|]. simpl. eauto with watch.
Qed.

Lemma spawn_missing_obeys slots m database launcher_pid http R :
  role_seen m = true -> live m = held http ⊎ R ->
  obeys m (spawn_missing slots database launcher_pid http) (fun m' http' =>
    exists new, http' = http ++ new /\ live m' = held http' ⊎ R /\ grows m m' /\ all_confirmed m' new /\
      (NoDup (w_slot <$> http) -> NoDup (w_slot <$> http')) /\
      Forall (fun w => w_slot w ∈ as_i32 <$> slots) new /\
      (can_start -> Forall (fun slot => as_i32 slot ∈ w_slot <$> http') slots)).
Proof.
  revert m http. induction slots as [|slot slots IH]; intros m http Hr Hl; simpl.
  { apply obeys_ret. exists []. rewrite app_nil_r. by repeat constructor. }
  destruct (existsb _ http) eqn:Ex.
  - eapply obeys_weaken; [by apply IH|]. intros m' http' (new & -> & ? & ? & ? & ? & Hn & Hc).
    exists new. split_and!; try done.
    + eapply Forall_impl; [exact Hn|]. simpl. set_solver.
    + intros Hs. constructor; [|by apply Hc]. apply existsb_exists in Ex as (w & Hw & <-%Z.eqb_eq).
      rewrite fmap_app. apply elem_of_app. left. by apply list_elem_of_fmap_2, list_elem_of_In.
  - then_do; [apply spawn_child_obeys; by right|]. intros m1 r (Hl1 & Hg1 & Hf & Hsome).
    assert (Hfresh : as_i32 slot ∉ w_slot <$> http).
    { intros (w & Ew & Hw)%list_elem_of_fmap. apply not_true_iff_false in Ex. apply Ex, existsb_exists.
      exists w. split; [by apply list_elem_of_In|]. by apply Z.eqb_eq. }
    assert (Hr1 : role_seen m1 = true) by (destruct Hg1 as [-> _]; done).
    destruct r as [w|]; (eapply obeys_weaken; [apply IH; [done|]|]).
    + rewrite Hl1, Hl, held_app. simpl. rewrite held_cons. multiset_solver.
    + simpl in Hf. apply Forall_singleton in Hf as [Hslot Hconf].
      intros m' http' (new & -> & ? & Hg & ? & Hnd & Hn & Hc). exists (w :: new).
      rewrite <- app_assoc in *. simpl in *. split_and!; try done.
      * eauto with watch.
      * constructor; [|done]. destruct Hg as [_ Hg]. set_solver.
      * intros Hd. apply Hnd. rewrite fmap_app. apply NoDup_app. split_and!; [done| |apply NoDup_singleton].
        intros x Hx ->%list_elem_of_singleton. by rewrite Hslot in Hx.
      * constructor; [rewrite Hslot; set_solver|]. eapply Forall_impl; [exact Hn|]. simpl. set_solver.
      * intros Hs. constructor; [|by apply Hc]. rewrite <- Hslot. rewrite fmap_app. simpl. set_solver.
    + rewrite Hl1. unfold held at 1. simpl. rewrite Hl. multiset_solver.
    + intros m' http' (new & -> & ? & Hg & ? & Hnd & Hn & Hc). exists new. split_and!; try done.
      * eauto with watch.
      * eapply Forall_impl; [exact Hn|]. simpl. set_solver.
      * intros Hs. by destruct (Hsome Hs).
Qed.

(** What the pool holds is what runs, and it was found alive. *)
Definition in_step (m : Watch) (p : WorkerPool) : Prop :=
  live m = held (workers_of p) /\ all_confirmed m (workers_of p).

(** The slots of the HTTP workers after a reconciliation. *)
Definition slots_settled (desired : Z) (m : Watch) (http : list ManagedWorker) : Prop :=
  NoDup (w_slot <$> http) /\ Forall (fun w => 0 <= w_slot w < desired) http /\
  (role_seen m = false -> http = []) /\
  (role_seen m = true -> can_start -> w_slot <$> http ≡ₚ seqZ 0 desired).

Lemma workers_of_sub p http : http ⊆+ p_http p -> workers_of (set_http http p) ⊆+ workers_of p.
Proof. intros Hs. unfold workers_of. simpl. by apply submseteq_app. Qed.

Lemma all_confirmed_sub m ws ws' : ws' ⊆+ ws -> all_confirmed m ws -> all_confirmed m ws'.
Proof.
  rewrite !Forall_forall. intros Hs Hc w Hw. apply Hc. by eapply elem_of_submseteq.
Qed.

Lemma as_i32_small z : 0 <= z <= i32_max -> as_i32 z = z.
Proof.
  unfold as_i32, as_u32, i32_max. intros Hz. rewrite Z.mod_small by lia.
  destruct (Z.ltb_spec z (2 ^ 31)); lia.
Qed.

Lemma as_i32_slots desired : desired <= i32_max -> as_i32 <$> seqZ 0 desired = seqZ 0 desired.
Proof.
  intros Hd. rewrite <- (list_fmap_id (seqZ 0 desired)) at 2. apply Forall_fmap_ext_1, Forall_forall.
  intros z Hz%elem_of_seqZ. apply as_i32_small.
  unfold id. lia.
Qed.

(** The workers that stay and those of the missing slots. *)
Lemma spawn_missing_settled m p desired :
  role_seen m = true -> in_step m p -> NoDup (w_slot <$> p_http p) ->
  Forall (fun w => surplus desired w = false) (p_http p) ->
  obeys m (spawn_missing (seqZ 0 desired) (p_database p) (p_launcher_pid p) (p_http p)) (fun m' http =>
    in_step m' (set_http http p) /\ NoDup (w_slot <$> http) /\ (desired <= i32_max -> slots_settled desired m' http)).
Proof.
  intros Hr [Hl Hc] Hnd Hs. unfold workers_of in Hl. rewrite held_app in Hl.
  eapply obeys_weaken; [by apply spawn_missing_obeys|].
  intros m' http (new & -> & Hl' & Hg & Hn & Hnd' & Hb & Hall). split_and!; [split|auto|intros Hd].
  { unfold workers_of. simpl. by rewrite held_app. }
  { unfold workers_of in *. simpl. apply Forall_app in Hc as [Hc1 Hc2].
    repeat (apply Forall_app; split); eauto using all_confirmed_grows. }
  rewrite as_i32_slots in Hb by done.
  assert (Hbounds : Forall (fun w => 0 <= w_slot w < desired) (p_http p ++ new)).
  { apply Forall_app. split; (eapply Forall_impl; [eassumption|]); simpl.
    - intros w. unfold surplus. rewrite orb_false_iff, Z.ltb_ge, Z.leb_gt. tauto.
    - intros w Hw%elem_of_seqZ. lia. }
  split_and!; auto.
  - destruct Hg as [-> _]. by rewrite Hr.
  - intros _ Hst. apply NoDup_Permutation; [auto|apply NoDup_seqZ|]. intros z. split.
    + intros (w & -> & Hw)%list_elem_of_fmap. rewrite Forall_forall in Hbounds. apply elem_of_seqZ.
      specialize (Hbounds w Hw). simpl in Hbounds. lia.
    + intros Hz. specialize (Hall Hst). rewrite Forall_forall in Hall. specialize (Hall z Hz).
      apply elem_of_seqZ in Hz. by rewrite as_i32_small in Hall by lia.
Qed.

(** The steps of a reconciliation, in order. *)
Lemma change_role_obeys m p role :
  in_step m p ->
  obeys m (if negb (role ==b p_server_role p) then let! p := stop_http true p in ret (set_role role p) else ret p)
    (fun m' p' => in_step m' p' /\ p_http p' ⊆+ p_http p).
Proof.
  intros [Hl Hc]. destruct (negb _); [|by apply obeys_ret].
  unfold workers_of in Hl. rewrite held_app in Hl. then_do; [by apply stop_http_obeys|].
  intros m1 p1 (Hl1 & Hg & ->). apply obeys_ret. split; [split|apply submseteq_nil_l]; [done|].
  eapply all_confirmed_grows; [done|]. apply Forall_app in Hc as [_ Hc]. done.
Qed.

Lemma refuse_role_obeys m p desired :
  role_seen m = false -> in_step m p ->
  obeys m (let! p := stop_http true p in
           let! _ := record_errors (seqZ 0 desired) (p_launcher_pid p) (role_message (p_server_role p)) in ret p)
    (fun m' p' => in_step m' p' /\ NoDup (w_slot <$> p_http p') /\ slots_settled desired m' (p_http p')).
Proof.
  intros Hr [Hl Hc]. unfold workers_of in Hl. rewrite held_app in Hl. then_do; [by apply stop_http_obeys|].
  intros m1 p1 (Hl1 & Hg1 & ->). then_do; [apply record_errors_obeys|]. intros m2 _ [Hl2 Hg2]. apply obeys_ret.
  assert (Hg : grows m m2) by eauto with watch. apply Forall_app in Hc as [_ Hc]. split_and!.
  - split; [by rewrite Hl2|]. by eapply all_confirmed_grows.
  - constructor.
  - split_and!; [constructor..|done|]. destruct Hg as [-> _]. by rewrite Hr.
Qed.

Lemma settle_gc_obeys m p (writable : bool) :
  in_step m p ->
  obeys m
    (if writable then
       match p_gc p with
       | None => let! gc := spawn_gc (p_database p) (p_launcher_pid p) in ret (set_gc gc p)
       | Some _ => ret p
       end
     else
       match p_gc p with
       | Some worker => let! _ := stop_managed worker (p_launcher_pid p) false in ret (set_gc None p)
       | None => ret p
       end)
    (fun m' p' => in_step m' p' /\ grows m m' /\ p_http p' = p_http p /\ (writable = false -> p_gc p' = None) /\
       (writable = true -> can_start -> is_Some (p_gc p'))).
Proof.
  intros [Hl Hc]. assert (Hin : in_step m p) by done. unfold workers_of in Hl, Hc. rewrite held_app in Hl.
  apply Forall_app in Hc as [Hc1 Hc2].
  destruct writable, (p_gc p) as [w|] eqn:Hgc; try (apply obeys_ret; split_and!; auto with watch; done).
  - then_do; [apply spawn_child_obeys; by left|]. intros m1 r (Hl1 & Hg & Hf & Hs). apply obeys_ret.
    split_and!; [split|done..|auto].
    + unfold workers_of. simpl. rewrite held_app, Hl1, Hl. simpl. multiset_solver.
    + unfold workers_of. simpl. apply Forall_app. split; [by eapply all_confirmed_grows|].
      eapply Forall_impl; [exact Hf|]. by intros ? [].
  - then_do; [apply (stop_managed_obeys _ _ _ _ (held (p_http p))); rewrite Hl; simpl; rewrite held_cons; multiset_solver|].
    intros m1 _ [Hl1 Hg]. apply obeys_ret. split_and!; [split|done..].
    + unfold workers_of. simpl. by rewrite app_nil_r.
    + unfold workers_of. simpl. rewrite app_nil_r. by eapply all_confirmed_grows.
Qed.

Lemma NoDup_slots_sub ws ws' : ws' ⊆+ ws -> NoDup (w_slot <$> ws) -> NoDup (w_slot <$> ws').
Proof. intros [k ->]%submseteq_Permutation. rewrite fmap_app. by intros [? _]%NoDup_app. Qed.

Lemma stop_surplus_step m p desired :
  in_step m p ->
  obeys m (stop_surplus (length (p_http p)) desired (p_launcher_pid p) (p_http p)) (fun m' http =>
    in_step m' (set_http http p) /\ http ⊆+ p_http p /\ Forall (fun w => surplus desired w = false) http).
Proof.
  intros [Hl Hc]. unfold workers_of in Hl. rewrite held_app in Hl.
  eapply obeys_weaken; [by apply stop_surplus_obeys|]. intros m' http (Hl' & Hg & Hs & Hf). split_and!; try done.
  split; [unfold workers_of; simpl; by rewrite held_app|].
  eapply all_confirmed_sub; [by apply workers_of_sub|]. by eapply all_confirmed_grows.
Qed.

Definition reconciled (desired : Z) (writable : bool) (m : Watch) (p : WorkerPool) : Prop :=
  in_step m p /\ NoDup (w_slot <$> p_http p) /\ (desired <= i32_max -> slots_settled desired m (p_http p)) /\
  (writable = false -> p_gc p = None) /\ (writable = true -> can_start -> is_Some (p_gc p)).

Lemma reconcile_obeys m p desired writable :
  live m = held (workers_of p) -> NoDup (w_slot <$> p_http p) ->
  obeys m (reconcile desired writable p) (reconciled desired writable).
Proof.
  intros Hl Hnd. then_do; [by apply remove_stopped_obeys|].
  intros m1 p1 (Hl1 & _ & Hs1 & Hc1). apply (NoDup_slots_sub _ _ Hs1) in Hnd. clear Hl Hs1.
  then_do; [quiet; by instantiate (1 := fun m' _ => m' = m1)|]. intros ? role ->.
  then_do; [by apply change_role_obeys|]. intros m2 p2 [Hin2 Hs2]. apply (NoDup_slots_sub _ _ Hs2) in Hnd.
  then_do; [by apply stop_surplus_step|]. intros m3 http (Hin3 & Hs3 & Hf3). apply (NoDup_slots_sub _ _ Hs3) in Hnd.
  then_do; [quiet; by instantiate (1 := fun m' ready => m' = set_role_seen ready m3)|]. intros m4 ready ->.
  assert (Hin4 : in_step (set_role_seen ready m3) (set_http http p2)) by done.
  then_do.
  { instantiate (1 := fun m' p' => in_step m' p' /\ NoDup (w_slot <$> p_http p') /\
      (desired <= i32_max -> slots_settled desired m' (p_http p'))). destruct ready; simpl.
    - then_do; [by apply (spawn_missing_settled _ (set_http http p2))|]. intros m5 http' (? & ? & ?). by apply obeys_ret.
    - eapply obeys_weaken; [by apply (refuse_role_obeys _ (set_http http p2))|]. simpl. tauto. }
  intros m5 p5 (Hin5 & Hnd5 & Hset). eapply obeys_weaken; [by apply settle_gc_obeys|].
  intros m6 p6 (Hin6 & [Hr _] & E & Hg1 & Hg2). unfold reconciled, slots_settled in *. rewrite E, Hr. auto.
Qed.

(** ** The loop *)

Definition tended (m : Watch) (l : Launcher) : Prop :=
  live m = held (workers_of (l_pool l)) /\ NoDup (w_slot <$> p_http (l_pool l)).

Lemma tended_same m m' l l' : tended m l -> live m' = live m -> l_pool l' = l_pool l -> tended m' l'.
Proof. unfold tended. by intros ? -> ->. Qed.

Ltac passes a := eapply obeys_bind; [by apply obeys_steady|]; intros ? a ->.
Ltac probes a := eapply obeys_bind; [apply probe_obeys|]; intros ? a ->.
Ltac writes := eapply obeys_bind; [by apply statement_obeys|]; intros ? ? ->.

Lemma static_desired_obeys m pid :
  writable_seen m = true -> obeys m (set_static_desired_from_guc pid) (fun m' _ => m' = m).
Proof. intros Hw. unfold set_static_desired_from_guc. passes a. writes. by apply obeys_ret. Qed.

Lemma on_sighup_obeys m l : tended m l -> obeys m (on_sighup l) tended.
Proof.
  intros Ht. unfold on_sighup. passes u. then_do; [instantiate (1 := tended)|intros m1 l1 Ht1; passes a; by apply obeys_ret].
  destruct (l_mode l); [|by apply obeys_ret]. passes on. simpl. destruct (l_state_owned l); [|by apply obeys_ret].
  probes w. destruct w; [|by apply obeys_ret].
  then_do; [by apply static_desired_obeys|]. intros m1 _ ->. by apply obeys_ret.
Qed.

Lemma take_ownership_obeys m l writable :
  (writable = true -> writable_seen m = true) -> tended m l ->
  obeys m (take_ownership writable l) (fun m' l' => m' = m /\ tended m l').
Proof.
  intros Hw Ht. unfold take_ownership. destruct writable, (l_state_owned l); try (by apply obeys_ret).
  specialize (Hw eq_refl). simpl. then_do.
  { instantiate (1 := fun m' _ => m' = m). unfold cleanup_orphan_children. then_do.
    - apply obeys_steady. intros a. simpl. by rewrite Hw.
    - intros ? _ ->. by apply obeys_ret. }
  intros ? _ ->. then_do; [by apply statement_obeys|]. intros ? [b|] ->; by apply obeys_ret.
Qed.

Lemma beat_obeys m l writable :
  (writable = true -> writable_seen m = true) -> tended m l ->
  obeys m (beat writable l) (fun m' kept => m' = m /\ match kept with Some l' => tended m l' | None => True end).
Proof.
  intros Hw Ht. unfold beat. destruct writable, (l_state_owned l); try (by apply obeys_ret).
  specialize (Hw eq_refl). then_do; [by apply statement_obeys|]. intros ? [b|] ->; by apply obeys_ret.
Qed.

Lemma reconcile_phase_obeys m l : tended m l -> obeys m (reconcile_phase l) (fun m' r => tended m' r.1).
Proof.
  intros Ht. then_do; [apply probe_obeys|]. intros ? writable ->.
  then_do; [apply take_ownership_obeys; [by intros ->|exact Ht]|]. intros ? l1 [-> Ht1].
  then_do; [apply beat_obeys; [by intros ->|exact Ht1]|]. intros ? [l2|] [-> Ht2]; [|by apply obeys_ret].
  then_do; [instantiate (1 := fun m' p => live m' = held (workers_of p) /\ NoDup (w_slot <$> p_http p))|].
  - destruct Ht2 as [Hl Hnd]. destruct (l_desired l2).
    + passes a. eapply obeys_weaken; [by apply reconcile_obeys|]. intros m2 p [[? _] [? _]]. done.
    + eapply obeys_weaken; [by apply stop_all_obeys|]. intros m2 p (Hl2 & _ & Hp).
      rewrite Hp. split; [done|]. apply app_eq_nil in Hp as [-> _]. constructor.
  - intros m2 p Hp. passes a. by apply obeys_ret.
Qed.

Lemma turn_obeys m l : tended m l -> obeys m (turn l) (fun m' r => tended m' r.1).
Proof.
  intros Ht. unfold turn. passes hup. then_do.
  { instantiate (1 := tended). destruct hup; [by apply on_sighup_obeys|by apply obeys_ret]. }
  intros m1 l1 Ht1. then_do; [instantiate (1 := tended)|].
  { destruct (l_schema_ready l1); [by apply obeys_ret|]. passes ready. destruct ready; [|by apply obeys_ret].
    passes t. by apply obeys_ret. }
  intros m2 l2 Ht2. destruct (l_schema_ready l2); [|by apply obeys_ret]. passes t.
  destruct (_ <=? _); [by apply reconcile_phase_obeys|by apply obeys_ret].
Qed.

Lemma iteration_obeys m l : tended m l -> obeys m (iteration l) (fun m' r => tended m' r.1).
Proof.
  intros Ht. then_do; [by apply turn_obeys|]. intros m3 [l3 []] Ht3; [|by apply obeys_ret].
  passes latch. by apply obeys_ret.
Qed.

Lemma launcher_loop_obeys fuel m l :
  tended m l -> obeys m (launcher_loop fuel l) (fun m' r => match r with Some l' => tended m' l' | None => True end).
Proof.
  revert m l. induction fuel as [|fuel IH]; intros m l Ht; simpl; [by apply obeys_ret|].
  then_do; [by apply iteration_obeys|]. intros m1 [l1 []] Ht1; [by apply IH|by apply obeys_ret].
Qed.

Lemma new_launcher_obeys m argument database launcher_pid :
  live m = ∅ -> obeys m (new_launcher argument database launcher_pid) tended.
Proof.
  intros Hl. then_do.
  { instantiate (1 := fun m' _ => m' = m). destruct (decide _); [by apply obeys_ret|by apply obeys_steady]. }
  intros ? d ->. unfold new_pool. then_do; [passes a; by apply obeys_ret; instantiate (1 := fun m' p => m' = m /\ p_http p = [] /\ p_gc p = None)|].
  intros ? p (-> & Hh & Hg). passes a. apply obeys_ret. unfold tended, workers_of. simpl. rewrite Hh, Hg. by split; [|constructor].
Qed.

Lemma launcher_exit_obeys m l : tended m l -> obeys m (launcher_exit l) (fun m' _ => live m' = ∅).
Proof.
  intros [Hl _]. then_do; [by apply stop_all_obeys|]. intros m1 p (Hl1 & _ & _).
  destruct (l_state_owned l); [|by apply obeys_ret]. probes w. destruct w; [|by apply obeys_ret].
  unfold mark_launcher_stopped. writes. by apply obeys_ret.
Qed.

Lemma launcher_main_obeys fuel m argument database launcher_pid :
  live m = ∅ ->
  obeys m (pgs3_launcher_main fuel argument database launcher_pid) (fun m' ended => ended = true -> live m' = ∅).
Proof.
  intros Hl. then_do; [by apply new_launcher_obeys|]. intros m1 l Ht.
  then_do; [by apply launcher_loop_obeys|]. intros m2 [l2|] Ht2; [|by apply obeys_ret].
  then_do; [by apply launcher_exit_obeys|]. intros m3 ? Hl3. by apply obeys_ret.
Qed.

(** ** The garbage collector *)

Lemma set_worker_state_obeys m state : obeys m (set_worker_state state) (fun m' _ => preserves m m').
Proof.
  unfold set_worker_state. probes w. destruct w; simpl; [|by apply obeys_ret]. writes. by apply obeys_ret.
Qed.

Lemma record_state_obeys m slot launcher_pid status error :
  obeys m (record_state slot launcher_pid status error) (fun m' _ => preserves m m').
Proof. then_do; [apply set_worker_state_obeys|]. intros m1 ? Hk. by apply obeys_ret. Qed.

Lemma add_worker_metric_obeys m kind slot operation delta :
  obeys m (add_worker_metric kind slot operation delta) (fun m' _ => preserves m m').
Proof.
  unfold add_worker_metric. destruct (MetricDelta_is_empty delta); [by apply obeys_ret|].
  probes w. destruct w; simpl; [|by apply obeys_ret]. writes. by apply obeys_ret.
Qed.

Lemma sweep_obeys m collect slot operation :
  (forall m, writable_seen m = true -> obeys m collect (fun m' _ => m' = m)) ->
  obeys m (sweep collect slot operation) (fun m' _ => preserves m m').
Proof.
  intros Hc. unfold sweep. probes w. destruct w; simpl; [|by apply obeys_ret]. passes started.
  then_do; [by apply Hc|]. intros ? collected ->. passes finished. then_do; [apply add_worker_metric_obeys|].
  intros m1 ? Hk. apply obeys_ret. eapply preserves_trans; [|exact Hk]. done.
Qed.

Lemma gc_turn_obeys m launcher_pid slot next_gc next_heartbeat :
  obeys m (gc_turn launcher_pid slot next_gc next_heartbeat) (fun m' _ => preserves m m').
Proof.
  unfold gc_turn. passes hup. then_do; [destruct hup; [by apply obeys_steady|by apply obeys_ret]|].
  intros ? _ ->. passes t. then_do; [instantiate (1 := fun m' _ => preserves m m')|].
  { destruct (_ <=? t); [|by apply obeys_ret].
    then_do; [apply record_state_obeys|]. intros m1 ? K1.
    then_do; [apply sweep_obeys; intros m' Hw; apply obeys_steady; intros ?; simpl; by rewrite Hw|]. intros m2 ? K2.
    then_do; [apply sweep_obeys; intros m' Hw; apply obeys_steady; intros ?; simpl; by rewrite Hw|]. intros m3 ? K3.
    then_do; [apply record_state_obeys|]. intros m4 ? K4. passes t'. apply obeys_ret.
    exact (preserves_trans _ _ _ K1 (preserves_trans _ _ _ K2 (preserves_trans _ _ _ K3 K4))). }
  intros m1 n1 K1. then_do; [instantiate (1 := fun m' _ => preserves m m')|].
  { destruct (_ <=? t); [|by apply obeys_ret]. then_do; [apply record_state_obeys|]. intros m2 ? K2.
    passes t'. apply obeys_ret. exact (preserves_trans _ _ _ K1 K2). }
  intros m2 n2 K2. by apply obeys_ret.
Qed.

Lemma gc_loop_obeys fuel m launcher_pid slot next_gc next_heartbeat :
  obeys m (gc_loop fuel launcher_pid slot next_gc next_heartbeat) (fun m' _ => preserves m m').
Proof.
  revert m next_gc next_heartbeat. induction fuel as [|fuel IH]; intros m n1 n2; simpl; [by apply obeys_ret|].
  then_do; [apply gc_turn_obeys|]. intros m1 [n1' n2'] K1. passes latch. destruct latch; [|by apply obeys_ret].
  eapply obeys_weaken; [apply IH|]. simpl. intros. by eapply preserves_trans.
Qed.

Lemma gc_main_obeys fuel m argument :
  obeys m (pgs3_gc_main fuel argument) (fun m' _ => preserves m m').
Proof.
  unfold pgs3_gc_main. destruct (unpack_child_argument argument) as [launcher_pid slot]. passes ready.
  destruct ready; simpl; [|by apply obeys_ret]. then_do; [apply record_state_obeys|]. intros m1 ? K1.
  passes t. passes t'. then_do; [apply gc_loop_obeys|]. intros m2 [] K2; [|apply obeys_ret; exact (preserves_trans _ _ _ K1 K2)].
  then_do; [apply record_state_obeys|]. intros m3 ? K3. apply obeys_ret.
  exact (preserves_trans _ _ _ K1 (preserves_trans _ _ _ K2 K3)).
Qed.

(** ** The end of the loops *)

(** The latch has been waited for. *)
Definition is_wait (e : Interaction Host) : bool :=
  match e with Happens effect _ => match effect with WaitLatch => true | _ => false end end.
Definition waits (h : list (Interaction Host)) : nat := length (base.filter (fun e => is_wait e = true) h).

Lemma waits_app h t : waits (h ++ t) = (waits h + waits t)%nat.
Proof. unfold waits. by rewrite filter_app, length_app. Qed.

(** The request to stop comes with the [n]-th wait at the latest. *)
Definition stops_by (n : nat) : Prop := forall h, (n <= waits h)%nat -> answers bool h WaitLatch = false.

Lemma go_on n h : stops_by n -> answers bool h WaitLatch = true -> (waits h < n)%nat.
Proof. intros Hn Ha. apply Nat.lt_nge. intros Hle. by rewrite (Hn h Hle) in Ha. Qed.

Lemma launcher_loop_ends n fuel h l m :
  stops_by n -> tended m l -> (n - waits h < fuel)%nat -> is_Some (launcher_loop fuel l h).2.
Proof.
  intros Hn. revert h l m. induction fuel as [|fuel IH]; intros h l m Ht Hf; [lia|]. simpl.
  destruct (turn_obeys m l Ht h) as (t & E & m1 & _ & Ht1). unfold bind, iteration, bind at 1.
  destruct (turn l h) as [h1 [l1 go]]. simpl in E, Ht1. subst h1. destruct go; [|by eexists].
  unfold bind, wait_latch, ask. simpl. destruct (answers bool (h ++ t) WaitLatch) eqn:Ea; [|by eexists].
  pose proof (go_on n _ Hn Ea) as Hlt. apply (IH _ _ m1); [done|]. rewrite !waits_app in *. change (waits [_]) with 1%nat.
  lia.
Qed.

Lemma gc_loop_ends n fuel h launcher_pid slot next_gc next_heartbeat :
  stops_by n -> (n - waits h < fuel)%nat -> (gc_loop fuel launcher_pid slot next_gc next_heartbeat h).2 = true.
Proof.
  intros Hn. revert h next_gc next_heartbeat. induction fuel as [|fuel IH]; intros h n1 n2 Hf; [lia|]. simpl.
  destruct (gc_turn_obeys no_watch launcher_pid slot n1 n2 h) as (t & E & _). unfold bind.
  destruct (gc_turn launcher_pid slot n1 n2 h) as [h1 [n1' n2']]. simpl in E. subst h1.
  unfold wait_latch, ask. simpl. destruct (answers bool (h ++ t) WaitLatch) eqn:Ea; [|done].
  pose proof (go_on n _ Hn Ea) as Hlt. apply IH. rewrite !waits_app in *. change (waits [_]) with 1%nat. lia.
Qed.

Lemma launcher_main_ends n fuel argument database launcher_pid h :
  stops_by n -> (n < fuel)%nat -> (pgs3_launcher_main fuel argument database launcher_pid h).2 = true.
Proof.
  intros Hn Hf. unfold pgs3_launcher_main, bind at 1.
  destruct (new_launcher_obeys no_watch argument database launcher_pid eq_refl h) as (t & E & m1 & _ & Ht).
  destruct (new_launcher _ _ _ h) as [h1 l]. simpl in E, Ht. subst h1. unfold bind at 1.
  destruct (launcher_loop_ends n fuel (h ++ t) l m1 Hn Ht ltac:(lia)) as [l2 E2].
  destruct (launcher_loop fuel l (h ++ t)) as [h2 r]. simpl in E2. subst r. unfold bind. by destruct (launcher_exit l2 h2).
Qed.

Lemma gc_main_ends n fuel argument h : stops_by n -> (n < fuel)%nat -> (pgs3_gc_main fuel argument h).2 = true.
Proof.
  intros Hn Hf. unfold pgs3_gc_main. destruct (unpack_child_argument argument) as [launcher_pid slot].
  unfold runtime_schema_ready, ask, bind at 1. destruct (answers _ _ RuntimeSchemaReady); [simpl|done].
  unfold bind. destruct (record_state _ _ _ _ _) as [h1 []]. unfold now, ask.
  destruct (gc_loop _ _ _ _ _ _) as [h2 b] eqn:E.
  assert (Hb : b = true).
  { replace b with (h2, b).2 by done. rewrite <- E. apply (gc_loop_ends n); [done|lia]. }
  rewrite Hb. by destruct (record_state _ _ _ _ h2).
Qed.
End Watched.

(** * Properties: the schedule of the garbage collector *)

(** The clock as last read, and when each sweep may run again. *)
Record Schedule := { clock : Z; due_pending : Z; due_blobs : Z; backwards : bool }.

(** A sweep runs [GC_INTERVAL] after the one before, by a clock that does not
    go back. *)
Definition spacing (s : Schedule) (e : Interaction Host) : option Schedule :=
  match e with
  | Happens effect answer =>
      match effect in Host A return A -> option Schedule with
      | Now => fun t =>
          Some {| clock := t; due_pending := due_pending s; due_blobs := due_blobs s;
                  backwards := backwards s || (t <? clock s) |}
      | GcPendingUploads => fun _ =>
          if backwards s || (due_pending s <=? clock s) then
            Some {| clock := clock s; due_pending := clock s + GC_INTERVAL; due_blobs := due_blobs s;
                    backwards := backwards s |}
          else None
      | GcBlobs => fun _ =>
          if backwards s || (due_blobs s <=? clock s) then
            Some {| clock := clock s; due_pending := due_pending s; due_blobs := clock s + GC_INTERVAL;
                    backwards := backwards s |}
          else None
      | _ => fun _ => Some s
      end answer
  end.

Section Spaced.
Context `{Answers Host}.
#[local] Abbreviation obeys := (Effects.obeys spacing).

(** The clock has moved on, and no sweep is due later than [bound] says. *)
Definition later (s : Schedule) (s' : Schedule) : Prop :=
  backwards s' = true \/
  (backwards s = false /\ backwards s' = false /\ clock s <= clock s' /\
   due_pending s' = due_pending s /\ due_blobs s' = due_blobs s).

Definition due_by (s : Schedule) (t : Z) : Prop :=
  backwards s = true \/ (backwards s = false /\ due_pending s <= t /\ due_blobs s <= t).

Ltac schedule := unfold later, due_by in *; simpl in *; intuition (congruence || lia).

Lemma later_trans s1 s2 s3 : later s1 s2 -> later s2 s3 -> later s1 s3.
Proof. schedule. Qed.
Lemma later_refl s : later s s.
Proof. unfold later. destruct (backwards s); [by left|right; auto with lia]. Qed.

Lemma now_spaced s : obeys s now (fun s' t => later s s' /\ (backwards s' = true \/ clock s' = t)).
Proof.
  quiet. simpl. split; [|by right]. unfold later. simpl.
  destruct (backwards s); simpl; [by left|]. destruct (Z.ltb_spec (answers Z h Now) (clock s)); [by left|].
  right. auto with lia.
Qed.

Ltac passes a := eapply obeys_bind; [by apply obeys_steady|]; intros ? a ->.

Lemma record_state_spaced s slot launcher_pid status error :
  obeys s (record_state slot launcher_pid status error) (fun s' _ => s' = s).
Proof. then_do; [by apply set_worker_state_steady|]. intros ? ? ->. by apply obeys_ret. Qed.

(** A sweep of either kind: [collect] runs when it is due. *)
Lemma sweep_spaced s collect slot operation (Q : Schedule -> Schedule -> Prop) :
  (forall s1, later s s1 -> obeys s1 collect (fun s2 _ => Q s1 s2)) ->
  obeys s (sweep collect slot operation) (fun s' _ => s' = s \/ exists s1 s2, later s s1 /\ Q s1 s2 /\ later s2 s').
Proof.
  intros Hc. unfold sweep. passes w. destruct w; simpl; [|by apply obeys_ret; left].
  then_do; [apply now_spaced|]. intros s1 started [L1 _]. then_do; [by apply Hc|]. intros s2 collected HQ.
  then_do; [apply now_spaced|]. intros s3 finished [L3 _]. then_do; [by apply add_worker_metric_steady|].
  intros ? ? ->. apply obeys_ret. right. by exists s1, s2.
Qed.

Lemma GC_INTERVAL_positive : 0 < GC_INTERVAL.
Proof. done. Qed.

Lemma run_pending_gc_spaced s slot :
  backwards s = true \/ due_pending s <= clock s ->
  obeys s (run_pending_gc slot) (fun s' _ =>
    backwards s' = true \/ (backwards s = false /\ backwards s' = false /\ clock s <= clock s' /\
      due_blobs s' = due_blobs s /\ due_pending s' <= clock s' + GC_INTERVAL)).
Proof.
  pose proof GC_INTERVAL_positive as Hi. intros Hd. eapply obeys_weaken.
  { apply (sweep_spaced _ _ _ _ (fun s1 s2 => s2 = {| clock := clock s1; due_pending := clock s1 + GC_INTERVAL;
      due_blobs := due_blobs s1; backwards := backwards s1 |})).
    intros s1 L. apply obeys_ask. intros h. simpl. eexists. split; [|done].
    destruct (backwards s1) eqn:E; [done|]. destruct (Z.leb_spec (due_pending s1) (clock s1)); [done|schedule]. }
  simpl. intros s' _ [->|(s1 & s2 & L1 & -> & L2)]; [|schedule]. destruct (backwards s) eqn:E; schedule.
Qed.

Lemma run_blob_gc_spaced s slot :
  backwards s = true \/ due_blobs s <= clock s ->
  obeys s (run_blob_gc slot) (fun s' _ =>
    backwards s' = true \/ (backwards s = false /\ backwards s' = false /\ clock s <= clock s' /\
      due_pending s' = due_pending s /\ due_blobs s' <= clock s' + GC_INTERVAL)).
Proof.
  pose proof GC_INTERVAL_positive as Hi. intros Hd. eapply obeys_weaken.
  { apply (sweep_spaced _ _ _ _ (fun s1 s2 => s2 = {| clock := clock s1; due_pending := due_pending s1;
      due_blobs := clock s1 + GC_INTERVAL; backwards := backwards s1 |})).
    intros s1 L. apply obeys_ask. intros h. simpl. eexists. split; [|done].
    destruct (backwards s1) eqn:E; [done|]. destruct (Z.leb_spec (due_blobs s1) (clock s1)); [done|schedule]. }
  simpl. intros s' _ [->|(s1 & s2 & L1 & -> & L2)]; [|schedule]. destruct (backwards s) eqn:E; schedule.
Qed.

(** The sweeps of one turn, and when the next ones are due. *)
Lemma sweeps_spaced s launcher_pid slot :
  due_by s (clock s) ->
  obeys s (let! _ := record_state slot launcher_pid (bs "running") None in
           let! _ := run_pending_gc slot in
           let! _ := run_blob_gc slot in
           let! _ := record_state slot launcher_pid (bs "idle") None in
           let! t := now in ret (t + GC_INTERVAL)) due_by.
Proof.
  intros Hd. then_do; [apply record_state_spaced|]. intros ? ? ->.
  then_do; [apply run_pending_gc_spaced; schedule|]. intros s1 ? H1.
  then_do; [apply run_blob_gc_spaced; schedule|]. intros s2 ? H2.
  then_do; [apply record_state_spaced|]. intros ? ? ->.
  then_do; [apply now_spaced|]. intros s3 t [L Ht]. apply obeys_ret. schedule.
Qed.

Lemma gc_turn_spaced s launcher_pid slot next_gc next_heartbeat :
  due_by s next_gc ->
  obeys s (gc_turn launcher_pid slot next_gc next_heartbeat) (fun s' r => due_by s' r.1).
Proof.
  intros Hd. unfold gc_turn. passes hup. then_do; [destruct hup; [by apply obeys_steady|by apply obeys_ret]|].
  intros ? _ ->. then_do; [apply now_spaced|]. intros s1 t [L1 Ht].
  then_do; [instantiate (1 := due_by)|].
  { destruct (Z.leb_spec next_gc t); [apply sweeps_spaced; schedule|apply obeys_ret; schedule]. }
  intros s2 n2 Hd2. then_do; [instantiate (1 := fun s' _ => due_by s' n2)|].
  { destruct (_ <=? t); [|by apply obeys_ret]. then_do; [apply record_state_spaced|]. intros ? ? ->.
    then_do; [apply now_spaced|]. intros s3 t' [L3 _]. apply obeys_ret. schedule. }
  intros s3 n3 Hd3. by apply obeys_ret.
Qed.

Lemma gc_loop_spaced fuel s launcher_pid slot next_gc next_heartbeat :
  due_by s next_gc -> obeys s (gc_loop fuel launcher_pid slot next_gc next_heartbeat) (fun _ _ => True).
Proof.
  revert s next_gc next_heartbeat. induction fuel as [|fuel IH]; intros s n1 n2 Hd; simpl; [by apply obeys_ret|].
  then_do; [by apply gc_turn_spaced|]. intros s1 [n1' n2'] Hd1. passes latch.
  destruct latch; [by apply IH|by apply obeys_ret].
Qed.

Lemma gc_main_spaced fuel s argument :
  due_by s (clock s + GC_INTERVAL) -> obeys s (pgs3_gc_main fuel argument) (fun _ _ => True).
Proof.
  intros Hd. unfold pgs3_gc_main. destruct (unpack_child_argument argument) as [launcher_pid slot]. passes ready.
  destruct ready; simpl; [|by apply obeys_ret]. then_do; [apply record_state_spaced|]. intros ? ? ->.
  then_do; [apply now_spaced|]. intros s1 t [L1 Ht1]. then_do; [apply now_spaced|]. intros s2 t' [L2 _].
  then_do; [apply gc_loop_spaced; schedule|]. intros s3 [] _; [|by apply obeys_ret].
  then_do; [apply record_state_spaced|]. intros ? ? _. by apply obeys_ret.
Qed.
End Spaced.

(** * The state table *)

(** Timestamps are left out. *)
Record StateRow := {
  r_pid : option Z;
  r_launcher_pid : option Z;
  r_mode : option bytes;
  r_desired : bool;
  r_status : bytes;
  r_listen_addr : option bytes;
  r_port : option Z;
  r_last_error : option bytes
}.

Abbreviation Table := (gmap (bytes * Z) StateRow).

Definition launcher_key : bytes * Z := (bs "launcher", 0).

(** [INSERT ... ON CONFLICT DO UPDATE] *)
Definition upsert (key : bytes * Z) (inserted : StateRow) (update : StateRow -> StateRow) (T : Table) : Table :=
  match T !! key with
  | None => <[key := inserted]> T
  | Some r => <[key := update r]> T
  end.

(** [UPDATE] of one row under a condition. *)
Definition update_where (key : bytes * Z) (cond : StateRow -> bool) (update : StateRow -> StateRow) (T : Table) : Table :=
  match T !! key with
  | Some r => if cond r then <[key := update r]> T else T
  | None => T
  end.

(** [column = $1], false on a null. *)
Definition sql_eq {A} `{EqDecision A} (column : option A) (value : A) : bool := column ==b Some value.

Definition running_or_idle (desired : bool) : bytes := if desired then bs "running" else bs "idle".

Definition set_row_desired (desired : bool) (status : bytes) (r : StateRow) : StateRow :=
  {| r_pid := r_pid r; r_launcher_pid := r_launcher_pid r; r_mode := r_mode r; r_desired := desired;
     r_status := status; r_listen_addr := r_listen_addr r; r_port := r_port r; r_last_error := r_last_error r |}.

Definition claim_row (pid : Z) (mode : bytes) (desired : bool) (old : option StateRow) : StateRow :=
  let desired :=
    match old with
    | Some r => if sql_eq (r_pid r) pid then r_desired r else desired
    | None => desired
    end in
  {| r_pid := Some pid; r_launcher_pid := Some pid; r_mode := Some mode; r_desired := desired;
     r_status := running_or_idle desired; r_listen_addr := old ≫= r_listen_addr; r_port := old ≫= r_port;
     r_last_error := None |}.

Definition set_desired_row (pid : Z) (mode : bytes) (desired : bool) (old : option StateRow) : StateRow :=
  {| r_pid := Some pid; r_launcher_pid := Some pid; r_mode := Some mode; r_desired := desired;
     r_status := running_or_idle desired; r_listen_addr := old ≫= r_listen_addr; r_port := old ≫= r_port;
     r_last_error := None |}.

Definition idle_or_stopped (mode : option bytes) : bytes :=
  if sql_eq mode (bs "static") then bs "idle" else bs "stopped".

Definition starting_row (pid launcher_pid : Z) (old : option StateRow) : StateRow :=
  {| r_pid := Some pid; r_launcher_pid := Some launcher_pid; r_mode := old ≫= r_mode; r_desired := true;
     r_status :=
       match old with
       | Some r =>
           if sql_eq (r_pid r) pid && ((r_status r ==b bs "running") || (r_status r ==b bs "idle")) then r_status r
           else bs "starting"
       | None => bs "starting"
       end;
     r_listen_addr := old ≫= r_listen_addr; r_port := old ≫= r_port; r_last_error := None |}.

Definition error_row (launcher_pid : Z) (message : bytes) (old : option StateRow) : StateRow :=
  {| r_pid := None; r_launcher_pid := Some launcher_pid; r_mode := old ≫= r_mode; r_desired := true;
     r_status := bs "error"; r_listen_addr := old ≫= r_listen_addr; r_port := old ≫= r_port;
     r_last_error := Some message |}.

Definition valid_status (status : bytes) : bool :=
  bool_decide (status ∈ [bs "starting"; bs "running"; bs "idle"; bs "stopping"; bs "stopped"; bs "error"]).

(** The kinds [pgs3._worker_set_state] takes. *)
Definition child_kind (kind : bytes) : bool := (kind ==b bs "http") || (kind ==b bs "gc").

Definition put (key : bytes * Z) (row : option StateRow -> StateRow) : Table -> Table :=
  fun T => <[key := row (T !! key)]> T.

(** One statement, run by the process [backend]: the table after it and the
    value it returns.  The CHECK constraints of the table, on which PostgreSQL
    would raise an error, are stated apart ([row_checks]); no statement whose
    arguments are among those the program sends violates one
    ([execute_checks]). *)
Definition execute (backend : Z) (sql : Sql) (T : Table) : Table * option bool :=
  match sql with
  | ClaimLauncher pid mode desired =>
      let T := put launcher_key (claim_row pid mode desired) T in (T, r_desired <$> T !! launcher_key)
  | HeartbeatLauncher pid status =>
      (update_where launcher_key (fun r => sql_eq (r_pid r) pid)
         (fun r => set_row_desired (r_desired r) (if r_desired r then status else bs "idle") r) T,
       match T !! launcher_key with
       | Some r => if sql_eq (r_pid r) pid then Some (r_desired r) else None
       | None => None
       end)
  | StaticDesired pid on =>
      (update_where launcher_key (fun r => sql_eq (r_pid r) pid) (set_row_desired on (running_or_idle on)) T, Some true)
  | LauncherStopped pid =>
      (update_where launcher_key (fun r => sql_eq (r_pid r) pid) (set_row_desired false (bs "stopped")) T, Some true)
  | ChildStarting kind slot pid launcher_pid => (put (kind, slot) (starting_row pid launcher_pid) T, Some true)
  | ChildError kind slot launcher_pid message => (put (kind, slot) (error_row launcher_pid message) T, Some true)
  | ChildStopped kind slot launcher_pid desired =>
      (update_where (kind, slot) (fun r => sql_eq (r_launcher_pid r) launcher_pid)
         (set_row_desired desired (bs "stopped")) T, Some true)
  | SetLauncherDesired pid mode desired => (put launcher_key (set_desired_row pid mode desired) T, Some true)
  | ChildrenStopped =>
      (map_imap (fun key r =>
         Some (if child_kind key.1 then set_row_desired false (bs "stopped") r else r)) T, Some true)
  | PoolStopped pid mode =>
      (upsert launcher_key
         {| r_pid := pid; r_launcher_pid := pid; r_mode := mode; r_desired := false;
            r_status := idle_or_stopped mode; r_listen_addr := None; r_port := None; r_last_error := None |}
         (fun r => set_row_desired false (idle_or_stopped (r_mode r)) r) T, Some true)
  | WorkerSetState kind slot launcher_pid status listen_addr port error =>
      if negb (child_kind kind) || (slot <? 0) || negb (valid_status status) then (T, None)
      else
        let row := {| r_pid := Some backend; r_launcher_pid := Some launcher_pid; r_mode := None; r_desired := true;
                      r_status := status; r_listen_addr := listen_addr; r_port := port;
                      r_last_error := truncated <$> error |} in
        (match T !! (kind, slot) with
         | None => <[(kind, slot) := row]> T
         | Some r =>
             if (r_launcher_pid r ==b None) || sql_eq (r_launcher_pid r) launcher_pid then
               <[(kind, slot) :=
                   {| r_pid := r_pid row; r_launcher_pid := r_launcher_pid row; r_mode := r_mode r;
                      r_desired := r_desired row; r_status := r_status row; r_listen_addr := r_listen_addr row;
                      r_port := r_port row; r_last_error := r_last_error row |}]> T
             else T
         end, Some true)
  | WorkerAddMetric _ _ _ _ => (T, Some true)
  end.

Fixpoint execute_all (stmts : list (Z * Sql)) (T : Table) : Table :=
  match stmts with
  | [] => T
  | (backend, sql) :: stmts => execute_all stmts (execute backend sql T).1
  end.

(** The kinds of the statements that name one. *)
Definition names_child (sql : Sql) : bool :=
  match sql with
  | ChildStarting kind _ _ _ | ChildError kind _ _ _ | ChildStopped kind _ _ _ => child_kind kind
  | _ => true
  end.

(** ** The specification of the launcher's row *)

(** Who owns the pool, and whether it is wanted; [None] before the first row. *)
Abbreviation Ownership := (option (option Z * bool)).

Definition owned (pid : Z) (o : Ownership) : bool :=
  match o with Some (Some p, _) => p =? pid | _ => false end.

Definition own (sql : Sql) (o : Ownership) : Ownership :=
  match sql with
  | ClaimLauncher pid _ desired => if owned pid o then o else Some (Some pid, desired)
  | SetLauncherDesired pid _ desired => Some (Some pid, desired)
  | StaticDesired pid on => if owned pid o then Some (Some pid, on) else o
  | LauncherStopped pid => if owned pid o then Some (Some pid, false) else o
  | PoolStopped pid _ => match o with Some (p, _) => Some (p, false) | None => Some (pid, false) end
  | _ => o
  end.

Definition owners (stmts : list (Z * Sql)) : Ownership := fold_left (fun o s => own s.2 o) stmts None.

Definition ownership (T : Table) : Ownership := (fun r => (r_pid r, r_desired r)) <$> T !! launcher_key.

Lemma child_kind_key kind slot : child_kind kind = true -> (kind, slot) <> launcher_key.
Proof. intros Hk [= -> ->]. by vm_compute in Hk. Qed.

Lemma owned_row pid r T : T !! launcher_key = Some r -> owned pid (ownership T) = sql_eq (r_pid r) pid.
Proof.
  unfold ownership, owned, sql_eq. intros ->. simpl. destruct (r_pid r) as [p|]; [|done].
  apply eq_true_iff_eq. rewrite Z.eqb_eq, bool_decide_eq_true. naive_solver.
Qed.

Lemma unowned T pid : T !! launcher_key = None -> owned pid (ownership T) = false.
Proof. unfold ownership. by intros ->. Qed.

Lemma update_where_ownership pid (update : StateRow -> StateRow) T o :
  (forall r, r_pid (update r) = r_pid r) -> (forall r, T !! launcher_key = Some r -> r_desired (update r) = o) ->
  ownership (update_where launcher_key (fun r => sql_eq (r_pid r) pid) update T) =
  if owned pid (ownership T) then Some (Some pid, o) else ownership T.
Proof.
  intros Hp Hd. unfold update_where. destruct (T !! launcher_key) as [r|] eqn:E.
  - rewrite (owned_row _ _ _ E). destruct (sql_eq (r_pid r) pid) eqn:Eq; [|done].
    unfold ownership. rewrite lookup_insert_eq. simpl. rewrite Hp, (Hd r eq_refl).
    unfold sql_eq in Eq. apply bool_decide_eq_true in Eq. by rewrite Eq.
  - by rewrite (unowned _ _ E).
Qed.

Lemma other_row T key row : key <> launcher_key -> ownership (<[key := row]> T) = ownership T.
Proof. intros Hk. unfold ownership. by rewrite lookup_insert_ne. Qed.

Lemma other_rows T key cond update :
  key <> launcher_key -> ownership (update_where key cond update T) = ownership T.
Proof.
  intros Hk. unfold update_where. destruct (T !! key); [|done]. destruct (cond s); [by apply other_row|done].
Qed.

(** The table implements the specification. *)
Lemma execute_own backend sql T :
  names_child sql = true -> ownership (execute backend sql T).1 = own sql (ownership T).
Proof.
  intros Hk. destruct sql; simpl in *; try (apply other_row || apply other_rows; by apply child_kind_key).
  - unfold put, ownership at 1. rewrite lookup_insert_eq. simpl. destruct (T !! launcher_key) as [r|] eqn:E; simpl.
    + rewrite (owned_row _ _ _ E). unfold ownership. rewrite E. simpl. unfold sql_eq.
      case_bool_decide as Hp; [by rewrite Hp|done].
    + by rewrite (unowned _ _ E).
  - unfold update_where, ownership. destruct (T !! launcher_key) as [r|] eqn:E; [|by rewrite E].
    destruct (sql_eq _ _); [|by rewrite E]. by rewrite lookup_insert_eq.
  - by apply update_where_ownership.
  - by apply update_where_ownership.
  - unfold put, ownership. by rewrite lookup_insert_eq.
  - unfold ownership. rewrite map_lookup_imap. by destruct (T !! launcher_key).
  - unfold upsert, ownership. destruct (T !! launcher_key); by rewrite lookup_insert_eq.
  - destruct (child_kind kind) eqn:E; [|done]. pose proof (child_kind_key kind slot E) as Hne.
    destruct (_ || _); [done|]. simpl. destruct (T !! (kind, slot)); [|by apply other_row].
    destruct (_ || _); [by apply other_row|done].
  - done.
Qed.

(** ** The constraints of the table *)

Definition valid_mode (mode : option bytes) : bool :=
  (mode ==b None) || sql_eq mode (bs "static") || sql_eq mode (bs "dynamic").
Definition valid_port (port : option Z) : bool :=
  match port with None => true | Some port => (1 <=? port) && (port <=? 65535) end.

(** The CHECK constraints of [pgs3.worker_state]. *)
Definition row_checks (key : bytes * Z) (r : StateRow) : Prop :=
  ((key.1 ==b bs "launcher") || child_kind key.1) = true /\ 0 <= key.2 /\ valid_mode (r_mode r) = true /\
  valid_status (r_status r) = true /\ valid_port (r_port r) = true.

(** The arguments a statement writes into a row. *)
Definition arguments_valid (sql : Sql) : bool :=
  match sql with
  | ClaimLauncher _ mode _ | SetLauncherDesired _ mode _ => valid_mode (Some mode)
  | HeartbeatLauncher _ status => valid_status status
  | ChildStarting kind slot _ _ | ChildError kind slot _ _ => child_kind kind && (0 <=? slot)
  | PoolStopped _ mode => valid_mode mode
  | WorkerSetState _ _ _ _ _ port _ => valid_port port
  | _ => true
  end.

Lemma put_checks (key : bytes * Z) (row : option StateRow -> StateRow) (T : Table) : map_Forall row_checks T ->
  (forall old, T !! key = old -> row_checks key (row old)) -> map_Forall row_checks (put key row T).
Proof. intros HT Hr. apply map_Forall_insert_2; [by apply Hr|done]. Qed.

Lemma update_where_checks (key : bytes * Z) (cond : StateRow -> bool) (update : StateRow -> StateRow) (T : Table) : map_Forall row_checks T ->
  (forall r, row_checks key r -> row_checks key (update r)) -> map_Forall row_checks (update_where key cond update T).
Proof.
  intros HT Hu. unfold update_where. destruct (T !! key) as [r|] eqn:E; [|done].
  destruct (cond r); [|done]. apply map_Forall_insert_2; [|done]. apply Hu. by apply (HT key).
Qed.

Lemma set_row_desired_checks key desired status r :
  valid_status status = true -> row_checks key r -> row_checks key (set_row_desired desired status r).
Proof. unfold row_checks. simpl. tauto. Qed.

(** What a row keeps of the one before satisfies the constraints. *)
Lemma kept_checks (key : bytes * Z) (T : Table) (old : option StateRow) : map_Forall row_checks T -> T !! key = old ->
  valid_mode (old ≫= r_mode) = true /\ valid_port (old ≫= r_port) = true.
Proof. intros HT. destruct old as [r|]; [|done]. by intros (_ & _ & ? & _ & ?)%HT. Qed.

Lemma running_or_idle_valid desired : valid_status (running_or_idle desired) = true.
Proof. by destruct desired. Qed.

Lemma idle_or_stopped_valid mode : valid_status (idle_or_stopped mode) = true.
Proof. unfold idle_or_stopped. by destruct (sql_eq mode (bs "static")). Qed.

(** Statements with the arguments the program sends keep the constraints, so
    none of them raises. *)
Lemma execute_checks (backend : Z) (sql : Sql) (T : Table) :
  arguments_valid sql = true -> map_Forall row_checks T -> map_Forall row_checks (execute backend sql T).1.
Proof.
  intros Ha HT. destruct sql; cbn [execute fst arguments_valid] in *; try done.
  - apply put_checks; [done|]. intros old E. destruct (kept_checks _ _ _ HT E).
    split_and!; try done. apply running_or_idle_valid.
  - apply update_where_checks; [done|]. intros r Hr. apply set_row_desired_checks; [|done]. by destruct (r_desired r).
  - apply update_where_checks; [done|]. intros r. apply set_row_desired_checks, running_or_idle_valid.
  - apply update_where_checks; [done|]. intros r. by apply set_row_desired_checks.
  - apply andb_true_iff in Ha as [Hk Hs%Z.leb_le]. apply put_checks; [done|]. intros old E.
    destruct (kept_checks _ _ _ HT E). split_and!; try done; simpl; [by rewrite Hk, orb_true_r|].
    destruct old as [r|]; [|done]. destruct (_ && _); [|done]. by apply (HT (kind, slot) r E).
  - apply andb_true_iff in Ha as [Hk Hs%Z.leb_le]. apply put_checks; [done|]. intros old E.
    destruct (kept_checks _ _ _ HT E). split_and!; try done. simpl. by rewrite Hk, orb_true_r.
  - apply update_where_checks; [done|]. intros r. by apply set_row_desired_checks.
  - apply put_checks; [done|]. intros old E. destruct (kept_checks _ _ _ HT E).
    split_and!; try done. apply running_or_idle_valid.
  - intros key r. rewrite map_lookup_imap. destruct (T !! key) as [r0|] eqn:E; [|done]. simpl. intros [= <-].
    apply HT in E. destruct (child_kind key.1); [by apply set_row_desired_checks|done].
  - unfold upsert. destruct (T !! launcher_key) as [r|] eqn:E; apply map_Forall_insert_2; try done.
    + apply set_row_desired_checks; [apply idle_or_stopped_valid|by apply HT].
    + split_and!; try done. apply idle_or_stopped_valid.
  - destruct (negb (child_kind kind) || (slot <? 0) || negb (valid_status status)) eqn:Eg; [done|].
    apply orb_false_iff in Eg as [[Hk%negb_false_iff Hs%Z.ltb_ge]%orb_false_iff Hv%negb_false_iff].
    cbn [fst]. destruct (T !! (kind, slot)) as [r|] eqn:E.
    + destruct (_ || _); [|done]. apply map_Forall_insert_2; [|done]. destruct (HT _ _ E) as (_ & _ & ? & _).
      split_and!; try done. simpl. by rewrite Hk, orb_true_r.
    + apply map_Forall_insert_2; [|done]. split_and!; try done. simpl. by rewrite Hk, orb_true_r.
Qed.

Lemma execute_all_own stmts T o :
  Forall (fun s => names_child s.2 = true) stmts -> ownership T = o ->
  ownership (execute_all stmts T) = fold_left (fun o s => own s.2 o) stmts o.
Proof.
  intros Hk. revert T o. induction Hk as [|[backend sql] stmts Hs _ IH]; intros T o HT; simpl; [done|].
  apply IH. rewrite execute_own by done. by rewrite HT.
Qed.

(** * Main theorems *)

(** What is known of a pool before it is reconciled: its children run. *)
Definition watching (p : WorkerPool) (writable ready : bool) : Watch :=
  {| live := held (workers_of p); writable_seen := writable; role_seen := ready; confirmed := ∅ |}.

(** C32: The launcher, however the server behaves and however long it runs,
    writes nothing, not even the termination of orphans, unless its latest
    recovery probe said the server is writable; registers an HTTP worker only
    when the latest check of the server role passed; probes and terminates
    only children of its own that still run; and when it exits, every child it
    started was terminated and waited for, or found to have ended. *)
Theorem launcher_children `{Answers Host} fuel argument database launcher_pid :
  obeys policy no_watch (pgs3_launcher_main fuel argument database launcher_pid)
    (fun m ended => ended = true -> live m = ∅).
Proof. by apply launcher_main_obeys. Qed.

(** C33: Reconciliation leaves a pool whose handles are those of the children
    that run, each found alive or started by it; the HTTP workers have distinct
    slots below the configured number, none when the server role is not ready,
    and exactly one for each slot when it is and workers can be started; the
    garbage collector runs only on a writable server, and there it does. *)
Theorem reconcile_pool `{Answers Host} desired writable p w r :
  NoDup (w_slot <$> p_http p) -> desired <= i32_max ->
  obeys policy (watching p w r) (reconcile desired writable p) (fun m p' =>
    live m = held (workers_of p') /\ Forall (fun w => w_handle w ∈ confirmed m) (workers_of p') /\
    slots_settled desired m (p_http p') /\
    (writable = false -> p_gc p' = None) /\ (writable = true -> can_start -> is_Some (p_gc p'))).
Proof.
  intros Hnd Hd. eapply obeys_weaken; [by apply reconcile_obeys|].
  intros m p' ([? ?] & _ & Hs & ? & ?). auto.
Qed.

(** C36: The workers come to an end: when the latch reports the request to stop
    at the [n]-th wait at the latest, the launcher and the garbage collector
    leave their loops within [n + 1] turns and run to the end of their main
    functions. *)
Theorem workers_leave `{Answers Host} n fuel argument database launcher_pid h :
  stops_by n -> (n < fuel)%nat ->
  (pgs3_launcher_main fuel argument database launcher_pid h).2 = true /\ (pgs3_gc_main fuel argument h).2 = true.
Proof. intros Hn Hf. split; [by eapply launcher_main_ends|by eapply gc_main_ends]. Qed.

(** C35: The garbage collector starts no child and writes only when its latest
    recovery probe said the server is writable; by a clock that does not go
    back, its first sweeps run [GC_INTERVAL] after its start or later, and each
    kind of sweep [GC_INTERVAL] after the one before or later. *)
Theorem gc_sweeps `{Answers Host} fuel argument start :
  obeys policy no_watch (pgs3_gc_main fuel argument) (fun m _ => live m = ∅) /\
  obeys spacing {| clock := start; due_pending := start + GC_INTERVAL; due_blobs := start + GC_INTERVAL; backwards := false |}
    (pgs3_gc_main fuel argument) (fun _ _ => True).
Proof.
  split.
  - eapply obeys_weaken; [apply gc_main_obeys|]. by intros m b [-> _].
  - apply gc_main_spaced. right. simpl. auto with lia.
Qed.

(** C34: Whatever statements the launchers, the control functions and the
    workers have run, in any order, the heartbeat of a launcher finds its row
    when it was the last to claim it or to be named by [start], and returns
    what was last asked of the pool; a launcher whose row another has taken
    gets no answer. *)
Theorem launcher_row stmts backend pid status :
  Forall (fun s => names_child s.2 = true) stmts ->
  let answer := (execute backend (HeartbeatLauncher pid status) (execute_all stmts ∅)).2 in
  answer = (if owned pid (owners stmts) then snd <$> owners stmts else None) /\
  (forall pid' status', is_Some answer -> pid' <> pid ->
     (execute backend (HeartbeatLauncher pid' status') (execute_all stmts ∅)).2 = None).
Proof.
  intros Hk. pose proof (execute_all_own stmts ∅ None Hk eq_refl) as E. fold (owners stmts) in E.
  rewrite <- E. simpl. destruct (execute_all stmts ∅ !! launcher_key) as [r|] eqn:Hr; cycle 1.
  { rewrite unowned by done. done. }
  rewrite (owned_row _ _ _ Hr). unfold ownership. rewrite Hr. simpl. split; [done|].
  intros pid' status' [d Hd] Hne. unfold sql_eq in *. case_bool_decide as Hp; [|done].
  by rewrite bool_decide_eq_false_2 by congruence.
Qed.

(** ** Witnesses *)

(** A server where everything works: handles are numbered by the history, and
    the third wait brings the request to stop. *)
Definition demo_host : Answers Host :=
  fun A h effect =>
    match effect in Host B return B with
    | LoadDynamic _ => Some (Z.of_nat (length h))
    | WaitForStartup x => Ok (1000 + x)
    | HandleAlive _ => true
    | TerminateAndWait _ => true
    | Statement _ => Some true
    | TerminateBackends _ => true
    | TerminatePid _ _ => true
    | CurrentDatabase => Some (bs "postgres")
    | ControlLock => true
    | ConflictingDatabase => None
    | ActiveLauncher => None
    | RuntimeIsWritable => true
    | RuntimeSchemaReady => true
    | ServerRoleReady _ => true
    | ServerRole => bs "pgs3_server"
    | Enabled => true
    | Workers => 2
    | SighupReceived => false
    | ReloadConfiguration => tt
    | WaitLatch => (waits h <? 3)%nat
    | GcPendingUploads => Some 0
    | GcBlobs => Some 0
    | Now => Z.of_nat (length h)
    | SigtermReceived => false
    | ConnectAsService _ _ => tt
    | ListenAddr => bs "127.0.0.1"
    | Port => 9000
    | InlineThreshold => 65536
    | ChunkSize => 4194304
    | CSocket _ => 3
    | CSetsockopt _ _ _ => 0
    | CBind _ _ => 0
    | CListen _ _ => 0
    | CClose _ => tt
    | SetNonblocking _ => true
    | LastOsError => []
    | Accepts _ => []
    | WaitEvents _ _ => None
    end.

Definition demo_pool : WorkerPool :=
  {| p_database := bs "postgres"; p_launcher_pid := 500;
     p_http := [{| w_kind := bs "http"; w_slot := 5; w_pid := 600; w_handle := 77 |};
                {| w_kind := bs "http"; w_slot := 1; w_pid := 601; w_handle := 78 |}];
     p_gc := None; p_server_role := bs "pgs3_server" |}.

Lemma reconcile_pool_witness :
  w_slot <$> p_http (reconcile (H := demo_host) 2 true demo_pool []).2 = [1; 0] /\
  obeys policy (watching demo_pool false false) (reconcile (H := demo_host) 2 true demo_pool) (fun m p' =>
    live m = held (workers_of p') /\ Forall (fun w => w_handle w ∈ confirmed m) (workers_of p') /\
    slots_settled (H := demo_host) 2 m (p_http p') /\
    (true = false -> p_gc p' = None) /\ (true = true -> can_start (H := demo_host) -> is_Some (p_gc p'))).
Proof.
  split; [vm_compute; reflexivity|].
  apply (reconcile_pool (H := demo_host) 2 true demo_pool false false); [|done].
  apply (bool_decide_unpack _). vm_compute. exact I.
Defined.

Lemma workers_leave_witness :
  (pgs3_launcher_main (H := demo_host) 4 1 (bs "postgres") 500 []).2 = true /\
  (pgs3_gc_main (H := demo_host) 4 1 []).2 = true.
Proof.
  apply (workers_leave (H := demo_host) 3 4 1 (bs "postgres") 500 []); [|lia].
  intros h Hh. unfold answers, demo_host. by apply Nat.ltb_ge.
Defined.

Lemma launcher_row_witness :
  let stmts := [(500, ClaimLauncher 500 (bs "static") true); (900, ChildrenStopped);
                (900, PoolStopped (Some 500) (Some (bs "static")))] in
  let answer := (execute 500 (HeartbeatLauncher 500 (bs "running")) (execute_all stmts ∅)).2 in
  answer = Some false.
Proof.
  intros stmts answer.
  destruct (launcher_row stmts 500 500 (bs "running")) as [E _]; [repeat constructor|].
  unfold answer. rewrite E. vm_compute. reflexivity.
Defined.
