(* ===== verification/Worker.v ===== *)
(** The main function of an HTTP worker, from [src/src/workers/http.rs]: the
    bind configuration, the listening socket, the wait for events, and the loop
    around the connections of [Reactor], with reload and shutdown.  Addresses
    are parsed and printed as the standard library does.

    The theorems: whatever the system calls return, every socket the worker
    opens is configured before it is used and closed once, and connections are
    accepted only while the listener is the one socket open; and a worker whose
    metrics are taken leaves no in-flight count behind when it exits. *)
From stdpp Require Import gmap sorting.
From S2P Require Import Prelude Text Effects Http XmlWrite Types Canonical Framing Response Exchange Metrics Connection.
From S2P Require Import Reactor Host.
From S2P Require Launcher.

(** * Addresses *)

Inductive IpAddr :=
| V4 (octets : list Z)
| V6 (segments : list Z).

#[export] Instance IpAddr_eq_decision : EqDecision IpAddr.
Proof. solve_decision. Defined.

(** Digits of one number, at most [budget] of them: the value, how many there
    were and the rest. *)
Fixpoint read_digits (digit : byte -> option Z) (radix : Z) (budget : nat) (acc : Z) (count : nat) (b : bytes)
  : option (Z * nat * bytes) :=
  match b with
  | [] => Some (acc, count, [])
  | x :: rest =>
      match digit x with
      | None => Some (acc, count, b)
      | Some d =>
          match budget with
          | O => None
          | S budget => read_digits digit radix budget (acc * radix + d) (S count) rest
          end
      end
  end.

Definition decimal_digit (x : byte) : option Z := if is_ascii_digit x then Some (bval x - 48) else None.

Definition read_octet (b : bytes) : option (Z * bytes) :=
  match read_digits decimal_digit 10 3 0 0 b with
  | Some (v, count, rest) =>
      if (0 <? count)%nat && (v <=? 255) && negb ((1 <? count)%nat && match b with x :: _ => x ==b x30 | [] => false end)
      then Some (v, rest)
      else None
  | None => None
  end.

Definition read_group (b : bytes) : option (Z * bytes) :=
  match read_digits hex_digit 16 4 0 0 b with
  | Some (v, S _, rest) => Some (v, rest)
  | _ => None
  end.

Definition read_char (c : byte) (b : bytes) : option bytes :=
  match b with x :: rest => if x ==b c then Some rest else None | [] => None end.

Definition read_ipv4 (b : bytes) : option (list Z * bytes) :=
  match read_octet b with
  | Some (o1, b) =>
      match read_char x2e b ≫= read_octet with
      | Some (o2, b) =>
          match read_char x2e b ≫= read_octet with
          | Some (o3, b) =>
              match read_char x2e b ≫= read_octet with
              | Some (o4, b) => Some ([o1; o2; o3; o4], b)
              | None => None
              end
          | None => None
          end
      | None => None
      end
  | None => None
  end.

(** At most [n] groups; an IPv4 address may end them when two are left. *)
Fixpoint read_groups (n : nat) (first : bool) (b : bytes) : list Z * bool * bytes :=
  match n with
  | O => ([], false, b)
  | S n =>
      let after := if first then Some b else read_char x3a b in
      match (if (0 <? n)%nat then after ≫= read_ipv4 else None) with
      | Some ([o1; o2; o3; o4], rest) => ([o1 * 256 + o2; o3 * 256 + o4], true, rest)
      | _ =>
          match after ≫= read_group with
          | Some (g, rest) => let '(gs, ipv4, rest) := read_groups n false rest in (g :: gs, ipv4, rest)
          | None => ([], false, b)
          end
      end
  end.

Definition read_ipv6 (b : bytes) : option (list Z * bytes) :=
  let '(head, ipv4, rest) := read_groups 8 true b in
  if (length head =? 8)%nat then Some (head, rest)
  else if ipv4 then None
  else
    match read_char x3a rest ≫= read_char x3a with
    | None => None
    | Some rest =>
        let '(tail, _, rest) := read_groups (7 - length head) true rest in
        Some (head ++ replicate (8 - length head - length tail) 0 ++ tail, rest)
    end.

(** [raw.parse::<IpAddr>()] *)
Definition parse_ip (raw : bytes) : option IpAddr :=
  match read_ipv4 raw with
  | Some (octets, rest) => if is_empty rest then Some (V4 octets) else None
  | None =>
      match read_ipv6 raw with
      | Some (segments, rest) => if is_empty rest then Some (V6 segments) else None
      | None => None
      end
  end.

Fixpoint show_hex (fuel : nat) (n : Z) : bytes :=
  match fuel with
  | O => []
  | S fuel => (if n <? 16 then [] else show_hex fuel (n / 16)) ++ [hex_char (bs "0123456789abcdef") (n mod 16)]
  end.

Definition show_ipv4 (octets : list Z) : bytes := join [x2e] (map show_Z octets).
Definition show_segments (segments : list Z) : bytes := join [x3a] (map (show_hex 4) segments).

(** The first longest run of zeros, as its start and length. *)
Fixpoint longest_zeros (i : nat) (segments : list Z) (current longest : nat * nat) : nat * nat :=
  match segments with
  | [] => longest
  | s :: segments =>
      if s =? 0 then
        let current := (if (snd current =? 0)%nat then i else fst current, S (snd current)) in
        longest_zeros (S i) segments current (if (snd longest <? snd current)%nat then current else longest)
      else longest_zeros (S i) segments (0%nat, 0%nat) longest
  end.

(** [address.to_string()] *)
Definition show_ip (address : IpAddr) : bytes :=
  match address with
  | V4 octets => show_ipv4 octets
  | V6 [0; 0; 0; 0; 0; 65535; hi; lo] =>
      bs "::ffff:" ++ show_ipv4 [hi / 256; hi mod 256; lo / 256; lo mod 256]
  | V6 segments =>
      let (start, n) := longest_zeros 0 segments (0%nat, 0%nat) (0%nat, 0%nat) in
      if (1 <? n)%nat then show_segments (take start segments) ++ bs "::" ++ show_segments (drop (start + n) segments)
      else show_segments segments
  end.

Definition octets (address : IpAddr) : list Z :=
  match address with
  | V4 octets => octets
  | V6 segments => concat (map (fun s => [s / 256; s mod 256]) segments)
  end.

(** * The listening socket *)

Record BindConfig := { address : IpAddr; port : Z }.

#[export] Instance BindConfig_eq_decision : EqDecision BindConfig.
Proof. solve_decision. Defined.

Definition AF_INET : Z := 2.
Definition AF_INET6 : Z := 10.
Definition SOL_SOCKET : Z := 1.
Definition SO_REUSEADDR : Z := 2.
Definition SO_REUSEPORT : Z := 15.
Definition IPPROTO_IPV6 : Z := 41.
Definition IPV6_V6ONLY : Z := 26.

Definition family (address : IpAddr) : Z := match address with V4 _ => AF_INET | V6 _ => AF_INET6 end.
Definition is_v6 (address : IpAddr) : bool := match address with V4 _ => false | V6 _ => true end.

Definition sockaddr (config : BindConfig) : SockAddr :=
  {| sa_family := family (address config); sa_port := [port config / 256; port config mod 256];
     sa_address := octets (address config) |}.

Section Listener.
Context `{Answers Host}.

(** [Err(io::Error::last_os_error())] *)
Definition last_os_error {A} : Do (result bytes A) := let! e := ask LastOsError in ret (Err e).

(** A call that returns zero on success. *)
Definition checked (call : Do Z) : Do (result bytes unit) :=
  let! r := call in if r =? 0 then ret (Ok tt) else last_os_error.

Definition set_option (fd level name : Z) : Do (result bytes unit) := checked (ask (CSetsockopt fd level name)).

(** From the guard to [forget]. *)
Definition configure (fd : Z) (config : BindConfig) : Do (result bytes unit) :=
  let? _ := set_option fd SOL_SOCKET SO_REUSEADDR in
  let? _ := set_option fd SOL_SOCKET SO_REUSEPORT in
  let? _ := (if is_v6 (address config) then set_option fd IPPROTO_IPV6 IPV6_V6ONLY else ret (Ok tt)) in
  let? _ := checked (ask (CBind fd (sockaddr config))) in
  checked (ask (CListen fd (Z.of_nat MAX_CONNECTIONS))).

Definition set_nonblocking (fd : Z) : Do (result bytes unit) :=
  let! set := ask (SetNonblocking fd) in
  if (set : bool) then ret (Ok tt) else last_os_error.

(** The guard, and after it the listener itself, closes the socket on an
    error. *)
Definition or_close (fd : Z) (c : Do (result bytes unit)) : Do (result bytes unit) :=
  let! r := c in
  match r with
  | Ok _ => ret (Ok tt)
  | Err e => let! _ := ask (CClose fd) in ret (Err e)
  end.

Definition bind_reuse_port (config : BindConfig) : Do (result bytes Z) :=
  let! fd := ask (CSocket (family (address config))) in
  if fd <? 0 then last_os_error
  else
    let? _ := or_close fd (configure fd config) in
    let? _ := or_close fd (set_nonblocking fd) in
    ret (Ok fd).

Definition BindConfig_load : Do (result bytes BindConfig) :=
  let! raw := ask ListenAddr in
  match parse_ip raw with
  | None => ret (Err (bs "pgs3.listen_addr is not an IPv4 or IPv6 address: " ++ raw))
  | Some address => let! port := ask Port in ret (Ok {| address := address; port := port |})
  end.

Definition record_http (slot launcher_pid : Z) (status : bytes) (bind : option BindConfig) (error : option bytes) : Do unit :=
  let! _ := set_worker_state {| ws_kind := bs "http"; ws_slot := slot; ws_launcher_pid := launcher_pid;
               ws_status := status; ws_listen_addr := option_map (fun c => show_ip (address c)) bind;
               ws_port := option_map port bind; ws_error := error |} in
  ret tt.

(** * Metrics *)

(** The entries of a [BTreeMap], in the order of their keys. *)
Definition entry_le (p q : bytes * MetricDelta) : Prop := bytes_cmp p.1 q.1 <> Gt.

#[export] Instance entry_le_dec p q : Decision (entry_le p q).
Proof. unfold entry_le. solve_decision. Defined.

(** [retain]: the entries that stay, and whether none had to. *)
Fixpoint retain_entries (slot : Z) (entries : list (bytes * MetricDelta)) : Do (list (bytes * MetricDelta) * bool) :=
  match entries with
  | [] => ret ([], true)
  | (operation, delta) :: entries =>
      let! taken := add_worker_metric (bs "http") slot operation delta in
      let! rest := retain_entries slot entries in
      let (kept, success) := rest in
      ret (if taken then (kept, success) else ((operation, delta) :: kept, false))
  end.

Definition flush_worker_metrics (slot : Z) (m : Metrics) : Do (Metrics * bool) :=
  let! outcome := retain_entries slot (merge_sort entry_le (map_to_list m)) in
  let (kept, success) := outcome in ret (list_to_map kept, success).

(** * Waiting *)

Definition WL_SOCKET_READABLE : Z := 2.
Definition WL_SOCKET_WRITEABLE : Z := 4.
Definition WL_POSTMASTER_DEATH : Z := 16.

Definition connection_events {S} (c : Connection S) : Z :=
  if send_continue (exchange c) || is_writing (exchange c) then WL_SOCKET_WRITEABLE else WL_SOCKET_READABLE.

(** [false] when the postmaster has died or SIGTERM has come. *)
Definition wait_for_events {S} (listener : Z) (connections : list (Connection S)) : Do bool :=
  let! occurred := ask (WaitEvents listener (map connection_events connections)) in
  match occurred with
  | Some events =>
      if negb (Z.land events WL_POSTMASTER_DEATH =? 0) then ret false
      else let! term := sigterm_received in ret (negb term)
  | None => let! term := sigterm_received in ret (negb term)
  end.
End Listener.

(** * The worker *)

Definition HTTP_HEARTBEAT_INTERVAL : Z := 1000000000.

Record HttpWorker (H S : Type) := {
  hw_service : H;
  hw_bind : BindConfig;
  hw_listener : Z;
  hw_connections : list (Connection S);
  hw_metrics : Metrics;
  hw_next_heartbeat : Z
}.
Arguments hw_service {H S}.
Arguments hw_bind {H S}.
Arguments hw_listener {H S}.
Arguments hw_connections {H S}.
Arguments hw_metrics {H S}.
Arguments hw_next_heartbeat {H S}.

(** How a worker's main function ends; [Running] when the fuel is spent, and
    [Stuck] where driving the connections would not return. *)
Inductive Exit := Ended | Running | Stuck.

Section Worker.
Context {H S : Type} `{S3Handler H S} `{Answers Host} (instant : nat -> Z) (stamp : nat -> Clock).
Context (drive_unwinds : Z -> H -> Connection S -> option (H * Connection S))
        (abort_unwinds : H -> Exchange S -> option (H * Exchange S)).
(** The service for a configuration, which takes over what the one before it
    has done; what there is before the first; and the clock at the start. *)
Context (service_for : Z -> Z -> H -> H) (fresh : H) (boot : Clock).

Definition set_service (h : H) (w : HttpWorker H S) : HttpWorker H S :=
  {| hw_service := h; hw_bind := hw_bind w; hw_listener := hw_listener w; hw_connections := hw_connections w;
     hw_metrics := hw_metrics w; hw_next_heartbeat := hw_next_heartbeat w |}.
Definition set_listener (fd : Z) (config : BindConfig) (w : HttpWorker H S) : HttpWorker H S :=
  {| hw_service := hw_service w; hw_bind := config; hw_listener := fd; hw_connections := hw_connections w;
     hw_metrics := hw_metrics w; hw_next_heartbeat := hw_next_heartbeat w |}.
Definition set_connections (h : H) (m : Metrics) (conns : list (Connection S)) (w : HttpWorker H S) : HttpWorker H S :=
  {| hw_service := h; hw_bind := hw_bind w; hw_listener := hw_listener w; hw_connections := conns;
     hw_metrics := m; hw_next_heartbeat := hw_next_heartbeat w |}.
Definition set_heartbeat (m : Metrics) (next : Z) (w : HttpWorker H S) : HttpWorker H S :=
  {| hw_service := hw_service w; hw_bind := hw_bind w; hw_listener := hw_listener w;
     hw_connections := hw_connections w; hw_metrics := m; hw_next_heartbeat := next |}.

(** [PgS3Service::for_worker] on the configured sizes. *)
Definition for_worker (previous : H) : Do H :=
  let! inline := ask InlineThreshold in
  let! chunk := ask ChunkSize in
  ret (service_for (Z.max inline 0) chunk previous).

(** [connect_worker_to_spi_as_service], for PostgreSQL 17 and 18. *)
Definition connect_worker_to_spi_as_service (database role : bytes) : Do (result bytes unit) :=
  if existsb (fun b => b ==b x00) database then ret (Err (bs "database name contains NUL"))
  else if existsb (fun b => b ==b x00) role then ret (Err (bs "server role contains NUL"))
  else let! _ := ask (ConnectAsService database role) in ret (Ok tt).

(** On SIGHUP: the service is rebuilt after the reload; the old listener is
    dropped only when the new one is bound. *)
Definition reload (slot launcher_pid : Z) (w : HttpWorker H S) : Do (HttpWorker H S) :=
  let! _ := ask ReloadConfiguration in
  let! service := for_worker (hw_service w) in
  let w := set_service service w in
  let! loaded := BindConfig_load in
  match loaded with
  | Ok new_config =>
      if new_config ==b hw_bind w then ret w
      else
        let! bound := bind_reuse_port new_config in
        match bound with
        | Ok new_listener =>
            let! _ := ask (CClose (hw_listener w)) in
            let w := set_listener new_listener new_config w in
            let! _ := record_http slot launcher_pid (bs "running") (Some (hw_bind w)) None in
            ret w
        | Err error =>
            let! _ := record_http slot launcher_pid (bs "error") (Some (hw_bind w))
                        (Some (bs "SIGHUP rebind failed; retaining old socket: " ++ error)) in
            ret w
        end
  | Err error =>
      let! _ := record_http slot launcher_pid (bs "error") (Some (hw_bind w)) (Some error) in ret w
  end.

(** One round of the loop up to its wait. *)
Definition http_turn (slot launcher_pid : Z) (overload_response : bytes) (w : HttpWorker H S) : Do (option (HttpWorker H S)) :=
  let! hup := sighup_received in
  let! w := (if hup then reload slot launcher_pid w else ret w) in
  let! accepted := ask (Accepts (hw_listener w)) in
  let (m, conns) := accept_connections instant overload_response (hw_metrics w) (hw_connections w) accepted in
  let! t := now in
  match drive_connections instant stamp drive_unwinds abort_unwinds t (hw_service w) m conns with
  | None => ret None
  | Some (h, m, conns) =>
      let w := set_connections h m conns w in
      let! t := now in
      if hw_next_heartbeat w <=? t then
        let! flushed := flush_worker_metrics slot (hw_metrics w) in
        let! _ := record_http slot launcher_pid (bs "running") (Some (hw_bind w)) None in
        let! t := now in
        ret (Some (set_heartbeat (fst flushed) (t + HTTP_HEARTBEAT_INTERVAL) w))
      else ret (Some w)
  end.

(** The worker at the end of its loop. *)
Fixpoint http_loop (fuel : nat) (slot launcher_pid : Z) (overload_response : bytes) (w : HttpWorker H S) : Do (Exit * HttpWorker H S) :=
  match fuel with
  | O => ret (Running, w)
  | Datatypes.S fuel =>
      let! next := http_turn slot launcher_pid overload_response w in
      match next with
      | None => ret (Stuck, w)
      | Some w =>
          let! go := wait_for_events (hw_listener w) (hw_connections w) in
          if go then http_loop fuel slot launcher_pid overload_response w else ret (Ended, w)
      end
  end.

(** After the loop; the listener is dropped last. *)
Definition http_shutdown (slot launcher_pid : Z) (w : HttpWorker H S) : Do H :=
  let (h, m) := abandon_connections instant abort_unwinds (hw_service w) (hw_metrics w) (hw_connections w) in
  let! _ := flush_worker_metrics slot m in
  let! _ := record_http slot launcher_pid (bs "stopped") (Some (hw_bind w)) None in
  let! _ := ask (CClose (hw_listener w)) in
  ret h.

Definition bind_message (config : BindConfig) (error : bytes) : bytes :=
  bs "could not bind " ++ show_ip (address config) ++ bs ":" ++ show_Z (port config)
    ++ bs " with SO_REUSEPORT: " ++ error.

(** The loop with a listener in place, to the end of the process. *)
Definition serve (fuel : nat) (slot launcher_pid : Z) (config : BindConfig) (listener : Z) : Do (Exit * H) :=
  let overload_response := overload_response_bytes boot in
  let! service := for_worker fresh in
  let! t := now in
  let! _ := record_http slot launcher_pid (bs "running") (Some config) None in
  let! outcome := http_loop fuel slot launcher_pid overload_response
                    {| hw_service := service; hw_bind := config; hw_listener := listener; hw_connections := [];
                       hw_metrics := ∅; hw_next_heartbeat := t |} in
  match outcome with
  | (Ended, w) => let! h := http_shutdown slot launcher_pid w in ret (Ended, h)
  | (other, w) => ret (other, hw_service w)
  end.

(** How the process ends, and the service it leaves. *)
Definition pgs3_http_main (fuel : nat) (argument : Z) (database : bytes) : Do (Exit * H) :=
  let (launcher_pid, slot) := unpack_child_argument argument in
  let! server_role := ask ServerRole in
  let! connected := connect_worker_to_spi_as_service database server_role in
  match connected with
  | Err _ => ret (Ended, fresh)
  | Ok _ =>
      let! ready := runtime_schema_ready in
      if negb ready then ret (Ended, fresh)
      else
        let! loaded := BindConfig_load in
        match loaded with
        | Err error => let! _ := record_http slot launcher_pid (bs "error") None (Some error) in ret (Ended, fresh)
        | Ok config =>
            let! bound := bind_reuse_port config in
            match bound with
            | Err error =>
                let! _ := record_http slot launcher_pid (bs "error") (Some config) (Some (bind_message config error)) in
                ret (Ended, fresh)
            | Ok listener => serve fuel slot launcher_pid config listener
            end
        end
  end.
End Worker.

(** * Properties: sockets *)

(** A socket that is open, and what was done to it. *)
Record Sock := {
  k_family : Z;
  k_options : list (Z * Z);
  k_address : option SockAddr;
  k_listening : bool;
  k_nonblocking : bool
}.

Definition new_sock (family : Z) : Sock :=
  {| k_family := family; k_options := []; k_address := None; k_listening := false; k_nonblocking := false |}.
Definition add_option (level name : Z) (k : Sock) : Sock :=
  {| k_family := k_family k; k_options := k_options k ++ [(level, name)]; k_address := k_address k;
     k_listening := k_listening k; k_nonblocking := k_nonblocking k |}.
Definition set_address (a : SockAddr) (k : Sock) : Sock :=
  {| k_family := k_family k; k_options := k_options k; k_address := Some a; k_listening := k_listening k;
     k_nonblocking := k_nonblocking k |}.
Definition set_listening (k : Sock) : Sock :=
  {| k_family := k_family k; k_options := k_options k; k_address := k_address k; k_listening := true;
     k_nonblocking := k_nonblocking k |}.
Definition set_nonblock (k : Sock) : Sock :=
  {| k_family := k_family k; k_options := k_options k; k_address := k_address k; k_listening := k_listening k;
     k_nonblocking := true |}.

(** The open sockets by descriptor; [None] once the system has returned a
    descriptor that is still open, which it does not. *)
Abbreviation Sockets := (option (gmap Z Sock)).

Definition on_socket (fd : Z) (allowed : Sock -> bool) (next : Sock -> Sock) (s : Sockets) : option Sockets :=
  match s with
  | None => Some None
  | Some sockets =>
      match sockets !! fd with
      | Some k => if allowed k then Some (Some (<[fd := next k]> sockets)) else None
      | None => None
      end
  end.

(** The only socket open is the listener, ready to accept. *)
Definition only_listener (fd : Z) (s : Sockets) : option Sockets :=
  match s with
  | None => Some None
  | Some sockets =>
      match sockets !! fd with
      | Some k => if k_listening k && k_nonblocking k && (size sockets =? 1)%nat then Some s else None
      | None => None
      end
  end.

Definition has_option (level name : Z) (k : Sock) : bool := bool_decide ((level, name) ∈ k_options k).

Definition bindable (a : SockAddr) (k : Sock) : bool :=
  (k_address k ==b None) && (sa_family a =? k_family k) && has_option SOL_SOCKET SO_REUSEADDR k
  && has_option SOL_SOCKET SO_REUSEPORT k && (negb (k_family k =? AF_INET6) || has_option IPPROTO_IPV6 IPV6_V6ONLY k).

(** The rules of the sockets: options before [bind], [bind] with them all,
    [listen] after it, use and closing of open sockets only, and connections
    taken from one ready listener. *)
Definition socket_rules (s : Sockets) (e : Interaction Host) : option Sockets :=
  match e with
  | Happens effect answer =>
      match effect in Host A return A -> option Sockets with
      | CSocket family => fun fd =>
          if fd <? 0 then Some s
          else
            match s with
            | Some sockets =>
                match sockets !! fd with
                | None => Some (Some (<[fd := new_sock family]> sockets))
                | Some _ => Some None
                end
            | None => Some None
            end
      | CSetsockopt fd level name => fun r =>
          on_socket fd (fun k => k_address k ==b None) (fun k => if r =? 0 then add_option level name k else k) s
      | CBind fd a => fun r => on_socket fd (bindable a) (fun k => if r =? 0 then set_address a k else k) s
      | CListen fd _ => fun r =>
          on_socket fd (fun k => negb (k_address k ==b None)) (fun k => if r =? 0 then set_listening k else k) s
      | SetNonblocking fd => fun r => on_socket fd k_listening (fun k => if (r : bool) then set_nonblock k else k) s
      | CClose fd => fun _ =>
          match s with
          | None => Some None
          | Some sockets => match sockets !! fd with Some _ => Some (Some (delete fd sockets)) | None => None end
          end
      | Accepts fd => fun _ => only_listener fd s
      | WaitEvents fd _ => fun _ => only_listener fd s
      | _ => fun _ => Some s
      end answer
  end.

(** A socket in the state [k] beside the others. *)
Definition socket_at (broken : bool) (fd : Z) (k : Sock) (others : gmap Z Sock) (s : Sockets) : Prop :=
  s = if broken then None else Some (<[fd := k]> others).
Definition sockets_are (broken : bool) (sockets : gmap Z Sock) (s : Sockets) : Prop :=
  s = if broken then None else Some sockets.

(** The socket [bind_reuse_port] makes. *)
Definition ready_options (config : BindConfig) : list (Z * Z) :=
  [(SOL_SOCKET, SO_REUSEADDR); (SOL_SOCKET, SO_REUSEPORT)] ++
  if is_v6 (address config) then [(IPPROTO_IPV6, IPV6_V6ONLY)] else [].
Definition ready_sock (config : BindConfig) : Sock :=
  {| k_family := family (address config); k_options := ready_options config; k_address := Some (sockaddr config);
     k_listening := true; k_nonblocking := true |}.

Lemma on_socket_at broken fd allowed next k others s :
  socket_at broken fd k others s -> allowed k = true ->
  exists s', on_socket fd allowed next s = Some s' /\ socket_at broken fd (next k) others s'.
Proof.
  unfold socket_at. intros -> Ha. destruct broken; simpl; [eauto|]. rewrite lookup_insert_eq, Ha.
  eexists. split; [done|]. by rewrite insert_insert_eq.
Qed.

Section Sockets.
Context `{Answers Host}.
#[local] Abbreviation obeys := (Effects.obeys socket_rules).

Ltac passes a := eapply obeys_bind; [by apply obeys_steady|]; intros ? a ->.

Lemma last_os_error_sockets s {A} : obeys s (last_os_error (A := A)) (fun s' r => s' = s /\ exists e, r = Err e).
Proof. unfold last_os_error. passes e. apply obeys_ret. eauto. Qed.

(** One call on a socket: on success the socket has moved on. *)
Lemma checked_socket s broken fd k k' others (effect : Host Z) :
  (forall a, exists s', socket_rules s (Happens effect a) = Some s' /\ socket_at broken fd (if a =? 0 then k' else k) others s') ->
  obeys s (checked (ask effect)) (fun s' r =>
    socket_at broken fd (match r with Ok _ => k' | Err _ => k end) others s').
Proof.
  intros Hs. unfold checked. eapply obeys_bind.
  { apply obeys_ask. intros h. destruct (Hs (answers Z h effect)) as (s' & E & Hat). exists s'. split; [exact E|].
    instantiate (1 := fun s' r => socket_at broken fd (if r =? 0 then k' else k) others s'). exact Hat. }
  intros s' r Hat. simpl in *. destruct (r =? 0); [by apply obeys_ret|].
  eapply obeys_weaken; [apply last_os_error_sockets|]. intros s2 r2 [-> [e ->]]. done.
Qed.

Lemma set_option_sockets s broken fd level name k others :
  socket_at broken fd k others s -> k_address k = None ->
  obeys s (set_option fd level name) (fun s' r =>
    socket_at broken fd (match r with Ok _ => add_option level name k | Err _ => k end) others s').
Proof.
  intros Hat Hk. apply checked_socket. intros a. simpl.
  destruct (on_socket_at broken fd (fun k => k_address k ==b None) (fun k => if a =? 0 then add_option level name k else k)
    k others s Hat) as (s' & E & Hs'); [by rewrite Hk|]. exists s'. split; [exact E|]. exact Hs'.
Qed.

Definition bound_sock (config : BindConfig) : Sock :=
  {| k_family := family (address config); k_options := ready_options config; k_address := Some (sockaddr config);
     k_listening := true; k_nonblocking := false |}.

#[local] Abbreviation configured broken fd others good := (fun s' (r : result bytes unit) =>
  match r with Ok _ => socket_at broken fd good others s' | Err _ => exists k, socket_at broken fd k others s' end).

Ltac failed := intros ? ? Hfail; eexists; exact Hfail.

Lemma configure_sockets s broken fd config others :
  socket_at broken fd (new_sock (family (address config))) others s ->
  obeys s (configure fd config) (configured broken fd others (bound_sock config)).
Proof.
  intros Hat. eapply obeys_try; [by apply set_option_sockets| |failed]. intros s1 [] H1.
  eapply obeys_try; [by apply set_option_sockets| |failed]. intros s2 [] H2. eapply obeys_try.
  { instantiate (1 := fun s' r => socket_at broken fd {| k_family := family (address config);
      k_options := match r with Ok _ => ready_options config | Err _ => [(SOL_SOCKET, SO_REUSEADDR); (SOL_SOCKET, SO_REUSEPORT)] end;
      k_address := None; k_listening := false; k_nonblocking := false |} others s').
    unfold ready_options. destruct (is_v6 (address config)); [|by apply obeys_ret].
    eapply obeys_weaken; [by apply set_option_sockets|]. by intros s3 [[]|e] H3. }
  2: failed. intros s3 [] H3. eapply obeys_try.
  { match type of H3 with socket_at _ _ ?k _ _ =>
      apply (checked_socket _ broken fd k (set_address (sockaddr config) k) others) end.
    intros a. simpl. eapply (on_socket_at broken fd (bindable (sockaddr config))
      (fun k => if a =? 0 then set_address (sockaddr config) k else k)); [exact H3|].
    unfold bindable, sockaddr, has_option, ready_options. destruct (address config); done. }
  2: failed. intros s4 [] H4. eapply obeys_weaken.
  - match type of H4 with socket_at _ _ ?k _ _ => apply (checked_socket _ broken fd k (bound_sock config) others) end.
    intros a. exact (on_socket_at broken fd (fun k => negb (k_address k ==b None))
      (fun k => if a =? 0 then set_listening k else k) _ _ _ H4 eq_refl).
  - intros s5 [[]|e] H5; [done|by eexists].
Qed.

Lemma set_nonblocking_sockets s broken fd config others :
  socket_at broken fd (bound_sock config) others s ->
  obeys s (set_nonblocking fd) (configured broken fd others (ready_sock config)).
Proof.
  intros Hat. unfold set_nonblocking. eapply obeys_bind.
  { apply obeys_ask. intros h. simpl.
    destruct (on_socket_at broken fd k_listening (fun k => if answers bool h (SetNonblocking fd) then set_nonblock k else k)
      (bound_sock config) others s Hat eq_refl) as (s' & E & Hs'). exists s'. split; [exact E|].
    instantiate (1 := fun s' (r : bool) => socket_at broken fd (if r then ready_sock config else bound_sock config) others s').
    by destruct (answers bool h (SetNonblocking fd)). }
  intros s1 [] H1; [by apply obeys_ret|].
  eapply obeys_weaken; [apply last_os_error_sockets|]. intros s2 r [-> [e ->]]. eauto.
Qed.

(** An error closes the socket. *)
Lemma or_close_sockets s broken fd c good others :
  (broken = false -> others !! fd = None) -> obeys s c (configured broken fd others good) ->
  obeys s (or_close fd c) (fun s' r =>
    match r with Ok _ => socket_at broken fd good others s' | Err _ => sockets_are broken others s' end).
Proof.
  intros Hf Hc. eapply obeys_bind; [exact Hc|]. intros s1 [[]|e] H1; [by apply obeys_ret|].
  destruct H1 as [k ->]. eapply obeys_bind.
  - apply obeys_ask. intros h. instantiate (1 := fun s' _ => sockets_are broken others s'). simpl.
    unfold sockets_are. destruct broken; [eauto|]. rewrite lookup_insert_eq. eexists. split; [done|].
    by rewrite delete_insert_id by auto.
  - intros s2 ? H2. by apply obeys_ret.
Qed.

Lemma bind_reuse_port_sockets s broken sockets config :
  sockets_are broken sockets s ->
  obeys s (bind_reuse_port config) (fun s' r =>
    match r with
    | Ok fd => exists broken, (broken = false -> sockets !! fd = None) /\ socket_at broken fd (ready_sock config) sockets s'
    | Err _ => exists broken, sockets_are broken sockets s'
    end).
Proof.
  intros Hs. unfold bind_reuse_port. eapply obeys_bind.
  { apply obeys_ask. intros h. simpl. instantiate (1 := fun s' fd =>
      if fd <? 0 then s' = s
      else exists broken, (broken = false -> sockets !! fd = None) /\
        socket_at broken fd (new_sock (family (address config))) sockets s').
    cbv beta. destruct (_ <? 0); [eauto|]. unfold sockets_are in Hs. destruct broken; subst s.
    - exists None. split; [done|]. by exists true.
    - destruct (sockets !! _) eqn:E; eexists; (split; [done|]); [by exists true|by exists false]. }
  intros s1 fd H1. simpl in H1. destruct (fd <? 0).
  { subst s1. eapply obeys_weaken; [apply last_os_error_sockets|]. intros s2 r [-> [e ->]]. eauto. }
  destruct H1 as (b & Hf & Hat).
  eapply obeys_try; [apply (or_close_sockets _ b); [done|by apply configure_sockets]| |failed]. intros s2 [] H2.
  eapply obeys_try; [apply (or_close_sockets _ b); [done|by apply set_nonblocking_sockets]| |failed]. intros s3 [] H3.
  apply obeys_ret. eauto.
Qed.

(** ** What leaves the sockets alone *)

Lemma record_http_sockets s slot launcher_pid status bind error :
  obeys s (record_http slot launcher_pid status bind error) (fun s' _ => s' = s).
Proof. eapply obeys_bind; [by apply set_worker_state_steady|]. intros ? ? ->. by apply obeys_ret. Qed.

Lemma retain_entries_sockets s slot entries : obeys s (retain_entries slot entries) (fun s' _ => s' = s).
Proof.
  induction entries as [|[op d] entries IH]; simpl; [by apply obeys_ret|].
  eapply obeys_bind; [by apply add_worker_metric_steady|]. intros ? taken ->.
  eapply obeys_bind; [apply IH|]. intros ? [kept success] ->. by apply obeys_ret.
Qed.

Lemma flush_sockets s slot m : obeys s (flush_worker_metrics slot m) (fun s' _ => s' = s).
Proof. eapply obeys_bind; [apply retain_entries_sockets|]. intros ? [kept success] ->. by apply obeys_ret. Qed.

Lemma BindConfig_load_sockets s : obeys s BindConfig_load (fun s' _ => s' = s).
Proof.
  unfold BindConfig_load. passes raw. destruct (parse_ip raw); [|by apply obeys_ret]. passes p. by apply obeys_ret.
Qed.

Lemma wait_for_events_sockets {C} s fd (conns : list (Connection C)) :
  only_listener fd s = Some s -> obeys s (wait_for_events fd conns) (fun s' _ => s' = s).
Proof.
  intros Hs. eapply obeys_bind; [apply obeys_steady; intros a; exact Hs|].
  intros ? [events|] ->; [destruct (negb _); [by apply obeys_ret|]|]; passes term; by apply obeys_ret.
Qed.

(** The listener is the one socket open. *)
Definition listening (fd : Z) (config : BindConfig) (s : Sockets) : Prop :=
  exists broken, socket_at broken fd (ready_sock config) ∅ s.

Lemma listening_only fd config s : listening fd config s -> only_listener fd s = Some s.
Proof.
  intros [[] ->]; simpl; [done|]. rewrite lookup_insert_eq. simpl. rewrite map_size_insert_None by done.
  by rewrite map_size_empty.
Qed.

(** The old listener is closed after the new one is bound. *)
Lemma replace_listener s old fd config config' broken :
  (broken = false -> ({[old := ready_sock config]} : gmap Z Sock) !! fd = None) ->
  socket_at broken fd (ready_sock config') {[old := ready_sock config]} s ->
  obeys s (ask (CClose old)) (fun s' _ => listening fd config' s').
Proof.
  intros Hf ->. apply obeys_ask. intros h. simpl. destruct broken; [exists None; split; [done|by exists true]|].
  specialize (Hf eq_refl). apply lookup_singleton_None in Hf. rewrite lookup_insert_ne, lookup_singleton_eq by done.
  eexists. split; [done|]. exists false. unfold socket_at. rewrite delete_insert_ne by done. by rewrite delete_singleton_eq.
Qed.

Lemma drop_listener s fd config :
  listening fd config s -> obeys s (ask (CClose fd)) (fun s' _ => s' = None \/ s' = Some ∅).
Proof.
  intros [[] ->]; apply obeys_ask; intros h; simpl; [eauto|]. rewrite lookup_insert_eq. eexists. split; [done|].
  right. by rewrite delete_insert_id.
Qed.
End Sockets.

Section ListenerKept.
Context {H S : Type} `{S3Handler H S} `{Answers Host} (instant : nat -> Z) (stamp : nat -> Clock).
Context (drive_unwinds : Z -> H -> Connection S -> option (H * Connection S))
        (abort_unwinds : H -> Exchange S -> option (H * Exchange S)) (service_for : Z -> Z -> H -> H) (fresh : H) (boot : Clock).
#[local] Abbreviation obeys := (Effects.obeys socket_rules).
#[local] Abbreviation kept := (fun s (w : HttpWorker H S) => listening (hw_listener w) (hw_bind w) s).

Ltac passes a := eapply obeys_bind; [by apply obeys_steady|]; intros ? a ->.
Ltac quietly lem := eapply obeys_bind; [apply lem|]; intros ? ? ->.

Lemma for_worker_sockets s previous : obeys s (for_worker service_for previous) (fun s' _ => s' = s).
Proof. unfold for_worker. passes a. passes b. by apply obeys_ret. Qed.

Lemma reload_sockets s slot launcher_pid w :
  kept s w -> obeys s (reload service_for slot launcher_pid w) kept.
Proof.
  intros Hs. unfold reload. passes u. quietly for_worker_sockets.
  eapply obeys_bind; [apply BindConfig_load_sockets|]. intros ? [config|error] ->; cycle 1.
  { quietly record_http_sockets. by apply obeys_ret. }
  simpl. destruct (config ==b hw_bind w); [by apply obeys_ret|]. destruct Hs as [b Hb].
  eapply obeys_bind; [by apply (bind_reuse_port_sockets _ b)|]. intros s1 [fd|error].
  - intros (b' & Hf & K1). eapply obeys_bind; [by eapply replace_listener|]. intros s2 ? K2.
    quietly record_http_sockets. by apply obeys_ret.
  - intros [b' K1]. quietly record_http_sockets. apply obeys_ret. by exists b'.
Qed.

Lemma http_turn_sockets s slot launcher_pid overload w :
  kept s w ->
  obeys s (http_turn instant stamp drive_unwinds abort_unwinds service_for slot launcher_pid overload w)
    (fun s' r => match r with Some w' => kept s' w' | None => True end).
Proof.
  intros Hs. unfold http_turn. passes hup. eapply obeys_bind.
  { instantiate (1 := kept). destruct hup; [by apply reload_sockets|by apply obeys_ret]. }
  clear s w Hs. intros s w Hs. eapply obeys_bind.
  { apply (obeys_steady socket_rules s). intros a. exact (listening_only _ _ _ Hs). }
  intros ? accepted ->. destruct (accept_connections _ _ _ _ _) as [m conns]. passes t.
  destruct (drive_connections _ _ _ _ _ _ _ _) as [[[h m1] conns1]|]; [|by apply obeys_ret]. passes t'.
  simpl. destruct (_ <=? _); [|by apply obeys_ret]. quietly flush_sockets. quietly record_http_sockets.
  passes t2. by apply obeys_ret.
Qed.

Lemma http_loop_sockets fuel s slot launcher_pid overload w :
  kept s w ->
  obeys s (http_loop instant stamp drive_unwinds abort_unwinds service_for fuel slot launcher_pid overload w)
    (fun s' r => r.1 = Ended -> kept s' r.2).
Proof.
  revert s w. induction fuel as [|fuel IH]; intros s w Hs; simpl; [by apply obeys_ret|].
  eapply obeys_bind; [by apply http_turn_sockets|]. intros s1 [w1|] K1; [|by apply obeys_ret].
  eapply obeys_bind; [apply wait_for_events_sockets; by eapply listening_only|]. intros ? go ->.
  destruct go; [by apply IH|by apply obeys_ret].
Qed.

Lemma http_shutdown_sockets s slot launcher_pid w :
  kept s w -> obeys s (http_shutdown instant abort_unwinds slot launcher_pid w) (fun s' _ => s' = None \/ s' = Some ∅).
Proof.
  intros Hs. unfold http_shutdown. destruct (abandon_connections _ _ _ _ _) as [h m].
  quietly flush_sockets. quietly record_http_sockets.
  eapply obeys_bind; [eapply drop_listener; exact Hs|]. intros s1 ? K1. by apply obeys_ret.
Qed.

Lemma serve_sockets fuel s slot launcher_pid config listener :
  listening listener config s ->
  obeys s (serve instant stamp drive_unwinds abort_unwinds service_for fresh boot fuel slot launcher_pid config listener)
    (fun s' r => r.1 = Ended -> s' = None \/ s' = Some ∅).
Proof.
  intros Hs. unfold serve. quietly for_worker_sockets. passes t. quietly record_http_sockets.
  eapply obeys_bind; [by apply http_loop_sockets|]. intros s1 [[] w] K1; try (by apply obeys_ret).
  eapply obeys_bind; [apply http_shutdown_sockets; by apply K1|]. intros s2 ? K2. by apply obeys_ret.
Qed.

Lemma http_main_sockets fuel argument database :
  obeys (Some ∅)
    (pgs3_http_main instant stamp drive_unwinds abort_unwinds service_for fresh boot fuel argument database)
    (fun s r => r.1 = Ended -> s = None \/ s = Some ∅).
Proof.
  unfold pgs3_http_main. destruct (unpack_child_argument argument) as [launcher_pid slot]. passes role.
  eapply obeys_bind.
  { instantiate (1 := fun s' _ => s' = Some ∅). unfold connect_worker_to_spi_as_service.
    repeat (destruct (existsb _ _); [by apply obeys_ret|]). passes u. by apply obeys_ret. }
  intros ? [[]|e] ->; [|apply obeys_ret; auto]. passes up. destruct up; simpl; [|apply obeys_ret; auto].
  eapply obeys_bind; [apply BindConfig_load_sockets|]. intros ? [config|error] ->; cycle 1.
  { quietly record_http_sockets. apply obeys_ret. auto. }
  eapply obeys_bind; [by apply (bind_reuse_port_sockets _ false ∅)|]. intros s1 [fd|error].
  - intros (b & _ & K1). apply serve_sockets. by exists b.
  - intros [b Hb]. quietly record_http_sockets. apply obeys_ret. intros _. unfold sockets_are in Hb. destruct b; auto.
Qed.
End ListenerKept.

(** * Properties: the gauge in the database *)

(** What was handed over for each operation. *)
Definition tally (s : bytes -> Z) (e : Interaction Host) : option (bytes -> Z) :=
  match e with
  | Happens effect answer =>
      match effect in Host A return A -> option (bytes -> Z) with
      | Statement (WorkerAddMetric _ _ operation delta) => fun done =>
          match (done : option bool) with
          | Some _ => Some (fun op => s op + here operation op * in_flight_delta delta)
          | None => Some s
          end
      | _ => fun _ => Some s
      end answer
  end.

(** A writable server that takes every metric. *)
Definition takes_metrics `{Answers Host} : Prop :=
  (forall h, answers bool h RuntimeIsWritable = true) /\
  (forall h kind slot operation delta,
    is_Some (answers (option bool) h (Statement (WorkerAddMetric kind slot operation delta)))).

(** The in-flight count of entries. *)
Definition counted_in (op : bytes) (entries : list (bytes * MetricDelta)) : Z :=
  total (fun p => here p.1 op * in_flight_delta p.2) entries.

Lemma here_other op entries :
  op ∉ entries.*1 -> counted_in op entries = 0.
Proof.
  unfold counted_in. induction entries as [|[k d] entries IH]; [done|]. rewrite fmap_cons, not_elem_of_cons, total_cons.
  intros [Hk Hn]. simpl in *. rewrite here_ne, IH by done. lia.
Qed.

Lemma counted_in_map (op : bytes) (m : Metrics) : counted_in op (map_to_list m) = in_flight m op.
Proof.
  induction m as [|k d m Hk IH] using map_ind.
  - unfold counted_in. by rewrite map_to_list_empty.
  - unfold counted_in in *. rewrite (total_perm _ _ _ (map_to_list_insert m k d Hk)), total_cons, IH.
    rewrite in_flight_insert. simpl. case_decide as E.
    + subst op. rewrite here_eq. unfold in_flight, entry. rewrite Hk. simpl. lia.
    + rewrite here_ne by done. lia.
Qed.

Lemma flushed_books {C} (s s' : bytes -> Z) m (conns : list (Connection C)) :
  books s m conns -> (forall op, s' op = s op + in_flight m op) -> books s' ∅ conns.
Proof.
  intros [B1 B2 B3 B4] Hs. constructor; [done|done| |]; intros op; rewrite Hs, (B4 op).
  - pose proof (active_bounds op conns) as Ha. unfold len in Ha. lia.
  - unfold in_flight, entry. rewrite lookup_empty. simpl. lia.
Qed.

Section Tally.
Context {H S : Type} `{S3Handler H S} `{Answers Host} (instant : nat -> Z) (stamp : nat -> Clock).
Context (drive_unwinds : Z -> H -> Connection S -> option (H * Connection S))
        (abort_unwinds : H -> Exchange S -> option (H * Exchange S)) (service_for : Z -> Z -> H -> H) (fresh : H) (boot : Clock).
Hypothesis unwinds_tracked : forall now h c h' c', drive_unwinds now h c = Some (h', c') -> tracked c ->
  keeps c c' /\ tracked c'.
Hypothesis taken : takes_metrics.
#[local] Abbreviation obeys := (Effects.obeys tally).
#[local] Abbreviation balanced := (fun s (w : HttpWorker H S) => books s (hw_metrics w) (hw_connections w)).

Ltac passes a := eapply obeys_bind; [by apply obeys_steady|]; intros ? a ->.
Ltac quietly lem := eapply obeys_bind; [apply lem|]; intros ? ? ->.

Lemma add_worker_metric_tally s kind slot operation delta :
  obeys s (add_worker_metric kind slot operation delta) (fun s' r =>
    r = true /\ forall op, s' op = s op + here operation op * in_flight_delta delta).
Proof.
  destruct taken as [Hw Ht]. unfold add_worker_metric, MetricDelta_is_empty. case_bool_decide as E.
  { apply obeys_ret. split; [done|]. intros op. subst delta. simpl. lia. }
  eapply obeys_bind.
  { apply obeys_ask. intros h. exists s. split; [done|]. instantiate (1 := fun s' w => s' = s /\ w = true). by rewrite Hw. }
  intros ? ? [-> ->]. simpl. eapply obeys_bind.
  { apply obeys_ask. intros h. destruct (Ht h kind slot operation delta) as [d Ed]. simpl. rewrite Ed.
    eexists. split; [done|]. instantiate (1 := fun s' r =>
      (forall op, s' op = s op + here operation op * in_flight_delta delta) /\ is_Some r).
    cbv beta. by split; [|eexists]. }
  intros s1 r [Hs [d ->]]. by apply obeys_ret.
Qed.

Lemma retain_entries_tally s slot entries :
  obeys s (retain_entries slot entries) (fun s' r => r = ([], true) /\ forall op, s' op = s op + counted_in op entries).
Proof.
  revert s. induction entries as [|[k d] entries IH]; intros s; simpl.
  { apply obeys_ret. split; [done|]. intros op. unfold counted_in, total. simpl. lia. }
  eapply obeys_bind; [apply add_worker_metric_tally|]. intros s1 ? [-> K1].
  eapply obeys_bind; [apply IH|]. intros s2 ? [-> K2]. apply obeys_ret. split; [done|]. intros op.
  unfold counted_in, total in *. rewrite K2, K1. simpl. lia.
Qed.

Lemma flush_tally s slot m :
  obeys s (flush_worker_metrics slot m) (fun s' r => r = (∅, true) /\ forall op, s' op = s op + in_flight m op).
Proof.
  eapply obeys_bind; [apply retain_entries_tally|]. intros s1 ? [-> K1]. apply obeys_ret. split; [done|].
  intros op. rewrite K1, <- counted_in_map. unfold counted_in.
  by rewrite (total_perm _ _ _ (merge_sort_Permutation entry_le (map_to_list m))).
Qed.

Lemma record_http_tally s slot launcher_pid status bind error :
  obeys s (record_http slot launcher_pid status bind error) (fun s' _ => s' = s).
Proof. eapply obeys_bind; [by apply set_worker_state_steady|]. intros ? ? ->. by apply obeys_ret. Qed.

Lemma for_worker_tally s previous : obeys s (for_worker service_for previous) (fun s' _ => s' = s).
Proof. unfold for_worker. passes a. passes b. by apply obeys_ret. Qed.

Lemma BindConfig_load_tally s : obeys s BindConfig_load (fun s' _ => s' = s).
Proof.
  unfold BindConfig_load. passes raw. destruct (parse_ip raw); [|by apply obeys_ret]. passes p. by apply obeys_ret.
Qed.

Lemma checked_tally s call : obeys s call (fun s' _ => s' = s) -> obeys s (checked call) (fun s' _ => s' = s).
Proof.
  intros Hc. eapply obeys_bind; [exact Hc|]. intros ? r ->. destruct (r =? 0); [by apply obeys_ret|].
  unfold last_os_error. passes e. by apply obeys_ret.
Qed.

Lemma or_close_tally s fd c :
  obeys s c (fun s' _ => s' = s) -> obeys s (or_close fd c) (fun s' _ => s' = s).
Proof.
  intros Hc. eapply obeys_bind; [exact Hc|]. intros ? [[]|e] ->; [by apply obeys_ret|]. passes u. by apply obeys_ret.
Qed.

Ltac tries s := eapply (obeys_try tally s _ _ (fun s' _ => s' = s)); [|intros ? ? ->|by intros ? ? ->].

Lemma bind_reuse_port_tally s config : obeys s (bind_reuse_port config) (fun s' _ => s' = s).
Proof.
  unfold bind_reuse_port. passes fd. destruct (fd <? 0); [unfold last_os_error; passes e; by apply obeys_ret|].
  tries s; [apply or_close_tally|tries s; [apply or_close_tally|by apply obeys_ret]].
  - unfold configure, set_option. tries s; [by apply checked_tally, obeys_steady|].
    tries s; [by apply checked_tally, obeys_steady|].
    tries s; [destruct (is_v6 _); [by apply checked_tally, obeys_steady|by apply obeys_ret]|].
    tries s; by apply checked_tally, obeys_steady.
  - unfold set_nonblocking. passes r. destruct r; [by apply obeys_ret|]. unfold last_os_error. passes e. by apply obeys_ret.
Qed.

Lemma reload_tally s slot launcher_pid w :
  balanced s w -> obeys s (reload service_for slot launcher_pid w) balanced.
Proof.
  intros Hs. unfold reload. passes u. quietly for_worker_tally.
  eapply obeys_bind; [apply BindConfig_load_tally|]. intros ? [config|error] ->; cycle 1.
  { quietly record_http_tally. by apply obeys_ret. }
  simpl. destruct (config ==b hw_bind w); [by apply obeys_ret|].
  eapply obeys_bind; [apply bind_reuse_port_tally|]. intros ? [fd|error] ->.
  - passes v. quietly record_http_tally. by apply obeys_ret.
  - quietly record_http_tally. by apply obeys_ret.
Qed.

Lemma http_turn_tally s slot launcher_pid overload w :
  balanced s w ->
  obeys s (http_turn instant stamp drive_unwinds abort_unwinds service_for slot launcher_pid overload w)
    (fun s' r => match r with Some w' => balanced s' w' | None => False end).
Proof.
  intros Hs. unfold http_turn. passes hup. eapply obeys_bind.
  { instantiate (1 := balanced). destruct hup; [by apply reload_tally|by apply obeys_ret]. }
  clear s w Hs. intros s w Hs. passes accepted.
  pose proof (fun t => tick_books instant stamp drive_unwinds abort_unwinds unwinds_tracked overload accepted t
    (hw_service w) _ _ s Hs) as Htick. unfold worker_tick in Htick.
  destruct (accept_connections _ _ _ _ _) as [m conns]. passes t.
  destruct (Htick t) as (h1 & m1 & conns1 & -> & Hb). passes t'.
  simpl. destruct (_ <=? _); [|by apply obeys_ret].
  eapply obeys_bind; [apply flush_tally|]. intros s1 ? [-> K1]. quietly record_http_tally. passes t2.
  apply obeys_ret. by eapply flushed_books.
Qed.

Lemma http_loop_tally fuel s slot launcher_pid overload w :
  balanced s w ->
  obeys s (http_loop instant stamp drive_unwinds abort_unwinds service_for fuel slot launcher_pid overload w)
    (fun s' r => r.1 <> Stuck /\ balanced s' r.2).
Proof.
  revert s w. induction fuel as [|fuel IH]; intros s w Hs; simpl; [by apply obeys_ret|].
  eapply obeys_bind; [by apply http_turn_tally|]. intros s1 [w1|] K1; [|done].
  eapply obeys_bind.
  { instantiate (1 := fun s' _ => s' = s1). unfold wait_for_events. passes o.
    destruct o; [destruct (negb _); [by apply obeys_ret|]|]; passes term; by apply obeys_ret. }
  intros ? go ->. destruct go; [by apply IH|by apply obeys_ret].
Qed.

Lemma http_main_tally fuel argument database :
  obeys (fun _ => 0)
    (pgs3_http_main instant stamp drive_unwinds abort_unwinds service_for fresh boot fuel argument database)
    (fun s r => r.1 <> Stuck /\ (r.1 = Ended -> forall op, s op = 0)).
Proof.
  unfold pgs3_http_main. destruct (unpack_child_argument argument) as [launcher_pid slot]. passes role.
  eapply obeys_bind.
  { instantiate (1 := fun s' _ => s' = fun _ => 0). unfold connect_worker_to_spi_as_service.
    repeat (destruct (existsb _ _); [by apply obeys_ret|]). passes u. by apply obeys_ret. }
  intros ? [[]|e] ->; [|by apply obeys_ret]. passes up. destruct up; simpl; [|by apply obeys_ret].
  eapply obeys_bind; [apply BindConfig_load_tally|]. intros ? [config|error] ->; cycle 1.
  { quietly record_http_tally. by apply obeys_ret. }
  eapply obeys_bind; [apply bind_reuse_port_tally|]. intros ? [fd|error] ->; cycle 1.
  { quietly record_http_tally. by apply obeys_ret. }
  unfold serve. quietly for_worker_tally. passes t. quietly record_http_tally.
  eapply obeys_bind; [apply http_loop_tally; exact no_books|]. intros s1 [[] w] [K1 K2]; [|by apply obeys_ret|done].
  eapply obeys_bind; [|intros s2 ? K3; apply obeys_ret; split; [done|]; intros _; exact K3].
  unfold http_shutdown. pose proof (abandon_books instant abort_unwinds _ _ (hw_service w) _ K2) as Ha.
  destruct (abandon_connections _ _ _ _ _) as [h m]. simpl in Ha.
  eapply obeys_bind; [apply flush_tally|]. intros s2 ? [_ K3]. quietly record_http_tally. passes u. apply obeys_ret.
  intros op. rewrite K3. exact (books_gauge _ _ _ Ha op).
Qed.
End Tally.

(** * Main theorems *)

Section Main.
Context {H S : Type} `{S3Handler H S} `{Answers Host} (instant : nat -> Z) (stamp : nat -> Clock).
Context (drive_unwinds : Z -> H -> Connection S -> option (H * Connection S))
        (abort_unwinds : H -> Exchange S -> option (H * Exchange S)) (service_for : Z -> Z -> H -> H) (fresh : H) (boot : Clock).

(** C37: The sockets of an HTTP worker, whatever the system calls, the peers and
    the configuration do and however often it is reloaded, on a system that
    does not hand out a descriptor that is open: options are set before
    [bind], [SO_REUSEPORT] and for IPv6 [IPV6_V6ONLY] among them, [listen]
    follows [bind], only open sockets are used or closed, connections are
    accepted and events awaited only while the one socket open is a
    non-blocking listener, and none is open when the worker has ended. *)
Theorem worker_listener fuel argument database :
  obeys socket_rules (Some ∅)
    (pgs3_http_main instant stamp drive_unwinds abort_unwinds service_for fresh boot fuel argument database)
    (fun sockets r => r.1 = Ended -> sockets = None \/ sockets = Some ∅).
Proof. apply http_main_sockets. Qed.

(** C38: A worker drains its gauge: on a writable server that takes the metrics,
    driving the connections never gets stuck, and when the worker ends, by
    SIGTERM, the death of the postmaster or an error at its start, all
    in-flight counts it has handed to the database add up to zero for every
    operation. *)
Theorem worker_drains fuel argument database :
  (forall now h c h' c', drive_unwinds now h c = Some (h', c') -> tracked c -> keeps c c' /\ tracked c') ->
  takes_metrics ->
  obeys tally (fun _ => 0)
    (pgs3_http_main instant stamp drive_unwinds abort_unwinds service_for fresh boot fuel argument database)
    (fun handed r => r.1 <> Stuck /\ (r.1 = Ended -> forall op, handed op = 0)).
Proof. intros Hu Ht. by apply http_main_tally. Qed.
End Main.

(** ** Witnesses *)

(** A server on which a client connects and SIGTERM comes after a while. *)
Definition busy_host : Answers Host :=
  fun A h effect =>
    match effect in Host B return B with
    | SigtermReceived => (40 <? length h)%nat
    | Accepts _ => if (length h <? 25)%nat then [Incoming sample_stream true] else []
    | effect => Launcher.demo_host _ h effect
    end.

Definition busy_worker (fuel : nat) : Eff Host (Exit * list bytes) :=
  pgs3_http_main (H0 := storing_handler) (H1 := busy_host) (fun n => Z.of_nat n) (fun _ => sample_now)
    (panics_at 2) (fun _ _ => None) (fun _ _ previous => previous) [] sample_now fuel 1 (bs "postgres").

Lemma worker_drains_witness :
  (busy_worker 20 []).2.1 = Ended /\
  obeys tally (fun _ => 0) (busy_worker 20)
    (fun handed r => r.1 <> Stuck /\ (r.1 = Ended -> forall op, handed op = 0)).
Proof.
  split; [vm_compute; reflexivity|].
  refine (worker_drains (H0 := storing_handler) (H1 := busy_host) (fun n => Z.of_nat n) (fun _ => sample_now)
    (panics_at 2) (fun _ _ => None) (fun _ _ previous => previous) [] sample_now 20 1 (bs "postgres") _ _).
  - apply (panics_tracked 2).
  - split; [done|]. intros. by eexists.
Defined.
