(* ===== verification/Config.v ===== *)
(** Configuration and entry points: the settings of [src/src/config.rs] with
    the ranges they are registered with, the functions that read them,
    [_PG_init] of [src/src/lib.rs] and the functions of [src/src/api.rs].

    PostgreSQL keeps a setting within its registered range, and a string
    setting is a C string; [admitted] says so of the values at one time.  The
    theorems say what the rest of the program gets from such values: the
    conversions between integer types lose nothing, the worker's service has
    the documented limits, the workers can connect, and the statement timer of
    every database call is armed for the configured time. *)
From S2P Require Import Prelude Text Http Headers Canonical SigV4 Chunked XmlWrite Types Framing Response.
From S2P Require Import Exchange XmlParse Checksums ListXml Route Effects Database Metadata Dispatch Session Metrics Host.
From S2P Require Launcher Worker PgDatabase.

(** * The settings *)

(** The statics; a string setting may be unset. *)
Record GucSettings := {
  ENABLED : bool;
  WORKERS : Z;
  LISTEN_ADDR : option bytes;
  PORT : Z;
  INLINE_THRESHOLD : Z;
  CHUNK_SIZE : Z;
  STATEMENT_TIMEOUT_MS : Z;
  TARGET_DATABASE : option bytes;
  SERVER_ROLE : option bytes
}.

(** The values they start with. *)
Definition boot_settings : GucSettings :=
  {| ENABLED := false; WORKERS := 4; LISTEN_ADDR := Some (bs "127.0.0.1"); PORT := 9000;
     INLINE_THRESHOLD := 64 * 1024; CHUNK_SIZE := 4 * 1024 * 1024; STATEMENT_TIMEOUT_MS := 30000;
     TARGET_DATABASE := Some (bs "postgres"); SERVER_ROLE := Some (bs "pgs3_server") |}.

Inductive GucFlags := NoFlags | UNIT_BYTE | UNIT_MS.

(** A registration: the setting it binds and, for an integer, its range.  The
    context is SIGHUP for all. *)
Inductive Guc :=
| define_bool_guc (name : bytes) (setting : GucSettings -> bool)
| define_int_guc (name : bytes) (setting : GucSettings -> Z) (min_value max_value : Z) (flags : GucFlags)
| define_string_guc (name : bytes) (setting : GucSettings -> option bytes).

Definition init : list Guc :=
  [define_bool_guc (bs "pgs3.enabled") ENABLED;
   define_int_guc (bs "pgs3.workers") WORKERS 1 64 NoFlags;
   define_string_guc (bs "pgs3.listen_addr") LISTEN_ADDR;
   define_int_guc (bs "pgs3.port") PORT 1 65535 NoFlags;
   define_int_guc (bs "pgs3.inline_threshold") INLINE_THRESHOLD 0 (1024 * 1024 * 1024) UNIT_BYTE;
   define_int_guc (bs "pgs3.chunk_size") CHUNK_SIZE (64 * 1024) (16 * 1024 * 1024) UNIT_BYTE;
   define_int_guc (bs "pgs3.statement_timeout_ms") STATEMENT_TIMEOUT_MS 1 3600000 UNIT_MS;
   define_string_guc (bs "pgs3.target_database") TARGET_DATABASE;
   define_string_guc (bs "pgs3.server_role") SERVER_ROLE].

(** * Reading *)

(** [as usize] and [as u16] on an [i32]. *)
Definition as_usize (z : Z) : Z := z mod 2 ^ 64.
Definition as_u16 (z : Z) : Z := z mod 2 ^ 16.

Definition string_value (setting : option bytes) (fallback : bytes) : bytes :=
  match setting with
  | Some value =>
      match from_utf8 value with
      | Some value => if negb (is_empty value) then value else fallback
      | None => fallback
      end
  | None => fallback
  end.

Definition enabled (s : GucSettings) : bool := ENABLED s.
Definition target_database (s : GucSettings) : bytes := string_value (TARGET_DATABASE s) (bs "postgres").
Definition workers (s : GucSettings) : Z := as_usize (WORKERS s).
Definition listen_addr (s : GucSettings) : bytes := string_value (LISTEN_ADDR s) (bs "127.0.0.1").
Definition port (s : GucSettings) : Z := as_u16 (PORT s).
Definition statement_timeout_ms (s : GucSettings) : Z := STATEMENT_TIMEOUT_MS s.
Definition inline_threshold_bytes (s : GucSettings) : Z := as_usize (Z.max (INLINE_THRESHOLD s) 0).
Definition chunk_size_bytes (s : GucSettings) : Z := as_usize (CHUNK_SIZE s).
Definition server_role (s : GucSettings) : bytes := string_value (SERVER_ROLE s) (bs "pgs3_server").

(** [PgS3Service::for_worker]: the defaults with the configured sizes, through
    the limits of [PgS3Service::new]. *)
Definition sized_config (inline chunk : Z) : ServiceConfig :=
  let config := default_service_config in
  {| config_region := config_region config; config_clock_skew := config_clock_skew config;
     max_object_bytes := max_object_bytes config; max_control_body_bytes := max_control_body_bytes config;
     staging_chunk_bytes := chunk; direct_put_bytes := inline; xml_limits := xml_limits config |}.
Definition worker_config (inline chunk : Z) : ServiceConfig := service_config (sized_config inline chunk).

(** A service is its configuration and what its database has been through,
    which a rebuilt service takes over. *)
Definition service_for {D} (inline chunk : Z) (previous : ServiceConfig * D) : ServiceConfig * D :=
  (worker_config inline chunk, snd previous).

(** * Entry points *)

(** The static launcher, and after how many seconds it is restarted. *)
Definition register_static (s : GucSettings) : Builder * option Z :=
  (Launcher.launcher_builder (target_database s) Launcher.Static, Some 1).

(** [_PG_init]: the settings it registers and the worker it loads. *)
Definition PG_init (loading_from_shared_preload : bool) (s : GucSettings) : list Guc * option (Builder * option Z) :=
  (init, if loading_from_shared_preload && enabled s then Some (register_static s) else None).

(** The functions of the SQL interface. *)
Definition start `{Answers Host} : Do bool := Launcher.start_dynamic.
Definition stop `{Answers Host} : Do bool := Launcher.stop_dynamic.

(** * What PostgreSQL keeps *)

Definition no_nul (value : bytes) : bool := negb (existsb (fun b => b ==b x00) value).

Definition admits (s : GucSettings) (guc : Guc) : bool :=
  match guc with
  | define_bool_guc _ _ => true
  | define_int_guc _ setting min_value max_value _ => (min_value <=? setting s) && (setting s <=? max_value)
  | define_string_guc _ setting => match setting s with Some value => no_nul value | None => true end
  end.

Definition admitted (s : GucSettings) : bool := forallb (admits s) init.

(** A host on which the configuration is [s]. *)
Record configured `{Answers Host} (s : GucSettings) : Prop := {
  answers_workers h : answers Z h Workers = workers s;
  answers_listen_addr h : answers bytes h ListenAddr = listen_addr s;
  answers_port h : answers Z h Port = port s;
  answers_inline h : answers Z h InlineThreshold = INLINE_THRESHOLD s;
  answers_chunk h : answers Z h ChunkSize = CHUNK_SIZE s;
  answers_role h : answers bytes h ServerRole = server_role s
}.

(** * Lemmas *)

Lemma admitted_ranges s : admitted s = true ->
  1 <= WORKERS s <= 64 /\ 1 <= PORT s <= 65535 /\ 0 <= INLINE_THRESHOLD s <= 1024 * 1024 * 1024 /\
  64 * 1024 <= CHUNK_SIZE s <= 16 * 1024 * 1024 /\ 1 <= STATEMENT_TIMEOUT_MS s <= 3600000.
Proof. unfold admitted, init. simpl. rewrite ?andb_true_iff, ?Z.leb_le. intuition. Qed.

Lemma admitted_strings s : admitted s = true ->
  forall setting, In setting [LISTEN_ADDR; TARGET_DATABASE; SERVER_ROLE] ->
  forall value, setting s = Some value -> no_nul value = true.
Proof.
  unfold admitted, init. simpl. rewrite ?andb_true_iff. intros Ha setting Hin value E.
  destruct Hin as [<-|[<-|[<-|[]]]]; rewrite E in Ha; by intuition.
Qed.

(** A value read is one that was set, or the fallback. *)
Lemma string_value_ind (P : bytes -> Prop) setting fallback :
  P fallback -> (forall value, setting = Some value -> value <> [] -> utf8_valid value = true -> P value) ->
  P (string_value setting fallback).
Proof.
  intros Hf Hv. unfold string_value, from_utf8. destruct setting as [[|b value]|]; [done| |done].
  destruct (utf8_valid (b :: value)) eqn:E; [|done]. simpl. by apply Hv.
Qed.

Lemma string_value_set setting fallback value :
  setting = Some value -> value <> [] -> utf8_valid value = true -> string_value setting fallback = value.
Proof. intros -> Hn Hv. unfold string_value, from_utf8. rewrite Hv. by destruct value. Qed.

(** An empty name is not refused: another one is used. *)
Lemma names_fall_back : forall s, TARGET_DATABASE s = Some [] -> LISTEN_ADDR s = Some [] -> SERVER_ROLE s = Some [] ->
  target_database s = bs "postgres" /\ listen_addr s = bs "127.0.0.1" /\ server_role s = bs "pgs3_server".
Proof. intros s Hd Hl Hr. unfold target_database, listen_addr, server_role. by rewrite Hd, Hl, Hr. Qed.

Lemma connectable s : admitted s = true -> no_nul (target_database s) = true /\ no_nul (server_role s) = true.
Proof.
  intros Ha. pose proof (admitted_strings s Ha) as Hs. split;
    [apply (string_value_ind (fun v => no_nul v = true) (TARGET_DATABASE s))
    |apply (string_value_ind (fun v => no_nul v = true) (SERVER_ROLE s))];
    try (vm_compute; reflexivity); intros; (eapply Hs; [|done]); simpl; auto.
Qed.

Lemma worker_config_sizes inline chunk :
  0 <= inline -> MIN_STAGING_CHUNK_BYTES <= chunk <= MAX_STAGING_CHUNK_BYTES ->
  staging_chunk_bytes (worker_config inline chunk) = chunk /\
  direct_put_bytes (worker_config inline chunk) = Z.min inline MAX_DIRECT_PUT_BYTES.
Proof.
  intros Hi Hc. unfold worker_config, service_config. cbn -[Z.mul Z.min Z.max]. split; [lia|].
  change (default _ _) with (5 * 1024 * 1024 * 1024). unfold MAX_DIRECT_PUT_BYTES. lia.
Qed.

(** * Main theorems *)

Section Main.
Context `{Answers Host} (s : GucSettings).

Lemma read_sizes : admitted s = true ->
  inline_threshold_bytes s = Z.max (INLINE_THRESHOLD s) 0 /\ chunk_size_bytes s = CHUNK_SIZE s.
Proof.
  intros Ha. destruct (admitted_ranges s Ha) as (_ & _ & Hi & Hs & _).
  unfold inline_threshold_bytes, chunk_size_bytes, as_usize. rewrite !Z.mod_small; lia.
Qed.

Lemma for_worker_config {D} (previous : ServiceConfig * D) : admitted s = true -> configured s ->
  returns (Worker.for_worker service_for previous)
    (worker_config (inline_threshold_bytes s) (chunk_size_bytes s), snd previous).
Proof.
  intros Ha Hc. destruct (read_sizes Ha) as [-> ->]. unfold Worker.for_worker. eapply returns_after; [apply (answers_inline s Hc)|].
  eapply returns_after; [apply (answers_chunk s Hc)|]. apply returns_ret.
Qed.

Lemma bind_config address : configured s -> Worker.parse_ip (listen_addr s) = Some address ->
  returns Worker.BindConfig_load (Ok {| Worker.address := address; Worker.port := port s |}).
Proof.
  intros Hc Ha. unfold Worker.BindConfig_load. eapply returns_after; [apply (answers_listen_addr s Hc)|].
  rewrite Ha. eapply returns_after; [apply (answers_port s Hc)|]. apply returns_ret.
Qed.

Lemma connects : admitted s = true ->
  returns (Worker.connect_worker_to_spi_as_service (target_database s) (server_role s)) (Ok tt).
Proof.
  intros Ha. destruct (connectable s Ha) as [Hd Hr]. unfold no_nul in *. apply negb_true_iff in Hd, Hr.
  unfold Worker.connect_worker_to_spi_as_service. rewrite Hd, Hr. intros h. done.
Qed.

(** C39: Under every configuration PostgreSQL admits, the rest of the program
    runs by it: the service of a worker stages in chunks of [pgs3.chunk_size]
    and takes a body directly up to the smaller of [pgs3.inline_threshold] and
    64 KiB; an address that parses is bound with [pgs3.port], whose two bytes
    in the socket address spell it; a database, an address and a server role
    that are set to non-empty UTF-8 are used as they are, and the names a
    worker connects with never have an embedded NUL (a name that is unset,
    empty or not UTF-8 is replaced by the default, [names_fall_back]); there
    are 1 to 64 workers as [pgs3.workers] says, and each slot and the
    launcher's process id reach the child through its one argument; and every
    call of the database arms the statement timer for exactly
    [pgs3.statement_timeout_ms], starts its transaction, runs its statements
    and commits with it running, and leaves it disarmed. *)
Theorem worker_configuration : admitted s = true -> configured s ->
  (let config := worker_config (inline_threshold_bytes s) (chunk_size_bytes s) in
   (forall D (previous : ServiceConfig * D), returns (Worker.for_worker service_for previous) (config, snd previous)) /\
   staging_chunk_bytes config = CHUNK_SIZE s /\ direct_put_bytes config = Z.min (INLINE_THRESHOLD s) (64 * 1024)) /\
  (forall address, Worker.parse_ip (listen_addr s) = Some address -> exists config hi lo,
     returns Worker.BindConfig_load (Ok config) /\ Worker.address config = address /\
     sa_port (Worker.sockaddr config) = [hi; lo] /\ 0 <= hi < 256 /\ 0 <= lo < 256 /\ hi * 256 + lo = PORT s) /\
  ((forall value, TARGET_DATABASE s = Some value -> value <> [] -> utf8_valid value = true -> target_database s = value) /\
   (forall value, LISTEN_ADDR s = Some value -> value <> [] -> utf8_valid value = true -> listen_addr s = value) /\
   (forall value, SERVER_ROLE s = Some value -> value <> [] -> utf8_valid value = true -> server_role s = value) /\
   returns (Worker.connect_worker_to_spi_as_service (target_database s) (server_role s)) (Ok tt)) /\
  (returns (ask Workers) (WORKERS s) /\ 1 <= WORKERS s <= 64 /\
   forall slot launcher_pid name type function database, 0 <= slot < WORKERS s -> i32_min <= launcher_pid <= i32_max ->
     unpack_child_argument (b_argument (Launcher.child_builder name type function database launcher_pid slot))
     = (launcher_pid, slot)) /\
  (forall `{Answers PgDatabase.Spi}, (forall h, answers Z h PgDatabase.StatementTimeoutMs = statement_timeout_ms s) ->
   forall spi_error A (op : DbOp A),
     obeys (PgDatabase.timer_rules (STATEMENT_TIMEOUT_MS s)) false (PgDatabase.pg_call spi_error op)
       (fun running _ => running = false)).
Proof.
  intros Ha Hc. destruct (admitted_ranges s Ha) as (Hw & Hp & Hi & Hs & Ht). split_and!.
  - split; [intros; by apply for_worker_config|]. destruct (read_sizes Ha) as [-> ->].
    rewrite Z.max_l by lia. apply worker_config_sizes; [lia|].
    unfold MIN_STAGING_CHUNK_BYTES, MAX_STAGING_CHUNK_BYTES. lia.
  - intros address E. exists {| Worker.address := address; Worker.port := PORT s |}, (PORT s / 256), (PORT s mod 256).
    split_and!; [|done..| | | | |]; try (pose proof (Z.div_mod (PORT s) 256); pose proof (Z.mod_pos_bound (PORT s) 256); lia).
    replace (PORT s) with (port s); [by apply bind_config|]. unfold port, as_u16. rewrite Z.mod_small; lia.
  - intros value. by apply string_value_set.
  - intros value. by apply string_value_set.
  - intros value. by apply string_value_set.
  - by apply connects.
  - apply returns_ask. intros h. rewrite (answers_workers s Hc). unfold workers, as_usize. rewrite Z.mod_small; lia.
  - lia.
  - lia.
  - intros. apply child_argument_roundtrip; [done|]. unfold i32_min, i32_max. lia.
  - intros W Hms spi_error A op. apply PgDatabase.pg_call_timed; [exact Hms|lia].
Qed.

(** A launcher is registered at the start of the server exactly when the library
    is preloaded and enabled; the process reads its mode and a database to
    connect to from what was registered. *)
Theorem static_launcher loading : admitted s = true ->
  (snd (PG_init loading s) <> None <-> loading = true /\ ENABLED s = true) /\
  forall builder restart, snd (PG_init loading s) = Some (builder, restart) ->
    Launcher.from_argument (b_argument builder) = Launcher.Static /\ restart = Some 1 /\
    b_database builder <> [] /\ no_nul (b_database builder) = true.
Proof.
  intros Ha. unfold PG_init, enabled, register_static. simpl. split.
  - rewrite <- andb_true_iff. by destruct (loading && ENABLED s).
  - intros builder restart. destruct (loading && ENABLED s); [|done]. intros [= <- <-]. split_and!; [done..| |by apply connectable].
    by apply (string_value_ind (fun v => v <> []) (TARGET_DATABASE s)).
Qed.
End Main.

(** ** Witnesses *)

Definition small_settings : GucSettings :=
  {| ENABLED := true; WORKERS := 2; LISTEN_ADDR := Some (bs "0.0.0.0"); PORT := 65535;
     INLINE_THRESHOLD := 1024 * 1024; CHUNK_SIZE := 64 * 1024; STATEMENT_TIMEOUT_MS := 1;
     TARGET_DATABASE := None; SERVER_ROLE := Some (bs "s3") |}.

Definition small_host : Answers Host :=
  fun A h effect =>
    match effect in Host B return B with
    | ListenAddr => bs "0.0.0.0"
    | Port => 65535
    | InlineThreshold => 1024 * 1024
    | ChunkSize => 64 * 1024
    | ServerRole => bs "s3"
    | effect => Launcher.demo_host _ h effect
    end.

(** A database that finds every bucket. *)
Definition small_database : Answers PgDatabase.Spi :=
  fun A h effect =>
    match effect in PgDatabase.Spi B return B with
    | PgDatabase.RecoveryInProgress => false
    | PgDatabase.StatementTimeoutMs => 1
    | PgDatabase.CommitTransaction => None
    | PgDatabase.Query _ _ _ _ => PgDatabase.Rows [[]]
    | _ => tt
    end.

Lemma worker_configuration_witness :
  admitted boot_settings = true /\
  (let config := worker_config (inline_threshold_bytes small_settings) (chunk_size_bytes small_settings) in
   (forall D (previous : ServiceConfig * D),
      returns (Worker.for_worker (H1 := small_host) service_for previous) (config, snd previous)) /\
   staging_chunk_bytes config = 65536 /\ direct_put_bytes config = 65536) /\
  server_role small_settings = bs "s3" /\
  obeys (PgDatabase.timer_rules 1) false
    (PgDatabase.pg_call (H := small_database) (fun _ => []) (head_bucket (bs "role") (bs "photos")))
    (fun running _ => running = false).
Proof.
  split; [vm_compute; reflexivity|].
  destruct (worker_configuration (H := small_host) small_settings) as (Hsizes & _ & (_ & _ & Hrole & _) & _ & Htimer);
    [vm_compute; reflexivity|by split; vm_compute|].
  split; [exact Hsizes|]. split; [by apply Hrole|]. apply (Htimer small_database). done.
Defined.
