(* ===== verification/Guarded.v ===== *)
(** What a handler promises to the worker that drives it, and what the worker
    makes of it: an invariant of the handler's state and of each open session,
    kept by every method of the handler, is kept by the exchange, the
    connection, the reactor and the main function of an HTTP worker, whatever
    clients, sockets, signals and clocks do. *)
From stdpp Require Import gmap.
From S2P Require Import Prelude Text Http XmlWrite Types Framing Response Exchange Metrics Connection Reactor Effects Host.
From S2P Require Worker.

(** [good] is the invariant of the handler and [held] that of a session; a
    state is [within] those that can follow it, and a session that is held
    stays so while the handler serves others. *)
Class Guarded {H S} (handler : S3Handler H S) (within : H -> H -> Prop) (good : H -> Prop) (held : H -> S -> Prop) := {
  within_refl h : within h h;
  within_trans h1 h2 h3 : within h1 h2 -> within h2 h3 -> within h1 h3;
  held_within h h' s : within h h' -> held h s -> held h' s;
  head_guarded h request : good h ->
    let (h', o) := handle_head h request in
    good h' /\ within h h' /\ match o with ReceiveBody s => held h' s | Immediate _ => True end;
  push_guarded h s data : good h -> held h s ->
    let '(h', s', _) := push_body h s data in good h' /\ within h h' /\ held h' s';
  finish_guarded h s : good h -> held h s ->
    let '(h', s', _) := handler_finish h s in good h' /\ within h h' /\ held h' s';
  abort_guarded h s : good h -> held h s ->
    let (h', s') := abort_body h s in good h' /\ within h h' /\ held h' s'
}.

Section Guarded.
Context {H S : Type} {handler : S3Handler H S} {within : H -> H -> Prop} {good : H -> Prop} {held : H -> S -> Prop}.
Context {guarded : Guarded handler within good held}.
Implicit Types (h : H) (e : Exchange S) (c : Connection S).

Definition exchange_held h e : Prop := match ex_phase e with Body s _ => held h s | _ => True end.

(** From [h], a good state and an exchange whose session is held. *)
Definition safe_step h (after : H * Exchange S) : Prop :=
  good after.1 /\ within h after.1 /\ exchange_held after.1 after.2.

Lemma safe_refl h e : good h -> exchange_held h e -> safe_step h (h, e).
Proof. intros. split_and!; [done|apply within_refl|done]. Qed.

Lemma safe_trans h h1 after : within h h1 -> safe_step h1 after -> safe_step h after.
Proof. intros Hw (? & ? & ?). split_and!; [done| |done]. by eapply within_trans. Qed.

Lemma exchange_within h h' e : within h h' -> exchange_held h e -> exchange_held h' e.
Proof. intros Hw. unfold exchange_held. destruct (ex_phase e); [done| |done..]. by apply held_within. Qed.

(** A response ends the session. *)
Lemma queue_held h r e : exchange_held h (queue_response r e).
Proof. unfold queue_response. by destruct (serialize_response _ _). Qed.

Lemma keeps_queued h h' r e : good h' -> within h h' -> safe_step h (h', queue_response r e).
Proof. intros. split_and!; [done..|apply queue_held]. Qed.

Lemma keeps_ended h r e : good h -> safe_step h (h, queue_response r e).
Proof. intros. apply keeps_queued; [done|apply within_refl]. Qed.

Lemma abort_session_keeps h e : good h -> exchange_held h e -> safe_step h (abort_session h e).
Proof.
  intros Hg He. unfold abort_session. unfold exchange_held in He. destruct (ex_phase e) as [p|s f| |] eqn:E;
    try (apply safe_refl; [done|]; unfold exchange_held; by rewrite E).
  pose proof (abort_guarded h s Hg He) as Ha. destruct (abort_body h s) as [h' s']. by destruct Ha as (? & ? & ?).
Qed.

Lemma finish_body_keeps h e : good h -> exchange_held h e -> safe_step h (finish_body h e).
Proof.
  intros Hg He. unfold finish_body. unfold exchange_held in He. destruct (ex_phase e) as [p|s f| |] eqn:E;
    try (apply safe_refl; [done|]; unfold exchange_held; by rewrite E).
  pose proof (finish_guarded h s Hg He) as Ha. destruct (handler_finish h s) as [[h' s'] r].
  destruct Ha as (? & ? & _). by apply keeps_queued.
Qed.

Lemma ingest_body_keeps now h e input after :
  good h -> exchange_held h e -> ingest_body now h e input = Some after -> safe_step h after.
Proof.
  intros Hg He. unfold ingest_body. destruct (ex_phase e) as [p|s f| |] eqn:E;
    try (intros [= <-]; by apply safe_refl).
  destruct (BodyFraming_push f input) as [[[[f' p] decoded]|error]|]; [| |done].
  - assert (Hs : held h s) by (unfold exchange_held in He; by rewrite E in He).
    assert (Hp : exists h1 s1 e1 failed, within h h1 /\ good h1 /\ held h1 s1 /\
      (let e := set_phase (Body s f') e in
       let e := if Z.of_nat (consumed p) <? len input then set_close true e else e in
       if is_empty decoded then (h, e, None)
       else let '(h, session, r) := push_body h s decoded in
            (h, set_phase (Body session f') e, match r with Ok _ => None | Err r => Some r end)) = (h1, e1, failed) /\
      ex_phase e1 = Body s1 f').
    { cbv zeta. destruct (is_empty decoded).
      - eexists h, s, _, _. split; [apply within_refl|]. do 2 (split; [done|]). split; [done|]. by destruct (_ <? _).
      - pose proof (push_guarded h s decoded Hg Hs) as Hp. destruct (push_body h s decoded) as [[h1 s1] r].
        destruct Hp as (? & ? & ?). eexists h1, s1, _, _. do 3 (split; [done|]). by split. }
    destruct Hp as (h1 & s1 & e1 & failed & Hw & Hg1 & Hs1 & Eq & E1). cbv zeta in Eq |- *. rewrite Eq.
    destruct failed as [r|]; intros [= <-]; [by apply keeps_queued|].
    assert (He1 : exchange_held h1 e1) by (unfold exchange_held; by rewrite E1).
    destruct (complete p); (eapply safe_trans; [exact Hw|]); [by apply finish_body_keeps|by apply safe_refl].
  - pose proof (abort_session_keeps h e Hg He) as Ha. destruct (abort_session h e) as [h1 e1].
    intros [= <-]. destruct Ha as (? & ? & _). by apply keeps_queued.
Qed.

Lemma start_request_keeps now h e request remainder after :
  good h -> start_request now h e request remainder = Some after -> safe_step h after.
Proof.
  intros Hg. unfold start_request. destruct (expect_continue request) as [wants|];
    [|intros [= <-]; by apply keeps_ended].
  destruct (BodyFraming_from_head request) as [framing|]; [|intros [= <-]; by apply keeps_ended].
  pose proof (head_guarded h request Hg) as Hh. destruct (handle_head h request) as [h1 [r|s]];
    destruct Hh as (Hg1 & Hw & Hs); [intros [= <-]; by apply keeps_queued|].
  set (e1 := set_continue wants _). assert (He1 : exchange_held h1 e1) by exact Hs.
  intros Hn. eapply safe_trans; [exact Hw|].
  assert (Hk : forall mid, (if is_empty remainder then Some (h1, e1) else ingest_body now h1 e1 remainder) = Some mid -> safe_step h1 mid).
  { intros mid. destruct (is_empty remainder); [intros [= <-]; by apply safe_refl|by apply ingest_body_keeps]. }
  destruct (if is_empty remainder then _ else _) as [[h2 e2]|]; [|done]. destruct (Hk _ eq_refl) as (Hg2 & Hw2 & He2).
  injection Hn as <-. destruct (body_is_complete e2); [|done]. eapply safe_trans; [exact Hw2|by apply finish_body_keeps].
Qed.

Lemma ingest_keeps now h e input after :
  good h -> exchange_held h e -> ingest now h e input = Some after -> safe_step h after.
Proof.
  intros Hg He. unfold ingest. destruct (ex_phase e) as [p|s f| |] eqn:E.
  - destruct (RequestHeadParser_push p input) as [p' [[request|]|]].
    + destruct (take_remainder p') as [p2 remainder]. by apply start_request_keeps.
    + intros [= <-]. by apply safe_refl.
    + intros [= <-]. by apply keeps_ended.
  - by apply ingest_body_keeps.
  - intros [= <-]. by apply safe_refl.
  - intros [= <-]. by apply safe_refl.
Qed.

(** [eof] and [timeout] end what is being read. *)
Lemma ended_session_safe h e r : good h -> exchange_held h e ->
  safe_step h (let (h, e) := abort_session h e in (h, queue_response r e)).
Proof.
  intros Hg He. pose proof (abort_session_keeps h e Hg He) as Ha. destruct (abort_session h e) as [h1 e1].
  destruct Ha as (? & ? & _). by apply keeps_queued.
Qed.

Lemma eof_keeps now h e : good h -> exchange_held h e -> safe_step h (eof now h e).
Proof.
  intros Hg He. unfold eof. destruct (ex_phase e); [|by apply ended_session_safe|by apply safe_refl..].
  by apply keeps_ended.
Qed.

Lemma timeout_keeps now h e : good h -> exchange_held h e -> safe_step h (timeout now h e).
Proof. intros Hg He. unfold timeout. destruct (ex_phase e); [by apply ended_session_safe..|by apply safe_refl|by apply safe_refl]. Qed.

(** ** Connections *)

Definition connection_held h c : Prop := exchange_held h (exchange c).

Definition carries {R} h (after : H * Connection S * R) : Prop :=
  good after.1.1 /\ within h after.1.1 /\ connection_held after.1.1 after.1.2.

Lemma carries_refl {R} h c (r : R) : good h -> connection_held h c -> carries h (h, c, r).
Proof. intros. split_and!; [done|apply within_refl|done]. Qed.

Lemma carries_trans {R} h h1 (after : H * Connection S * R) : within h h1 -> carries h1 after -> carries h after.
Proof. intros Hw (? & ? & ?). split_and!; [done| |done]. by eapply within_trans. Qed.

(** An exchange put back into its connection. *)
Lemma carries_exchange {R} h after c (r : R) : safe_step h after -> carries h (after.1, set_exchange after.2 c, r).
Proof. by intros (? & ? & ?). Qed.

Context (instant : nat -> Z) (stamp : nat -> Clock).

Lemma drive_read_carries steps : forall h c after,
  good h -> connection_held h c -> drive_read_loop instant stamp steps h c = Some after -> carries h after.
Proof.
  induction steps as [|steps IH]; intros h c after Hg Hc; simpl; [intros [= <-]; by apply carries_refl|].
  destruct (stream_read (stream c)) as [s [[|b data]|[]]].
  - simpl. destruct (request_active c).
    + pose proof (eof_keeps (stamp_of stamp (set_stream s c)) h (exchange c) Hg Hc) as He.
      destruct (eof _ h (exchange c)) as [h1 e1]. intros [= <-]. exact (carries_exchange h (h1, e1) _ _ He).
    + intros [= <-]. by apply carries_refl.
  - match goal with |- context [ingest ?t ?g ?x ?d] => destruct (ingest t g x d) as [[h1 e1]|] eqn:Ei end; [|done].
    pose proof (ingest_keeps _ h _ _ _ Hg Hc Ei) as Hk.
    destruct (_ || _); [intros [= <-]; exact (carries_exchange h (h1, e1) _ _ Hk)|].
    destruct Hk as (Hg1 & Hw1 & He1). intros Ha. eapply carries_trans; [exact Hw1|]. eapply IH; [exact Hg1| |exact Ha]. exact He1.
  - intros [= <-]. by apply carries_refl.
  - by apply IH.
  - intros [= <-]. by apply carries_refl.
Qed.

(** Writing does not touch a session. *)
Lemma drive_continue_phase answers : forall c, ex_phase (exchange (drive_continue_loop instant answers c).1) = ex_phase (exchange c).
Proof.
  induction answers as [|a answers IH]; intros c; cbn [drive_continue_loop];
    (destruct (Nat.leb _ _); [done|]); destruct (stream_write _ _) as [s [[|n]|[]]]; try done; cbn [now_of]; by rewrite IH.
Qed.

Lemma pass_continue_held h c : connection_held h c -> connection_held h (pass_continue instant c).1.
Proof.
  unfold connection_held, exchange_held, pass_continue. destruct (send_continue _); [|done].
  unfold drive_continue. by rewrite drive_continue_phase.
Qed.

Lemma drive_write_held steps : forall h c, connection_held h c -> connection_held h (drive_write_loop instant steps c).1.
Proof.
  induction steps as [|steps IH]; intros h c Hc; cbn [drive_write_loop]; [done|]. destruct (Nat.eqb _ _).
  - cbn [now_of fst]. by destruct (close_after_response (exchange _)).
  - destruct (stream_write _ _) as [s [[|n]|[]]]; try done; by apply IH.
Qed.

Lemma drive_io_carries h c after : good h -> connection_held h c -> drive_io instant stamp h c = Some after -> carries h after.
Proof.
  intros Hg Hc. unfold drive_io. pose proof (pass_continue_held h c Hc) as H1.
  destruct (pass_continue instant c) as [c1 [[]|e]]; [|by intros [= <-]; apply carries_refl..].
  assert (Hr : forall mid, (if is_reading (exchange c1) then drive_read instant stamp h c1 else Some (h, c1, Ok false)) = Some mid ->
    carries h mid).
  { intros mid. destruct (is_reading _); [by apply drive_read_carries|]. intros [= <-]. by apply carries_refl. }
  destruct (if is_reading _ then _ else _) as [[[h2 c2] [[]|e]]|]; [| | |done]; specialize (Hr _ eq_refl);
    [by intros [= <-]| |by intros [= <-]].
  destruct Hr as (Hg2 & Hw2 & H2). simpl in Hg2, Hw2, H2. pose proof (pass_continue_held h2 c2 H2) as H3.
  intros Ha. eapply carries_trans; [exact Hw2|]. revert Ha.
  destruct (pass_continue instant c2) as [c3 [[]|e]]; [|by intros [= <-]; apply carries_refl..].
  destruct (is_writing _); [|by intros [= <-]; apply carries_refl].
  pose proof (drive_write_held MAX_IO_STEPS_PER_TICK h2 c3 H3) as H4. fold (drive_write instant c3) in H4.
  destruct (drive_write instant c3) as [c4 r]. intros [= <-]. by apply carries_refl.
Qed.

Lemma drive_carries now h c after : good h -> connection_held h c -> drive instant stamp now h c = Some after -> carries h after.
Proof.
  intros Hg Hc. unfold drive. destruct (_ && _); [by intros [= <-]; apply carries_refl|].
  destruct (_ && _); [|by apply drive_io_carries]. destruct (is_writing _); [by intros [= <-]; apply carries_refl|].
  pose proof (timeout_keeps (stamp_of stamp c) h (exchange c) Hg Hc) as Ht. destruct (timeout _ h _) as [h1 e1].
  destruct Ht as (Hg1 & Hw1 & He1). intros Ha. eapply carries_trans; [exact Hw1|]. by apply (drive_io_carries h1 (set_exchange e1 c)).
Qed.

(** ** The reactor *)

(** A panic stops the handler in a state it may be in. *)
Context (drive_unwinds : Z -> H -> Connection S -> option (H * Connection S))
        (abort_unwinds : H -> Exchange S -> option (H * Exchange S)).
Hypothesis drive_unwinds_guarded : forall now h c h' c',
  drive_unwinds now h c = Some (h', c') -> good h -> connection_held h c ->
  good h' /\ within h h' /\ connection_held h' c'.
Hypothesis abort_unwinds_guarded : forall h e h' e',
  abort_unwinds h e = Some (h', e') -> good h -> exchange_held h e ->
  good h' /\ within h h' /\ exchange_held h' e'.
Implicit Types (m : Metrics) (conns : list (Connection S)).

Lemma caught_abort_keeps h e : good h -> exchange_held h e -> safe_step h (caught_abort abort_unwinds h e).
Proof.
  intros Hg He. unfold caught_abort. destruct (abort_unwinds h e) as [[h1 e1]|] eqn:E; [|by apply abort_session_keeps].
  by apply (abort_unwinds_guarded h e).
Qed.

Lemma fail_request_carries h c : good h -> connection_held h c -> carries h (fail_request instant abort_unwinds h c).
Proof.
  intros Hg Hc. unfold fail_request. pose proof (caught_abort_keeps h (exchange c) Hg Hc) as Hk.
  destruct (caught_abort _ h _) as [h1 e1]. by destruct Hk as (? & ? & ?).
Qed.

Lemma drive_outcome_carries now h c after : good h -> connection_held h c ->
  drive_outcome instant stamp drive_unwinds abort_unwinds now h c = Some after -> carries h after.
Proof.
  intros Hg Hc. unfold drive_outcome. destruct (drive_unwinds now h c) as [[h1 c1]|] eqn:Eu.
  - destruct (drive_unwinds_guarded _ _ _ _ _ Eu Hg Hc) as (Hg1 & Hw1 & Hc1). intros Ha.
    eapply carries_trans; [exact Hw1|]. revert Ha. destruct (negb _); [intros [= <-]; by apply carries_refl|].
    destruct (_ =? _); [|intros [= <-]; by apply fail_request_carries].
    pose proof (caught_abort_keeps h1 (exchange c1) Hg1 Hc1) as Hk. destruct (caught_abort _ h1 _) as [h2 e2].
    destruct Hk as (? & ? & _). intros [= <-]. split_and!; [done..|apply queue_held].
  - destruct (drive instant stamp now h c) as [[[h1 c1] [outcome|[]]]|] eqn:Ed; [| |done];
      pose proof (drive_carries now h c _ Hg Hc Ed) as Hd; [by intros [= <-]|].
    destruct Hd as (Hg1 & Hw1 & Hc1). destruct (request_active c1); intros [= <-]; [|done].
    eapply carries_trans; [exact Hw1|]. by apply fail_request_carries.
Qed.

Lemma drive_one_carries now h m c h' m' kept : good h -> connection_held h c ->
  drive_one instant stamp drive_unwinds abort_unwinds now h m c = Some (h', m', kept) ->
  good h' /\ within h h' /\ (forall c', kept = Some c' -> connection_held h' c').
Proof.
  intros Hg Hc. unfold drive_one. destruct (drive_outcome _ _ _ _ now h c) as [[[h1 c1] outcome]|] eqn:Eo; [|done].
  destruct (drive_outcome_carries _ _ _ _ Hg Hc Eo) as (Hg1 & Hw1 & Hc1). simpl in Hg1, Hw1, Hc1. simpl.
  destruct outcome as [|done close op|]; unfold track_operation_change, reclassify_connection.
  - simpl. destruct (request_active c1); [destruct (reclassify_in_flight _ _ _) as [m1 current]|];
      intros [= <- <- <-]; (split_and!; [done..|]); intros c' [= <-]; exact Hc1.
  - destruct (reclassify_in_flight _ _ _) as [m1 current]. destruct close;
      intros [= <- <- <-]; (split_and!; [done..|]); intros c' [= <-]; exact Hc1.
  - intros [= <- <- <-]. by split_and!.
Qed.

Lemma all_within h h' conns : within h h' -> Forall (connection_held h) conns -> Forall (connection_held h') conns.
Proof. intros Hw Hc. eapply Forall_impl; [exact Hc|]. intros c. by apply exchange_within. Qed.


Lemma drive_loop_carries rounds : forall now h m conns index h' m' conns',
  good h -> Forall (connection_held h) conns ->
  drive_loop instant stamp drive_unwinds abort_unwinds rounds now h m conns index = Some (h', m', conns') ->
  good h' /\ within h h' /\ Forall (connection_held h') conns'.
Proof.
  induction rounds as [|rounds IH]; intros now h m conns index h' m' conns' Hg Hc; simpl;
    (destruct (conns !! index) as [c|] eqn:Ei; [|intros [= <- <- <-]; split_and!; [done|apply within_refl|done]]); [done|].
  destruct (drive_one _ _ _ _ now h m c) as [[[h1 m1] kept]|] eqn:Eo; [|done].
  assert (Hci : connection_held h c) by (eapply Forall_lookup_1; [exact Hc|exact Ei]).
  destruct (drive_one_carries _ _ _ _ _ _ _ Hg Hci Eo) as (Hg1 & Hw1 & Hk). apply (all_within _ h1) in Hc; [|done].
  assert (Hnext : forall conns1 index1, Forall (connection_held h1) conns1 ->
    drive_loop instant stamp drive_unwinds abort_unwinds rounds now h1 m1 conns1 index1 = Some (h', m', conns') ->
    good h' /\ within h h' /\ Forall (connection_held h') conns').
  { intros conns1 index1 H1 E1. destruct (IH _ _ _ _ _ _ _ _ Hg1 H1 E1) as (? & ? & ?). split_and!; [done| |done].
    by eapply within_trans. }
  destruct kept as [c1|]; apply Hnext.
  - apply Forall_insert; [done|by apply Hk].
  - pose proof (swap_remove_perm _ _ _ Ei) as Hp. rewrite <- Hp in Hc. by inversion Hc.
Qed.

Lemma accept_held h overload answers : forall m conns,
  Forall (connection_held h) conns -> Forall (connection_held h) (accept_connections instant overload m conns answers).2.
Proof.
  induction answers as [|a answers IH]; intros m conns Hc; simpl; [done|].
  assert (Ha : Forall (connection_held h) (accept_one instant overload m conns a).1.2).
  { destruct a as [s configured|[]]; simpl; try done. destruct (_ <? _)%nat; simpl.
    - destruct configured; simpl; [|done]. apply Forall_app. split; [done|]. by constructor.
    - by destruct (stream_write _ _). }
  destruct (accept_one instant overload m conns a) as [[m1 conns1] []]; [by apply IH|done].
Qed.

Lemma abandon_carries conns : forall h m, good h -> Forall (connection_held h) conns ->
  good (abandon_connections instant abort_unwinds h m conns).1.
Proof.
  induction conns as [|c conns IH]; intros h m Hg Hc; [done|]. inversion_clear Hc as [|? ? Hh Ht].
  unfold abandon_connections. cbn [foldl]. fold (abandon_connections instant abort_unwinds).
  assert (Ha : good (abandon_one instant abort_unwinds (h, m) c).1 /\ within h (abandon_one instant abort_unwinds (h, m) c).1).
  { unfold abandon_one. simpl. destruct (negb _); [by split; [|apply within_refl]|].
    pose proof (caught_abort_keeps h (exchange c) Hg Hh) as Hk. destruct (caught_abort _ h _) as [h1 e1].
    unfold track_operation_change, reclassify_connection. destruct (reclassify_in_flight _ _ _) as [m1 current].
    by destruct Hk as (? & ? & _). }
  destruct (abandon_one _ _ _ _) as [h1 m1]. destruct Ha as [Hg1 Hw1]. apply IH; [done|]. by eapply all_within.
Qed.

(** ** The worker *)

Context `{Answers Host} (service_for : Z -> Z -> H -> H) (fresh : H) (boot : Clock).
Hypothesis service_for_guarded : forall inline chunk h, good h ->
  good (service_for inline chunk h) /\ within h (service_for inline chunk h).

Definition worker_held (w : Worker.HttpWorker H S) : Prop :=
  good (Worker.hw_service w) /\ Forall (connection_held (Worker.hw_service w)) (Worker.hw_connections w).

Lemma for_worker_held h : good h -> ensures (Worker.for_worker service_for h) (fun h' => good h' /\ within h h').
Proof. intros Hg. apply ensures_any. intros i. apply ensures_any. intros k. apply ensures_ret. by apply service_for_guarded. Qed.

Lemma reload_held slot launcher_pid w : worker_held w -> ensures (Worker.reload service_for slot launcher_pid w) worker_held.
Proof.
  intros [Hg Hc]. unfold Worker.reload. apply ensures_any. intros _.
  eapply ensures_bind; [by apply for_worker_held|]. intros h' [Hg' Hw'].
  assert (Hk : worker_held (Worker.set_service h' w)) by (split; [done|]; by eapply all_within).
  apply ensures_any. intros [config|error]; [|apply ensures_any; intros _; by apply ensures_ret].
  destruct (_ ==b _); [by apply ensures_ret|]. apply ensures_any. intros [fd|error].
  - apply ensures_any. intros _. apply ensures_any. intros _. by apply ensures_ret.
  - apply ensures_any. intros _. by apply ensures_ret.
Qed.

Lemma http_turn_held slot launcher_pid overload w : worker_held w ->
  ensures (Worker.http_turn instant stamp drive_unwinds abort_unwinds service_for slot launcher_pid overload w)
    (fun r => forall w', r = Some w' -> worker_held w').
Proof.
  intros Hw. unfold Worker.http_turn. apply ensures_any. intros hup.
  eapply ensures_bind with (P := worker_held); [destruct hup; [by apply reload_held|by apply ensures_ret]|].
  intros w1 [Hg Hc]. apply ensures_any. intros accepted.
  pose proof (accept_held _ overload accepted (Worker.hw_metrics w1) _ Hc) as Ha.
  destruct (accept_connections _ _ _ _ _) as [m conns]. apply ensures_any. intros t.
  destruct (drive_connections _ _ _ _ _ _ _ _) as [[[h m1] conns1]|] eqn:Ed; [|by apply ensures_ret].
  destruct (drive_loop_carries _ _ _ _ _ _ _ _ _ Hg Ha Ed) as (Hg1 & _ & Hc1).
  apply ensures_any. intros t1. destruct (_ <=? _).
  - do 3 (apply ensures_any; intros ?). apply ensures_ret. by intros w' [= <-].
  - apply ensures_ret. by intros w' [= <-].
Qed.

Lemma http_loop_held fuel : forall slot launcher_pid overload w, worker_held w ->
  ensures (Worker.http_loop instant stamp drive_unwinds abort_unwinds service_for fuel slot launcher_pid overload w)
    (fun r => worker_held r.2).
Proof.
  induction fuel as [|fuel IH]; intros slot launcher_pid overload w Hw; simpl; [by apply ensures_ret|].
  eapply ensures_bind; [by apply http_turn_held|]. intros [w1|] H1; [|by apply ensures_ret].
  apply ensures_any. intros []; [apply IH|apply ensures_ret]; by apply H1.
Qed.

(** However a worker runs, and wherever it is stopped, the handler it leaves is
    a good one. *)
Lemma worker_guarded fuel argument database : good fresh ->
  ensures (Worker.pgs3_http_main instant stamp drive_unwinds abort_unwinds service_for fresh boot fuel argument database)
    (fun r => good r.2).
Proof.
  intros Hg. unfold Worker.pgs3_http_main. destruct (unpack_child_argument argument) as [launcher_pid slot].
  apply ensures_any. intros role. apply ensures_any. intros [[]|e]; [|by apply ensures_ret].
  apply ensures_any. intros []; [|by apply ensures_ret]. simpl.
  apply ensures_any. intros [config|error]; [|apply ensures_any; intros _; by apply ensures_ret].
  apply ensures_any. intros [fd|error]; [|apply ensures_any; intros _; by apply ensures_ret].
  unfold Worker.serve. eapply ensures_bind; [by apply for_worker_held|]. intros h [Hh _].
  apply ensures_any. intros t. apply ensures_any. intros _.
  eapply ensures_bind; [apply http_loop_held; by split; [|constructor]|]. intros [[] w] [Hgw Hcw]; try (by apply ensures_ret).
  eapply ensures_bind with (P := good); [|intros h1 H1; by apply ensures_ret].
  unfold Worker.http_shutdown. pose proof (abandon_carries _ _ (Worker.hw_metrics w) Hgw Hcw) as Ha.
  destruct (abandon_connections _ _ _ _ _) as [h1 m1]. do 3 (apply ensures_any; intros ?). by apply ensures_ret.
Qed.
End Guarded.
