(* ===== verification/Stack.v ===== *)
(** The whole of an HTTP worker: the main function of [Worker] with the service
    of [Session], configured by [Config], over the database of [PgDatabase].

    A call of the service is the statements of its method; the statements
    behind a history of calls are found by running the methods again in its
    order.  The theorem is about every run of the worker: what its statements
    may be, and whose signature stands behind them. *)
From S2P Require Import Prelude Text Http Headers Canonical SigV4 Base64 Chunked XmlWrite Types Framing Response.
From S2P Require Import Exchange XmlParse Checksums Calendar ListXml Route Database Metadata Dispatch PgDatabase Session.
From S2P Require Import Metrics Connection Reactor Host Guarded Effects.
From S2P Require Worker Config Launcher Upload.

(** * The service over SPI *)

Section Spi.
Context `{Answers Spi} (spi_error : ColumnProblem -> bytes).
(** The clocks and the ids of requests. *)
Context (instant_now system_time_now : history -> Z) (request_ids : history -> bytes).
#[local] Abbreviation trace := (list (Interaction Spi)).

(** The statements of an event. *)
Definition behind (hs : trace) (e : Happened) : trace :=
  match e with
  | Happens effect _ => match effect with Call op => (pg_call spi_error op hs).1 | _ => hs end
  end.

Definition spi_history (h : history) : trace := foldl behind [] h.

(** The world whose database is [PgDatabase]. *)
Definition pg_world : World := fun A h effect =>
  match effect in Effect A return A with
  | Call op => (pg_call spi_error op (spi_history h)).2
  | InstantNow => instant_now h
  | SystemTimeNow => system_time_now h
  | RequestId => request_ids h
  end.

(** A call in this world is its method, run where the calls before it have
    left the server. *)
Lemma call_runs {A} (op : DbOp A) h :
  pg_call spi_error op (spi_history h) = (spi_history (call (H := pg_world) op h).1, (call (H := pg_world) op h).2).
Proof.
  unfold spi_history at 2. cbn. rewrite foldl_app. cbn. unfold answers, pg_world. fold (spi_history h).
  apply surjective_pairing.
Qed.

(** The transaction of a call: under the role [role], for [tenant]. *)
Definition transacted (role tenant : option bytes) (t : trace) : Prop :=
  exists s, Effects.observe (request_rules role tenant) idle t = Some s /\ armed s = false /\ opened s = false.

(** Nothing but credentials is read. *)
Definition reads_credentials (t : trace) : Prop :=
  forall update sql limit args reply, In (Happens (Query update sql limit args) reply) t ->
    update = false /\ (sql = SERVER_REQUEST_CONTEXT_SQL \/ sql = lookup_sql).

(** The row of [key] has been read and holds [c]. *)
Definition credential_read (key : bytes) (c : Credential) (t : trace) : Prop :=
  exists rest rows,
    In (Happens (Query false lookup_sql (Some 1) [DText key])
         (Rows ((DText (secret c) :: DText (cred_role c) :: rest) :: rows))) t.

(** Of the events of a transaction, only those of its body are statements. *)
Definition silent (t : trace) : Prop :=
  Forall (fun e : Interaction Spi => match e with Happens effect _ => match effect with Query _ _ _ _ => False | _ => True end end) t.

Lemma silent_query t update sql limit args reply : silent t -> ~ In (Happens (Query update sql limit args) reply) t.
Proof. unfold silent. rewrite List.Forall_forall. intros Ht Hi. exact (Ht _ Hi). Qed.

(** A body between events that are no statements; its value is the outcome's. *)
Definition enclosed {A} (P : trace -> result Failure A -> Prop) (t : trace) (r : result DbError A) : Prop :=
  exists pre tb post rb, t = pre ++ tb ++ post /\ silent pre /\ silent post /\ P tb rb /\ forall a, r = Ok a -> rb = Ok a.

Lemma enclosed_ask {A B} (effect : Spi B) (k : B -> InSpi (result DbError A)) (P : trace -> result Failure A -> Prop) :
  (forall b, silent [Happens effect b]) -> (forall b, runs (k b) (fun _ => enclosed P)) ->
  runs (bind (ask effect) k) (fun _ => enclosed P).
Proof.
  intros Hs Hk. eapply runs_bind; [apply runs_ask with (P := fun _ t b => t = [Happens effect b]); done|].
  intros b. eapply runs_weaken; [apply Hk|]. intros h t r (pre & tb & post & rb & -> & Hp & Ht & HP & Hr) ? ? _ ->.
  exists (Happens effect b :: pre), tb, post, rb. split_and!; [done| |done..].
  apply Forall_cons. split; [|done]. pose proof (Hs b) as Hb. by inversion_clear Hb.
Qed.

Lemma transaction_runs {A} (body : InSpi (result Failure A)) (P : trace -> result Failure A -> Prop) :
  runs body (fun _ => P) -> runs (transaction body) (fun _ => enclosed P).
Proof.
  intros Hb. unfold transaction. do 4 (apply enclosed_ask; [by repeat constructor|]; intros ?).
  eapply runs_bind; [exact Hb|]. intros rb.
  assert (Hrest : runs (E := Spi)
    (let! outcome :=
       match rb with
       | Err (Threw report) => ret (Err (Threw report))
       | outcome => let! raised := ask CommitTransaction in
                    ret (match raised with Some report => Err (Threw report) | None => outcome end)
       end in
     let! _ := ask DisableTimeout in
     match outcome with
     | Ok a => ret (Ok a)
     | Err (Failed error) => ret (Err error)
     | Err (Threw report) => let! _ := ask AbortCurrentTransaction in ret (Err (caught_error report))
     end) (fun _ t r => silent t /\ forall a, r = Ok a -> rb = Ok a)).
  { intros h. unfold bind, ask, ret. destruct rb as [a|[e|report]]; cbn;
      try (destruct (answers (option Report) h CommitTransaction) as [report|]; cbn);
      (eexists; split; [by rewrite <- ?app_assoc|]).
    all: split; [repeat (apply List.Forall_cons; [exact I|]); apply List.Forall_nil|].
    all: cbn; congruence. }
  eapply runs_weaken; [exact Hrest|]. intros h2 t2 r [Ht Hr] h t -> HP. exists [], t, t2, rb.
  split_and!; [done|apply List.Forall_nil|done..].
Qed.

Lemma query_runs update sql limit args :
  runs (query update sql limit args) (fun _ t r => exists reply,
    t = [Happens (Query update sql limit args) reply] /\ forall rows, r = Ok rows -> reply = Rows rows).
Proof.
  eapply runs_bind; [apply runs_ask with (P := fun _ t b => t = [Happens (Query update sql limit args) b]); done|].
  intros reply. apply runs_ret. intros _ h t _ ->. exists reply. split; [done|]. by destruct reply as [r| |]; intros rows [= <-].
Qed.

Lemma credential_columns row c : credential spi_error (Some row) = Ok (Some c) ->
  exists rest, row = DText (secret c) :: DText (cred_role c) :: rest.
Proof.
  unfold credential, required, value. destruct row as [|[] [|[] rest]]; simpl; try done. intros [= <-]. by exists rest.
Qed.

Lemma lookup_trace key :
  runs (pg_call spi_error (lookup_credential key)) (fun _ t r =>
    reads_credentials t /\ forall c, r = Ok (Some c) -> credential_read key c t).
Proof.
  eapply runs_weaken.
  - apply transaction_runs with (P := fun t r => reads_credentials t /\ forall c, r = Ok (Some c) -> credential_read key c t).
    eapply runs_bind; [apply query_runs|]. intros [rows|e].
    + eapply runs_bind; [apply query_runs|]. intros [rows2|e].
      * apply runs_ret. intros h2 h1 t1 -> (reply2 & -> & H2) h t -> (reply & -> & _). specialize (H2 _ eq_refl) as ->.
        split; [|].
        -- intros update sql limit args r [[= <- <- <- <- ?]|[[= <- <- <- <- ?]|[]]]; auto.
        -- intros c Ec. destruct rows2 as [|row rows2]; [done|].
           apply map_err_Ok, credential_columns in Ec as [rest ->]. exists rest, rows2. simpl. auto.
      * apply runs_ret. intros h2 h1 t1 -> (reply2 & -> & _) h t -> (reply & -> & _). split; [|done].
        intros update sql limit args r [[= <- <- <- <- ?]|[[= <- <- <- <- ?]|[]]]; auto.
    + apply runs_ret. intros h1 h t -> (reply & -> & _). split; [|done].
      intros update sql limit args r [[= <- <- <- <- ?]|[]]; auto.
  - intros _ t r (pre & tb & post & rb & -> & Hp & Ht & [Hq Hc] & Hr). split.
    + intros update sql limit args reply Hi. apply in_app_or in Hi as [Hi|Hi]; [by apply silent_query in Hi|].
      apply in_app_or in Hi as [Hi|Hi]; [by eapply Hq|by apply silent_query in Hi].
    + intros c Ec. destruct (Hc c) as (rest & rows & Hi); [by apply Hr|]. exists rest, rows.
      apply in_or_app. right. apply in_or_app. by left.
Qed.
(** Every call is one transaction by the rules of its request. *)
Lemma call_trace {A} (op : DbOp A) a h : exists t,
  spi_history (h ++ [Happens (Call op) a]) = spi_history h ++ t /\ transacted (transaction_role op) (role_of op) t.
Proof.
  destruct (pg_call_obeys spi_error op (spi_history h)) as (t & Et & s & Hs & Ha & Ho & _). exists t.
  unfold spi_history. rewrite foldl_app. split; [exact Et|]. by exists s.
Qed.

Lemma lookup_reads key a h t : spi_history (h ++ [Happens (Call (lookup_credential key)) a]) = spi_history h ++ t ->
  reads_credentials t /\ forall c, pg_world _ h (Call (lookup_credential key)) = Ok (Some c) -> credential_read key c t.
Proof.
  unfold spi_history at 1. rewrite foldl_app. cbn [foldl behind]. fold (spi_history h).
  destruct (lookup_trace key (spi_history h)) as (t' & Et & Hr & Hc). rewrite Et. intros Eq. apply app_inv_head in Eq as <-.
  by split.
Qed.

Lemma spi_history_app h t : exists u, spi_history (h ++ t) = spi_history h ++ u.
Proof.
  unfold spi_history. rewrite foldl_app. generalize (foldl behind [] h). induction t as [|e t IH]; intros hs.
  - exists []. by rewrite app_nil_r.
  - simpl. assert (He : exists v, behind hs e = hs ++ v).
    { destruct e as [A effect a]. destruct effect; simpl; try (exists []; by rewrite app_nil_r).
      destruct (pg_call_obeys spi_error op hs) as (v & Ev & _). by exists v. }
    destruct He as [v ->]. destruct (IH (hs ++ v)) as [u ->]. exists (v ++ u). by rewrite app_assoc.
Qed.
(** A credential that was found has been read. *)
Lemma credential_found h key c a u : pg_world _ h (Call (lookup_credential key)) = Ok (Some c) ->
  credential_read key c (spi_history (h ++ Happens (Call (lookup_credential key)) a :: u)).
Proof.
  intros Hc. rewrite cons_middle, app_assoc.
  destruct (spi_history_app (h ++ [Happens (Call (lookup_credential key)) a]) u) as [w ->].
  destruct (call_trace (lookup_credential key) a h) as (t & Et & _). rewrite Et.
  destruct (lookup_reads key a h t Et) as [_ Hr]. destruct (Hr c Hc) as (rest & rows & Hi). exists rest, rows.
  apply in_or_app. left. apply in_or_app. by right.
Qed.
End Spi.

(** * The service under its configuration *)

Section Service.
Context `{World} `{BodyHash} `{XmlReader} `{HttpDates}.

(** The service of a worker: its configuration, and the history of its
    database. *)
Definition ConfiguredService : S3Handler (ServiceConfig * history) BodySession := {|
  operation_name h request := operation_name (S3Handler := PgS3Service (fst h)) (snd h) request;
  handle_head h request :=
    let (h', o) := handle_head (S3Handler := PgS3Service (fst h)) (snd h) request in ((fst h, h'), o);
  push_body h s data :=
    let '(h', s', r) := push_body (S3Handler := PgS3Service (fst h)) (snd h) s data in ((fst h, h'), s', r);
  handler_finish h s :=
    let '(h', s', r) := handler_finish (S3Handler := PgS3Service (fst h)) (snd h) s in ((fst h, h'), s', r);
  abort_body h s :=
    let (h', s') := abort_body (S3Handler := PgS3Service (fst h)) (snd h) s in ((fst h, h'), s')
|}.

(** With the requests it was given. *)
Definition Service : Type := ServiceConfig * history * list Exchange.Call.
#[local] Instance service : S3Handler Service BodySession := traced ConfiguredService.

Definition rebuilt (inline chunk : Z) (previous : Service) : Service :=
  (Config.service_for inline chunk (fst previous), snd previous).

Definition given (request : RequestHead) (calls : list Exchange.Call) : Prop := exists received, In (CallHead request received) calls.

(** A request that was given has verified, at [now], with the secret that the
    history shows was found for its access key; the role stored with it is
    [tenant] and the request asks for [operation]. *)
Definition vouched (calls : list Exchange.Call) (h : history) (tenant : bytes) (operation : Operation) : Prop :=
  exists request key c now v h1 h2,
    h = h1 ++ Happens (Call (lookup_credential key)) (Ok (Some c)) :: Happens SystemTimeNow now :: h2 /\
    answers _ h1 (Call (lookup_credential key)) = Ok (Some c) /\ cred_role c = tenant /\
    given request calls /\ signed_with default_service_config request key c now v /\ security_token v = None /\
    classify request = Ok operation.

(** A call for a tenant follows a request that vouches for it. *)
Definition backed (calls : list Exchange.Call) (h : history) (e : Happened) : Prop :=
  asked (fun _ op => role_of op = None \/ exists tenant operation, vouched calls h tenant operation /\ permitted tenant operation _ op) e.

Definition good (w : Service) : Prop :=
  let '(config, h, calls) := w in
  config_clock_skew config = config_clock_skew default_service_config /\
  config_region config = config_region default_service_config /\
  forall h1 e h2, h = h1 ++ e :: h2 -> backed calls h1 e.

Definition held (w : Service) (s : BodySession) : Prop :=
  let '(_, h, calls) := w in vouched calls h (role s) (s_operation s) /\ own_sink s.

Definition within (w w' : Service) : Prop :=
  let '(_, h, calls) := w in let '(_, h', calls') := w' in (exists t, h' = h ++ t) /\ (exists u, calls' = calls ++ u).

Lemma vouched_within calls h tenant operation t u :
  vouched calls h tenant operation -> vouched (calls ++ u) (h ++ t) tenant operation.
Proof.
  intros (request & key & c & now & v & h1 & h2 & -> & Ha & Hr & [received Hg] & Hrest).
  exists request, key, c, now, v, h1, (h2 ++ t). split; [by rewrite <- app_assoc|]. split; [done|]. split; [done|].
  split; [exists received; apply in_or_app; by left|done].
Qed.

Lemma backed_more calls h e u : backed calls h e -> backed (calls ++ u) h e.
Proof.
  unfold backed. destruct e as [A effect a]. destruct effect; try done. intros [Hn|(tenant & o & Hv & Hp)]; [by left|right].
  exists tenant, o. split; [|done]. rewrite <- (app_nil_r h). by apply vouched_within.
Qed.

Lemma good_extend config h calls t u : good (config, h, calls) ->
  (forall t1 e t2, t = t1 ++ e :: t2 -> backed (calls ++ u) (h ++ t1) e) -> good (config, h ++ t, calls ++ u).
Proof.
  intros (Hs & Hr & Hg) Ht. do 2 (split; [done|]). intros h1 e h2 E.
  apply app_eq_inv in E as [(k & -> & E)|(k & -> & ->)]; [|by eapply Ht].
  destruct k as [|e' k]; simpl in E.
  - specialize (Ht [] e h2 (eq_sym E)). by rewrite !app_nil_r in Ht.
  - injection E as -> _. apply backed_more. by eapply Hg.
Qed.

Lemma permitted_backed calls h tenant operation t :
  vouched calls h tenant operation -> Forall (asked (permitted tenant operation)) t ->
  forall t1 e t2, t = t1 ++ e :: t2 -> backed calls (h ++ t1) e.
Proof.
  intros Hv Ht t1 e t2 ->. apply Forall_app in Ht as [_ Ht]. inversion_clear Ht as [|? ? He _]. revert He.
  unfold backed. destruct e as [A effect a]. destruct effect; try done. intros He. right. exists tenant, operation.
  split; [|done]. rewrite <- (app_nil_r calls). by apply vouched_within.
Qed.

Lemma roleless_backed calls h e : asked roleless e -> backed calls h e.
Proof. unfold backed. destruct e as [A effect a]. destruct effect; try done. by left. Qed.

(** The methods of a session keep to what vouches for it. *)
Lemma session_guarded {R} config h calls s (c : Run (BodySession * R)) u :
  good (config, h, calls) -> held (config, h, calls) s ->
  asks (permitted (role s) (s_operation s)) (fun p => follows s p.1) c ->
  let after := (config, (c h).1, calls ++ u) in
  good after /\ within (config, h, calls) after /\ held after (c h).2.1.
Proof.
  intros Hg [Hv Hk] Hc. destruct (Hc h) as (t & E & Ht & Hf). destruct Hf as (Er & Eo & Hk').
  cbv zeta. rewrite E. split_and!.
  - apply good_extend; [done|]. apply permitted_backed with (tenant := role s) (operation := s_operation s); [|done].
    rewrite <- (app_nil_r h). by apply vouched_within.
  - split; [by exists t|by exists u].
  - simpl. rewrite Er, Eo. split; [by apply vouched_within|done].
Qed.

Lemma signed_with_default config request key c now v :
  config_clock_skew config = config_clock_skew default_service_config ->
  config_region config = config_region default_service_config ->
  signed_with config request key c now v -> signed_with default_service_config request key c now v.
Proof. unfold signed_with. by intros -> ->. Qed.

Lemma app_three {A} (l : list A) x y z k : l ++ x :: y :: z :: k = (((l ++ [x]) ++ [y]) ++ [z]) ++ k.
Proof. by rewrite <- !app_assoc. Qed.

(** Once a head has verified, it vouches for what follows. *)
Lemma head_vouches config h calls request id key c now v operation :
  good (config, h, calls) ->
  forall calls', given request calls' ->
  answers _ (h ++ [Happens RequestId id]) (Call (lookup_credential key)) = Ok (Some c) ->
  signed_with config request key c now v -> security_token v = None -> classify request = Ok operation ->
  vouched calls' (((h ++ [Happens RequestId id]) ++ [Happens (Call (lookup_credential key)) (Ok (Some c))])
    ++ [Happens SystemTimeNow now]) (cred_role c) operation.
Proof.
  intros (Hs & Hr & _) calls' Hg Ha Hv Hn Hc. exists request, key, c, now, v, (h ++ [Happens RequestId id]), [].
  split; [by rewrite <- !app_assoc|]. do 3 (split; [done|]). split; [by eapply signed_with_default|done].
Qed.

Lemma service_head_guarded config h calls request :
  good (config, h, calls) ->
  let o := (service_head config request h).2 in
  let after := (config, (service_head config request h).1,
                calls ++ [CallHead request (match o with ReceiveBody _ => true | Immediate _ => false end)]) in
  good after /\ within (config, h, calls) after /\ match o with ReceiveBody s => held after s | Immediate _ => True end.
Proof.
  intros Hg. destruct (service_head_runs config request h) as (t & E & Ht). cbv zeta. rewrite E.
  destruct Ht as (id & u & -> & Ht). destruct (service_head config request h) as [h' o]. simpl in E, Ht |- *. subst h'.
  set (received := match o with ReceiveBody _ => true | Immediate _ => false end).
  assert (Hgiven : given request (calls ++ [CallHead request received])).
  { exists received. apply in_or_app. right. by left. }
  split; [|split]; [|split; by eexists|].
  - apply good_extend; [done|]. destruct Ht as [[Hu _]|(key & c & now & v & op & rest & -> & Ha & Hs & Hn & Hc & Hr & _)].
    + intros t1 e t2 Et. apply roleless_backed.
      assert (Hall : Forall (asked roleless) (Happens RequestId id :: u)) by (by constructor).
      rewrite Et in Hall. apply Forall_app in Hall as [_ Hall]. by inversion_clear Hall.
    + intros [|e1 [|e2 [|e3 t1]]] e t2 Et; cbn [app] in Et; simplify_eq; [done|by left|done|].
      rewrite app_three. eapply permitted_backed; [|exact Hr|done]. by eapply head_vouches.
  - destruct o as [response|s]; [done|].
    destruct Ht as [[_ []]|(key & c & now & v & op & rest & -> & Ha & Hs & Hn & Hc & Hr & Er & Eo & Hk)]. split; [|done].
    rewrite Er, Eo, app_three. rewrite <- (app_nil_r (calls ++ _)). apply vouched_within. by eapply head_vouches.
Qed.

#[local] Instance service_guarded : Guarded service within good held.
Proof.
  split.
  - intros [[config h] calls]. split; exists []; by rewrite app_nil_r.
  - intros [[config1 h1] calls1] [[config2 h2] calls2] [[config3 h3] calls3] [[t ->] [u ->]] [[t' ->] [u' ->]].
    split; eexists; by rewrite <- app_assoc.
  - intros [[config h] calls] [[config' h'] calls'] s [[t ->] [u ->]] [Hv Hk]. split; [by apply vouched_within|done].
  - intros [[config h] calls] request Hg. pose proof (service_head_guarded config h calls request Hg) as Hh. simpl.
    destruct (service_head config request h) as [h' o]. exact Hh.
  - intros [[config h] calls] s data Hg Hs. simpl.
    destruct (session_push config s data h) as [h' [s' r]] eqn:E.
    pose proof (session_guarded config h calls s (session_push config s data) [CallPush data (is_ok r)] Hg Hs) as Hp.
    rewrite E in Hp. apply Hp. apply tame_permitted, session_push_asks, Hs.
  - intros [[config h] calls] s Hg Hs. simpl.
    destruct (session_finish config s h) as [h' [s' r]] eqn:E.
    pose proof (session_guarded config h calls s (session_finish config s) [CallFinish] Hg Hs) as Hp.
    rewrite E in Hp. apply Hp. apply session_finish_asks, Hs.
  - intros [[config h] calls] s Hg Hs. simpl.
    destruct (session_abort s h) as [h' s'] eqn:E.
    pose proof (session_guarded config h calls s (let! s' := session_abort s in ret (s', tt)) [CallAbort] Hg Hs) as Hp.
    unfold bind, ret in Hp. rewrite E in Hp. apply Hp. eapply asks_bind; [apply tame_permitted, session_abort_asks, Hs|].
    intros s2 Hf. by apply asks_ret.
Qed.

Lemma rebuilt_guarded inline chunk w : good w -> good (rebuilt inline chunk w) /\ within w (rebuilt inline chunk w).
Proof.
  destruct w as [[config h] calls]. intros (_ & _ & Hg). split; [done|]. split; exists []; by rewrite app_nil_r.
Qed.

(** A panic stops the service after some of the calls it would have made. *)
Definition interrupted (full stopped : Service) : Prop :=
  let '(config, h, calls) := full in let '(config', h', calls') := stopped in
  config' = config /\ calls' = calls /\ exists u, h = h' ++ u.

Lemma good_interrupted full stopped : good full -> interrupted full stopped -> good stopped.
Proof.
  destruct full as [[config h] calls], stopped as [[config' h'] calls']. intros (Hs & Hr & Hg) (-> & -> & u & ->).
  do 2 (split; [done|]). intros h1 e h2 ->. eapply Hg. by rewrite <- app_assoc.
Qed.
End Service.

(** * Main theorem *)

Section Main.
Context `{Answers Spi} `{Answers Host} `{BodyHash} `{XmlReader} `{HttpDates}.
Context (spi_error : ColumnProblem -> bytes) (instant_now system_time_now : history -> Z) (request_ids : history -> bytes).
Context (instant : nat -> Z) (stamp : nat -> Clock) (boot : Clock).
#[local] Instance database_world : World := pg_world spi_error instant_now system_time_now request_ids.
#[local] Existing Instance service.
Context (drive_unwinds : Z -> Service -> Connection BodySession -> option (Service * Connection BodySession))
        (abort_unwinds : Service -> Exchange BodySession -> option (Service * Exchange BodySession)).

(** The worker with nothing done yet. *)
Definition worker (fuel : nat) (argument : Z) (database : bytes) : Do (Worker.Exit * Service) :=
  Worker.pgs3_http_main instant stamp drive_unwinds abort_unwinds rebuilt (default_service_config, [], []) boot
    fuel argument database.

(** Panics stop the service in the middle of what it does, and leave the
    connection with no session but one that was opened. *)
Definition panics_stop : Prop :=
  (forall now w c w' c', drive_unwinds now w c = Some (w', c') ->
     (exists full c1 r, drive instant stamp now w c = Some (full, c1, r) /\ interrupted full w') /\
     within w w' /\ connection_held (held := held) w' c') /\
  (forall w e w' e', abort_unwinds w e = Some (w', e') ->
     interrupted (abort_session w e).1 w' /\ within w w' /\ exchange_held (held := held) w' e').

Lemma worker_good fuel argument database : panics_stop -> ensures (worker fuel argument database) (fun r => good r.2).
Proof.
  intros [Hd Ha]. apply (worker_guarded (guarded := service_guarded)).
  - intros now w c w' c' E Hg Hc. destruct (Hd _ _ _ _ _ E) as ((full & c1 & r & Ef & Hi) & Hw & Hc').
    split_and!; [|done..]. eapply good_interrupted; [|exact Hi].
    by destruct (drive_carries (guarded := service_guarded) instant stamp now w c _ Hg Hc Ef).
  - intros w e w' e' E Hg He. destruct (Ha _ _ _ _ E) as (Hi & Hw & He'). split_and!; [|done..].
    eapply good_interrupted; [|exact Hi]. by destruct (abort_session_keeps (guarded := service_guarded) w e Hg He).
  - intros inline chunk w. apply rebuilt_guarded.
  - split; [done|]. split; [done|]. by intros [] ? ?.
Qed.

(** C1: Nobody's statement runs without a signature, in the whole of an HTTP
    worker, from its sockets to the database: whatever clients send, however
    their connections interleave, fail, time out or panic, whenever it is
    reloaded and wherever it is stopped, the statements the worker has sent
    are one transaction for each call of the service, opened under the role of
    the call and closed by the rules of a request; a call for no tenant only
    reads credentials; and before a call for a tenant the worker was given a
    request, which asks for an operation that makes such calls, and read from
    the database the secret and that very role under the access key of the
    request, whose signature verifies with this secret. *)
Theorem worker_statements fuel argument database : panics_stop ->
  ensures (worker fuel argument database) (fun r =>
    let '(_, h, calls) := r.2 in
    forall h1 A (op : DbOp A) a h2, h = h1 ++ Happens (Call op) a :: h2 ->
    exists t, spi_history spi_error (h1 ++ [Happens (Call op) a]) = spi_history spi_error h1 ++ t /\
      transacted (transaction_role op) (role_of op) t /\
      match role_of op with
      | None => reads_credentials t
      | Some tenant => exists request operation key c now v,
          given request calls /\ classify request = Ok operation /\ permitted tenant operation A op /\
          cred_role c = tenant /\ credential_read key c (spi_history spi_error h1) /\
          signed_with default_service_config request key c now v /\ security_token v = None
      end).
Proof.
  intros Hp hh. pose proof (worker_good fuel argument database Hp hh) as Hg.
  destruct (worker fuel argument database hh) as [hh' [exit [[config h] calls]]]. simpl in Hg |- *.
  intros h1 A op a h2 E. destruct (call_trace spi_error op a h1) as (t & Et & Ht). exists t. split; [exact Et|]. split; [exact Ht|].
  destruct Hg as (_ & _ & Hg). specialize (Hg _ _ _ E). unfold backed in Hg. simpl in Hg.
  destruct Hg as [Hn|(tenant & operation & Hv & Hperm)].
  - destruct op; try done. by destruct (lookup_reads spi_error instant_now system_time_now request_ids _ _ _ _ Et).
  - destruct Hperm as [Hr Hrest]. rewrite Hr.
    destruct Hv as (request & key & c & now & v & g1 & g2 & -> & Ha & Hc & Hreq & Hs & Hn & Ho).
    exists request, operation, key, c, now, v. do 4 (split; [done|]). split; [|done].
    by apply (credential_found spi_error instant_now system_time_now request_ids).
Qed.
End Main.

(** ** Witness: an upload from its socket to the statements that publish it *)

#[local] Existing Instance sample_hash.
#[local] Existing Instance sample_dates.
#[local] Instance no_document : XmlReader := one_document [].

(** A server that knows one access key and takes every upload. *)
Definition upload_server : Answers Spi := fun A h effect =>
  match effect in Spi B return B with
  | RecoveryInProgress => false
  | StatementTimeoutMs => 30000
  | DisableTimeout => tt
  | EnableTimeoutAfter _ => tt
  | StartTransaction => tt
  | CommitTransaction => None
  | AbortCurrentTransaction => tt
  | Query _ sql _ _ =>
      Rows [if sql ==b lookup_sql then [DText sample_secret; DText (bs "tenant")]
            else if sql ==b put_chunk_sql then [DBytea (bs "blob"); DBigint 5]
            else if sql ==b complete_upload_sql then row_of_object sample_object
            else [DText (bs "upload")]]
  end.

(** A client that uploads five bytes. *)
Definition upload_stream : TcpStream :=
  {| arriving := [Ok (join crlf (Upload.put_lines Upload.put_signature ++ [[]; []])); Err WouldBlock; Ok (bs "hello"); Ok []];
     accepting := repeat (Ok 1000%nat) 4; sent := []; shut_down := false; ticks := O |}.

Definition upload_host : Answers Host := fun A h effect =>
  match effect in Host B return B with
  | SigtermReceived => (60 <? length h)%nat
  | Accepts _ => if (length h <? 25)%nat then [Incoming upload_stream true] else []
  | effect => Launcher.demo_host _ h effect
  end.

Definition upload_worker : Do (Worker.Exit * Service) :=
  worker (H := upload_server) (H0 := upload_host) (fun _ => []) (fun _ => 0) (fun _ => SigV4.now sample_config) (fun _ => bs "id")
    (fun n => Z.of_nat n) (fun _ => sample_now) sample_now (fun _ _ _ => None) (fun _ _ => None) 20 1 (bs "postgres").

Lemma no_panic {A} (a : A) (P : Prop) : None = Some a -> P.
Proof. done. Qed.

Definition upload_end : Worker.Exit * Service := Eval vm_compute in (upload_worker []).2.

Definition upload_history : history := let '(_, h, _) := upload_end.2 in h.

(** The last call completes the upload for the tenant. *)
Lemma worker_statements_witness :
  upload_end.1 = Worker.Ended /\
  exists h1 A (op : DbOp A) a, upload_history = h1 ++ [Happens (Call op) a] /\ role_of op = Some (bs "tenant") /\
    exists request key c now v,
      cred_role c = bs "tenant" /\ credential_read key c (spi_history (H := upload_server) (fun _ => []) h1) /\
      signed_with default_service_config request key c now v.
Proof.
  split; [reflexivity|].
  assert (E : (upload_worker []).2 = upload_end) by (vm_compute; reflexivity).
  pose proof (worker_statements (H := upload_server) (H0 := upload_host) (fun _ => []) (fun _ => 0)
    (fun _ => SigV4.now sample_config) (fun _ => bs "id") (fun n => Z.of_nat n) (fun _ => sample_now) sample_now
    (fun _ _ _ => None) (fun _ _ => None) 20 1 (bs "postgres")
    (conj (fun _ _ _ _ _ => no_panic _ _) (fun _ _ _ _ => no_panic _ _)) : ensures upload_worker _) as Hw.
  specialize (Hw []). cbv beta in Hw. rewrite E in Hw.
  assert (E2 : exists config calls, upload_end = (Worker.Ended, (config, upload_history, calls))).
  { eexists _, _. vm_compute. reflexivity. }
  destruct E2 as (config & calls & E2). rewrite E2 in Hw. cbn [snd] in Hw.
  assert (E3 : exists A (op : DbOp A) a, upload_history = take 6 upload_history ++ [Happens (Call op) a] /\
    role_of op = Some (bs "tenant")).
  { eexists _, _, _. split; vm_compute; reflexivity. }
  destruct E3 as (A & op & a & E3 & Er). exists (take 6 upload_history), A, op, a. split; [exact E3|]. split; [exact Er|].
  specialize (Hw _ A op a [] E3). rewrite Er in Hw.
  destruct Hw as (t & _ & _ & request & operation & key & c & now & v & _ & _ & _ & Hc & Hr & Hs & _).
  exists request, key, c, now, v. split; [exact Hc|]. split; [exact Hr|exact Hs].
Defined.
