(* ===== verification/Probes.v ===== *)
(** The questions of the workers to PostgreSQL as statements, from
    [src/src/workers/mod.rs] and [launcher.rs]: the probes of the runtime and of
    the server role, and what the control functions look up or terminate.
    They are the questions of [Host]; here is what their answers rest on.  The
    white space of the SQL texts is collapsed.

    The theorems: the probes only read, so that they run on a standby, each in
    a transaction of its own, and whatever fails they answer no; and a launcher
    is found only where a row names its process. *)
From S2P Require Import Prelude Text Types Route Checksums ListXml Database PgDatabase Effects Host.

(** * Texts *)

Definition schema_ready_sql : bytes :=
  bs "SELECT pg_catalog.to_regclass('pgs3.worker_state') IS NOT NULL AND pg_catalog.to_regprocedure( "
    ++ bs "'pgs3._worker_set_state(text,integer,integer,text,text,integer,text)' ) IS NOT NULL AND "
    ++ bs "pg_catalog.to_regprocedure( 'pgs3._worker_set_actor(name)' ) IS NOT NULL AND "
    ++ bs "pg_catalog.to_regprocedure( 'pgs3._worker_put_chunk(name,text,text,uuid,integer,bytea,bytea)' ) IS "
    ++ bs "NOT NULL AND pg_catalog.to_regprocedure( "
    ++ bs "'pgs3._worker_complete_upload(name,text,text,uuid,bytea,bytea,text,bigint,bytea[],bigint[])' ) IS "
    ++ bs "NOT NULL".

Definition writable_sql : bytes :=
  bs "SELECT NOT pg_catalog.pg_is_in_recovery()".

Definition server_role_sql : bytes :=
  bs "SELECT EXISTS ( SELECT 1 FROM pg_catalog.pg_roles AS r WHERE r.rolname = $1 AND NOT r.rolcanlogin "
    ++ bs "AND NOT r.rolinherit AND NOT r.rolsuper AND NOT r.rolcreatedb AND NOT r.rolcreaterole AND NOT "
    ++ bs "r.rolreplication AND NOT r.rolbypassrls AND NOT EXISTS ( SELECT 1 FROM pg_catalog.pg_auth_members AS "
    ++ bs "m WHERE m.member = r.oid AND (m.admin_option OR m.inherit_option) ) AND NOT EXISTS ( SELECT 1 FROM "
    ++ bs "pg_catalog.pg_auth_members AS m WHERE m.roleid = r.oid ) AND pg_catalog.has_database_privilege( "
    ++ bs "r.rolname, pg_catalog.current_database(), 'CONNECT' ) AND pg_catalog.has_schema_privilege(r.rolname, "
    ++ bs "'pgs3', 'USAGE') AND pg_catalog.has_table_privilege( r.rolname, 'pgs3.credential', 'SELECT' ) AND "
    ++ bs "pg_catalog.has_function_privilege( r.rolname, "
    ++ bs "'pgs3._worker_set_state(text,integer,integer,text,text,integer,text)', 'EXECUTE' ) AND "
    ++ bs "pg_catalog.has_function_privilege( r.rolname, "
    ++ bs "'pgs3._worker_add_metric(text,integer,text,bigint,bigint,bigint,bigint,bigint,bigint,bigint,bigint,bigint,bigint,bigint,bigint,bigint)', "
    ++ bs "'EXECUTE' ) AND pg_catalog.has_function_privilege( r.rolname, 'pgs3._worker_set_actor(name)', "
    ++ bs "'EXECUTE' ) AND pg_catalog.has_function_privilege( r.rolname, "
    ++ bs "'pgs3._worker_put_chunk(name,text,text,uuid,integer,bytea,bytea)', 'EXECUTE' ) AND "
    ++ bs "pg_catalog.has_function_privilege( r.rolname, "
    ++ bs "'pgs3._worker_complete_upload(name,text,text,uuid,bytea,bytea,text,bigint,bytea[],bigint[])', "
    ++ bs "'EXECUTE' ) )".

Definition current_database_sql : bytes :=
  bs "SELECT pg_catalog.current_database()::text".

Definition active_launcher_sql : bytes :=
  bs "SELECT a.pid, s.mode FROM pg_catalog.pg_stat_activity AS a LEFT JOIN pgs3.worker_state AS s ON "
    ++ bs "s.worker_kind = 'launcher' AND s.worker_slot = 0 AND s.pid = a.pid WHERE a.datname = "
    ++ bs "pg_catalog.current_database() AND a.backend_type = 'pgs3 launcher' ORDER BY a.backend_start LIMIT 1".

Definition conflicting_database_sql : bytes :=
  bs "SELECT a.datname::text FROM pg_catalog.pg_stat_activity AS a WHERE a.backend_type = 'pgs3 http' AND "
    ++ bs "a.datname IS DISTINCT FROM pg_catalog.current_database() ORDER BY a.backend_start LIMIT 1".

(** The children that run are asked to end, and waited for. *)
Definition terminate_sql (timeout : Z) : bytes :=
  bs "SELECT COALESCE( bool_and(pg_catalog.pg_terminate_backend(a.pid, " ++ show_Z timeout ++ bs "::bigint)), true ) FROM "
    ++ bs "pg_catalog.pg_stat_activity AS a WHERE a.datname = pg_catalog.current_database() AND a.backend_type "
    ++ bs "IN ('pgs3 http', 'pgs3 gc')".

Definition terminate_pid_sql : bytes := bs "SELECT pg_catalog.pg_terminate_backend($1, $2)".

Definition CONTROL_LOCK : Z := 8096713151153001.

Definition control_lock_sql : bytes := bs "SELECT pg_catalog.pg_advisory_xact_lock(" ++ show_Z CONTROL_LOCK ++ bs ")".

(** * Questions *)

Section Probes.
Context `{Answers Spi} (spi_error : ColumnProblem -> bytes).

(** [BackgroundWorker::transaction]; an ERROR is not caught and ends the
    process. *)
Definition worker_transaction {A} (body : InSpi (result Report A)) : InSpi (result Report A) :=
  let! _ := ask StartTransaction in
  let? a := body in
  let! raised := ask CommitTransaction in
  ret (match raised with Some report => Err report | None => Ok a end).

(** [.ok().flatten()] on a column of the first row. *)
Definition column {T} (c : Column T) (row : option Row) (ordinal : nat) : option T :=
  match value spi_error c row ordinal with Ok v => v | Err _ => None end.

(** [Spi::connect(|client| client.select(…)?.first().get_one())], or
    [Spi::get_one], which updates. *)
Definition get_one {T} (update : bool) (c : Column T) (sql : bytes) (args : list Datum) : InSpi (result Report (option T)) :=
  let! reply := ask (Query update sql (Some 1) args) in
  ret (match reply with
       | Rows rows => Ok (column c (head rows) 1)
       | SpiFailure _ => Ok None
       | Raised report => Err report
       end).

Definition yes (answer : InSpi (result Report (option bool))) : InSpi (result Report bool) :=
  let? v := answer in ret (Ok (default false v)).

Definition probe (sql : bytes) (args : list Datum) : InSpi (result Report bool) :=
  worker_transaction (yes (get_one false AsBoolean sql args)).

Definition schema_probe : InSpi (result Report bool) := probe schema_ready_sql [].
Definition writable_probe : InSpi (result Report bool) := probe writable_sql [].
Definition role_probe (role : bytes) : InSpi (result Report bool) := probe server_role_sql [DText role].

Definition current_database : InSpi (result Report (option bytes)) := get_one false AsText current_database_sql [].
Definition conflicting_database : InSpi (result Report (option bytes)) := get_one false AsText conflicting_database_sql [].

(** [Spi::run(…).is_ok()] *)
Definition lock_control : InSpi (result Report bool) :=
  let! reply := ask (Query true control_lock_sql None []) in
  ret (match reply with Rows _ => Ok true | SpiFailure _ => Ok false | Raised report => Err report end).

(** [get_two]: both columns are read before either is used. *)
Definition active_launcher : InSpi (result Report (option (Z * option bytes))) :=
  let! reply := ask (Query false active_launcher_sql (Some 1) []) in
  ret (match reply with
       | Rows rows =>
           Ok (match value spi_error AsInteger (head rows) 1, value spi_error AsText (head rows) 2 with
               | Ok (Some pid), Ok mode => Some (pid, mode)
               | _, _ => None
               end)
       | SpiFailure _ => Ok None
       | Raised report => Err report
       end).

(** [terminate_live_children], in the caller's transaction, and the query of
    [cleanup_orphan_children], in one of its own. *)
Definition terminate_backends (timeout : Z) : InSpi (result Report bool) :=
  yes (get_one true AsBoolean (terminate_sql timeout) []).
Definition terminate_orphans : InSpi (result Report bool) := worker_transaction (terminate_backends 2000).
Definition terminate_process (pid timeout : Z) : InSpi (result Report bool) :=
  yes (get_one true AsBoolean terminate_pid_sql [DInteger pid; DBigint timeout]).

(** The statements behind the questions of [Host]. *)
Definition question {A} (q : Host A) : option (InSpi (result Report A)) :=
  match q in Host A return option (InSpi (result Report A)) with
  | RuntimeSchemaReady => Some schema_probe
  | RuntimeIsWritable => Some writable_probe
  | ServerRoleReady role => Some (role_probe role)
  | CurrentDatabase => Some current_database
  | ConflictingDatabase => Some conflicting_database
  | ActiveLauncher => Some active_launcher
  | ControlLock => Some lock_control
  | TerminatePid pid timeout => Some (terminate_process pid timeout)
  | _ => None
  end.

(** * Properties *)

(** A question that only looks. *)
Definition looks {A} (q : Host A) : bool :=
  match q with
  | RuntimeSchemaReady | RuntimeIsWritable | ServerRoleReady _ | CurrentDatabase | ConflictingDatabase | ActiveLauncher => true
  | _ => false
  end.

Definition reading (e : Interaction Spi) : Prop :=
  match e with Happens effect _ => match effect with Query update _ _ _ => update = false | _ => True end end.

(** The first row of a reply. *)
Definition first_reply (t : list (Interaction Spi)) (row : Row) : Prop :=
  exists update sql limit args rows, In (Happens (Query update sql limit args) (Rows (row :: rows))) t.

Lemma get_one_runs {T} update (c : Column T) sql args :
  runs (get_one update c sql args) (fun _ t r =>
    (update = false -> Forall reading t) /\
    forall v, r = Ok (Some v) -> exists d rest, from_datum c d = Some (Some v) /\ first_reply t (d :: rest)).
Proof.
  eapply runs_bind; [apply runs_ask with (P := fun _ t b => t = [Happens (Query update sql (Some 1) args) b]); done|].
  intros reply. apply runs_ret. intros _ h t _ ->. split; [intros ->; by repeat constructor|].
  intros v. destruct reply as [[|[|d rest] rows]| |]; try done. unfold column, value. cbn.
  destruct (from_datum c d) as [v'|] eqn:E; [|done]. intros [= ->]. exists d, rest. split; [done|].
  exists update, sql, (Some 1), args, rows. by left.
Qed.

Lemma first_reply_in pre t post row : first_reply t row -> first_reply (pre ++ t ++ post) row.
Proof.
  intros (update & sql & limit & args & rows & Hi). exists update, sql, limit, args, rows.
  apply in_or_app. right. apply in_or_app. by left.
Qed.

(** A yes that the server has given; only looked for. *)
Definition grounded (t : list (Interaction Spi)) (r : result Report bool) : Prop :=
  Forall reading t /\ (r = Ok true -> exists rest, first_reply t (DBoolean true :: rest)).

Lemma yes_runs sql args : runs (yes (get_one false AsBoolean sql args)) (fun _ => grounded).
Proof.
  eapply runs_bind; [apply get_one_runs|]. intros r. destruct r as [v|report]; apply runs_ret; intros h2 h t _ [Hr Hv];
    rewrite app_nil_r; (split; [by apply Hr|]); [|done].
  destruct v as [[]|]; [|done..]. intros _. destruct (Hv true eq_refl) as (d & rest & Ed & Hf). exists rest.
  by destruct d; simplify_eq/=.
Qed.

Lemma worker_transaction_runs body : runs body (fun _ => grounded) -> runs (worker_transaction body) (fun _ => grounded).
Proof.
  intros Hb. eapply runs_bind; [apply runs_ask with (P := fun _ t b => t = [Happens StartTransaction b]); done|]. intros u.
  eapply runs_bind; [exact Hb|]. intros [b|report].
  - eapply runs_bind; [apply runs_ask with (P := fun _ t c => t = [Happens CommitTransaction c]); done|].
    intros raised. apply runs_ret. intros h3 h2 t2 _ -> h1 t1 _ [Hr Hv] h t _ ->. rewrite app_nil_r. split.
    + apply Forall_app. split; [by repeat constructor|]. apply Forall_app. split; [done|by repeat constructor].
    + destruct raised; [done|]. intros [= ->]. destruct (Hv eq_refl) as [rest Hf]. exists rest. by apply first_reply_in.
  - apply runs_ret. intros h2 h1 t1 _ [Hr _] h t _ ->. rewrite app_nil_r. split; [|done]. by constructor.
Qed.

(** What stands behind the answer to a question. *)
Definition stands {A} (q : Host A) (t : list (Interaction Spi)) : result Report A -> Prop :=
  match q in Host A return result Report A -> Prop with
  | RuntimeSchemaReady | RuntimeIsWritable | ServerRoleReady _ =>
      fun r => r = Ok true -> exists rest, first_reply t (DBoolean true :: rest)
  | CurrentDatabase | ConflictingDatabase =>
      fun r => forall name, r = Ok (Some name) -> exists rest, first_reply t (DText name :: rest)
  | ActiveLauncher =>
      fun r => forall pid mode, r = Ok (Some (pid, mode)) -> exists rest, first_reply t (DInteger pid :: nullable DText mode :: rest)
  | _ => fun _ => True
  end.

Lemma text_runs sql : runs (get_one false AsText sql []) (fun _ t r =>
  Forall reading t /\ forall name, r = Ok (Some name) -> exists rest, first_reply t (DText name :: rest)).
Proof.
  eapply runs_weaken; [apply get_one_runs|]. intros h t r [Hr Hv]. split; [by apply Hr|]. intros name E.
  destruct (Hv name E) as (d & rest & Ed & Hf). exists rest. by destruct d; simplify_eq/=.
Qed.

Lemma active_launcher_runs : runs active_launcher (fun _ t r =>
  Forall reading t /\ stands ActiveLauncher t r).
Proof.
  eapply runs_bind; [apply runs_ask with (P := fun _ t b => t = [Happens (Query false active_launcher_sql (Some 1) []) b]); done|].
  intros reply. apply runs_ret. intros _ h t _ ->. split; [by repeat constructor|]. intros pid mode.
  destruct reply as [[|[|d1 [|d2 rest]] rows]| |]; try done; unfold value; cbn; destruct d1; try done; cbn; try done.
  intros E. exists rest. assert (Ed : d2 = nullable DText mode /\ n = pid) by (destruct d2; by simplify_eq/=).
  destruct Ed as [-> ->]. eexists _, _, _, _, rows. by left.
Qed.

(** The questions that only look run on a standby too: all their statements
    read, on the path that takes no transaction id.  And they fail closed: a
    probe says yes, and a database or a launcher is named, only when a row of
    the server says so; a failure, no row, a null or a column of another type
    is a no. *)
Theorem questions_fail_closed {A} (q : Host A) p :
  question q = Some p -> looks q = true -> runs p (fun _ t r => Forall reading t /\ stands q t r).
Proof.
  destruct q; intros [= <-] Hl; try done;
    first [apply worker_transaction_runs, yes_runs | apply text_runs | apply active_launcher_runs].
Qed.
End Probes.

(** A server without the role. *)
Definition roleless_server : Answers Spi := fun A h effect =>
  match effect in Spi B return B with
  | RecoveryInProgress => false
  | StatementTimeoutMs => 30000
  | DisableTimeout => tt
  | EnableTimeoutAfter _ => tt
  | StartTransaction => tt
  | CommitTransaction => None
  | AbortCurrentTransaction => tt
  | Query _ sql _ _ => Rows [[DBoolean (negb (sql ==b server_role_sql))]]
  end.

Example roleless_answers :
  (role_probe (H := roleless_server) (fun _ => []) (bs "s3") []).2 = Ok false /\
  (writable_probe (H := roleless_server) (fun _ => []) []).2 = Ok true.
Proof. vm_compute. by split. Qed.
